(* ===== verification/_CoqProject ===== *)
-Q . S2P
Prelude.v
Schedule.v
CppString.v
Json.v
Domain.v
UseCases.v
Reference.v
UseCaseRuns.v
Logging.v
Jwt.v
Sql.v
Postgres.v
PoolUse.v
Mailbox.v
Actor.v
Handlers.v
Dto.v
Runtime.v
RuntimeInv.v
RuntimeFlow.v
RuntimeOrder.v
RuntimeProgress.v
RuntimeFair.v
RuntimeDelivery.v
RuntimeRuns.v
WsSession.v
Gateway.v
GatewayOrder.v
GatewayRuns.v
HttpRouter.v
HttpEndpoints.v
HttpNet.v
EndToEnd.v
Config.v
Server.v
ServerHistory.v
ServerThreads.v
Acceptor.v
Shutdown.v
ServerLife.v
ServerDelivery.v
Startup.v
MainLoop.v
Process.v
Legacy.v
LegacyNet.v
Placeholders.v
