(* ===== verification/Prelude.v ===== *)
(** * Svitock backend: a verification library

    Svitock is the backend of a messenger: an actor system behind websocket and
    HTTP listeners, with use cases over repository ports, PostgreSQL adapters
    and a token service. This library models its C++ code under [src/src] as
    Gallina definitions that evaluate, and proves what makes it correct, and
    for some parts what keeps it from being correct.

    ** The program and the files of the library

    A text from a websocket goes through [MessageDispatcher::dispatch] on a
    network thread into the mailbox of the message actor. Worker threads take
    envelopes from the mailboxes: the message actor hands a message to the chat
    actor, the chat actor a persist order to the storage actor and outgoing
    events to the session actor, which posts them to the websockets. HTTP
    requests are answered on the network threads and read the repository.

    - [Prelude]: 64-bit arithmetic, exceptions ([exn], [result]), methods with
      state and exceptions ([M]), tactics, lemmas on lists. [Schedule]: what a
      fair schedule of any system of threads brings about.
    - [CppString]: the operations of [std::string] the code uses.
    - [Json]: the interface of the JSON library ([JsonLib]) and its documented
      behaviour ([JsonLaws]).
    - [Domain]: entities ([domain]), the ports ([application/interfaces]) as
      classes, and a specification class for each port.
    - [UseCases]: [application/use_cases] and [presentation/controllers].
    - [Reference]: concrete instances of the interfaces, for runs that evaluate:
      a JSON library, UUIDs, in-memory repositories. [UseCaseRuns] runs the use
      cases on them.
    - [Jwt]: [core/security/jwt_service.cpp].
    - [Sql]: the fragment of SQL the repositories use: statements are read from
      their texts, with their effect on tables, and evaluated in the runs.
    - [Postgres]: [infrastructure/database] and [infrastructure/repositories].
      [PoolUse]: threads that share the connection pool.
    - [Mailbox]: [core/actor/mailbox.cpp], once as a queue of values and once,
      in [Owned], with raw pointers and a heap.
    - [Actor]: [core/actor/actor_message.hpp], the registry and [send] of
      [core/actor/actor_system.cpp], and the effects of handlers ([prog]).
    - [Handlers]: [infrastructure/actors] and [infrastructure/dispatcher].
    - [Dto]: [presentation/dto].
    - [Runtime]: the worker threads, the network threads and the calls of
      [start] and [stop] as one state ([world]) and one step function ([step]);
      a run is a list of labels, so every interleaving is a run.
    - [RuntimeInv], [RuntimeFlow], [RuntimeOrder], [RuntimeProgress],
      [RuntimeFair], [RuntimeDelivery]: theorems on all runs; what fair
      schedules bring about is proved for every system around the actor system
      that keeps the class [ActorHost], of which the server is an instance.
      [RuntimeRuns]: the failure runs, and concrete runs of the theorems.
    - [WsSession]: [infrastructure/network/websocket], one session and the
      numbering of the listener.
    - [Gateway]: the listener, its sessions and the actor system as one state
      ([gateway]); the sessions make the calls of [dispatch], [bindTransport]
      and [unbindTransport], and get the texts the session actor posts.
      [GatewayOrder]: the order of what they hand over. [GatewayRuns]: a
      conversation of two clients.
    - [HttpRouter]: [infrastructure/network/http], the route table and one
      session. [HttpEndpoints]: the interface described endpoint by endpoint.
      [HttpNet]: the listener and all sessions over one repository.
    - [EndToEnd]: a message from the websocket to the HTTP history.
    - [Logging]: [core/logging]. [Acceptor]: the constructors of the listeners.
    - [Config]: [core/config]. [Server]: [core/threading] and
      [infrastructure/network/server.cpp], the server as the product of the
      gateway and the HTTP sessions, each handler on a thread of the pool.
      [ServerHistory]: what a server shows by HTTP of what it was sent by
      websocket. [ServerThreads], [Shutdown]: its threads, and the end of [stop].
      [ServerLife]: what the server promises the program that runs it, as an
      abstract machine, and that it keeps it.
      [ServerDelivery]: the server as a host of the actor system, and what
      becomes of the messages under fair schedules.
      [Startup]: the constructor, [main] up to its wait, and a concrete server.
      [MainLoop]: the wait of [main] and the signal handler. [Process]: the main
      thread, the handlers of signals and the server at the same time.
    - [Legacy], [LegacyNet]: [infrastructure/websocket], which is not compiled
      any more: dispatcher and session manager; sockets, handlers, listener.
      [Placeholders]: [infrastructure/http], [websocket_server.cpp],
      [presentation/api] and [application/services], which at most write to
      the log.

    The server of the code is one object; here its state is a record of the
    states of its parts, and every step of the server is a step of a part
    ([server_refines_parts]): the worker threads and the dispatches are steps of
    [Runtime], the handlers of the websockets steps of [Gateway], those of the
    HTTP connections steps of [HttpNet], which reach the actor system as the
    labels [Query] (a history was read from the repository both sides share)
    and [Crash] (an exception left the thread).

    ** What the theorems show

    - Messages: none is invented, duplicated or stored without a request, in any
      interleaving ([messages_conserved], [stored_messages_were_requested]);
      under every fair schedule all work gets done ([fair_schedules_settle], and
      [one_worker_drains] for a worker left alone); with one worker the order
      is kept ([one_worker_keeps_order]), with two it can be lost
      ([two_workers_can_reorder]).
    - Clients: each connection's messages are handed over in the order in which
      its client sent them ([client_messages_in_order]); what reaches a socket
      confirms a message of that client or is addressed to it
      ([wire_texts_are_addressed], [texts_reach_their_sessions_only]); when all
      is at rest and nothing was refused, the history of a chat shows exactly
      what was sent to it ([history_shows_what_was_sent]), and at any moment
      nothing else ([histories_are_genuine], on the whole server). A server
      left alone by its clients comes to show all they sent, and keeps showing
      it ([sent_messages_are_shown]).
    - Mailboxes: bounds and routing in every reachable state, refinement of the
      bounded FIFO and an account of the memory ([mailboxes_bounded],
      [mailboxes_well_routed], [mailbox_refines_queue],
      [mailbox_memory]).
    - Errors: which texts end the process ([invalid_id_ends_process],
      [invalid_chat_path_throws], [login_outcomes]), and what is lost silently
      ([confirmed_but_not_stored], [stop_abandons_queued]).
    - Adapters: the PostgreSQL repositories keep the promises of the ports
      ([postgres_messages_refine_port], [postgres_users_refine_port],
      [postgres_chats_refine_port]), on which the theorems of the runtime and of
      the use cases rest, and a history is the newest part of its chat
      ([history_is_newest]); when threads share a connection ([pool_sharing]).
    - Tokens and HTTP: which tokens are accepted, exchanged and refused
      ([validate_accepts_signed_texts], [refresh_renews_any_issued_token],
      [refresh_refuses_unsigned]); the route table is the table of endpoints
      ([route_answers_endpoint]) and none of them stores anything
      ([http_stores_nothing]); all connections are served in order
      ([http_network_serves]).
    - Websocket sessions: order, progress and the end of writing
      ([session_writes_in_order], [session_flushes],
      [failed_session_keeps_everything]), binding and identifiers.
    - First layer: who may store ([legacy_stores_for_authenticated_only]), who
      is found under a name ([found_session_authenticated]), how texts travel
      ([legacy_texts_reach_sockets]), and that the sessions written later
      transport them in the same way ([same_transport]).
    - Server: every step is one of an abstract machine of run, accept, handle,
      stop and join ([server_refines_life]); start, stop and restart
      ([main_starts_whole], [stop_returns], [stopped_server_stays_deaf]), how
      many threads there are ([threads_within_configuration]), and the end of
      the process
      ([process_ends_after_signal], [signal_hangs_process]).

    ** Conventions

    Code outside the repository is an interface: a class of operations ([JsonLib],
    [UuidLib], [LockfreeQueue], [Sha1Lib], [PqxxLib], [BeastLib], [YamlLib],
    [AsioLib], [SpdlogLib], [ActorOrder] for the order of an unordered map) and, where a
    theorem needs it, a class of laws that state documented behaviour. That of
    the database ([SqlLaws]) is that its tables have the columns of the schema
    and that a statement does what its text, read by [sql_parse], says. Exceptions
    are values of [exn]; a method that may throw after writing is in [M], and its
    writes stay. An exception on a thread without a handler ends the process
    ([terminated]). Answers of clocks and generators are arguments of the
    definitions or part of the labels of a run. [std::size_t] is [Z] with
    [wrap64] where the code computes with it.

    Fuel: [hex_of] gets eight digits, enough for 32 bits; the parser of
    [Reference] gets the length of its input. The runtime needs none: runs are
    finite lists of labels. Progress is stated by the inductive predicate
    [eventually] and, in [RuntimeFair], [ServerDelivery], [Shutdown] and [Process],
    over infinite schedules, functions from turns to labels, of which finitely
    many are driven ([Schedule]).

    Memory: the acquire and release orders of the atomics make each [push],
    [pop] and flag access one step; a handler's effects on shared objects are one
    step each. A mailbox outlives its users, and the actors are registered before
    the threads start, as in [Server].

    ** Not modelled

    Sockets, timers and buffers of Boost; SQL beyond the statements of the
    repositories, and the order in which PostgreSQL sorts texts; what libpqxx
    does when two threads share a connection; signals before [main] installs its
    handlers, and which thread of the pool runs a handler of the network;
    constructors that only keep references to the objects they are given, and
    accessors, which are the projections of the records. *)
From Stdlib Require Export Ascii.
From stdpp Require Export base option gmap strings fin_maps pretty numbers.
From stdpp Require Export list.
#[export] Set Default Goal Selector "!".

(** ** Scopes *)

Declare Scope svitock_scope.
Delimit Scope svitock_scope with svi.
Open Scope string_scope.
Open Scope list_scope.

(** ** Machine integers *)

(** [std::size_t] and [std::uint64_t] are 64 bits wide and wrap. *)
Definition two64 : Z := 2 ^ 64.
Definition wrap64 (z : Z) : Z := z `mod` two64.
(** [std::string::npos], the largest [size_t]. *)
Definition npos : Z := two64 - 1.

Lemma two64_pos : (0 < two64)%Z.
Proof. reflexivity. Qed.

Lemma wrap64_range z : (0 <= wrap64 z < two64)%Z.
Proof. apply Z.mod_pos_bound, two64_pos. Qed.

Lemma wrap64_small z : (0 <= z < two64)%Z -> wrap64 z = z.
Proof. apply Z.mod_small. Qed.

Lemma wrap64_succ z : wrap64 (wrap64 z + 1) = wrap64 (z + 1).
Proof. unfold wrap64. by rewrite Zplus_mod_idemp_l. Qed.

(** ** Exceptions *)

(** The C++ exceptions the code throws or lets through. [foreign] is what a
    library outside the repository throws (libpqxx, yaml-cpp). *)
Inductive exn : Type :=
| runtime_error (what : string)
| infrastructure_error (what : string)
| out_of_range (what : string)
| json_type_error (id : Z)
| json_parse_error
| foreign (what : string).

#[export] Instance exn_eq_dec : EqDecision exn.
Proof. solve_decision. Defined.

(** The outcome of a C++ call: a value, or an exception on its way up. *)
Inductive result (A : Type) : Type :=
| Ok (a : A)
| Throw (e : exn).
Arguments Ok {A} _.
Arguments Throw {A} _.

#[export] Instance result_eq_dec {A} `{EqDecision A} : EqDecision (result A).
Proof. solve_decision. Defined.

#[export] Instance result_ret : MRet result := fun A a => Ok a.
#[export] Instance result_bind : MBind result := fun A B f r =>
  match r with Ok a => f a | Throw e => Throw e end.
#[export] Instance result_fmap : FMap result := fun A B f r =>
  match r with Ok a => Ok (f a) | Throw e => Throw e end.

Definition is_Ok {A} (r : result A) : bool :=
  match r with Ok _ => true | Throw _ => false end.

Lemma result_bind_ok {A B} (f : A -> result B) a : (Ok a ≫= f) = f a.
Proof. reflexivity. Qed.

Lemma result_bind_inv {A B} (r : result A) (f : A -> result B) b :
  (r ≫= f) = Ok b -> exists a, r = Ok a /\ f a = Ok b.
Proof. destruct r; [eauto | discriminate]. Qed.

(** ** State with exceptions *)

(** A method that reads and writes an object of type [S] and may throw: the
    writes done before the throw stay, as they do in C++. *)
Definition M (S A : Type) : Type := S -> result A * S.

#[export] Instance M_ret {S} : MRet (M S) := fun A a s => (Ok a, s).
#[export] Instance M_bind {S} : MBind (M S) := fun A B f m s =>
  match m s with
  | (Ok a, s') => f a s'
  | (Throw e, s') => (Throw e, s')
  end.

Definition mlift {S A} (r : result A) : M S A := fun s => (r, s).
Definition mthrow {S A} (e : exn) : M S A := fun s => (Throw e, s).

Lemma M_bind_ok {S A B} (m : M S A) (f : A -> M S B) s a s' :
  m s = (Ok a, s') -> (m ≫= f) s = f a s'.
Proof. intros H. unfold mbind, M_bind. by rewrite H. Qed.

Lemma M_bind_throw {S A B} (m : M S A) (f : A -> M S B) s e s' :
  m s = (Throw e, s') -> (m ≫= f) s = (Throw e, s').
Proof. intros H. unfold mbind, M_bind. by rewrite H. Qed.

Lemma bind_lift_ok {S A B} (a : A) (f : A -> M S B) : (mlift (Ok a) ≫= f) = f a.
Proof. reflexivity. Qed.

Lemma M_bind_inv {S A B} (m : M S A) (f : A -> M S B) s r s' :
  (m ≫= f) s = (r, s') ->
  (exists a t, m s = (Ok a, t) /\ f a t = (r, s')) \/
  (exists e, m s = (Throw e, s') /\ r = Throw e).
Proof.
  unfold mbind, M_bind. destruct (m s) as [[a|e] t]; intros H; [left; eauto|].
  simplify_eq. right; eauto.
Qed.

Lemma M_ret_inv {S A} (a : A) (s : S) r s' :
  (mret a : M S A) s = (r, s') -> r = Ok a /\ s' = s.
Proof. unfold mret, M_ret. intros. by simplify_eq. Qed.

Lemma M_throw_inv {S A} (e : exn) (s : S) r s' :
  (mthrow e : M S A) s = (r, s') -> r = Throw e /\ s' = s.
Proof. unfold mthrow. intros. by simplify_eq. Qed.

Lemma M_lift_inv {S A} (o : result A) (s : S) r s' :
  (mlift o : M S A) s = (r, s') -> r = o /\ s' = s.
Proof. unfold mlift. intros. by simplify_eq. Qed.

(** [minv H] inverts the run [H : m s = (r, s')] of a composed method: a
    return, a throw or a lifted outcome is solved for [r] and [s'], a bind
    leaves the run of its first part, one goal for each of its outcomes. *)
Ltac minv H :=
  cbn [orb andb negb] in H;
  lazymatch type of H with
  | mret _ _ = (_, _) => apply M_ret_inv in H as [? ?]; simplify_eq
  | mthrow _ _ = (_, _) => apply M_throw_inv in H as [? ?]; simplify_eq
  | mlift _ _ = (_, _) => apply M_lift_inv in H as [? ?]; simplify_eq
  | mbind _ _ _ = (_, _) =>
      let a := fresh "v" in let t := fresh "t" in let e := fresh "e" in
      let Hm := fresh "Hm" in
      apply M_bind_inv in H as [(a & t & Hm & H)|(e & Hm & H)]; [|simplify_eq]
  end.

(** ** JSON text in Rocq strings *)

(** [jq] turns the apostrophes of a Rocq string into double quotes, so that
    the raw literals of the code can be written here. *)
Definition quote_ascii : ascii := Ascii.ascii_of_nat 34.
Definition apostrophe_ascii : ascii := Ascii.ascii_of_nat 39.

Fixpoint jq (s : string) : string :=
  match s with
  | EmptyString => EmptyString
  | String c s' => String (if Ascii.eqb c apostrophe_ascii then quote_ascii else c) (jq s')
  end.

(** ** Lists *)

Lemma sublist_app_assoc_drop {A} (l1 l2 l3 k : list A) :
  (l1 ++ l2 ++ l3) `sublist_of` k -> (l1 ++ l3) `sublist_of` k.
Proof.
  intros H. etrans; [|exact H].
  apply sublist_app; [done|]. by apply sublist_inserts_l.
Qed.

Lemma list_filter_fmap {A B} (f : A -> B) (P : B -> Prop) `{!forall x, Decision (P x)}
    (l : list A) :
  filter P (f <$> l) = f <$> filter (fun x => P (f x)) l.
Proof.
  induction l as [|x l IH]; [done|]. rewrite fmap_cons, !filter_cons, IH.
  by case_decide.
Qed.

Lemma list_insert_cases {A} (l : list A) i j x y :
  <[i := x]> l !! j = Some y -> (y = x /\ i = j) \/ l !! j = Some y.
Proof. intros [(-> & <- & _)|[_ Hl]]%list_lookup_insert_Some; auto. Qed.

Lemma list_filter_all {A} (P : A -> Prop) `{!forall x, Decision (P x)} (l : list A) :
  Forall P l -> filter P l = l.
Proof. induction 1 as [|x l Hx _ IH]; [done|]. by rewrite filter_cons_True, IH. Qed.

Lemma list_filter_none {A} (P : A -> Prop) `{!forall x, Decision (P x)} (l : list A) :
  Forall (fun x => ~ P x) l -> filter P l = [].
Proof. induction 1 as [|x l Hx _ IH]; [done|]. by rewrite filter_cons_False. Qed.

Lemma take_reverse_submseteq {A} (l : list A) n : take n (reverse l) ⊆+ l.
Proof. etrans; [apply submseteq_take|]. by rewrite reverse_Permutation. Qed.

(** Lists that are all extended, some of them from nothing. *)
Lemma concat_submseteq {A} (ls ls' : list (list A)) :
  (forall k l, ls !! k = Some l -> exists l', ls' !! k = Some l' /\ l ⊆+ l') ->
  concat ls ⊆+ concat ls'.
Proof.
  revert ls'. induction ls as [|l ls IH]; intros ls' Hls; [apply submseteq_nil_l|].
  destruct (Hls 0 l eq_refl) as (l' & Hl' & Hsub). destruct ls' as [|x ls']; [done|].
  cbn in Hl'. simplify_eq. cbn. apply submseteq_app; [done|]. apply IH. intros k. exact (Hls (S k)).
Qed.

Lemma prefix_omap {A B} (f : A -> option B) l l' : l `prefix_of` l' -> omap f l `prefix_of` omap f l'.
Proof. intros [k ->]. rewrite omap_app. by exists (omap f k). Qed.

Lemma prefix_submseteq {A} (l l' : list A) : l `prefix_of` l' -> l ⊆+ l'.
Proof. intros [k ->]. apply submseteq_inserts_r. done. Qed.

(** A sum over a list of related numbers, when one place of the list changes. *)
Lemma Forall2_insert_sum {A} (P : A -> nat -> Prop) l ns i x :
  Forall2 P l ns -> l !! i = Some x ->
  exists n, P x n /\ forall x' n', P x' n' ->
    exists ns', Forall2 P (<[i := x']> l) ns' /\ sum_list ns' + n = sum_list ns + n'.
Proof.
  intros HP. revert i. induction HP as [|y n l ns Hy HP IH]; intros i Hi; [done|].
  destruct i as [|i]; cbn in Hi.
  - simplify_eq. exists n. split; [done|]. intros x' n' Hx'.
    exists (n' :: ns). split; [by constructor|cbn; lia].
  - destruct (IH i Hi) as (k & Hk & Hins). exists k. split; [done|]. intros x' n' Hx'.
    destruct (Hins x' n' Hx') as (ns' & Hns' & Hsum).
    exists (n :: ns'). split; [by constructor|cbn; cbn in Hsum; lia].
Qed.

(** ** Tactics and hints *)

Create HintDb svitock discriminated.
#[export] Hint Resolve wrap64_range two64_pos : svitock.

(** Case analysis on the scrutinee of the first [match] of a hypothesis or
    of the goal, with substitution. *)
Ltac destruct_match_hyp H :=
  match type of H with
  | context [match ?x with _ => _ end] => destruct x eqn:?
  end.
Ltac mcrush := repeat (case_match; simplify_eq/=); try done.
