(* ===== verification/Schedule.v ===== *)
(** * Schedules

    A system of threads under a scheduler: a schedule gives every turn to some
    thread, and a turn that cannot be taken passes. What a fair schedule brings
    about is proved here once, by well-founded induction on what one thread
    has left to do, for the actor system ([RuntimeFair]) and for the end of the
    server ([Shutdown]). *)
From S2P Require Import Prelude.

(** Of a thread that may not exist. *)
Definition option_lt {A} (lt : A -> A -> Prop) (x y : option A) : Prop :=
  match x, y with Some a, Some b => lt a b | _, _ => False end.

Lemma option_lt_wf {A} (lt : A -> A -> Prop) : well_founded lt -> well_founded (option_lt lt).
Proof.
  intros Hwf. assert (Acc (option_lt lt) None) as Hnone by (constructor; by intros []).
  intros [a|]; [|done]. induction a as [a IH] using (well_founded_ind Hwf).
  constructor. intros [b|]; [|done]. exact (IH b).
Qed.

Section schedules.
Context {S L : Type} (step : L -> S -> option S).
Implicit Types (s : S) (l : L) (schedule : nat -> L).

(** The state after the first [n] turns of a schedule. *)
Definition tick l s : S := default s (step l s).
Fixpoint drive (n : nat) schedule s : S :=
  match n with
  | 0 => s
  | Datatypes.S n' => tick (schedule n') (drive n' schedule s)
  end.

Definition later (k : nat) schedule : nat -> L := fun n => schedule (k + n).

Lemma drive_later k n schedule s :
  drive n (later k schedule) (drive k schedule s) = drive (k + n) schedule s.
Proof.
  induction n as [|n IH]; [by rewrite Nat.add_0_r|].
  rewrite Nat.add_succ_r. cbn. by rewrite IH.
Qed.

(** Some turn of that kind comes again and again. *)
Definition recurs (turn : L -> Prop) schedule : Prop :=
  forall k, exists m, k <= m /\ turn (schedule m).

Lemma recurs_later turn k schedule : recurs turn schedule -> recurs turn (later k schedule).
Proof.
  intros Hrec n. destruct (Hrec (k + n)) as (m & Hle & Hm). exists (m - k).
  split; [lia|]. unfold later. by replace (k + (m - k)) with m by lia.
Qed.

Lemma recurs_mono (turn turn' : L -> Prop) schedule :
  (forall l, turn l -> turn' l) -> recurs turn schedule -> recurs turn' schedule.
Proof. intros Hturn Hrec k. destruct (Hrec k) as (m & ? & ?). exists m. auto. Qed.

(** The turns of a list, round and round. *)
Definition rounds (l0 : L) (ls : list L) : nat -> L :=
  fun k => nth (k mod length (l0 :: ls)) (l0 :: ls) l0.

Lemma rounds_recurs l0 ls l : l ∈ l0 :: ls -> recurs (fun l' => l' = l) (rounds l0 ls).
Proof.
  intros [i Hi]%list_elem_of_lookup k. pose proof (lookup_lt_Some _ _ _ Hi) as Hlt.
  exists (i + k * length (l0 :: ls)). split; [cbn; nia|]. unfold rounds.
  rewrite Nat.Div0.mod_add, Nat.mod_small by done. by apply nth_lookup_Some.
Qed.

Lemma rounds_Forall (P : L -> Prop) l0 ls k : Forall P (l0 :: ls) -> P (rounds l0 ls k).
Proof.
  intros HP. unfold rounds. destruct (nth_lookup_or_length (l0 :: ls) (k mod length (l0 :: ls)) l0)
    as [Hn|Hn]; [by eapply Forall_lookup_1|].
  pose proof (Nat.mod_upper_bound k (length (l0 :: ls))). cbn in *. lia.
Qed.

(** [Q] holds after some turn. *)
Definition comes schedule (Q : S -> Prop) s : Prop := exists n, Q (drive n schedule s).

Lemma comes_now schedule (Q : S -> Prop) s : Q s -> comes schedule Q s.
Proof. by exists 0. Qed.

Lemma comes_later k schedule Q s :
  comes (later k schedule) Q (drive k schedule s) -> comes schedule Q s.
Proof. intros [n Hn]. exists (k + n). by rewrite <- drive_later. Qed.

Lemma comes_mono schedule (Q Q' : S -> Prop) s :
  (forall s', Q s' -> Q' s') -> comes schedule Q s -> comes schedule Q' s.
Proof. intros HQ [n Hn]. exists n. auto. Qed.

(** One thing after the other, the second from whatever turn on. *)
Lemma comes_then schedule (Q Q' : S -> Prop) s :
  comes schedule Q s ->
  (forall k s', Q s' -> comes (later k schedule) Q' s') -> comes schedule Q' s.
Proof. intros [n Hn] HQ. by apply (comes_later n), HQ. Qed.

(** ** One thread *)

Section one.
Context {X : Type} (lt : X -> X -> Prop) (Hwf : well_founded lt) (place : S -> X).
Context (turn : L -> Prop) (J Q : S -> Prop).

(** While [J] holds, every turn leads to [Q], or leaves the place of the
    thread and is not its turn, or brings the thread on. *)
Hypothesis one_turn : forall l s, J s ->
  Q (tick l s) \/
  J (tick l s) /\ (lt (place (tick l s)) (place s) \/ place (tick l s) = place s /\ ~ turn l).

Lemma idle_or_moves schedule n s :
  J s ->
  comes schedule Q s \/
  (exists m, J (drive m schedule s) /\ lt (place (drive m schedule s)) (place s)) \/
  (J (drive n schedule s) /\ place (drive n schedule s) = place s /\
   forall m, m < n -> ~ turn (schedule m)).
Proof.
  intros Hj. induction n as [|n [?|[?|(Hn & Hp & Hno)]]]; [|by left|by right; left|].
  { right. right. split_and!; [done|done|lia]. }
  destruct (one_turn (schedule n) _ Hn) as [HQ|(HJ & [Hlt|[Heq Ht]])].
  - left. by exists (Datatypes.S n).
  - right. left. exists (Datatypes.S n). by rewrite <- Hp.
  - right. right. split_and!; [done|by rewrite <- Hp|].
    intros m Hm. destruct (decide (m = n)) as [->|]; [done|apply Hno; lia].
Qed.

Lemma turns_come schedule s : recurs turn schedule -> J s -> comes schedule Q s.
Proof.
  remember (place s) as x eqn:Hx. revert schedule s Hx.
  induction x as [x IH] using (well_founded_ind Hwf). intros schedule s -> Hrec Hj.
  destruct (Hrec 0) as (m & _ & Hm).
  destruct (idle_or_moves schedule (Datatypes.S m) s Hj) as [?|[(n & Hn & Hlt)|(_ & _ & Hno)]].
  - done.
  - apply (comes_later n). eapply IH; [exact Hlt|done|by apply recurs_later|done].
  - by destruct (Hno m (Nat.lt_succ_diag_r m)).
Qed.
End one.

(** A turn that is awaited and brings about [Q]. *)
Lemma turn_awaited (turn : L -> Prop) (J Q : S -> Prop) schedule s :
  (forall l s, J s -> Q (tick l s) \/ J (tick l s) /\ ~ turn l) ->
  recurs turn schedule -> J s -> comes schedule Q s.
Proof.
  intros Hturn. apply (turns_come (fun _ _ : unit => False) (fun _ => Acc_intro _ (fun _ => False_ind _))
    (fun _ => tt)).
  intros l s' Hj. destruct (Hturn l s' Hj) as [?|[? ?]]; [by left|right]. split; [done|by right].
Qed.

(** ** All threads *)

Section all.
Context {X : Type} (lt : X -> X -> Prop) (Hwf : well_founded lt) (place : nat -> S -> X).
Context (over : X -> bool) (turn : nat -> L -> Prop) (J Q : S -> Prop).

Hypothesis over_least : forall x y, over x = true -> ~ lt y x.
Hypothesis all_turn : forall l s, J s ->
  Q (tick l s) \/
  J (tick l s) /\ forall i, lt (place i (tick l s)) (place i s) \/
    place i (tick l s) = place i s /\ (over (place i s) = false -> ~ turn i l).

Definition all_over (n : nat) s : Prop := forall i, i < n -> over (place i s) = true.

Lemma all_over_turn n l s :
  J s -> all_over n s -> Q (tick l s) \/ all_over n (tick l s).
Proof.
  intros Hj Hall. destruct (all_turn l s Hj) as [?|[_ Hi]]; [by left|right].
  intros i Hlt. destruct (Hi i) as [Hless|[-> _]]; [|by apply Hall].
  by destruct (over_least _ _ (Hall i Hlt) Hless).
Qed.

(** When each of the first [n] threads gets its turns, they are all over at
    some turn, or [Q] has come true. *)
Lemma threads_finish n schedule s :
  (forall i, i < n -> recurs (turn i) schedule) -> J s ->
  comes schedule (fun s' => Q s' \/ J s' /\ all_over n s') s.
Proof.
  revert schedule s. induction n as [|n IH]; intros schedule s Hrec Hj.
  { apply comes_now. right. split; [done|]. intros i Hi. lia. }
  eapply (comes_then _ (fun s' => Q s' \/ J s' /\ all_over n s')).
  { apply IH; [|done]. intros i Hi. apply Hrec. lia. }
  intros k s' [?|[Hj' Hall]]; [by apply comes_now; left|].
  destruct (over (place n s')) eqn:Ho.
  { apply comes_now. right. split; [done|]. intros i Hi.
    destruct (decide (i = n)) as [->|]; [done|apply Hall; lia]. }
  apply (turns_come lt Hwf (place n) (turn n)
    (fun s => J s /\ all_over n s /\ over (place n s) = false)).
  - intros l s1 (Hj1 & Hall1 & Ho1).
    destruct (all_turn l s1 Hj1) as [?|[Hj2 Hi]]; [by left; left|].
    destruct (all_over_turn n l s1 Hj1 Hall1) as [?|Hall2]; [by left; left|].
    destruct (over (place n (tick l s1))) eqn:Ho2.
    + left. right. split; [done|]. intros i Hlt.
      destruct (decide (i = n)) as [->|]; [done|apply Hall2; lia].
    + right. split; [done|]. destruct (Hi n) as [?|[? Hno]]; [by left|right].
      split; [done|by apply Hno].
  - apply recurs_later, Hrec. lia.
  - done.
Qed.
End all.
End schedules.

(** Only the turns of the schedule matter. *)
Lemma comes_agree {S L} (step step' : L -> S -> option S) schedule (Q : S -> Prop) s :
  (forall k s', step' (schedule k) s' = step (schedule k) s') ->
  comes step' schedule Q s -> comes step schedule Q s.
Proof.
  intros Hstep [n Hn]. exists n. enough (drive step n schedule s = drive step' n schedule s) as -> by done.
  clear Hn. induction n as [|n IH]; [done|]. cbn. rewrite IH. unfold tick. by rewrite Hstep.
Qed.
