(* ===== verification/CppString.v ===== *)
(** * Operations of std::string the code uses

    [find], [rfind], [substr] with [size_t] positions and [npos], the prefix
    and suffix tests of [std::string_view], [std::to_string] of an unsigned
    integer and the [std::hex] formatting of an [unsigned int]. *)
From S2P Require Import Prelude.

Definition str_size (s : string) : Z := Z.of_nat (String.length s).
Definition str_empty (s : string) : bool :=
  match s with EmptyString => true | String _ _ => false end.

(** Index of the first occurrence of a character. *)
Fixpoint index_char (c : ascii) (s : string) : option nat :=
  match s with
  | EmptyString => None
  | String d s' => if Ascii.eqb d c then Some 0 else S <$> index_char c s'
  end.

(** Index of the last occurrence of a character. *)
Fixpoint rindex_char (c : ascii) (s : string) : option nat :=
  match s with
  | EmptyString => None
  | String d s' =>
      match rindex_char c s' with
      | Some n => Some (S n)
      | None => if Ascii.eqb d c then Some 0 else None
      end
  end.

Definition to_pos (o : option nat) : Z :=
  match o with Some n => Z.of_nat n | None => npos end.

Definition str_find (c : ascii) (s : string) : Z := to_pos (index_char c s).
Definition str_rfind (c : ascii) (s : string) : Z := to_pos (rindex_char c s).

(** [s.substr(pos, count)]: throws when [pos > size()], and cuts [count] at
    the end of the string. *)
Definition str_substr (s : string) (pos count : Z) : result string :=
  if (str_size s <? pos)%Z then Throw (out_of_range "basic_string::substr")
  else Ok (String.substring (Z.to_nat pos) (Z.to_nat (Z.min count (str_size s - pos))) s).

Definition starts_with (s p : string) : bool := String.prefix p s.
Definition ends_with (s p : string) : bool :=
  (String.length p <=? String.length s)%nat &&
  String.eqb (String.substring (String.length s - String.length p) (String.length p) s) p.

(** [std::to_string] of an unsigned integer. *)
Definition to_string_u (n : N) : string := pretty n.

(** [std::ostringstream << std::hex << v] for an [unsigned int]: lower case,
    no leading zeros. Eight digits are enough for 32 bits. *)
Definition hex_digit (d : Z) : ascii :=
  Ascii.ascii_of_N (Z.to_N (if (d <? 10)%Z then d + 48 else d + 87)).
Fixpoint hex_of (fuel : nat) (v : Z) : string :=
  match fuel with
  | O => EmptyString
  | S f =>
      let last := String (hex_digit (v `mod` 16)) EmptyString in
      if (v <? 16)%Z then last else hex_of f (v `div` 16) +:+ last
  end.

(** ** Lengths and substrings *)

Lemma string_app_cons x (a b : string) : String x a +:+ b = String x (a +:+ b).
Proof. reflexivity. Qed.

Lemma string_app_assoc (a b c : string) : (a +:+ b) +:+ c = a +:+ (b +:+ c).
Proof. induction a as [|x a IH]; [done|]. rewrite !string_app_cons. by f_equal. Qed.

Lemma string_app_empty_r (a : string) : a +:+ EmptyString = a.
Proof. induction a as [|x a IH]; [done|]. rewrite string_app_cons. by f_equal. Qed.

Lemma string_length_app (a b : string) :
  String.length (a +:+ b) = (String.length a + String.length b)%nat.
Proof. induction a as [|x a IH]; [done|]. rewrite string_app_cons. cbn. by f_equal. Qed.

Lemma str_size_app a b : str_size (a +:+ b) = (str_size a + str_size b)%Z.
Proof. unfold str_size. rewrite string_length_app. lia. Qed.

Lemma str_size_nonneg s : (0 <= str_size s)%Z.
Proof. unfold str_size. lia. Qed.

Lemma substring_0_app a b : String.substring 0 (String.length a) (a +:+ b) = a.
Proof. induction a as [|x a IH]; [by destruct b|]. rewrite string_app_cons. cbn. by f_equal. Qed.

Lemma substring_skip a b n m :
  String.substring (String.length a + n) m (a +:+ b) = String.substring n m b.
Proof. induction a as [|x a IH]; [done|]. exact IH. Qed.

Lemma substring_all a : String.substring 0 (String.length a) a = a.
Proof. rewrite <- (string_app_empty_r a) at 2. apply substring_0_app. Qed.

Lemma substring_mid a b c :
  String.substring (String.length a) (String.length b) (a +:+ (b +:+ c)) = b.
Proof.
  rewrite <- (Nat.add_0_r (String.length a)), substring_skip. apply substring_0_app.
Qed.

Lemma str_substr_mid a b c n :
  n = str_size b -> str_substr (a +:+ (b +:+ c)) (str_size a) n = Ok b.
Proof.
  intros ->. unfold str_substr.
  pose proof (str_size_nonneg b). pose proof (str_size_nonneg c).
  rewrite !str_size_app. case_match; [lia|].
  replace (str_size b `min` (str_size a + (str_size b + str_size c) - str_size a))%Z
    with (str_size b) by lia.
  unfold str_size. rewrite !Nat2Z.id. by rewrite substring_mid.
Qed.

(** The substring up to the end, when [count] is [npos] or anything as large. *)
Lemma str_substr_tail a b n :
  (str_size b <= n)%Z -> str_substr (a +:+ b) (str_size a) n = Ok b.
Proof.
  intros Hn. unfold str_substr. rewrite str_size_app.
  pose proof (str_size_nonneg b). case_match; [lia|].
  replace (n `min` (str_size a + str_size b - str_size a))%Z with (str_size b) by lia.
  unfold str_size. rewrite !Nat2Z.id.
  rewrite <- (Nat.add_0_r (String.length a)), substring_skip, substring_all. done.
Qed.

Lemma str_substr_head a b n : n = str_size a -> str_substr (a +:+ b) 0 n = Ok a.
Proof. intros ->. exact (str_substr_mid EmptyString a b _ eq_refl). Qed.

Lemma str_substr_whole a n : (str_size a <= n)%Z -> str_substr a 0 n = Ok a.
Proof. intros H. exact (str_substr_tail EmptyString a n H). Qed.

Lemma starts_with_app p s : starts_with (p +:+ s) p = true.
Proof.
  unfold starts_with. induction p as [|c p IH]; [by destruct s|].
  rewrite string_app_cons. cbn. by destruct (ascii_dec c c).
Qed.

Lemma starts_with_inv s p : starts_with s p = true -> exists t, s = p +:+ t.
Proof.
  unfold starts_with. revert s. induction p as [|c p IH]; intros s H; [by eexists|].
  destruct s as [|d s]; [done|]. cbn in H.
  destruct (ascii_dec c d) as [->|]; [|done].
  destruct (IH _ H) as [t ->]. by exists t.
Qed.

Lemma ends_with_app s p : ends_with (s +:+ p) p = true.
Proof.
  unfold ends_with. rewrite string_length_app, Nat.add_sub.
  apply andb_true_intro. split; [apply Nat.leb_le; lia|].
  apply String.eqb_eq. rewrite <- (Nat.add_0_r (String.length s)), substring_skip.
  apply substring_all.
Qed.

(** ** find and rfind *)

Lemma index_char_app_l c a b n :
  index_char c a = Some n -> index_char c (a +:+ b) = Some n.
Proof.
  revert n. induction a as [|d a IH]; intros n H; [done|].
  rewrite string_app_cons. cbn in *. destruct (Ascii.eqb d c); [done|].
  destruct (index_char c a) as [m|]; [|done]. cbn in H. by rewrite (IH m).
Qed.

Lemma index_char_app_r c a b :
  index_char c a = None ->
  index_char c (a +:+ b) = (fun n => String.length a + n)%nat <$> index_char c b.
Proof.
  induction a as [|d a IH]; intros H.
  - change (EmptyString +:+ b) with b. by destruct (index_char c b).
  - rewrite string_app_cons. cbn in *. destruct (Ascii.eqb d c); [done|].
    destruct (index_char c a); [done|]. rewrite IH by done.
    by destruct (index_char c b).
Qed.

Lemma index_char_first c a b :
  index_char c a = None -> index_char c (a +:+ String c b) = Some (String.length a).
Proof.
  intros H. rewrite index_char_app_r by done. cbn. rewrite Ascii.eqb_refl. cbn.
  by rewrite Nat.add_0_r.
Qed.

Lemma index_char_Some c s n :
  index_char c s = Some n ->
  exists a b, s = a +:+ String c b /\ String.length a = n /\ index_char c a = None.
Proof.
  revert n. induction s as [|d s IH]; intros n H; [done|]. cbn in H.
  destruct (Ascii.eqb d c) eqn:E.
  - simplify_eq. apply Ascii.eqb_eq in E as ->. by exists EmptyString, s.
  - destruct (index_char c s) as [m|] eqn:F; [|done]. cbn in H. simplify_eq.
    destruct (IH m eq_refl) as (a & b & -> & <- & Ha).
    exists (String d a), b. rewrite string_app_cons. cbn. by rewrite E, Ha.
Qed.

Lemma rindex_char_None c s : rindex_char c s = None <-> index_char c s = None.
Proof.
  induction s as [|d s IH]; [done|]. cbn.
  destruct (Ascii.eqb d c), (rindex_char c s), (index_char c s); cbn; try done;
    destruct IH; intuition (try done); discriminate.
Qed.

Lemma rindex_char_last c a b :
  index_char c b = None -> rindex_char c (a +:+ String c b) = Some (String.length a).
Proof.
  intros H. induction a as [|d a IH]; [change (EmptyString +:+ ?x) with x|rewrite string_app_cons]; cbn.
  - rewrite (proj2 (rindex_char_None c b) H). by rewrite Ascii.eqb_refl.
  - by rewrite IH.
Qed.

Lemma rindex_char_Some c s n :
  rindex_char c s = Some n ->
  exists a b, s = a +:+ String c b /\ String.length a = n /\ index_char c b = None.
Proof.
  revert n. induction s as [|d s IH]; intros n H; [done|]. cbn in H.
  destruct (rindex_char c s) as [m|] eqn:F.
  - simplify_eq. destruct (IH m eq_refl) as (a & b & -> & <- & Hb).
    by exists (String d a), b.
  - destruct (Ascii.eqb d c) eqn:E; [|done]. simplify_eq.
    apply Ascii.eqb_eq in E as ->. exists EmptyString, s.
    split; [done|]. split; [done|]. by apply rindex_char_None.
Qed.

(** ** Hexadecimal *)

Definition dot : ascii := Ascii.ascii_of_nat 46.
Definition space : ascii := Ascii.ascii_of_nat 32.

Lemma hex_of_length fuel v :
  (0 < fuel)%nat -> (0 <= v)%Z -> (v < 16 ^ Z.of_nat fuel)%Z ->
  (1 <= String.length (hex_of fuel v) <= fuel)%nat.
Proof.
  revert v. induction fuel as [|f IH]; intros v Hf Hv Hlt; [lia|].
  rewrite Nat2Z.inj_succ, Z.pow_succ_r in Hlt by lia.
  cbn [hex_of]. case_match eqn:E; [cbn; lia|].
  apply Z.ltb_ge in E. rewrite string_length_app. cbn.
  destruct f as [|f']; [cbn in Hlt; lia|].
  specialize (IH (v `div` 16)%Z). 
  assert (v `div` 16 < 16 ^ Z.of_nat (S f'))%Z by (apply Z.div_lt_upper_bound; lia).
  assert (0 <= v `div` 16)%Z by (apply Z.div_pos; lia).
  lia.
Qed.

Lemma hex_digit_not_dot d : (0 <= d < 16)%Z -> Ascii.eqb (hex_digit d) dot = false.
Proof.
  intros H. assert (d = 0 \/ d = 1 \/ d = 2 \/ d = 3 \/ d = 4 \/ d = 5 \/ d = 6 \/ d = 7
    \/ d = 8 \/ d = 9 \/ d = 10 \/ d = 11 \/ d = 12 \/ d = 13 \/ d = 14 \/ d = 15)%Z as Hd by lia.
  repeat (destruct Hd as [->|Hd]; [reflexivity|]). by subst.
Qed.

Lemma hex_of_no_dot fuel v : (0 <= v)%Z -> index_char dot (hex_of fuel v) = None.
Proof.
  revert v. induction fuel as [|f IH]; intros v Hv; [done|].
  assert (index_char dot (String (hex_digit (v `mod` 16)) EmptyString) = None) as Hl.
  { cbn [index_char]. rewrite hex_digit_not_dot; [done|]. apply Z.mod_pos_bound; lia. }
  cbn [hex_of]. case_match; [done|].
  rewrite index_char_app_r by (apply IH, Z.div_pos; lia). by rewrite Hl.
Qed.
