(* ===== verification/Json.v ===== *)
(** * The interface of nlohmann::json

    The JSON library is outside the repository: its operations are the
    methods of the class [JsonLib], over an abstract type of JSON values, and
    what its documentation promises about them is the class [JsonLaws].
    Everything that handles JSON is parametric in an instance. *)
From S2P Require Import Prelude CppString.

Class JsonLib : Type := {
  json : Type;
  (** [json::parse(raw, nullptr, false)]: a discarded value on a syntax error. *)
  json_parse : string -> json;
  (** [json::parse(raw)]: throws on a syntax error. *)
  json_parse_exn : string -> result json;
  (** [j.dump()]: throws on a string that is not UTF-8. *)
  json_dump : json -> result string;
  (** [j.dump(-1, ' ', false, error_handler_t::replace)]. *)
  json_dump_replace : json -> string;
  json_is_object : json -> bool;
  (** The member of an object under a key, and the text of a JSON string. *)
  json_find : json -> string -> option json;
  json_as_string : json -> option string;
  (** [j.value(key, text)] and [j.value(key, other_json)]. *)
  json_value : json -> string -> string -> result string;
  json_value_json : json -> string -> json -> result json;
  (** [j.at(key)] and [j.get_to(std::string&)]. *)
  json_at : json -> string -> result json;
  json_get_string : json -> result string;
  (** Constructors: a string, a signed and an unsigned integer,
      [json::object()], [json::array()] and the braced-list constructor. *)
  json_string : string -> json;
  json_int : Z -> json;
  json_uint : Z -> json;
  json_empty_object : json;
  json_empty_array : json;
  json_init : list json -> json;
  (** [j.push_back(v)] on an array, [j[key] = v] on an object or null. *)
  json_push_back : json -> json -> json;
  json_null : json;
  json_set : json -> string -> json -> json
}.

(** [json{{k1, v1}, {k2, v2}, ...}]: every element is itself a braced pair. *)
Definition json_pair `{JsonLib} (kv : string * json) : json :=
  json_init [json_string kv.1; kv.2].
Definition json_object `{JsonLib} (kvs : list (string * json)) : json :=
  json_init (json_pair <$> kvs).

(** First value of a key in a list of pairs. *)
Fixpoint assoc_first {V} (k : string) (kvs : list (string * V)) : option V :=
  match kvs with
  | [] => None
  | (k', v) :: rest => if decide (k' = k) then Some v else assoc_first k rest
  end.

Class JsonLaws `{JsonLib} : Prop := {
  (** [value]: type_error 306 when not an object, the default when the key is
      absent, type_error 302 when the member has another type. *)
  json_value_not_object j k d :
    json_is_object j = false -> json_value j k d = Throw (json_type_error 306);
  json_value_absent j k d :
    json_is_object j = true -> json_find j k = None -> json_value j k d = Ok d;
  json_value_string j k d v s :
    json_is_object j = true -> json_find j k = Some v -> json_as_string v = Some s ->
    json_value j k d = Ok s;
  json_value_other j k d v :
    json_is_object j = true -> json_find j k = Some v -> json_as_string v = None ->
    json_value j k d = Throw (json_type_error 302);
  json_value_json_not_object j k d :
    json_is_object j = false -> json_value_json j k d = Throw (json_type_error 306);
  json_value_json_absent j k d :
    json_is_object j = true -> json_find j k = None -> json_value_json j k d = Ok d;
  json_value_json_found j k d v :
    json_is_object j = true -> json_find j k = Some v -> json_value_json j k d = Ok v;
  json_at_found j k v :
    json_is_object j = true -> json_find j k = Some v -> json_at j k = Ok v;
  json_get_string_spec v s : json_as_string v = Some s -> json_get_string v = Ok s;
  (** A JSON string is not an object and holds its text. *)
  json_as_string_string s : json_as_string (json_string s) = Some s;
  json_is_object_string s : json_is_object (json_string s) = false;
  (** The braced-list constructor makes an object of a list of pairs that
      start with a string (the first of two equal keys wins), and an array of
      any other list. *)
  json_object_is_object kvs : json_is_object (json_object kvs) = true;
  json_object_find kvs k : json_find (json_object kvs) k = assoc_first k kvs;
  json_init_strings_not_object s l : json_is_object (json_init (json_string s :: l)) = false;
  json_empty_object_is_object : json_is_object json_empty_object = true;
  json_empty_object_find k : json_find json_empty_object k = None;
  json_empty_array_not_object : json_is_object json_empty_array = false
}.

(** ** Derived facts *)

Section derived.
Context `{JsonLaws}.

Lemma json_value_object_string kvs k d s :
  assoc_first k kvs = Some (json_string s) -> json_value (json_object kvs) k d = Ok s.
Proof.
  intros Hk. eapply json_value_string.
  - apply json_object_is_object.
  - by rewrite json_object_find.
  - apply json_as_string_string.
Qed.

Lemma json_value_object_absent kvs k d :
  assoc_first k kvs = None -> json_value (json_object kvs) k d = Ok d.
Proof.
  intros Hk. apply json_value_absent; [apply json_object_is_object|].
  by rewrite json_object_find.
Qed.

(** The four outcomes of [value(key, text)]. *)
Lemma json_value_cases j k d :
  (json_is_object j = false /\ json_value j k d = Throw (json_type_error 306)) \/
  (json_is_object j = true /\ json_find j k = None /\ json_value j k d = Ok d) \/
  (exists v s, json_is_object j = true /\ json_find j k = Some v /\
     json_as_string v = Some s /\ json_value j k d = Ok s) \/
  (exists v, json_is_object j = true /\ json_find j k = Some v /\
     json_as_string v = None /\ json_value j k d = Throw (json_type_error 302)).
Proof.
  destruct (json_is_object j) eqn:Ho; [right|left; auto using json_value_not_object].
  destruct (json_find j k) as [v|] eqn:Hf; [right|left; auto using json_value_absent].
  destruct (json_as_string v) as [s|] eqn:Hs; [left|right].
  - exists v, s. eauto using json_value_string.
  - exists v. eauto using json_value_other.
Qed.
End derived.
