(* ===== verification/Domain.v ===== *)
(** * Domain entities and repository ports

    The entities of [src/domain] and the repository interfaces of
    [src/application/interfaces]. Boost.UUID is outside the repository: it is
    the class [UuidLib] with the laws [UuidLaws]. A repository port is a class
    of methods over the state [R] of the adapter, and what a port promises to
    its clients is a second class ([MessageRepositorySpec],
    [UserRepositorySpec], [ChatRepositorySpec]). *)
From S2P Require Import Prelude CppString.

(** ** UUIDs and time points *)

Class UuidLib : Type := {
  uuid : Type;
  uuid_eq_dec :: EqDecision uuid;
  (** [boost::uuids::to_string] and [boost::uuids::string_generator]. *)
  uuid_to_string : uuid -> string;
  string_generator : string -> result uuid
}.

Class UuidLaws `{UuidLib} : Prop := {
  (** The generator reads back what [to_string] prints; it throws a
      [std::runtime_error] on text that is not a UUID, the empty text for one. *)
  string_generator_to_string u : string_generator (uuid_to_string u) = Ok u;
  string_generator_throws s e :
    string_generator s = Throw e -> e = runtime_error "invalid uuid string";
  string_generator_empty : is_Ok (string_generator EmptyString) = false
}.

(** [std::chrono::system_clock::time_point], in ticks. *)
Definition time_point : Type := Z.

(** ** Entities *)

Section entities.
Context `{UuidLib}.

Record User : Type := mkUser {
  User_getId : uuid;
  User_getUsername : string;
  User_getPasswordHash : string;
  User_getCreatedAt : time_point
}.

(** An enumeration over [std::uint8_t]: a value cast from the database can
    also be none of the two named ones. *)
Inductive ChatType : Type := direct | group | unnamed (value : Z).

Record Chat : Type := mkChat {
  Chat_getId : uuid;
  Chat_getType : ChatType;
  Chat_getCreatedAt : time_point
}.

Record Message : Type := mkMessage {
  Message_getId : uuid;
  Message_getChatId : uuid;
  Message_getSenderId : uuid;
  Message_getContent : string;
  Message_getCreatedAt : time_point
}.

(** What the tables keep of an entity: everything but the creation time,
    which the adapters let the database set. *)
Definition user_row (u : User) : uuid * string * string :=
  (User_getId u, User_getUsername u, User_getPasswordHash u).
Definition message_row (m : Message) : uuid * uuid * uuid * string :=
  (Message_getId m, Message_getChatId m, Message_getSenderId m, Message_getContent m).
Definition chat_row (c : Chat) : uuid * ChatType := (Chat_getId c, Chat_getType c).

Definition row_chat (r : uuid * uuid * uuid * string) : uuid := r.1.1.2.
End entities.

(** A value of the enumeration is that of a [std::uint8_t]. *)
Definition ChatType_valid (t : ChatType) : Prop :=
  match t with direct | group => True | unnamed v => (2 <= v < 256)%Z end.

#[export] Instance ChatType_eq_dec : EqDecision ChatType.
Proof. solve_decision. Defined.

(** ** Ports *)

Class UserRepository `{UuidLib} (R : Type) : Type := {
  findByUsername : string -> M R (option User);
  user_create : User -> M R bool
}.

Class ChatRepository `{UuidLib} (R : Type) : Type := {
  chat_create : Chat -> M R bool;
  findById : uuid -> M R (option Chat)
}.

Class MessageRepository `{UuidLib} (R : Type) : Type := {
  message_create : Message -> M R bool;
  getByChat : uuid -> Z -> M R (list Message)
}.

(** ** What the ports promise *)

(** A user repository holds a list of rows; [create] appends one when it
    returns true, none when it returns false, and at most one when it throws
    (a commit can fail in doubt); [findByUsername] changes nothing and returns
    a row of that name when there is one. *)
Class UserRepositorySpec `{UserRepository R} : Type := {
  users : R -> list (uuid * string * string);
  user_create_true u r r' :
    user_create u r = (Ok true, r') -> users r' = users r ++ [user_row u];
  user_create_false u r r' : user_create u r = (Ok false, r') -> users r' = users r;
  user_create_throw u r e r' :
    user_create u r = (Throw e, r') ->
    users r' = users r \/ users r' = users r ++ [user_row u];
  findByUsername_users n r o r' : findByUsername n r = (o, r') -> users r' = users r;
  findByUsername_some n r u r' :
    findByUsername n r = (Ok (Some u), r') -> user_row u ∈ users r /\ User_getUsername u = n;
  findByUsername_none n r r' :
    findByUsername n r = (Ok None, r') -> forall row, row ∈ users r -> row.1.2 <> n
}.

(** A chat repository likewise, for the values a [ChatType] can have. *)
Class ChatRepositorySpec `{ChatRepository R} : Type := {
  chats : R -> list (uuid * ChatType);
  chat_create_true c r r' :
    ChatType_valid (Chat_getType c) ->
    chat_create c r = (Ok true, r') -> chats r' = chats r ++ [chat_row c];
  chat_create_false c r r' : chat_create c r = (Ok false, r') -> chats r' = chats r;
  chat_create_throw c r e r' :
    ChatType_valid (Chat_getType c) ->
    chat_create c r = (Throw e, r') ->
    chats r' = chats r \/ chats r' = chats r ++ [chat_row c];
  findById_chats i r o r' : findById i r = (o, r') -> chats r' = chats r;
  findById_some i r c r' :
    findById i r = (Ok (Some c), r') -> chat_row c ∈ chats r /\ Chat_getId c = i;
  findById_none i r r' :
    findById i r = (Ok None, r') -> forall row, row ∈ chats r -> row.1 <> i
}.

(** A message repository holds a list of rows; [getByChat] returns as many
    rows of the chat as [limit] allows, none twice. *)
Class MessageRepositorySpec `{MessageRepository R} : Type := {
  stored : R -> list (uuid * uuid * uuid * string);
  message_create_true m r r' :
    message_create m r = (Ok true, r') -> stored r' = stored r ++ [message_row m];
  message_create_false m r r' : message_create m r = (Ok false, r') -> stored r' = stored r;
  message_create_throw m r e r' :
    message_create m r = (Throw e, r') ->
    stored r' = stored r \/ stored r' = stored r ++ [message_row m];
  getByChat_stored c n r o r' : getByChat c n r = (o, r') -> stored r' = stored r;
  getByChat_rows c n r ms r' :
    (0 <= n)%Z -> getByChat c n r = (Ok ms, r') ->
    message_row <$> ms ⊆+ filter (fun row => row_chat row = c) (stored r) /\
    Z.of_nat (length ms) = Z.min n (Z.of_nat (length
      (filter (fun row => row_chat row = c) (stored r))))
}.
