(* ===== verification/UseCases.v ===== *)
(** * Use cases and controllers

    [src/application/use_cases] and [src/presentation/controllers], against
    the repository ports of [Domain]. The identifier and the time a call draws
    from [boost::uuids::random_generator] and from the system clock are its
    arguments [gen] and [now]. *)
From S2P Require Import Prelude CppString Domain.

Section use_cases.
Context `{UuidLib}.

(** ** RegisterUserUseCase, LoginUserUseCase, AuthController *)

Section users.
Context {R : Type} `{!UserRepository R}.

Definition RegisterUserUseCase_execute (username passwordHash : string)
    (now : time_point) (gen : uuid) : M R bool :=
  if str_empty username || str_empty passwordHash then mret false
  else
    found ← findByUsername username;
    match found with
    | Some _ => mret false
    | None => user_create (mkUser gen username passwordHash now)
    end.

Definition LoginUserUseCase_execute (username passwordHash : string) : M R bool :=
  user ← findByUsername username;
  match user with
  | None => mret false
  | Some u => mret (String.eqb (User_getPasswordHash u) passwordHash)
  end.

Definition registerUserByPassword := RegisterUserUseCase_execute.
Definition loginUserByPassword := LoginUserUseCase_execute.
End users.

(** ** CreateChatUseCase, ChatController *)

Section chats.
Context {R : Type} `{!ChatRepository R}.

Definition CreateChatUseCase_execute (type : ChatType) (gen : uuid)
    (now : time_point) : M R bool :=
  chat_create (mkChat gen type now).

Definition createDirectChat := CreateChatUseCase_execute direct.
Definition createGroupChat := CreateChatUseCase_execute group.
End chats.

(** ** SendMessageUseCase, GetChatHistoryUseCase, MessageController *)

Section messages.
Context {R : Type} `{!MessageRepository R}.

Definition SendMessageUseCase_execute (chatId senderId : uuid) (content : string)
    (gen : uuid) (now : time_point) : M R bool :=
  if str_empty content then mret false
  else message_create (mkMessage gen chatId senderId content now).

Definition GetChatHistoryUseCase_execute (chatId : uuid) (limit : Z) : M R (list Message) :=
  getByChat chatId limit.

Definition MessageController_send := SendMessageUseCase_execute.
Definition MessageController_history := GetChatHistoryUseCase_execute.
End messages.
End use_cases.

(** ** Registration and login *)

Section user_theorems.
Context `{UserRepositorySpec}.

Definition usernames (r : R) : list string := (fun row => row.1.2) <$> (users r).

Lemma str_empty_spec s : str_empty s = true <-> s = EmptyString.
Proof. by destruct s. Qed.

(** The three ways a registration can go. *)
Lemma register_cases n h now gen r o r' :
  RegisterUserUseCase_execute n h now gen r = (o, r') ->
  (users r' = users r /\ o <> Ok true) \/
  (users r' = users r ++ [(gen, n, h)] /\ n <> EmptyString /\ h <> EmptyString /\
   (n ∉ usernames r) /\ o <> Ok false).
Proof.
  unfold RegisterUserUseCase_execute. intros Hr.
  destruct (str_empty n) eqn:En; [minv Hr; auto|].
  destruct (str_empty h) eqn:Eh; [minv Hr; auto|]. minv Hr; cycle 1.
  { left. split; [by eapply findByUsername_users|done]. }
  pose proof (findByUsername_users _ _ _ _ Hm) as Ht.
  destruct v as [u|]; [minv Hr; auto|].
  pose proof (findByUsername_none _ _ _ Hm) as Hnone.
  assert (n ∉ usernames r) as Hfresh.
  { unfold usernames. rewrite list_elem_of_fmap. intros (row & -> & Hin). by eapply Hnone. }
  assert (n <> EmptyString /\ h <> EmptyString) as [? ?] by (by split; intros ->).
  destruct o as [[]|e].
  - apply user_create_true in Hr. right. rewrite Hr, Ht. auto.
  - apply user_create_false in Hr. left. rewrite Hr, Ht. auto.
  - apply user_create_throw in Hr as [Hr|Hr]; [left|right]; rewrite Hr, Ht; split; auto.
Qed.

(** A login reads the repository and changes nothing. *)
Lemma login_users n h r o r' :
  LoginUserUseCase_execute n h r = (o, r') -> users r' = users r.
Proof.
  unfold LoginUserUseCase_execute. intros Hr.
  minv Hr; pose proof (findByUsername_users _ _ _ _ Hm) as Ht; [|done].
  destruct v; minv Hr; exact Ht.
Qed.

(** A sequence of registrations and logins, each with its own clock and
    generator values, whatever its calls return or throw. *)
Inductive user_call : Type :=
| RegisterCall (username passwordHash : string) (now : time_point) (gen : uuid)
| LoginCall (username passwordHash : string).

Definition run_user_call (c : user_call) (r : R) : result bool * R :=
  match c with
  | RegisterCall n h now gen => registerUserByPassword n h now gen r
  | LoginCall n h => loginUserByPassword n h r
  end.

Definition run_user_calls (cs : list user_call) (r : R) : R :=
  foldl (fun r c => (run_user_call c r).2) r cs.

Lemma run_user_call_nodup c r :
  NoDup (usernames r) -> NoDup (usernames (run_user_call c r).2).
Proof.
  unfold usernames. intros Hnd. destruct c as [n h now gen|n h]; cbn [run_user_call].
  - destruct (registerUserByPassword n h now gen r) as [o r'] eqn:Hr. cbn.
    apply register_cases in Hr as [[-> _]|(-> & _ & _ & Hfresh & _)]; [done|].
    rewrite fmap_app. apply NoDup_app. split; [done|].
    split; [|apply NoDup_singleton].
    intros x Hx Hin. apply list_elem_of_singleton in Hin as ->. done.
  - destruct (loginUserByPassword n h r) as [o r'] eqn:Hr. cbn.
    apply login_users in Hr. by rewrite Hr.
Qed.

(** C34: no sequence of registrations and logins through the controller
    makes two users of the same name: when the names stored before are
    distinct they are distinct afterwards. *)
Theorem usernames_stay_distinct cs r :
  NoDup (usernames r) -> NoDup (usernames (run_user_calls cs r)).
Proof.
  revert r. induction cs as [|c cs IH]; intros r Hnd; [done|].
  apply IH, run_user_call_nodup, Hnd.
Qed.

(** After a registration that returned true, a login under that name
    that returns answers exactly whether the hash is the registered one. *)
Theorem register_then_login n h now gen r r1 h' b r2 :
  RegisterUserUseCase_execute n h now gen r = (Ok true, r1) ->
  LoginUserUseCase_execute n h' r1 = (Ok b, r2) ->
  b = String.eqb h h'.
Proof.
  intros Hreg Hlog.
  apply register_cases in Hreg as [[_ ?]|(Hrows & _ & _ & Hfresh & _)]; [done|].
  unfold LoginUserUseCase_execute in Hlog. minv Hlog.
  destruct v as [u|].
  - apply findByUsername_some in Hm as [Hin Hname].
    rewrite Hrows in Hin. apply elem_of_app in Hin as [Hin|Hin].
    + destruct Hfresh. unfold usernames. apply list_elem_of_fmap.
      by exists (user_row u).
    + apply list_elem_of_singleton in Hin. unfold user_row in Hin. by minv Hlog.
  - destruct (findByUsername_none _ _ _ Hm (gen, n, h)); [|done].
    rewrite Hrows. apply elem_of_app. right. by apply list_elem_of_singleton.
Qed.
End user_theorems.

(** ** Sending a message *)

Section message_theorems.
Context `{MessageRepositorySpec}.

(** A message with empty text is refused before the repository is
    touched; any other one is handed to the repository with the chat, the
    sender and the text of the call, and a true answer means that exactly
    that row was added. *)
Theorem send_message_use_case chatId senderId content gen now r :
  (content = EmptyString ->
     SendMessageUseCase_execute chatId senderId content gen now r = (Ok false, r)) /\
  (forall r', SendMessageUseCase_execute chatId senderId content gen now r = (Ok true, r') ->
     content <> EmptyString /\
     stored r' = stored r ++ [(gen, chatId, senderId, content)]).
Proof.
  unfold SendMessageUseCase_execute. split; [by intros ->|].
  intros r' Hr. destruct content as [|c s]; cbn [str_empty] in Hr; [by minv Hr|]. split; [done|].
  by apply message_create_true in Hr.
Qed.
End message_theorems.
