(* ===== verification/Reference.v ===== *)
(** * Concrete instances of the library interfaces

    Executable instances of the classes that stand for code outside the
    repository (JSON, UUIDs) and in-memory repositories. The development's
    definitions and theorems are parametric in the classes; these instances
    show that the laws can hold, and they are what the concrete runs evaluate. *)
From Stdlib Require Import Eqdep_dec.
From S2P Require Import Prelude CppString Json Domain.

Module RefJson.
Inductive jval : Type :=
| JDiscarded
| JNull
| JBool (b : bool)
| JNum (z : Z)
| JStr (s : string)
| JArr (l : list jval)
| JObj (kvs : list (string * jval)).

(** Members are kept sorted by key, as [std::map] keeps them; the first of
    two equal keys wins. *)
Fixpoint put_sorted (k : string) (v : jval) (kvs : list (string * jval)) :=
  match kvs with
  | [] => [(k, v)]
  | (k', v') :: t =>
      if String.ltb k k' then (k, v) :: (k', v') :: t else (k', v') :: put_sorted k v t
  end.

Definition emplace (kvs : list (string * jval)) (kv : string * jval) :=
  match assoc_first kv.1 kvs with Some _ => kvs | None => put_sorted kv.1 kv.2 kvs end.

Definition as_pair (j : jval) : option (string * jval) :=
  match j with JArr [JStr k; v] => Some (k, v) | _ => None end.

Definition init (l : list jval) : jval :=
  match mapM as_pair l with
  | Some kvs => JObj (foldl emplace [] kvs)
  | None => JArr l
  end.

Definition find (j : jval) (k : string) : option jval :=
  match j with JObj kvs => assoc_first k kvs | _ => None end.
Definition is_object (j : jval) : bool := match j with JObj _ => true | _ => false end.
Definition as_string (j : jval) : option string := match j with JStr s => Some s | _ => None end.

Definition value (j : jval) (k d : string) : result string :=
  if is_object j then
    match find j k with
    | None => Ok d
    | Some (JStr s) => Ok s
    | Some _ => Throw (json_type_error 302)
    end
  else Throw (json_type_error 306).
Definition value_json (j : jval) (k : string) (d : jval) : result jval :=
  if is_object j then Ok (default d (find j k)) else Throw (json_type_error 306).
Definition at_ (j : jval) (k : string) : result jval :=
  if is_object j then
    match find j k with Some v => Ok v | None => Throw (out_of_range "key not found") end
  else Throw (json_type_error 304).
Definition get_string (j : jval) : result string :=
  match j with JStr s => Ok s | _ => Throw (json_type_error 302) end.
Definition push_back (j v : jval) : jval :=
  match j with JArr l => JArr (l ++ [v]) | _ => JArr [v] end.
Definition set (j : jval) (k : string) (v : jval) : jval :=
  match j with
  | JObj kvs => JObj (put_sorted k v (List.filter (fun kv => negb (String.eqb kv.1 k)) kvs))
  | _ => JObj [(k, v)]
  end.

(** *** Printing *)

Definition dq : string := String quote_ascii EmptyString.

Fixpoint escape (s : string) : string :=
  match s with
  | EmptyString => EmptyString
  | String c t =>
      if Ascii.eqb c quote_ascii || Ascii.eqb c "\"%char
      then String "\"%char (String c (escape t)) else String c (escape t)
  end.
Definition print_string (s : string) : string := dq +:+ escape s +:+ dq.

Fixpoint join (l : list string) : string :=
  match l with
  | [] => EmptyString
  | [x] => x
  | x :: t => x +:+ "," +:+ join t
  end.

Fixpoint print (j : jval) : string :=
  match j with
  | JDiscarded => "<discarded>"
  | JNull => "null"
  | JBool true => "true"
  | JBool false => "false"
  | JNum z => pretty z
  | JStr s => print_string s
  | JArr l => "[" +:+ join (map print l) +:+ "]"
  | JObj kvs =>
      "{" +:+ join (map (fun kv => print_string kv.1 +:+ ":" +:+ print kv.2) kvs) +:+ "}"
  end.

(** This instance takes every byte above 127 for a UTF-8 error. *)
Fixpoint is_ascii (s : string) : bool :=
  match s with
  | EmptyString => true
  | String c t => (Ascii.nat_of_ascii c <? 128)%nat && is_ascii t
  end.
Definition dump (j : jval) : result string :=
  if is_ascii (print j) then Ok (print j) else Throw (json_type_error 316).

(** *** Parsing *)

Fixpoint skip (s : string) : string :=
  match s with String c t => if Ascii.eqb c space then skip t else s | _ => s end.

Fixpoint parse_string (s : string) : option (string * string) :=
  match s with
  | EmptyString => None
  | String c t =>
      if Ascii.eqb c quote_ascii then Some (EmptyString, t)
      else if Ascii.eqb c "\"%char then
        match t with
        | String d u => '(r, rest) ← parse_string u; Some (String d r, rest)
        | EmptyString => None
        end
      else '(r, rest) ← parse_string t; Some (String c r, rest)
  end.

Definition digit (c : ascii) : option Z :=
  let n := Z.of_N (Ascii.N_of_ascii c) in
  if (48 <=? n)%Z && (n <=? 57)%Z then Some (n - 48)%Z else None.
Fixpoint parse_digits (acc : Z) (s : string) : Z * string :=
  match s with
  | String c t =>
      match digit c with Some d => parse_digits (acc * 10 + d) t | None => (acc, s) end
  | EmptyString => (acc, s)
  end.

Definition expect (c : ascii) (s : string) : option string :=
  match skip s with
  | String d t => if Ascii.eqb c d then Some t else None
  | EmptyString => None
  end.

Definition keyword (w : string) (j : jval) (s : string) : option (jval * string) :=
  if String.prefix w s
  then Some (j, String.substring (String.length w) (String.length s) s) else None.

(** One unit of fuel per nested value or element. *)
Fixpoint parse_value (fuel : nat) (s : string) : option (jval * string) :=
  match fuel with
  | O => None
  | S f =>
      match skip s with
      | EmptyString => None
      | String c t =>
          if Ascii.eqb c quote_ascii then
            '(r, rest) ← parse_string t; Some (JStr r, rest)
          else if Ascii.eqb c "{"%char then
            match expect "}"%char t with
            | Some rest => Some (JObj [], rest)
            | None => '(kvs, rest) ← parse_members f t; Some (JObj (foldl emplace [] kvs), rest)
            end
          else if Ascii.eqb c "["%char then
            match expect "]"%char t with
            | Some rest => Some (JArr [], rest)
            | None => '(l, rest) ← parse_elements f t; Some (JArr l, rest)
            end
          else if Ascii.eqb c "-"%char then
            let '(z, rest) := parse_digits 0 t in Some (JNum (- z), rest)
          else match digit c with
            | Some _ => let '(z, rest) := parse_digits 0 (String c t) in Some (JNum z, rest)
            | None =>
                match keyword "true" (JBool true) (String c t) with
                | Some r => Some r
                | None => match keyword "false" (JBool false) (String c t) with
                          | Some r => Some r
                          | None => keyword "null" JNull (String c t)
                          end
                end
            end
      end
  end
with parse_members (fuel : nat) (s : string) : option (list (string * jval) * string) :=
  match fuel with
  | O => None
  | S f =>
      t ← expect quote_ascii s;
      '(k, t1) ← parse_string t;
      t2 ← expect ":"%char t1;
      '(v, t3) ← parse_value f t2;
      match expect ","%char t3 with
      | Some t4 => '(kvs, rest) ← parse_members f t4; Some ((k, v) :: kvs, rest)
      | None => rest ← expect "}"%char t3; Some ([(k, v)], rest)
      end
  end
with parse_elements (fuel : nat) (s : string) : option (list jval * string) :=
  match fuel with
  | O => None
  | S f =>
      '(v, t3) ← parse_value f s;
      match expect ","%char t3 with
      | Some t4 => '(l, rest) ← parse_elements f t4; Some (v :: l, rest)
      | None => rest ← expect "]"%char t3; Some ([v], rest)
      end
  end.

Definition parse (s : string) : jval :=
  match parse_value (S (String.length s)) s with
  | Some (j, rest) => if str_empty (skip rest) then j else JDiscarded
  | None => JDiscarded
  end.
Definition parse_exn (s : string) : result jval :=
  match parse s with JDiscarded => Throw json_parse_error | j => Ok j end.

(** *** Laws *)

Lemma assoc_put_sorted k v kvs q :
  assoc_first k kvs = None ->
  assoc_first q (put_sorted k v kvs) = if decide (k = q) then Some v else assoc_first q kvs.
Proof.
  induction kvs as [|[k' v'] t IH]; intros Hk; [done|]. cbn in Hk |- *.
  destruct (decide (k' = k)); [done|]. destruct (String.ltb k k'); [done|].
  cbn. rewrite IH by done. destruct (decide (k' = q)), (decide (k = q)); congruence.
Qed.

Lemma assoc_emplaces kvs acc k :
  assoc_first k (foldl emplace acc kvs) =
  match assoc_first k acc with Some v => Some v | None => assoc_first k kvs end.
Proof.
  revert acc. induction kvs as [|[k' v'] t IH]; intros acc; cbn.
  - by destruct (assoc_first k acc).
  - rewrite IH. unfold emplace. cbn [fst snd].
    destruct (assoc_first k' acc) eqn:E.
    + destruct (assoc_first k acc) eqn:F; [done|]. case_decide; [by simplify_eq|done].
    + rewrite assoc_put_sorted by done. case_decide; subst; [by rewrite E|done].
Qed.

Lemma init_pairs kvs :
  init ((fun kv => JArr [JStr kv.1; kv.2]) <$> kvs) = JObj (foldl emplace [] kvs).
Proof.
  unfold init.
  assert (mapM as_pair ((fun kv => JArr [JStr kv.1; kv.2]) <$> kvs) = Some kvs) as ->;
    [|done].
  apply mapM_Some. induction kvs as [|[k v] t IH]; constructor; [done|exact IH].
Qed.
End RefJson.

Definition ref_json : JsonLib := {|
  json := RefJson.jval;
  json_parse := RefJson.parse;
  json_parse_exn := RefJson.parse_exn;
  json_dump := RefJson.dump;
  json_dump_replace := RefJson.print;
  json_is_object := RefJson.is_object;
  json_find := RefJson.find;
  json_as_string := RefJson.as_string;
  json_value := RefJson.value;
  json_value_json := RefJson.value_json;
  json_at := RefJson.at_;
  json_get_string := RefJson.get_string;
  json_string := RefJson.JStr;
  json_int := RefJson.JNum;
  json_uint := RefJson.JNum;
  json_empty_object := RefJson.JObj [];
  json_empty_array := RefJson.JArr [];
  json_init := RefJson.init;
  json_push_back := RefJson.push_back;
  json_null := RefJson.JNull;
  json_set := RefJson.set
|}.

Lemma ref_json_object kvs :
  @json_object ref_json kvs = RefJson.JObj (foldl RefJson.emplace [] kvs).
Proof. exact (RefJson.init_pairs kvs). Qed.

Lemma ref_json_laws : @JsonLaws ref_json.
Proof.
  constructor; try (intros; by repeat case_match).
  all: cbn [json_is_object json_find json_value json_as_string json_value_json json_at
            json_get_string ref_json json].
  all: unfold RefJson.value, RefJson.value_json, RefJson.at_.
  all: try (intros; repeat (case_match; simplify_eq/=); congruence).
  - intros j k d Ho Hf. by rewrite Ho, Hf.
  - intros j k d v Ho Hf. by rewrite Ho, Hf.
  - intros v s Hs. by destruct v; simplify_eq/=.
  - intros kvs. by rewrite ref_json_object.
  - intros kvs k. rewrite ref_json_object. cbn. by rewrite RefJson.assoc_emplaces.
Qed.

(** ** UUIDs: the canonical text itself *)

Module RefUuid.
(** 36 characters, dashes at 8, 13, 18 and 23, lower case hexadecimal elsewhere. *)
Definition hex_char (c : ascii) : bool :=
  let n := Ascii.nat_of_ascii c in
  ((48 <=? n) && (n <=? 57) || (97 <=? n) && (n <=? 102))%nat.
Fixpoint canonical_from (i : nat) (s : string) : bool :=
  match s with
  | EmptyString => (i =? 36)%nat
  | String c t =>
      (if ((i =? 8) || (i =? 13) || (i =? 18) || (i =? 23))%nat
       then Ascii.eqb c "-"%char else hex_char c) && canonical_from (S i) t
  end.
Definition canonical (s : string) : bool := canonical_from 0 s.

Definition t : Type := { s : string | canonical s = true }.
Definition to_string (u : t) : string := proj1_sig u.
Definition of_string (s : string) : result t :=
  match bool_dec (canonical s) true with
  | left p => Ok (s ↾ p)
  | right _ => Throw (runtime_error "invalid uuid string")
  end.

#[export] Instance t_eq_dec : EqDecision t.
Proof.
  intros [s p] [s' p']. destruct (decide (s = s')) as [->|Hne].
  - left. f_equal. apply Eqdep_dec.UIP_dec, bool_dec.
  - right. congruence.
Defined.
End RefUuid.

Definition ref_uuid : UuidLib := {|
  uuid := RefUuid.t;
  uuid_eq_dec := RefUuid.t_eq_dec;
  uuid_to_string := RefUuid.to_string;
  string_generator := RefUuid.of_string
|}.

Lemma ref_uuid_laws : @UuidLaws ref_uuid.
Proof.
  constructor; cbn.
  - intros [s p]. unfold RefUuid.of_string, RefUuid.to_string. cbn.
    destruct (bool_dec _ _) as [q|q]; [|by destruct q].
    do 2 f_equal. apply Eqdep_dec.UIP_dec, bool_dec.
  - unfold RefUuid.of_string. intros s e He. by case_match; simplify_eq.
  - done.
Qed.

(** Two identifiers for the concrete runs. *)
Definition uuid_text_a : string := "aaaaaaaa-0000-4000-8000-00000000000a".
Definition uuid_text_b : string := "bbbbbbbb-0000-4000-8000-00000000000b".
Definition uuid_a : @uuid ref_uuid := uuid_text_a ↾ eq_refl.
Definition uuid_b : @uuid ref_uuid := uuid_text_b ↾ eq_refl.

(** ** In-memory repositories over any UUID library *)

Section memory.
Context `{UuidLib}.

#[export] Instance memory_users : UserRepository (list User) := {|
  findByUsername n := fun r => (Ok (snd <$> list_find (fun u => User_getUsername u = n) r), r);
  user_create u := fun r => (Ok true, r ++ [u])
|}.

#[export] Program Instance memory_users_spec : UserRepositorySpec := {|
  users r := user_row <$> r
|}.
Next Obligation. intros u r r' Hr. cbn in Hr. simplify_eq. by rewrite fmap_app. Qed.
Next Obligation. intros u r r' Hr. cbn in Hr. by simplify_eq. Qed.
Next Obligation. intros u r e r' Hr. cbn in Hr. by simplify_eq. Qed.
Next Obligation. intros n r o r' Hr. cbn in Hr. by simplify_eq. Qed.
Next Obligation.
  intros n r u r' Hr. cbn in Hr. destruct (list_find _ r) as [[i u']|] eqn:Hf; [|done].
  cbn in Hr. simplify_eq. apply list_find_Some in Hf as (Hi & <- & _). split; [|done].
  apply list_elem_of_fmap. exists u. split; [done|]. by eapply list_elem_of_lookup_2.
Qed.
Next Obligation.
  intros n r r' Hr row Hin. cbn in Hr. destruct (list_find _ r) eqn:Hf; [done|].
  apply list_find_None in Hf. apply list_elem_of_fmap in Hin as (u & -> & Hu).
  rewrite Forall_forall in Hf. exact (Hf u Hu).
Qed.

#[export] Instance memory_messages : MessageRepository (list Message) := {|
  message_create m := fun r => (Ok true, r ++ [m]);
  getByChat c n := fun r =>
    (Ok (take (Z.to_nat n) (reverse (filter (fun m => Message_getChatId m = c) r))), r)
|}.

#[export] Program Instance memory_messages_spec : MessageRepositorySpec := {|
  stored r := message_row <$> r
|}.
Next Obligation. intros m r r' Hr. cbn in Hr. simplify_eq. by rewrite fmap_app. Qed.
Next Obligation. intros m r r' Hr. cbn in Hr. by simplify_eq. Qed.
Next Obligation. intros m r e r' Hr. cbn in Hr. by simplify_eq. Qed.
Next Obligation. intros c n r o r' Hr. cbn in Hr. by simplify_eq. Qed.
Next Obligation.
  intros c n r ms r' Hn Hr. cbn in Hr. simplify_eq. 
  rewrite list_filter_fmap. unfold row_chat, message_row; cbn. split.
  - apply fmap_submseteq, take_reverse_submseteq.
  - rewrite length_take, length_reverse, length_fmap. lia.
Qed.
End memory.
