(* ===== verification/UseCaseRuns.v ===== *)
(** * The use cases on concrete repositories

    The theorems of [UseCases] at concrete calls, on the in-memory
    repositories of [Reference]. *)
From S2P Require Import Prelude CppString Domain UseCases Reference.

Module UseCaseRuns.
#[local] Existing Instances ref_uuid ref_uuid_laws.

Definition calls : list user_call :=
  [RegisterCall "ann" "h1" 1%Z uuid_a; RegisterCall "ann" "h2" 2%Z uuid_b;
   RegisterCall "bob" "h3" 3%Z uuid_b; LoginCall "ann" "h1"].

Lemma calls_users :
  snd ∘ fst <$> users (run_user_calls calls ([] : list User)) = ["ann"; "bob"].
Proof. by vm_compute. Qed.

Lemma usernames_stay_distinct_witness :
  snd ∘ fst <$> users (run_user_calls calls ([] : list User)) = ["ann"; "bob"] /\
  NoDup (usernames (run_user_calls calls ([] : list User))).
Proof.
  split; [exact calls_users|]. apply (usernames_stay_distinct calls []). constructor.
Defined.

Definition after_ann : list User :=
  (RegisterUserUseCase_execute "ann" "h1" 1%Z uuid_a ([] : list User)).2.

Lemma register_then_login_witness :
  (LoginUserUseCase_execute "ann" "h2" after_ann).1 = Ok false /\ false = String.eqb "h1" "h2".
Proof.
  split; [reflexivity|].
  exact (register_then_login "ann" "h1" 1%Z uuid_a [] after_ann "h2" false after_ann
    eq_refl eq_refl).
Defined.
End UseCaseRuns.
