(* ===== verification/Logging.v ===== *)
(** * The logger of the process

    [src/core/logging]: [LoggerFactory::createDefault], over the registry of
    spdlog, which keeps one logger per name for the whole process. *)
From S2P Require Import Prelude.

(** What the code uses of spdlog. A logger is a handle shared by everyone who
    asks for its name; its level and its pattern are state of the process. *)
Class SpdlogLib : Type := {
  spd_state : Type;
  logger : Type;
  log_level : Type;
  (** [spdlog::level::from_str] *)
  level_from_str : string -> log_level;
  spdlog_get : string -> spd_state -> option logger;
  stdout_color_mt : string -> M spd_state logger;
  set_level : logger -> log_level -> spd_state -> spd_state;
  set_pattern : logger -> string -> spd_state -> spd_state;
  level_of : logger -> spd_state -> option log_level;
  pattern_of : logger -> spd_state -> option string
}.

Class SpdlogLaws `{SpdlogLib} : Prop := {
  (** [stdout_color_mt] registers a new logger under a name that is free and
      throws on one that is taken. *)
  stdout_color_mt_new name s :
    spdlog_get name s = None ->
    exists l s', stdout_color_mt name s = (Ok l, s') /\ spdlog_get name s' = Some l /\
      (forall other, other <> name -> spdlog_get other s' = spdlog_get other s);
  stdout_color_mt_taken name s l :
    spdlog_get name s = Some l ->
    exists e, stdout_color_mt name s = (Throw e, s);
  (** The setters change one attribute of a registered logger. *)
  get_set_level name l v s : spdlog_get name (set_level l v s) = spdlog_get name s;
  get_set_pattern name l p s : spdlog_get name (set_pattern l p s) = spdlog_get name s;
  level_set_level name l v s :
    spdlog_get name s = Some l -> level_of l (set_level l v s) = Some v;
  pattern_set_pattern name l p s :
    spdlog_get name s = Some l -> pattern_of l (set_pattern l p s) = Some p;
  pattern_set_level l l' v s : pattern_of l (set_level l' v s) = pattern_of l s
}.

(** ** logger.cpp *)

Section factory.
Context `{SpdlogLib}.

Definition loggerName : string := "svitock".
Definition default_pattern : string := "[%Y-%m-%d %H:%M:%S.%e] [%^%l%$] [thread %t] %v".

Definition createDefault (level : string) : M spd_state logger := fun s =>
  match spdlog_get loggerName s with
  | Some existing => (Ok existing, set_level existing (level_from_str level) s)
  | None =>
      match stdout_color_mt loggerName s with
      | (Ok created, s1) =>
          let s2 := set_pattern created default_pattern s1 in
          (Ok created, set_level created (level_from_str level) s2)
      | (Throw e, s1) => (Throw e, s1)
      end
  end.
End factory.

(** ** What the factory promises *)

Section promises.
Context `{SpdlogLaws}.

(** What a call leaves behind, on both branches. *)
Lemma createDefault_spec level s :
  exists l s', createDefault level s = (Ok l, s') /\ spdlog_get loggerName s' = Some l /\
    level_of l s' = Some (level_from_str level) /\
    pattern_of l s' = match spdlog_get loggerName s with
                      | Some old => pattern_of old s
                      | None => Some default_pattern
                      end.
Proof.
  unfold createDefault. destruct (spdlog_get loggerName s) as [old|] eqn:Hg.
  - exists old, (set_level old (level_from_str level) s). rewrite get_set_level, pattern_set_level.
    split_and!; eauto using level_set_level.
  - destruct (stdout_color_mt_new loggerName s Hg) as (l & s1 & -> & Hg1 & _).
    eexists l, _. split; [done|]. rewrite get_set_level, get_set_pattern, pattern_set_level.
    split_and!; [done| |by eapply pattern_set_pattern].
    eapply level_set_level. by rewrite get_set_pattern.
Qed.

(** The logger of the process is one. Asking for it never throws, in
    whatever state the registry is; asking again gives the same logger, now at
    the level of the second call, with the pattern the first call left. *)
Theorem logger_is_shared level level' s :
  exists l s1 s2, createDefault level s = (Ok l, s1) /\ createDefault level' s1 = (Ok l, s2) /\
    level_of l s2 = Some (level_from_str level') /\ pattern_of l s2 = pattern_of l s1.
Proof.
  destruct (createDefault_spec level s) as (l & s1 & H1 & Hg1 & _ & _).
  destruct (createDefault_spec level' s1) as (l' & s2 & H2 & Hg2 & Hl & Hp).
  rewrite Hg1 in Hp. exists l, s1, s2.
  assert (l' = l) as ->; [|done].
  unfold createDefault in H2. rewrite Hg1 in H2. by simplify_eq.
Qed.
End promises.

(** ** A concrete registry *)

Module LoggerRun.

(** Loggers are named by their names; level and pattern are texts. *)
Notation table := (gmap string (string * string)).

#[export] Instance table_spdlog : SpdlogLib := {|
  spd_state := table;
  logger := string;
  log_level := string;
  level_from_str := fun level => level;
  spdlog_get := fun name s => (fun _ => name) <$> s !! name;
  stdout_color_mt := fun name s =>
    match s !! name with
    | Some _ => (Throw (foreign "logger already exists"), s)
    | None => (Ok name, <[name := ("info", "%+")]> s)
    end;
  set_level := fun l v s => alter (fun a => (v, a.2)) l s;
  set_pattern := fun l p s => alter (fun a => (a.1, p)) l s;
  level_of := fun l s => fst <$> s !! l;
  pattern_of := fun l s => snd <$> s !! l
|}.

Lemma const_alter (f : string * string -> string * string) (name l : string) (s : table) :
  (fun _ => name) <$> alter f l s !! name = (fun _ => name) <$> s !! name.
Proof.
  destruct (decide (l = name)) as [->|Hne].
  - rewrite lookup_alter_eq. by destruct (s !! name).
  - by rewrite lookup_alter_ne.
Qed.

#[export] Instance table_spdlog_laws : SpdlogLaws.
Proof.
  split; cbn.
  - intros name s Hg. destruct (s !! name) eqn:E; [done|]. exists name, (<[name:=("info", "%+")]> s).
    split; [done|]. split; [by rewrite lookup_insert_eq|].
    intros other Hne. by rewrite lookup_insert_ne.
  - intros name s l Hg. destruct (s !! name); [by eexists|done].
  - intros. apply const_alter.
  - intros. apply const_alter.
  - intros name l v s Hg. destruct (s !! name) eqn:E; [|done]. cbn in Hg. simplify_eq.
    by rewrite lookup_alter_eq, E.
  - intros name l v s Hg. destruct (s !! name) eqn:E; [|done]. cbn in Hg. simplify_eq.
    by rewrite lookup_alter_eq, E.
  - intros l l' v s. destruct (decide (l' = l)) as [->|Hne].
    + rewrite lookup_alter_eq. by destruct (s !! l).
    + by rewrite lookup_alter_ne.
Qed.

Example second_level_wins :
  (createDefault "warn" (createDefault "debug" ∅).2).2 !! loggerName =
    Some ("warn", default_pattern).
Proof. reflexivity. Qed.

Lemma logger_is_shared_witness :
  exists l s1 s2, createDefault "debug" ∅ = (Ok l, s1) /\ createDefault "warn" s1 = (Ok l, s2) /\
    level_of l s2 = Some "warn".
Proof.
  destruct (logger_is_shared "debug" "warn" ∅) as (l & s1 & s2 & H1 & H2 & Hl & _).
  by exists l, s1, s2.
Defined.
End LoggerRun.
