(* ===== verification/Jwt.v ===== *)
(** * The token service

    [src/core/security/jwt_service.cpp]: tokens are the compact JSON of a
    header, a dot, the compact JSON of a payload, a dot and a signature, the
    SHA-1 of the text before the last dot followed by the secret, its five
    words in hexadecimal. SHA-1 (Boost.Uuid's) and the JSON library are
    interfaces. *)
From S2P Require Import Prelude CppString Json Reference.

(** [boost::uuids::detail::sha1]. *)
Class Sha1Lib : Type := {
  sha1 : Type;
  sha1_new : sha1;
  process_bytes : string -> sha1 -> sha1;
  get_digest : sha1 -> list Z
}.
(** The hash of several blocks is that of their concatenation; a digest is
    five words of 32 bits. *)
Class Sha1Laws `{Sha1Lib} : Prop := {
  process_bytes_app a b h : process_bytes b (process_bytes a h) = process_bytes (a +:+ b) h;
  get_digest_length h : length (get_digest h) = 5;
  get_digest_range h : Forall (fun v => 0 <= v < 2 ^ 32)%Z (get_digest h)
}.

(** Eight digits hold 32 bits. *)
Definition toHex (value : Z) : string := hex_of 8 value.

Fixpoint render (words : list Z) : string :=
  match words with [] => EmptyString | v :: rest => toHex v +:+ render rest end.

Definition dot_text : string := String dot EmptyString.

Section jwt.
Context `{JsonLib, Sha1Lib}.

Definition toCompactJson (value : json) : string := json_dump_replace value.

Definition sign (secret_ data : string) : string :=
  let hasher := process_bytes secret_ (process_bytes data sha1_new) in
  render (get_digest hasher).

Definition jwt_header : json :=
  json_object [("alg", json_string "HS1"); ("typ", json_string "JWT")].
(** [now] is signed, [now + ttlSeconds] unsigned. *)
Definition jwt_payload (userId : string) (now ttlSeconds : Z) : json :=
  json_object [("sub", json_string userId); ("iat", json_int now);
               ("exp", json_uint (wrap64 (now + ttlSeconds)))].

Definition issueToken (secret_ userId : string) (ttlSeconds now : Z) : string :=
  let header := jwt_header in
  let payload := jwt_payload userId now ttlSeconds in
  let raw := toCompactJson header +:+ (dot_text +:+ toCompactJson payload) in
  raw +:+ (dot_text +:+ sign secret_ raw).

Definition validateToken (secret_ token : string) : result bool :=
  let lastDot := str_rfind dot token in
  if (lastDot =? npos)%Z then Ok false
  else
    data ← str_substr token 0 lastDot;
    signature ← str_substr token (wrap64 (lastDot + 1)) npos;
    Ok (String.eqb (sign secret_ data) signature).

Definition extractUserId (token : string) : result string :=
  let firstDot := str_find dot token in
  let lastDot := str_rfind dot token in
  if (firstDot =? npos)%Z || (lastDot =? npos)%Z || (firstDot =? lastDot)%Z
  then Ok EmptyString
  else
    payloadRaw ← str_substr token (wrap64 (firstDot + 1))
                   (wrap64 (wrap64 (lastDot - firstDot) - 1));
    let payload := json_parse payloadRaw in
    if negb (json_is_object payload) then Ok EmptyString
    else json_value payload "sub" EmptyString.
End jwt.

(** ** Lemmas on tokens *)

(** A string object is shorter than the address space. *)
Definition fits (s : string) : Prop := (str_size s < npos)%Z.

Lemma str_find_dot a b :
  index_char dot a = None -> str_find dot (a +:+ (dot_text +:+ b)) = str_size a.
Proof.
  intros Ha. unfold str_find. change (dot_text +:+ b) with (String dot b).
  by rewrite index_char_first. Qed.

Lemma str_rfind_dot a b :
  index_char dot b = None -> str_rfind dot (a +:+ (dot_text +:+ b)) = str_size a.
Proof.
  intros Hb. unfold str_rfind. change (dot_text +:+ b) with (String dot b).
  by rewrite rindex_char_last. Qed.

Lemma dot_position_not_npos a b : fits (a +:+ (dot_text +:+ b)) -> (str_size a =? npos)%Z = false.
Proof.
  unfold fits. rewrite !str_size_app. intros Hf. apply Z.eqb_neq.
  pose proof (str_size_nonneg b). pose proof (str_size_nonneg dot_text). lia.
Qed.

(** The two parts around a dot. *)
Lemma substr_before_dot a b : str_substr (a +:+ (dot_text +:+ b)) 0 (str_size a) = Ok a.
Proof. by apply str_substr_head. Qed.

Lemma substr_after_dot a b n :
  fits (a +:+ (dot_text +:+ b)) -> (str_size b <= n)%Z ->
  str_substr (a +:+ (dot_text +:+ b)) (wrap64 (str_size a + 1)) n = Ok b.
Proof.
  unfold fits, npos. rewrite !str_size_app. intros Hf Hn.
  pose proof (str_size_nonneg a). pose proof (str_size_nonneg b).
  change (str_size dot_text) with 1%Z in Hf. rewrite wrap64_small by lia.
  replace (str_size a + 1)%Z with (str_size (a +:+ dot_text)) by (by rewrite str_size_app).
  rewrite <- string_app_assoc. by apply str_substr_tail.
Qed.

Lemma render_no_dot words :
  Forall (fun v => 0 <= v < 2 ^ 32)%Z words -> index_char dot (render words) = None.
Proof.
  induction 1 as [|v words [Hv _] _ IH]; [done|]. cbn [render].
  rewrite index_char_app_r by (by apply hex_of_no_dot). by rewrite IH.
Qed.

Lemma render_length words :
  Forall (fun v => 0 <= v < 2 ^ 32)%Z words ->
  (length words <= String.length (render words) <= 8 * length words)%nat.
Proof.
  induction 1 as [|v words Hv _ IH]; [cbn; lia|]. cbn [render length].
  rewrite string_length_app.
  assert (1 <= String.length (toHex v) <= 8)%nat by (apply hex_of_length; lia). lia.
Qed.

Section theorems.
Context `{JsonLaws, Sha1Laws}.
Implicit Types (secret token data user : string).

Lemma sign_no_dot secret data : index_char dot (sign secret data) = None.
Proof. apply render_no_dot, get_digest_range. Qed.

Lemma validate_split secret data signature :
  fits (data +:+ (dot_text +:+ signature)) -> index_char dot signature = None ->
  validateToken secret (data +:+ (dot_text +:+ signature)) =
    Ok (String.eqb (sign secret data) signature).
Proof.
  intros Hf Hs. unfold validateToken. rewrite str_rfind_dot by done.
  rewrite (dot_position_not_npos _ _ Hf), substr_before_dot. cbn.
  rewrite substr_after_dot; [done|done|].
  unfold fits in Hf. rewrite !str_size_app in Hf.
  pose proof (str_size_nonneg data). pose proof (str_size_nonneg dot_text). lia.
Qed.

Lemma validate_signed secret data :
  fits (data +:+ (dot_text +:+ sign secret data)) ->
  validateToken secret (data +:+ (dot_text +:+ sign secret data)) = Ok true.
Proof.
  intros Hf. rewrite validate_split by (done || apply sign_no_dot).
  by rewrite String.eqb_refl.
Qed.

(** The user of a text with two dots around [b]. *)
Lemma extract_split a b c :
  fits (a +:+ (dot_text +:+ (b +:+ (dot_text +:+ c)))) ->
  index_char dot a = None -> index_char dot c = None ->
  extractUserId (a +:+ (dot_text +:+ (b +:+ (dot_text +:+ c)))) =
    if json_is_object (json_parse b) then json_value (json_parse b) "sub" EmptyString
    else Ok EmptyString.
Proof.
  intros Hf Ha Hc. unfold extractUserId. rewrite str_find_dot by done.
  pose proof (dot_position_not_npos _ _ Hf) as Hfirst.
  set (token := a +:+ (dot_text +:+ (b +:+ (dot_text +:+ c)))) in *.
  assert (token = (a +:+ (dot_text +:+ b)) +:+ (dot_text +:+ c)) as Htok
    by (unfold token; by rewrite !string_app_assoc).
  assert (str_rfind dot token = str_size (a +:+ (dot_text +:+ b))) as Hr
    by (rewrite Htok; by apply str_rfind_dot).
  pose proof Hf as Hlast. rewrite Htok in Hlast. apply dot_position_not_npos in Hlast.
  rewrite Hr, Hfirst, Hlast. clear Hfirst Hlast Hr.
  unfold fits, npos in Hf. unfold token in Hf. rewrite !str_size_app in *.
  pose proof (str_size_nonneg a). pose proof (str_size_nonneg b). pose proof (str_size_nonneg c).
  change (str_size dot_text) with 1%Z in *.
  destruct (Z.eqb_spec (str_size a) (str_size a + (1 + str_size b))) as [|_]; [lia|].
  cbn [orb]. rewrite !wrap64_small by (rewrite ?wrap64_small; lia).
  replace (str_size a + 1)%Z with (str_size (a +:+ dot_text)) by (by rewrite str_size_app).
  unfold token. rewrite <- (string_app_assoc a), str_substr_mid by lia. cbn.
  by destruct (json_is_object (json_parse b)).
Qed.

Lemma issued_accepted secret user ttl now :
  fits (issueToken secret user ttl now) ->
  validateToken secret (issueToken secret user ttl now) = Ok true.
Proof. apply validate_signed. Qed.

Lemma extract_issued secret user ttl now :
  fits (issueToken secret user ttl now) ->
  index_char dot (toCompactJson jwt_header) = None ->
  json_parse (toCompactJson (jwt_payload user now ttl)) = jwt_payload user now ttl ->
  extractUserId (issueToken secret user ttl now) = Ok user.
Proof.
  intros Hf Hdot Hround. unfold issueToken in *. rewrite string_app_assoc in *.
  rewrite string_app_assoc in *.
  rewrite extract_split by (done || apply sign_no_dot). rewrite Hround.
  unfold jwt_payload. rewrite json_object_is_object. by apply json_value_object_string.
Qed.

Lemma validate_cases secret token :
  fits token ->
  (validateToken secret token = Ok true /\
   exists data, token = data +:+ (dot_text +:+ sign secret data)) \/
  (validateToken secret token = Ok false /\
   forall data, token <> data +:+ (dot_text +:+ sign secret data)).
Proof.
  intros Hf.
  assert (validateToken secret token = Ok false ->
    forall data, token <> data +:+ (dot_text +:+ sign secret data)) as Hno.
  { intros Hv data ->. by rewrite validate_signed in Hv. }
  destruct (rindex_char dot token) as [n|] eqn:Hr.
  - apply rindex_char_Some in Hr as (a & b & -> & _ & Hb).
    change (a +:+ String dot b) with (a +:+ (dot_text +:+ b)) in *.
    rewrite validate_split in * by done.
    destruct (String.eqb (sign secret a) b) eqn:He; [left|right; by split; [|apply Hno]].
    apply String.eqb_eq in He. split; [done|]. exists a. by rewrite He.
  - assert (validateToken secret token = Ok false) as Hv
      by (unfold validateToken, str_rfind; by rewrite Hr).
    right. split; [done|]. by apply Hno.
Qed.

(** C24: [validateToken] never throws, and accepts exactly the texts that
    consist of anything, a dot and the signature of that text under the
    service's secret. Nothing else is looked at: a token is not required to
    be JSON, and an expired one is accepted. *)
Theorem validate_accepts_signed_texts secret token :
  fits token ->
  (exists b, validateToken secret token = Ok b) /\
  (validateToken secret token = Ok true <->
   exists data, token = data +:+ (dot_text +:+ sign secret data)).
Proof.
  intros Hf. destruct (validate_cases secret token Hf) as [[Hv Hd]|[Hv Hd]]; rewrite Hv.
  - by split; [eexists|].
  - split; [by eexists|]. split; [done|]. intros [data Hdata]. by destruct (Hd data).
Qed.

(** C36: the user id goes into a token and comes out of it unchanged, dots
    and all: [extractUserId] cuts the payload out at the first and the last
    dot, and the payload is the only part that can contain other dots. *)
Theorem extract_returns_issued_user secret user ttl now :
  fits (issueToken secret user ttl now) ->
  index_char dot (toCompactJson jwt_header) = None ->
  json_parse (toCompactJson (jwt_payload user now ttl)) = jwt_payload user now ttl ->
  extractUserId (issueToken secret user ttl now) = Ok user.
Proof.
  apply extract_issued.
Qed.

(** What comes out of any text: either an answer, empty unless the text
    between the first and the last dot is a JSON object, or the type error
    of a [sub] that is not a string; the signature is not looked at. *)
Theorem extract_outcomes token :
  fits token ->
  (extractUserId token = Ok EmptyString) \/
  (exists a b c, token = a +:+ (dot_text +:+ (b +:+ (dot_text +:+ c))) /\
     index_char dot a = None /\ index_char dot c = None /\
     json_is_object (json_parse b) = true /\
     extractUserId token = json_value (json_parse b) "sub" EmptyString).
Proof.
  intros Hf. destruct (index_char dot token) as [n|] eqn:Hi;
    [|left; unfold extractUserId, str_find; by rewrite Hi].
  apply index_char_Some in Hi as (a & rest & -> & _ & Ha).
  change (a +:+ String dot rest) with (a +:+ (dot_text +:+ rest)) in *.
  destruct (rindex_char dot rest) as [m|] eqn:Hr.
  - apply rindex_char_Some in Hr as (b & c & -> & _ & Hc).
    change (b +:+ String dot c) with (b +:+ (dot_text +:+ c)) in *.
    rewrite extract_split by done.
    destruct (json_is_object (json_parse b)) eqn:Ho; [right|by left].
    exists a, b, c. split; [done|]. by split_and!.
  - left. unfold extractUserId. apply rindex_char_None in Hr.
    rewrite str_find_dot, str_rfind_dot by done.
    by rewrite Z.eqb_refl, orb_true_r.
Qed.

(** The signature is between 5 and 40 characters long, because the
    words of the digest are written without leading zeros. *)
Theorem signature_length secret data :
  (5 <= String.length (sign secret data) <= 40)%nat.
Proof.
  pose proof (render_length _ (get_digest_range
    (process_bytes secret (process_bytes data sha1_new)))) as Hl.
  by rewrite get_digest_length in Hl.
Qed.

(** Data and secret are hashed one after the other with nothing in
    between: a character moved from the end of the data to the front of the
    secret leaves the signature as it is. *)
Theorem signature_has_no_boundary secret data moved :
  sign (moved +:+ secret) data = sign secret (data +:+ moved).
Proof. unfold sign. by rewrite !process_bytes_app, string_app_assoc. Qed.
End theorems.

(** The hexadecimal text does not determine the digest: two different
    digests of five words have the same text, because a word's leading zeros
    are left out. *)
Theorem render_not_injective :
  exists ws ws', length ws = 5 /\ length ws' = 5 /\
    Forall (fun v => 0 <= v < 2 ^ 32)%Z (ws ++ ws') /\ ws <> ws' /\ render ws = render ws'.
Proof.
  exists [1; 17; 0; 0; 0]%Z, [17; 1; 0; 0; 0]%Z. split_and!; try done.
  repeat constructor; lia.
Qed.

(** ** A concrete token *)

Module TokenRun.
#[local] Existing Instances ref_json ref_json_laws.

(** A digest of five words over the text itself. *)
Fixpoint fold_text (s : string) (acc : Z) : Z :=
  match s with
  | EmptyString => acc
  | String c t => fold_text t ((acc * 257 + Z.of_nat (Ascii.nat_of_ascii c)) `mod` 2 ^ 32)%Z
  end.
#[local] Instance text_sha1 : Sha1Lib := {|
  sha1 := string;
  sha1_new := EmptyString;
  process_bytes b h := h +:+ b;
  get_digest h := (fun seed => fold_text h seed `mod` 2 ^ 32)%Z <$> [1; 2; 3; 4; 5]%Z
|}.
#[local] Instance text_sha1_laws : Sha1Laws.
Proof.
  split.
  - intros a b h. cbn. by rewrite string_app_assoc.
  - done.
  - intros h. cbn [get_digest text_sha1 fmap list_fmap].
    repeat (constructor; [apply Z.mod_pos_bound; lia|]). constructor.
Qed.

Definition secret : string := "k".
Definition user : string := "a.user@host".
Definition now : Z := 1700000000.
Definition token : string := issueToken secret user 3600 now.

Lemma token_fits : fits token.
Proof. by vm_compute. Qed.

Lemma validate_accepts_signed_texts_witness :
  fits token /\ exists data, token = data +:+ (dot_text +:+ sign secret data).
Proof.
  split; [exact token_fits|].
  apply (proj1 (proj2 (validate_accepts_signed_texts secret token token_fits))).
  by vm_compute.
Defined.

Lemma extract_returns_issued_user_witness :
  fits token /\ extractUserId token = Ok user.
Proof.
  split; [exact token_fits|].
  refine (extract_returns_issued_user secret user 3600 now token_fits _ _); by vm_compute.
Defined.

Lemma extract_outcomes_witness :
  fits token /\ extractUserId token = Ok user /\
  exists a b c, token = a +:+ (dot_text +:+ (b +:+ (dot_text +:+ c))).
Proof.
  assert (extractUserId token = Ok user) as Hu by (by vm_compute).
  split; [exact token_fits|]. split; [exact Hu|].
  destruct (extract_outcomes token token_fits) as [He|(a & b & c & Ht & _)].
  - rewrite Hu in He. discriminate He.
  - by exists a, b, c.
Defined.
End TokenRun.
