(* ===== verification/Sql.v ===== *)
(** * The SQL of the adapters

    The fragment of SQL in which [src/infrastructure/repositories] speaks to
    PostgreSQL: INSERT of one row, and SELECT with a condition, an order and a
    limit. A statement is the text that goes to the database; [sql_parse] reads
    it, and [sql_effect] says what PostgreSQL does for it, so that the text of a
    statement decides what a repository is proved to do. *)
From stdpp Require Import sorting.
From S2P Require Import Prelude CppString.

(** ** Statements *)

(** [$1] is parameter 0. *)
Inductive sql_value : Type := Param (k : nat) | SqlNow.
#[export] Instance sql_value_eq_dec : EqDecision sql_value.
Proof. solve_decision. Defined.

(** A condition [column = $k], an order [column] with whether it descends, and
    the parameter of the limit. *)
Inductive sql_stmt : Type :=
| Insert (table : string) (columns : list (string * sql_value))
| Select (columns : list string) (table : string) (condition : option (string * nat))
    (order : option (string * bool)) (limit : option nat).

(** *** Reading a statement *)

Definition word_end (word : string) (rest : list string) : list string :=
  match word with EmptyString => rest | _ => word :: rest end.

(** Words, and the marks [,], [(] and [)]. *)
Fixpoint tokens (word s : string) : list string :=
  match s with
  | EmptyString => word_end word []
  | String c s' =>
      if Ascii.eqb c " " then word_end word (tokens EmptyString s')
      else if Ascii.eqb c "," || Ascii.eqb c "(" || Ascii.eqb c ")"
      then word_end word (String c EmptyString :: tokens EmptyString s')
      else tokens (word +:+ String c EmptyString) s'
  end.

Definition param_of (word : string) : option nat :=
  match word with
  | String "$" (String d EmptyString) =>
      let n := nat_of_ascii d in
      if Nat.leb 49 n && Nat.leb n 57 then Some (n - 49) else None
  | _ => None
  end.

Fixpoint sql_names (ts : list string) : list string * list string :=
  match ts with
  | name :: "," :: rest => let '(names, rest') := sql_names rest in (name :: names, rest')
  | name :: rest => ([name], rest)
  | [] => ([], [])
  end.

Fixpoint sql_values (ts : list string) : list (option sql_value) * list string :=
  match ts with
  | "NOW" :: "(" :: ")" :: "," :: rest =>
      let '(values, rest') := sql_values rest in (Some SqlNow :: values, rest')
  | "NOW" :: "(" :: ")" :: rest => ([Some SqlNow], rest)
  | word :: "," :: rest =>
      let '(values, rest') := sql_values rest in ((Param <$> param_of word) :: values, rest')
  | word :: rest => ([Param <$> param_of word], rest)
  | [] => ([], [])
  end.

Definition parse_insert (table : string) (ts : list string) : option sql_stmt :=
  match sql_names ts with
  | (names, ")" :: "VALUES" :: "(" :: ts') =>
      match sql_values ts' with
      | (values, [")"]) =>
          values ← mapM id values;
          if Nat.eqb (length names) (length values) then Some (Insert table (zip names values))
          else None
      | _ => None
      end
  | _ => None
  end.

Definition parse_limit (ts : list string) : option (option nat) :=
  match ts with
  | [] => Some None
  | ["LIMIT"; word] => k ← param_of word; Some (Some k)
  | _ => None
  end.
Definition parse_order (ts : list string) : option (option (string * bool) * option nat) :=
  match ts with
  | "ORDER" :: "BY" :: name :: "DESC" :: rest =>
      limit ← parse_limit rest; Some (Some (name, true), limit)
  | "ORDER" :: "BY" :: name :: rest => limit ← parse_limit rest; Some (Some (name, false), limit)
  | _ => limit ← parse_limit ts; Some (None, limit)
  end.
Definition parse_select (ts : list string) : option sql_stmt :=
  match sql_names ts with
  | (names, "FROM" :: table :: "WHERE" :: name :: "=" :: word :: rest) =>
      k ← param_of word;
      '(order, limit) ← parse_order rest;
      Some (Select names table (Some (name, k)) order limit)
  | (names, "FROM" :: table :: rest) =>
      '(order, limit) ← parse_order rest;
      Some (Select names table None order limit)
  | _ => None
  end.

Definition sql_parse (sql : string) : option sql_stmt :=
  match tokens EmptyString sql with
  | "INSERT" :: "INTO" :: table :: "(" :: rest => parse_insert table rest
  | "SELECT" :: rest => parse_select rest
  | _ => None
  end.

(** ** Tables *)

(** A field is a text, as it is given and printed, or a time. *)
Inductive cell : Type := Text (t : string) | Time (z : Z).
Abbreviation row := (gmap string cell).
(** A row of an answer, as text by column. *)
Abbreviation pq_row := (gmap string string).

#[export] Instance cell_eq_dec : EqDecision cell.
Proof. solve_decision. Defined.

(** What a statement says of a field. *)
Definition given (params : list string) (v : sql_value) (field : option cell) : Prop :=
  match v with
  | Param k => field = Text <$> params !! k
  | SqlNow => exists z, field = Some (Time z)
  end.
Definition holds (condition : option (string * nat)) (params : list string) (r : row) : Prop :=
  match condition with
  | None => True
  | Some (column, k) => exists t, params !! k = Some t /\ r !! column = Some (Text t)
  end.

#[export] Instance holds_dec condition params r : Decision (holds condition params r).
Proof.
  destruct condition as [[column k]|]; cbn; [|apply _].
  destruct (params !! k) as [t|].
  - destruct (decide (r !! column = Some (Text t))) as [Hr|Hr]; [left; by exists t|].
    right. intros (t' & [= <-] & ?). done.
  - right. by intros (t & ? & _).
Defined.

(** Times are ordered as numbers; the order of texts, a matter of collation, is
    left open. *)
Definition cell_rank (column : string) (r : row) : Z :=
  match r !! column with Some (Time z) => z | _ => 0 end.
Definition before (order : string * bool) (a b : row) : Prop :=
  let '(column, descending) := order in
  if descending then (cell_rank column b <= cell_rank column a)%Z
  else (cell_rank column a <= cell_rank column b)%Z.
Definition ordered (order : option (string * bool)) (l : list row) : Prop :=
  match order with None => True | Some o => StronglySorted (before o) l end.

(** As many as the parameter says, when it is a number as it is printed. *)
Definition limited (limit : option nat) (params : list string) (l l' : list row) : Prop :=
  match limit with
  | None => l' = l
  | Some k => forall n, params !! k = Some (to_string_u n) -> l' = take (N.to_nat n) l
  end.

(** The columns asked for and no others. How a time is printed is left open. *)
Definition projects (columns : list string) (r : row) (out : pq_row) : Prop :=
  forall column,
    (column ∉ columns -> out !! column = None) /\
    (column ∈ columns -> forall t, r !! column = Some (Text t) -> out !! column = Some t).

(** What a statement that succeeds does to the tables, from [T] to [T'], and
    which rows it answers. Where the order says nothing it is any. *)
Definition sql_effect (st : sql_stmt) (params : list string)
    (T : string -> list row) (out : list pq_row) (T' : string -> list row) : Prop :=
  match st with
  | Insert table columns =>
      (exists r, T' table = T table ++ [r] /\
         forall column v, (column, v) ∈ columns -> given params v (r !! column)) /\
      forall t, t <> table -> T' t = T t
  | Select columns table condition order limit =>
      (forall t, T' t = T t) /\
      exists l l', l ≡ₚ filter (holds condition params) (T table) /\ ordered order l /\
        limited limit params l l' /\ Forall2 (projects columns) l' out
  end.

(** ** Numbers as they are printed *)

Fixpoint digits (n : N) (s : string) : N :=
  match s with
  | EmptyString => n
  | String c s' => digits (10 * n + (N_of_ascii c - 48)) s'
  end.

(** The number that prints as a text, if one does. *)
Definition Z_of_text (s : string) : option Z :=
  let n := Z.of_N (digits 0 s) in
  let m := Z.opp (Z.of_N (digits 0 (match s with String _ s' => s' | _ => s end))) in
  if decide (pretty n = s) then Some n else if decide (pretty m = s) then Some m else None.

Lemma digits_go x s : digits 0 (pretty_N_go x s) = digits x s.
Proof.
  revert s. induction x as [x IH] using (well_founded_induction N.lt_wf_0); intros s.
  destruct (decide (0 < x)%N) as [Hx|].
  - rewrite pretty_N_go_step by done. rewrite IH by (apply N.div_lt; lia). cbn [digits].
    f_equal. assert (N_of_ascii (pretty_N_char (x `mod` 10)) - 48 = x `mod` 10)%N as ->.
    { assert (x `mod` 10 < 10)%N as Hd by (apply N.mod_lt; lia).
      destruct (x `mod` 10)%N as [|p] eqn:Hm; [done|].
      do 4 (destruct p as [p|p|]; try done; try lia). }
    pose proof (N.div_mod x 10). lia.
  - assert (x = 0%N) as -> by lia. by rewrite pretty_N_go_0.
Qed.

Lemma digits_pretty n : digits 0 (pretty n) = n.
Proof.
  unfold pretty, pretty_N. case_decide as Hn; [by rewrite Hn|]. by rewrite digits_go.
Qed.

Lemma Z_of_text_Some s v : Z_of_text s = Some v -> s = pretty v.
Proof. unfold Z_of_text. by repeat case_decide; intros [= <-]. Qed.

Lemma Z_of_pretty v : Z_of_text (pretty v) = Some v.
Proof.
  unfold Z_of_text. case_decide as Hn; [by apply (inj pretty) in Hn as ->|].
  destruct v as [|p|p]; [by destruct Hn| |].
  - destruct Hn. change (pretty (Z.pos p)) with (pretty (N.pos p)). by rewrite digits_pretty.
  - change (pretty (Z.neg p)) with (String "-" (pretty (N.pos p))). cbv iota.
    rewrite digits_pretty. by rewrite decide_True.
Qed.

(** ** A database that evaluates *)

Section eval.
Implicit Types (r : row) (l : list row).

#[export] Instance before_dec o : RelDecision (before o).
Proof. intros a b. destruct o as [column []]; unfold before; apply _. Defined.
#[export] Instance before_total o : Total (before o).
Proof. intros a b. destruct o as [column []]; unfold before; lia. Qed.
#[export] Instance before_trans o : Transitive (before o).
Proof. intros a b c. destruct o as [column []]; unfold before; lia. Qed.

Definition new_field (params : list string) (clock : Z) (v : sql_value) : option cell :=
  match v with Param k => Text <$> params !! k | SqlNow => Some (Time clock) end.

(** The fields as a row, none when a parameter is missing. *)
Fixpoint new_row (params : list string) (clock : Z) (columns : list (string * sql_value)) :
    option row :=
  match columns with
  | [] => Some ∅
  | (column, v) :: rest =>
      c ← new_field params clock v; r ← new_row params clock rest; Some (<[column := c]> r)
  end.

Lemma new_row_given params clock columns r :
  NoDup columns.*1 -> new_row params clock columns = Some r ->
  forall column v, (column, v) ∈ columns -> given params v (r !! column).
Proof.
  revert r. induction columns as [|[column v] rest IH]; intros r Hnd Hr; cbn in Hr.
  { by intros column v ?%elem_of_nil. }
  apply NoDup_cons in Hnd as [Hni Hnd].
  destruct (new_field params clock v) as [c|] eqn:Hc; [|done]. cbn in Hr.
  destruct (new_row params clock rest) as [r'|] eqn:Hr'; [|done]. cbn in Hr. simplify_eq.
  intros column' v' [[= -> ->]|Hin]%elem_of_cons.
  - rewrite lookup_insert_eq. destruct v; cbn in *; [done|]. exists clock. congruence.
  - rewrite lookup_insert_ne; [by eapply IH|]. intros ->. destruct Hni.
    apply list_elem_of_fmap. by exists (column', v').
Qed.

Definition cell_text (c : cell) : string :=
  match c with Text t => t | Time z => pretty z end.
Definition project (columns : list string) r : pq_row :=
  cell_text <$> filter (fun p : string * cell => p.1 ∈ columns) r.

Lemma project_projects columns r : projects columns r (project columns r).
Proof.
  intros column. unfold project. rewrite lookup_fmap. split.
  - intros Hni. rewrite map_lookup_filter_None_2; [done|]. right. by intros c _.
  - intros Hin t Hr. by rewrite (map_lookup_filter_Some_2 _ _ _ _ Hr Hin).
Qed.

Definition arrange (order : option (string * bool)) l : list row :=
  match order with None => l | Some o => merge_sort (before o) l end.

Lemma arrange_spec order l : arrange order l ≡ₚ l /\ ordered order (arrange order l).
Proof.
  destruct order as [o|]; cbn; [|done].
  split; [apply merge_sort_Permutation|apply StronglySorted_merge_sort; apply _].
Qed.

(** The number of at most [len] that prints as [text], [len] when none does. *)
Definition limit_of (text : string) (len : nat) : nat :=
  match list_find (fun k => to_string_u (N.of_nat k) = text) (seq 0 (S len)) with
  | Some (_, k) => k
  | None => len
  end.

Lemma limit_of_text n len :
  limit_of (to_string_u n) len = Nat.min (N.to_nat n) len.
Proof.
  unfold limit_of. destruct (list_find _ _) as [[i k]|] eqn:Hf.
  - apply list_find_Some in Hf as (Hi & Hk & _).
    apply lookup_seq in Hi as [-> Hlt].
    apply (inj (pretty (A:=N))) in Hk. lia.
  - apply list_find_None in Hf. rewrite Forall_forall in Hf.
    destruct (decide (N.to_nat n <= len)%nat) as [Hle|]; [|lia].
    destruct (Hf (N.to_nat n)); [apply elem_of_seq; lia|f_equal; lia].
Qed.

Definition cut (limit : option nat) (params : list string) l : list row :=
  match limit with
  | None => l
  | Some k => match params !! k with Some text => take (limit_of text (length l)) l | None => [] end
  end.

Lemma cut_limited limit params l : limited limit params l (cut limit params l).
Proof.
  destruct limit as [k|]; [|done]. cbn. intros n ->. rewrite limit_of_text.
  destruct (decide (N.to_nat n <= length l)%nat).
  - by rewrite Nat.min_l.
  - by rewrite Nat.min_r, !take_ge by lia.
Qed.

(** The statement on the tables; [clock] is what NOW() answers. *)
Definition sql_eval (st : sql_stmt) (params : list string) (clock : Z)
    (T : gmap string (list row)) : option (list pq_row * gmap string (list row)) :=
  match st with
  | Insert table columns =>
      if decide (NoDup columns.*1) then
        r ← new_row params clock columns;
        Some ([], <[table := default [] (T !! table) ++ [r]]> T)
      else None
  | Select columns table condition order limit =>
      let found := arrange order (filter (holds condition params) (default [] (T !! table))) in
      Some (project columns <$> cut limit params found, T)
  end.

Lemma sql_eval_effect st params clock T out T' :
  sql_eval st params clock T = Some (out, T') ->
  sql_effect st params (fun t => default [] (T !! t)) out (fun t => default [] (T' !! t)).
Proof.
  intros He. destruct st as [table columns|columns table condition order limit]; cbn in He.
  - destruct (decide (NoDup columns.*1)) as [Hnd|]; [|done].
    destruct (new_row params clock columns) as [r|] eqn:Hr; [|done]. cbn in He. simplify_eq. split.
    + exists r. rewrite lookup_insert_eq. split; [done|]. by eapply new_row_given.
    + intros t Ht. by rewrite lookup_insert_ne.
  - simplify_eq. split; [done|].
    destruct (arrange_spec order (filter (holds condition params) (default [] (T' !! table))))
      as [Hp Ho].
    eexists _, _. split; [exact Hp|]. split; [exact Ho|]. split; [apply cut_limited|].
    apply Forall2_fmap_r, Forall_Forall2_diag, Forall_true. intros r. apply project_projects.
Qed.
End eval.

(** ** The statements are read as what they are *)

Example parse_example :
  sql_parse "SELECT a, b FROM t WHERE a = $1 ORDER BY b DESC LIMIT $2" =
    Some (Select ["a"; "b"] "t" (Some ("a", 0)) (Some ("b", true)) (Some 1)) /\
  sql_parse "INSERT INTO t (a, b) VALUES ($1, NOW())" =
    Some (Insert "t" [("a", Param 0); ("b", SqlNow)]) /\
  sql_parse "SELECT a FROM t" = Some (Select ["a"] "t" None None None) /\
  sql_parse "DELETE FROM t" = None.
Proof. split_and!; reflexivity. Qed.
