(* ===== verification/Postgres.v ===== *)
(** * The PostgreSQL adapters

    [src/infrastructure/database] and [src/infrastructure/repositories]: the
    connection pool, and the repositories as instances of the ports of
    [Domain]. libpqxx and the database behind it are the class [PqxxLib]. The
    tables of the database are [SqlLaws]: a statement does to them what its
    text says, as [Sql.sql_parse] reads it and [Sql.sql_effect] means it; and
    under it the adapters keep the promises of the ports. *)
From stdpp Require Import sorting.
From S2P Require Import Prelude CppString Domain Reference Sql.

(** ** libpqxx *)

Class PqxxLib : Type := {
  (** The content of the database. *)
  db : Type;
  (** Opening the [i]-th connection; whether it is open. *)
  pq_connect : string -> nat -> result bool;
  (** [pqxx::work transaction(connection)], on a connection of the pool. *)
  pq_begin : Z -> db -> result unit;
  (** A statement with its parameters, on what the transaction sees. *)
  exec_params : string -> list string -> db -> result (list pq_row) * db;
  (** [commit], of what the transaction sees over what is committed. *)
  pq_commit : db -> db -> result unit * db;
  (** [field.as<std::int32_t>()] on the text of a field. *)
  int32_of_text : string -> result Z
}.

(** ** postgres_pool.cpp *)

Section pool.
Context `{PqxxLib}.

(** The connections are numbered; [pool_] is how many there are. *)
Record PostgresPool : Type := mkPool { pool_ : Z; next_ : Z }.

Fixpoint open_connections (connectionString : string) (i todo : nat) : result unit :=
  match todo with
  | O => Ok tt
  | S todo' =>
      is_open ← pq_connect connectionString i;
      if negb is_open then Throw (infrastructure_error "failed to open postgres connection")
      else open_connections connectionString (S i) todo'
  end.

Definition PostgresPool_new (connectionString : string) (poolSize : Z) : result PostgresPool :=
  if (poolSize =? 0)%Z then
    Throw (infrastructure_error "postgres pool size must be > 0")
  else
    _ ← open_connections connectionString 0 (Z.to_nat poolSize);
    Ok (mkPool poolSize 0).

(** [acquire]: the index of the connection handed out, and the pool with
    the counter one further, modulo 2^64. *)
Definition pool_acquire (p : PostgresPool) : Z * PostgresPool :=
  (next_ p `mod` pool_ p, mkPool (pool_ p) (wrap64 (next_ p + 1)))%Z.

Fixpoint pool_acquires (n : nat) (p : PostgresPool) : list Z :=
  match n with
  | O => []
  | S n' => let '(i, p') := pool_acquire p in i :: pool_acquires n' p'
  end.
End pool.

(** ** The adapters *)

Section adapters.
Context `{UuidLib, PqxxLib}.
(** The system clock, by how often it has been read. *)
Context (clock : nat -> time_point).

Record pg : Type := mkPg { pg_pool : PostgresPool; pg_db : db; pg_ticks : nat }.

Definition acquire : M pg Z := fun s =>
  let '(i, p) := pool_acquire (pg_pool s) in (Ok i, mkPg p (pg_db s) (pg_ticks s)).

Definition now : M pg time_point := fun s =>
  (Ok (clock (pg_ticks s)), mkPg (pg_pool s) (pg_db s) (S (pg_ticks s))).

(** A transaction: what it sees, and what is committed. *)
Record work : Type := mkWork { view : db; committed : db }.

Definition exec (sql : string) (params : list string) : M work (list pq_row) := fun w =>
  let '(o, v) := exec_params sql params (view w) in (o, mkWork v (committed w)).
Definition commit : M work unit := fun w =>
  let '(o, d) := pq_commit (view w) (committed w) in (o, mkWork (view w) d).

(** The scope of a [pqxx::work]: what was not committed when it ends, by a
    return or by an exception, is rolled back. *)
Definition in_work {A} (connection : Z) (body : M work A) : M pg A := fun s =>
  match pq_begin connection (pg_db s) with
  | Throw e => (Throw e, s)
  | Ok _ =>
      let '(o, w) := body (mkWork (pg_db s) (pg_db s)) in
      (o, mkPg (pg_pool s) (committed w) (pg_ticks s))
  end.

(** [row[column].as<std::string>()], which throws on a missing field. *)
Definition as_string (r : pq_row) (column : string) : result string :=
  match r !! column with Some v => Ok v | None => Throw (foreign "pqxx conversion") end.
Definition as_uuid (r : pq_row) (column : string) : result uuid :=
  text ← as_string r column; string_generator text.

(** *** postgres_message_repository.cpp *)

Definition insert_message_sql : string :=
  "INSERT INTO messages (id, chat_id, sender_id, content, created_at) VALUES ($1, $2, $3, $4, NOW())".
Definition select_messages_sql : string :=
  "SELECT id, chat_id, sender_id, content FROM messages WHERE chat_id = $1 ORDER BY created_at DESC LIMIT $2".

Definition PostgresMessageRepository_create (message : Message) : M pg bool :=
  connection ← acquire;
  in_work connection (
    _ ← exec insert_message_sql
          [uuid_to_string (Message_getId message); uuid_to_string (Message_getChatId message);
           uuid_to_string (Message_getSenderId message); Message_getContent message];
    _ ← commit;
    mret true).

(** The loop over the rows. *)
Fixpoint messages_of_rows (rows : list pq_row) : M pg (list Message) :=
  match rows with
  | [] => mret []
  | row :: rest =>
      id ← mlift (as_uuid row "id");
      chatId ← mlift (as_uuid row "chat_id");
      senderId ← mlift (as_uuid row "sender_id");
      content ← mlift (as_string row "content");
      createdAt ← now;
      messages ← messages_of_rows rest;
      mret (mkMessage id chatId senderId content createdAt :: messages)
  end.

Definition PostgresMessageRepository_getByChat (chatId : uuid) (limit : Z) : M pg (list Message) :=
  connection ← acquire;
  result ← in_work connection (
    exec select_messages_sql [uuid_to_string chatId; to_string_u (Z.to_N limit)]);
  messages_of_rows result.

(** *** postgres_user_repository.cpp *)

Definition select_user_sql : string :=
  "SELECT id, username, password_hash FROM users WHERE username = $1".
Definition insert_user_sql : string :=
  "INSERT INTO users (id, username, password_hash, created_at) VALUES ($1, $2, $3, NOW())".

Definition PostgresUserRepository_findByUsername (username : string) : M pg (option User) :=
  connection ← acquire;
  result ← in_work connection (exec select_user_sql [username]);
  match result with
  | [] => mret None
  | row :: _ =>
      id ← mlift (as_uuid row "id");
      name ← mlift (as_string row "username");
      hash ← mlift (as_string row "password_hash");
      createdAt ← now;
      mret (Some (mkUser id name hash createdAt))
  end.

Definition PostgresUserRepository_create (user : User) : M pg bool :=
  connection ← acquire;
  in_work connection (
    _ ← exec insert_user_sql
          [uuid_to_string (User_getId user); User_getUsername user; User_getPasswordHash user];
    _ ← commit;
    mret true).

(** *** postgres_chat_repository.cpp *)

Definition insert_chat_sql : string :=
  "INSERT INTO chats (id, type, created_at) VALUES ($1, $2, NOW())".
Definition select_chat_sql : string := "SELECT id, type FROM chats WHERE id = $1".

(** The two casts between [ChatType] and [std::int32_t]. *)
Definition int_of_chat_type (t : ChatType) : Z :=
  match t with direct => 0 | group => 1 | unnamed v => v end.
Definition chat_type_of_int (v : Z) : ChatType :=
  let v8 := (v `mod` 256)%Z in
  if (v8 =? 0)%Z then direct else if (v8 =? 1)%Z then group else unnamed v8.

Definition PostgresChatRepository_create (chat : Chat) : M pg bool :=
  connection ← acquire;
  in_work connection (
    _ ← exec insert_chat_sql
          [uuid_to_string (Chat_getId chat); pretty (int_of_chat_type (Chat_getType chat))];
    _ ← commit;
    mret true).

Definition PostgresChatRepository_findById (id : uuid) : M pg (option Chat) :=
  connection ← acquire;
  result ← in_work connection (exec select_chat_sql [uuid_to_string id]);
  match result with
  | [] => mret None
  | row :: _ =>
      found ← mlift (as_uuid row "id");
      text ← mlift (as_string row "type");
      type ← mlift (int32_of_text text);
      createdAt ← now;
      mret (Some (mkChat found (chat_type_of_int type) createdAt))
  end.

(** The adapters implement the ports. *)
Definition postgres_messages : MessageRepository pg := {|
  message_create := PostgresMessageRepository_create;
  getByChat := PostgresMessageRepository_getByChat
|}.
Definition postgres_users : UserRepository pg := {|
  findByUsername := PostgresUserRepository_findByUsername;
  user_create := PostgresUserRepository_create
|}.
Definition postgres_chats : ChatRepository pg := {|
  chat_create := PostgresChatRepository_create;
  findById := PostgresChatRepository_findById
|}.
End adapters.

(** ** What the statements mean *)

(** The schema: the kinds of the columns. The files under [src] do not hold
    it; it is what the statements and the decoding of their answers need. *)
Inductive kind : Type := KUuid | KText | KInteger | KTimestamp.
#[export] Instance kind_eq_dec : EqDecision kind.
Proof. solve_decision. Defined.

Definition columns_of (table : string) : gmap string kind :=
  if decide (table = "messages") then
    {[ "id" := KUuid; "chat_id" := KUuid; "sender_id" := KUuid; "content" := KText;
       "created_at" := KTimestamp ]}
  else if decide (table = "users") then
    {[ "id" := KUuid; "username" := KText; "password_hash" := KText; "created_at" := KTimestamp ]}
  else if decide (table = "chats") then
    {[ "id" := KUuid; "type" := KInteger; "created_at" := KTimestamp ]}
  else ∅.

Section schema.
Context `{UuidLib}.

(** A field of a kind: PostgreSQL prints a uuid and an integer in one way. *)
Definition of_kind (k : kind) (c : cell) : Prop :=
  match k with
  | KUuid => exists u, c = Text (uuid_to_string u)
  | KText => exists t, c = Text t
  | KInteger => exists v : Z, c = Text (pretty v)
  | KTimestamp => exists z, c = Time z
  end.

(** Every row of a table has the columns of the table. *)
Definition well_typed (T : string -> list row) : Prop :=
  forall table r column k, r ∈ T table -> columns_of table !! column = Some k ->
    exists c, r !! column = Some c /\ of_kind k c.

(** A parameter that goes into a column, or is compared with it, is written as
    the column prints it: two texts of one uuid are then the same text. *)
Definition param_fits (table column : string) (params : list string) (k : nat) : Prop :=
  exists t kd, params !! k = Some t /\ columns_of table !! column = Some kd /\ of_kind kd (Text t).
Definition params_fit (st : sql_stmt) (params : list string) : Prop :=
  match st with
  | Insert table columns =>
      forall column k, (column, Param k) ∈ columns -> param_fits table column params k
  | Select _ table condition _ _ =>
      forall column k, condition = Some (column, k) -> param_fits table column params k
  end.

(** What a row holds. *)
Definition text_of (r : row) (column : string) : option string :=
  match r !! column with Some (Text t) => Some t | _ => None end.
Definition uuid_of (r : row) (column : string) : option uuid :=
  t ← text_of r column;
  match string_generator t with Ok u => Some u | Throw _ => None end.
Definition time_of (r : row) (column : string) : option Z :=
  match r !! column with Some (Time z) => Some z | _ => None end.
Definition integer_of (r : row) (column : string) : option Z :=
  t ← text_of r column; Z_of_text t.

Definition message_of (r : row) : option ((uuid * uuid * uuid * string) * Z) :=
  id ← uuid_of r "id"; chat ← uuid_of r "chat_id"; sender ← uuid_of r "sender_id";
  content ← text_of r "content"; created_at ← time_of r "created_at";
  Some ((id, chat, sender, content), created_at).
Definition user_of (r : row) : option (uuid * string * string) :=
  id ← uuid_of r "id"; name ← text_of r "username"; hash ← text_of r "password_hash";
  Some (id, name, hash).
Definition chat_of (r : row) : option (uuid * Z) :=
  id ← uuid_of r "id"; type ← integer_of r "type"; Some (id, type).
End schema.

(** The rows the statements answer, as text by column. *)
Definition message_pq_row `{UuidLib} (r : uuid * uuid * uuid * string) : pq_row :=
  {[ "id" := uuid_to_string r.1.1.1; "chat_id" := uuid_to_string r.1.1.2;
     "sender_id" := uuid_to_string r.1.2; "content" := r.2 ]}.
Definition user_pq_row `{UuidLib} (r : uuid * string * string) : pq_row :=
  {[ "id" := uuid_to_string r.1.1; "username" := r.1.2; "password_hash" := r.2 ]}.
Definition chat_pq_row `{UuidLib} (r : uuid * Z) : pq_row :=
  {[ "id" := uuid_to_string r.1; "type" := pretty r.2 ]}.

(** A row of the table of messages with its [created_at]. *)
Definition timed_row `{UuidLib} : Type := (uuid * uuid * uuid * string) * Z.
(** The rows of one chat. *)
Definition of_chat `{UuidLib} (c : uuid) (l : list timed_row) : list timed_row :=
  filter (fun row => row_chat row.1 = c) l.
(** Later times first, rows of the same time in any order. *)
Definition newest_first `{UuidLib} (l : list timed_row) : Prop :=
  StronglySorted (fun a b => (b.2 <= a.2)%Z) l.

(** The database: its tables, in which a statement that succeeds does what its
    text says. A commit that throws may have taken effect or not. The conversion
    of an integer that was printed gives that integer, if it gives any. *)
Class SqlLaws `{UuidLib, PqxxLib} : Type := {
  tables_of : db -> string -> list row;
  tables_typed d : well_typed (tables_of d);
  sql_meaning sql st params d rows d' :
    sql_parse sql = Some st -> params_fit st params ->
    exec_params sql params d = (Ok rows, d') ->
    sql_effect st params (tables_of d) rows (tables_of d');
  int32_of_printed v z : int32_of_text (pretty v) = Ok z -> z = v;
  commit_ok v d d' : pq_commit v d = (Ok tt, d') -> d' = v;
  commit_throw v d e d' : pq_commit v d = (Throw e, d') -> d' = v \/ d' = d
}.

(** The rows of the tables as the repositories mean them. *)
Definition messages_timed `{SqlLaws} (d : db) : list timed_row :=
  omap message_of (tables_of d "messages").
Definition users_table `{SqlLaws} (d : db) : list (uuid * string * string) :=
  omap user_of (tables_of d "users").
Definition chats_table `{SqlLaws} (d : db) : list (uuid * Z) :=
  omap chat_of (tables_of d "chats").

(** The stored messages, without their times. *)
Definition messages_table `{SqlLaws} (d : db) : list (uuid * uuid * uuid * string) :=
  (messages_timed d).*1.
Definition chats_rows `{SqlLaws} (d : db) : list (uuid * ChatType) :=
  (fun r => (r.1, chat_type_of_int r.2)) <$> chats_table d.

(** ** The statements of the adapters *)

(** Reading rows, row by row. *)
Section read_rows.
Context {B : Type} (f : row -> option B).

Lemma omap_filter (P : row -> Prop) (Q : B -> Prop) `{forall r, Decision (P r), forall b, Decision (Q b)}
    (l : list row) :
  Forall (fun r => exists b, f r = Some b /\ (P r <-> Q b)) l ->
  omap f (filter P l) = filter Q (omap f l).
Proof.
  induction 1 as [|r l (b & Hb & HPQ) _ IH]; [done|].
  change (omap f (r :: l)) with (match f r with Some b => b :: omap f l | None => omap f l end).
  rewrite Hb, !filter_cons. destruct (decide (P r)), (decide (Q b)); try tauto.
  cbn. rewrite Hb. f_equal. exact IH.
Qed.

Lemma omap_sorted (R : row -> row -> Prop) (S : B -> B -> Prop) (l : list row) :
  (forall r r' b b', f r = Some b -> f r' = Some b' -> R r r' -> S b b') ->
  StronglySorted R l -> StronglySorted S (omap f l).
Proof.
  intros HRS. induction 1 as [|r l _ IH Hr]; cbn; [constructor|].
  destruct (f r) as [b|] eqn:Hb; [|exact IH]. constructor; [exact IH|].
  rewrite Forall_forall in Hr. apply Forall_forall. intros b' (r' & Hin & Hb')%list_elem_of_omap.
  by eapply HRS; [..|apply Hr].
Qed.
Lemma omap_take n (l : list row) :
  Forall (fun r => is_Some (f r)) l -> omap f (take n l) = take n (omap f l).
Proof.
  intros Hl. revert n. induction Hl as [|r l [b Hb] _ IH]; intros [|n]; [done..|]. cbn.
  rewrite Hb. cbn. f_equal. apply IH.
Qed.
End read_rows.

Section statements.
Context `{UuidLaws, PqxxLib, !SqlLaws}.
Implicit Types (r : row) (d : db).

Lemma uuid_of_text r column u :
  r !! column = Some (Text (uuid_to_string u)) -> uuid_of r column = Some u.
Proof. intros Hr. unfold uuid_of, text_of. by rewrite Hr; cbn; rewrite string_generator_to_string. Qed.
Lemma text_of_text r column t : r !! column = Some (Text t) -> text_of r column = Some t.
Proof. intros Hr. unfold text_of. by rewrite Hr. Qed.
Lemma integer_of_text r column v :
  r !! column = Some (Text (pretty v)) -> integer_of r column = Some v.
Proof. intros Hr. unfold integer_of, text_of. rewrite Hr. apply Z_of_pretty. Qed.
Lemma time_of_time r column z : r !! column = Some (Time z) -> time_of r column = Some z.
Proof. intros Hr. unfold time_of. by rewrite Hr. Qed.

(** What a stored row looks like, column by column. *)
Definition message_row_is r (m : timed_row) : Prop :=
  r !! "id" = Some (Text (uuid_to_string m.1.1.1.1)) /\
  r !! "chat_id" = Some (Text (uuid_to_string m.1.1.1.2)) /\
  r !! "sender_id" = Some (Text (uuid_to_string m.1.1.2)) /\
  r !! "content" = Some (Text m.1.2) /\ r !! "created_at" = Some (Time m.2).
Definition user_row_is r (u : uuid * string * string) : Prop :=
  r !! "id" = Some (Text (uuid_to_string u.1.1)) /\
  r !! "username" = Some (Text u.1.2) /\ r !! "password_hash" = Some (Text u.2).
Definition chat_row_is r (c : uuid * Z) : Prop :=
  r !! "id" = Some (Text (uuid_to_string c.1)) /\ r !! "type" = Some (Text (pretty c.2)).

Lemma message_of_is r m : message_row_is r m -> message_of r = Some m.
Proof.
  destruct m as [[[[]]]]. intros (?%uuid_of_text & ?%uuid_of_text & ?%uuid_of_text &
    ?%text_of_text & ?%time_of_time). unfold message_of. by simplify_option_eq.
Qed.
Lemma message_of_rank r m : message_of r = Some m -> cell_rank "created_at" r = m.2.
Proof.
  unfold message_of, time_of, cell_rank. intros Hm. simplify_option_eq.
  by repeat case_match; simplify_eq.
Qed.
Lemma user_of_is r u : user_row_is r u -> user_of r = Some u.
Proof.
  destruct u as [[]]. intros (?%uuid_of_text & ?%text_of_text & ?%text_of_text).
  unfold user_of. by simplify_option_eq.
Qed.
Lemma chat_of_is r c : chat_row_is r c -> chat_of r = Some c.
Proof.
  destruct c. intros (?%uuid_of_text & ?%integer_of_text). unfold chat_of. by simplify_option_eq.
Qed.

Lemma stored_message d r :
  r ∈ tables_of d "messages" -> exists m, message_of r = Some m /\ message_row_is r m.
Proof.
  intros Hin. pose proof (tables_typed d "messages" r) as Ht.
  destruct (Ht "id" KUuid) as (? & F1 & i & ->); [done|reflexivity|].
  destruct (Ht "chat_id" KUuid) as (? & F2 & c & ->); [done|reflexivity|].
  destruct (Ht "sender_id" KUuid) as (? & F3 & s & ->); [done|reflexivity|].
  destruct (Ht "content" KText) as (? & F4 & t & ->); [done|reflexivity|].
  destruct (Ht "created_at" KTimestamp) as (? & F5 & z & ->); [done|reflexivity|].
  assert (message_row_is r ((i, c, s, t), z)) as Hm by done.
  eexists. split; [by apply message_of_is|exact Hm].
Qed.
Lemma stored_user d r :
  r ∈ tables_of d "users" -> exists u, user_of r = Some u /\ user_row_is r u.
Proof.
  intros Hin. pose proof (tables_typed d "users" r) as Ht.
  destruct (Ht "id" KUuid) as (? & F1 & i & ->); [done|reflexivity|].
  destruct (Ht "username" KText) as (? & F2 & n & ->); [done|reflexivity|].
  destruct (Ht "password_hash" KText) as (? & F3 & h & ->); [done|reflexivity|].
  assert (user_row_is r (i, n, h)) as Hu by done.
  eexists. split; [by apply user_of_is|exact Hu].
Qed.
Lemma stored_chat d r :
  r ∈ tables_of d "chats" -> exists c, chat_of r = Some c /\ chat_row_is r c.
Proof.
  intros Hin. pose proof (tables_typed d "chats" r) as Ht.
  destruct (Ht "id" KUuid) as (? & F1 & i & ->); [done|reflexivity|].
  destruct (Ht "type" KInteger) as (? & F2 & v & ->); [done|reflexivity|].
  assert (chat_row_is r (i, v)) as Hc by done.
  eexists. split; [by apply chat_of_is|exact Hc].
Qed.

Ltac param_fits_tac :=
  match goal with
  | Hk : _ ∈ [] |- _ => by apply elem_of_nil in Hk
  | _ => eexists _, _; split; [reflexivity|]; split; [reflexivity|by eexists]
  end.

(** *** The statements, read *)

Lemma insert_message_read :
  sql_parse insert_message_sql = Some (Insert "messages"
    [("id", Param 0); ("chat_id", Param 1); ("sender_id", Param 2); ("content", Param 3);
     ("created_at", SqlNow)]).
Proof. reflexivity. Qed.
Lemma select_messages_read :
  sql_parse select_messages_sql = Some (Select ["id"; "chat_id"; "sender_id"; "content"] "messages"
    (Some ("chat_id", 0)) (Some ("created_at", true)) (Some 1)).
Proof. reflexivity. Qed.
Lemma insert_user_read :
  sql_parse insert_user_sql = Some (Insert "users"
    [("id", Param 0); ("username", Param 1); ("password_hash", Param 2); ("created_at", SqlNow)]).
Proof. reflexivity. Qed.
Lemma select_user_read :
  sql_parse select_user_sql = Some (Select ["id"; "username"; "password_hash"] "users"
    (Some ("username", 0)) None None).
Proof. reflexivity. Qed.
Lemma insert_chat_read :
  sql_parse insert_chat_sql = Some (Insert "chats"
    [("id", Param 0); ("type", Param 1); ("created_at", SqlNow)]).
Proof. reflexivity. Qed.
Lemma select_chat_read :
  sql_parse select_chat_sql = Some (Select ["id"; "type"] "chats" (Some ("id", 0)) None None).
Proof. reflexivity. Qed.

(** What they do, in terms of the rows of the repositories. *)
Lemma sql_insert_message i c s t d rows d' :
  exec_params insert_message_sql [uuid_to_string i; uuid_to_string c; uuid_to_string s; t] d =
    (Ok rows, d') ->
  exists created_at, messages_timed d' = messages_timed d ++ [((i, c, s, t), created_at)].
Proof.
  intros He. apply (sql_meaning _ _ _ _ _ _ insert_message_read) in He as [(r & HT & Hg) _].
  - destruct (Hg "created_at" SqlNow) as [z Hz]; [compute_done|]. exists z.
    unfold messages_timed. rewrite HT, omap_app. cbn.
    rewrite (message_of_is r ((i, c, s, t), z)); [done|].
    split_and!; [apply (Hg _ (Param 0))|apply (Hg _ (Param 1))|apply (Hg _ (Param 2))|
      apply (Hg _ (Param 3))|exact Hz]; compute_done.
  - intros column k Hk. rewrite !elem_of_cons in Hk.
    destruct_or! Hk; simplify_eq; param_fits_tac.
Qed.

Lemma sql_insert_user i u h d rows d' :
  exec_params insert_user_sql [uuid_to_string i; u; h] d = (Ok rows, d') ->
  users_table d' = users_table d ++ [(i, u, h)].
Proof.
  intros He. apply (sql_meaning _ _ _ _ _ _ insert_user_read) in He as [(r & HT & Hg) _].
  - unfold users_table. rewrite HT, omap_app. cbn. rewrite (user_of_is r (i, u, h)); [done|].
    split_and!; [apply (Hg _ (Param 0))|apply (Hg _ (Param 1))|apply (Hg _ (Param 2))];
      compute_done.
  - intros column k Hk. rewrite !elem_of_cons in Hk.
    destruct_or! Hk; simplify_eq; param_fits_tac.
Qed.

Lemma sql_insert_chat i v d rows d' :
  exec_params insert_chat_sql [uuid_to_string i; pretty v] d = (Ok rows, d') ->
  chats_table d' = chats_table d ++ [(i, v)].
Proof.
  intros He. apply (sql_meaning _ _ _ _ _ _ insert_chat_read) in He as [(r & HT & Hg) _].
  - unfold chats_table. rewrite HT, omap_app. cbn. rewrite (chat_of_is r (i, v)); [done|].
    split_and!; [apply (Hg _ (Param 0))|apply (Hg _ (Param 1))]; compute_done.
  - intros column k Hk. rewrite !elem_of_cons in Hk.
    destruct_or! Hk; simplify_eq; param_fits_tac.
Qed.

(** An answer with the columns asked for is the printed row. *)
Lemma projects_eq columns r out (printed : pq_row) :
  projects columns r out ->
  Forall (fun column => exists t, r !! column = Some (Text t) /\ printed !! column = Some t) columns ->
  (forall column, column ∉ columns -> printed !! column = None) ->
  out = printed.
Proof.
  intros Hout Hin Hni. apply map_eq. intros column. destruct (Hout column) as [Hn Hs].
  destruct (decide (column ∈ columns)) as [Hc|Hc].
  - rewrite Forall_forall in Hin. destruct (Hin _ Hc) as (t & Hr & ->). by apply Hs.
  - rewrite Hn, Hni; done.
Qed.

Ltac printed_tac :=
  intros; repeat first [rewrite lookup_insert_ne by set_solver|apply lookup_singleton_ne; set_solver].

Lemma message_printed r m out :
  message_row_is r m -> projects ["id"; "chat_id"; "sender_id"; "content"] r out ->
  out = message_pq_row m.1.
Proof.
  intros (? & ? & ? & ? & _) Ho. refine (projects_eq _ _ _ _ Ho _ _).
  - repeat constructor; eexists; (split; [eassumption|reflexivity]).
  - unfold message_pq_row. printed_tac.
Qed.
Lemma user_printed r u out :
  user_row_is r u -> projects ["id"; "username"; "password_hash"] r out -> out = user_pq_row u.
Proof.
  intros (? & ? & ?) Ho. refine (projects_eq _ _ _ _ Ho _ _).
  - repeat constructor; eexists; (split; [eassumption|reflexivity]).
  - unfold user_pq_row. printed_tac.
Qed.
Lemma chat_printed r c out :
  chat_row_is r c -> projects ["id"; "type"] r out -> out = chat_pq_row c.
Proof.
  intros (? & ?) Ho. refine (projects_eq _ _ _ _ Ho _ _).
  - repeat constructor; eexists; (split; [eassumption|reflexivity]).
  - unfold chat_pq_row. printed_tac.
Qed.

(** The rows a SELECT finds, read and printed. *)
Lemma rows_printed {B} (f : row -> option B) (shape : row -> B -> Prop) (print : B -> pq_row)
    columns (l : list row) out :
  (forall r b out, shape r b -> projects columns r out -> out = print b) ->
  Forall (fun r => exists b, f r = Some b /\ shape r b) l ->
  Forall2 (projects columns) l out -> out = print <$> omap f l.
Proof.
  intros Hp. revert out. induction l as [|r l IH]; intros out Hl Ho.
  - by apply Forall2_nil_inv_l in Ho.
  - apply Forall_cons in Hl as [(b & Hb & Hr) Hl].
    apply Forall2_cons_inv_l in Ho as (o & out' & Ho & Hout & ->). cbn. rewrite Hb. cbn.
    by rewrite (Hp r b o Hr Ho), (IH out').
Qed.

(** A SELECT on a table all of whose rows are read. *)
Lemma found_read {B} (f : row -> option B) (shape : row -> B -> Prop) condition params
    (Q : B -> Prop) `{forall b, Decision (Q b)} (T l : list row) :
  l ≡ₚ filter (holds condition params) T ->
  (forall r, r ∈ T -> exists b, f r = Some b /\ shape r b) ->
  (forall r b, shape r b -> holds condition params r <-> Q b) ->
  omap f l ≡ₚ filter Q (omap f T) /\ Forall (fun r => exists b, f r = Some b /\ shape r b) l.
Proof.
  intros Hl HT HQ. split.
  - rewrite Hl. rewrite (omap_filter f (holds condition params) Q); [done|].
    apply Forall_forall. intros r Hin. destruct (HT r Hin) as (b & Hb & Hs). exists b. eauto.
  - apply Forall_forall. intros r Hin. apply HT. rewrite Hl in Hin.
    by apply list_elem_of_filter in Hin as [_ ?].
Qed.

Lemma to_string_uuid_inj u u' : uuid_to_string u = uuid_to_string u' -> u = u'.
Proof.
  intros Hu. apply (f_equal string_generator) in Hu. rewrite !string_generator_to_string in Hu.
  congruence.
Qed.

Lemma sql_select_messages c n d rows d' :
  (0 <= n)%Z ->
  exec_params select_messages_sql [uuid_to_string c; to_string_u (Z.to_N n)] d = (Ok rows, d') ->
  exists l, l ≡ₚ of_chat c (messages_timed d) /\ newest_first l /\
    rows = message_pq_row <$> (take (Z.to_nat n) l).*1.
Proof.
  intros Hn He. apply (sql_meaning _ _ _ _ _ _ select_messages_read) in He
    as (_ & l & l' & Hl & Hsort & Hlimit & Hout); [|intros column k [= <- <-]; param_fits_tac].
  rewrite (Hlimit (Z.to_N n) eq_refl) in Hout. rewrite Z_N_nat in Hout.
  destruct (found_read message_of message_row_is _ _ (fun m => row_chat m.1 = c) _ _ Hl
    (stored_message d)) as [Hp Hall].
  { intros r m (_ & Hc & _). cbn. rewrite Hc. split.
    - intros (t & [= <-] & [= Ht%to_string_uuid_inj]). exact Ht.
    - intros <-. by eexists. }
  exists (omap message_of l). split; [exact Hp|]. split.
  - revert Hsort. apply omap_sorted. cbn.
    by intros r r' m m' ->%message_of_rank ->%message_of_rank.
  - rewrite (rows_printed _ _ _ _ _ _ message_printed (Forall_take _ _ _ Hall) Hout), omap_take;
      [by rewrite <- list_fmap_compose|].
    eapply Forall_impl; [exact Hall|]. intros r (m & Hm & _). by exists m.
Qed.

Lemma sql_select_user u d rows d' :
  exec_params select_user_sql [u] d = (Ok rows, d') ->
  exists l, l ≡ₚ filter (fun row => row.1.2 = u) (users_table d) /\ rows = user_pq_row <$> l.
Proof.
  intros He. apply (sql_meaning _ _ _ _ _ _ select_user_read) in He
    as (_ & l & l' & Hl & _ & Hlimit & Hout); [|intros column k [= <- <-]; param_fits_tac].
  cbn in Hlimit. subst l'.
  destruct (found_read user_of user_row_is _ _ (fun row => row.1.2 = u) _ _ Hl
    (stored_user d)) as [Hp Hall].
  { intros r m (_ & Hu & _). cbn. rewrite Hu. split; [|intros <-; by eexists].
    by intros (t & [= <-] & [= ?]). }
  exists (omap user_of l). split; [exact Hp|]. exact (rows_printed _ _ _ _ _ _ user_printed Hall Hout).
Qed.

Lemma sql_select_chat i d rows d' :
  exec_params select_chat_sql [uuid_to_string i] d = (Ok rows, d') ->
  exists l, l ≡ₚ filter (fun row => row.1 = i) (chats_table d) /\ rows = chat_pq_row <$> l.
Proof.
  intros He. apply (sql_meaning _ _ _ _ _ _ select_chat_read) in He
    as (_ & l & l' & Hl & _ & Hlimit & Hout); [|intros column k [= <- <-]; param_fits_tac].
  cbn in Hlimit. subst l'.
  destruct (found_read chat_of chat_row_is _ _ (fun row => row.1 = i) _ _ Hl
    (stored_chat d)) as [Hp Hall].
  { intros r m (Hi & _). cbn. rewrite Hi. split; [|intros <-; by eexists].
    by intros (t & [= <-] & [= ?%to_string_uuid_inj]). }
  exists (omap chat_of l). split; [exact Hp|]. exact (rows_printed _ _ _ _ _ _ chat_printed Hall Hout).
Qed.
End statements.

(** ** The adapters keep the promises of the ports *)

Section refinement.
Context `{UuidLaws, PqxxLib, !SqlLaws} (clock : nat -> time_point).
#[local] Instance messages_adapter : MessageRepository pg := postgres_messages clock.
#[local] Instance users_adapter : UserRepository pg := postgres_users clock.
#[local] Instance chats_adapter : ChatRepository pg := postgres_chats clock.
Implicit Types (s : pg) (m : Message) (u : User).

Lemma acquire_inv s o s' :
  acquire s = (o, s') -> pg_db s' = pg_db s /\ is_Ok o = true.
Proof. unfold acquire. destruct (pool_acquire (pg_pool s)). by intros [= <- <-]. Qed.

Lemma now_inv s o s' :
  now clock s = (o, s') -> pg_db s' = pg_db s.
Proof. by intros [= <- <-]. Qed.

(** The answer of a SELECT: nothing, or a row of the table first. *)
Lemma not_found {A} (P : A -> Prop) `{forall x, Decision (P x)} (l : list A) :
  [] ≡ₚ filter P l -> forall x, x ∈ l -> ~ P x.
Proof.
  intros Hl x Hin HP. assert (x ∈ filter P l) as Hin' by (by apply list_elem_of_filter).
  rewrite <- Hl in Hin'. by apply elem_of_nil in Hin'.
Qed.
Lemma first_found {A} (P : A -> Prop) `{forall x, Decision (P x)} x (rest l : list A) :
  x :: rest ≡ₚ filter P l -> P x /\ x ∈ l.
Proof.
  intros Hl. apply (proj1 (list_elem_of_filter P l x)). rewrite <- Hl. apply list_elem_of_here.
Qed.

(** A transaction that only queries. *)
Lemma in_work_exec c sql params s o s' :
  in_work c (exec sql params) s = (o, s') ->
  pg_db s' = pg_db s /\
  (forall rows, o = Ok rows -> exists d, exec_params sql params (pg_db s) = (Ok rows, d)).
Proof.
  unfold in_work, exec. destruct (pq_begin c (pg_db s)); [|by intros [= <- <-]].
  cbn. destruct (exec_params sql params (pg_db s)) as [o' v]. intros [= <- <-].
  split; [done|]. intros rows ->. by exists v.
Qed.

(** A transaction of one statement and a commit. *)
Lemma in_work_insert c sql params s o s' :
  in_work c (_ ← exec sql params; _ ← commit; mret true) s = (o, s') ->
  o <> Ok false /\
  ((pg_db s' = pg_db s /\ o <> Ok true) \/
   exists rows d, exec_params sql params (pg_db s) = (Ok rows, d) /\ pg_db s' = d).
Proof.
  unfold in_work. destruct (pq_begin c (pg_db s)); [|intros [= <- <-]; by split; [|left]].
  unfold exec, commit, mbind, M_bind. cbn.
  destruct (exec_params sql params (pg_db s)) as [[rows|e] v] eqn:He;
    [|intros [= <- <-]; by split; [|left]].
  cbn. destruct (pq_commit v (pg_db s)) as [[[]|e] d] eqn:Hc; intros [= <- <-]; cbn.
  - apply commit_ok in Hc as ->. split; [done|]. right. by exists rows, v.
  - split; [done|]. apply commit_throw in Hc as [-> | ->]; [right; by exists rows, v|by left].
Qed.

Lemma insert_run sql params s o s' :
  (connection ← acquire;
   in_work connection (_ ← exec sql params; _ ← commit; mret true)) s = (o, s') ->
  o <> Ok false /\
  ((pg_db s' = pg_db s /\ o <> Ok true) \/
   exists rows d, exec_params sql params (pg_db s) = (Ok rows, d) /\ pg_db s' = d).
Proof.
  intros [(c & t & Hacq & Hr)|(e & Hacq & _)]%M_bind_inv;
    apply acquire_inv in Hacq as [Hd Hok]; [|done].
  apply in_work_insert in Hr. by rewrite Hd in Hr.
Qed.

(** A query, and what is made of its rows. *)
Lemma select_run {A} sql params (k : list pq_row -> M pg A) s o s' :
  (connection ← acquire;
   result ← in_work connection (exec sql params);
   k result) s = (o, s') ->
  (exists rows d t, exec_params sql params (pg_db s) = (Ok rows, d) /\
     pg_db t = pg_db s /\ k rows t = (o, s')) \/
  (pg_db s' = pg_db s /\ is_Ok o = false).
Proof.
  intros [(c & t & Hacq & Hr)|(e & Hacq & _)]%M_bind_inv;
    apply acquire_inv in Hacq as [Hd Hok]; [|done].
  apply M_bind_inv in Hr as [(rows & t' & Hq & Hk)|(e & Hq & ->)];
    apply in_work_exec in Hq as [Hd' Hrows]; rewrite Hd in *; [|by right].
  destruct (Hrows rows eq_refl) as [d He]. left. by exists rows, d, t'.
Qed.

(** The decoded rows carry what the tables hold. *)
Lemma messages_of_rows_run rows s o s' :
  messages_of_rows clock rows s = (o, s') -> pg_db s' = pg_db s.
Proof.
  revert s o s'. induction rows as [|row rows IH]; intros s o s' Hr; cbn in Hr; [by minv Hr|].
  repeat minv Hr; repeat match goal with
    | Hm : mlift _ _ = _ |- _ => minv Hm
    | Hm : now _ _ = _ |- _ => apply now_inv in Hm
    | Hm : messages_of_rows _ _ _ = _ |- _ => apply IH in Hm
    end; congruence.
Qed.

Lemma message_fields (r : uuid * uuid * uuid * string) :
  as_uuid (message_pq_row r) "id" = Ok r.1.1.1 /\
  as_uuid (message_pq_row r) "chat_id" = Ok r.1.1.2 /\
  as_uuid (message_pq_row r) "sender_id" = Ok r.1.2 /\
  as_string (message_pq_row r) "content" = Ok r.2.
Proof.
  unfold as_uuid, as_string, message_pq_row. simplify_map_eq. cbn.
  by rewrite !string_generator_to_string.
Qed.

Lemma user_fields (r : uuid * string * string) :
  as_uuid (user_pq_row r) "id" = Ok r.1.1 /\
  as_string (user_pq_row r) "username" = Ok r.1.2 /\
  as_string (user_pq_row r) "password_hash" = Ok r.2.
Proof.
  unfold as_uuid, as_string, user_pq_row. simplify_map_eq. cbn.
  by rewrite !string_generator_to_string.
Qed.

Lemma messages_of_rows_decode (rs : list (uuid * uuid * uuid * string)) s :
  exists ms s', messages_of_rows clock (message_pq_row <$> rs) s = (Ok ms, s') /\
    message_row <$> ms = rs.
Proof.
  revert s. induction rs as [|r rs IH]; intros s; [by exists [], s|].
  destruct (message_fields r) as (E1 & E2 & E3 & E4).
  rewrite fmap_cons. cbn [messages_of_rows]. rewrite E1, E2, E3, E4.
  destruct (IH (mkPg (pg_pool s) (pg_db s) (S (pg_ticks s)))) as (ms & s' & Hms & Hrows).
  eexists (_ :: ms), s'. split.
  - unfold mbind, M_bind, mlift, now. cbn. unfold mbind, M_bind, mlift, now in Hms.
    rewrite Hms. reflexivity.
  - rewrite fmap_cons, Hrows. f_equal. by destruct r as [[[]]].
Qed.

(** [create] returns true or throws; true means committed. *)
Lemma create_run m s o s' :
  PostgresMessageRepository_create m s = (o, s') ->
  o <> Ok false /\
  ((messages_table (pg_db s') = messages_table (pg_db s) /\ o <> Ok true) \/
   messages_table (pg_db s') = messages_table (pg_db s) ++ [message_row m]).
Proof.
  intros [Hf [[-> ?]|(rows & d & He & ->)]]%insert_run; (split; [done|]); [by left|].
  right. apply sql_insert_message in He as [created_at He]. unfold messages_table.
  by rewrite He, fmap_app.
Qed.

(** The rows of a chat with and without their times. *)
Lemma of_chat_rows c (l : list timed_row) :
  (of_chat c l).*1 = filter (fun row => row_chat row = c) l.*1.
Proof. unfold of_chat. by rewrite list_filter_fmap. Qed.

Lemma getByChat_run c n s o s' :
  PostgresMessageRepository_getByChat clock c n s = (o, s') ->
  pg_db s' = pg_db s /\
  ((0 <= n)%Z -> forall ms, o = Ok ms ->
   exists l, l ≡ₚ of_chat c (messages_timed (pg_db s)) /\ newest_first l /\
     message_row <$> ms = (take (Z.to_nat n) l).*1).
Proof.
  unfold PostgresMessageRepository_getByChat.
  intros [(rows & d & t & He & Ht & Hr)|[Hd Ho]]%select_run; [|by split; [|intros _ ms ->]].
  pose proof (messages_of_rows_run _ _ _ _ Hr) as Hd. split; [congruence|].
  intros Hn ms ->. destruct (sql_select_messages _ _ _ _ _ Hn He) as (l & Hl & Hsort & ->).
  destruct (messages_of_rows_decode (take (Z.to_nat n) l).*1 t) as (ms' & t' & Hdec & Hrows).
  rewrite Hdec in Hr. simplify_eq. by exists l.
Qed.

(** What the statement answers is read without a failure. *)
Lemma getByChat_throws c n s e s' :
  (0 <= n)%Z -> PostgresMessageRepository_getByChat clock c n s = (Throw e, s') ->
  (exists connection, pq_begin connection (pg_db s) = Throw e) \/
  exists d, exec_params select_messages_sql [uuid_to_string c; to_string_u (Z.to_N n)] (pg_db s) =
        (Throw e, d).
Proof.
  unfold PostgresMessageRepository_getByChat. intros Hn Hr.
  apply M_bind_inv in Hr as [(i & t & Hacq & Hr)|(e' & Hacq & _)];
    apply acquire_inv in Hacq as [Hd Hok]; [|done].
  apply M_bind_inv in Hr as [(rows & t' & Hq & Hr)|(e' & Hq & [= <-])]; rewrite <- Hd.
  - apply in_work_exec in Hq as [_ Hrows]. destruct (Hrows rows eq_refl) as [d He].
    destruct (sql_select_messages _ _ _ _ _ Hn He) as (l & _ & _ & ->).
    destruct (messages_of_rows_decode (take (Z.to_nat n) l).*1 t') as (ms & t'' & Hdec & _).
    by rewrite Hdec in Hr.
  - revert Hq. unfold in_work, exec. destruct (pq_begin i (pg_db t)) as [|e'] eqn:Hb.
    + cbn. destruct (exec_params _ _ (pg_db t)) as [o v] eqn:He. intros [= -> <-]. right. eauto.
    + intros [= -> <-]. eauto.
Qed.

Lemma getByChat_port c n s ms s' :
  (0 <= n)%Z -> PostgresMessageRepository_getByChat clock c n s = (Ok ms, s') ->
  message_row <$> ms ⊆+ filter (fun row => row_chat row = c) (messages_table (pg_db s)) /\
  Z.of_nat (length ms) = Z.min n (Z.of_nat (length
    (filter (fun row => row_chat row = c) (messages_table (pg_db s))))).
Proof.
  intros Hn [_ Hr]%getByChat_run. destruct (Hr Hn ms eq_refl) as (l & Hl & _ & Hms).
  unfold messages_table. rewrite <- of_chat_rows. split.
  - rewrite Hms, <- Hl. apply fmap_submseteq, submseteq_take.
  - rewrite <- (length_fmap message_row ms), Hms, !length_fmap, length_take, <- Hl. lia.
Qed.

#[export] Program Instance postgres_messages_spec : MessageRepositorySpec (R:=pg) := {|
  stored s := messages_table (pg_db s)
|}.
Next Obligation. intros m s s' Hr. by apply create_run in Hr as [_ [[_ Hr]|Hr]]. Qed.
Next Obligation. intros m s s' Hr. by apply create_run in Hr as [Hr _]. Qed.
Next Obligation.
  intros m s e s' Hr. apply create_run in Hr as [_ [[Hr _]|Hr]]; auto.
Qed.
Next Obligation. intros c n s o s' Hr. apply getByChat_run in Hr as [Hd _]. by rewrite Hd. Qed.
Next Obligation. intros c n s ms s' Hn Hr. by eapply getByChat_port. Qed.

Lemma user_create_run u s o s' :
  PostgresUserRepository_create u s = (o, s') ->
  o <> Ok false /\
  ((users_table (pg_db s') = users_table (pg_db s) /\ o <> Ok true) \/
   users_table (pg_db s') = users_table (pg_db s) ++ [user_row u]).
Proof.
  intros [Hf [[-> ?]|(rows & d & He & ->)]]%insert_run; (split; [done|]); [by left|].
  right. by apply sql_insert_user in He.
Qed.

Lemma findByUsername_run n s o s' :
  PostgresUserRepository_findByUsername clock n s = (o, s') ->
  pg_db s' = pg_db s /\
  forall found, o = Ok found ->
    match found with
    | Some u => (user_row u ∈ users_table (pg_db s)) /\ User_getUsername u = n
    | None => forall row, row ∈ users_table (pg_db s) -> row.1.2 <> n
    end.
Proof.
  unfold PostgresUserRepository_findByUsername.
  intros [(rows & d & t & He & Ht & Hr)|[Hd Ho]]%select_run; [|by split; [|intros ? ->]].
  apply sql_select_user in He as (rs & Hf & ->). destruct rs as [|row rs].
  - unfold mret, M_ret in Hr. simplify_eq/=. split; [done|]. intros found [= <-] row Hin Hname.
    by apply (not_found _ _ Hf row).
  - apply first_found in Hf as [Hname Hin].
    rewrite fmap_cons in Hr. destruct (user_fields row) as (E1 & E2 & E3).
    rewrite E1, E2, E3 in Hr. unfold mbind, M_bind, mlift, now, mret, M_ret in Hr. simplify_eq/=.
    split; [exact Ht|]. intros found [= <-]. cbn. split; [|done]. by destruct row as [[]].
Qed.

#[export] Program Instance postgres_users_spec : UserRepositorySpec (R:=pg) := {|
  users s := users_table (pg_db s)
|}.
Next Obligation. intros u s s' Hr. by apply user_create_run in Hr as [_ [[_ Hr]|Hr]]. Qed.
Next Obligation. intros u s s' Hr. by apply user_create_run in Hr as [Hr _]. Qed.
Next Obligation.
  intros u s e s' Hr. apply user_create_run in Hr as [_ [[Hr _]|Hr]]; auto.
Qed.
Next Obligation. intros n s o s' Hr. apply findByUsername_run in Hr as [Hd _]. by rewrite Hd. Qed.
Next Obligation.
  intros n s u s' Hr. apply findByUsername_run in Hr as [_ Hr]. exact (Hr _ eq_refl).
Qed.
Next Obligation.
  intros n s s' Hr. apply findByUsername_run in Hr as [_ Hr]. exact (Hr _ eq_refl).
Qed.
Lemma chat_type_round_trip t : ChatType_valid t -> chat_type_of_int (int_of_chat_type t) = t.
Proof.
  destruct t as [| |v]; [done|done|]. cbn. intros Hv. unfold chat_type_of_int.
  rewrite Z.mod_small by lia. destruct (Z.eqb_spec v 0), (Z.eqb_spec v 1); lia || done.
Qed.

Lemma chat_create_run c s o s' :
  PostgresChatRepository_create c s = (o, s') ->
  o <> Ok false /\
  ((chats_rows (pg_db s') = chats_rows (pg_db s) /\ o <> Ok true) \/
   (ChatType_valid (Chat_getType c) ->
    chats_rows (pg_db s') = chats_rows (pg_db s) ++ [chat_row c])).
Proof.
  intros [Hf [[-> ?]|(rows & d & He & ->)]]%insert_run; (split; [done|]); [by left|].
  right. intros Hv. apply sql_insert_chat in He. unfold chats_rows. rewrite He, fmap_app. cbn.
  unfold chat_row. by rewrite chat_type_round_trip.
Qed.

Lemma chat_fields (r : uuid * Z) :
  as_uuid (chat_pq_row r) "id" = Ok r.1 /\ as_string (chat_pq_row r) "type" = Ok (pretty r.2).
Proof.
  unfold as_uuid, as_string, chat_pq_row. simplify_map_eq. cbn.
  by rewrite string_generator_to_string.
Qed.

Lemma findById_run i s o s' :
  PostgresChatRepository_findById clock i s = (o, s') ->
  pg_db s' = pg_db s /\
  forall found, o = Ok found ->
    match found with
    | Some c => (chat_row c ∈ chats_rows (pg_db s)) /\ Chat_getId c = i
    | None => forall row, row ∈ chats_rows (pg_db s) -> row.1 <> i
    end.
Proof.
  unfold PostgresChatRepository_findById.
  intros [(rows & d & t & He & Ht & Hr)|[Hd Ho]]%select_run; [|by split; [|intros ? ->]].
  apply sql_select_chat in He as (rs & Hf & ->). destruct rs as [|row rs].
  - apply M_ret_inv in Hr as [-> ->]. split; [done|]. intros found [= <-] row Hin Hid.
    unfold chats_rows in Hin. apply list_elem_of_fmap in Hin as (r & -> & Hin).
    by apply (not_found _ _ Hf r).
  - apply first_found in Hf as [Hid Hin].
    rewrite fmap_cons in Hr. destruct (chat_fields row) as (E1 & E2). rewrite E1, E2 in Hr.
    unfold mbind, M_bind, mlift, now, mret, M_ret in Hr. cbn in Hr.
    destruct (int32_of_text (pretty row.2)) as [z|e] eqn:Hz; simplify_eq/=; [|done].
    apply int32_of_printed in Hz as ->. split; [exact Ht|]. intros found [= <-]. cbn.
    split; [|done]. unfold chats_rows. apply list_elem_of_fmap. by exists row.
Qed.

#[export] Program Instance postgres_chats_spec : ChatRepositorySpec (R:=pg) := {|
  chats s := chats_rows (pg_db s)
|}.
Next Obligation. intros c s s' Hv Hr. apply chat_create_run in Hr as [_ [[_ Hr]|Hr]]; auto. done. Qed.
Next Obligation. intros c s s' Hr. by apply chat_create_run in Hr as [Hr _]. Qed.
Next Obligation.
  intros c s e s' Hv Hr. apply chat_create_run in Hr as [_ [[Hr _]|Hr]]; auto.
Qed.
Next Obligation. intros i s o s' Hr. apply findById_run in Hr as [Hd _]. by rewrite Hd. Qed.
Next Obligation.
  intros i s c s' Hr. apply findById_run in Hr as [_ Hr]. exact (Hr _ eq_refl).
Qed.
Next Obligation.
  intros i s s' Hr. apply findById_run in Hr as [_ Hr]. exact (Hr _ eq_refl).
Qed.
End refinement.

(** ** Theorems *)

Section adapter_theorems.
Context `{UuidLaws, PqxxLib, !SqlLaws} (clock : nat -> time_point).

(** C13: the message adapter is a message repository: under the meaning of
    its two statements it keeps every promise of the port, with the table of
    messages as the stored rows. True is answered after a commit only; what
    a statement or a commit throws leaves at most the whole row behind, and
    reading decodes exactly the selected rows. *)
Theorem postgres_messages_refine_port :
  exists spec : @MessageRepositorySpec _ pg (postgres_messages clock),
    forall s, @stored _ pg (postgres_messages clock) spec s = messages_table (pg_db s).
Proof. by exists (postgres_messages_spec clock). Qed.

(** C35: so is the user adapter a user repository. *)
Theorem postgres_users_refine_port :
  exists spec : @UserRepositorySpec _ pg (postgres_users clock),
    forall s, @users _ pg (postgres_users clock) spec s = users_table (pg_db s).
Proof. by exists (postgres_users_spec clock). Qed.

(** C14: and the chat adapter a chat repository, for every chat type a
    [ChatType] can hold: the cast to an integer and back loses nothing. *)
Theorem postgres_chats_refine_port :
  exists spec : @ChatRepositorySpec _ pg (postgres_chats clock),
    forall s, @chats _ pg (postgres_chats clock) spec s = chats_rows (pg_db s).
Proof. by exists (postgres_chats_spec clock). Qed.

(** C15: the history of a chat is its newest messages, newest first: what
    [getByChat] returns are messages of that chat in the order of their times,
    each as it is stored, as many as there are up to [limit]; and no message
    of the chat that is left out is newer than one that is returned. Nothing
    the statement answers fails to be read: what [getByChat] throws comes from
    the transaction or the statement. The database is assumed to do what the
    text of the statement says as [Sql.sql_parse] reads it ([SqlLaws]). *)
Theorem history_is_newest c n s o s' :
  (0 <= n)%Z -> PostgresMessageRepository_getByChat clock c n s = (o, s') ->
  match o with
  | Ok ms => exists shown rest,
      shown ++ rest ≡ₚ of_chat c (messages_timed (pg_db s)) /\
      message_row <$> ms = shown.*1 /\ newest_first shown /\
      (length ms < Z.to_nat n -> rest = []) /\ length ms <= Z.to_nat n /\
      forall a b, a ∈ shown -> b ∈ rest -> (b.2 <= a.2)%Z
  | Throw e =>
      (exists connection, pq_begin connection (pg_db s) = Throw e) \/
      exists d, exec_params select_messages_sql [uuid_to_string c; to_string_u (Z.to_N n)] (pg_db s) =
        (Throw e, d)
  end.
Proof.
  intros Hn Hr. destruct o as [ms|e]; [|by eapply getByChat_throws].
  apply getByChat_run in Hr as [_ Hr]. destruct (Hr Hn ms eq_refl) as (l & Hl & Hsort & Hms).
  exists (take (Z.to_nat n) l), (drop (Z.to_nat n) l). rewrite take_drop.
  assert (length ms = min (Z.to_nat n) (length l)) as Hlen.
  { rewrite <- (length_fmap message_row ms), Hms, length_fmap. apply length_take. }
  unfold newest_first in *. rewrite <- (take_drop (Z.to_nat n) l) in Hsort.
  apply StronglySorted_app in Hsort as (Hcross & Htake & _).
  split_and!; [done|done|done| |lia|].
  - intros Hlt. apply drop_ge. lia.
  - intros a b Ha Hb. by apply Hcross.
Qed.

Lemma rows_times rows s ms s' :
  messages_of_rows clock rows s = (Ok ms, s') ->
  Message_getCreatedAt <$> ms = clock <$> seq (pg_ticks s) (length ms).
Proof.
  revert s ms. induction rows as [|row rows IH]; intros s ms Hr; cbn in Hr.
  - by minv Hr.
  - repeat minv Hr; repeat match goal with
      | Hm : mlift _ _ = _ |- _ => minv Hm
      end.
    unfold now in *. simplify_eq. cbn. f_equal. exact (IH _ _ Hm4).
Qed.

(** The creation times of the history are not the stored ones: the
    messages [getByChat] returns carry the times of the clock while they were
    being read, one reading after the other. *)
Theorem history_times_are_reading_times c n s ms s' :
  PostgresMessageRepository_getByChat clock c n s = (Ok ms, s') ->
  Message_getCreatedAt <$> ms = clock <$> seq (pg_ticks s) (length ms).
Proof.
  unfold PostgresMessageRepository_getByChat, acquire, in_work, exec.
  unfold mbind, M_bind. destruct (pool_acquire (pg_pool s)) as [i p]. cbn.
  destruct (pq_begin i (pg_db s)); cbn; [|by intros [=]].
  destruct (exec_params _ _ _) as [[rows|e] v]; cbn; [|by intros [=]].
  intros Hr. by apply rows_times in Hr.
Qed.
End adapter_theorems.

Section pool_theorems.
Context `{PqxxLib}.

(** A pool is never built empty, and the connections it is built with
    are all open. *)
Theorem pool_built connectionString poolSize p :
  (0 <= poolSize)%Z -> PostgresPool_new connectionString poolSize = Ok p ->
  (0 < pool_ p)%Z /\ pool_ p = poolSize /\
  forall i, (i < Z.to_nat poolSize)%nat -> pq_connect connectionString i = Ok true.
Proof.
  unfold PostgresPool_new. intros Hn. destruct (Z.eqb_spec poolSize 0) as [|Hne]; [done|].
  intros Hp. apply result_bind_inv in Hp as ([] & Hopen & [= <-]). cbn.
  split; [lia|]. split; [done|].
  assert (forall todo i, open_connections connectionString i todo = Ok tt ->
    forall j, (i <= j < i + todo)%nat -> pq_connect connectionString j = Ok true) as Hall.
  { induction todo as [|todo IH]; intros i Ho j Hj; [lia|]. cbn in Ho.
    apply result_bind_inv in Ho as (b & Hb & Ho). destruct b; [|done]. cbn in Ho.
    destruct (decide (j = i)) as [->|]; [done|]. apply (IH (S i)); [done|lia]. }
  intros i Hi. apply (Hall _ 0 Hopen). lia.
Qed.

Lemma pool_acquires_lookup n p i :
  (0 <= next_ p)%Z -> (next_ p + Z.of_nat n <= two64)%Z -> (i < n)%nat ->
  pool_acquires n p !! i = Some ((next_ p + Z.of_nat i) `mod` pool_ p)%Z.
Proof.
  revert p i. induction n as [|n IH]; intros p i Hp Hn Hi; [lia|]. cbn.
  destruct i as [|i]; cbn; [by rewrite Z.add_0_r|].
  destruct n as [|n]; [lia|].
  rewrite IH; cbn [next_ pool_]; rewrite ?wrap64_small by lia; try lia.
  do 2 f_equal. lia.
Qed.

(** Connections are handed out in turn: until the counter wraps, the
    [i]-th acquisition gets connection [next + i] modulo the size of the
    pool. So the pool never hands out an index it does not have, any
    [pool_] acquisitions in a row get different connections, and the one
    after them gets the first again whether or not it is still in use. *)
Theorem pool_round_robin n p i j ci cj :
  (0 < pool_ p)%Z -> (0 <= next_ p)%Z -> (next_ p + Z.of_nat n <= two64)%Z ->
  pool_acquires n p !! i = Some ci -> pool_acquires n p !! j = Some cj ->
  (0 <= ci < pool_ p)%Z /\
  (ci = cj <-> (Z.of_nat i - Z.of_nat j) `mod` pool_ p = 0)%Z.
Proof.
  intros Hpool Hnext Hn Hi Hj.
  assert (forall k c, pool_acquires n p !! k = Some c -> (k < n)%nat) as Hlt.
  { clear. revert p. induction n as [|n IH]; intros p k c Hk; cbn in Hk.
    - by rewrite lookup_nil in Hk.
    - destruct k as [|k]; [lia|]. apply IH in Hk. lia. }
  rewrite pool_acquires_lookup in Hi by eauto.
  rewrite pool_acquires_lookup in Hj by eauto. simplify_eq.
  split; [by apply Z.mod_pos_bound|].
  rewrite <- (Z.cong_iff_0 (Z.of_nat i)). split; intros Heq.
  - apply (f_equal (fun z => (z - next_ p) `mod` pool_ p)%Z) in Heq.
    rewrite !Zminus_mod_idemp_l in Heq.
    by replace (next_ p + Z.of_nat i - next_ p)%Z with (Z.of_nat i) in Heq by lia;
      replace (next_ p + Z.of_nat j - next_ p)%Z with (Z.of_nat j) in Heq by lia.
  - by rewrite Zplus_mod, Heq, <- Zplus_mod.
Qed.
End pool_theorems.

(** ** A concrete database *)

(** Tables that read and evaluate the statements they are given. *)
Module TableDb.
#[local] Existing Instances ref_uuid ref_uuid_laws.

(** Whether a field is of its kind. *)
Definition kind_ok (k : kind) (c : cell) : bool :=
  match k, c with
  | KUuid, Text t =>
      match string_generator t with Ok u => bool_decide (uuid_to_string u = t) | Throw _ => false end
  | KText, Text _ | KTimestamp, Time _ => true
  | KInteger, Text t => bool_decide (is_Some (Z_of_text t))
  | _, _ => false
  end.
Definition row_ok (columns : gmap string kind) (r : row) : bool :=
  forallb (fun p : string * kind =>
    match r !! p.1 with Some c => kind_ok p.2 c | None => false end) (map_to_list columns).
Definition tables_ok (T : gmap string (list row)) : bool :=
  forallb (fun p : string * list row => forallb (row_ok (columns_of p.1)) p.2) (map_to_list T).

Lemma kind_ok_of_kind k c : kind_ok k c = true -> of_kind k c.
Proof.
  unfold kind_ok, of_kind. destruct k, c as [t|z]; try done; try (intros _; by eexists).
  - destruct (string_generator t) as [u|]; [|done]. intros <-%bool_decide_eq_true. by exists u.
  - intros [v Hv%Z_of_text_Some]%bool_decide_eq_true. subst t. by exists v.
Qed.

Lemma tables_ok_typed T : tables_ok T = true -> well_typed (fun t => default [] (T !! t)).
Proof.
  intros HT table r column k Hr Hc.
  destruct (T !! table) as [l|] eqn:Hl; [|by apply elem_of_nil in Hr].
  unfold tables_ok in HT. rewrite forallb_forall in HT.
  specialize (HT (table, l)). cbn in HT. rewrite forallb_forall in HT.
  assert (row_ok (columns_of table) r = true) as Hok.
  { apply HT; apply list_elem_of_In; [by apply elem_of_map_to_list|exact Hr]. }
  unfold row_ok in Hok. rewrite forallb_forall in Hok.
  specialize (Hok (column, k)). cbn in Hok.
  destruct (r !! column) as [c|].
  - exists c. split; [done|]. apply kind_ok_of_kind, Hok, list_elem_of_In.
    by apply elem_of_map_to_list.
  - discriminate Hok. apply list_elem_of_In. by apply elem_of_map_to_list.
Qed.

(** Well-typed tables. *)
Record tables : Type := mkTables { t_rows : gmap string (list row); t_ok : tables_ok t_rows = true }.

Definition no_rows : tables := mkTables ∅ eq_refl.

(** The clock of the database: how many rows there are. *)
Definition rows_count (T : gmap string (list row)) : Z :=
  Z.of_nat (sum_list (length <$> (map_to_list T).*2)).

(** A statement that cannot be read, or would break the types, fails. *)
Definition run (sql : string) (params : list string) (d : tables) : result (list pq_row) * tables :=
  match st ← sql_parse sql; sql_eval st params (rows_count (t_rows d)) (t_rows d) with
  | None => (Throw (foreign "statement"), d)
  | Some (out, T') =>
      match Bool.bool_dec (tables_ok T') true with
      | left Hok => (Ok out, mkTables T' Hok)
      | right _ => (Throw (foreign "types"), d)
      end
  end.

Definition int_of_text (text : string) : result Z :=
  match Z_of_text text with
  | Some v => if (-2147483648 <=? v)%Z && (v <=? 2147483647)%Z then Ok v
              else Throw (foreign "pqxx conversion")
  | None => Throw (foreign "pqxx conversion")
  end.

#[local] Instance table_db : PqxxLib := {|
  db := tables;
  pq_connect := fun _ _ => Ok true;
  pq_begin := fun _ _ => Ok tt;
  exec_params := run;
  pq_commit := fun v _ => (Ok tt, v);
  int32_of_text := int_of_text
|}.

#[local] Program Instance table_db_laws : SqlLaws := {|
  tables_of d := fun t => default [] (t_rows d !! t)
|}.
Next Obligation. intros d. apply tables_ok_typed, t_ok. Qed.
Next Obligation.
  intros sql st params d rows d' Hst _ Hr. cbn in Hr. unfold run in Hr. rewrite Hst in Hr. cbn in Hr.
  destruct (sql_eval _ _ _ _) as [[out T']|] eqn:He; [|done].
  destruct (Bool.bool_dec (tables_ok T') true) as [Hok|]; simplify_eq.
  by apply sql_eval_effect in He.
Qed.
Next Obligation.
  intros v z Hz. cbn in Hz. unfold int_of_text in Hz. rewrite Z_of_pretty in Hz.
  by case_match; simplify_eq.
Qed.
Next Obligation. intros v d d' Hr. cbn in Hr. by simplify_eq. Qed.
Next Obligation. intros v d e d' Hr. cbn in Hr. by simplify_eq. Qed.

Definition clock (n : nat) : time_point := Z.of_nat n.
Definition start : pg := mkPg (mkPool 2 0) no_rows 0.
Definition hello : Message := mkMessage uuid_a uuid_b uuid_a "hello" 5%Z.

Lemma postgres_messages_refine_port_witness :
  exists spec : @MessageRepositorySpec _ pg (postgres_messages clock),
    @stored _ pg (postgres_messages clock) spec (PostgresMessageRepository_create hello start).2 =
      [message_row hello].
Proof.
  destruct (postgres_messages_refine_port clock) as [spec Hspec]. exists spec.
  rewrite Hspec. reflexivity.
Defined.

Lemma postgres_users_refine_port_witness :
  exists spec : @UserRepositorySpec _ pg (postgres_users clock),
    @users _ pg (postgres_users clock) spec
      (PostgresUserRepository_create (mkUser uuid_a "ann" "h" 0%Z) start).2 = [(uuid_a, "ann", "h")].
Proof.
  destruct (postgres_users_refine_port clock) as [spec Hspec]. exists spec.
  rewrite Hspec. reflexivity.
Defined.

Definition odd_chat : Chat := mkChat uuid_b (unnamed 7) 5%Z.

Lemma postgres_chats_refine_port_witness :
  exists spec : @ChatRepositorySpec _ pg (postgres_chats clock),
    @chats _ pg (postgres_chats clock) spec (PostgresChatRepository_create odd_chat start).2 =
      [chat_row odd_chat].
Proof.
  destruct (postgres_chats_refine_port clock) as [spec Hspec]. exists spec.
  rewrite Hspec. reflexivity.
Defined.

Definition two_stored : pg :=
  (PostgresMessageRepository_create hello
     (PostgresMessageRepository_create hello start).2).2.

Lemma two_stored_history :
  match (PostgresMessageRepository_getByChat clock uuid_b 50 two_stored).1 with
  | Ok ms => Nat.eqb (length ms) 2 && Nat.eqb (pg_ticks two_stored) 0
  | Throw _ => false
  end = true.
Proof. by vm_compute. Qed.

(** The newest of three messages, one of them of another chat. *)
Definition three_stored : pg :=
  (PostgresMessageRepository_create (mkMessage uuid_a uuid_b uuid_a "later" 5%Z)
     (PostgresMessageRepository_create (mkMessage uuid_a uuid_a uuid_a "elsewhere" 5%Z)
        (PostgresMessageRepository_create hello start).2).2).2.

Lemma history_is_newest_witness :
  exists ms s', PostgresMessageRepository_getByChat clock uuid_b 1 three_stored = (Ok ms, s') /\
    (Message_getContent <$> ms) = ["later"] /\
    exists shown rest, shown ++ rest ≡ₚ of_chat uuid_b (messages_timed (pg_db three_stored)) /\
      message_row <$> ms = shown.*1 /\ newest_first shown.
Proof.
  assert (match (PostgresMessageRepository_getByChat clock uuid_b 1 three_stored).1 with
    | Ok [m] => String.eqb (Message_getContent m) "later" | _ => false end = true) as Hok
    by by vm_compute.
  destruct (PostgresMessageRepository_getByChat clock uuid_b 1 three_stored) as [o s'] eqn:Hr.
  cbn [fst] in Hok. pose proof (history_is_newest clock uuid_b 1 three_stored o s' ltac:(done) Hr) as Hn.
  destruct o as [[|m [|]]|e]; try discriminate Hok. cbv beta iota in Hn, Hok.
  destruct Hn as (shown & rest & Hp & Hrows & Hs & _).
  exists [m], s'. split; [reflexivity|]. split; [by apply String.eqb_eq in Hok as <-|].
  exists shown, rest. exact (conj Hp (conj Hrows Hs)).
Defined.

Lemma history_times_are_reading_times_witness :
  exists ms s', PostgresMessageRepository_getByChat clock uuid_b 50 two_stored = (Ok ms, s') /\
    Message_getCreatedAt <$> ms = [0%Z; 1%Z].
Proof.
  pose proof two_stored_history as Hh.
  destruct (PostgresMessageRepository_getByChat clock uuid_b 50 two_stored) as [o s'] eqn:Hr.
  cbn [fst] in Hh. destruct o as [ms|e]; [|discriminate].
  apply andb_prop in Hh as [Hl%Nat.eqb_eq Ht%Nat.eqb_eq].
  exists ms, s'. split; [reflexivity|].
  rewrite (history_times_are_reading_times clock uuid_b 50 two_stored ms s' Hr), Hl, Ht.
  reflexivity.
Defined.

Lemma pool_built_witness :
  PostgresPool_new "host=localhost" 2 = Ok (mkPool 2 0) /\ (0 < pool_ (mkPool 2 0))%Z.
Proof.
  split; [reflexivity|].
  refine (proj1 (pool_built "host=localhost" 2 (mkPool 2 0) _ _)); [done|reflexivity].
Defined.

Lemma pool_round_robin_witness :
  pool_acquires 5 (mkPool 2 0) = [0; 1; 0; 1; 0]%Z /\ (0 <= 1 < 2)%Z.
Proof.
  split; [reflexivity|].
  refine (proj1 (pool_round_robin 5 (mkPool 2 0) 3 1 1 1 _ _ _ _ _)); done.
Defined.
End TableDb.
