(* ===== verification/PoolUse.v ===== *)
(** * Threads that share the connection pool

    [src/infrastructure/database/postgres_pool.cpp] under the methods of the
    repositories: each begins with [pool_.acquire()] and uses the connection
    until it returns. [acquire] counts and looks up; it does not know which
    connections are in use. *)
From S2P Require Import Prelude Domain Reference Postgres.

(** A method of a repository in progress: its thread, the number of its
    [acquire] among all, and the connection it got. *)
Record use : Type := mkUse { user : nat; ticket : nat; held : Z }.

Record sharing : Type := mkSharing {
  shared_pool : PostgresPool;
  tickets : nat;
  live : list use
}.

Inductive pool_label : Type := Begin (t : nat) | Return (t : nat).

Definition is_using (t : nat) (s : sharing) : bool :=
  existsb (fun u => Nat.eqb (user u) t) (live s).

(** A thread is in one method at a time. *)
Definition pool_step (l : pool_label) (s : sharing) : option sharing :=
  match l with
  | Begin t =>
      if is_using t s then None
      else
        let '(c, p) := pool_acquire (shared_pool s) in
        Some (mkSharing p (S (tickets s)) (live s ++ [mkUse t (tickets s) c]))
  | Return t =>
      if is_using t s
      then Some (mkSharing (shared_pool s) (tickets s) (filter (fun u => user u <> t) (live s)))
      else None
  end.

Fixpoint pool_run (ls : list pool_label) (s : sharing) : option sharing :=
  match ls with
  | [] => Some s
  | l :: ls' => s' ← pool_step l s; pool_run ls' s'
  end.

(** Nobody uses the pool of [n] connections yet. *)
Definition unused (n : Z) : sharing := mkSharing (mkPool n 0) 0 [].

(** ** Who uses what *)

Record sharing_inv (n : Z) (s : sharing) : Prop := {
  sh_size : pool_ (shared_pool s) = n;
  sh_next : next_ (shared_pool s) = wrap64 (Z.of_nat (tickets s));
  sh_uses : forall u, u ∈ live s -> ticket u < tickets s /\
    held u = (wrap64 (Z.of_nat (ticket u)) `mod` n)%Z
}.

Lemma pool_step_inv n l s s' :
  sharing_inv n s -> pool_step l s = Some s' -> sharing_inv n s' /\ tickets s <= tickets s'.
Proof.
  intros [Hn Hnext Hu] Hs. destruct l as [t|t]; cbn in Hs; destruct (is_using t s); simplify_eq.
  - split; [|cbn; lia]. split; cbn; [done|rewrite Hnext|].
    + rewrite wrap64_succ. f_equal. lia.
    + intros u [Hin|Hin%list_elem_of_singleton]%elem_of_app.
      * destruct (Hu u Hin). split; [lia|done].
      * subst u. cbn. split; [lia|]. by rewrite Hnext.
  - split; [|cbn; lia]. split; cbn; [done..|].
    intros u [_ Hin]%list_elem_of_filter. by apply Hu.
Qed.

Lemma pool_run_inv n ls s s' :
  sharing_inv n s -> pool_run ls s = Some s' -> sharing_inv n s'.
Proof.
  revert s. induction ls as [|l ls IH]; intros s Hs Hr; cbn in Hr; [by simplify_eq|].
  destruct (pool_step l s) as [s1|] eqn:Hl; [|done]. cbn in Hr.
  eapply IH; [|done]. by eapply pool_step_inv.
Qed.

Lemma unused_inv n : sharing_inv n (unused n).
Proof. split; cbn; [done|done|]. by intros u ?%elem_of_nil. Qed.

Lemma pool_run_app ls ls' s s' :
  pool_run ls s = Some s' -> pool_run (ls ++ ls') s = pool_run ls' s'.
Proof.
  revert s. induction ls as [|l ls IH]; intros s Hr; cbn in *; [by simplify_eq|].
  destruct (pool_step l s) as [s1|]; [|done]. cbn in *. by apply IH.
Qed.

(** Thread 0 stays in its method since the first acquisition; [i] were made. *)
Definition stays (n : Z) (i : nat) : sharing :=
  mkSharing (mkPool n (wrap64 (Z.of_nat i))) i [mkUse 0 0 0].

Lemma enter n : pool_run [Begin 0] (unused n) = Some (stays n 1).
Proof.
  change (Some (mkSharing (mkPool n (wrap64 1)) 1 [mkUse 0 0 (0 `mod` n)%Z]) = Some (stays n 1)).
  by rewrite Zmod_0_l.
Qed.

(** Thread 1 comes and goes, once and [k] times. *)
Lemma visit n i : pool_run [Begin 1; Return 1] (stays n i) = Some (stays n (S i)).
Proof.
  unfold stays. cbn. rewrite wrap64_succ. do 4 f_equal. lia.
Qed.

Lemma visits k n i :
  pool_run (concat (replicate k [Begin 1; Return 1])) (stays n i) = Some (stays n (k + i)).
Proof.
  revert i. induction k as [|k IH]; intros i; [done|].
  cbn [replicate concat]. rewrite (pool_run_app _ _ _ _ (visit n i)), IH. do 2 f_equal. lia.
Qed.

(** C16: the pool keeps threads apart by counting only. While fewer than 2^64
    connections have been handed out, two methods in progress use the same
    connection exactly when the number of acquisitions between theirs is a
    multiple of the size of the pool; so nobody shares while less than one
    round lies between any two of them. But two threads are enough for a
    collision, however large the pool: one that stays in its method for a
    round of the other. *)
Theorem pool_sharing n :
  (0 < n < two64)%Z ->
  (forall ls s u v, pool_run ls (unused n) = Some s -> (Z.of_nat (tickets s) <= two64)%Z ->
     u ∈ live s -> v ∈ live s ->
     (held u = held v <->
        (Z.of_nat (ticket u) - Z.of_nat (ticket v)) `mod` n = 0)%Z) /\
  (exists ls s u v, pool_run ls (unused n) = Some s /\ tickets s = S (Z.to_nat n) /\
     live s = [u; v] /\ user u <> user v /\ held u = held v).
Proof.
  intros Hn. split.
  - intros ls s u v Hr Ht Hu Hv. destruct (pool_run_inv n _ _ _ (unused_inv n) Hr) as [_ _ Huse].
    destruct (Huse _ Hu) as [Hlu ->], (Huse _ Hv) as [Hlv ->].
    rewrite !wrap64_small by lia. apply Z.cong_iff_0.
  - set (k := Z.to_nat n - 1).
    exists ([Begin 0] ++ concat (replicate k [Begin 1; Return 1]) ++ [Begin 1]).
    exists (mkSharing (mkPool n (wrap64 (n + 1))) (S (k + 1)) [mkUse 0 0 0; mkUse 1 (k + 1) 0]),
      (mkUse 0 0 0), (mkUse 1 (k + 1) 0). split; [|split_and!; [cbn; lia|done..]].
    rewrite (pool_run_app _ _ _ _ (enter n)), (pool_run_app _ _ _ _ (visits k n 1)). cbn.
    replace (Z.of_nat (k + 1)) with n by lia.
    by rewrite wrap64_succ, (wrap64_small n), Z_mod_same_full by lia.
Qed.

Lemma pool_sharing_witness :
  exists ls s u v, pool_run ls (unused 16) = Some s /\ live s = [u; v] /\
    held u = held v.
Proof.
  destruct (proj2 (pool_sharing 16 (conj eq_refl eq_refl))) as (ls & s & u & v & Hr & _ & Hl & _ & Hc).
  exists ls, s, u, v. exact (conj Hr (conj Hl Hc)).
Defined.
