(* ===== verification/Mailbox.v ===== *)
(** * Mailboxes

    [src/core/actor/mailbox.{hpp,cpp}]. [boost::lockfree::queue] is outside
    the repository: it is the class [LockfreeQueue] with the laws
    [LockfreeQueueLaws]. The first section is the mailbox over any kind of
    element; the actor runtime instantiates it with envelopes. Module [Owned]
    is the mailbox the code has, a queue of raw pointers to heap-allocated
    envelopes, with the transfers of ownership; [Owned.mailbox_refines_queue]
    relates it to the bounded queue. *)
From S2P Require Import Prelude.

(** ** boost::lockfree::queue *)

Class LockfreeQueue : Type := {
  lfq : Type -> Type;
  (** [queue(n)]: allocates [n] nodes for the free list. *)
  lfq_new : forall {A : Type}, Z -> lfq A;
  lfq_bounded_push : forall {A : Type}, A -> lfq A -> bool * lfq A;
  lfq_pop : forall {A : Type}, lfq A -> option A * lfq A;
  (** What is queued, oldest first, and the number of nodes allocated. *)
  lfq_contents : forall {A : Type}, lfq A -> list A;
  lfq_nodes : forall {A : Type}, lfq A -> Z
}.

Class LockfreeQueueLaws `{LockfreeQueue} : Prop := {
  lfq_new_contents A n : lfq_contents (lfq_new (A:=A) n) = [];
  lfq_new_nodes A n : (0 <= n)%Z -> lfq_nodes (lfq_new (A:=A) n) = n;
  (** [bounded_push] never allocates: it fails exactly when every node is in use. *)
  lfq_push_room A (x : A) q :
    (Z.of_nat (length (lfq_contents q)) < lfq_nodes q)%Z ->
    exists q', lfq_bounded_push x q = (true, q') /\
      lfq_contents q' = lfq_contents q ++ [x] /\ lfq_nodes q' = lfq_nodes q;
  lfq_push_full A (x : A) q :
    (lfq_nodes q <= Z.of_nat (length (lfq_contents q)))%Z ->
    exists q', lfq_bounded_push x q = (false, q') /\
      lfq_contents q' = lfq_contents q /\ lfq_nodes q' = lfq_nodes q;
  (** [pop] takes the oldest element. *)
  lfq_pop_empty A (q : lfq A) :
    lfq_contents q = [] ->
    exists q', lfq_pop q = (None, q') /\ lfq_contents q' = [] /\ lfq_nodes q' = lfq_nodes q;
  lfq_pop_cons A (q : lfq A) x l :
    lfq_contents q = x :: l ->
    exists q', lfq_pop q = (Some x, q') /\ lfq_contents q' = l /\ lfq_nodes q' = lfq_nodes q
}.

(** ** The mailbox *)

Section mailbox.
Context `{LockfreeQueue} {A : Type}.

Record Mailbox : Type := mkMailbox { queue_ : lfq A; active_ : bool }.

Definition Mailbox_new (capacity : Z) : Mailbox := mkMailbox (lfq_new capacity) true.

Definition Mailbox_push (message : A) (mb : Mailbox) : bool * Mailbox :=
  if negb (active_ mb) then (false, mb)
  else
    let '(pushed, q) := lfq_bounded_push message (queue_ mb) in
    (pushed, mkMailbox q (active_ mb)).

Definition Mailbox_pop (mb : Mailbox) : option A * Mailbox :=
  let '(raw, q) := lfq_pop (queue_ mb) in (raw, mkMailbox q (active_ mb)).

Definition mailbox_contents (mb : Mailbox) : list A := lfq_contents (queue_ mb).
Definition mailbox_capacity (mb : Mailbox) : Z := lfq_nodes (queue_ mb).

(** An open mailbox has a free node. *)
Definition mailbox_room (mb : Mailbox) : bool :=
  active_ mb && (Z.of_nat (length (mailbox_contents mb)) <? mailbox_capacity mb)%Z.

(** What does not change in the life of a mailbox, and the bound. *)
Definition mailbox_same_shape (mb mb' : Mailbox) : Prop :=
  active_ mb' = active_ mb /\ mailbox_capacity mb' = mailbox_capacity mb.
Definition mailbox_bounded (mb : Mailbox) : Prop :=
  (Z.of_nat (length (mailbox_contents mb)) <= mailbox_capacity mb)%Z.
End mailbox.
Arguments Mailbox {_} _.

(** The abstract contract of a mailbox: a FIFO list with a capacity. *)
Module Fifo.
Section fifo.
Context {A : Type}.
Record t : Type := mk { items : list A; capacity : Z; open : bool }.
Definition push (x : A) (f : t) : bool * t :=
  if open f && (Z.of_nat (length (items f)) <? capacity f)%Z
  then (true, mk (items f ++ [x]) (capacity f) (open f))
  else (false, f).
Definition pop (f : t) : option A * t :=
  match items f with
  | [] => (None, f)
  | x :: l => (Some x, mk l (capacity f) (open f))
  end.
End fifo.
Arguments t _ : clear implicits.
End Fifo.

Section mailbox_facts.
Context `{LockfreeQueueLaws} {A : Type}.
Implicit Types (mb : Mailbox A) (x : A).

Definition mailbox_abs mb : Fifo.t A :=
  Fifo.mk (mailbox_contents mb) (mailbox_capacity mb) (active_ mb).

Lemma mailbox_push_abs x mb :
  let '(ok, mb') := Mailbox_push x mb in Fifo.push x (mailbox_abs mb) = (ok, mailbox_abs mb').
Proof.
  unfold Mailbox_push, Fifo.push, mailbox_abs. cbn.
  destruct (active_ mb) eqn:Ha; cbn; [|by rewrite Ha].
  destruct (Z.ltb_spec (Z.of_nat (length (mailbox_contents mb))) (mailbox_capacity mb)) as [Hr|Hr].
  - destruct (lfq_push_room A x (queue_ mb) Hr) as (q & -> & Hc & Hn).
    by unfold mailbox_contents, mailbox_capacity; cbn; rewrite Hc, Hn.
  - destruct (lfq_push_full A x (queue_ mb) Hr) as (q & -> & Hc & Hn).
    by unfold mailbox_contents, mailbox_capacity; cbn; rewrite Hc, Hn.
Qed.

Lemma mailbox_pop_abs mb :
  let '(o, mb') := Mailbox_pop mb in Fifo.pop (mailbox_abs mb) = (o, mailbox_abs mb').
Proof.
  unfold Mailbox_pop, Fifo.pop, mailbox_abs, mailbox_contents, mailbox_capacity. cbn.
  destruct (lfq_contents (queue_ mb)) as [|x l] eqn:Hc.
  - destruct (lfq_pop_empty A _ Hc) as (q & -> & Hq & Hn). cbn. by rewrite Hq, Hn.
  - destruct (lfq_pop_cons A _ _ _ Hc) as (q & -> & Hq & Hn). cbn. by rewrite Hq, Hn.
Qed.

(** The outcomes of a push and of a pop, in terms of the contents. *)
Lemma mailbox_push_cases x mb ok mb' :
  Mailbox_push x mb = (ok, mb') ->
  mailbox_same_shape mb mb' /\ ok = mailbox_room mb /\
  mailbox_contents mb' = if ok then mailbox_contents mb ++ [x] else mailbox_contents mb.
Proof.
  intros Hp. pose proof (mailbox_push_abs x mb) as Ha. rewrite Hp in Ha.
  unfold Fifo.push, mailbox_abs in Ha. cbn in Ha. unfold mailbox_room, mailbox_same_shape.
  destruct (_ && _); injection Ha as <- Hc Hn Hact; by repeat split.
Qed.

Lemma mailbox_pop_cases mb o mb' :
  Mailbox_pop mb = (o, mb') ->
  mailbox_same_shape mb mb' /\
  match o with
  | Some x => mailbox_contents mb = x :: mailbox_contents mb'
  | None => mailbox_contents mb = [] /\ mailbox_contents mb' = []
  end.
Proof.
  intros Hp. pose proof (mailbox_pop_abs mb) as Ha. rewrite Hp in Ha.
  unfold Fifo.pop, mailbox_abs in Ha. cbn in Ha. unfold mailbox_same_shape.
  destruct (mailbox_contents mb); injection Ha as <- Hc Hn Hact; repeat split; congruence.
Qed.

Lemma mailbox_new_contents n : mailbox_contents (Mailbox_new (A:=A) n) = [].
Proof. apply lfq_new_contents. Qed.

Lemma mailbox_new_capacity n : (0 <= n)%Z -> mailbox_capacity (Mailbox_new (A:=A) n) = n.
Proof. apply lfq_new_nodes. Qed.

Lemma mailbox_new_bounded n : (0 <= n)%Z -> mailbox_bounded (Mailbox_new (A:=A) n).
Proof.
  intros Hn. unfold mailbox_bounded.
  by rewrite mailbox_new_capacity, mailbox_new_contents.
Qed.

Lemma mailbox_push_bounded x mb ok mb' :
  Mailbox_push x mb = (ok, mb') -> mailbox_bounded mb -> mailbox_bounded mb'.
Proof.
  intros Hp Hb. apply mailbox_push_cases in Hp as ([_ Hn] & Hok & Hc).
  unfold mailbox_bounded in *. rewrite Hn, Hc. destruct ok; [|done].
  symmetry in Hok. apply andb_prop in Hok as [_ Hlt%Z.ltb_lt].
  rewrite length_app. cbn. lia.
Qed.

Lemma mailbox_pop_bounded mb o mb' :
  Mailbox_pop mb = (o, mb') -> mailbox_bounded mb -> mailbox_bounded mb'.
Proof.
  intros Hp Hb. apply mailbox_pop_cases in Hp as ([_ Hn] & Hc).
  unfold mailbox_bounded in *. rewrite Hn. destruct o; [rewrite Hc in Hb; cbn in Hb; lia|].
  destruct Hc as [Hc ->]. rewrite Hc in Hb. exact Hb.
Qed.
End mailbox_facts.

#[export] Hint Resolve mailbox_push_bounded mailbox_pop_bounded : svitock.

(** ** The mailbox of raw pointers *)

Module Owned.
(** The heap of envelopes allocated with [make_unique]. *)
Abbreviation heap E := (gmap positive E).

Section owned.
Context `{LockfreeQueue} {E : Type}.

Definition make_unique (e : E) (h : heap E) : positive * heap E :=
  let p := fresh (dom h) in (p, <[p := e]> h).

(** [push(std::unique_ptr message)]: on a closed mailbox the unique_ptr
    frees the envelope on return; otherwise [message.release()] gives the
    raw pointer up before [bounded_push] is tried. *)
Definition push (message : positive) (h : heap E) (mb : Mailbox positive)
    : bool * (heap E * Mailbox positive) :=
  if negb (active_ mb) then (false, (delete message h, mb))
  else
    let '(pushed, q) := lfq_bounded_push message (queue_ mb) in
    (pushed, (h, mkMailbox q (active_ mb))).

Definition pop (mb : Mailbox positive) : option positive * Mailbox positive :=
  Mailbox_pop mb.

(** The loop of the destructor, one unit of fuel per test of its condition. *)
Fixpoint drain (fuel : nat) (q : lfq positive) (h : heap E) : option (lfq positive * heap E) :=
  match fuel with
  | O => None
  | S f =>
      match lfq_pop q with
      | (Some raw, q') => drain f q' (delete raw h)
      | (None, q') => Some (q', h)
      end
  end.

Definition destroy (fuel : nat) (h : heap E) (mb : Mailbox positive)
    : option (heap E * Mailbox positive) :=
  '(q, h') ← drain fuel (queue_ mb) h; Some (h', mkMailbox q false).

(** The queue points to distinct live envelopes, the items of [f]. *)
Record refines (h : heap E) (mb : Mailbox positive) (f : Fifo.t E) : Prop := {
  refines_items : mapM (fun p => h !! p) (mailbox_contents mb) = Some (Fifo.items f);
  refines_nodup : NoDup (mailbox_contents mb);
  refines_capacity : mailbox_capacity mb = Fifo.capacity f;
  refines_open : active_ mb = Fifo.open f
}.

(** A life of the mailbox: sends, and workers that pop an envelope, handle
    it and free it. [w_refused] counts the sends that returned false. *)
Inductive event : Type := SendEvent (e : E) | HandleEvent.
Record world : Type := mkWorld {
  w_heap : heap E; w_mailbox : Mailbox positive; w_refused : nat
}.

Definition world_step (w : world) (ev : event) : world :=
  match ev with
  | SendEvent e =>
      let '(p, h) := make_unique e (w_heap w) in
      let '(ok, (h', mb)) := push p h (w_mailbox w) in
      mkWorld h' mb (if ok : bool then w_refused w else S (w_refused w))
  | HandleEvent =>
      match pop (w_mailbox w) with
      | (Some p, mb) => mkWorld (delete p (w_heap w)) mb (w_refused w)
      | (None, mb) => mkWorld (w_heap w) mb (w_refused w)
      end
  end.

(** What the calls answer: whether an envelope was taken in, and the envelope
    behind the pointer that [pop] handed out. *)
Inductive answer : Type := Sent (ok : bool) | Took (o : option E).
Definition world_answer (w : world) (ev : event) : answer :=
  match ev with
  | SendEvent e => let '(p, h) := make_unique e (w_heap w) in Sent (push p h (w_mailbox w)).1
  | HandleEvent => Took ((pop (w_mailbox w)).1 ≫= fun p => w_heap w !! p)
  end.
Fixpoint world_answers (w : world) (evs : list event) : list answer :=
  match evs with
  | [] => []
  | ev :: evs' => world_answer w ev :: world_answers (world_step w ev) evs'
  end.

(** The same of the bounded queue. *)
Definition fifo_step (f : Fifo.t E) (ev : event) : answer * Fifo.t E :=
  match ev with
  | SendEvent e => let '(ok, f') := Fifo.push e f in (Sent ok, f')
  | HandleEvent => let '(o, f') := Fifo.pop f in (Took o, f')
  end.
Fixpoint fifo_answers (f : Fifo.t E) (evs : list event) : list answer :=
  match evs with
  | [] => []
  | ev :: evs' => (fifo_step f ev).1 :: fifo_answers (fifo_step f ev).2 evs'
  end.

Definition world_init (capacity : Z) : world := mkWorld ∅ (Mailbox_new capacity) 0.
Definition world_run (capacity : Z) (evs : list event) : world :=
  foldl world_step (world_init capacity) evs.
End owned.
Arguments event _ : clear implicits.
Arguments answer _ : clear implicits.
Arguments world {_} _.

Section owned_facts.
Context `{LockfreeQueueLaws} {E : Type}.
Implicit Types (h : heap E) (mb : Mailbox positive) (p : positive) (w : world E).

Lemma push_mailbox p h mb :
  (push p h mb).1 = (Mailbox_push p mb).1 /\ (push p h mb).2.2 = (Mailbox_push p mb).2.
Proof.
  unfold push, Mailbox_push. destruct (active_ mb); cbn; [|done].
  by destruct (lfq_bounded_push p (queue_ mb)).
Qed.

Lemma push_heap p h mb :
  (push p h mb).2.1 = if active_ mb then h else delete p h.
Proof.
  unfold push. destruct (active_ mb); cbn; [|done].
  by destruct (lfq_bounded_push p (queue_ mb)).
Qed.

Lemma mapM_heap_delete h l p ys :
  p ∉ l -> mapM (fun q => h !! q) l = Some ys -> mapM (fun q => delete p h !! q) l = Some ys.
Proof.
  rewrite !mapM_Some. intros Hp Hl.
  induction Hl as [|x y l ys Hx Hl IH]; [constructor|].
  apply not_elem_of_cons in Hp as [Hne Hp]. constructor; [|by apply IH].
  by rewrite lookup_delete_ne.
Qed.

(** The pointer-level push implements the bounded FIFO: when the queue
    holds the items of [f] and [message] points to [e] and is not queued
    yet, the answer is that of [Fifo.push] and the new queue holds its new
    items. After a true answer the queue owns the envelope; after a false
    one the envelope is freed when the mailbox is closed, and allocated
    with no owner left when the mailbox is full. *)
Lemma push_refines h mb f message e :
  refines h mb f -> h !! message = Some e -> (message ∉ mailbox_contents mb) ->
  let '(ok, (h', mb')) := push message h mb in
  let '(ok_abs, f') := Fifo.push e f in
  ok = ok_abs /\ refines h' mb' f' /\
  (if ok then h' = h /\ message ∈ mailbox_contents mb'
   else (message ∉ mailbox_contents mb') /\
        h' !! message = if active_ mb then Some e else None).
Proof.
  intros [Hi Hnd Hc Ho] He Hnew.
  destruct (push_mailbox message h mb) as [Hok Hmb]. pose proof (push_heap message h mb) as Hh.
  destruct (push message h mb) as [ok [h' mb']]. cbn in Hok, Hmb, Hh.
  destruct (Mailbox_push message mb) as [ok1 mb1] eqn:Hp. cbn in Hok, Hmb. subst.
  apply mailbox_push_cases in Hp as ([Ha Hn] & Hroom & Hcont).
  assert (mailbox_room mb = Fifo.open f && (Z.of_nat (length (Fifo.items f)) <? Fifo.capacity f)%Z)
    as Hroom'.
  { unfold mailbox_room. rewrite Ho, Hc. by rewrite (length_mapM _ _ _ Hi). }
  unfold Fifo.push. rewrite <- Hroom', <- Hroom. destruct ok1.
  - symmetry in Hroom. apply andb_prop in Hroom as [Hact _]. rewrite Hact.
    repeat split; cbn; try congruence.
    + rewrite Hcont. apply mapM_Some. apply Forall2_app; [by apply mapM_Some|].
      by constructor.
    + rewrite Hcont. apply NoDup_app. split; [done|]. split; [|apply NoDup_singleton].
      intros x Hx ->%list_elem_of_singleton. done.
    + rewrite Hcont. apply elem_of_app. right. by apply list_elem_of_singleton.
  - repeat split; cbn; rewrite ?Hcont; try congruence; try done.
    + destruct (active_ mb); [done|]. by apply mapM_heap_delete.
    + destruct (active_ mb); [done|]. apply lookup_delete_eq.
Qed.

(** The pointer-level pop implements the FIFO's: it returns the pointer
    to the oldest item, the queue no longer holds it, and freeing the
    envelope after it was handled leaves the rest of the queue live. *)
Lemma pop_refines h mb f :
  refines h mb f ->
  let '(o, mb') := pop mb in
  let '(oe, f') := Fifo.pop f in
  match o, oe with
  | Some p, Some e =>
      h !! p = Some e /\ (p ∉ mailbox_contents mb') /\ refines (delete p h) mb' f'
  | None, None => refines h mb' f'
  | _, _ => False
  end.
Proof.
  intros [Hi Hnd Hc Ho]. unfold pop. destruct (Mailbox_pop mb) as [o mb'] eqn:Hp.
  apply mailbox_pop_cases in Hp as ([Ha Hn] & Hcont). unfold Fifo.pop.
  destruct o as [p|].
  - rewrite Hcont in Hi, Hnd. apply mapM_Some in Hi.
    apply NoDup_cons in Hnd as [Hp Hnd].
    inversion Hi as [|x y l ys Hx Hl E1 E2]. subst x l.
    split; [done|]. split; [done|]. split; cbn; try congruence; try done.
    by apply mapM_heap_delete; [|apply mapM_Some].
  - destruct Hcont as [Hcont Hcont']. rewrite Hcont in Hi.
    destruct f as [l c op]. change (Some [] = Some l) in Hi. injection Hi as <-. cbn in *.
    split; cbn; rewrite ?Hcont'; try congruence; done.
Qed.

(** *** A whole life as one of the queue *)

Lemma refines_fresh h mb f e p :
  refines h mb f -> h !! p = None -> (p ∉ mailbox_contents mb) /\ refines (<[p := e]> h) mb f.
Proof.
  intros [Hi Hnd Hc Ho] Hp.
  assert (p ∉ mailbox_contents mb) as Hout.
  { intros [i Hin]%list_elem_of_lookup. apply mapM_Some in Hi.
    destruct (Forall2_lookup_l _ _ _ _ _ Hi Hin) as (x & _ & Hx). congruence. }
  split; [done|]. split; [|done..]. rewrite <- Hi. apply Forall_mapM_ext, Forall_forall.
  intros q Hq. apply lookup_insert_ne. by intros ->.
Qed.

Lemma world_step_refines w f ev :
  refines (w_heap w) (w_mailbox w) f ->
  world_answer w ev = (fifo_step f ev).1 /\
  refines (w_heap (world_step w ev)) (w_mailbox (world_step w ev)) (fifo_step f ev).2.
Proof.
  intros Hr. destruct ev as [e|]; cbn [world_answer world_step fifo_step].
  - unfold make_unique. set (p := fresh (dom (w_heap w))).
    assert (w_heap w !! p = None) as Hp by (apply not_elem_of_dom, is_fresh).
    destruct (refines_fresh _ _ _ e _ Hr Hp) as [Hout Hr'].
    pose proof (push_refines _ _ _ p e Hr' (lookup_insert_eq _ _ _) Hout) as Hpush.
    destruct (push p _ (w_mailbox w)) as [ok [h' mb']], (Fifo.push e f) as [ok' f'].
    destruct Hpush as (-> & Hpush & _). done.
  - pose proof (pop_refines _ _ _ Hr) as Hpop.
    destruct (pop (w_mailbox w)) as [[p|] mb'], (Fifo.pop f) as [[e|] f']; cbn; try done.
    destruct Hpop as (-> & _ & Hpop). done.
Qed.

(** C18: the mailbox of raw pointers is a bounded queue. In every life of a
    mailbox, sends with fresh envelopes and turns of workers in any order, each
    answer is that of the bounded queue over the same calls: a send is taken
    in exactly when there is room, a worker gets the oldest envelope not yet
    handled, as it was sent, from memory nothing else has freed; and what is
    queued at the end is the content of the queue. *)
Theorem mailbox_refines_queue capacity evs :
  (0 <= capacity)%Z ->
  let empty : Fifo.t E := Fifo.mk [] capacity true in
  world_answers (world_init capacity) evs = fifo_answers empty evs /\
  refines (w_heap (world_run capacity evs)) (w_mailbox (world_run capacity evs))
    (foldl (fun f ev => (fifo_step f ev).2) empty evs).
Proof.
  intros Hcap empty.
  assert (refines (w_heap (E:=E) (world_init capacity)) (w_mailbox (E:=E) (world_init capacity)) empty) as Hr.
  { split; cbn; rewrite ?mailbox_new_contents; [done|constructor|by apply mailbox_new_capacity|done]. }
  unfold world_run. revert Hr. generalize (world_init (E:=E) capacity) as w, empty as f.
  induction evs as [|ev evs IH]; intros w f Hr; [done|]. cbn [world_answers fifo_answers foldl].
  destruct (world_step_refines _ _ ev Hr) as [-> Hr'].
  destruct (IH _ _ Hr') as [-> Hend]. done.
Qed.

(** The destructor's loop frees everything queued, and one test of the
    condition more than there are items is enough fuel. *)
Lemma drain_frees fuel (q : lfq positive) h :
  (length (lfq_contents q) < fuel)%nat ->
  exists q', drain fuel q h = Some (q', foldl (fun g p => delete p g) h (lfq_contents q)) /\
    lfq_contents q' = [].
Proof.
  revert q h. induction fuel as [|f IH]; intros q h Hf; [lia|]. cbn [drain].
  destruct (lfq_contents q) as [|p l] eqn:Hc.
  - destruct (lfq_pop_empty _ _ Hc) as (q' & -> & Hq' & _). eauto.
  - destruct (lfq_pop_cons _ _ _ _ Hc) as (q' & -> & Hq' & _).
    destruct (IH q' (delete p h)) as (q2 & Hd & Hq2); [rewrite Hq'; cbn in Hf; lia|].
    rewrite Hd.
    rewrite Hq'. eauto.
Qed.

Lemma delete_all_lookup (l : list positive) h p :
  is_Some (foldl (fun g q => delete q g) h l !! p) <-> is_Some (h !! p) /\ (p ∉ l).
Proof.
  revert h. induction l as [|q l IH]; intros h; cbn.
  - rewrite elem_of_nil. tauto.
  - rewrite IH, not_elem_of_cons. destruct (decide (q = p)) as [->|Hne].
    + rewrite lookup_delete_eq. split; [intros [[? [=]] _]|tauto].
    + rewrite lookup_delete_ne by done. intuition congruence.
Qed.

(** What is allocated is what is queued and what was refused. *)
Definition accounted w : Prop :=
  active_ (w_mailbox w) = true /\
  exists lost, NoDup (mailbox_contents (w_mailbox w) ++ lost) /\ length lost = w_refused w /\
    forall p, is_Some (w_heap w !! p) <-> p ∈ mailbox_contents (w_mailbox w) ++ lost.

Lemma heap_size_list h (l : list positive) :
  NoDup l -> (forall p, is_Some (h !! p) <-> p ∈ l) -> size h = length l.
Proof.
  intros Hnd Hl. rewrite <- size_dom. 
  replace (dom h) with (list_to_set l : gset positive); [by apply size_list_to_set|].
  apply set_eq. intros p. by rewrite elem_of_list_to_set, elem_of_dom, Hl.
Qed.

Lemma accounted_init capacity : accounted (world_init capacity).
Proof.
  split; [done|]. exists []. cbn. rewrite app_nil_r, mailbox_new_contents.
  split; [constructor|]. split; [done|]. intros p. rewrite lookup_empty, elem_of_nil.
  split; [intros [? [=]]|done].
Qed.

Lemma accounted_send w e : accounted w -> accounted (world_step w (SendEvent e)).
Proof.
  intros (Hact & lost & Hnd & Hlen & Hdom). cbn [world_step]. unfold make_unique.
  set (p := fresh (dom (w_heap w))). set (h := <[p := e]> (w_heap w)).
  assert (p ∉ mailbox_contents (w_mailbox w) ++ lost) as Hfresh.
  { intros Hin. apply Hdom, elem_of_dom in Hin. by apply is_fresh in Hin. }
  assert (forall q, is_Some (h !! q) <-> q ∈ p :: (mailbox_contents (w_mailbox w) ++ lost)) as Hh.
  { intros q. unfold h. rewrite elem_of_cons, <- Hdom.
    destruct (decide (p = q)) as [->|Hne].
    - rewrite lookup_insert_eq. split; [auto|by eexists].
    - rewrite lookup_insert_ne by done. intuition congruence. }
  destruct (push_mailbox p h (w_mailbox w)) as [Hok Hmb].
  pose proof (push_heap p h (w_mailbox w)) as Hheap. rewrite Hact in Hheap.
  destruct (push p h (w_mailbox w)) as [ok [h' mb']]. cbn in Hok, Hmb, Hheap. subst h'.
  destruct (Mailbox_push p (w_mailbox w)) as [ok1 mb1] eqn:Hp. cbn in Hok, Hmb. subst.
  apply mailbox_push_cases in Hp as ([Ha _] & _ & Hcont).
  split; [cbn; congruence|].
  exists (if ok1 then lost else p :: lost). cbn. rewrite Hcont. destruct ok1.
  - rewrite <- app_assoc. cbn. split; [|split; [done|]].
    + rewrite <- Permutation_middle. by constructor.
    + intros q. rewrite Hh. by rewrite <- Permutation_middle.
  - cbn. split; [|split; [by rewrite Hlen|]].
    + rewrite <- Permutation_middle. by constructor.
    + intros q. rewrite Hh. by rewrite <- Permutation_middle.
Qed.

Lemma accounted_handle w : accounted w -> accounted (world_step w HandleEvent).
Proof.
  intros (Hact & lost & Hnd & Hlen & Hdom). cbn [world_step]. unfold pop.
  destruct (Mailbox_pop (w_mailbox w)) as [o mb'] eqn:Hp.
  apply mailbox_pop_cases in Hp as ([Ha _] & Hcont).
  destruct o as [p|]; (split; [cbn; congruence|]); exists lost; cbn.
  - rewrite Hcont in Hnd, Hdom. cbn in Hnd, Hdom. apply NoDup_cons in Hnd as [Hp Hnd].
    split; [done|]. split; [done|]. intros q. destruct (decide (p = q)) as [->|Hne].
    + rewrite lookup_delete_eq. split; [intros [? [=]]|done].
    + rewrite lookup_delete_ne, Hdom, elem_of_cons by done. intuition congruence.
  - destruct Hcont as [Hcont Hcont']. rewrite Hcont in Hnd, Hdom. rewrite Hcont'. done.
Qed.

Lemma accounted_run capacity evs : accounted (world_run capacity evs).
Proof.
  unfold world_run. generalize (accounted_init (capacity)). generalize (world_init (E:=E) capacity).
  induction evs as [|[e|] evs IH]; intros w Hw; cbn [foldl]; [done| |];
    apply IH; [by apply accounted_send|by apply accounted_handle].
Qed.

(** C17: memory of a mailbox over its life. At any point the envelopes
    allocated are those queued and, one for one, those of the sends that
    were refused; the destructor, given one test of its loop more than
    there are queued envelopes, terminates with an empty queue and frees
    all but the refused ones, which nothing can free any more. *)
Theorem mailbox_memory capacity evs fuel :
  let w := world_run capacity evs in
  size (w_heap w) = (length (mailbox_contents (w_mailbox w)) + w_refused w)%nat /\
  ((length (mailbox_contents (w_mailbox w)) < fuel)%nat ->
   exists h mb, destroy fuel (w_heap w) (w_mailbox w) = Some (h, mb) /\
     mailbox_contents mb = [] /\ active_ mb = false /\ size h = w_refused w).
Proof.
  cbn zeta. destruct (accounted_run capacity evs) as (Hact & lost & Hnd & Hlen & Hdom).
  set (w := world_run capacity evs) in *. split.
  - by rewrite (heap_size_list _ _ Hnd Hdom), length_app, Hlen.
  - intros Hf. destruct (drain_frees fuel (queue_ (w_mailbox w)) (w_heap w) Hf)
      as (q & Hd & Hq).
    unfold destroy. rewrite Hd. cbn. eexists _, _. split; [done|].
    split; [exact Hq|]. split; [done|]. rewrite <- Hlen.
    apply NoDup_app in Hnd as (_ & Hdisj & Hnd). apply heap_size_list; [done|].
    intros p. rewrite delete_all_lookup, Hdom, elem_of_app.
    change (lfq_contents (queue_ (w_mailbox w))) with (mailbox_contents (w_mailbox w)).
    specialize (Hdisj p). tauto.
Qed.
End owned_facts.
End Owned.

(** ** A queue for concrete runs: a list with a capacity *)

Module ListQueue.
Record t (A : Type) : Type := mk { nodes : Z; elems : list A }.
Arguments mk {A} _ _.
Arguments nodes {A} _.
Arguments elems {A} _.
Definition push {A} (x : A) (q : t A) : bool * t A :=
  if (Z.of_nat (length (elems q)) <? nodes q)%Z
  then (true, mk (nodes q) (elems q ++ [x])) else (false, q).
Definition pop {A} (q : t A) : option A * t A :=
  match elems q with [] => (None, q) | x :: l => (Some x, mk (nodes q) l) end.
End ListQueue.

Definition list_queue : LockfreeQueue := {|
  lfq := ListQueue.t;
  lfq_new _ n := ListQueue.mk n [];
  lfq_bounded_push _ := ListQueue.push;
  lfq_pop _ := ListQueue.pop;
  lfq_contents _ := ListQueue.elems;
  lfq_nodes _ := ListQueue.nodes
|}.

Lemma list_queue_laws : @LockfreeQueueLaws list_queue.
Proof.
  constructor; cbn; unfold ListQueue.push, ListQueue.pop; try done.
  - intros A x q Hlt%Z.ltb_lt. rewrite Hlt. by eexists.
  - intros A x q Hle%Z.ltb_ge. rewrite Hle. by eexists.
  - intros A q Hq. rewrite Hq. by eexists.
  - intros A q x l Hq. rewrite Hq. by eexists.
Qed.

(** ** Concrete runs *)

Section runs.
Local Existing Instance list_queue.
Local Existing Instance list_queue_laws.

(** Capacity one: a send, one too many, and three turns of a worker. *)
Lemma mailbox_refines_queue_witness :
  let evs := [Owned.SendEvent 7; Owned.SendEvent 9; Owned.HandleEvent; Owned.SendEvent 9;
    Owned.HandleEvent; Owned.HandleEvent] in
  Owned.world_answers (Owned.world_init 1) evs =
    [Owned.Sent true; Owned.Sent false; Owned.Took (Some 7); Owned.Sent true;
     Owned.Took (Some 9); Owned.Took None].
Proof.
  intros evs. refine (eq_trans (proj1 (Owned.mailbox_refines_queue 1 evs _)) _); [lia|reflexivity].
Defined.

(** Capacity one: the second of two sends is refused and its envelope lost. *)
Lemma mailbox_memory_witness :
  let w := Owned.world_run 1 [Owned.SendEvent 7; Owned.SendEvent 9; Owned.HandleEvent] in
  size (Owned.w_heap w) = 1 /\
  exists h mb, Owned.destroy 1 (Owned.w_heap w) (Owned.w_mailbox w) = Some (h, mb) /\
    size h = 1.
Proof.
  destruct (Owned.mailbox_memory 1 [Owned.SendEvent 7; Owned.SendEvent 9; Owned.HandleEvent] 1)
    as [Hsize Hdestroy].
  split; [exact Hsize|].
  destruct Hdestroy as (h & mb & Hd & _ & _ & Hs); [vm_compute; lia|].
  exists h, mb. split; [exact Hd|exact Hs].
Defined.
End runs.
