(* ===== verification/Actor.v ===== *)
(** * Actor messages, actors and the actor system

    [src/core/actor]: the envelopes ([actor_message.hpp]), the effects a
    handler performs, the actors ([actor.hpp]) and the registry with its
    [send] ([actor_system.cpp]). The worker threads of the actor system are in
    [Runtime].

    A handler is a program over the effects it has on shared objects: it sends
    an envelope, looks a transport up, posts text to it, stores a message,
    draws an identifier or the time, writes a log line, or throws. Each effect
    is one constructor of [prog], so that the handlers of several threads can
    be interleaved effect by effect. *)
From S2P Require Import Prelude CppString Json Domain Mailbox.

(** ** actor_message.hpp *)

Module ActorType.
Inductive t : Type := session | chat | message | storage.

#[export] Instance t_eq_dec : EqDecision t.
Proof. solve_decision. Defined.

Definition to_nat (a : t) : nat :=
  match a with session => 0 | chat => 1 | message => 2 | storage => 3 end.
Definition of_nat (n : nat) : t :=
  match n with 0 => session | 1 => chat | 2 => message | _ => storage end.

#[export] Program Instance t_countable : Countable t := inj_countable' to_nat of_nat _.
Next Obligation. by intros []. Qed.
End ActorType.
Export (hints) ActorType.
Abbreviation ActorType := ActorType.t.

Section messages.
Context `{JsonLib}.

Record AuthEvent : Type := mkAuthEvent {
  AuthEvent_sessionId : string;
  AuthEvent_userId : string
}.

Record SendMessageEvent : Type := mkSendMessageEvent {
  SendMessageEvent_sessionId : string;
  SendMessageEvent_chatId : string;
  SendMessageEvent_senderId : string;
  SendMessageEvent_recipientId : string;
  SendMessageEvent_text : string
}.

Record TypingEvent : Type := mkTypingEvent {
  TypingEvent_chatId : string;
  TypingEvent_userId : string
}.

Record ReadEvent : Type := mkReadEvent {
  ReadEvent_chatId : string;
  ReadEvent_userId : string;
  ReadEvent_messageId : string
}.

Record StoragePersistMessage : Type := mkStoragePersistMessage {
  StoragePersistMessage_chatId : string;
  StoragePersistMessage_senderId : string;
  StoragePersistMessage_content : string
}.

Record SessionOutgoingEvent : Type := mkSessionOutgoingEvent {
  SessionOutgoingEvent_sessionId : string;
  SessionOutgoingEvent_payload : json
}.

(** The [std::variant]. *)
Inductive ActorPayload : Type :=
| Auth (e : AuthEvent)
| SendMessage (e : SendMessageEvent)
| Typing (e : TypingEvent)
| Read (e : ReadEvent)
| Persist (e : StoragePersistMessage)
| Outgoing (e : SessionOutgoingEvent).

Record ActorEnvelope : Type := mkEnvelope {
  destination : ActorType;
  payload : ActorPayload
}.
End messages.

(** ** Effects *)

Inductive level : Type := debug | info | warn | error.

(** The identity of a transport object (a [WebSocketSession]). *)
Definition transport : Type := positive.

Section effects.
Context `{JsonLib, UuidLib}.

Inductive prog (A : Type) : Type :=
| Ret (a : A)
| Raise (e : exn)
| Send (env : ActorEnvelope) (k : bool -> prog A)
| FindTransport (sessionId : string) (k : option transport -> prog A)
| LockTransport (t : transport) (k : bool -> prog A)
| TransportSend (t : transport) (text : string) (k : prog A)
| RepoCreate (m : Message) (k : bool -> prog A)
| RandomUuid (k : uuid -> prog A)
| SystemNow (k : time_point -> prog A)
| Log (l : level) (fmt : string) (args : list string) (k : prog A).

Fixpoint prog_bind_def {A B} (f : A -> prog B) (p : prog A) : prog B :=
  match p with
  | Ret _ a => f a
  | Raise _ e => Raise B e
  | Send _ env k => Send B env (fun b => prog_bind_def f (k b))
  | FindTransport _ sid k => FindTransport B sid (fun o => prog_bind_def f (k o))
  | LockTransport _ t k => LockTransport B t (fun b => prog_bind_def f (k b))
  | TransportSend _ t s k => TransportSend B t s (prog_bind_def f k)
  | RepoCreate _ m k => RepoCreate B m (fun b => prog_bind_def f (k b))
  | RandomUuid _ k => RandomUuid B (fun u => prog_bind_def f (k u))
  | SystemNow _ k => SystemNow B (fun t => prog_bind_def f (k t))
  | Log _ l fmt args k => Log B l fmt args (prog_bind_def f k)
  end.

#[export] Instance prog_ret : MRet prog := fun A a => Ret A a.
#[export] Instance prog_bind : MBind prog := fun A B => prog_bind_def.

Definition prog_lift {A} (r : result A) : prog A :=
  match r with Ok a => Ret A a | Throw e => Raise A e end.

Definition send_envelope (env : ActorEnvelope) : prog bool := Send bool env (Ret bool).
Definition find_transport (sid : string) : prog (option transport) :=
  FindTransport _ sid (Ret _).
Definition lock_transport (t : transport) : prog bool := LockTransport _ t (Ret _).
Definition transport_send (t : transport) (text : string) : prog unit :=
  TransportSend _ t text (Ret _ tt).
Definition repo_create (m : Message) : prog bool := RepoCreate _ m (Ret _).
Definition random_uuid : prog uuid := RandomUuid _ (Ret _).
Definition system_now : prog time_point := SystemNow _ (Ret _).
Definition log_line (l : level) (fmt : string) (args : list string) : prog unit :=
  Log _ l fmt args (Ret _ tt).
End effects.
Arguments Ret {_ _ _} _.
Arguments Raise {_ _ _} _.
Arguments Send {_ _ _} _ _.
Arguments FindTransport {_ _ _} _ _.
Arguments LockTransport {_ _ _} _ _.
Arguments TransportSend {_ _ _} _ _ _.
Arguments RepoCreate {_ _ _} _ _.
Arguments RandomUuid {_ _ _} _.
Arguments SystemNow {_ _ _} _.
Arguments Log {_ _ _} _ _ _ _.

(** ** actor.hpp and actor_system.cpp *)

(** The four classes derived from [Actor]. *)
Inductive ActorClass : Type := SessionActor | ChatActor | MessageActor | StorageActor.

Section actor_system.
Context `{JsonLib, LockfreeQueue}.

Record Actor : Type := mkActor {
  actor_class : ActorClass;
  mailbox : Mailbox ActorEnvelope
}.

Definition with_mailbox (a : Actor) (mb : Mailbox ActorEnvelope) : Actor :=
  mkActor (actor_class a) mb.

Definition registerActor (actorType : ActorType) (a : Actor)
    (actors_ : gmap ActorType Actor) : gmap ActorType Actor :=
  <[actorType := a]> actors_.

(** [send]: false when nobody is registered under the destination, or when
    the mailbox refuses the envelope. *)
Definition ActorSystem_send (envelope : ActorEnvelope) (actors_ : gmap ActorType Actor)
    : bool * gmap ActorType Actor :=
  match actors_ !! destination envelope with
  | None => (false, actors_)
  | Some a =>
      let '(ok, mb) := Mailbox_push envelope (mailbox a) in
      (ok, <[destination envelope := with_mailbox a mb]> actors_)
  end.

(** The pop of the worker loop, on the actor registered under a key. *)
Definition actors_pop (key : ActorType) (actors_ : gmap ActorType Actor)
    : option (option ActorEnvelope * ActorClass * gmap ActorType Actor) :=
  a ← actors_ !! key;
  let '(o, mb) := Mailbox_pop (mailbox a) in
  Some (o, actor_class a, <[key := with_mailbox a mb]> actors_).

(** What is queued for an actor. *)
Definition queued (key : ActorType) (actors_ : gmap ActorType Actor) : list ActorEnvelope :=
  match actors_ !! key with Some a => mailbox_contents (mailbox a) | None => [] end.
End actor_system.

Section actor_system_facts.
Context `{JsonLib, LockfreeQueueLaws}.
Implicit Types (acts : gmap ActorType Actor) (env : ActorEnvelope).

(** A send changes the queue of its destination only, by one envelope at
    the end when it answers true and not at all otherwise. *)
Lemma send_queued env acts ok acts' key :
  ActorSystem_send env acts = (ok, acts') ->
  queued key acts' =
    queued key acts ++ (if ok && bool_decide (key = destination env) then [env] else []).
Proof.
  unfold ActorSystem_send, queued. intros Hs.
  destruct (acts !! destination env) as [a|] eqn:Ha; simplify_eq/=; [|by rewrite app_nil_r].
  destruct (Mailbox_push env (mailbox a)) as [b mb] eqn:Hp. simplify_eq.
  apply mailbox_push_cases in Hp as (_ & _ & Hc).
  case_bool_decide as Hk; subst.
  - rewrite lookup_insert_eq, Ha. cbn. rewrite Hc. destruct ok; cbn; [done|by rewrite app_nil_r].
  - rewrite lookup_insert_ne by congruence. by rewrite andb_false_r, app_nil_r.
Qed.

Lemma pop_queued key acts o cls acts' key' :
  actors_pop key acts = Some (o, cls, acts') ->
  match o with
  | Some env =>
      queued key acts = env :: queued key acts' /\
      (key' <> key -> queued key' acts' = queued key' acts)
  | None => queued key' acts' = queued key' acts
  end.
Proof.
  unfold actors_pop, queued. intros Hp.
  destruct (acts !! key) as [a|] eqn:Ha; [|done]. cbn in Hp.
  destruct (Mailbox_pop (mailbox a)) as [o' mb] eqn:Hm. simplify_eq.
  apply mailbox_pop_cases in Hm as (_ & Hc). destruct o as [env|].
  - rewrite lookup_insert_eq. cbn. split; [exact Hc|].
    intros Hne. by rewrite lookup_insert_ne.
  - destruct (decide (key' = key)) as [->|Hne].
    + rewrite lookup_insert_eq, Ha. cbn. destruct Hc. congruence.
    + by rewrite lookup_insert_ne.
Qed.

(** A pop of a registered actor takes the envelope at the front. *)
Lemma pop_front key acts a :
  acts !! key = Some a -> exists acts',
    actors_pop key acts = Some (head (queued key acts), actor_class a, acts').
Proof.
  intros Ha. unfold actors_pop, queued. rewrite Ha. cbn.
  destruct (Mailbox_pop (mailbox a)) as [o mb] eqn:Hm.
  apply mailbox_pop_cases in Hm as [_ Hc]. eexists.
  destruct o as [env|]; [by rewrite Hc|]. destruct Hc as [Hc _]. by rewrite Hc.
Qed.

Lemma pop_empty key acts cls acts' :
  actors_pop key acts = Some (None, cls, acts') -> queued key acts = [].
Proof.
  intros Hp. destruct (acts !! key) as [a|] eqn:Ha;
    [|unfold actors_pop in Hp; by rewrite Ha in Hp].
  destruct (pop_front _ _ _ Ha) as [acts2 Hf]. rewrite Hp in Hf.
  destruct (queued key acts); [done|]. by simplify_eq.
Qed.

(** Invariants of every registered mailbox. *)
Definition actors_all (P : ActorType -> Actor -> Prop) acts : Prop :=
  map_Forall P acts.

(** Classes, capacities and open flags never change by sending or popping. *)
Definition actor_shape (a : Actor) : ActorClass * Z * bool :=
  (actor_class a, mailbox_capacity (mailbox a), active_ (mailbox a)).

Lemma send_shape env acts ok acts' :
  ActorSystem_send env acts = (ok, acts') -> actor_shape <$> acts' = actor_shape <$> acts.
Proof.
  unfold ActorSystem_send. intros Hs.
  destruct (acts !! destination env) as [a|] eqn:Ha; simplify_eq/=; [|done].
  destruct (Mailbox_push env (mailbox a)) as [b mb] eqn:Hp. simplify_eq.
  apply mailbox_push_cases in Hp as ([Hact Hn] & _).
  rewrite fmap_insert. apply insert_id. rewrite lookup_fmap, Ha. cbn.
  unfold actor_shape. cbn. by rewrite Hact, Hn.
Qed.

Lemma pop_shape key acts o cls acts' :
  actors_pop key acts = Some (o, cls, acts') ->
  actor_shape <$> acts' = actor_shape <$> acts /\
  (fun a => actor_class a) <$> acts !! key = Some cls.
Proof.
  unfold actors_pop. intros Hp.
  destruct (acts !! key) as [a|] eqn:Ha; [|done]. cbn in Hp.
  destruct (Mailbox_pop (mailbox a)) as [o' mb] eqn:Hm. simplify_eq.
  apply mailbox_pop_cases in Hm as ([Hact Hn] & _). split; [|done].
  rewrite fmap_insert. apply insert_id. rewrite lookup_fmap, Ha. cbn.
  unfold actor_shape. cbn. by rewrite Hact, Hn.
Qed.

Lemma send_bounded env acts ok acts' :
  ActorSystem_send env acts = (ok, acts') ->
  actors_all (fun _ a => mailbox_bounded (mailbox a)) acts ->
  actors_all (fun _ a => mailbox_bounded (mailbox a)) acts'.
Proof.
  unfold ActorSystem_send, actors_all. intros Hs Hb.
  destruct (acts !! destination env) as [a|] eqn:Ha; simplify_eq/=; [|done].
  destruct (Mailbox_push env (mailbox a)) as [b mb] eqn:Hp. simplify_eq.
  apply map_Forall_insert_2; [|done]. cbn. specialize (Hb _ _ Ha). eauto with svitock.
Qed.

Lemma pop_bounded key acts o cls acts' :
  actors_pop key acts = Some (o, cls, acts') ->
  actors_all (fun _ a => mailbox_bounded (mailbox a)) acts ->
  actors_all (fun _ a => mailbox_bounded (mailbox a)) acts'.
Proof.
  unfold actors_pop, actors_all. intros Hp Hb.
  destruct (acts !! key) as [a|] eqn:Ha; [|done]. cbn in Hp.
  destruct (Mailbox_pop (mailbox a)) as [o' mb] eqn:Hm. simplify_eq.
  apply map_Forall_insert_2; [|done]. cbn. specialize (Hb _ _ Ha). eauto with svitock.
Qed.
End actor_system_facts.
