(* ===== verification/Handlers.v ===== *)
(** * The four actors and the message dispatcher

    [src/infrastructure/actors] and [src/infrastructure/dispatcher]: the
    [handle] method of each actor and [MessageDispatcher::dispatch], as
    programs over the effects of [Actor], and the operations of
    [SessionActor] on its table of transports. *)
From S2P Require Import Prelude CppString Json Domain Mailbox Actor.

(** ** The transport table of SessionActor *)

(** [transports_]: weak pointers by session id. *)
Definition transport_table : Type := gmap string transport.

Definition bindTransport (sessionId : string) (t : transport) (transports_ : gmap string transport)
    : gmap string transport := <[sessionId := t]> transports_.
Definition unbindTransport (sessionId : string) (transports_ : gmap string transport)
    : gmap string transport := delete sessionId transports_.

Section handlers.
Context `{JsonLib, UuidLib}.

(** ** session_actor.cpp *)

Definition SessionActor_handle (envelope : ActorEnvelope) : prog unit :=
  match payload envelope with
  | Outgoing outgoing =>
      it ← find_transport (SessionOutgoingEvent_sessionId outgoing);
      match it with
      | None => mret tt
      | Some weak =>
          locked ← lock_transport weak;
          if locked : bool then
            text ← prog_lift (json_dump (SessionOutgoingEvent_payload outgoing));
            transport_send weak text
          else mret tt
      end
  | Auth auth =>
      log_line info "session authenticated session_id={} user_id={}"
        [AuthEvent_sessionId auth; AuthEvent_userId auth]
  | _ => mret tt
  end.

(** ** chat_actor.cpp *)

Definition persist_of (event : SendMessageEvent) : ActorEnvelope :=
  mkEnvelope ActorType.storage (Persist (mkStoragePersistMessage
    (SendMessageEvent_chatId event) (SendMessageEvent_senderId event)
    (SendMessageEvent_text event))).

Definition echo_of (event : SendMessageEvent) : ActorEnvelope :=
  mkEnvelope ActorType.session (Outgoing (mkSessionOutgoingEvent
    (SendMessageEvent_sessionId event)
    (json_object [("type", json_string "message_delivered");
                  ("chat_id", json_string (SendMessageEvent_chatId event));
                  ("payload", json_object [("text", json_string (SendMessageEvent_text event))])]))).

Definition recipient_of (event : SendMessageEvent) : ActorEnvelope :=
  mkEnvelope ActorType.session (Outgoing (mkSessionOutgoingEvent
    (SendMessageEvent_recipientId event)
    (json_object [("type", json_string "incoming_message");
                  ("chat_id", json_string (SendMessageEvent_chatId event));
                  ("payload", json_object
                     [("text", json_string (SendMessageEvent_text event));
                      ("from", json_string (SendMessageEvent_senderId event))])]))).

Definition ChatActor_handle (envelope : ActorEnvelope) : prog unit :=
  match payload envelope with
  | SendMessage event =>
      _ ← send_envelope (persist_of event);
      _ ← send_envelope (echo_of event);
      _ ← (if negb (str_empty (SendMessageEvent_recipientId event)) then
             _ ← send_envelope (recipient_of event); mret tt
           else mret tt);
      log_line debug "chat_actor routed message chat_id={}" [SendMessageEvent_chatId event]
  | _ => mret tt
  end.

(** ** message_actor.cpp *)

Definition MessageActor_handle (envelope : ActorEnvelope) : prog unit :=
  _ ← match payload envelope with
      | SendMessage event =>
          _ ← send_envelope (mkEnvelope ActorType.chat (SendMessage event)); mret tt
      | _ => mret tt
      end;
  match payload envelope with
  | Typing typing =>
      log_line debug "typing chat_id={} user_id={}"
        [TypingEvent_chatId typing; TypingEvent_userId typing]
  | _ => mret tt
  end.

(** ** storage_actor.cpp *)

Definition StorageActor_handle (envelope : ActorEnvelope) : prog unit :=
  match payload envelope with
  | Persist persist =>
      id ← random_uuid;
      chatId ← prog_lift (string_generator (StoragePersistMessage_chatId persist));
      senderId ← prog_lift (string_generator (StoragePersistMessage_senderId persist));
      now ← system_now;
      stored ← repo_create
        (mkMessage id chatId senderId (StoragePersistMessage_content persist) now);
      if negb stored then
        log_line error "storage_actor failed to persist message chat_id={}"
          [StoragePersistMessage_chatId persist]
      else mret tt
  | _ => mret tt
  end.

(** The virtual call [actor->handle(...)]. *)
Definition Actor_handle (cls : ActorClass) (envelope : ActorEnvelope) : prog unit :=
  match cls with
  | SessionActor => SessionActor_handle envelope
  | ChatActor => ChatActor_handle envelope
  | MessageActor => MessageActor_handle envelope
  | StorageActor => StorageActor_handle envelope
  end.

(** ** infrastructure/dispatcher/message_dispatcher.cpp *)

Definition MessageDispatcher_dispatch (sessionId rawMessage : string) : prog unit :=
  let j := json_parse rawMessage in
  if negb (json_is_object j) then log_line warn "invalid websocket payload" []
  else
    type ← prog_lift (json_value j "type" EmptyString);
    if String.eqb type "auth" then
      userId ← prog_lift (json_value j "user_id" EmptyString);
      _ ← send_envelope (mkEnvelope ActorType.session (Auth (mkAuthEvent sessionId userId)));
      mret tt
    else if String.eqb type "send_message" then
      pl ← prog_lift (json_value_json j "payload" json_empty_object);
      chatId ← prog_lift (json_value j "chat_id" EmptyString);
      senderId ← prog_lift (json_value j "sender_id" EmptyString);
      recipientId ← prog_lift (json_value j "recipient_session_id" EmptyString);
      text ← prog_lift (json_value pl "text" EmptyString);
      _ ← send_envelope (mkEnvelope ActorType.message
            (SendMessage (mkSendMessageEvent sessionId chatId senderId recipientId text)));
      mret tt
    else if String.eqb type "typing" then
      chatId ← prog_lift (json_value j "chat_id" EmptyString);
      userId ← prog_lift (json_value j "user_id" EmptyString);
      _ ← send_envelope (mkEnvelope ActorType.message (Typing (mkTypingEvent chatId userId)));
      mret tt
    else if String.eqb type "message_read" then
      chatId ← prog_lift (json_value j "chat_id" EmptyString);
      userId ← prog_lift (json_value j "user_id" EmptyString);
      messageId ← prog_lift (json_value j "message_id" EmptyString);
      _ ← send_envelope (mkEnvelope ActorType.message
            (Read (mkReadEvent chatId userId messageId)));
      mret tt
    else mret tt.

(** ** What a program may do, whatever its effects answer *)

(** Every envelope the program sends satisfies [P], every message it stores
    satisfies [Q] and every exception it throws itself satisfies [T]. *)
Fixpoint prog_all (P : ActorEnvelope -> Prop) (Q : Message -> Prop) (T : exn -> Prop)
    {A} (p : prog A) : Prop :=
  match p with
  | Ret _ => True
  | Raise e => T e
  | Send env k => P env /\ forall b, prog_all P Q T (k b)
  | FindTransport _ k => forall o, prog_all P Q T (k o)
  | LockTransport _ k => forall b, prog_all P Q T (k b)
  | TransportSend _ _ k => prog_all P Q T k
  | RepoCreate m k => Q m /\ forall b, prog_all P Q T (k b)
  | RandomUuid k => forall u, prog_all P Q T (k u)
  | SystemNow k => forall t, prog_all P Q T (k t)
  | Log _ _ _ k => prog_all P Q T k
  end.

Lemma prog_all_bind P Q T {A B} (p : prog A) (f : A -> prog B) :
  prog_all P Q T p -> (forall a, prog_all P Q T (f a)) -> prog_all P Q T (p ≫= f).
Proof.
  intros Hp Hf. unfold mbind, prog_bind.
  induction p; cbn in *; try (destruct Hp; split; [done|]); auto.
Qed.

Lemma prog_all_lift P Q (T : exn -> Prop) {A} (r : result A) :
  (forall e, r = Throw e -> T e) -> prog_all P Q T (prog_lift r).
Proof. destruct r; cbn; auto. Qed.

(** ** Routing *)

(** Which payloads the actor of each address is written for. *)
Definition well_routed (env : ActorEnvelope) : Prop :=
  match destination env, payload env with
  | ActorType.session, Auth _ | ActorType.session, Outgoing _ => True
  | ActorType.chat, SendMessage _ => True
  | ActorType.message, SendMessage _ | ActorType.message, Typing _
  | ActorType.message, Read _ => True
  | ActorType.storage, Persist _ => True
  | _, _ => False
  end.
End handlers.
