(* ===== verification/Dto.v ===== *)
(** * The message event DTO

    [src/presentation/dto/message_event_dto.hpp]: the conversions between
    [MessageEventDto] and JSON, and the events of the chat actor as DTOs. *)
From S2P Require Import Prelude CppString Json Domain Reference Mailbox Actor Handlers.

Section dto.
Context `{JsonLib}.

Record MessageEventDto : Type := mkDto {
  dto_type : string;
  dto_chatId : string;
  dto_payload : json
}.

Definition to_json (dto : MessageEventDto) : json :=
  json_object [("type", json_string (dto_type dto)); ("chat_id", json_string (dto_chatId dto));
               ("payload", dto_payload dto)].

Definition set_type (v : string) : M MessageEventDto unit := fun d =>
  (Ok tt, mkDto v (dto_chatId d) (dto_payload d)).
Definition set_chatId (v : string) : M MessageEventDto unit := fun d =>
  (Ok tt, mkDto (dto_type d) v (dto_payload d)).
Definition set_payload (v : json) : M MessageEventDto unit := fun d =>
  (Ok tt, mkDto (dto_type d) (dto_chatId d) v).

(** Each field is written as it is read: what was read before an exception
    stays in the object. *)
Definition from_json (j : json) : M MessageEventDto unit :=
  type ← mlift (t ← json_at j "type"; json_get_string t);
  _ ← set_type type;
  chatId ← mlift (c ← json_at j "chat_id"; json_get_string c);
  _ ← set_chatId chatId;
  payload ← mlift (json_at j "payload");
  set_payload payload.
End dto.

Section dto_facts.
Context `{JsonLaws}.

Lemma from_json_object kvs type chat pl (old : MessageEventDto) :
  assoc_first "type" kvs = Some (json_string type) ->
  assoc_first "chat_id" kvs = Some (json_string chat) ->
  assoc_first "payload" kvs = Some pl ->
  from_json (json_object kvs) old = (Ok tt, mkDto type chat pl).
Proof.
  intros Ht Hc Hp. unfold from_json.
  assert (forall k v, assoc_first k kvs = Some v -> json_at (json_object kvs) k = Ok v) as Hat.
  { intros k v Hk. apply json_at_found; [apply json_object_is_object|by rewrite json_object_find]. }
  rewrite (Hat _ _ Ht), (Hat _ _ Hc), (Hat _ _ Hp).
  cbn [mbind result_bind].
  by rewrite !(json_get_string_spec _ _ (json_as_string_string _)).
Qed.

(** A DTO survives the trip to JSON and back, whatever the object read
    into held before, and the events the chat actor sends to websockets are
    DTOs: the confirmation and the copy of a message read back as events of
    their type, for the chat of the message, with an object as payload. *)
Theorem dto_round_trip (dto old : MessageEventDto) e :
  from_json (to_json dto) old = (Ok tt, dto) /\
  (forall o, payload (echo_of e) = Outgoing o -> exists pl,
     from_json (SessionOutgoingEvent_payload o) old =
       (Ok tt, mkDto "message_delivered" (SendMessageEvent_chatId e) pl) /\
     json_value pl "text" EmptyString = Ok (SendMessageEvent_text e)) /\
  (forall o, payload (recipient_of e) = Outgoing o -> exists pl,
     from_json (SessionOutgoingEvent_payload o) old =
       (Ok tt, mkDto "incoming_message" (SendMessageEvent_chatId e) pl) /\
     json_value pl "text" EmptyString = Ok (SendMessageEvent_text e)).
Proof.
  split_and!.
  - destruct dto. by apply from_json_object.
  - intros o [= <-]. eexists. split; [by apply from_json_object|].
    by apply json_value_object_string.
  - intros o [= <-]. eexists. split; [by apply from_json_object|].
    by apply json_value_object_string.
Qed.
End dto_facts.

Module DtoRun.
#[local] Existing Instances ref_json ref_json_laws.

Lemma dto_round_trip_witness :
  let dto := mkDto "typing" "c" json_empty_object in
  from_json (to_json dto) (mkDto EmptyString EmptyString json_null) = (Ok tt, dto).
Proof.
  intros dto.
  exact (proj1 (dto_round_trip dto (mkDto EmptyString EmptyString json_null)
    (mkSendMessageEvent "1" "c" "s" "r" "t"))).
Defined.
End DtoRun.
