(* ===== verification/Runtime.v ===== *)
(** * The running actor system

    The actor system of [src/core/actor/actor_system.cpp] with its worker
    threads, the actors of [src/infrastructure/actors] behind their mailboxes
    and the network threads that call [MessageDispatcher::dispatch], as one
    state and one step function. A step is one effect of one thread, or one
    turn of a worker loop, or one call from outside (start, stop, a transport
    bound, unbound or destroyed); a run is a list of labels, so every
    interleaving of the threads is a run. *)
From S2P Require Import Prelude CppString Json Domain Mailbox Actor Handlers.

(** The order in which a range-for visits [std::unordered_map]: some order of
    the keys, the same as long as the keys are the same. *)
Class ActorOrder : Type := { iteration : gset ActorType -> list ActorType }.
Class ActorOrderLaws `{ActorOrder} : Prop := {
  iteration_perm D : iteration D ≡ₚ elements D
}.

Section runtime.
Context `{JsonLib, UuidLib, LockfreeQueue, ActorOrder} {R : Type} `{!MessageRepository R}.

(** ** State *)

(** What the threads share. [live] holds the transports whose session object
    exists; [outbox] is the text posted to transports, oldest first. The
    last two fields are history variables: the envelopes whose [send] was
    answered false and the messages the repository answered false for (the
    code drops the answers). *)
Record shared : Type := mkShared {
  actors_ : gmap ActorType Actor;
  transports_ : gmap string transport;
  live : gset transport;
  outbox : list (transport * string);
  repository : R;
  logged : list (level * string * list string);
  refused : list ActorEnvelope;
  unstored : list Message
}.

(** Where a worker thread is in [workerLoop]: at the loop condition, in the
    range-for with the keys left to visit, in a handler, in [sleep_for], or
    out of the loop. *)
Inductive worker : Type :=
| WTop
| WScan (rest : list ActorType) (processed : bool)
| WRun (cls : ActorClass) (p : prog unit) (rest : list ActorType)
| WSleep
| WStopped.

(** [net] are the calls of [dispatch] in progress on network threads.
    [accepted] is a history variable: the events handed to the message
    actor, in the order of the [send] calls. [terminated] is the exception
    that left a thread function, after which the process is gone. *)
Record world : Type := mkWorld {
  sh : shared;
  running_ : bool;
  workers_ : list worker;
  net : list (prog unit);
  accepted : list SendMessageEvent;
  terminated : option exn
}.

Definition set_actors (s : shared) acts : shared :=
  mkShared acts (transports_ s) (live s) (outbox s) (repository s) (logged s)
    (refused s) (unstored s).
Definition set_transports (s : shared) tr : shared :=
  mkShared (actors_ s) tr (live s) (outbox s) (repository s) (logged s)
    (refused s) (unstored s).
Definition set_live (s : shared) lv : shared :=
  mkShared (actors_ s) (transports_ s) lv (outbox s) (repository s) (logged s)
    (refused s) (unstored s).
Definition set_repository (s : shared) r : shared :=
  mkShared (actors_ s) (transports_ s) (live s) (outbox s) r (logged s)
    (refused s) (unstored s).
Definition post_text (s : shared) t text : shared :=
  mkShared (actors_ s) (transports_ s) (live s) (outbox s ++ [(t, text)]) (repository s)
    (logged s) (refused s) (unstored s).
Definition log_entry (s : shared) l fmt args : shared :=
  mkShared (actors_ s) (transports_ s) (live s) (outbox s) (repository s)
    (logged s ++ [(l, fmt, args)]) (refused s) (unstored s).
Definition note_refused (s : shared) env : shared :=
  mkShared (actors_ s) (transports_ s) (live s) (outbox s) (repository s) (logged s)
    (refused s ++ [env]) (unstored s).
Definition note_unstored (s : shared) m : shared :=
  mkShared (actors_ s) (transports_ s) (live s) (outbox s) (repository s) (logged s)
    (refused s) (unstored s ++ [m]).

Definition set_shared (w : world) s : world :=
  mkWorld s (running_ w) (workers_ w) (net w) (accepted w) (terminated w).
Definition set_worker (w : world) i wk : world :=
  mkWorld (sh w) (running_ w) (<[i := wk]> (workers_ w)) (net w) (accepted w) (terminated w).
Definition set_net (w : world) i p : world :=
  mkWorld (sh w) (running_ w) (workers_ w) (<[i := p]> (net w)) (accepted w) (terminated w).
Definition terminate (w : world) e : world :=
  mkWorld (sh w) (running_ w) (workers_ w) (net w) (accepted w) (Some e).

(** ** Effects *)

(** What the random generator and the clock answer in a step. *)
Record choice : Type := mkChoice { ch_uuid : uuid; ch_time : time_point }.

(** [ActorSystem::send] on the shared state. *)
Definition shared_send (env : ActorEnvelope) (s : shared) : bool * shared :=
  let '(ok, acts) := ActorSystem_send env (actors_ s) in
  (ok, if ok : bool then set_actors s acts else note_refused (set_actors s acts) env).

(** [MessageRepository::create] on the shared state. *)
Definition shared_create (m : Message) (s : shared) : result bool * shared :=
  let '(o, r) := message_create m (repository s) in
  (o, match o with
      | Ok false => note_unstored (set_repository s r) m
      | _ => set_repository s r
      end).

(** One effect of a program; none when it has returned or thrown. *)
Definition prog_step (c : choice) (s : shared) (p : prog unit) : option (shared * prog unit) :=
  match p with
  | Ret _ | Raise _ => None
  | Send env k => let '(ok, s') := shared_send env s in Some (s', k ok)
  | FindTransport sid k => Some (s, k (transports_ s !! sid))
  | LockTransport t k => Some (s, k (bool_decide (t ∈ live s)))
  | TransportSend t text k => Some (post_text s t text, k)
  | RepoCreate m k =>
      match shared_create m s with
      | (Ok b, s') => Some (s', k b)
      | (Throw e, s') => Some (s', Raise e)
      end
  | RandomUuid k => Some (s, k (ch_uuid c))
  | SystemNow k => Some (s, k (ch_time c))
  | Log l fmt args k => Some (log_entry s l fmt args, k)
  end.

(** The events a program is about to hand to the message actor. *)
Definition head_event (p : prog unit) : list SendMessageEvent :=
  match p with
  | Send env _ =>
      match destination env, payload env with
      | ActorType.message, SendMessage e => [e]
      | _, _ => []
      end
  | _ => []
  end.

(** ** Threads *)

(** [Query] and [Crash] are what the HTTP handlers do to the system: they read
    a history from the repository, and let an exception out of their thread. *)
Inductive label : Type :=
| Dispatch (sessionId rawMessage : string)
| NetStep (i : nat) (c : choice)
| WorkerStep (i : nat) (c : choice)
| Bind (sessionId : string) (t : transport)
| Unbind (sessionId : string)
| Expire (t : transport)
| Start (workerThreads : nat)
| StopRequest
| StopJoin
| Query (chat : uuid) (limit : Z)
| Crash (e : exn).

(** One step of [ActorSystem::workerLoop] by worker [i]. *)
Definition worker_step (i : nat) (c : choice) (w : world) : option world :=
  wk ← workers_ w !! i;
  match wk with
  | WStopped => None
  | WTop =>
      if running_ w then Some (set_worker w i (WScan (iteration (dom (actors_ (sh w)))) false))
      else Some (set_worker (set_shared w (log_entry (sh w) info "actor worker stopped" []))
                   i WStopped)
  | WScan [] processed => Some (set_worker w i (if processed : bool then WTop else WSleep))
  | WScan (key :: rest) processed =>
      '(o, cls, acts) ← actors_pop key (actors_ (sh w));
      let w' := set_shared w (set_actors (sh w) acts) in
      match o with
      | None => Some (set_worker w' i (WScan rest processed))
      | Some env => Some (set_worker w' i (WRun cls (Actor_handle cls env) rest))
      end
  | WRun cls (Ret _) rest => Some (set_worker w i (WScan rest true))
  | WRun cls (Raise e) rest => Some (terminate w e)
  | WRun cls p rest =>
      '(s, p') ← prog_step c (sh w) p;
      Some (set_worker (set_shared w s) i (WRun cls p' rest))
  | WSleep => Some (set_worker w i WTop)
  end.

(** One effect of the [i]-th dispatch in progress; an exception leaves the
    handler, [io_context::run] and the thread. *)
Definition net_step (i : nat) (c : choice) (w : world) : option world :=
  p ← net w !! i;
  match p with
  | Ret _ => None
  | Raise e => Some (terminate w e)
  | _ =>
      '(s, p') ← prog_step c (sh w) p;
      let w' := set_net (set_shared w s) i p' in
      Some (mkWorld (sh w') (running_ w') (workers_ w') (net w')
              (accepted w' ++ head_event p) (terminated w'))
  end.

Definition is_stopped (wk : worker) : bool :=
  match wk with WStopped => true | _ => false end.

(** [ActorSystem::start] and the two halves of [stop]: the exchange of the
    flag, and the join of all workers followed by [workers_.clear()]. *)
Definition start_step (workerThreads : nat) (w : world) : world :=
  if running_ w then w
  else mkWorld (sh w) true (workers_ w ++ replicate workerThreads WTop) (net w)
         (accepted w) (terminated w).
Definition stop_request (w : world) : world :=
  mkWorld (sh w) false (workers_ w) (net w) (accepted w) (terminated w).
Definition stop_join (w : world) : option world :=
  if negb (running_ w) && forallb is_stopped (workers_ w)
  then Some (mkWorld (sh w) (running_ w) [] (net w) (accepted w) (terminated w))
  else None.

Definition step (l : label) (w : world) : option world :=
  match terminated w with
  | Some _ => None
  | None =>
      match l with
      | Dispatch sid raw =>
          Some (mkWorld (sh w) (running_ w) (workers_ w)
                  (net w ++ [MessageDispatcher_dispatch sid raw]) (accepted w) None)
      | NetStep i c => net_step i c w
      | WorkerStep i c => worker_step i c w
      | Bind sid t =>
          Some (set_shared w (set_transports (set_live (sh w) ({[t]} ∪ live (sh w)))
                                (bindTransport sid t (transports_ (sh w)))))
      | Unbind sid =>
          Some (set_shared w (set_transports (sh w) (unbindTransport sid (transports_ (sh w)))))
      | Expire t => Some (set_shared w (set_live (sh w) (live (sh w) ∖ {[t]})))
      | Start n => Some (start_step n w)
      | StopRequest => Some (stop_request w)
      | StopJoin => stop_join w
      | Query chat limit =>
          Some (set_shared w (set_repository (sh w) (getByChat chat limit (repository (sh w))).2))
      | Crash e => Some (terminate w e)
      end
  end.

Fixpoint run (ls : list label) (w : world) : option world :=
  match ls with
  | [] => Some w
  | l :: ls' => w' ← step l w; run ls' w'
  end.

(** The system as [Server] builds it: four actors, each with its own mailbox. *)
Definition server_actors (capacity : Z) : gmap ActorType Actor :=
  registerActor ActorType.storage (mkActor StorageActor (Mailbox_new capacity))
    (registerActor ActorType.message (mkActor MessageActor (Mailbox_new capacity))
      (registerActor ActorType.chat (mkActor ChatActor (Mailbox_new capacity))
        (registerActor ActorType.session (mkActor SessionActor (Mailbox_new capacity)) ∅))).

Definition initial (capacity : Z) (r : R) : world :=
  mkWorld (mkShared (server_actors capacity) ∅ ∅ [] r [] [] []) false [] [] [] None.
End runtime.
Arguments shared {_ _ _} R.
Arguments world {_ _ _} R.
