(* ===== verification/RuntimeInv.v ===== *)
(** * Invariants of the actor runtime

    Facts that hold in every state a run can reach, whatever the interleaving:
    the envelopes in a mailbox are addressed to its actor and of a kind that
    actor handles, no mailbox outgrows its capacity, and the registry never
    changes shape. *)
From S2P Require Import Prelude CppString Json Domain Mailbox Actor Handlers Runtime.

(** ** What the handlers send *)

Section handler_facts.
Context `{JsonLib, UuidLib}.

Definition anything {A} (_ : A) : Prop := True.
Definition sends_only (P : ActorEnvelope -> Prop) : prog unit -> Prop :=
  prog_all P anything anything.

Lemma prog_all_lift_any P {A} (r : result A) : prog_all P anything anything (prog_lift r).
Proof. by destruct r. Qed.

(** Every envelope the dispatcher sends is addressed to an actor that
    handles its kind, and the same holds of the envelopes of each actor. *)
Lemma dispatch_well_routed sid raw :
  sends_only well_routed (MessageDispatcher_dispatch sid raw).
Proof.
  unfold MessageDispatcher_dispatch, sends_only. case_match; [done|].
  repeat first [ done | case_match
               | apply prog_all_bind; [apply prog_all_lift_any|intros ?]
               | apply prog_all_bind; [by cbn|intros ?] ].
Qed.

Lemma handle_well_routed cls env : sends_only well_routed (Actor_handle cls env).
Proof.
  unfold sends_only. destruct cls; cbn [Actor_handle];
    unfold SessionActor_handle, ChatActor_handle, MessageActor_handle, StorageActor_handle;
    destruct (payload env); try done;
    repeat first [ done | case_match
                 | apply prog_all_bind; [apply prog_all_lift_any|intros ?]
                 | apply prog_all_bind; [by cbn|intros ?] ].
Qed.
End handler_facts.

(** ** Invariants by induction on runs *)

Section invariants.
Context `{JsonLib, UuidLib, LockfreeQueueLaws, ActorOrder} {R : Type} `{!MessageRepository R}.
Implicit Types (w : world R) (s : shared R).

Lemma run_invariant (I : world R -> Prop) ls w w' :
  (forall l w1 w2, I w1 -> step l w1 = Some w2 -> I w2) ->
  I w -> run ls w = Some w' -> I w'.
Proof.
  intros Hstep. revert w. induction ls as [|l ls IH]; intros w Hw Hr; cbn in Hr.
  - by simplify_eq.
  - destruct (step l w) as [w1|] eqn:Hs; [|done]. cbn in Hr. eauto.
Qed.

(** [step] on a process that has not terminated, by kind of label. *)
Definition quiet_step (w w' : world R) : Prop :=
  actors_ (sh w') = actors_ (sh w) /\ repository (sh w') = repository (sh w) /\
  refused (sh w') = refused (sh w) /\ unstored (sh w') = unstored (sh w) /\
  accepted w' = accepted w /\
  outbox (sh w') = outbox (sh w) /\ transports_ (sh w') = transports_ (sh w).

(** What a worker's step can be: a turn of its loop that leaves the queues
    alone, the pop of an envelope, the exception that ends the process, or
    one effect of the handler it runs. *)
Inductive worker_move (i : nat) (c : choice) (w : world R) : world R -> Prop :=
| move_loop wk wk' w' :
    workers_ w !! i = Some wk -> (forall cls p rest, wk' <> WRun cls p rest) ->
    (forall cls p rest, wk = WRun cls p rest -> p = Ret tt) ->
    quiet_step w w' -> workers_ w' = <[i := wk']> (workers_ w) -> net w' = net w ->
    (forall key rest b, wk <> WScan (key :: rest) b) ->
    worker_move i c w w'
| move_empty key rest b cls acts :
    workers_ w !! i = Some (WScan (key :: rest) b) ->
    actors_pop key (actors_ (sh w)) = Some (None, cls, acts) ->
    worker_move i c w
      (set_worker (set_shared w (set_actors (sh w) acts)) i (WScan rest b))
| move_pop key rest b cls env acts :
    workers_ w !! i = Some (WScan (key :: rest) b) ->
    actors_pop key (actors_ (sh w)) = Some (Some env, cls, acts) ->
    worker_move i c w
      (set_worker (set_shared w (set_actors (sh w) acts)) i
         (WRun cls (Actor_handle cls env) rest))
| move_raise cls e rest :
    workers_ w !! i = Some (WRun cls (Raise e) rest) ->
    worker_move i c w (terminate w e)
| move_effect cls p rest s p' :
    workers_ w !! i = Some (WRun cls p rest) ->
    prog_step c (sh w) p = Some (s, p') ->
    worker_move i c w (set_worker (set_shared w s) i (WRun cls p' rest)).

Local Ltac loop_move Hi :=
  eapply move_loop; [exact Hi| | | |reflexivity|reflexivity|]; try done.

Lemma worker_step_move i c w w' : worker_step i c w = Some w' -> worker_move i c w w'.
Proof.
  unfold worker_step. intros Hs. destruct (workers_ w !! i) as [wk|] eqn:Hi; [|done].
  cbn in Hs. destruct wk as [|[|key rest] b|cls p rest| |]; try done.
  - destruct (running_ w); simplify_eq; loop_move Hi.
  - simplify_eq. loop_move Hi. by destruct b.
  - destruct (actors_pop key (actors_ (sh w))) as [[[o cls] acts]|] eqn:Hp; [|done].
    cbn in Hs. destruct o; simplify_eq; [by eapply move_pop|by eapply move_empty].
  - destruct p; simplify_eq; try (by eapply move_raise).
    1: { loop_move Hi. intros ??? [= ]. by destruct a. }
    all: match type of Hs with (prog_step ?c ?s ?p ≫= _) = _ =>
           destruct (prog_step c s p) as [[s' p']|] eqn:Hp end; [|done];
         injection Hs as <-; by eapply move_effect.
  - simplify_eq. loop_move Hi.
Qed.

Lemma net_step_inv i c w w' :
  net_step i c w = Some w' ->
  (exists e, net w !! i = Some (Raise e) /\ w' = terminate w e) \/
  (exists p s p', net w !! i = Some p /\ prog_step c (sh w) p = Some (s, p') /\
     w' = mkWorld s (running_ w) (workers_ w) (<[i := p']> (net w))
            (accepted w ++ head_event p) (terminated w)).
Proof.
  unfold net_step. intros Hs. destruct (net w !! i) as [p|] eqn:Hi; [|done]. cbn in Hs.
  destruct p; try done; try (left; simplify_eq; by eexists); right;
    match type of Hs with (prog_step ?c ?s ?p ≫= _) = _ =>
      destruct (prog_step c s p) as [[s' p']|] eqn:Hp end; try done;
    injection Hs as <-; eexists _, _, _; split_and!; done.
Qed.

(** *** Routing *)

Definition addressed (P : ActorEnvelope -> Prop) (acts : gmap ActorType Actor) : Prop :=
  forall key env, env ∈ queued key acts -> P env /\ destination env = key.

Record sends_inv (P : ActorEnvelope -> Prop) (w : world R) : Prop := {
  inv_queues : addressed P (actors_ (sh w));
  inv_workers : forall i cls p rest, workers_ w !! i = Some (WRun cls p rest) -> sends_only P p;
  inv_net : forall i p, net w !! i = Some p -> sends_only P p
}.

Lemma send_addressed P env acts ok acts' :
  P env -> addressed P acts -> ActorSystem_send env acts = (ok, acts') -> addressed P acts'.
Proof.
  intros HP Ha Hs key e. rewrite (send_queued _ _ _ _ key Hs).
  intros [Hin|Hin]%elem_of_app; [by apply Ha|].
  case_bool_decide; destruct ok; cbn in Hin; try (by apply elem_of_nil in Hin).
  apply list_elem_of_singleton in Hin as ->. by subst.
Qed.

Lemma prog_step_sends P c s p s' p' :
  sends_only P p -> addressed P (actors_ s) -> prog_step c s p = Some (s', p') ->
  sends_only P p' /\ addressed P (actors_ s').
Proof.
  unfold sends_only. intros Hp Ha Hs. destruct p; cbn in Hp, Hs; simplify_eq; auto.
  - destruct Hp as [HP Hk]. unfold shared_send in Hs.
    destruct (ActorSystem_send env (actors_ s)) as [ok acts] eqn:Hsend.
    pose proof (send_addressed P _ _ _ _ HP Ha Hsend).
    destruct ok; simplify_eq/=; auto.
  - destruct Hp as [_ Hk]. unfold shared_create in Hs.
    destruct (message_create m (repository s)) as [[[]|e] r]; simplify_eq/=; auto.
    by split.
Qed.

Lemma pop_addressed P key acts o cls acts' :
  addressed P acts -> actors_pop key acts = Some (o, cls, acts') -> addressed P acts'.
Proof.
  intros Ha Hp k e He. pose proof (pop_queued _ _ _ _ _ k Hp) as Hq.
  destruct o as [env|]; [|rewrite Hq in He; by apply Ha].
  destruct Hq as [Hk Hne]. destruct (decide (k = key)) as [->|Hk'].
  - apply Ha. rewrite Hk. by apply list_elem_of_further.
  - rewrite Hne in He by done. by apply Ha.
Qed.

Section sends.
Context (P : ActorEnvelope -> Prop).
Context (Hhandle : forall cls env, sends_only P (Actor_handle cls env)).
Context (Hdispatch : forall sid raw, sends_only P (MessageDispatcher_dispatch sid raw)).

Lemma worker_step_sends i c w w' :
  sends_inv P w -> worker_step i c w = Some w' -> sends_inv P w'.
Proof.
  intros [Hq Hw Hn] Hs. apply worker_step_move in Hs as
    [wk wk' w2 Hi Hrun Hret (Ha & _) Hws Hnet
    |key rest b cls acts Hi Hp|key rest b cls env acts Hi Hp|cls e rest Hi
    |cls p rest s p' Hi Hp].
  - split; [by rewrite Ha| |by rewrite Hnet].
    intros j cls p rest. rewrite Hws. intros [[? _]|?]%list_insert_cases; [|by eauto].
    by destruct (Hrun cls p rest).
  - split; [by eapply pop_addressed| |exact Hn]; cbn.
    intros j cls' p rest' [[? _]|?]%list_insert_cases; [done|eauto].
  - split; [by eapply pop_addressed| |exact Hn]; cbn.
    intros j cls' p rest' [[? _]|?]%list_insert_cases; [by simplify_eq|eauto].
  - by split.
  - destruct (prog_step_sends P c _ _ _ _ (Hw _ _ _ _ Hi) Hq Hp) as [Hp' Hq'].
    split; [exact Hq'| |exact Hn]; cbn.
    intros j cls' q rest' [[? _]|?]%list_insert_cases; [by simplify_eq|eauto].
Qed.

Lemma net_step_sends i c w w' :
  sends_inv P w -> net_step i c w = Some w' -> sends_inv P w'.
Proof.
  intros [Hq Hw Hn] [(e & _ & ->)|(p & s & p' & Hi & Hp & ->)]%net_step_inv; [by split|].
  destruct (prog_step_sends P c _ _ _ _ (Hn _ _ Hi) Hq Hp) as [Hp' Hq'].
  split; [exact Hq'|exact Hw|]; cbn.
  intros j q [[? _]|?]%list_insert_cases; [by simplify_eq|eauto].
Qed.

Lemma step_sends l w w' : sends_inv P w -> step l w = Some w' -> sends_inv P w'.
Proof.
  intros Hinv Hs. unfold step in Hs. destruct (terminated w); [done|].
  destruct l; simplify_eq; eauto using worker_step_sends, net_step_sends;
    destruct Hinv as [Hq Hw Hn]; try (by split).
  - split; [done|done|]; cbn. intros i p [Hi|[_ Hi]]%lookup_app_Some; [by eauto|].
    apply list_lookup_singleton_Some in Hi as [_ <-]. apply Hdispatch.
  - unfold start_step. destruct (running_ w); [done|]. split; [done| |done]; cbn.
    intros i cls p rest [Hi|[_ Hi]]%lookup_app_Some; [by eauto|].
    by apply lookup_replicate in Hi as [? _].
  - unfold stop_join in Hs. destruct (_ && _); [|done]. simplify_eq.
    split; [done| |done]; cbn. intros i cls p rest. by rewrite lookup_nil.
Qed.

Lemma run_sends ls w w' : sends_inv P w -> run ls w = Some w' -> sends_inv P w'.
Proof. apply run_invariant. intros l w1 w2. apply step_sends. Qed.
End sends.

(** *** The initial state *)

(** The class registered under each address. *)
Definition class_at (key : ActorType) : ActorClass :=
  match key with
  | ActorType.session => SessionActor
  | ActorType.chat => ChatActor
  | ActorType.message => MessageActor
  | ActorType.storage => StorageActor
  end.

Lemma server_actors_lookup capacity key :
  server_actors capacity !! key = Some (mkActor (class_at key) (Mailbox_new capacity)).
Proof.
  unfold server_actors, registerActor.
  by destruct key; repeat first [rewrite lookup_insert_eq | rewrite lookup_insert_ne by done].
Qed.

Lemma queued_server_actors capacity key : queued key (server_actors capacity) = [].
Proof.
  unfold queued. rewrite server_actors_lookup. apply mailbox_new_contents.
Qed.

Lemma initial_sends P capacity (r : R) : sends_inv P (initial capacity r).
Proof.
  split; cbn.
  - intros key env. rewrite queued_server_actors. by intros ?%elem_of_nil.
  - intros i cls p rest. by rewrite lookup_nil.
  - intros i p. by rewrite lookup_nil.
Qed.

(** C21: whatever the threads do, an envelope waiting in a mailbox is
    addressed to the actor registered there and carries one of the payloads
    that actor is written for; no envelope is ever dropped by the type test
    of a handler because it was put in the wrong mailbox. *)
Theorem mailboxes_well_routed ls capacity (r : R) w key env :
  run ls (initial capacity r) = Some w ->
  env ∈ queued key (actors_ (sh w)) ->
  destination env = key /\ well_routed env.
Proof.
  intros Hr Hin.
  assert (sends_inv well_routed w) as [Hq _ _].
  { eapply run_sends; [apply handle_well_routed|apply dispatch_well_routed
                      |apply initial_sends|exact Hr]. }
  apply Hq in Hin. tauto.
Qed.

(** *** Bounds *)

Definition registry_inv (acts0 : gmap ActorType Actor) (w : world R) : Prop :=
  actor_shape <$> actors_ (sh w) = actor_shape <$> acts0 /\
  actors_all (fun _ a => mailbox_bounded (mailbox a)) (actors_ (sh w)).

Lemma prog_step_registry c s p s' p' :
  prog_step c s p = Some (s', p') ->
  actors_ s' = actors_ s \/ exists env ok, ActorSystem_send env (actors_ s) = (ok, actors_ s').
Proof.
  intros Hs. destruct p; cbn in Hs; simplify_eq; auto.
  - unfold shared_send in Hs. destruct (ActorSystem_send env (actors_ s)) as [ok acts] eqn:Hsend.
    right. exists env, ok. by destruct ok; simplify_eq/=.
  - unfold shared_create in Hs. left.
    by destruct (message_create m (repository s)) as [[[]|e] r]; simplify_eq/=.
Qed.

Lemma prog_step_registry_inv acts0 c w s p p' :
  registry_inv acts0 w -> prog_step c (sh w) p = Some (s, p') ->
  registry_inv acts0 (set_shared w s).
Proof.
  intros [Hsh Hb] Hp. unfold registry_inv; cbn.
  apply prog_step_registry in Hp as [->|(env & ok & Hsend)]; [done|]. split.
  - by rewrite (send_shape _ _ _ _ Hsend).
  - by eapply send_bounded.
Qed.

Lemma step_registry acts0 l w w' :
  registry_inv acts0 w -> step l w = Some w' -> registry_inv acts0 w'.
Proof.
  intros Hinv Hs. unfold step in Hs. destruct (terminated w); [done|].
  destruct l; simplify_eq; try exact Hinv.
  - apply net_step_inv in Hs as [(e & _ & ->)|(p & s & p' & Hi & Hp & ->)]; [done|].
    exact (prog_step_registry_inv acts0 c w s p p' Hinv Hp).
  - apply worker_step_move in Hs as
      [wk wk' w2 Hi Hrun Hret (Ha & _) Hws Hnet
      |key rest b cls acts Hi Hp|key rest b cls env acts Hi Hp|cls e rest Hi
      |cls p rest s p' Hi Hp]; try done.
    + destruct Hinv. by split; rewrite Ha.
    + destruct Hinv as [Hsh Hb]. split; cbn; [|by eapply pop_bounded].
      by rewrite (proj1 (pop_shape _ _ _ _ _ Hp)).
    + destruct Hinv as [Hsh Hb]. split; cbn; [|by eapply pop_bounded].
      by rewrite (proj1 (pop_shape _ _ _ _ _ Hp)).
    + exact (prog_step_registry_inv acts0 c w s p p' Hinv Hp).
  - unfold start_step. by destruct (running_ w).
  - unfold stop_join in Hs. by destruct (_ && _); simplify_eq.
Qed.

Lemma initial_registry capacity (r : R) :
  (0 <= capacity)%Z -> registry_inv (server_actors capacity) (initial capacity r).
Proof.
  intros Hcap. split; [done|]. intros k a. cbn. rewrite server_actors_lookup.
  intros [= <-]. by apply mailbox_new_bounded.
Qed.

(** C20: in every reachable state the four actors are registered with the
    classes and the capacity they were built with, and no mailbox holds more
    envelopes than that capacity. *)
Theorem mailboxes_bounded ls capacity (r : R) w key :
  (0 <= capacity)%Z -> run ls (initial capacity r) = Some w ->
  actor_shape <$> actors_ (sh w) = actor_shape <$> server_actors capacity /\
  (Z.of_nat (length (queued key (actors_ (sh w)))) <= capacity)%Z.
Proof.
  intros Hcap Hr.
  assert (registry_inv (server_actors capacity) w) as [Hsh Hb].
  { eapply run_invariant; [intros l w1 w2; apply step_registry| |exact Hr].
    by apply initial_registry. }
  split; [done|]. unfold queued.
  destruct (actors_ (sh w) !! key) as [a|] eqn:Ha; [|exact Hcap].
  specialize (Hb _ _ Ha). unfold mailbox_bounded in Hb.
  enough (mailbox_capacity (mailbox a) = capacity) as Hc by (by rewrite Hc in Hb).
  apply (f_equal (fun m => m !! key)) in Hsh.
  rewrite !lookup_fmap, Ha, server_actors_lookup in Hsh. injection Hsh as _ -> _.
  by apply mailbox_new_capacity.
Qed.
End invariants.
