(* ===== verification/RuntimeFlow.v ===== *)
(** * The flow of messages through the actors

    A [send_message] event goes from the network to the message actor, to the
    chat actor, to the storage actor and into the repository. This file
    follows it as a key (the chat and the sender as the UUID generator reads
    them, and the text) and proves that keys are conserved in every run, and
    that with one worker thread they keep their order. *)
From S2P Require Import Prelude CppString Json Domain Mailbox Actor Handlers Runtime RuntimeInv.

Section keys.
Context `{JsonLib, UuidLib}.

Definition mkey : Type := result uuid * result uuid * string.

Definition key_of_event (e : SendMessageEvent) : mkey :=
  (string_generator (SendMessageEvent_chatId e), string_generator (SendMessageEvent_senderId e),
   SendMessageEvent_text e).
Definition key_of_persist (e : StoragePersistMessage) : mkey :=
  (string_generator (StoragePersistMessage_chatId e),
   string_generator (StoragePersistMessage_senderId e), StoragePersistMessage_content e).
Definition key_of_row (r : uuid * uuid * uuid * string) : mkey :=
  (Ok r.1.1.2, Ok r.1.2, r.2).
Definition key_of_message (m : Message) : mkey := key_of_row (message_row m).

(** What an envelope will bring into the repository. *)
Definition tokens (env : ActorEnvelope) : list mkey :=
  match destination env, payload env with
  | ActorType.message, SendMessage e | ActorType.chat, SendMessage e => [key_of_event e]
  | ActorType.storage, Persist e => [key_of_persist e]
  | _, _ => []
  end.

(** Where each class of actor hands messages on. *)
Definition next_stage (cls : ActorClass) : option ActorType :=
  match cls with
  | MessageActor => Some ActorType.chat
  | ChatActor => Some ActorType.storage
  | _ => None
  end.

(** Along every path of the program, the keys it passes on or stores are
    exactly [B], in this order, and go where its class hands them. *)
Fixpoint prog_flow (cls : ActorClass) (p : prog unit) (B : list mkey) : Prop :=
  match p with
  | Ret _ => B = []
  | Raise _ => True
  | Send env k =>
      (tokens env = [] \/ next_stage cls = Some (destination env)) /\
      exists B', B = tokens env ++ B' /\ forall b, prog_flow cls (k b) B'
  | FindTransport _ k => forall o, prog_flow cls (k o) B
  | LockTransport _ k => forall b, prog_flow cls (k b) B
  | TransportSend _ _ k => prog_flow cls k B
  | RepoCreate m k =>
      cls = StorageActor /\
      exists B', B = key_of_message m :: B' /\ forall b, prog_flow cls (k b) B'
  | RandomUuid k => forall u, prog_flow cls (k u) B
  | SystemNow k => forall t, prog_flow cls (k t) B
  | Log _ _ _ k => prog_flow cls k B
  end.

(** What the dispatcher may do: hand messages to the message actor only, and
    never touch the repository. *)
Definition net_flow : prog unit -> Prop :=
  prog_all (fun env => tokens env = [] \/ destination env = ActorType.message)
    (fun _ => False) anything.

Lemma handle_flow env :
  prog_flow (class_at (destination env)) (Actor_handle (class_at (destination env)) env)
    (tokens env).
Proof.
  destruct env as [dest pl]. cbn [destination]. unfold tokens.
  destruct dest; cbn [class_at Actor_handle destination payload];
    unfold SessionActor_handle, ChatActor_handle, MessageActor_handle, StorageActor_handle;
    cbn [payload]; destruct pl; try done; cbn.
  - intros [t|]; cbn; [|done]. intros []; cbn; [|done].
    by destruct (json_dump (SessionOutgoingEvent_payload e)).
  - split; [auto|]. exists []. split; [done|]. intros _.
    split; [auto|]. exists []. split; [done|]. intros _.
    destruct (str_empty (SendMessageEvent_recipientId e)); cbn; [done|].
    split; [auto|]. by exists [].
  - split; [auto|]. by exists [].
  - intros u. unfold key_of_persist.
    destruct (string_generator (StoragePersistMessage_chatId e)); cbn; [|done].
    destruct (string_generator (StoragePersistMessage_senderId e)); cbn; [|done].
    intros now. split; [done|]. exists []. split; [done|]. by intros [].
Qed.

Lemma dispatch_flow sid raw : net_flow (MessageDispatcher_dispatch sid raw).
Proof.
  unfold MessageDispatcher_dispatch, net_flow. case_match; [done|].
  repeat first [ done | case_match
               | apply prog_all_bind; [by destruct (_ : result _)|intros ?]
               | apply prog_all_bind; [split; [auto|done]|intros ?] ].
Qed.
End keys.

(** ** Conservation *)

Section flow.
Context `{JsonLib, UuidLib, LockfreeQueueLaws, ActorOrder} {R : Type}
  `{!MessageRepository R, !MessageRepositorySpec}.
Implicit Types (w : world R) (s : shared R).

(** The keys queued for an actor, stored, and lost for a false answer. *)
Definition queue_keys (key : ActorType) s : list mkey := queued key (actors_ s) ≫= tokens.
Definition stored_keys s : list mkey := key_of_row <$> stored (repository s).
Definition lost_keys s : list mkey := (refused s ≫= tokens) ++ (key_of_message <$> unstored s).

Definition total s : list mkey :=
  stored_keys s ++ queue_keys ActorType.storage s ++ queue_keys ActorType.chat s ++
  queue_keys ActorType.message s ++ lost_keys s.

Lemma queue_keys_send env s ok s' key :
  shared_send env s = (ok, s') ->
  queue_keys key s' =
    queue_keys key s ++ (if ok && bool_decide (key = destination env) then tokens env else []).
Proof.
  unfold shared_send, queue_keys.
  destruct (ActorSystem_send env (actors_ s)) as [b acts] eqn:Hs. intros Heq.
  assert (actors_ s' = acts /\ ok = b) as [-> ->] by (by destruct b; simplify_eq/=).
  rewrite (send_queued _ _ _ _ key Hs), bind_app.
  destruct (b && _); cbn; by rewrite ?app_nil_r.
Qed.

Lemma shared_send_frame env s ok s' :
  shared_send env s = (ok, s') ->
  stored_keys s' = stored_keys s /\
  lost_keys s' ≡ₚ lost_keys s ++ (if ok then [] else tokens env).
Proof.
  unfold shared_send, stored_keys, lost_keys.
  destruct (ActorSystem_send env (actors_ s)) as [[] acts]; intros ?; simplify_eq/=;
    (split; [done|]); [by rewrite app_nil_r|].
  rewrite bind_app. cbn. rewrite app_nil_r. solve_Permutation.
Qed.

Lemma tokens_session env : destination env = ActorType.session -> tokens env = [].
Proof. unfold tokens. by intros ->. Qed.

Lemma shared_send_total env s ok s' :
  shared_send env s = (ok, s') -> total s' ≡ₚ total s ++ tokens env.
Proof.
  intros Hs. unfold total.
  rewrite !(queue_keys_send _ _ _ _ _ Hs).
  destruct (shared_send_frame _ _ _ _ Hs) as [-> ->].
  destruct ok; cbn [andb]; [|rewrite !app_nil_r; solve_Permutation].
  destruct (destination env) eqn:Hd;
    repeat (rewrite bool_decide_true by done || rewrite bool_decide_false by done);
    rewrite ?app_nil_r; [rewrite (tokens_session env Hd), app_nil_r; done|..];
    solve_Permutation.
Qed.

Lemma shared_create_total m s o s' :
  shared_create m s = (o, s') ->
  total s' ≡ₚ total s ++ [key_of_message m] \/ (is_Ok o = false /\ total s' = total s).
Proof.
  unfold shared_create, total, stored_keys, queue_keys, lost_keys.
  destruct (message_create m (repository s)) as [[[]|e] r] eqn:Hc; intros ?; simplify_eq/=.
  - left. rewrite (message_create_true _ _ _ Hc), fmap_app. cbn. solve_Permutation.
  - left. rewrite (message_create_false _ _ _ Hc), fmap_app. cbn. solve_Permutation.
  - destruct (message_create_throw _ _ _ _ Hc) as [->| ->]; [right; done|left].
    rewrite fmap_app. cbn. solve_Permutation.
Qed.

(** One effect of a handler moves keys and makes or destroys none. *)
Lemma prog_step_flow cls c s p s' p' B :
  prog_flow cls p B -> prog_step c s p = Some (s', p') ->
  exists B', prog_flow cls p' B' /\ total s' ++ B' ≡ₚ total s ++ B.
Proof.
  intros Hf Hs. destruct p; cbn in Hf, Hs; simplify_eq; try (by exists B; split; auto).
  - destruct Hf as (_ & B' & -> & Hk).
    destruct (shared_send env s) as [ok s1] eqn:Hsend. simplify_eq.
    exists B'. split; [done|]. rewrite (shared_send_total _ _ _ _ Hsend). solve_Permutation.
  - destruct Hf as (_ & B' & -> & Hk).
    destruct (shared_create m s) as [[b|e] s1] eqn:Hc; simplify_eq;
      apply shared_create_total in Hc as [Ht|[He Ht]]; try done.
    + exists B'. split; [done|]. rewrite Ht. solve_Permutation.
    + exists B'. split; [done|]. rewrite Ht. solve_Permutation.
    + exists (key_of_message m :: B'). by rewrite Ht.
Qed.

Lemma net_prog_step_flow c s p s' p' :
  net_flow p -> prog_step c s p = Some (s', p') ->
  net_flow p' /\ total s' ≡ₚ total s ++ (key_of_event <$> head_event p).
Proof.
  unfold net_flow. intros Hf Hs.
  destruct p; cbn in Hf, Hs; simplify_eq; try (by split; [auto|cbn; rewrite app_nil_r]).
  - destruct Hf as [Ht Hk]. destruct (shared_send env s) as [ok s1] eqn:Hsend. simplify_eq.
    split; [done|]. rewrite (shared_send_total _ _ _ _ Hsend). cbn [head_event].
    destruct env as [[] []]; cbn in Ht |- *; try done; by destruct Ht.
  - by destruct Hf.
Qed.

(** *** Keys in the hands of workers *)

Definition hand_ok (wk : worker) (B : list mkey) : Prop :=
  match wk with WRun cls p _ => prog_flow cls p B | _ => B = [] end.

Lemma idle_hands wks Bs :
  Forall2 hand_ok wks Bs -> (forall cls p rest, WRun cls p rest ∉ wks) -> concat Bs = [].
Proof.
  intros HBs Hidle. induction HBs as [|wk B wks Bs HB HBs IH]; [done|]. cbn.
  rewrite IH; [|intros cls p rest Hin; apply (Hidle cls p rest); by apply list_elem_of_further].
  destruct wk; cbn in HB; subst; try done.
  destruct (Hidle cls p rest). apply list_elem_of_here.
Qed.

Lemma concat_delete {A} (Bs : list (list A)) i B :
  Bs !! i = Some B -> concat Bs ≡ₚ B ++ concat (delete i Bs).
Proof. intros Hi. by rewrite (delete_Permutation Bs i B Hi) at 1. Qed.

Lemma concat_insert {A} (Bs : list (list A)) i B B' :
  Bs !! i = Some B -> concat (<[i := B']> Bs) ≡ₚ B' ++ concat (delete i Bs).
Proof.
  intros Hi. rewrite (concat_delete (<[i := B']> Bs) i B').
  - assert (delete i (<[i := B']> Bs) = delete i Bs) as ->; [|done].
    by rewrite !delete_take_drop, take_insert_ge, drop_insert_lt by lia.
  - apply list_lookup_insert_eq. by eapply lookup_lt_Some.
Qed.

Definition conserved (base : list mkey) (w : world R) : Prop :=
  Forall net_flow (net w) /\
  exists Bs, Forall2 hand_ok (workers_ w) Bs /\
    total (sh w) ++ concat Bs ≡ₚ base ++ (key_of_event <$> accepted w).

(** Enough to show that the keys of worker [i] and of the shared state
    balance over a change of its position. *)
Lemma hands_change base w w' i wk wk' :
  workers_ w !! i = Some wk -> workers_ w' = <[i := wk']> (workers_ w) ->
  net w' = net w -> accepted w' = accepted w ->
  (forall B, hand_ok wk B ->
     exists B', hand_ok wk' B' /\ total (sh w') ++ B' ≡ₚ total (sh w) ++ B) ->
  conserved base w -> conserved base w'.
Proof.
  intros Hi Hws Hn Hacc Hbal (Hnet & Bs & HBs & Hperm).
  destruct (Forall2_lookup_l _ _ _ _ _ HBs Hi) as (B & HB & Hok).
  destruct (Hbal B Hok) as (B' & Hok' & Htot).
  unfold conserved. rewrite Hn, Hws, Hacc. split; [done|].
  exists (<[i := B']> Bs). split; [by apply Forall2_insert|].
  rewrite <- Hperm, (concat_insert _ _ _ _ HB), (concat_delete _ _ _ HB), !app_assoc.
  by rewrite Htot.
Qed.

(** A pop takes the keys of its envelope out of the queues. *)
Lemma pop_total key s o cls acts :
  addressed anything (actors_ s) ->
  actors_pop key (actors_ s) = Some (o, cls, acts) ->
  total s ≡ₚ total (set_actors s acts) ++ match o with Some env => tokens env | None => [] end.
Proof.
  intros Haddr Hp. unfold total, stored_keys, lost_keys, queue_keys. cbn.
  assert (forall k, queued k (actors_ s) = (if o is Some env then
    (if decide (k = key) then [env] else []) else []) ++ queued k acts) as Hq.
  { intros k. pose proof (pop_queued _ _ _ _ _ k Hp) as Hk. destruct o as [env|]; [|done].
    case_decide as Hd; [by subst; destruct Hk|]. destruct Hk as [_ Hk]. by rewrite Hk. }
  destruct o as [env|]; [|rewrite !Hq; by rewrite app_nil_r].
  assert (destination env = key) as Hdest.
  { apply (Haddr key env). rewrite Hq, decide_True by done. apply list_elem_of_here. }
  rewrite !Hq. subst key. destruct (destination env) eqn:Hd;
    repeat (rewrite decide_True by done || rewrite decide_False by done);
    cbn [app]; rewrite ?bind_cons;
    [rewrite (tokens_session env Hd), app_nil_r; done|..]; solve_Permutation.
Qed.

Lemma quiet_total w w' : quiet_step w w' -> total (sh w') = total (sh w).
Proof.
  intros (Ha & Hr & Hf & Hu & _). unfold total, stored_keys, queue_keys, lost_keys.
  by rewrite Ha, Hr, Hf, Hu.
Qed.

(** The registry knows which class sits at which address. *)
Definition classes_ok (acts : gmap ActorType Actor) : Prop :=
  forall key a, acts !! key = Some a -> actor_class a = class_at key.

Lemma registry_classes capacity w :
  registry_inv (server_actors capacity) w -> classes_ok (actors_ (sh w)).
Proof.
  intros [Hsh _] key a Ha. apply (f_equal (fun m => m !! key)) in Hsh.
  rewrite !lookup_fmap, Ha, server_actors_lookup in Hsh. by injection Hsh.
Qed.

Lemma pop_class key acts o cls acts' :
  classes_ok acts -> actors_pop key acts = Some (o, cls, acts') -> cls = class_at key.
Proof.
  intros Hc [_ Hp]%pop_shape. destruct (acts !! key) as [a|] eqn:Ha; [|done].
  cbn in Hp. injection Hp as <-. by apply Hc.
Qed.

Lemma worker_step_conserved base i c w w' :
  addressed anything (actors_ (sh w)) -> classes_ok (actors_ (sh w)) ->
  conserved base w -> worker_step i c w = Some w' -> conserved base w'.
Proof.
  intros Haddr Hcls Hinv Hs. apply worker_step_move in Hs as
    [wk wk' w2 Hi Hrun Hret Hq Hws Hnet
    |key rest b cls acts Hi Hp|key rest b cls env acts Hi Hp|cls e rest Hi
    |cls p rest s p' Hi Hp].
  - eapply hands_change; [exact Hi|exact Hws|exact Hnet|by apply Hq| |exact Hinv].
    intros B HB. exists []. rewrite (quiet_total _ _ Hq).
    assert (B = []) as ->.
    { destruct wk; try done. by rewrite (Hret _ _ _ eq_refl) in HB. }
    split; [|done]. destruct wk'; try done. by destruct (Hrun cls p rest).
  - eapply hands_change; [exact Hi|reflexivity..| |exact Hinv].
    intros B ->. exists []. split; [done|].
    by rewrite (pop_total _ _ _ _ _ Haddr Hp), !app_nil_r.
  - pose proof (pop_class _ _ _ _ _ Hcls Hp) as ->.
    assert (destination env = key) as <-.
    { apply (Haddr key env). rewrite (proj1 (pop_queued _ _ _ _ _ key Hp)). apply list_elem_of_here. }
    eapply hands_change; [exact Hi|reflexivity..| |exact Hinv].
    intros B ->. exists (tokens env). split; [apply handle_flow|].
    by rewrite (pop_total _ _ _ _ _ Haddr Hp), !app_nil_r.
  - exact Hinv.
  - eapply hands_change; [exact Hi|reflexivity..| |exact Hinv].
    intros B HB. exact (prog_step_flow _ _ _ _ _ _ _ HB Hp).
Qed.

Lemma net_step_conserved base i c w w' :
  conserved base w -> net_step i c w = Some w' -> conserved base w'.
Proof.
  intros (Hnet & Bs & HBs & Hperm) [(e & _ & ->)|(p & s & p' & Hi & Hp & ->)]%net_step_inv.
  { split; [done|]. by exists Bs. }
  destruct (net_prog_step_flow _ _ _ _ _ (Forall_lookup_1 _ _ _ _ Hnet Hi) Hp) as [Hp' Htot].
  split; [by apply Forall_insert|]. exists Bs. split; [done|]. cbn.
  rewrite Htot, fmap_app, !app_assoc, <- Hperm. solve_Permutation.
Qed.

Lemma query_stored c n s :
  stored_keys (set_repository s (getByChat c n (repository s)).2) = stored_keys s.
Proof.
  unfold stored_keys. cbn. destruct (getByChat c n (repository s)) as [o r'] eqn:Hq.
  by rewrite (getByChat_stored _ _ _ _ _ Hq).
Qed.

Lemma step_conserved base l w w' :
  addressed anything (actors_ (sh w)) -> classes_ok (actors_ (sh w)) ->
  conserved base w -> step l w = Some w' -> conserved base w'.
Proof.
  intros Haddr Hcls Hinv Hs. unfold step in Hs. destruct (terminated w); [done|].
  destruct l; simplify_eq;
    [|by eapply net_step_conserved|by eapply worker_step_conserved|..];
    destruct Hinv as (Hnet & Bs & HBs & Hperm).
  - split; [|by exists Bs]. apply Forall_app. split; [done|].
    apply Forall_singleton, dispatch_flow.
  - split; [done|]. by exists Bs.
  - split; [done|]. by exists Bs.
  - split; [done|]. by exists Bs.
  - unfold start_step. destruct (running_ w); (split; [done|]); [by exists Bs|].
    exists (Bs ++ replicate workerThreads []). split.
    + apply Forall2_app; [done|]. by apply Forall2_replicate.
    + rewrite concat_app. cbn. rewrite <- Hperm.
      assert (concat (replicate workerThreads ([] : list mkey)) = []) as ->.
      { by induction workerThreads. }
      by rewrite app_nil_r.
  - split; [done|]. by exists Bs.
  - unfold stop_join in Hs. destruct (_ && _) eqn:Hst; [|done]. simplify_eq.
    split; [done|]. exists []. split; [constructor|]. cbn. rewrite <- Hperm.
    apply andb_prop in Hst as [_ Hst]. rewrite forallb_forall in Hst.
    rewrite (idle_hands _ _ HBs); [done|].
    intros cls p rest Hin%list_elem_of_In. by apply Hst in Hin.
  - split; [done|]. exists Bs. split; [done|]. rewrite <- Hperm. unfold total. cbn [sh set_shared].
    by rewrite query_stored.
  - split; [done|]. by exists Bs.
Qed.

(** Everything the flow invariants need, in one invariant. *)
Definition flow_inv (capacity : Z) (base : list mkey) (w : world R) : Prop :=
  sends_inv anything w /\ registry_inv (server_actors capacity) w /\ conserved base w.

Lemma sends_anything (p : prog unit) : sends_only anything p.
Proof. unfold sends_only. induction p; cbn; auto; by split. Qed.

Lemma flow_inv_initial capacity (r : R) :
  (0 <= capacity)%Z ->
  flow_inv capacity (key_of_row <$> stored r) (initial capacity r).
Proof.
  intros Hcap. split; [apply initial_sends|]. split; [by apply initial_registry|].
  split; [constructor|]. exists []. split; [constructor|].
  unfold total, stored_keys, queue_keys, lost_keys. cbn.
  by rewrite !queued_server_actors, !app_nil_r.
Qed.

Lemma step_flow_inv capacity base l w w' :
  flow_inv capacity base w -> step l w = Some w' -> flow_inv capacity base w'.
Proof.
  intros (Hs & Hr & Hc) Hstep. split_and!.
  - eapply step_sends; [intros; apply sends_anything..|exact Hs|exact Hstep].
  - by eapply step_registry.
  - eapply step_conserved; [apply Hs|by eapply registry_classes|exact Hc|exact Hstep].
Qed.

Lemma run_flow_inv capacity base ls w w' :
  flow_inv capacity base w -> run ls w = Some w' -> flow_inv capacity base w'.
Proof. apply run_invariant. intros l w1 w2. apply step_flow_inv. Qed.

(** No handler is running and nothing is queued for the message, chat and
    storage actors. *)
Definition settled (w : world R) : Prop :=
  (forall cls p rest, WRun cls p rest ∉ workers_ w) /\
  queued ActorType.message (actors_ (sh w)) = [] /\
  queued ActorType.chat (actors_ (sh w)) = [] /\
  queued ActorType.storage (actors_ (sh w)) = [].

Lemma conserved_settled base w :
  conserved base w -> settled w ->
  stored_keys (sh w) ++ lost_keys (sh w) ≡ₚ base ++ (key_of_event <$> accepted w).
Proof.
  intros (_ & Bs & HBs & Hperm) (Hidle & Hm & Hc & Hs).
  rewrite <- Hperm. unfold total, queue_keys. rewrite Hm, Hc, Hs. cbn.
  by rewrite (idle_hands _ _ HBs Hidle), app_nil_r.
Qed.

(** C1: messages are neither invented nor duplicated: in every reachable
    state, for any number of worker and network threads, the messages stored
    since the start are among the events handed to the message actor, each
    at most once. When the actors have settled, every such event was stored
    exactly once, apart from those for which [send] or the repository
    answered false. *)
Theorem messages_conserved ls capacity (r : R) w :
  (0 <= capacity)%Z -> run ls (initial capacity r) = Some w ->
  (key_of_row <$> stored (repository (sh w))) ⊆+
    (key_of_row <$> stored r) ++ (key_of_event <$> accepted w) /\
  (settled w ->
   (key_of_row <$> stored (repository (sh w))) ++ lost_keys (sh w) ≡ₚ
     (key_of_row <$> stored r) ++ (key_of_event <$> accepted w)).
Proof.
  intros Hcap Hr.
  destruct (run_flow_inv _ _ _ _ _ (flow_inv_initial capacity r Hcap) Hr)
    as (_ & _ & Hcons). split; [|by apply conserved_settled].
  destruct Hcons as (_ & Bs & _ & Hperm). rewrite <- Hperm.
  unfold total, stored_keys. solve_submseteq.
Qed.
End flow.

(** ** Where the events come from *)

Section provenance.
Context `{JsonLib, UuidLib, LockfreeQueue, ActorOrder} {R : Type} `{!MessageRepository R}.

(** The event a websocket text asks for: an object of type [send_message]
    whose fields have the right types. *)
Definition requested_event (sessionId rawMessage : string) : option SendMessageEvent :=
  let j := json_parse rawMessage in
  if negb (json_is_object j) then None
  else match json_value j "type" EmptyString, json_value_json j "payload" json_empty_object,
             json_value j "chat_id" EmptyString, json_value j "sender_id" EmptyString,
             json_value j "recipient_session_id" EmptyString with
       | Ok type, Ok pl, Ok chatId, Ok senderId, Ok recipientId =>
           match json_value pl "text" EmptyString with
           | Ok text =>
               if String.eqb type "send_message"
               then Some (mkSendMessageEvent sessionId chatId senderId recipientId text)
               else None
           | Throw _ => None
           end
       | _, _, _, _, _ => None
       end.

Definition label_event (l : label) : option SendMessageEvent :=
  match l with Dispatch sid raw => requested_event sid raw | _ => None end.

(** On every path, the events the program hands to the message actor are
    among [B]. *)
Fixpoint hands_over (p : prog unit) (B : list SendMessageEvent) : Prop :=
  match p with
  | Ret _ | Raise _ => True
  | Send env k =>
      exists B', head_event (Send env k) ++ B' ⊆+ B /\ forall b, hands_over (k b) B'
  | FindTransport _ k => forall o, hands_over (k o) B
  | LockTransport _ k => forall b, hands_over (k b) B
  | TransportSend _ _ k => hands_over k B
  | RepoCreate _ k => forall b, hands_over (k b) B
  | RandomUuid k => forall u, hands_over (k u) B
  | SystemNow k => forall t, hands_over (k t) B
  | Log _ _ _ k => hands_over k B
  end.

Lemma dispatch_hands_over sid raw :
  hands_over (MessageDispatcher_dispatch sid raw) (option_list (requested_event sid raw)).
Proof.
  unfold MessageDispatcher_dispatch, requested_event.
  destruct (json_is_object (json_parse raw)); cbn [negb]; [|done].
  destruct (json_value (json_parse raw) "type" EmptyString) as [type|e]; [cbn|done].
  destruct (String.eqb_spec type "auth") as [->|_]; cbn.
  { destruct (json_value _ _ _); cbn; [|done]. exists []. split; [|done]. apply submseteq_nil_l. }
  destruct (String.eqb_spec type "send_message") as [->|_]; cbn.
  { repeat (match goal with
            | |- context [prog_lift ?r] => destruct r; cbn; [|done]
            end).
    exists []. by split. }
  destruct (String.eqb_spec type "typing") as [->|_]; cbn.
  { repeat (match goal with |- context [prog_lift ?r] => destruct r; cbn; [|done] end).
    exists []. split; [|done]. apply submseteq_nil_l. }
  destruct (String.eqb_spec type "message_read") as [->|_]; cbn; [|done].
  repeat (match goal with |- context [prog_lift ?r] => destruct r; cbn; [|done] end).
  exists []. split; [|done]. apply submseteq_nil_l.
Qed.

Lemma prog_step_hands_over c (s : shared R) p s' p' B :
  hands_over p B -> prog_step c s p = Some (s', p') ->
  exists B', hands_over p' B' /\ head_event p ++ B' ⊆+ B.
Proof.
  intros Hp Hs. destruct p; cbn in Hp, Hs; simplify_eq; try (by exists B).
  - destruct Hp as (B' & HB & Hk). destruct (shared_send env s). simplify_eq. by exists B'.
  - destruct (shared_create m s) as [[b|e] s1]; simplify_eq; by exists B.
Qed.

Definition requested (base : list SendMessageEvent) (w : world R) : Prop :=
  exists Ns, Forall2 hands_over (net w) Ns /\ accepted w ++ concat Ns ⊆+ base.

Lemma worker_step_frame i c (w w' : world R) :
  worker_step i c w = Some w' -> net w' = net w /\ accepted w' = accepted w.
Proof.
  intros Hs. apply worker_step_move in Hs as
    [wk wk' w2 Hi Hrun Hret (_ & _ & _ & _ & Hq & _) Hws Hnet| | | | ]; by split.
Qed.

Lemma step_requested base l (w w' : world R) :
  requested base w -> step l w = Some w' ->
  requested (base ++ option_list (label_event l)) w'.
Proof.
  intros (Ns & HNs & Hsub) Hs. unfold step in Hs. destruct (terminated w); [done|].
  destruct l; simplify_eq; cbn [label_event option_list]; rewrite ?app_nil_r; try (by exists Ns).
  - exists (Ns ++ [option_list (requested_event sessionId rawMessage)]). split.
    + apply Forall2_app; [done|]. constructor; [apply dispatch_hands_over|constructor].
    + cbn. rewrite concat_app. cbn. rewrite app_nil_r, app_assoc.
      by apply submseteq_skips_r.
  - apply net_step_inv in Hs as [(e & _ & ->)|(p & s & p' & Hi & Hp & ->)]; [by exists Ns|].
    destruct (Forall2_lookup_l _ _ _ _ _ HNs Hi) as (B & HB & Hover).
    destruct (prog_step_hands_over _ _ _ _ _ _ Hover Hp) as (B' & Hover' & HB').
    exists (<[i := B']> Ns). split; [by apply Forall2_insert|]. cbn.
    etrans; [|exact Hsub].
    rewrite (concat_insert _ _ _ _ HB), (concat_delete _ _ _ HB).
    rewrite <- app_assoc, (app_assoc (head_event p)).
    by apply submseteq_skips_l, submseteq_skips_r.
  - apply worker_step_frame in Hs as [Hn Ha]. exists Ns. by rewrite Hn, Ha.
  - unfold start_step. destruct (running_ w); by exists Ns.
  - unfold stop_join in Hs. destruct (_ && _); [|done]. simplify_eq. by exists Ns.
Qed.

Lemma run_requested ls base (w w' : world R) :
  requested base w -> run ls w = Some w' -> requested (base ++ omap label_event ls) w'.
Proof.
  revert base w. induction ls as [|l ls IH]; intros base w Hw Hr; cbn in Hr.
  - simplify_eq. by rewrite app_nil_r.
  - destruct (step l w) as [w1|] eqn:Hs; [|done]. cbn in Hr.
    pose proof (IH _ _ (step_requested _ _ _ _ Hw Hs) Hr) as Hreq.
    rewrite <- app_assoc in Hreq.
    replace (omap label_event (l :: ls))
      with (option_list (label_event l) ++ omap label_event ls); [done|].
    cbn. by destruct (label_event l).
Qed.
End provenance.

Section requests.
Context `{JsonLib, UuidLib, LockfreeQueueLaws, ActorOrder} {R : Type}
  `{!MessageRepository R, !MessageRepositorySpec}.

(** C11: every message stored since the start was asked for: it has the
    chat, the sender and the text of a [send_message] object received from a
    websocket during the run, and no request is stored twice. *)
Theorem stored_messages_were_requested ls capacity (r : R) w :
  (0 <= capacity)%Z -> run ls (initial capacity r) = Some w ->
  (key_of_row <$> stored (repository (sh w))) ⊆+
    (key_of_row <$> stored r) ++ (key_of_event <$> omap label_event ls).
Proof.
  intros Hcap Hr.
  assert (requested [] (initial capacity r)) as Hreq.
  { exists []. split; [constructor|]. done. }
  apply (run_requested _ _ _ _ Hreq) in Hr as Hreq'. destruct Hreq' as (Ns & _ & Hsub).
  destruct (run_flow_inv _ _ _ _ _ (flow_inv_initial capacity r Hcap) Hr)
    as (_ & _ & _ & Bs & HBs & Hperm).
  etrans; [|apply submseteq_skips_l, fmap_submseteq;
            etrans; [apply (submseteq_inserts_r (concat Ns)); reflexivity|exact Hsub]].
  rewrite <- Hperm. unfold total, stored_keys. solve_submseteq.
Qed.
End requests.
