(* ===== verification/RuntimeOrder.v ===== *)
(** * The order of messages

    With a single worker thread the pipeline from the message actor to the
    repository is first in, first out. *)
From S2P Require Import Prelude CppString Json Domain Mailbox Actor Handlers Runtime RuntimeInv RuntimeFlow.

Definition same_class (a b : ActorClass) : bool :=
  match a, b with
  | SessionActor, SessionActor | ChatActor, ChatActor
  | MessageActor, MessageActor | StorageActor, StorageActor => true
  | _, _ => false
  end.

Section order.
Context `{JsonLib, UuidLib, LockfreeQueueLaws, ActorOrder} {R : Type}
  `{!MessageRepository R, !MessageRepositorySpec}.
Implicit Types (w : world R) (s : shared R).

(** The keys [B] of a worker, when it runs an actor of class [c]. *)
Definition held (c : ActorClass) (wk : worker) (B : list mkey) : list mkey :=
  match wk with WRun cls _ _ => if same_class cls c then B else [] | _ => [] end.

(** The pipeline with one worker, what left it first at the front. *)
Definition pipeline s (wk : worker) (B : list mkey) : list mkey :=
  stored_keys s ++ held StorageActor wk B ++ queue_keys ActorType.storage s ++
  held ChatActor wk B ++ queue_keys ActorType.chat s ++
  held MessageActor wk B ++ queue_keys ActorType.message s.

Lemma pipeline_nil s wk :
  pipeline s wk [] = stored_keys s ++ queue_keys ActorType.storage s ++
    queue_keys ActorType.chat s ++ queue_keys ActorType.message s.
Proof. unfold pipeline. destruct wk as [| |cls p rest| |]; try done. by destruct cls. Qed.

(** A send by the handler of stage [cls] moves its first keys to the queue
    of the next stage, or loses them. *)
Lemma send_pipeline env s ok s' cls p rest p' B' :
  shared_send env s = (ok, s') ->
  tokens env = [] \/ next_stage cls = Some (destination env) ->
  pipeline s' (WRun cls p' rest) B' `sublist_of` pipeline s (WRun cls p rest) (tokens env ++ B').
Proof.
  intros Hs Hdest. unfold pipeline.
  destruct (shared_send_frame _ _ _ _ Hs) as [-> _].
  rewrite !(queue_keys_send _ _ _ _ _ Hs). cbn [held].
  destruct Hdest as [Ht|Hnext].
  - rewrite Ht. cbn [app]. by destruct (ok && _), (ok && _), (ok && _); rewrite ?app_nil_r.
  - apply sublist_app; [done|].
    destruct cls; cbn in Hnext; try done; injection Hnext as <-;
      cbn [same_class];
      repeat (rewrite bool_decide_true by done || rewrite bool_decide_false by done);
      destruct ok; cbn [andb app]; rewrite ?app_nil_r, <- ?app_assoc; try done.
    + apply sublist_app; [done|]. by apply sublist_inserts_l.
    + do 2 (apply sublist_app; [done|]). by apply sublist_inserts_l.
Qed.

Lemma prog_step_pipeline cls c s p s' p' rest B :
  prog_flow cls p B -> prog_step c s p = Some (s', p') ->
  exists B', prog_flow cls p' B' /\
    pipeline s' (WRun cls p' rest) B' `sublist_of` pipeline s (WRun cls p rest) B.
Proof.
  intros Hf Hs. destruct p; cbn in Hf, Hs; simplify_eq; try (by exists B; split; auto).
  - destruct Hf as (Hdest & B' & -> & Hk).
    destruct (shared_send env s) as [ok s1] eqn:Hsend. simplify_eq.
    exists B'. split; [done|]. by eapply send_pipeline.
  - destruct Hf as (-> & B' & -> & Hk).
    unfold shared_create in Hs.
    destruct (message_create m (repository s)) as [[b|e] r] eqn:Hc; simplify_eq.
    + exists B'. split; [done|]. unfold pipeline. cbn [held same_class].
      destruct b; unfold stored_keys, queue_keys; cbn.
      * rewrite (message_create_true _ _ _ Hc), fmap_app. cbn.
        by rewrite <- app_assoc.
      * rewrite (message_create_false _ _ _ Hc). apply sublist_app; [done|]. by constructor.
    + exists []. split; [done|]. unfold pipeline. cbn [held same_class]. unfold stored_keys, queue_keys; cbn.
      destruct (message_create_throw _ _ _ _ Hc) as [->| ->].
      * apply sublist_app; [done|]. by apply sublist_cons, sublist_inserts_l.
      * rewrite fmap_app. cbn. rewrite <- app_assoc. cbn.
        apply sublist_app; [done|]. constructor. by apply sublist_inserts_l.
Qed.

(** A pop moves the keys of an envelope from the front of its queue into the
    hands of the worker, at the same place of the pipeline. *)
Lemma pop_pipeline key s env acts p rest wk :
  addressed anything (actors_ s) ->
  actors_pop key (actors_ s) = Some (Some env, class_at key, acts) ->
  pipeline (set_actors s acts) (WRun (class_at key) p rest) (tokens env) = pipeline s wk [].
Proof.
  intros Haddr Hp. rewrite pipeline_nil.
  unfold pipeline, stored_keys, queue_keys. cbn [actors_ set_actors repository held].
  pose proof (pop_queued _ _ _ _ _ key Hp) as [Hk _].
  assert (forall k, k <> key -> queued k acts = queued k (actors_ s)) as Hne.
  { intros k. by apply (pop_queued _ _ _ _ _ k Hp). }
  assert (destination env = key) as Hd.
  { apply (Haddr key env). rewrite Hk. apply list_elem_of_here. }
  destruct key; cbn [class_at];
    cbn [same_class];
    rewrite ?Hk, ?bind_cons;
    try rewrite (Hne ActorType.storage) by done; try rewrite (Hne ActorType.chat) by done;
    try rewrite (Hne ActorType.message) by done; cbn [app]; by rewrite <- ?app_assoc.
Qed.

(** A pop that finds nothing, or a step that leaves the queues alone. *)
Lemma queues_pipeline s s' wk wk' :
  stored_keys s' = stored_keys s ->
  (forall key, queued key (actors_ s') = queued key (actors_ s)) ->
  pipeline s' wk' [] = pipeline s wk [].
Proof. intros Hs Hq. rewrite !pipeline_nil. unfold queue_keys. by rewrite Hs, !Hq. Qed.

(** What a network thread does to the pipeline: at most one key at its end. *)
Lemma net_pipeline c s p s' p' wk B :
  net_flow p -> prog_step c s p = Some (s', p') ->
  pipeline s' wk B `sublist_of` pipeline s wk B ++ (key_of_event <$> head_event p).
Proof.
  unfold net_flow. intros Hf Hs.
  destruct p; cbn in Hf, Hs; simplify_eq; try (cbn; by rewrite app_nil_r).
  - destruct Hf as [Ht _]. destruct (shared_send env s) as [ok s1] eqn:Hsend. simplify_eq.
    unfold pipeline. destruct (shared_send_frame _ _ _ _ Hsend) as [-> _].
    rewrite !(queue_keys_send _ _ _ _ _ Hsend).
    assert (tokens env = key_of_event <$> head_event (Send env k)) as <-.
    { destruct env as [[] []]; cbn in Ht |- *; try done; by destruct Ht. }
    destruct Ht as [->|Hd]; [by destruct (ok && _), (ok && _), (ok && _); rewrite ?app_nil_r|].
    rewrite Hd, (bool_decide_true (ActorType.message = _)), !bool_decide_false by done.
    destruct ok; cbn [andb]; rewrite ?app_nil_r, <- ?app_assoc; [done|].
    repeat (apply sublist_app; [done|]). by apply sublist_inserts_r.
  - by destruct Hf.
Qed.

(** At most one worker, and the pipeline in the order of the sends. *)
Definition the_worker (w : world R) : worker := default WStopped (head (workers_ w)).

Definition ordered (base : list mkey) (w : world R) : Prop :=
  length (workers_ w) <= 1 /\ Forall net_flow (net w) /\
  exists B, hand_ok (the_worker w) B /\
    pipeline (sh w) (the_worker w) B `sublist_of` base ++ (key_of_event <$> accepted w).

Lemma only_worker (l : list worker) i wk :
  length l <= 1 -> l !! i = Some wk -> l = [wk] /\ i = 0.
Proof. destruct l as [|? []], i; cbn; intros; simplify_eq; auto; lia. Qed.

Lemma worker_step_ordered base i c w w' :
  addressed anything (actors_ (sh w)) -> classes_ok (actors_ (sh w)) ->
  ordered base w -> worker_step i c w = Some w' -> ordered base w'.
Proof.
  intros Haddr Hcls (Hone & Hnet & B & HB & Hpipe) Hs. apply worker_step_move in Hs as
    [wk wk' w2 Hi Hrun Hret Hq Hws Hn
    |key rest b cls acts Hi Hp|key rest b cls env acts Hi Hp|cls e rest Hi
    |cls p rest s p' Hi Hp];
    try (destruct (only_worker _ _ _ Hone Hi) as [Hl ->];
         unfold the_worker in HB, Hpipe; rewrite Hl in HB, Hpipe; cbn in HB, Hpipe).
  - split; [by rewrite Hws, Hl|]. split; [by rewrite Hn|].
    unfold the_worker. rewrite Hws, Hl. cbn. exists [].
    split; [destruct wk'; try done; by destruct (Hrun cls p rest)|].
    destruct Hq as (Ha & Hr & _ & _ & -> & _). etrans; [|exact Hpipe].
    assert (B = []) as -> by (by destruct wk; try done; rewrite (Hret _ _ _ eq_refl) in HB).
    erewrite queues_pipeline; [done|by unfold stored_keys; rewrite Hr|by intros; rewrite Ha].
  - split; [cbn; by rewrite Hl|]. split; [done|].
    unfold the_worker. cbn. rewrite Hl. cbn. exists []. split; [done|].
    etrans; [|exact Hpipe]. subst B.
    erewrite queues_pipeline; [done|done|].
    intros k. exact (pop_queued _ _ _ _ _ k Hp).
  - pose proof (pop_class _ _ _ _ _ Hcls Hp) as ->.
    assert (destination env = key) as Hd.
    { apply (Haddr key env). rewrite (proj1 (pop_queued _ _ _ _ _ key Hp)). apply list_elem_of_here. }
    split; [cbn; by rewrite Hl|]. split; [done|].
    unfold the_worker. cbn. rewrite Hl. cbn. exists (tokens env).
    split; [rewrite <- Hd; apply handle_flow|].
    etrans; [|exact Hpipe]. subst B. by rewrite (pop_pipeline key (sh w) env acts _ _ (WScan (key :: rest) b)).
  - split; [done|]. split; [done|]. exists B. unfold the_worker. cbn. by rewrite Hl.
  - destruct (prog_step_pipeline _ _ _ _ _ _ rest _ HB Hp) as (B' & HB' & Hsub).
    split; [cbn; by rewrite Hl|]. split; [done|].
    unfold the_worker. cbn. rewrite Hl. cbn. exists B'. split; [done|]. by etrans.
Qed.

Definition starts_no_worker (l : label) : Prop :=
  match l with Start _ => False | _ => True end.

Lemma step_ordered base l w w' :
  starts_no_worker l ->
  addressed anything (actors_ (sh w)) -> classes_ok (actors_ (sh w)) ->
  ordered base w -> step l w = Some w' -> ordered base w'.
Proof.
  intros Hl Haddr Hcls Hinv Hs. unfold step in Hs. destruct (terminated w); [done|].
  destruct l; simplify_eq; try (exact Hinv); [| |by eapply worker_step_ordered|..].
  - destruct Hinv as (Hone & Hnet & Hpipe). split; [done|]. split; [|done].
    apply Forall_app. split; [done|]. apply Forall_singleton, dispatch_flow.
  - destruct Hinv as (Hone & Hnet & B & HB & Hpipe).
    apply net_step_inv in Hs as [(e & _ & ->)|(p & s & p' & Hi & Hp & ->)].
    { split; [done|]. split; [done|]. by exists B. }
    pose proof (Forall_lookup_1 _ _ _ _ Hnet Hi) as Hpflow.
    destruct (net_prog_step_flow _ _ _ _ _ Hpflow Hp) as [Hp' _].
    split; [done|]. split; [by apply Forall_insert|]. exists B. split; [done|]. cbn.
    etrans; [exact (net_pipeline _ _ _ _ _ _ _ Hpflow Hp)|]. rewrite fmap_app, app_assoc.
    by apply sublist_app.
  - by destruct Hl.
  - unfold stop_join in Hs. destruct (_ && _) eqn:Hst; [|done]. simplify_eq.
    destruct Hinv as (Hone & Hnet & B & HB & Hpipe).
    split; [cbn; lia|]. split; [done|]. exists []. split; [done|]. cbn.
    etrans; [|exact Hpipe].
    apply andb_prop in Hst as [_ Hst]. unfold the_worker in *.
    assert (B = []) as ->.
    { destruct (workers_ w) as [|[] ?]; cbn in *; try done. }
    by erewrite queues_pipeline.
  - destruct Hinv as (Hone & Hnet & B & HB & Hpipe). split; [done|]. split; [done|].
    exists B. split; [done|]. etrans; [|exact Hpipe].
    unfold pipeline. cbn [sh set_shared]. by rewrite query_stored.
Qed.

Lemma run_ordered capacity base0 base ls w w' :
  Forall starts_no_worker ls -> flow_inv capacity base0 w ->
  ordered base w -> run ls w = Some w' -> ordered base w'.
Proof.
  intros Hls. revert w. induction Hls as [|l ls Hl Hls IH]; intros w Hf Ho Hr; cbn in Hr.
  - by simplify_eq.
  - destruct (step l w) as [w1|] eqn:Hs; [|done]. cbn in Hr.
    apply (IH w1); [by eapply step_flow_inv| |done].
    destruct Hf as (Hsend & Hreg & _).
    eapply step_ordered; [exact Hl|apply Hsend|by eapply registry_classes|exact Ho|exact Hs].
Qed.

(** C12: with one worker thread messages are stored in the order in which
    they were handed to the message actor: after the start of one worker
    and any run of it, of the network threads and of a shutdown, the
    messages stored since are a subsequence of the events accepted. *)
Theorem one_worker_keeps_order ls capacity (r : R) w :
  (0 <= capacity)%Z -> Forall starts_no_worker ls ->
  run (Start 1 :: ls) (initial capacity r) = Some w ->
  (key_of_row <$> stored (repository (sh w))) `sublist_of`
    (key_of_row <$> stored r) ++ (key_of_event <$> accepted w).
Proof.
  intros Hcap Hls Hr. pose proof (flow_inv_initial capacity r Hcap) as Hf. cbn in Hr.
  assert (flow_inv capacity (key_of_row <$> stored r) (start_step 1 (initial capacity r))) as Hf1
    by exact (step_flow_inv _ _ (Start 1) _ _ Hf eq_refl).
  assert (ordered (key_of_row <$> stored r) (start_step 1 (initial capacity r))) as Ho.
  { split; [done|]. split; [constructor|]. exists []. split; [done|].
    rewrite pipeline_nil. unfold queue_keys, stored_keys. cbn.
    by rewrite !queued_server_actors, !app_nil_r. }
  destruct (run_ordered _ _ _ _ _ _ Hls Hf1 Ho Hr) as (_ & _ & B & _ & Hpipe).
  etrans; [|exact Hpipe]. unfold pipeline, stored_keys. by apply sublist_inserts_r.
Qed.
End order.
