(* ===== verification/RuntimeProgress.v ===== *)
(** * Progress of the actor runtime

    A worker thread left alone empties every mailbox: each step of its loop
    lowers a measure, until nothing is queued and no handler runs, or an
    exception has ended the process. *)
From S2P Require Import Prelude CppString Json Domain Mailbox Actor Handlers Runtime RuntimeInv RuntimeFlow RuntimeOrder.

Section costs.
Context `{JsonLib, UuidLib}.

(** More than the effects the handling of an envelope can cause, those of
    the envelopes it sends included. *)
Definition weight (env : ActorEnvelope) : nat :=
  match destination env with
  | ActorType.session | ActorType.storage => 8
  | ActorType.chat => 40
  | ActorType.message => 60
  end.

Fixpoint prog_cost (p : prog unit) (n : nat) : Prop :=
  match p with
  | Ret _ | Raise _ => True
  | Send env k => exists n', weight env + S n' <= n /\ forall b, prog_cost (k b) n'
  | FindTransport _ k => exists n', S n' <= n /\ forall o, prog_cost (k o) n'
  | LockTransport _ k => exists n', S n' <= n /\ forall b, prog_cost (k b) n'
  | TransportSend _ _ k => exists n', S n' <= n /\ prog_cost k n'
  | RepoCreate _ k => exists n', S n' <= n /\ forall b, prog_cost (k b) n'
  | RandomUuid k => exists n', S n' <= n /\ forall u, prog_cost (k u) n'
  | SystemNow k => exists n', S n' <= n /\ forall t, prog_cost (k t) n'
  | Log _ _ _ k => exists n', S n' <= n /\ prog_cost k n'
  end.

Lemma handle_cost env :
  exists n, n + 2 <= weight env /\ prog_cost (Actor_handle (class_at (destination env)) env) n.
Proof.
  destruct env as [dest pl]. unfold weight. cbn [destination].
  destruct dest; cbn [class_at Actor_handle];
    unfold SessionActor_handle, ChatActor_handle, MessageActor_handle, StorageActor_handle;
    cbn [payload]; destruct pl; try (by exists 0; split; [lia|]).
  - exists 1. split; [lia|]. exists 0. by split; [lia|].
  - exists 6. split; [lia|]. exists 3. split; [lia|]. intros o. destruct o as [t|]; cbn; [|done].
    exists 2. split; [lia|]. intros b. destruct b; cbn; [|done].
    destruct (json_dump _); cbn; [|done]. exists 1. by split; [lia|].
  - exists 38. split; [lia|]. exists 29. split; [cbn; lia|]. intros ?; cbn.
    exists 20. split; [cbn; lia|]. intros ?; cbn.
    destruct (str_empty _); cbn; [exists 0; by split; [lia|]|].
    exists 10. split; [cbn; lia|]. intros ?; cbn. exists 0. by split; [lia|].
  - exists 58. split; [lia|]. exists 10. cbn. split; [lia|by intros []].
  - exists 58. split; [lia|]. exists 10. cbn. by split; [lia|].
  - exists 6. split; [lia|]. exists 5. split; [lia|]. intros u.
    destruct (string_generator (StoragePersistMessage_chatId e)) as [c|?]; cbn; [|done].
    destruct (string_generator (StoragePersistMessage_senderId e)) as [d|?]; cbn; [|done].
    exists 4. split; [lia|]. intros t. exists 3. split; [lia|]. intros b. destruct b; cbn; [done|].
    exists 2. by split; [lia|].
Qed.
End costs.

#[local] Arguments weight : simpl never.

Section progress.
Context `{JsonLib, UuidLib, LockfreeQueueLaws, ActorOrderLaws} {R : Type}
  `{!MessageRepository R, !MessageRepositorySpec}.
Implicit Types (w : world R) (s : shared R).

Definition queue_weight (key : ActorType) s : nat :=
  sum_list_with weight (queued key (actors_ s)).
Definition queues_weight s : nat :=
  queue_weight ActorType.session s + queue_weight ActorType.chat s +
  queue_weight ActorType.message s + queue_weight ActorType.storage s.

Lemma send_weight env s ok s' :
  shared_send env s = (ok, s') -> queues_weight s' <= queues_weight s + weight env.
Proof.
  unfold shared_send. destruct (ActorSystem_send env (actors_ s)) as [b acts] eqn:Hs.
  intros Heq. assert (actors_ s' = acts) as Ha by (by destruct b; simplify_eq/=).
  unfold queues_weight, queue_weight. rewrite Ha, !(send_queued _ _ _ _ _ Hs).
  rewrite !sum_list_with_app.
  destruct b; cbn [andb]; [|cbn; lia].
  destruct (destination env); repeat case_bool_decide; try done; cbn; lia.
Qed.

Lemma pop_weight key s o cls acts :
  actors_pop key (actors_ s) = Some (o, cls, acts) ->
  queues_weight s = queues_weight (set_actors s acts) + from_option weight 0 o.
Proof.
  intros Hp. unfold queues_weight, queue_weight. cbn [set_actors actors_].
  assert (forall k, sum_list_with weight (queued k (actors_ s)) =
    sum_list_with weight (queued k acts) +
    (if decide (k = key) then from_option weight 0 o else 0)) as Hq.
  { intros k. pose proof (pop_queued _ _ _ _ _ k Hp) as Hk. destruct o as [env|].
    - case_decide as Hd; [subst; destruct Hk as [-> _]; cbn; lia|].
      destruct Hk as [_ Hk]. rewrite Hk by done. lia.
    - rewrite Hk. case_decide; cbn; lia. }
  rewrite !Hq. destruct key; repeat case_decide; try done; lia.
Qed.

Lemma effect_work c s p s' p' n :
  prog_cost p n -> prog_step c s p = Some (s', p') ->
  exists n', queues_weight s' + S n' <= queues_weight s + n /\ prog_cost p' n'.
Proof.
  intros Hp Hs. destruct p; cbn in Hp, Hs; simplify_eq;
    try (destruct Hp as (n' & Hle & Hk); exists n'; split; [|by auto];
         unfold queues_weight, queue_weight; cbn; lia).
  - destruct Hp as (n' & Hle & Hk).
    destruct (shared_send env s) as [ok s1] eqn:Hsend. simplify_eq.
    apply send_weight in Hsend. exists n'. split; [lia|done].
  - destruct Hp as (n' & Hle & Hk). unfold shared_create in Hs. exists n'.
    destruct (message_create m (repository s)) as [[[]|e] r]; simplify_eq;
      (split; [unfold queues_weight, queue_weight; cbn; lia|done]).
Qed.

(** What worker 0 has left to do: the weight of the queues, and more than
    the cost of the handler it runs. *)
Definition hand_work (wk : worker) (n : nat) : Prop :=
  match wk with WRun _ p _ => exists m, n = S m /\ prog_cost p m | _ => n = 0 end.
Definition has_work w (n : nat) : Prop :=
  exists wk h, workers_ w = [wk] /\ hand_work wk h /\ n = queues_weight (sh w) + h.

(** Inevitable: whatever the generator and the clock answer, steps of
    worker 0 alone can go on until [P] holds, and have to. *)
Inductive eventually (P : world R -> Prop) : world R -> Prop :=
| eventually_now w : P w -> eventually P w
| eventually_step w :
    (forall c, is_Some (step (WorkerStep 0 c) w)) ->
    (forall c w', step (WorkerStep 0 c) w = Some w' -> eventually P w') ->
    eventually P w.

Lemma eventually_trans P Q w :
  eventually Q w -> (forall w', Q w' -> eventually P w') -> eventually P w.
Proof.
  intros He HQ. induction He as [w Hw|w Hs _ IH]; [auto|]. by apply eventually_step.
Qed.

Lemma eventually_one P w w' :
  (forall c, step (WorkerStep 0 c) w = Some w') -> eventually P w' -> eventually P w.
Proof.
  intros Hs He. apply eventually_step; [intros c; by rewrite Hs|].
  intros c w2. rewrite Hs. by intros [= <-].
Qed.

Section drain.
Context (capacity : Z) (base : list mkey) (done_events : list SendMessageEvent).

(** The only worker of a running system, in a state runs can reach. *)
Record sound w : Prop := {
  sound_running : running_ w = true;
  sound_alive : terminated w = None;
  sound_awake : workers_ w !! 0 <> Some WStopped;
  sound_accepted : accepted w = done_events;
  sound_flow : flow_inv capacity base w
}.

Lemma sound_step c w w' :
  sound w -> step (WorkerStep 0 c) w = Some w' -> is_Some (terminated w') \/ sound w'.
Proof.
  intros [Hr Ha Haw Hacc Hf] Hs. pose proof (step_flow_inv _ _ _ _ _ Hf Hs) as Hf'.
  unfold step in Hs. rewrite Ha in Hs.
  pose proof (worker_step_frame _ _ _ _ Hs) as [_ Hacc'].
  destruct (workers_ w !! 0) as [wk|] eqn:Hi; [|by unfold worker_step in Hs; rewrite Hi in Hs].
  pose proof (lookup_lt_Some _ _ _ Hi) as Hlen.
  assert (is_Some (terminated w') \/ terminated w' = None /\ running_ w' = true /\
    workers_ w' !! 0 <> Some WStopped) as Hw'.
  { revert Hs. unfold worker_step. rewrite Hi. cbn.
    destruct wk as [|[|key rest] b|cls p rest| |]; try done.
    - rewrite Hr. intros [= <-]. right. cbn. by rewrite list_lookup_insert_eq.
    - intros [= <-]. right. cbn. rewrite list_lookup_insert_eq by done. by destruct b.
    - destruct (actors_pop _ _) as [[[[] ?] ?]|]; [..|done]; intros [= <-]; right; cbn;
        by rewrite list_lookup_insert_eq.
    - destruct p; try (intros [= <-]; by left);
        try (match goal with |- (?o ≫= _) = _ -> _ => destruct o as [[]|] end; [|done]);
        intros [= <-]; right; cbn; by rewrite list_lookup_insert_eq.
    - intros [= <-]. right. cbn. by rewrite list_lookup_insert_eq. }
  destruct Hw' as [?|(? & ? & ?)]; [by left|right]. split; congruence.
Qed.

(** The process has ended, or less is left to do. *)
Definition less (n : nat) w : Prop :=
  is_Some (terminated w) \/ sound w /\ exists m, m < n /\ has_work w m.

Lemma pop_total_key w key :
  sound w -> exists o acts, actors_pop key (actors_ (sh w)) = Some (o, class_at key, acts) /\
    match o with
    | Some env => destination env = key
    | None => queued key (actors_ (sh w)) = []
    end.
Proof.
  intros [_ _ _ _ (Hs & Hreg & _)]. pose proof (registry_classes _ _ Hreg) as Hcls.
  destruct Hreg as [Hsh _]. apply (f_equal (fun m => m !! key)) in Hsh.
  rewrite !lookup_fmap, server_actors_lookup in Hsh.
  destruct (actors_ (sh w) !! key) as [a|] eqn:Ha; [|done].
  destruct (pop_front _ _ _ Ha) as [acts Hp]. rewrite (Hcls _ _ Ha) in Hp.
  eexists _, acts. split; [exact Hp|].
  destruct (queued key (actors_ (sh w))) as [|env q] eqn:Hq; [done|].
  apply (inv_queues _ _ Hs key env). rewrite Hq. apply list_elem_of_here.
Qed.

(** A running handler comes closer to its end with each effect. *)
Lemma handler_less w cls p rest n :
  sound w -> workers_ w = [WRun cls p rest] -> prog_cost p n ->
  eventually (less (queues_weight (sh w) + S n)) w.
Proof.
  intros Hw Hi Hp. pose proof (sound_alive _ Hw) as Ha.
  assert (forall c, is_Some (step (WorkerStep 0 c) w)) as Hgo.
  { intros c. unfold step, worker_step. rewrite Ha, Hi. cbn.
    destruct p; try done; cbn; try by eexists.
    - destruct (shared_send env (sh w)); by eexists.
    - destruct (shared_create m (sh w)) as [[]]; by eexists. }
  apply eventually_step; [exact Hgo|]. intros c w' Hs. apply eventually_now.
  destruct (sound_step _ _ _ Hw Hs) as [?|Hw']; [by left|right]. split; [done|].
  unfold step in Hs. rewrite Ha in Hs. apply worker_step_move in Hs.
  assert (forall wk, workers_ w !! 0 = Some wk -> wk = WRun cls p rest) as Hwk
    by (rewrite Hi; cbn; congruence).
  unfold has_work. destruct Hs as
    [wk wk' w2 Hi' Hrun Hret (Hq & _) Hws Hnet
    |key rest' b cls' acts Hi' Hpop|key rest' b cls' env acts Hi' Hpop|cls' e rest' Hi'
    |cls' p' rest' s p2 Hi' Hstep]; apply Hwk in Hi'; simplify_eq/=.
  - exists (queues_weight (sh w)). split; [lia|]. exists wk', 0. rewrite Hws, Hi. cbn.
    split; [done|]. split; [destruct wk'; try done; by destruct (Hrun cls0 p0 rest0)|].
    unfold queues_weight, queue_weight. rewrite Hq. lia.
  - by apply sound_alive in Hw'.
  - destruct (effect_work _ _ _ _ _ _ Hp Hstep) as (n' & Hn' & Hp').
    exists (queues_weight s + S n'). split; [lia|]. rewrite Hi. cbn.
    eexists _, (S n'). split; [done|]. split; [cbn; eauto|done].
Qed.

(** A scan finds the next envelope, or nothing at all. *)
Definition at_top acts w : Prop :=
  sound w /\ workers_ w = [WTop] /\ forall key, queued key (actors_ (sh w)) = queued key acts.

Lemma loop_step P w w' :
  sound w -> (forall c, worker_step 0 c w = Some w') -> terminated w' = None ->
  (sound w' -> eventually P w') -> eventually P w.
Proof.
  intros Hw Hs Ht HP.
  assert (forall c, step (WorkerStep 0 c) w = Some w') as Hs'.
  { intros c. unfold step. by rewrite (sound_alive _ Hw). }
  apply eventually_step; [intros c; by rewrite Hs'|]. intros c w2 Hw2.
  rewrite Hs' in Hw2. simplify_eq.
  destruct (sound_step c _ _ Hw (Hs' _)) as [Hx|]; [rewrite Ht in Hx; by destruct Hx|auto].
Qed.

Lemma scan_all rest b w :
  sound w -> workers_ w = [WScan rest b] ->
  eventually (fun w' => less (queues_weight (sh w)) w' \/
    (at_top (actors_ (sh w)) w' /\ forall key, key ∈ rest -> queued key (actors_ (sh w)) = [])) w.
Proof.
  revert b w. induction rest as [|key rest IH]; intros b w Hw Hi.
  - assert (forall w', sound w' -> workers_ w' = [WTop] -> sh w' = sh w ->
      eventually (fun w' => less (queues_weight (sh w)) w' \/
        (at_top (actors_ (sh w)) w' /\
         forall key, key ∈ [] -> queued key (actors_ (sh w)) = [])) w') as Htop.
    { intros w' Hw' Hi' Hsh. apply eventually_now. right. rewrite <- Hsh.
      split; [done|]. by intros ? ?%elem_of_nil. }
    destruct b.
    + eapply (loop_step _ _ (set_worker w 0 WTop)); [done| |by apply Hw|].
      { intros c. unfold worker_step. by rewrite Hi. }
      intros Hw'. apply Htop; [done| |done]. cbn. by rewrite Hi.
    + eapply (loop_step _ _ (set_worker w 0 WSleep)); [done| |by apply Hw|].
      { intros c. unfold worker_step. by rewrite Hi. }
      intros Hw'.
      eapply (loop_step _ _ (set_worker (set_worker w 0 WSleep) 0 WTop)); [done| |by apply Hw|].
      { intros c. unfold worker_step. cbn. by rewrite Hi. }
      intros Hw''. apply Htop; [done| |done]. cbn. by rewrite Hi.
  - destruct (pop_total_key w key Hw) as (o & acts & Hp & Ho).
    pose proof (pop_weight _ _ _ _ _ Hp) as Hweight. destruct o as [env|].
    + eapply (loop_step _ _ (set_worker (set_shared w (set_actors (sh w) acts)) 0
        (WRun (class_at key) (Actor_handle (class_at key) env) rest))); [done| |by apply Hw|].
      { intros c. unfold worker_step. rewrite Hi. cbn. by rewrite Hp. }
      intros Hw'. apply eventually_now. left. right. split; [done|].
      destruct (handle_cost env) as (n & Hn & Hcost). rewrite Ho in Hcost.
      cbn in Hweight. eexists. split; [|eexists _, (S n); cbn; rewrite Hi].
      2: { split; [done|]. split; [by exists n|done]. }
      lia.
    + assert (forall k, queued k acts = queued k (actors_ (sh w))) as Hq
        by (intros k; by apply (pop_queued _ _ _ _ _ k Hp)).
      eapply (loop_step _ _ (set_worker (set_shared w (set_actors (sh w) acts)) 0
        (WScan rest b))); [done| |by apply Hw|].
      { intros c. unfold worker_step. rewrite Hi. cbn. by rewrite Hp. }
      intros Hw'. eapply eventually_trans; [apply (IH b); [done|cbn; by rewrite Hi]|].
      intros w' [Hless|[(Hs & Ht & Hsame) Hrest]]; apply eventually_now; cbn in *.
      * left. cbn in Hweight. by rewrite Hweight, Nat.add_0_r.
      * right. split; [split; [done|]; split; [done|]; intros k; by rewrite Hsame|].
        intros k [->|Hk]%elem_of_cons; [done|]. rewrite <- Hq. auto.
Qed.

(** Everything handled: all mailboxes empty and no handler running. *)
Definition drained w : Prop :=
  is_Some (terminated w) \/
  sound w /\ settled w /\ queued ActorType.session (actors_ (sh w)) = [].

Lemma top_less w :
  sound w -> workers_ w = [WTop] ->
  eventually (fun w' => less (queues_weight (sh w)) w' \/ drained w') w.
Proof.
  intros Hw Hi. eapply (loop_step _ _ (set_worker w 0
    (WScan (iteration (dom (actors_ (sh w)))) false))); [done| |by apply Hw|].
  { intros c. unfold worker_step. rewrite Hi. cbn. by rewrite (sound_running _ Hw). }
  intros Hw'. eapply eventually_trans; [apply (scan_all (iteration (dom (actors_ (sh w)))) false); [done|cbn; by rewrite Hi]|].
  intros w' [Hless|[(Hs & Ht & Hsame) Hrest]]; apply eventually_now; [by left|].
  right. right. split; [done|]. cbn in *.
  assert (forall key, queued key (actors_ (sh w')) = []) as Hnil.
  { intros key. rewrite Hsame. apply Hrest. rewrite iteration_perm.
    apply elem_of_elements, elem_of_dom.
    destruct (pop_total_key w key Hw) as (o & acts & Hp & _). unfold actors_pop in Hp.
    destruct (actors_ (sh w) !! key); [done|discriminate]. }
  split; [|done]. split; [|done]. intros cls p rest. rewrite Ht.
  by intros ?%list_elem_of_singleton.
Qed.

Lemma loop_less w wk :
  sound w -> workers_ w = [wk] -> (forall cls p rest, wk <> WRun cls p rest) ->
  eventually (fun w' => less (queues_weight (sh w)) w' \/ drained w') w.
Proof.
  intros Hw Hi Hrun. destruct wk as [|rest b|cls p rest| |]; try done.
  - by apply top_less.
  - eapply eventually_trans; [by eapply scan_all|].
    intros w' [Hless|[(Hs & Ht & Hsame) _]]; [by apply eventually_now; left|].
    assert (queues_weight (sh w) = queues_weight (sh w')) as ->.
    { unfold queues_weight, queue_weight. by rewrite !Hsame. }
    by apply top_less.
  - by destruct (Hrun cls p rest).
  - eapply (loop_step _ _ (set_worker w 0 WTop)); [done| |by apply Hw|].
    { intros c. unfold worker_step. by rewrite Hi. }
    intros Hw'. apply (top_less _ Hw'). cbn. by rewrite Hi.
  - destruct (sound_awake _ Hw). by rewrite Hi.
Qed.

Lemma work_drains n w : sound w -> has_work w n -> eventually drained w.
Proof.
  revert w. induction n as [n IH] using lt_wf_ind. intros w Hw (wk & h & Hi & Hh & ->).
  assert (forall w', less (queues_weight (sh w) + h) w' -> eventually drained w') as Hless.
  { intros w' [?|(Hw' & m & Hlt & Hm)]; [by apply eventually_now; left|by eapply IH]. }
  assert ((forall cls p rest, wk <> WRun cls p rest) -> eventually drained w) as Hloop.
  { intros Hrun. eapply eventually_trans; [exact (loop_less _ _ Hw Hi Hrun)|].
    intros w' [Hl|Hd]; [apply Hless|by apply eventually_now].
    assert (h = 0) as -> by (by destruct wk; try done; destruct (Hrun cls p rest)).
    by rewrite Nat.add_0_r. }
  destruct wk as [| |cls p rest| |]; try (by apply Hloop).
  destruct Hh as (m & -> & Hp).
  eapply eventually_trans; [by eapply handler_less|exact Hless].
Qed.

(** A handler comes to its end, whatever it has already done. *)
Definition handler_over w : Prop :=
  is_Some (terminated w) \/ sound w /\ exists wk, workers_ w = [wk] /\ hand_work wk 0.

Lemma raise_ends cls e rest w :
  sound w -> workers_ w = [WRun cls (Raise e) rest] -> eventually handler_over w.
Proof.
  intros Hw Hi. assert (forall c, step (WorkerStep 0 c) w = Some (terminate w e)) as Hs.
  { intros c. unfold step, worker_step. by rewrite (sound_alive _ Hw), Hi. }
  eapply eventually_one; [exact Hs|]. apply eventually_now. by left.
Qed.

Lemma handler_ends cls p rest w :
  sound w -> workers_ w = [WRun cls p rest] -> eventually handler_over w.
Proof.
  revert w. induction p; intros w Hw Hi; pose proof (sound_alive _ Hw) as Ha;
    (apply eventually_step;
     [intros c; unfold step, worker_step; rewrite Ha, Hi; cbn;
      try destruct (shared_send _ _); try destruct (shared_create _ _) as [[]]; by eexists|
      intros c w' Hs; pose proof (sound_step _ _ _ Hw Hs) as [?|Hw'];
      [by apply eventually_now; left|];
      unfold step, worker_step in Hs; rewrite Ha, Hi in Hs; cbn in Hs;
      try destruct (shared_send _ _); try destruct (shared_create _ _) as [[]];
      simplify_eq/=]);
    try match goal with
        | IH : _ |- eventually _ _ => eapply IH; [exact Hw'|cbn; by rewrite Hi]
        end.
  - apply eventually_now. right. split; [done|]. eexists. cbn. by rewrite Hi.
  - by apply sound_alive in Hw'.
  - eapply raise_ends; [exact Hw'|cbn; by rewrite Hi].
Qed.
End drain.

(** A single worker thread finishes its work. From any state a run of
    the system reaches with the system running and one worker in its loop,
    that worker alone comes, after finitely many steps and whatever the
    identifier generator and the clock answer, to a state with every mailbox
    empty and no handler running, unless an exception ends the process; and
    then each event accepted is stored exactly once or accounted for by a
    false answer of [send] or of the repository. *)
Theorem one_worker_drains ls capacity (r : R) w wk :
  (0 <= capacity)%Z -> run ls (initial capacity r) = Some w ->
  running_ w = true -> terminated w = None -> workers_ w = [wk] -> wk <> WStopped ->
  eventually (fun w' =>
    is_Some (terminated w') \/
    (forall key, queued key (actors_ (sh w')) = []) /\ settled w' /\
    accepted w' = accepted w /\
    (key_of_row <$> stored (repository (sh w'))) ++ lost_keys (sh w') ≡ₚ
      (key_of_row <$> stored r) ++ (key_of_event <$> accepted w)) w.
Proof.
  intros Hcap Hr Hrun Halive Hi Hwk.
  pose proof (run_flow_inv _ _ _ _ _ (flow_inv_initial capacity r Hcap) Hr) as Hf.
  assert (sound capacity (key_of_row <$> stored r) (accepted w) w) as Hw.
  { split; try done. rewrite Hi. cbn. congruence. }
  apply (eventually_trans _ (drained capacity (key_of_row <$> stored r) (accepted w))).
  - assert (forall w', handler_over capacity (key_of_row <$> stored r) (accepted w) w' ->
      eventually (drained capacity (key_of_row <$> stored r) (accepted w)) w') as Hnext.
    { intros w' [?|(Hw' & wk' & Hi' & Hh)]; [by apply eventually_now; left|].
      eapply work_drains; [done|]. by exists wk', 0. }
    destruct wk as [| |cls p rest| |];
      try (apply Hnext; right; split; [done|]; eexists; split; [exact Hi|done]).
    eapply eventually_trans; [by eapply handler_ends|exact Hnext].
  - intros w' [?|(Hw' & Hset & Hsess)]; apply eventually_now; [by left|right].
    destruct (sound_flow _ _ _ _ Hw') as (_ & _ & Hcons).
    pose proof (conserved_settled _ _ Hcons Hset) as Hperm.
    rewrite (sound_accepted _ _ _ _ Hw') in Hperm.
    split_and!; [|done|by apply Hw'|exact Hperm].
    destruct Hset as (_ & ? & ? & ?). by intros [].
Qed.
End progress.
