(* ===== verification/RuntimeFair.v ===== *)
(** * Fair schedules of the actor runtime

    Any number of workers and of dispatches in progress, scheduled in any
    order in which each of them gets its turns, come to rest: a bound on what
    all threads have left to do never grows, and falls whenever a thread does
    more than turn in its loop; while something is left, one that does so
    gets a turn. *)
From S2P Require Import Prelude CppString Json Domain Mailbox Actor Handlers Runtime RuntimeInv RuntimeFlow RuntimeOrder RuntimeProgress Schedule.

#[local] Arguments weight : simpl never.

Section fairness.
Context `{JsonLib, UuidLib, LockfreeQueueLaws, ActorOrderLaws} {R : Type}
  `{!MessageRepository R, !MessageRepositorySpec}.
Implicit Types (w : world R).

(** ** What is left to do *)

(** [n] bounds what all threads together have left to do. *)
Definition work w (n : nat) : Prop :=
  exists hs ns, Forall2 hand_work (workers_ w) hs /\ Forall2 prog_cost (net w) ns /\
    queues_weight (sh w) + sum_list hs + sum_list ns <= n.

Lemma work_mono w n m : n <= m -> work w n -> work w m.
Proof. intros Hle (hs & ns & ? & ? & ?). exists hs, ns. split_and!; [done..|lia]. Qed.

Lemma work_frame w w' n :
  actors_ (sh w') = actors_ (sh w) -> workers_ w' = workers_ w -> net w' = net w ->
  work w n -> work w' n.
Proof. unfold work, queues_weight, queue_weight. by intros -> -> ->. Qed.

(** Worker [i], or the [i]-th dispatch, goes on with [k'] left instead of [k]. *)
Lemma worker_work w w' i wk wk' n :
  workers_ w !! i = Some wk -> workers_ w' = <[i := wk']> (workers_ w) -> net w' = net w ->
  work w n ->
  exists k, hand_work wk k /\ forall k' m, hand_work wk' k' ->
    queues_weight (sh w') + k' + m <= queues_weight (sh w) + k ->
    exists n', n' + m <= n /\ work w' n'.
Proof.
  intros Hi Hws Hnet (hs & ns & Hhs & Hns & Hle).
  destruct (Forall2_insert_sum _ _ _ _ _ Hhs Hi) as (k & Hk & Hins).
  exists k. split; [done|]. intros k' m Hk' Hm.
  destruct (Hins _ _ Hk') as (hs' & Hhs' & Hsum).
  exists (queues_weight (sh w') + sum_list hs' + sum_list ns). split; [lia|].
  exists hs', ns. rewrite Hws, Hnet. done.
Qed.

Lemma net_work w w' i p p' n :
  net w !! i = Some p -> net w' = <[i := p']> (net w) -> workers_ w' = workers_ w ->
  work w n ->
  exists k, prog_cost p k /\ forall k' m, prog_cost p' k' ->
    queues_weight (sh w') + k' + m <= queues_weight (sh w) + k ->
    exists n', n' + m <= n /\ work w' n'.
Proof.
  intros Hi Hnet Hws (hs & ns & Hhs & Hns & Hle).
  destruct (Forall2_insert_sum _ _ _ _ _ Hns Hi) as (k & Hk & Hins).
  exists k. split; [done|]. intros k' m Hk' Hm.
  destruct (Hins _ _ Hk') as (ns' & Hns' & Hsum).
  exists (queues_weight (sh w') + sum_list hs + sum_list ns'). split; [lia|].
  exists hs, ns'. rewrite Hws, Hnet. done.
Qed.

(** ** The steps of the threads *)

Definition thread_label (l : label) : bool :=
  match l with WorkerStep _ _ | NetStep _ _ => true | _ => false end.

(** The thread has an effect or an envelope before it, and is not merely
    turning in its loop. *)
Definition busy (l : label) w : bool :=
  match l with
  | WorkerStep i _ =>
      match workers_ w !! i with
      | Some (WRun _ _ _) => true
      | Some (WScan (key :: _) _) =>
          match queued key (actors_ (sh w)) with [] => false | _ => true end
      | _ => false
      end
  | NetStep i _ => match net w !! i with None | Some (Ret _) => false | _ => true end
  | _ => false
  end.

Lemma quiet_weight w w' : quiet_step w w' -> queues_weight (sh w') = queues_weight (sh w).
Proof. intros (Ha & _). unfold queues_weight, queue_weight. by rewrite Ha. Qed.

(** A step of a thread leaves at most as much to do, a busy one less. *)
Definition lowers (l : label) w w' (n : nat) : Prop :=
  is_Some (terminated w') \/ exists n', n' + (if busy l w then 1 else 0) <= n /\ work w' n'.

Lemma worker_lowers i c w w' n :
  addressed anything (actors_ (sh w)) -> classes_ok (actors_ (sh w)) ->
  work w n -> worker_step i c w = Some w' -> lowers (WorkerStep i c) w w' n.
Proof.
  intros Haddr Hcls Hw Hs. unfold lowers, busy. apply worker_step_move in Hs as
    [wk wk' w2 Hi Hrun Hret Hq Hws Hnet Hscan
    |key rest b cls acts Hi Hp|key rest b cls env acts Hi Hp|cls e rest Hi
    |cls p rest s p' Hi Hp]; rewrite Hi.
  - right. destruct (worker_work _ _ _ _ _ _ Hi Hws Hnet Hw) as (k & Hk & Hwork).
    apply (Hwork 0); [by destruct wk'; try done; destruct (Hrun cls p rest)|].
    rewrite (quiet_weight _ _ Hq). destruct wk as [|[|key rest] b|cls p rest| |]; cbn in *;
      try lia; [by destruct (Hscan key rest b)|destruct Hk as (m & -> & _); lia].
  - rewrite (pop_empty _ _ _ _ Hp). right.
    destruct (worker_work w (set_worker (set_shared w (set_actors (sh w) acts)) i (WScan rest b))
      _ _ _ _ Hi eq_refl eq_refl Hw) as (k & Hk & Hwork).
    cbn in Hk. subst k. apply (Hwork 0); [done|].
    pose proof (pop_weight _ _ _ _ _ Hp) as Hweight. cbn in *. lia.
  - rewrite (proj1 (pop_queued _ _ _ _ _ key Hp)). right.
    pose proof (pop_class _ _ _ _ _ Hcls Hp) as ->.
    assert (destination env = key) as <-.
    { apply (Haddr key env). rewrite (proj1 (pop_queued _ _ _ _ _ key Hp)). apply list_elem_of_here. }
    destruct (worker_work w (set_worker (set_shared w (set_actors (sh w) acts)) i
      (WRun (class_at (destination env)) (Actor_handle (class_at (destination env)) env) rest))
      _ _ _ _ Hi eq_refl eq_refl Hw) as (k & Hk & Hwork).
    cbn in Hk. subst k. destruct (handle_cost env) as (m & Hm & Hcost).
    apply (Hwork (S m)); [by exists m|].
    pose proof (pop_weight _ _ _ _ _ Hp) as Hweight. cbn in *. lia.
  - left. by eexists.
  - right. destruct (worker_work w (set_worker (set_shared w s) i (WRun cls p' rest))
      _ _ _ _ Hi eq_refl eq_refl Hw) as (k & (m & -> & Hcost) & Hwork).
    destruct (effect_work _ _ _ _ _ _ Hcost Hp) as (m' & Hm' & Hcost').
    apply (Hwork (S m')); [by exists m'|]. cbn. lia.
Qed.

Lemma net_lowers i c w w' n :
  work w n -> net_step i c w = Some w' -> lowers (NetStep i c) w w' n.
Proof.
  intros Hw Hs. unfold lowers, busy.
  apply net_step_inv in Hs as [(e & _ & ->)|(p & s & p' & Hi & Hp & ->)]; [left; by eexists|].
  rewrite Hi. right.
  set (w' := mkWorld s (running_ w) (workers_ w) (<[i := p']> (net w))
    (accepted w ++ head_event p) (terminated w)).
  destruct (net_work w w' _ _ _ _ Hi eq_refl eq_refl Hw) as (k & Hcost & Hwork).
  destruct (effect_work _ _ _ _ _ _ Hcost Hp) as (m' & Hm' & Hcost').
  destruct p; try done; apply (Hwork m'); cbn; (done || lia).
Qed.

(** Every reachable state has such a bound. *)
Lemma dispatch_cost sid raw : prog_cost (MessageDispatcher_dispatch sid raw) 61.
Proof.
  unfold MessageDispatcher_dispatch. case_match; [cbn; exists 0; by split; [lia|]|].
  repeat match goal with
  | |- prog_cost (prog_lift ?r ≫= _) _ => destruct r; cbn; [|done]
  | |- prog_cost (if ?b then _ else _) _ => destruct b; cbn
  | |- exists _, weight _ + _ <= _ /\ _ => exists 0; split; [unfold weight; cbn; lia|done]
  | _ => done
  end.
Qed.

Definition measured w : Prop := is_Some (terminated w) \/ exists n, work w n.

Lemma step_measured capacity base l w w' :
  flow_inv capacity base w -> measured w -> step l w = Some w' -> measured w'.
Proof.
  intros (Hsends & Hreg & _) [[e He]|[n Hn]] Hs; [unfold step in Hs; by rewrite He in Hs|].
  assert (forall l, lowers l w w' n -> measured w') as Hlow.
  { intros l' [?|(n' & _ & ?)]; [by left|right; by exists n']. }
  unfold step in Hs. destruct (terminated w); [done|].
  destruct l; simplify_eq; try (right; exists n; by apply (work_frame w)).
  - right. destruct Hn as (hs & ns & Hhs & Hns & Hle).
    exists (n + 61), hs, (ns ++ [61]). split; [done|]. split.
    + cbn. apply Forall2_app; [done|]. by repeat constructor; apply dispatch_cost.
    + cbn. rewrite sum_list_with_app. cbn. unfold queues_weight, queue_weight in *. lia.
  - eapply Hlow, net_lowers; eauto.
  - eapply Hlow, worker_lowers; eauto using registry_classes. apply Hsends.
  - right. unfold start_step. destruct (running_ w); [by exists n|].
    destruct Hn as (hs & ns & Hhs & Hns & Hle).
    exists n, (hs ++ replicate workerThreads 0), ns. cbn. split_and!; [|done|].
    + apply Forall2_app; [done|]. apply Forall2_replicate. done.
    + rewrite sum_list_with_app, sum_list_replicate. unfold queues_weight, queue_weight in *.
      cbn in *. lia.
  - right. unfold stop_join in Hs. destruct (_ && _); [|done]. simplify_eq.
    destruct Hn as (hs & ns & Hhs & Hns & Hle). exists n, [], ns. cbn.
    split_and!; [constructor|done|]. unfold queues_weight, queue_weight in *. cbn in *. lia.
Qed.

Lemma run_measured capacity (r : R) ls w :
  (0 <= capacity)%Z -> run ls (initial capacity r) = Some w -> measured w.
Proof.
  intros Hcap Hr.
  apply (run_invariant (fun w => flow_inv capacity (key_of_row <$> stored r) w /\ measured w)
    ls (initial capacity r) w); [| |exact Hr].
  - intros l w1 w2 [Hf Hm] Hs. split; [by eapply step_flow_inv|by eapply step_measured].
  - split; [by apply flow_inv_initial|]. right. exists 0, [], [].
    split_and!; [constructor..|]. unfold queues_weight, queue_weight. cbn.
    by rewrite !queued_server_actors.
Qed.

(** ** Hosts of the actor system *)

(** The threads and the mailboxes are as they were, unless the process ended. *)
Definition undisturbed w w' : Prop :=
  is_Some (terminated w') \/
  terminated w' = None /\ running_ w' = running_ w /\ workers_ w' = workers_ w /\
  net w' = net w /\ actors_ (sh w') = actors_ (sh w).

(** A system with the actor system inside. A quiet turn of it is a turn of a
    worker or of a dispatch, or it leaves these undisturbed. The actor system
    is such a system itself, and the server is one. *)
Class ActorHost (capacity : Z) (base : list mkey) (S L : Type) := {
  host_step : L -> S -> option S;
  host_world : S -> world R;
  host_thread : L -> option label;
  host_quiet : L -> Prop;
  host_inv : S -> Prop;
  host_flow (s : S) : host_inv s -> flow_inv capacity base (host_world s);
  host_over l (s : S) : is_Some (terminated (host_world s)) -> host_step l s = None;
  host_stays l (s : S) : host_quiet l -> host_inv s -> host_inv (tick host_step l s);
  host_turn l (s : S) : host_quiet l -> host_inv s ->
    match host_thread l with
    | Some t => thread_label t = true /\
        host_world (tick host_step l s) = tick step t (host_world s)
    | None => undisturbed (host_world s) (host_world (tick host_step l s))
    end
}.

(** ** Coming to rest *)

Definition is_idle (wk : worker) : bool := match wk with WRun _ _ _ => false | _ => true end.

Section rest.
Context (capacity : Z) (base : list mkey) (nw nn i0 : nat).

(** A running system in a state runs can reach, with [nw] workers, [i0] one
    that has not left its loop, and [nn] dispatches. *)
Record fit w : Prop := {
  fit_running : running_ w = true;
  fit_alive : terminated w = None;
  fit_flow : flow_inv capacity base w;
  fit_workers : length (workers_ w) = nw;
  fit_net : length (net w) = nn;
  fit_awake : exists wk, workers_ w !! i0 = Some wk /\ wk <> WStopped
}.

Lemma worker_frame i c w w' :
  running_ w = true -> worker_step i c w = Some w' -> terminated w' = None ->
  running_ w' = true /\ net w' = net w /\
  exists wk, workers_ w' = <[i := wk]> (workers_ w) /\ wk <> WStopped.
Proof.
  intros Hr Hs Ht. unfold worker_step in Hs. destruct (workers_ w !! i) as [wk|]; [|done].
  cbn in Hs. destruct wk as [|[|key rest] b|cls p rest| |]; try done.
  - rewrite Hr in Hs. simplify_eq/=. split_and!; [done..|]. by eexists.
  - simplify_eq/=. split_and!; [done..|]. exists (if b then WTop else WSleep). by destruct b.
  - destruct (actors_pop _ _) as [[[[] ?] ?]|]; [..|done]; simplify_eq/=;
      (split_and!; [done..|]; by eexists).
  - destruct p; try (match type of Hs with (?o ≫= _) = _ => destruct o as [[]|]; [|done] end);
      simplify_eq/=; (split_and!; [done..|]; by eexists).
  - simplify_eq/=. split_and!; [done..|]. by eexists.
Qed.

Lemma fit_step l w w' :
  fit w -> thread_label l = true -> step l w = Some w' ->
  is_Some (terminated w') \/ fit w'.
Proof.
  intros [Hr Ha Hf Hw Hn (wk0 & Hi0 & Hwk0)] Hl Hs.
  pose proof (step_flow_inv _ _ _ _ _ Hf Hs) as Hf'.
  destruct (terminated w') eqn:Ht; [left; by eexists|right].
  unfold step in Hs. rewrite Ha in Hs. destruct l; try done.
  - apply net_step_inv in Hs as [(e & _ & ->)|(p & s & p' & Hi & Hp & ->)]; [done|].
    split; cbn; rewrite ?length_insert; eauto.
  - destruct (worker_frame _ _ _ _ Hr Hs) as (Hr' & Hn' & wk & Hws & Hwk); [done|].
    split; rewrite ?Hn', ?Hws, ?length_insert; auto.
    destruct (decide (i = i0)) as [->|Hne].
    + exists wk. split; [|done]. apply list_lookup_insert_eq. by eapply lookup_lt_Some.
    + exists wk0. by rewrite list_lookup_insert_ne.
Qed.

Lemma fit_lookup w key :
  fit w -> exists a, actors_ (sh w) !! key = Some a.
Proof.
  intros [_ _ (_ & [Hsh _] & _) _ _ _]. apply (f_equal (fun m => m !! key)) in Hsh.
  rewrite !lookup_fmap, server_actors_lookup in Hsh.
  destruct (actors_ (sh w) !! key) as [a|]; [by exists a|done].
Qed.

Lemma busy_enabled l w : fit w -> busy l w = true -> is_Some (step l w).
Proof.
  intros Hs Hb. unfold step. rewrite (fit_alive _ Hs). unfold busy in Hb.
  destruct l; try done.
  - unfold net_step. destruct (net w !! i) as [p|]; [|done]. cbn.
    destruct p; try done; cbn; try by eexists.
    + destruct (shared_send env (sh w)); by eexists.
    + destruct (shared_create m (sh w)) as [[]]; by eexists.
  - unfold worker_step. destruct (workers_ w !! i) as [[|[|key rest] b|cls p rest| |]|];
      try done; cbn.
    + destruct (fit_lookup w key Hs) as [a Ha].
      destruct (pop_front _ _ _ Ha) as [acts Hp]. rewrite Hp. cbn.
      destruct (head _); by eexists.
    + destruct p; try done; cbn; try by eexists.
      * destruct (shared_send env (sh w)); by eexists.
      * destruct (shared_create m (sh w)) as [[]]; by eexists.
Qed.

(** A turn of a thread leaves at most as much to do, and a turn of a busy
    one less. *)
Lemma fit_tick l w n :
  fit w -> thread_label l = true -> work w n ->
  is_Some (terminated (tick step l w)) \/
  fit (tick step l w) /\ exists n', n' + (if busy l w then 1 else 0) <= n /\ work (tick step l w) n'.
Proof.
  intros Hs Hl Hw. unfold tick. destruct (step l w) as [w'|] eqn:Hstep; cbn.
  - destruct (fit_step _ _ _ Hs Hl Hstep) as [?|Hs']; [by left|].
    pose proof (fit_flow _ Hs) as (Hsends & Hreg & _).
    assert (lowers l w w' n) as [?|Hlow]; [|by left|by right].
    unfold step in Hstep. rewrite (fit_alive _ Hs) in Hstep.
    destruct l; try done; [by eapply net_lowers|].
    eapply worker_lowers; eauto using registry_classes. apply Hsends.
  - destruct (busy l w) eqn:Hb.
    + destruct (busy_enabled _ _ Hs Hb) as [? Hx]. congruence.
    + right. split; [done|]. exists n. split; [lia|done].
Qed.

(** ** Waiting for a thread *)

(** How many turns of its own bring a worker to the mailbox of [key]. *)
Definition scan_length : nat := length (iteration (dom (server_actors capacity))).
Definition rank (key : ActorType) (wk : worker) : nat :=
  match wk with
  | WScan rest _ => if decide (key ∈ rest) then length rest else length rest + 3 + scan_length
  | WTop => S scan_length
  | WSleep => S (S scan_length)
  | WRun _ _ _ | WStopped => 0
  end.

Lemma fit_scan w : fit w -> dom (actors_ (sh w)) = dom (server_actors capacity).
Proof.
  intros [_ _ (_ & [Hsh _] & _) _ _ _]. apply (f_equal dom) in Hsh.
  by rewrite !dom_fmap_L in Hsh.
Qed.

Lemma scanned key : key ∈ iteration (dom (server_actors capacity)).
Proof.
  rewrite iteration_perm. apply elem_of_elements, elem_of_dom.
  by rewrite server_actors_lookup.
Qed.

(** What a turn of a worker that is not busy does. *)
Lemma idle_turn i c w wk :
  fit w -> workers_ w !! i = Some wk -> wk <> WStopped ->
  busy (WorkerStep i c) w = false ->
  exists wk' w', step (WorkerStep i c) w = Some w' /\
    workers_ w' = <[i := wk']> (workers_ w) /\ net w' = net w /\
    (forall key, queued key (actors_ (sh w')) = queued key (actors_ (sh w))) /\
    wk' <> WStopped /\ is_idle wk' = true /\
    forall key, queued key (actors_ (sh w)) <> [] -> rank key wk' < rank key wk.
Proof.
  intros Hs Hi Hwk Hb. unfold step, worker_step. rewrite (fit_alive _ Hs), Hi. cbn.
  unfold busy in Hb. rewrite Hi in Hb.
  destruct wk as [|[|key rest] b|cls p rest| |]; try done.
  - rewrite (fit_running _ Hs), (fit_scan _ Hs).
    eexists _, _. split_and!; [done..|]. intros key _. cbn.
    rewrite decide_True by apply scanned. unfold scan_length. lia.
  - eexists _, _. split_and!; [done..| | |]; [by destruct b..|]. intros key _. cbn.
    rewrite decide_False by apply not_elem_of_nil. destruct b; cbn; lia.
  - destruct (queued key (actors_ (sh w))) eqn:Hq; [|done].
    destruct (fit_lookup w key Hs) as [a Ha]. destruct (pop_front _ _ _ Ha) as [acts Hp].
    rewrite Hq in Hp. rewrite Hp. cbn. eexists _, _. split_and!; [done..| |done|done|].
    { intros k. cbn. by apply (pop_queued _ _ _ _ _ k Hp). }
    intros k Hk. assert (k <> key) by congruence. cbn.
    destruct (decide (k ∈ rest)) as [Hin|Hin].
    + rewrite decide_True by by apply list_elem_of_further. cbn. lia.
    + rewrite decide_False by (rewrite elem_of_cons; tauto). cbn. lia.
  - eexists _, _. split_and!; [done..|]. intros key _. cbn. lia.
Qed.

(** What an idle turn leaves alone: dispatches, mailboxes, handlers; and no
    worker comes farther from a mailbox with something in it. *)
Definition idle_to w w' : Prop :=
  net w' = net w /\
  (forall key, queued key (actors_ (sh w')) = queued key (actors_ (sh w))) /\
  (forall j wk, workers_ w' !! j = Some wk -> is_idle wk = false -> workers_ w !! j = Some wk) /\
  forall j wk, workers_ w !! j = Some wk -> wk <> WStopped ->
    exists wk', workers_ w' !! j = Some wk' /\ wk' <> WStopped /\
      ((exists cls p rest, wk = WRun cls p rest) -> wk' = wk) /\
      forall key, queued key (actors_ (sh w)) <> [] -> rank key wk' <= rank key wk.

Lemma idle_refl w : idle_to w w.
Proof. split_and!; [done..|]. intros j wk Hj Hwk. exists wk. by split_and!. Qed.

Lemma idle_tick l w :
  fit w -> thread_label l = true -> busy l w = false -> idle_to w (tick step l w).
Proof.
  intros Hs Hl Hb. unfold tick. destruct l; try done.
  - unfold step, net_step. rewrite (fit_alive _ Hs). unfold busy in Hb.
    destruct (net w !! i) as [[]|]; try done; apply idle_refl.
  - destruct (workers_ w !! i) as [wk|] eqn:Hi.
    2: { unfold step, worker_step. rewrite (fit_alive _ Hs), Hi. apply idle_refl. }
    destruct (is_stopped wk) eqn:Hst.
    { destruct wk; try done. unfold step, worker_step. rewrite (fit_alive _ Hs), Hi. apply idle_refl. }
    assert (wk <> WStopped) as Hwk by (by intros ->).
    destruct (idle_turn _ _ _ _ Hs Hi Hwk Hb) as (wk' & w' & -> & Hws & Hnet & Hq & Hwk' & Hidle & Hrank).
    cbn. split_and!; [done..| |].
    { rewrite Hws. intros j wkj [[<- [-> _]]|[_ Hj]]%list_lookup_insert_Some Hrun; congruence. }
    intros j wkj Hj Hwkj. rewrite Hws.
    destruct (decide (i = j)) as [<-|Hne].
    + exists wk'. rewrite list_lookup_insert_eq by (by eapply lookup_lt_Some).
      simplify_eq. split_and!; [done..| |].
      * intros (cls & p & rest & ->). unfold busy in Hb. by rewrite Hi in Hb.
      * intros key Hkey. apply Nat.lt_le_incl. auto.
    + exists wkj. rewrite list_lookup_insert_ne by done. by split_and!.
Qed.

(** ** Schedules *)

Section host.
Context {S L : Type} `{Host : !ActorHost capacity base S L}.
Implicit Types (s : S) (schedule : nat -> L).

(** Turns of a host that are quiet and among which each worker and each
    dispatch gets a turn again and again, with whatever answers of the
    generator and the clock. *)
Record host_fair schedule : Prop := {
  hf_quiet : forall k, host_quiet (schedule k);
  hf_workers : forall i, i < nw ->
    recurs (fun l => exists c, host_thread l = Some (WorkerStep i c)) schedule;
  hf_net : forall i, i < nn ->
    recurs (fun l => exists c, host_thread l = Some (NetStep i c)) schedule
}.

Lemma host_fair_later k schedule : host_fair schedule -> host_fair (later k schedule).
Proof.
  intros [Ht Hw Hn]. split; [intros n; apply Ht|..]; intros i Hi; apply recurs_later; auto.
Qed.

Definition host_busy (l : L) s : bool :=
  match host_thread l with Some t => busy t (host_world s) | None => false end.

(** The host is in a state it reaches, and what runs inside is fit. *)
Definition fit_host s : Prop := host_inv s /\ fit (host_world s).
Definition host_ended s : Prop := is_Some (terminated (host_world s)).

Lemma undisturbed_fit w w' :
  fit w -> flow_inv capacity base w' -> undisturbed w w' -> is_Some (terminated w') \/ fit w'.
Proof.
  intros [Hr Ha _ Hw Hn Hi] Hf [?|(Ht & Hr' & Hws & Hnet & _)]; [by left|right].
  by split; rewrite ?Hr', ?Hws, ?Hnet.
Qed.

Lemma undisturbed_idle w w' : terminated w' = None -> undisturbed w w' -> idle_to w w'.
Proof.
  intros Ht [[e He]|(_ & _ & Hws & Hnet & Ha)]; [congruence|]. unfold idle_to.
  rewrite Hws, Hnet, Ha. apply idle_refl.
Qed.

Lemma host_tick l s n :
  host_quiet l -> fit_host s -> work (host_world s) n ->
  host_ended (tick host_step l s) \/
  fit_host (tick host_step l s) /\
  (exists n', n' + (if host_busy l s then 1 else 0) <= n /\
     work (host_world (tick host_step l s)) n') /\
  (host_busy l s = false -> idle_to (host_world s) (host_world (tick host_step l s))).
Proof.
  intros Hq [Hi Hf] Hw. pose proof (host_turn l s Hq Hi) as Ht. unfold host_busy, fit_host, host_ended.
  pose proof (host_stays l s Hq Hi) as Hi'.
  destruct (host_thread l) as [t|].
  - destruct Ht as [Ht ->]. destruct (fit_tick t _ _ Hf Ht Hw) as [?|[Hf' Hn]]; [by left|right].
    split_and!; [done..|]. by apply idle_tick.
  - destruct (undisturbed_fit _ _ Hf (host_flow _ Hi') Ht) as [?|Hf']; [by left|right].
    pose proof (undisturbed_idle _ _ (fit_alive _ Hf') Ht) as Hidle. split_and!; [done..| |done].
    exists n. split; [lia|]. destruct Ht as [[e He]|(_ & _ & Hws & Hnet & Ha)].
    + pose proof (fit_alive _ Hf'). congruence.
    + by eapply work_frame.
Qed.

(** Some later turn of the schedule ends the process or leaves less than [n]
    to do. *)
Definition gains schedule (n : nat) : S -> Prop :=
  comes host_step schedule (fun s =>
    host_ended s \/ fit_host s /\ exists n', n' < n /\ work (host_world s) n').

(** Until then, what idle turns keep is kept. *)
Lemma wait (I : world R -> Prop) schedule m s n :
  host_fair schedule ->
  (forall w1 w2, fit w1 -> I w1 -> idle_to w1 w2 -> I w2) ->
  fit_host s -> work (host_world s) n -> I (host_world s) ->
  gains schedule n s \/
  let s' := drive host_step m schedule s in
  fit_host s' /\ work (host_world s') n /\ I (host_world s').
Proof.
  intros Hfair HI Hs Hw Hi. induction m as [|m IH]; [by right|].
  destruct IH as [?|(Hsm & Hwm & Him)]; [by left|]. cbn.
  destruct (host_tick _ _ _ (hf_quiet _ Hfair m) Hsm Hwm)
    as [Hend|(Hs' & (n' & Hn' & Hw') & Hidle)]; [left; exists (Datatypes.S m); by left|].
  destruct (host_busy (schedule m) (drive host_step m schedule s)) eqn:Hb.
  - left. exists (Datatypes.S m). right. split; [done|]. exists n'. split; [lia|done].
  - right. split_and!; [done|eapply work_mono; [|done]; lia|].
    eapply HI; [exact (proj2 Hsm)|exact Him|by apply Hidle].
Qed.

Lemma busy_gains schedule m n s :
  host_fair schedule -> fit_host (drive host_step m schedule s) ->
  work (host_world (drive host_step m schedule s)) n ->
  host_busy (schedule m) (drive host_step m schedule s) = true -> gains schedule n s.
Proof.
  intros Hfair Hs Hw Hb. exists (Datatypes.S m). cbn.
  destruct (host_tick _ _ _ (hf_quiet _ Hfair m) Hs Hw) as [?|(Hs' & (n' & Hn' & Hw') & _)];
    [by left|right]. rewrite Hb in Hn'. split; [done|]. exists n'. split; [lia|done].
Qed.

(** A handler, a dispatch, a queued envelope: each is gone on with. *)
Lemma handler_gains schedule n s i cls p rest :
  host_fair schedule -> fit_host s -> work (host_world s) n ->
  workers_ (host_world s) !! i = Some (WRun cls p rest) -> gains schedule n s.
Proof.
  intros Hfair Hs Hw Hi.
  destruct (hf_workers _ Hfair i) with (k := 0) as (m & _ & c & Hm).
  { rewrite <- (fit_workers _ (proj2 Hs)). by eapply lookup_lt_Some. }
  destruct (wait (fun w => workers_ w !! i = Some (WRun cls p rest)) schedule m s n)
    as [?|(Hsm & Hwm & Him)]; try done.
  - intros w1 w2 _ H1i (_ & _ & _ & Hwk). destruct (Hwk _ _ H1i) as (wk' & Hi2 & _ & Hrun & _); [done|].
    rewrite Hi2, Hrun; [done|by eexists _, _, _].
  - eapply busy_gains; [done..|]. unfold host_busy. rewrite Hm. cbn. by rewrite Him.
Qed.

Lemma dispatch_gains schedule n s i p :
  host_fair schedule -> fit_host s -> work (host_world s) n ->
  net (host_world s) !! i = Some p -> p <> Ret tt -> gains schedule n s.
Proof.
  intros Hfair Hs Hw Hi Hp.
  destruct (hf_net _ Hfair i) with (k := 0) as (m & _ & c & Hm).
  { rewrite <- (fit_net _ (proj2 Hs)). by eapply lookup_lt_Some. }
  destruct (wait (fun w => net w !! i = Some p) schedule m s n)
    as [?|(Hsm & Hwm & Him)]; try done.
  - intros w1 w2 _ H1i (-> & _). done.
  - eapply busy_gains; [done..|]. unfold host_busy. rewrite Hm. cbn. rewrite Him.
    by destruct p as [[]| | | | | | | | |].
Qed.

(** A turn of worker [i0] that is not busy brings it closer to the mailbox. *)
Lemma approach l s n key wk c :
  host_quiet l -> fit_host s -> work (host_world s) n -> host_thread l = Some (WorkerStep i0 c) ->
  queued key (actors_ (sh (host_world s))) <> [] ->
  workers_ (host_world s) !! i0 = Some wk -> wk <> WStopped -> host_busy l s = false ->
  let s' := tick host_step l s in
  host_ended s' \/
  fit_host s' /\ work (host_world s') n /\ queued key (actors_ (sh (host_world s'))) <> [] /\
  exists wk', workers_ (host_world s') !! i0 = Some wk' /\ wk' <> WStopped /\
    rank key wk' < rank key wk.
Proof.
  intros Hquiet Hs Hw Hl Hq Hi Hwk Hb.
  destruct (host_tick _ _ _ Hquiet Hs Hw) as [?|(Hs' & (n' & Hn' & Hw') & _)]; [by left|right].
  split; [done|]. split; [eapply work_mono; [|exact Hw']; lia|].
  pose proof (host_turn l s Hquiet (proj1 Hs)) as Ht. unfold host_busy in Hb. rewrite Hl in Ht, Hb.
  destruct Ht as [_ ->].
  destruct (idle_turn _ _ _ _ (proj2 Hs) Hi Hwk Hb)
    as (wk' & w' & Hstep & Hws & _ & Hq' & Hwk' & _ & Hrank).
  unfold tick. rewrite Hstep. cbn. split; [by rewrite Hq'|]. exists wk'. split_and!; [|done|auto].
  rewrite Hws. apply list_lookup_insert_eq. by eapply lookup_lt_Some.
Qed.

Lemma envelope_gains schedule n s key r wk :
  host_fair schedule -> fit_host s -> work (host_world s) n ->
  queued key (actors_ (sh (host_world s))) <> [] ->
  workers_ (host_world s) !! i0 = Some wk -> wk <> WStopped -> rank key wk <= r ->
  gains schedule n s.
Proof.
  revert schedule s wk. induction r as [r IH] using lt_wf_ind.
  intros schedule s wk Hfair Hs Hw Hq Hi Hwk Hr.
  destruct (hf_workers _ Hfair i0) with (k := 0) as (m & _ & c & Hm).
  { rewrite <- (fit_workers _ (proj2 Hs)). by eapply lookup_lt_Some. }
  destruct (wait (fun w => queued key (actors_ (sh w)) <> [] /\
    exists wk, workers_ w !! i0 = Some wk /\ wk <> WStopped /\ rank key wk <= r) schedule m s n)
    as [?|(Hsm & Hwm & Hqm & wkm & Him & Hwkm & Hrm)]; try done.
  - intros w1 w2 _ (Hq1 & wk1 & Hi1 & Hwk1 & Hr1) (_ & Hq2 & _ & Hwk2).
    rewrite Hq2. split; [done|].
    destruct (Hwk2 _ _ Hi1 Hwk1) as (wk2 & Hi2 & Hne2 & _ & Hr2).
    exists wk2. split_and!; [done..|]. specialize (Hr2 _ Hq1). lia.
  - split; [done|]. by exists wk.
  - destruct (host_busy (schedule m) (drive host_step m schedule s)) eqn:Hb; [by eapply busy_gains|].
    apply (comes_later _ (Datatypes.S m)). cbn [drive].
    destruct (approach _ _ _ key wkm c (hf_quiet _ Hfair m) Hsm Hwm Hm Hqm Him Hwkm Hb)
      as [?|(Hs' & Hw' & Hq' & wk' & Hi' & Hwk' & Hlt)]; [by apply comes_now; left|].
    eapply (IH (rank key wk')); [lia|by apply host_fair_later|done..].
Qed.

(** Nothing left to do: mailboxes empty, no handler running, dispatches over. *)
Definition at_rest w : Prop :=
  (forall key, queued key (actors_ (sh w)) = []) /\ settled w /\
  forall i p, net w !! i = Some p -> p = Ret tt.

#[local] Instance ret_dec (p : prog unit) : Decision (p = Ret tt).
Proof. destruct p as [[]| | | | | | | | |]; (by left) || (by right). Defined.
#[local] Instance queue_dec key w : Decision (queued key (actors_ (sh w)) = []).
Proof. destruct (queued key (actors_ (sh w))); (by left) || (by right). Defined.
Lemma at_rest_or_gains schedule n s :
  host_fair schedule -> fit_host s -> work (host_world s) n ->
  at_rest (host_world s) \/ gains schedule n s.
Proof.
  intros Hfair Hs Hw. destruct (fit_awake _ (proj2 Hs)) as (wk & Hi & Hwk).
  destruct (Forall_Exists_dec _ _ (fun key => queue_dec key (host_world s))
    [ActorType.session; ActorType.chat; ActorType.message; ActorType.storage]) as [Hq|Hq].
  2: { right. apply Exists_exists in Hq as (key & _ & Hq).
       by eapply (envelope_gains _ _ _ key). }
  destruct (Forall_Exists_dec _ _ (fun wk => decide (is_idle wk = true))
    (workers_ (host_world s)))
    as [Hrun|Hrun].
  2: { right. apply Exists_exists in Hrun as (wk' & Hin & Hrun).
       apply list_elem_of_lookup in Hin as [i Hin]. destruct wk' as [| |cls p rest| |]; try done.
       by eapply handler_gains. }
  destruct (Forall_Exists_dec _ _ ret_dec (net (host_world s))) as [Hnet|Hnet].
  2: { right. apply Exists_exists in Hnet as (p & Hin & Hp).
       apply list_elem_of_lookup in Hin as [i Hin]. by eapply dispatch_gains. }
  left. rewrite !Forall_cons in Hq. destruct Hq as (? & ? & ? & ? & _).
  split; [by intros []|]. split; [|by intros j p Hj; exact (Forall_lookup_1 _ _ _ _ Hnet Hj)].
  split; [|done]. intros cls p rest Hin. rewrite Forall_forall in Hrun. by apply Hrun in Hin.
Qed.

Lemma comes_to_rest n schedule s :
  host_fair schedule -> fit_host s -> work (host_world s) n ->
  comes host_step schedule
    (fun s' => host_ended s' \/
       fit_host s' /\ at_rest (host_world s') /\ exists n', work (host_world s') n') s.
Proof.
  revert schedule s. induction n as [n IH] using lt_wf_ind. intros schedule s Hfair Hs Hw.
  destruct (at_rest_or_gains _ _ _ Hfair Hs Hw) as [?|(m & [Hend|(Hs' & n' & Hlt & Hw')])].
  - exists 0. right. split_and!; [done..|]. by exists n.
  - exists m. by left.
  - apply (comes_later _ m). eapply (IH n'); [done|by apply host_fair_later|done..].
Qed.

(** Quiet turns leave it at rest. *)
Lemma rest_not_busy t w : at_rest w -> busy t w = false.
Proof.
  intros (Hq & [Hrun _] & Hnet). unfold busy. destruct t; try done.
  - destruct (net w !! i) as [p|] eqn:Hi; [|done]. by rewrite (Hnet _ _ Hi).
  - destruct (workers_ w !! i) as [[|[|key rest] b|cls p rest| |]|] eqn:Hi; try done.
    + by rewrite Hq.
    + by apply list_elem_of_lookup_2, Hrun in Hi.
Qed.

Lemma idle_rest w w' : at_rest w -> idle_to w w' -> at_rest w'.
Proof.
  intros (Hq & (Hrun & _) & Hn) (Hnet & Hq' & Hback & _). unfold at_rest, settled.
  rewrite Hnet, !Hq', !Hq. split_and!; [intros key; by rewrite Hq'|..|done]; try done.
  intros cls p rest [j Hj]%list_elem_of_lookup. specialize (Hback _ _ Hj eq_refl).
  by apply list_elem_of_lookup_2, Hrun in Hback.
Qed.

Lemma rest_stays schedule m s n :
  host_fair schedule -> fit_host s -> work (host_world s) n -> at_rest (host_world s) ->
  let s' := drive host_step m schedule s in
  host_ended s' \/ fit_host s' /\ work (host_world s') n /\ at_rest (host_world s').
Proof.
  intros Hfair Hs Hw Hrest. induction m as [|m [Hend|(Hsm & Hwm & Hrm)]]; [by right|left|].
  { cbn. unfold tick. by rewrite (host_over _ _ Hend). }
  destruct (host_tick _ _ _ (hf_quiet _ Hfair m) Hsm Hwm) as [?|(Hs' & (n' & Hle & Hw') & Hidle)];
    [by left|right]. cbn.
  assert (host_busy (schedule m) (drive host_step m schedule s) = false) as Hb.
  { unfold host_busy. destruct (host_thread _) as [t|]; [by apply rest_not_busy|done]. }
  split_and!; [done|eapply work_mono; [|done]; lia|eapply idle_rest; [done|by apply Hidle]].
Qed.
End host.
End rest.

(** ** The actor system alone *)

(** No text is handed over, and nobody calls [start] or [stop]. *)
Definition silent (l : label) : bool :=
  match l with Dispatch _ _ | Start _ | StopRequest | StopJoin => false | _ => true end.

(** A schedule of [nw] workers and [nn] dispatches in which each of them gets
    a turn again and again, with whatever answers of the generator and the
    clock, and in which sessions come and go and histories are read. *)
Record fair (nw nn : nat) (schedule : nat -> label) : Prop := {
  fair_silent : forall k, silent (schedule k) = true;
  fair_workers : forall i, i < nw -> recurs (fun l => exists c, l = WorkerStep i c) schedule;
  fair_net : forall i, i < nn -> recurs (fun l => exists c, l = NetStep i c) schedule
}.

Lemma silent_undisturbed l w :
  silent l = true -> thread_label l = false -> undisturbed w (tick step l w).
Proof.
  intros Hl Ht. unfold undisturbed, tick, step. destruct (terminated w) eqn:He; [by left; cbn; eexists|].
  destruct l; try done; cbn; try (by right). left. by eexists.
Qed.

Definition own_thread (l : label) : option label := if thread_label l then Some l else None.

Lemma ended_over l w : is_Some (terminated w) -> step l w = None.
Proof. intros [e He]. unfold step. by rewrite He. Qed.

Lemma silent_stays capacity base l w :
  flow_inv capacity base w -> flow_inv capacity base (tick step l w).
Proof.
  intros Hf. unfold tick. destruct (step l w) eqn:Hs; [by eapply step_flow_inv|done].
Qed.

Lemma silent_turn l w :
  silent l = true ->
  match own_thread l with
  | Some t => thread_label t = true /\ tick step l w = tick step t w
  | None => undisturbed w (tick step l w)
  end.
Proof.
  intros Hl. unfold own_thread. destruct (thread_label l) eqn:Ht; [done|].
  by apply silent_undisturbed.
Qed.

#[local] Instance runtime_host capacity base : ActorHost capacity base (world R) label := {|
  host_step := step;
  host_world w := w;
  host_thread := own_thread;
  host_quiet l := silent l = true;
  host_inv := flow_inv capacity base;
  host_flow _ Hf := Hf;
  host_over l w Ht := ended_over l w Ht;
  host_stays l w _ := silent_stays capacity base l w;
  host_turn l w Hl _ := silent_turn l w Hl
|}.

Lemma fair_host capacity base nw nn schedule :
  fair nw nn schedule -> host_fair capacity base nw nn schedule.
Proof.
  intros [Hs Hw Hn]. split; [done|..]; intros i Hi;
    (eapply recurs_mono; [|by eauto]); intros l [c ->]; by exists c.
Qed.

(** C3: the actor system comes to rest under every fair schedule. Take any
    state a run of the system reaches with the system running and at least
    one worker in its loop, and from then on any schedule in which its workers
    and the calls of [dispatch] still in progress get their turns, whatever the
    identifier generator and the clock answer, and in which sessions may come
    and go and histories be read, but no further text is handed over. After
    finitely many turns either an exception has ended the process, or every
    mailbox is empty, no handler runs, every dispatch has returned, and each
    event accepted is stored exactly once or accounted for by a false answer
    of [send] or of the repository. *)
Theorem fair_schedules_settle ls capacity (r : R) w schedule i wk :
  (0 <= capacity)%Z -> run ls (initial capacity r) = Some w ->
  running_ w = true -> terminated w = None ->
  workers_ w !! i = Some wk -> wk <> WStopped ->
  fair (length (workers_ w)) (length (net w)) schedule ->
  exists n, let w' := drive step n schedule w in
    is_Some (terminated w') \/
    (forall key, queued key (actors_ (sh w')) = []) /\ settled w' /\
    (forall j p, net w' !! j = Some p -> p = Ret tt) /\
    (key_of_row <$> stored (repository (sh w'))) ++ lost_keys (sh w') ≡ₚ
      (key_of_row <$> stored r) ++ (key_of_event <$> accepted w').
Proof.
  intros Hcap Hr Hrun Halive Hi Hwk Hfair.
  pose proof (run_flow_inv _ _ _ _ _ (flow_inv_initial capacity r Hcap) Hr) as Hf.
  destruct (run_measured _ _ _ _ Hcap Hr) as [[e He]|[n Hn]]; [congruence|].
  destruct (comes_to_rest capacity (key_of_row <$> stored r) (length (workers_ w))
    (length (net w)) i n schedule w) as [m [?|((_ & Hs) & (Hq & Hset & Hnet) & _)]].
  - by apply fair_host.
  - split; [done|]. split; eauto.
  - done.
  - exists m. by left.
  - exists m. right. split_and!; [done..|].
    destruct (fit_flow _ _ _ _ _ _ Hs) as (_ & _ & Hcons). by apply conserved_settled.
Qed.
End fairness.
