(* ===== verification/RuntimeDelivery.v ===== *)
(** * Who receives what

    The texts the session actor posts to websockets, in every interleaving of
    the threads: each is the confirmation or the copy of a requested message,
    and goes to a transport that was bound to the session of its sender or of
    its recipient. *)
From S2P Require Import Prelude CppString Json Domain Mailbox Actor Handlers Runtime RuntimeInv RuntimeFlow.

Section delivery.
Context `{JsonLib, UuidLib, LockfreeQueueLaws, ActorOrder} {R : Type}
  `{!MessageRepository R}.
Context (Ev : SendMessageEvent -> Prop) (Bd : string -> transport -> Prop).
Implicit Types (w : world R) (s : shared R).

(** An outgoing event that a message in [Ev] gives rise to. *)
Definition legitimate (o : SessionOutgoingEvent) : Prop :=
  exists e, Ev e /\
    (payload (echo_of e) = Outgoing o \/
     str_empty (SendMessageEvent_recipientId e) = false /\
     payload (recipient_of e) = Outgoing o).

Definition allowed (env : ActorEnvelope) : Prop :=
  match payload env with
  | SendMessage e => Ev e
  | Outgoing o => legitimate o
  | _ => True
  end.

Definition posted (p : transport * string) : Prop :=
  exists o, legitimate o /\ Bd (SessionOutgoingEvent_sessionId o) p.1 /\
    json_dump (SessionOutgoingEvent_payload o) = Ok p.2.

(** Along every path, with lookups that answer bound transports only, the
    program sends what is allowed and posts what is legitimate. *)
Fixpoint delivers (p : prog unit) : Prop :=
  match p with
  | Ret _ | Raise _ => True
  | Send env k => allowed env /\ forall b, delivers (k b)
  | FindTransport sid k =>
      forall o, (forall t, o = Some t -> Bd sid t) -> delivers (k o)
  | LockTransport _ k => forall b, delivers (k b)
  | TransportSend t text k => posted (t, text) /\ delivers k
  | RepoCreate _ k => forall b, delivers (k b)
  | RandomUuid k => forall u, delivers (k u)
  | SystemNow k => forall t, delivers (k t)
  | Log _ _ _ k => delivers k
  end.

Lemma handle_delivers cls env : allowed env -> delivers (Actor_handle cls env).
Proof.
  destruct env as [dest pl]. unfold allowed. cbn [payload]. intros Ha.
  destruct cls; cbn [Actor_handle];
    unfold SessionActor_handle, ChatActor_handle, MessageActor_handle, StorageActor_handle;
    cbn [payload]; destruct pl; cbn; try done.
  - intros o Ho. destruct o as [t|]; cbn; [|done]. intros b. destruct b; cbn; [|done].
    destruct (json_dump _) as [text|] eqn:Hd; cbn; [|done]. split; [|done].
    exists e. split; [done|]. split; [by apply Ho|done].
  - split; [done|]. intros _. split; [exists e; by auto|]. intros _.
    destruct (str_empty _) eqn:He; cbn; [done|]. split; [|done]. exists e. by auto.
  - intros u. destruct (string_generator (StoragePersistMessage_chatId e)); cbn; [|done].
    destruct (string_generator (StoragePersistMessage_senderId e)); cbn; [|done].
    intros _ b. by destruct b.
Qed.

Local Ltac no_message :=
  repeat (match goal with |- context [prog_lift ?r] => destruct r; cbn; [|done] end);
  split; [exact I|by intros []].

Lemma dispatch_delivers sid raw :
  (forall e, requested_event sid raw = Some e -> Ev e) ->
  delivers (MessageDispatcher_dispatch sid raw).
Proof.
  unfold MessageDispatcher_dispatch, requested_event.
  destruct (json_is_object (json_parse raw)); cbn [negb]; [|done].
  destruct (json_value (json_parse raw) "type" EmptyString) as [type|e]; cbn; [|done].
  destruct (String.eqb_spec type "auth") as [->|_]; cbn; [intros _; no_message|].
  destruct (String.eqb_spec type "send_message") as [->|_]; cbn.
  { repeat (match goal with |- context [prog_lift ?r] => destruct r; cbn; [|done] end).
    intros HE. split; [unfold allowed; cbn; by apply HE|by intros []]. }
  intros _. destruct (String.eqb_spec type "typing") as [->|_]; cbn; [no_message|].
  destruct (String.eqb_spec type "message_read") as [->|_]; cbn; [no_message|done].
Qed.

Record shared_delivery s : Prop := {
  del_queues : forall key env, env ∈ queued key (actors_ s) -> allowed env;
  del_table : forall sid t, transports_ s !! sid = Some t -> Bd sid t;
  del_outbox : Forall posted (outbox s)
}.

Record delivery w : Prop := {
  del_shared : shared_delivery (sh w);
  del_workers : forall i cls p rest, workers_ w !! i = Some (WRun cls p rest) -> delivers p;
  del_net : forall i p, net w !! i = Some p -> delivers p
}.

Lemma prog_step_delivers c s p s' p' :
  shared_delivery s -> delivers p -> prog_step c s p = Some (s', p') ->
  shared_delivery s' /\ delivers p'.
Proof.
  intros [Hq Ht Ho] Hp Hs. destruct p; cbn in Hp, Hs; simplify_eq; try (by split; [split|auto]).
  - destruct Hp as [Ha Hk]. unfold shared_send in Hs.
    destruct (ActorSystem_send env (actors_ s)) as [ok acts] eqn:Hsend.
    assert (forall key e, e ∈ queued key acts -> allowed e) as Hq'.
    { intros key e. rewrite (send_queued _ _ _ _ key Hsend).
      intros [Hin|Hin]%elem_of_app; [by eapply Hq|].
      destruct (ok && _); [|by apply elem_of_nil in Hin].
      by apply list_elem_of_singleton in Hin as ->. }
    by destruct ok; simplify_eq/=; (split; [split|]).
  - split; [|by apply Hp]. split; [done|done|]. cbn.
    apply Forall_app. split; [done|]. apply Forall_singleton, Hp.
  - unfold shared_create in Hs.
    by destruct (message_create m (repository s)) as [[[]|e] r]; simplify_eq/=;
      (split; [split|]).
Qed.

Lemma pop_delivery s key o cls acts :
  shared_delivery s -> actors_pop key (actors_ s) = Some (o, cls, acts) ->
  shared_delivery (set_actors s acts) /\ (forall env, o = Some env -> allowed env).
Proof.
  intros [Hq Ht Ho] Hp.
  assert (forall k e, e ∈ queued k acts -> e ∈ queued k (actors_ s)) as Hin.
  { intros k e. pose proof (pop_queued _ _ _ _ _ k Hp) as Hk.
    destruct o as [env|]; [|by rewrite Hk]. destruct Hk as [Hk Hne].
    destruct (decide (k = key)) as [->|Hd]; [|by rewrite Hne].
    rewrite Hk. apply list_elem_of_further. }
  split; [split; cbn; try done; eauto|]. intros env ->.
  apply (Hq key). rewrite (proj1 (pop_queued _ _ _ _ _ key Hp)). apply list_elem_of_here.
Qed.

Lemma worker_step_delivery i c w w' :
  delivery w -> worker_step i c w = Some w' -> delivery w'.
Proof.
  intros [Hsh Hw Hn] Hs. apply worker_step_move in Hs as
    [wk wk' w2 Hi Hrun Hret (Ha & _ & _ & _ & _ & Hout & Htab) Hws Hnet
    |key rest b cls acts Hi Hp|key rest b cls env acts Hi Hp|cls e rest Hi
    |cls p rest s p' Hi Hp].
  - split; [| |by rewrite Hnet].
    + destruct Hsh. split; by rewrite ?Ha, ?Hout, ?Htab.
    + intros j cls p rest. rewrite Hws. intros [[? _]|?]%list_insert_cases; [|by eauto].
      by destruct (Hrun cls p rest).
  - destruct (pop_delivery _ _ _ _ _ Hsh Hp) as [Hsh' _].
    split; [exact Hsh'| |exact Hn]; cbn.
    intros j cls' p rest' [[? _]|?]%list_insert_cases; [done|eauto].
  - destruct (pop_delivery _ _ _ _ _ Hsh Hp) as [Hsh' Henv].
    split; [exact Hsh'| |exact Hn]; cbn.
    intros j cls' p rest' [[? _]|?]%list_insert_cases; [|eauto].
    simplify_eq. by apply handle_delivers, Henv.
  - by split.
  - destruct (prog_step_delivers c _ _ _ _ Hsh (Hw _ _ _ _ Hi) Hp) as [Hsh' Hp'].
    split; [exact Hsh'| |exact Hn]; cbn.
    intros j cls' q rest' [[? _]|?]%list_insert_cases; [by simplify_eq|eauto].
Qed.

(** The labels under which [Ev] and [Bd] cover what happens. *)
Definition covered (l : label) : Prop :=
  match l with
  | Dispatch sid raw => forall e, requested_event sid raw = Some e -> Ev e
  | Bind sid t => Bd sid t
  | _ => True
  end.

Lemma step_delivery l w w' :
  covered l -> delivery w -> step l w = Some w' -> delivery w'.
Proof.
  intros Hl Hinv Hs. unfold step in Hs. destruct (terminated w); [done|].
  destruct l; simplify_eq; eauto using worker_step_delivery; destruct Hinv as [Hsh Hw Hn].
  - split; [done|done|]; cbn. intros i p [Hi|[_ Hi]]%lookup_app_Some; [by eauto|].
    apply list_lookup_singleton_Some in Hi as [_ <-]. by apply dispatch_delivers.
  - apply net_step_inv in Hs as [(e & _ & ->)|(p & s & p' & Hi & Hp & ->)]; [by split|].
    destruct (prog_step_delivers c _ _ _ _ Hsh (Hn _ _ Hi) Hp) as [Hsh' Hp'].
    split; [exact Hsh'|exact Hw|]; cbn.
    intros j q [[? _]|?]%list_insert_cases; [by simplify_eq|eauto].
  - split; [|done|done]. destruct Hsh as [Hq Ht Ho]. split; [done| |done]. cbn.
    unfold bindTransport. intros sid t' [[<- <-]|[_ ?]]%lookup_insert_Some; [done|eauto].
  - split; [|done|done]. destruct Hsh as [Hq Ht Ho]. split; [done| |done]. cbn.
    unfold unbindTransport. intros sid t' [_ ?]%lookup_delete_Some. eauto.
  - split; [|done|done]. destruct Hsh as [Hq Ht Ho]. by split.
  - unfold start_step. destruct (running_ w); [by split|]. split; [done| |done]; cbn.
    intros i cls p rest [Hi|[_ Hi]]%lookup_app_Some; [by eauto|].
    by apply lookup_replicate in Hi as [? _].
  - by split.
  - unfold stop_join in Hs. destruct (_ && _); [|done]. simplify_eq.
    split; [done| |done]; cbn. intros i cls p rest. by rewrite lookup_nil.
  - split; [|done|done]. destruct Hsh as [Hq Ht Ho]. by split.
  - by split.
Qed.

Lemma run_delivery ls w w' :
  Forall covered ls -> delivery w -> run ls w = Some w' -> delivery w'.
Proof.
  intros Hls. revert w. induction Hls as [|l ls Hl Hls IH]; intros w Hw Hr; cbn in Hr.
  - by simplify_eq.
  - destruct (step l w) as [w1|] eqn:Hs; [|done]. cbn in Hr. eauto using step_delivery.
Qed.

Lemma initial_delivery capacity (r : R) : delivery (initial capacity r).
Proof.
  split; cbn.
  - split; cbn; [|by intros sid t; rewrite lookup_empty|constructor].
    intros key env. rewrite queued_server_actors. by intros ?%elem_of_nil.
  - intros i cls p rest. by rewrite lookup_nil.
  - intros i p. by rewrite lookup_nil.
Qed.
End delivery.

Lemma requested_session `{JsonLib} sid raw e :
  requested_event sid raw = Some e -> SendMessageEvent_sessionId e = sid.
Proof. unfold requested_event. intros. mcrush. Qed.

Section no_misdelivery.
Context `{JsonLib, UuidLib, LockfreeQueueLaws, ActorOrder} {R : Type}
  `{!MessageRepository R}.

(** Every text posted in a run stems from one of its [Dispatch] labels and
    goes where one of its [Bind] labels says. *)
Definition dispatched_in (ls : list label) (e : SendMessageEvent) : Prop :=
  exists sid raw, (Dispatch sid raw ∈ ls) /\ requested_event sid raw = Some e.
Definition bound_in (ls : list label) (sid : string) (t : transport) : Prop := Bind sid t ∈ ls.

Lemma outbox_posted ls capacity (r : R) w :
  run ls (initial capacity r) = Some w ->
  Forall (posted (dispatched_in ls) (bound_in ls)) (outbox (sh w)).
Proof.
  intros Hr.
  assert (delivery (dispatched_in ls) (bound_in ls) w) as [[_ _ Hout] _ _]; [|done].
  eapply run_delivery; [|apply initial_delivery|exact Hr].
  apply Forall_forall. intros l Hl. destruct l; cbn; try done.
  intros e He. by exists sessionId, rawMessage.
Qed.

(** No message is shown to a stranger. Every text posted to a websocket
    is the dump of the confirmation or of the copy of a message somebody
    requested in this run, and the websocket it is posted to had been bound
    to the session that requested the message, or to the session the
    request names as its recipient. *)
Theorem texts_reach_their_sessions_only ls capacity (r : R) w t text :
  run ls (initial capacity r) = Some w -> (t, text) ∈ outbox (sh w) ->
  exists sid raw e target,
    (Dispatch sid raw ∈ ls) /\ requested_event sid raw = Some e /\
    (Bind target t ∈ ls) /\
    ((target = sid /\ exists j,
        payload (echo_of e) = Outgoing (mkSessionOutgoingEvent target j) /\
        json_dump j = Ok text) \/
     (target = SendMessageEvent_recipientId e /\ target <> EmptyString /\ exists j,
        payload (recipient_of e) = Outgoing (mkSessionOutgoingEvent target j) /\
        json_dump j = Ok text)).
Proof.
  intros Hr Hin.
  pose proof (outbox_posted _ _ _ _ Hr) as Hout.
  rewrite Forall_forall in Hout. destruct (Hout _ Hin) as ([target j] & Hleg & HB & Hd).
  destruct Hleg as (e & (sid & raw & Hdisp & Hreq) & Hcase). cbn in HB, Hd.
  exists sid, raw, e, target. split; [done|]. split; [done|]. split; [done|].
  destruct Hcase as [He|[Hne He]]; pose proof He as He'; injection He as Hsid Hj.
  - left. split; [|by exists j]. rewrite <- Hsid. by apply requested_session in Hreq.
  - right. rewrite <- Hsid. split; [done|]. split; [|exists j; by rewrite Hsid].
    intros Hnil. by rewrite Hnil in Hne.
Qed.
End no_misdelivery.
