(* ===== verification/RuntimeRuns.v ===== *)
(** * Runs of the actor runtime

    The failure runs of the actor system: the envelope that ends the process,
    the reordering two workers allow, and the confirmation of a message that
    was never stored; and concrete runs at which the theorems of the runtime
    files apply. *)
From S2P Require Import Prelude CppString Json Domain Reference Mailbox Actor Handlers Runtime RuntimeInv RuntimeFlow RuntimeOrder RuntimeProgress RuntimeFair RuntimeDelivery Schedule.

(** ** Exceptions in a worker *)

Section crash.
Context `{JsonLib, UuidLib, LockfreeQueueLaws, ActorOrder} {R : Type}
  `{!MessageRepository R}.

(** C19: nothing between the storage actor and the thread function catches
    an exception. When a worker is about to visit the storage actor and the
    envelope at the front of its mailbox carries a chat or a sender id that
    the UUID generator refuses, three steps of that worker end the process
    with the exception of the generator, whatever is left in the mailboxes. *)
Theorem invalid_id_ends_process (w : world R) i rest b env persist e a c :
  terminated w = None ->
  workers_ w !! i = Some (WScan (ActorType.storage :: rest) b) ->
  actors_ (sh w) !! ActorType.storage = Some a -> actor_class a = StorageActor ->
  head (queued ActorType.storage (actors_ (sh w))) = Some env ->
  payload env = Persist persist ->
  (_ ← string_generator (StoragePersistMessage_chatId persist);
   string_generator (StoragePersistMessage_senderId persist)) = Throw e ->
  exists w', run [WorkerStep i c; WorkerStep i c; WorkerStep i c] w = Some w' /\
    terminated w' = Some e /\ forall l, step l w' = None.
Proof.
  intros Halive Hi Ha Hcls Hq Hp Hthrow.
  destruct (pop_front _ _ _ Ha) as [acts Hpop]. rewrite Hq, Hcls in Hpop.
  pose proof (lookup_lt_Some _ _ _ Hi) as Hlen.
  assert (exists k, StorageActor_handle env = RandomUuid k /\ k (ch_uuid c) = Raise e)
    as (k & Hk & Hke).
  { unfold StorageActor_handle. rewrite Hp. eexists. split; [reflexivity|]. cbn.
    destruct (string_generator (StoragePersistMessage_chatId persist)); cbn in *;
      [|by simplify_eq].
    by rewrite Hthrow. }
  set (w1 := set_worker (set_shared w (set_actors (sh w) acts)) i
               (WRun StorageActor (RandomUuid k) rest)).
  set (w2 := set_worker (set_shared w1 (sh w1)) i (WRun StorageActor (Raise e) rest)).
  assert (step (WorkerStep i c) w = Some w1) as Hs1.
  { unfold step, worker_step. rewrite Halive, Hi. cbn. rewrite Hpop. cbn. by rewrite Hk. }
  assert (step (WorkerStep i c) w1 = Some w2) as Hs2.
  { unfold step, worker_step, w2. cbn. rewrite Halive, list_lookup_insert_eq by done.
    cbn. by rewrite Hke. }
  assert (step (WorkerStep i c) w2 = Some (terminate w2 e)) as Hs3.
  { unfold step, worker_step. cbn. rewrite Halive, list_lookup_insert_eq; [done|].
    by rewrite length_insert. }
  exists (terminate w2 e). split; [|by split].
  cbn [run]. rewrite Hs1. cbn [mbind option_bind]. rewrite Hs2. cbn [mbind option_bind].
  by rewrite Hs3.
Qed.
End crash.

(** ** Concrete runs *)

Module Concrete.
#[local] Existing Instances ref_json ref_json_laws ref_uuid ref_uuid_laws.
#[local] Existing Instances list_queue list_queue_laws.
#[export] Instance key_order : ActorOrder := {| iteration D := elements D |}.
#[export] Instance key_order_laws : ActorOrderLaws.
Proof. by constructor. Qed.

Definition raw (text : string) : string :=
  jq ("{'type':'send_message','chat_id':'" +:+ uuid_text_a +:+ "','sender_id':'" +:+
      uuid_text_b +:+ "','recipient_session_id':'2','payload':{'text':'" +:+ text +:+ "'}}").
Definition bad_raw : string := jq "{'type':'send_message','payload':{'text':'hi'}}".
Definition c0 : choice := mkChoice uuid_a 0%Z.

Definition turns (i n : nat) : list label := replicate n (WorkerStep i c0).
Definition binds : list label := [Bind "1" 1%positive; Bind "2" 2%positive].
(** The [n]-th text received, and handed to the message actor. *)
Definition receive (n : nat) (rawMessage : string) : list label :=
  [Dispatch "1" rawMessage; NetStep n c0].

Definition after (capacity : Z) (ls : list label) : world (list Message) :=
  default (initial capacity []) (run ls (initial capacity [])).

Definition texts (w : world (list Message)) : list string :=
  Message_getContent <$> repository (sh w).

(** A message crosses the system: stored, confirmed and delivered. *)
Example one_message_stored :
  let w := after 8 (Start 1 :: binds ++ receive 0 (raw "hi") ++ turns 0 60) in
  texts w = ["hi"] /\ fst <$> outbox (sh w) = [1; 2]%positive /\ terminated w = None.
Proof. vm_compute. done. Qed.

Definition completes (capacity : Z) (ls : list label) : bool :=
  match run ls (initial capacity ([] : list Message)) with Some _ => true | None => false end.

Lemma run_after capacity ls :
  completes capacity ls = true ->
  run ls (initial capacity ([] : list Message)) = Some (after capacity ls).
Proof. unfold completes, after. by destruct (run ls _). Qed.

Definition reordering : list label :=
  binds ++ receive 0 (raw "a") ++ receive 1 (raw "b") ++
  turns 0 24 ++ turns 1 40 ++ turns 0 1.

(** C30: with two worker threads the order of messages is not kept: an actor
    can be run by both at once, and there is a run in which two messages of
    one session are stored in the opposite of the order in which they were
    handed to the message actor. *)
Theorem two_workers_can_reorder :
  exists ls w, Forall starts_no_worker ls /\
    run (Start 2 :: ls) (initial 8 ([] : list Message)) = Some w /\
    terminated w = None /\
    SendMessageEvent_text <$> accepted w = ["a"; "b"] /\ texts w = ["b"; "a"].
Proof.
  exists reordering, (after 8 (Start 2 :: reordering)). split_and!.
  - apply Forall_fold_right. vm_compute. by repeat split.
  - apply run_after. by vm_compute.
  - by vm_compute.
  - by vm_compute.
  - by vm_compute.
Qed.

Definition overflow : list label :=
  Start 2 :: binds ++ receive 0 (raw "a") ++ turns 0 6 ++ receive 1 (raw "b") ++
  turns 1 5 ++ turns 0 1 ++ turns 1 50 ++ turns 0 40.

Definition is_running (wk : worker) : bool :=
  match wk with WRun _ _ _ => true | _ => false end.

Lemma settled_by (w : world (list Message)) :
  forallb (fun wk => negb (is_running wk)) (workers_ w) = true ->
  (forall key, length (queued key (actors_ (sh w))) = 0) -> settled w.
Proof.
  intros Hall Hq. split; [|by split_and!; apply nil_length_inv, Hq].
  intros cls p rest Hin. rewrite forallb_forall in Hall.
  apply list_elem_of_In in Hin. by apply Hall in Hin.
Qed.

(** C31: a confirmation does not mean that the message is stored: there is a
    run, with full mailboxes and no exception, that settles with the message
    confirmed to its sender and neither stored nor in any mailbox. *)
Theorem confirmed_but_not_stored :
  exists ls w e text,
    run ls (initial 1 ([] : list Message)) = Some w /\ terminated w = None /\
    settled w /\ queued ActorType.session (actors_ (sh w)) = [] /\
    (e ∈ accepted w) /\
    (exists o, payload (echo_of e) = Outgoing o /\
       json_dump (SessionOutgoingEvent_payload o) = Ok text) /\
    ((1%positive, text) ∈ outbox (sh w)) /\ (Bind (SendMessageEvent_sessionId e) 1%positive ∈ ls) /\
    (SendMessageEvent_text e ∉ texts w).
Proof.
  exists overflow, (after 1 overflow), (mkSendMessageEvent "1" uuid_text_a uuid_text_b "2" "b").
  eexists. split_and!.
  - apply run_after. by vm_compute.
  - by vm_compute.
  - apply settled_by; [by vm_compute|]. intros []; by vm_compute.
  - apply nil_length_inv. by vm_compute.
  - apply (list_elem_of_lookup_2 _ 1). by vm_compute.
  - eexists. split; [reflexivity|]. vm_compute. reflexivity.
  - apply (list_elem_of_lookup_2 _ 0). by vm_compute.
  - apply list_elem_of_further, list_elem_of_here.
  - apply (bool_decide_unpack _). by vm_compute.
Qed.

(** ** The theorems on runs at concrete runs *)

Definition hi : SendMessageEvent := mkSendMessageEvent "1" uuid_text_a uuid_text_b "2" "hi".
Definition received : list label := receive 0 (raw "hi").
Definition crossing : list label := binds ++ received ++ turns 0 60.

Lemma received_completes : completes 8 received = true.
Proof. by vm_compute. Qed.

Lemma received_queued : exists env,
  env ∈ queued ActorType.message (actors_ (sh (after 8 received))).
Proof.
  assert (length (queued ActorType.message (actors_ (sh (after 8 received)))) = 1) as Hl
    by by vm_compute.
  destruct (queued _ _) as [|env q]; [done|]. exists env. apply list_elem_of_here.
Qed.

Lemma mailboxes_well_routed_witness :
  exists env, (env ∈ queued ActorType.message (actors_ (sh (after 8 received)))) /\
    destination env = ActorType.message /\ well_routed env.
Proof.
  destruct received_queued as [env Hin]. exists env. split; [exact Hin|].
  refine (mailboxes_well_routed received 8 [] _ _ env _ Hin).
  apply run_after, received_completes.
Defined.

Lemma mailboxes_bounded_witness :
  let w := after 8 received in
  length (queued ActorType.message (actors_ (sh w))) = 1 /\
  actor_shape <$> actors_ (sh w) = actor_shape <$> server_actors 8.
Proof.
  intros w. split; [by vm_compute|].
  refine (proj1 (mailboxes_bounded received 8 [] w ActorType.message _ _)); [done|].
  apply run_after, received_completes.
Defined.

Lemma crossing_completes : completes 8 (Start 1 :: crossing) = true.
Proof. by vm_compute. Qed.

Lemma crossing_settled : settled (after 8 (Start 1 :: crossing)).
Proof. apply settled_by; [by vm_compute|]. intros []; by vm_compute. Qed.

Lemma messages_conserved_witness :
  let w := after 8 (Start 1 :: crossing) in
  length (stored (repository (sh w))) = 1 /\
  (key_of_row <$> stored (repository (sh w))) ++ lost_keys (sh w) ≡ₚ
    [] ++ (key_of_event <$> accepted w).
Proof.
  intros w. split; [by vm_compute|].
  refine (proj2 (messages_conserved (Start 1 :: crossing) 8 [] w _ _) _); [done|..].
  - apply run_after, crossing_completes.
  - apply crossing_settled.
Defined.

Lemma stored_messages_were_requested_witness :
  let w := after 8 (Start 1 :: crossing) in
  length (stored (repository (sh w))) = 1 /\
  (key_of_row <$> stored (repository (sh w))) ⊆+
    [] ++ (key_of_event <$> omap label_event (Start 1 :: crossing)).
Proof.
  intros w. split; [by vm_compute|].
  refine (stored_messages_were_requested (Start 1 :: crossing) 8 [] w _ _); [done|].
  apply run_after, crossing_completes.
Defined.

Lemma crossing_starts_no_worker : Forall starts_no_worker crossing.
Proof. apply Forall_fold_right. vm_compute. by repeat split. Qed.

Lemma one_worker_keeps_order_witness :
  let w := after 8 (Start 1 :: crossing) in
  length (stored (repository (sh w))) = 1 /\
  (key_of_row <$> stored (repository (sh w))) `sublist_of`
    [] ++ (key_of_event <$> accepted w).
Proof.
  intros w. split; [by vm_compute|].
  refine (one_worker_keeps_order crossing 8 [] w _ _ _); [done|..].
  - apply crossing_starts_no_worker.
  - apply run_after, crossing_completes.
Defined.

Lemma only_top (l : list worker) :
  match l with [WTop] => true | _ => false end = true -> l = [WTop].
Proof. by destruct l as [|[] []]. Qed.

Lemma one_worker_drains_witness :
  let w := after 8 (Start 1 :: received) in
  eventually (fun w' =>
    is_Some (terminated w') \/
    (forall key, queued key (actors_ (sh w')) = []) /\ settled w' /\
    accepted w' = accepted w /\
    (key_of_row <$> stored (repository (sh w'))) ++ lost_keys (sh w') ≡ₚ
      [] ++ (key_of_event <$> accepted w)) w.
Proof.
  intros w.
  refine (one_worker_drains (Start 1 :: received) 8 [] w WTop _ _ _ _ _ _); [done|..|done].
  - apply run_after. by vm_compute.
  - by vm_compute.
  - by vm_compute.
  - apply only_top. by vm_compute.
Defined.

(** Two workers and one dispatch take turns. *)
Definition round_robin : nat -> label :=
  rounds (WorkerStep 0 c0) [WorkerStep 1 c0; NetStep 0 c0].

Lemma round_robin_turn l :
  l ∈ [WorkerStep 0 c0; WorkerStep 1 c0; NetStep 0 c0] -> recurs (fun l' => l' = l) round_robin.
Proof. apply rounds_recurs. Qed.

Lemma round_robin_fair : fair 2 1 round_robin.
Proof.
  split.
  - intros k. apply (rounds_Forall (fun l => silent l = true)). by repeat constructor.
  - intros i Hi. apply (recurs_mono (fun l => l = WorkerStep i c0)); [by eexists|].
    apply round_robin_turn. destruct i as [|[|]]; [set_solver..|lia].
  - intros i Hi. apply (recurs_mono (fun l => l = NetStep i c0)); [by eexists|].
    apply round_robin_turn. destruct i; [set_solver|lia].
Qed.

Definition arriving : list label := Start 2 :: binds ++ [Dispatch "1" (raw "hi")].

Lemma first_top (l : list worker) :
  match l with WTop :: _ => true | _ => false end = true -> l !! 0 = Some WTop.
Proof. by destruct l as [|[]]. Qed.

Lemma fair_schedules_settle_witness :
  let w := after 8 arriving in
  exists n, let w' := drive step n round_robin w in
    is_Some (terminated w') \/
    (forall key, queued key (actors_ (sh w')) = []) /\ settled w' /\
    (forall j p, net w' !! j = Some p -> p = Ret tt) /\
    (key_of_row <$> stored (repository (sh w'))) ++ lost_keys (sh w') ≡ₚ
      [] ++ (key_of_event <$> accepted w').
Proof.
  intros w.
  refine (fair_schedules_settle arriving 8 [] w round_robin 0 WTop _ _ _ _ _ _ _); [done|..].
  - apply run_after. by vm_compute.
  - by vm_compute.
  - by vm_compute.
  - apply first_top. by vm_compute.
  - done.
  - assert (length (workers_ w) = 2 /\ length (net w) = 1) as [-> ->]
      by (split; by vm_compute).
    exact round_robin_fair.
Defined.

Definition hi_text : string :=
  jq ("{'chat_id':'" +:+ uuid_text_a +:+
      "','payload':{'text':'hi'},'type':'message_delivered'}").

Lemma texts_reach_their_sessions_only_witness :
  let w := after 8 (Start 1 :: crossing) in
  ((1%positive, hi_text) ∈ outbox (sh w)) /\
  exists sid raw e target, (Dispatch sid raw ∈ Start 1 :: crossing) /\
    requested_event sid raw = Some e /\ (Bind target 1%positive ∈ Start 1 :: crossing).
Proof.
  intros w. assert ((1%positive, hi_text) ∈ outbox (sh w)) as Hin.
  { apply (list_elem_of_lookup_2 _ 0). by vm_compute. }
  split; [exact Hin|].
  destruct (texts_reach_their_sessions_only (Start 1 :: crossing) 8 [] w 1%positive hi_text)
    as (sid & rw & e & target & Hd & He & Hb & _).
  - apply run_after, crossing_completes.
  - exact Hin.
  - by exists sid, rw, e, target.
Defined.

(** A message without [chat_id], on its way to the storage actor. *)
Definition poisoned : list label := Start 1 :: receive 0 bad_raw ++ turns 0 16.

Definition refused_ids (env : ActorEnvelope) : bool :=
  match payload env with
  | Persist p => negb (is_Ok (_ ← string_generator (StoragePersistMessage_chatId p);
                              string_generator (StoragePersistMessage_senderId p)))
  | _ => false
  end.

Definition about_to_crash (w : world (list Message)) : bool :=
  match terminated w, workers_ w, head (queued ActorType.storage (actors_ (sh w))) with
  | None, [WScan (ActorType.storage :: _) _], Some env => refused_ids env
  | _, _, _ => false
  end.

Lemma registered (w : world (list Message)) :
  match actors_ (sh w) !! ActorType.storage with
  | Some a => same_class (actor_class a) StorageActor
  | None => false
  end = true ->
  exists a, actors_ (sh w) !! ActorType.storage = Some a /\ actor_class a = StorageActor.
Proof.
  destruct (actors_ (sh w) !! ActorType.storage) as [a|]; [|done].
  intros Hc. exists a. split; [done|]. by destruct (actor_class a).
Qed.

Lemma about_to_crash_spec w :
  about_to_crash w = true ->
  exists rest b env p e, terminated w = None /\
    workers_ w !! 0 = Some (WScan (ActorType.storage :: rest) b) /\
    head (queued ActorType.storage (actors_ (sh w))) = Some env /\ payload env = Persist p /\
    (_ ← string_generator (StoragePersistMessage_chatId p);
     string_generator (StoragePersistMessage_senderId p)) = Throw e.
Proof.
  unfold about_to_crash. intros Hc.
  destruct (terminated w) eqn:Ht; [done|].
  destruct (workers_ w) as [|[|[|[] rest] b| | |] []]; try done.
  destruct (head _) as [env|]; [|done]. unfold refused_ids in Hc.
  destruct (payload env) as [| | | |p|] eqn:Hp; try done.
  destruct (_ ← string_generator _; _) as [|e] eqn:Hthrow; [done|].
  by exists rest, b, env, p, e.
Qed.

Lemma invalid_id_ends_process_witness :
  exists e w', run (turns 0 3) (after 8 poisoned) = Some w' /\
    terminated w' = Some e /\ forall l, step l w' = None.
Proof.
  assert (about_to_crash (after 8 poisoned) = true) as Hc by by vm_compute.
  apply about_to_crash_spec in Hc as (rest & b & env & p & e & Ht & Hi & Hq & Hp & Hthrow).
  destruct (registered (after 8 poisoned)) as (a & Ha & Hcls); [by vm_compute|].
  exists e.
  exact (invalid_id_ends_process _ 0 rest b env p e a c0 Ht Hi Ha Hcls Hq Hp Hthrow).
Defined.
End Concrete.
