(* ===== verification/WsSession.v ===== *)
(** * Websocket sessions

    [src/infrastructure/network/websocket]: one [WebSocketSession] as a state
    machine over the completions of its asynchronous operations, and the
    session ids the [WebSocketListener] hands out.

    The handlers of a session run one at a time on its strand. [send] posts a
    handler to the strand, which keeps the order of the posts; [async_read]
    and [async_write] complete in some later step, with or without an error. *)
From S2P Require Import Prelude CppString Actor.

(** ** websocket_session.cpp *)

(** Where the reading side is: the handshake in progress, a read in progress,
    or neither (the handshake failed, or a read did). *)
Inductive reader : Type := Accepting | Reading | Idle.

(** [posted] are the handlers of [send] waiting on the strand, oldest first;
    [writing] the text of the [async_write] in progress. History variables:
    [sends] are the calls of [send], [wire] the completed writes, [binds] the
    calls on the session actor (true for bind, false for unbind), [dispatched]
    the texts given to the dispatcher, [overlapped] whether a write was
    started while one was in progress, [write_failed] whether one failed. *)
Record WebSocketSession : Type := mkSession {
  sessionId_ : string;
  reader_ : reader;
  posted_ : list string;
  writeQueue_ : list string;
  writing : option string;
  sends : list string;
  wire : list string;
  binds : list bool;
  dispatched : list string;
  overlapped : bool;
  write_failed : bool;
  ws_log : list (level * string * list string)
}.

Definition session_run (sessionId : string) : WebSocketSession :=
  mkSession sessionId Accepting [] [] None [] [] [] [] false false [].

(** [doRead] starts a read. *)
Definition doRead (s : WebSocketSession) : WebSocketSession :=
  mkSession (sessionId_ s) Reading (posted_ s) (writeQueue_ s) (writing s) (sends s) (wire s)
    (binds s) (dispatched s) (overlapped s) (write_failed s) (ws_log s).
Definition stop_reading (s : WebSocketSession) : WebSocketSession :=
  mkSession (sessionId_ s) Idle (posted_ s) (writeQueue_ s) (writing s) (sends s) (wire s)
    (binds s) (dispatched s) (overlapped s) (write_failed s) (ws_log s).
(** The calls of [bindTransport] and [unbindTransport] with [sessionId_]. *)
Definition note_bind (b : bool) (s : WebSocketSession) : WebSocketSession :=
  mkSession (sessionId_ s) (reader_ s) (posted_ s) (writeQueue_ s) (writing s) (sends s) (wire s)
    (binds s ++ [b]) (dispatched s) (overlapped s) (write_failed s) (ws_log s).
Definition note_dispatch (raw : string) (s : WebSocketSession) : WebSocketSession :=
  mkSession (sessionId_ s) (reader_ s) (posted_ s) (writeQueue_ s) (writing s) (sends s) (wire s)
    (binds s) (dispatched s ++ [raw]) (overlapped s) (write_failed s) (ws_log s).
Definition with_queue (q : list string) (s : WebSocketSession) : WebSocketSession :=
  mkSession (sessionId_ s) (reader_ s) (posted_ s) q (writing s) (sends s) (wire s)
    (binds s) (dispatched s) (overlapped s) (write_failed s) (ws_log s).

Definition note_log (line : level * string * list string) (s : WebSocketSession) : WebSocketSession :=
  mkSession (sessionId_ s) (reader_ s) (posted_ s) (writeQueue_ s) (writing s) (sends s) (wire s)
    (binds s) (dispatched s) (overlapped s) (write_failed s) (ws_log s ++ [line]).

(** [ec] is the message of the error code, if there is an error. *)
Definition session_onAccept (ec : option string) (s : WebSocketSession) : WebSocketSession :=
  match ec with
  | Some message => stop_reading (note_log (error, "ws accept error: {}", [message]) s)
  | None => doRead (note_bind true s)
  end.

Definition session_onRead (o : option string) (s : WebSocketSession) : WebSocketSession :=
  match o with
  | None => stop_reading (note_bind false s)
  | Some raw => doRead (note_dispatch raw s)
  end.

(** [doWrite] on the front of the queue; on an empty deque [front] would be
    undefined, which [None] stands for. *)
Definition doWrite (s : WebSocketSession) : WebSocketSession :=
  mkSession (sessionId_ s) (reader_ s) (posted_ s) (writeQueue_ s) (head (writeQueue_ s)) (sends s)
    (wire s) (binds s) (dispatched s)
    (overlapped s || match writing s with Some _ => true | None => false end) (write_failed s)
    (ws_log s).

Definition session_send (payload : string) (s : WebSocketSession) : WebSocketSession :=
  mkSession (sessionId_ s) (reader_ s) (posted_ s ++ [payload]) (writeQueue_ s) (writing s)
    (sends s ++ [payload]) (wire s) (binds s) (dispatched s) (overlapped s) (write_failed s) (ws_log s).

(** The handler [send] posts. *)
Definition session_posted (payload : string) (s : WebSocketSession) : WebSocketSession :=
  let writing := negb (match writeQueue_ s with [] => true | _ => false end) in
  let s := with_queue (writeQueue_ s ++ [payload]) s in
  if negb writing then doWrite s else s.

(** The write in progress has ended, and what the handler does about it. *)
Definition write_ended (ok : bool) (text : string) (s : WebSocketSession) : WebSocketSession :=
  mkSession (sessionId_ s) (reader_ s) (posted_ s) (writeQueue_ s) None (sends s)
    (if ok then wire s ++ [text] else wire s) (binds s) (dispatched s) (overlapped s)
    (write_failed s || negb ok) (ws_log s).

Definition session_onWrite (ok : bool) (s : WebSocketSession) : WebSocketSession :=
  if negb ok then note_bind false s
  else
    let s := with_queue (tail (writeQueue_ s)) s in
    match writeQueue_ s with [] => s | _ => doWrite s end.

Inductive ws_event : Type :=
| EvSend (payload : string)
| EvPosted
| EvAccept (ec : option string)
| EvRead (o : option string)
| EvWrite (ok : bool).

(** One step; none when the operation that would complete is not in progress. *)
Definition ws_step (e : ws_event) (s : WebSocketSession) : option WebSocketSession :=
  match e with
  | EvSend payload => Some (session_send payload s)
  | EvPosted =>
      match posted_ s with
      | [] => None
      | p :: rest =>
          Some (session_posted p (mkSession (sessionId_ s) (reader_ s) rest (writeQueue_ s)
            (writing s) (sends s) (wire s) (binds s) (dispatched s) (overlapped s)
            (write_failed s) (ws_log s)))
      end
  | EvAccept ec => match reader_ s with Accepting => Some (session_onAccept ec s) | _ => None end
  | EvRead o => match reader_ s with Reading => Some (session_onRead o s) | _ => None end
  | EvWrite ok =>
      match writing s with
      | Some text => Some (session_onWrite ok (write_ended ok text s))
      | None => None
      end
  end.

Fixpoint ws_run (es : list ws_event) (s : WebSocketSession) : option WebSocketSession :=
  match es with
  | [] => Some s
  | e :: es' => s' ← ws_step e s; ws_run es' s'
  end.

(** The steps a session makes of itself; [send] is called from outside. *)
Definition own_event (e : ws_event) : bool :=
  match e with EvSend _ => false | _ => true end.

(** ** Invariants *)

Lemma ws_step_frame e s s' :
  own_event e = true -> ws_step e s = Some s' ->
  sessionId_ s' = sessionId_ s /\ sends s' = sends s /\
  dispatched s' = dispatched s ++ match e with EvRead (Some raw) => [raw] | _ => [] end.
Proof.
  intros He Hs. destruct e as [payload| |ok|o|ok]; cbn in He, Hs; [done|..].
  - destruct (posted_ s) as [|p rest]; [done|]. simplify_eq. unfold session_posted. cbn.
    destruct (writeQueue_ s); cbn; by rewrite app_nil_r.
  - destruct (reader_ s); [|done..]. simplify_eq. destruct ok; cbn; by rewrite app_nil_r.
  - destruct (reader_ s); [done| |done]. simplify_eq. destruct o; cbn; by rewrite ?app_nil_r.
  - destruct (writing s); [|done]. simplify_eq. unfold session_onWrite.
    destruct ok; cbn; [|by rewrite app_nil_r].
    destruct (tail (writeQueue_ s)); cbn; by rewrite app_nil_r.
Qed.

(** What is on the wire, queued and posted is what was sent, in order; the
    text being written is the front of the queue; and there is one as long as
    the queue is not empty, until a write fails. *)
Record write_inv (s : WebSocketSession) : Prop := {
  wi_order : wire s ++ writeQueue_ s ++ posted_ s = sends s;
  wi_single : overlapped s = false;
  wi_writing : writing s = if write_failed s then None else head (writeQueue_ s);
  wi_failed : write_failed s = true -> writeQueue_ s <> []
}.

Lemma ws_step_write_inv e s s' : write_inv s -> ws_step e s = Some s' -> write_inv s'.
Proof.
  intros [Ho Hs Hw Hf] Hstep. destruct e as [payload| |ok|o|ok]; cbn in Hstep; simplify_eq.
  - split; cbn; try done. by rewrite <- Ho, <- !app_assoc.
  - destruct (posted_ s) as [|p rest] eqn:Hp; [done|]. simplify_eq. unfold session_posted. cbn.
    destruct (writeQueue_ s) as [|x q] eqn:Hq; cbn in *.
    + destruct (write_failed s) eqn:Hwf; [by destruct Hf|].
      split; cbn; rewrite ?Hs, ?Hw, ?Hwf; done.
    + split; cbn; rewrite ?Hs; try done. by rewrite <- Ho, <- app_assoc.
  - destruct (reader_ s); [|done..]. simplify_eq. unfold session_onAccept.
    by destruct ok; split.
  - destruct (reader_ s); [done| |done]. simplify_eq. unfold session_onRead.
    by destruct o; split.
  - destruct (writing s) as [text|] eqn:Ht; [|done]. simplify_eq.
    destruct (write_failed s) eqn:Hwf; [done|].
    destruct (writeQueue_ s) as [|x q] eqn:Hq; [done|]. cbn in Hw. simplify_eq.
    unfold session_onWrite. destruct ok; cbn; rewrite ?Hq; cbn.
    + destruct q as [|y q]; cbn; split; cbn; rewrite ?Hs, ?Hwf, <- ?app_assoc; done.
    + split; cbn; rewrite ?Hs, ?Hq, ?orb_true_r; done.
Qed.

Lemma ws_run_write_inv es s s' : write_inv s -> ws_run es s = Some s' -> write_inv s'.
Proof.
  revert s. induction es as [|e es IH]; intros s Hi Hr; cbn in Hr; [by simplify_eq|].
  destruct (ws_step e s) as [s1|] eqn:He; [|done]. cbn in Hr.
  eauto using ws_step_write_inv.
Qed.

Lemma session_run_write_inv sid : write_inv (session_run sid).
Proof. by split. Qed.

(** C22: texts leave a session in the order in which [send] was called for
    them, each at most once and one at a time: in every interleaving of sends,
    strand handlers and completions the completed writes are a prefix of the
    sends, a write is never started while another is in progress, and while
    no write has failed nothing is lost on the way. *)
Theorem session_writes_in_order sid es s :
  ws_run es (session_run sid) = Some s ->
  wire s `prefix_of` sends s /\ overlapped s = false /\
  wire s ++ writeQueue_ s ++ posted_ s = sends s /\
  (write_failed s = false -> writing s = head (writeQueue_ s)).
Proof.
  intros [Ho Hs Hw _]%ws_run_write_inv; [|apply session_run_write_inv].
  split_and!; try done; [by exists (writeQueue_ s ++ posted_ s)|].
  intros Hwf. by rewrite Hw, Hwf.
Qed.

(** What is left when only strand handlers and successful writes run. *)
Definition flushing (e : ws_event) : Prop :=
  match e with EvPosted | EvWrite true => True | _ => False end.

Lemma flush_queue n s :
  write_inv s -> write_failed s = false -> posted_ s = [] -> length (writeQueue_ s) = n ->
  exists es s', Forall flushing es /\ ws_run es s = Some s' /\ write_failed s' = false /\
    writeQueue_ s' = [] /\ posted_ s' = [] /\ sends s' = sends s.
Proof.
  revert s. induction n as [|n IH]; intros s Hi Hf Hp Hn.
  - exists [], s. split_and!; try done. by apply nil_length_inv.
  - destruct (writeQueue_ s) as [|x q] eqn:Hq; [done|].
    assert (writing s = Some x) as Hw by (rewrite (wi_writing _ Hi), Hf, Hq; done).
    destruct (ws_step (EvWrite true) s) as [s1|] eqn:Hs; [|cbn in Hs; by rewrite Hw in Hs].
    pose proof (ws_step_write_inv _ _ _ Hi Hs) as Hi1.
    assert (write_failed s1 = false /\ posted_ s1 = [] /\ sends s1 = sends s /\
            writeQueue_ s1 = q) as (Hf1 & Hp1 & Hs1 & Hq1).
    { cbn in Hs. rewrite Hw in Hs. injection Hs as <-. unfold session_onWrite. cbn.
      rewrite Hq. cbn. destruct q; cbn; by rewrite Hf. }
    destruct (IH s1) as (es & s' & Hes & Hr & Hf' & Hq' & Hp' & Hs'); try done.
    { rewrite Hq1. cbn in Hn. lia. }
    exists (EvWrite true :: es), s'. split_and!; try done; [by constructor|..].
    + cbn [ws_run]. by rewrite Hs.
    + congruence.
Qed.

Lemma flush_posted n s :
  write_inv s -> write_failed s = false -> length (posted_ s) = n ->
  exists es s', Forall flushing es /\ ws_run es s = Some s' /\ write_inv s' /\
    write_failed s' = false /\ posted_ s' = [] /\ sends s' = sends s.
Proof.
  revert s. induction n as [|n IH]; intros s Hi Hf Hn.
  - exists [], s. split_and!; try done. by apply nil_length_inv.
  - destruct (posted_ s) as [|p rest] eqn:Hp; [done|].
    destruct (ws_step EvPosted s) as [s1|] eqn:Hs; [|cbn in Hs; by rewrite Hp in Hs].
    pose proof (ws_step_write_inv _ _ _ Hi Hs) as Hi1.
    assert (write_failed s1 = false /\ posted_ s1 = rest /\ sends s1 = sends s) as (Hf1 & Hp1 & Hs1).
    { cbn in Hs. rewrite Hp in Hs. injection Hs as <-. unfold session_posted. cbn.
      by destruct (writeQueue_ s); cbn. }
    destruct (IH s1) as (es & s' & Hes & Hr & Hi' & Hf' & Hp' & Hs'); try done.
    { rewrite Hp1. cbn in Hn. lia. }
    exists (EvPosted :: es), s'. split_and!; try done; [by constructor|..].
    + cbn [ws_run]. by rewrite Hs.
    + congruence.
Qed.

Lemma ws_run_app es1 es2 s s1 :
  ws_run es1 s = Some s1 -> ws_run (es1 ++ es2) s = ws_run es2 s1.
Proof.
  revert s. induction es1 as [|e es1 IH]; intros s Hr; cbn in *; [by simplify_eq|].
  destruct (ws_step e s); [by apply IH|done].
Qed.

(** C23: a session whose writes succeed sends everything: from every reachable
    state in which no write has failed, the handlers already posted and writes
    that succeed, and nothing else, bring every text sent so far to the wire,
    in order. *)
Theorem session_flushes sid es s :
  ws_run es (session_run sid) = Some s -> write_failed s = false ->
  exists es' s', Forall flushing es' /\ ws_run es' s = Some s' /\
    wire s' = sends s /\ writing s' = None.
Proof.
  intros Hr Hf. pose proof (ws_run_write_inv _ _ _ (session_run_write_inv sid) Hr) as Hi.
  destruct (flush_posted _ s Hi Hf eq_refl) as (es1 & s1 & He1 & Hr1 & Hi1 & Hf1 & Hp1 & Hs1).
  destruct (flush_queue _ s1 Hi1 Hf1 Hp1 eq_refl) as (es2 & s2 & He2 & Hr2 & Hf2 & Hq2 & Hp2 & Hs2).
  pose proof (ws_run_write_inv _ _ _ Hi1 Hr2) as [Ho _ Hw _].
  exists (es1 ++ es2), s2. split_and!.
  - by apply Forall_app.
  - by rewrite (ws_run_app _ _ _ _ Hr1).
  - rewrite Hq2, Hp2, app_nil_r in Ho. congruence.
  - by rewrite Hw, Hf2, Hq2.
Qed.

Lemma failed_step e s s' :
  write_inv s -> write_failed s = true -> ws_step e s = Some s' ->
  write_failed s' = true /\ wire s' = wire s /\ writeQueue_ s `prefix_of` writeQueue_ s'.
Proof.
  intros [_ _ Hw Hne] Hf Hs. rewrite Hf in Hw.
  destruct e as [payload| |ok|o|ok]; cbn in Hs; simplify_eq; try done.
  - destruct (posted_ s) as [|p rest]; [done|]. simplify_eq. unfold session_posted. cbn.
    destruct (writeQueue_ s) as [|x q]; [by destruct Hne|]. split_and!; cbn; try done.
    by apply prefix_cons, prefix_app_r.
  - destruct (reader_ s); [|done..]. simplify_eq. unfold session_onAccept. by destruct ok.
  - destruct (reader_ s); [done| |done]. simplify_eq. unfold session_onRead. by destruct o.
  - by rewrite Hw in Hs.
Qed.

(** A failed write is the last one: afterwards nothing more reaches the
    wire and no text ever leaves the queue again, however many texts are sent;
    they are kept until the session is destroyed. *)
Theorem failed_session_keeps_everything sid es s es' s' :
  ws_run es (session_run sid) = Some s -> write_failed s = true ->
  ws_run es' s = Some s' ->
  wire s' = wire s /\ writeQueue_ s `prefix_of` writeQueue_ s' /\
  writeQueue_ s' ++ posted_ s' = drop (length (wire s)) (sends s').
Proof.
  intros Hr Hf Hr'. pose proof (ws_run_write_inv _ _ _ (session_run_write_inv sid) Hr) as Hi.
  assert (wire s' = wire s /\ writeQueue_ s `prefix_of` writeQueue_ s' /\ write_inv s')
    as (Hw & Hq & Hi').
  { clear Hr. revert s Hi Hf Hr'. induction es' as [|e es' IH]; intros s Hi Hf Hr'; cbn in Hr'.
    - by simplify_eq.
    - destruct (ws_step e s) as [s1|] eqn:He; [|done]. cbn in Hr'.
      destruct (failed_step _ _ _ Hi Hf He) as (Hf1 & Hw1 & Hq1).
      destruct (IH s1 (ws_step_write_inv _ _ _ Hi He) Hf1 Hr') as (Hw & Hq & Hi').
      split_and!; [congruence|by etrans|done]. }
  split_and!; [done|done|]. rewrite <- (wi_order _ Hi'), Hw. by rewrite drop_app_length.
Qed.

(** *** Reading *)

(** How often [bindTransport] (true) or [unbindTransport] (false) was called. *)
Definition count_calls (b : bool) (l : list bool) : nat := length (filter (fun x => x = b) l).
#[local] Arguments count_calls : simpl never.

Lemma count_calls_snoc b l b' :
  count_calls b (l ++ [b']) = count_calls b l + (if Bool.eqb b' b then 1 else 0).
Proof.
  unfold count_calls. rewrite filter_app, length_app. f_equal.
  by destruct b, b'.
Qed.

Definition read_inv (s : WebSocketSession) : Prop :=
  match reader_ s with
  | Accepting => count_calls true (binds s) = 0 /\ dispatched s = []
  | Reading => count_calls true (binds s) = 1
  | Idle => count_calls true (binds s) <= 1 /\
      (count_calls true (binds s) = 0 -> dispatched s = [])
  end /\
  count_calls false (binds s) =
    (if write_failed s then 1 else 0) +
    (match reader_ s with Idle => count_calls true (binds s) | _ => 0 end).

Lemma ws_step_read_inv e s s' :
  write_inv s -> read_inv s -> ws_step e s = Some s' -> read_inv s'.
Proof.
  intros Hw [Hr Hc] Hs. unfold read_inv. destruct e as [payload| |ok|o|ok]; cbn in Hs; simplify_eq.
  - done.
  - destruct (posted_ s) as [|p rest]; [done|]. simplify_eq. unfold session_posted. cbn.
    by destruct (writeQueue_ s).
  - destruct (reader_ s); [|done..]. simplify_eq. unfold session_onAccept.
    destruct Hr as [Hr Hd]. destruct ok; cbn; rewrite ?count_calls_snoc; cbn; auto with lia.
  - destruct (reader_ s); [done| |done]. simplify_eq. unfold session_onRead.
    destruct o; cbn; rewrite ?count_calls_snoc; cbn; auto with lia.
  - destruct (writing s) as [text|] eqn:Ht; [|done]. simplify_eq.
    pose proof (wi_writing _ Hw) as Hwr. destruct (write_failed s) eqn:Hf; [congruence|].
    unfold session_onWrite. destruct ok; cbn.
    + destruct (tail (writeQueue_ s)); cbn; by rewrite Hf.
    + rewrite !count_calls_snoc, Hf. cbn. rewrite !Nat.add_0_r.
      destruct (reader_ s); split; try done; lia.
Qed.

Lemma ws_run_read_inv es s s' :
  write_inv s -> read_inv s -> ws_run es s = Some s' -> read_inv s'.
Proof.
  revert s. induction es as [|e es IH]; intros s Hw Hi Hr; cbn in Hr; [by simplify_eq|].
  destruct (ws_step e s) as [s1|] eqn:He; [|done]. cbn in Hr.
  eauto using ws_step_write_inv, ws_step_read_inv.
Qed.

(** A session binds its transport at most once, and has done so before
    its first text goes to the dispatcher; it unbinds after the end of reading
    and after a failed write, so at most twice, and a session whose read has
    failed has unbound. *)
Theorem session_binding sid es s :
  ws_run es (session_run sid) = Some s ->
  count_calls true (binds s) <= 1 /\ count_calls false (binds s) <= 2 /\
  (dispatched s <> [] -> count_calls true (binds s) = 1) /\
  (reader_ s = Idle -> count_calls true (binds s) <= count_calls false (binds s)) /\
  (write_failed s = true -> 1 <= count_calls false (binds s)).
Proof.
  intros Hr. assert (read_inv s) as [Hi Hc].
  { eapply ws_run_read_inv; [apply session_run_write_inv| |exact Hr]. by split. }
  assert (count_calls true (binds s) = 0 \/ count_calls true (binds s) = 1) as Hcases.
  { destruct (reader_ s); lia. }
  destruct (reader_ s), (write_failed s); split_and!; try done; try lia.
  all: try (by destruct Hi as [_ ->]).
  all: intros Hd; destruct Hcases as [Hz|]; [by destruct Hi as [_ Hn]; rewrite Hn in Hd|done].
Qed.

(** ** websocket_listener.cpp *)

(** [nextSessionId_] and the sessions made, by id. *)
Record WebSocketListener : Type := mkListener {
  nextSessionId_ : Z;
  sessions : list string
}.

Definition listener_onAccept (ok : bool) (l : WebSocketListener) : WebSocketListener :=
  if ok then
    let next := wrap64 (nextSessionId_ l + 1) in
    mkListener next (sessions l ++ [to_string_u (Z.to_N next)])
  else l.

(** [n] successful accepts; [onAccept] starts the next one each time. *)
Fixpoint listener_accepts (n : nat) (l : WebSocketListener) : WebSocketListener :=
  match n with O => l | S n' => listener_onAccept true (listener_accepts n' l) end.

Lemma listener_accepts_ids n :
  (Z.of_nat n < two64)%Z ->
  listener_accepts n (mkListener 0 []) =
    mkListener (Z.of_nat n) ((fun i => to_string_u (N.of_nat i)) <$> seq 1 n).
Proof.
  induction n as [|n IH]; intros Hn; [done|].
  cbn [listener_accepts]. rewrite IH by lia.
  unfold listener_onAccept. cbn [nextSessionId_ sessions].
  rewrite wrap64_small by lia. f_equal; [lia|].
  rewrite seq_S, fmap_app. cbn. do 3 f_equal. lia.
Qed.

(** Up to 2^64 accepted connections no two sessions have the same id, so
    that a binding in the session actor's table is never taken over by a later
    session. *)
Theorem session_ids_distinct n :
  (Z.of_nat n < two64)%Z -> NoDup (sessions (listener_accepts n (mkListener 0 []))).
Proof.
  intros Hn. rewrite (listener_accepts_ids n Hn). cbn.
  apply NoDup_fmap; [|apply NoDup_seq]. intros i j Hij. apply Nat2N.inj.
  by apply (inj (pretty (A:=N))).
Qed.

(** ** Concrete sessions *)

Definition ws_after (es : list ws_event) : WebSocketSession :=
  default (session_run "1") (ws_run es (session_run "1")).

Lemma ws_run_after es :
  match ws_run es (session_run "1") with Some _ => true | None => false end = true ->
  ws_run es (session_run "1") = Some (ws_after es).
Proof. unfold ws_after. by destruct (ws_run es _). Qed.

Definition two_sends : list ws_event :=
  [EvAccept None; EvSend "a"; EvSend "b"; EvPosted; EvPosted; EvWrite true].
Definition broken : list ws_event := [EvAccept None; EvSend "a"; EvPosted; EvWrite false].
Definition read_once : list ws_event := [EvAccept None; EvRead (Some "x"); EvRead None].

Lemma session_writes_in_order_witness :
  wire (ws_after two_sends) = ["a"] /\
  writing (ws_after two_sends) = head (writeQueue_ (ws_after two_sends)).
Proof.
  split; [by vm_compute|].
  destruct (session_writes_in_order "1" two_sends (ws_after two_sends)) as (_ & _ & _ & Hw);
    [apply ws_run_after; by vm_compute|]. apply Hw. by vm_compute.
Defined.

Lemma session_flushes_witness :
  exists es' s', Forall flushing es' /\ ws_run es' (ws_after two_sends) = Some s' /\
    wire s' = sends (ws_after two_sends).
Proof.
  destruct (session_flushes "1" two_sends (ws_after two_sends)) as (es' & s' & Hes & Hr & Hw & _);
    [apply ws_run_after; by vm_compute|by vm_compute|].
  by exists es', s'.
Defined.

Lemma failed_session_keeps_everything_witness :
  exists s', ws_run [EvSend "b"; EvPosted] (ws_after broken) = Some s' /\
    wire s' = wire (ws_after broken) /\ writeQueue_ s' = ["a"; "b"].
Proof.
  destruct (ws_run [EvSend "b"; EvPosted] (ws_after broken)) as [s'|] eqn:Hr;
    [|by vm_compute in Hr].
  exists s'. split; [done|].
  destruct (failed_session_keeps_everything "1" broken (ws_after broken)
    [EvSend "b"; EvPosted] s') as (Hw & _); [apply ws_run_after; by vm_compute|by vm_compute|done|].
  split; [exact Hw|]. vm_compute in Hr. by injection Hr as <-.
Defined.

Lemma session_binding_witness :
  binds (ws_after read_once) = [true; false] /\
  count_calls true (binds (ws_after read_once)) <= 1.
Proof.
  split; [by vm_compute|].
  destruct (session_binding "1" read_once (ws_after read_once)) as [Hb _];
    [apply ws_run_after; by vm_compute|]. exact Hb.
Defined.

Lemma session_ids_distinct_witness :
  sessions (listener_accepts 3 (mkListener 0 [])) = ["1"; "2"; "3"] /\
  NoDup (sessions (listener_accepts 3 (mkListener 0 []))).
Proof. split; [by vm_compute|]. apply session_ids_distinct. by vm_compute. Defined.
