(* ===== verification/Gateway.v ===== *)
(** * Connections and the actor system together

    The websocket sessions of [WsSession], the listener that makes them and
    the actor system of [Runtime] as one state: what a client writes to its
    socket reaches the dispatcher through [onRead], what the session actor
    sends reaches the socket through the write queue. The handlers of one
    session run one at a time on its strand, [dispatch] included, so that a
    session reads on only after the dispatch of its last text has returned. *)
From S2P Require Import Prelude CppString Json Domain Mailbox Actor Handlers Runtime RuntimeInv RuntimeFlow RuntimeDelivery WsSession.

Section gateway.
Context `{JsonLib, UuidLib, LockfreeQueue, ActorOrder} {R : Type} `{!MessageRepository R}.

(** A session, and the call of [dispatch] its read handler made last. *)
Record connection : Type := mkConnection {
  session : WebSocketSession;
  dispatching : option nat
}.

(** [connections] in the order in which they were accepted. *)
Record gateway : Type := mkGateway {
  rt : world R;
  listener : WebSocketListener;
  connections : list connection
}.

(** The weak pointer to the session of the [k]-th connection. *)
Definition transport_of (k : nat) : transport := Pos.of_succ_nat k.

Inductive gateway_label : Type :=
| System (l : label)
| Connect (ok : bool)
| Session (k : nat) (e : ws_event)
| Destroy (k : nat).

(** The steps of the actor system that are its own; the others are made by
    sessions. *)
Definition internal (l : label) : bool :=
  match l with
  | NetStep _ _ | WorkerStep _ _ | Start _ | StopRequest | StopJoin | Query _ _ | Crash _ => true
  | Dispatch _ _ | Bind _ _ | Unbind _ | Expire _ => false
  end.

(** What the handler of a session calls on the session actor or the
    dispatcher. *)
Definition session_call (k : nat) (e : ws_event) (sid : string) : option label :=
  match e with
  | EvAccept None => Some (Bind sid (transport_of k))
  | EvRead None | EvWrite false => Some (Unbind sid)
  | EvRead (Some raw) => Some (Dispatch sid raw)
  | _ => None
  end.

(** No handler of the session is running. *)
Definition strand_free (c : connection) (w : world R) : bool :=
  match dispatching c with
  | None => true
  | Some i => match net w !! i with Some (Ret _) => true | _ => false end
  end.

(** The calls of [send] for the texts just posted. *)
Definition texts_for (t : transport) (l : list (transport * string)) : list string :=
  (filter (fun p => p.1 = t) l).*2.
Definition send_all (texts : list string) (s : WebSocketSession) : WebSocketSession :=
  foldl (fun s payload => session_send payload s) s texts.
Definition deliver (new : list (transport * string)) (cs : list connection) : list connection :=
  imap (fun k c =>
    mkConnection (send_all (texts_for (transport_of k) new) (session c)) (dispatching c)) cs.

(** Nothing holds a shared pointer to the session any more. *)
Definition released (c : connection) (w : world R) : bool :=
  match reader_ (session c), posted_ (session c), writing (session c) with
  | Idle, [], None => strand_free c w
  | _, _, _ => false
  end.

Definition dispatch_of (e : ws_event) (c : connection) (w : world R) : option nat :=
  match e with EvRead (Some _) => Some (length (net w)) | _ => dispatching c end.

Definition gateway_step (l : gateway_label) (g : gateway) : option gateway :=
  match l with
  | System l =>
      if negb (internal l) then None
      else
        w ← step l (rt g);
        let new := drop (length (outbox (sh (rt g)))) (outbox (sh w)) in
        Some (mkGateway w (listener g) (deliver new (connections g)))
  | Connect ok =>
      match terminated (rt g) with
      | Some _ => None
      | None =>
          let ls := listener_onAccept ok (listener g) in
          Some (mkGateway (rt g) ls
            (connections g ++
             if ok then [mkConnection (session_run (to_string_u (Z.to_N (nextSessionId_ ls)))) None]
             else []))
      end
  | Session k e =>
      c ← connections g !! k;
      if own_event e && strand_free c (rt g) then
        s ← ws_step e (session c);
        w ← match session_call k e (sessionId_ (session c)) with
            | Some l => step l (rt g)
            | None => match terminated (rt g) with Some _ => None | None => Some (rt g) end
            end;
        Some (mkGateway w (listener g)
          (<[k := mkConnection s (dispatch_of e c (rt g))]> (connections g)))
      else None
  | Destroy k =>
      c ← connections g !! k;
      if released c (rt g) then
        w ← step (Expire (transport_of k)) (rt g);
        Some (mkGateway w (listener g) (connections g))
      else None
  end.

Fixpoint gateway_run (ls : list gateway_label) (g : gateway) : option gateway :=
  match ls with
  | [] => Some g
  | l :: ls' => g' ← gateway_step l g; gateway_run ls' g'
  end.

Definition gateway_initial (capacity : Z) (r : R) : gateway :=
  mkGateway (initial capacity r) (mkListener 0 []) [].

(** The id of the [k]-th connection. *)
Definition session_name (k : nat) : string := to_string_u (Z.to_N (wrap64 (Z.of_nat k + 1))).
End gateway.
Arguments gateway {_ _ _} R.
Arguments connections {_ _ _ _} _.

Section gateway_facts.
Context `{JsonLib, UuidLib, LockfreeQueueLaws, ActorOrder} {R : Type} `{!MessageRepository R}.
Implicit Types (g : gateway R) (w : world R).

(** ** What one step can change *)

Lemma run_snoc ls l (w w' w2 : world R) :
  run ls w = Some w' -> step l w' = Some w2 -> run (ls ++ [l]) w = Some w2.
Proof.
  revert w. induction ls as [|l' ls IH]; intros w Hr Hs; cbn in *.
  - simplify_eq. by rewrite Hs.
  - destruct (step l' w) as [w1|]; [|done]. cbn in *. by apply IH.
Qed.

Lemma prog_step_outbox c (s : shared R) p s' p' :
  prog_step c s p = Some (s', p') -> exists new, outbox s' = outbox s ++ new.
Proof.
  intros Hs. destruct p; cbn in Hs; simplify_eq; try (exists []; by rewrite app_nil_r).
  - unfold shared_send in Hs. destruct (ActorSystem_send env (actors_ s)) as [[] acts];
      simplify_eq/=; exists []; by rewrite app_nil_r.
  - by eexists.
  - unfold shared_create in Hs. destruct (message_create m (repository s)) as [[[]|e] r];
      simplify_eq/=; exists []; by rewrite app_nil_r.
Qed.

Lemma step_outbox l w w' :
  step l w = Some w' ->
  exists new, outbox (sh w') = outbox (sh w) ++ new /\ (internal l = false -> new = []).
Proof.
  intros Hs. unfold step in Hs. destruct (terminated w); [done|].
  assert (forall w2, outbox (sh w2) = outbox (sh w) ->
    exists new, outbox (sh w2) = outbox (sh w) ++ new /\ (internal l = false -> new = [])) as Hsame.
  { intros w2 ->. exists []. by rewrite app_nil_r. }
  destruct l; simplify_eq/=; try (by apply Hsame).
  - apply net_step_inv in Hs as [(e & _ & ->)|(p & s & p' & Hi & Hp & ->)]; [by apply Hsame|].
    destruct (prog_step_outbox _ _ _ _ _ Hp) as [new Hnew]. by exists new.
  - apply worker_step_move in Hs as
      [wk wk' w2 Hi Hrun Hret (_ & _ & _ & _ & _ & Hout & _) Hws Hnet
      |key rest b cls acts Hi Hp|key rest b cls env acts Hi Hp|cls e rest Hi
      |cls p rest s p' Hi Hp]; try (by apply Hsame).
    destruct (prog_step_outbox _ _ _ _ _ Hp) as [new Hnew]. by exists new.
  - apply Hsame. unfold start_step. by destruct (running_ w).
  - unfold stop_join in Hs. destruct (_ && _); simplify_eq. by apply Hsame.
Qed.

Lemma send_all_frame texts s :
  sessionId_ (send_all texts s) = sessionId_ s /\
  sends (send_all texts s) = sends s ++ texts /\
  dispatched (send_all texts s) = dispatched s /\
  ws_run (EvSend <$> texts) s = Some (send_all texts s).
Proof.
  revert s. induction texts as [|x texts IH]; intros s; [by rewrite app_nil_r|].
  destruct (IH (session_send x s)) as (Hi & Hs & Hd & Hr).
  change (send_all (x :: texts) s) with (send_all texts (session_send x s)).
  split_and!; [done| |done|done]. rewrite Hs. cbn. by rewrite <- app_assoc.
Qed.

(** ** The invariant *)

(** The connection is a run of a session, and was sent what the session
    actor posted to its transport. *)
Record connection_ok w (k : nat) (c : connection) : Prop := {
  co_run : exists es, ws_run es (session_run (session_name k)) = Some (session c);
  co_name : sessionId_ (session c) = session_name k;
  co_sends : sends (session c) = texts_for (transport_of k) (outbox (sh w))
}.

(** [ls] are the steps the actor system has made. *)
Record gateway_inv (capacity : Z) (r : R) (ls : list label) g : Prop := {
  gi_run : run ls (initial capacity r) = Some (rt g);
  gi_next : nextSessionId_ (listener g) = wrap64 (Z.of_nat (length (connections g)));
  gi_connections : forall k c, connections g !! k = Some c -> connection_ok (rt g) k c;
  gi_dispatched : forall sid raw, Dispatch sid raw ∈ ls ->
    exists k c, connections g !! k = Some c /\ sid = session_name k /\
      raw ∈ dispatched (session c);
  gi_bound : forall sid t, Bind sid t ∈ ls ->
    exists k, k < length (connections g) /\ sid = session_name k /\ t = transport_of k
}.

Lemma texts_for_app t l1 l2 : texts_for t (l1 ++ l2) = texts_for t l1 ++ texts_for t l2.
Proof. unfold texts_for. by rewrite filter_app, fmap_app. Qed.

Lemma deliver_lookup new cs k c :
  deliver new cs !! k = Some c ->
  exists c0, cs !! k = Some c0 /\
    c = mkConnection (send_all (texts_for (transport_of k) new) (session c0)) (dispatching c0).
Proof.
  unfold deliver. rewrite list_lookup_imap. destruct (cs !! k) as [c0|]; cbn; [|done].
  intros [= <-]. by exists c0.
Qed.

(** Nothing was posted to a transport that does not exist yet. *)
Lemma fresh_transport capacity r ls g :
  gateway_inv capacity r ls g ->
  texts_for (transport_of (length (connections g))) (outbox (sh (rt g))) = [].
Proof.
  intros [Hr _ _ _ Hb]. pose proof (outbox_posted _ _ _ _ Hr) as Hout.
  unfold texts_for. rewrite Forall_forall in Hout.
  destruct (filter _ _) as [|[t text] l] eqn:Hf; [done|].
  assert ((t, text) ∈ filter (fun p : transport * string =>
    p.1 = transport_of (length (connections g))) (outbox (sh (rt g)))) as Hin.
  { rewrite Hf. apply list_elem_of_here. }
  apply list_elem_of_filter in Hin as [Ht Hin]. cbn in Ht.
  destruct (Hout _ Hin) as (o & _ & Hbd & _). cbn in Hbd.
  destruct (Hb _ _ Hbd) as (k & Hk & _ & Htk). unfold transport_of in *.
  assert (k = length (connections g)) by (apply (f_equal Pos.to_nat) in Htk; lia). lia.
Qed.

Lemma transport_of_inj j k : transport_of j = transport_of k -> j = k.
Proof. unfold transport_of. intros Ht. apply (f_equal Pos.to_nat) in Ht. lia. Qed.

(** A step of the actor system of its own and the texts it posts. *)
Lemma system_step_inv capacity r ls g l w :
  gateway_inv capacity r ls g -> internal l = true -> step l (rt g) = Some w ->
  gateway_inv capacity r (ls ++ [l])
    (mkGateway w (listener g)
       (deliver (drop (length (outbox (sh (rt g)))) (outbox (sh w))) (connections g))).
Proof.
  intros [Hr Hn Hc Hd Hb] Hl Hs. destruct (step_outbox _ _ _ Hs) as (new & Hnew & _).
  rewrite Hnew, drop_app_length. split; cbn.
  - by eapply run_snoc.
  - unfold deliver. by rewrite length_imap.
  - intros k c (c0 & Hk & ->)%deliver_lookup. destruct (Hc _ _ Hk) as [[es Hes] Hid Hsend].
    destruct (send_all_frame (texts_for (transport_of k) new) (session c0)) as (Hi & Hse & _ & Hrun).
    split; cbn.
    + eexists. erewrite ws_run_app; [exact Hrun|exact Hes].
    + congruence.
    + rewrite Hnew, texts_for_app. congruence.
  - intros sid raw [Hin|Hin%list_elem_of_singleton]%elem_of_app; [|by subst l].
    destruct (Hd _ _ Hin) as (k & c & Hk & -> & Hraw). unfold deliver. eexists k, _.
    rewrite list_lookup_imap, Hk. cbn. split_and!; [done|done|]. cbn.
    by rewrite (proj1 (proj2 (proj2 (send_all_frame _ _)))).
  - intros sid t [Hin|Hin%list_elem_of_singleton]%elem_of_app; [|by subst l].
    unfold deliver. rewrite length_imap. by apply Hb.
Qed.

Lemma connect_step_inv capacity r ls g ok :
  gateway_inv capacity r ls g -> terminated (rt g) = None ->
  forall g', gateway_step (Connect ok) g = Some g' -> gateway_inv capacity r ls g'.
Proof.
  intros Hg Ht g'. pose proof (fresh_transport _ _ _ _ Hg) as Hfresh.
  destruct Hg as [Hr Hn Hc Hd Hb]. cbn. rewrite Ht. intros [= <-].
  assert (forall k c, connections g !! k = Some c -> k < length (connections g)) as Hlt
    by (intros k c; apply lookup_lt_Some).
  split; cbn; [done|..].
  - rewrite length_app. destruct ok; cbn; [|by rewrite Nat.add_0_r]. rewrite Hn, wrap64_succ.
    f_equal. lia.
  - intros k c [Hk|[Hle Hk]]%lookup_app_Some; [by apply Hc|].
    destruct ok; [|done]. apply list_lookup_singleton_Some in Hk as [Hk <-].
    replace k with (length (connections g)) by lia. cbn. rewrite Hn.
    rewrite wrap64_succ.
    split; cbn; [by exists []|done|done].
  - intros sid raw Hin. destruct (Hd _ _ Hin) as (k & c & Hk & ? & ?). exists k, c.
    split; [|done]. rewrite lookup_app_l; eauto.
  - intros sid t Hin. destruct (Hb _ _ Hin) as (k & Hk & ? & ?). exists k.
    split; [|done]. rewrite length_app. lia.
Qed.

(** What the steps the actor system makes for a session leave alone. *)
Lemma call_outbox l w w' :
  internal l = false -> step l w = Some w' -> outbox (sh w') = outbox (sh w).
Proof.
  intros Hl Hs. destruct (step_outbox _ _ _ Hs) as (new & -> & Hnew).
  by rewrite (Hnew Hl), app_nil_r.
Qed.

Lemma session_call_external k e sid l : session_call k e sid = Some l -> internal l = false.
Proof. destruct e as [| |[]|[]|[]]; cbn; intros; by simplify_eq. Qed.

Lemma session_step_run capacity (r : R) ls g k e sid w :
  run ls (initial capacity r) = Some (rt g) ->
  match session_call k e sid with
  | Some l => step l (rt g)
  | None => match terminated (rt g) with Some _ => None | None => Some (rt g) end
  end = Some w ->
  run (ls ++ option_list (session_call k e sid)) (initial capacity r) = Some w /\
  outbox (sh w) = outbox (sh (rt g)).
Proof.
  intros Hr Hw. destruct (session_call k e sid) as [l|] eqn:Hcall.
  - split; [by eapply run_snoc|]. eapply call_outbox; [|exact Hw]. by eapply session_call_external.
  - destruct (terminated (rt g)); [done|]. simplify_eq. cbn. by rewrite app_nil_r.
Qed.

Lemma session_step_inv capacity r ls g k e g' :
  gateway_inv capacity r ls g -> gateway_step (Session k e) g = Some g' ->
  exists ls', gateway_inv capacity r (ls ++ ls') g'.
Proof.
  intros [Hr Hn Hc Hd Hb] Hs. cbn in Hs.
  destruct (connections g !! k) as [c|] eqn:Hk; [|done]. cbn in Hs.
  destruct (own_event e) eqn:He; [|done]. destruct (strand_free c (rt g)); [|done]. cbn in Hs.
  destruct (ws_step e (session c)) as [s|] eqn:Hws; [|done]. cbn in Hs.
  destruct (match session_call k e _ with Some _ => _ | None => _ end) as [w|] eqn:Hw; [|done].
  simplify_eq/=. destruct (session_step_run _ _ _ _ _ _ _ _ Hr Hw) as [Hr' Hout].
  destruct (Hc _ _ Hk) as [[es Hes] Hid Hsends].
  destruct (ws_step_frame _ _ _ He Hws) as (Hid' & Hsends' & Hdisp').
  pose proof (lookup_lt_Some _ _ _ Hk) as Hlt.
  assert (forall j c', <[k := mkConnection s (dispatch_of e c (rt g))]> (connections g) !! j = Some c' ->
    connection_ok w j c') as Hc'.
  { intros j c' [[-> <-]|Hj]%list_insert_cases.
    - split; cbn.
      + exists (es ++ [e]). erewrite ws_run_app; [|exact Hes]. cbn. by rewrite Hws.
      + congruence.
      + congruence.
    - destruct (Hc _ _ Hj) as [? ? ?]. split; [done..|by rewrite Hout]. }
  eexists. split; cbn; [exact Hr'|by rewrite length_insert|exact Hc'|..].
  - intros sid raw [Hin|Hin]%elem_of_app.
    + destruct (Hd _ _ Hin) as (j & c' & Hj & -> & Hraw).
      destruct (decide (j = k)) as [->|Hne].
      * exists k, (mkConnection s (dispatch_of e c (rt g))).
        rewrite list_lookup_insert_eq by done. split_and!; [done..|]. cbn.
        rewrite Hdisp'. simplify_eq. apply elem_of_app. by left.
      * exists j, c'. by rewrite list_lookup_insert_ne.
    + exists k, (mkConnection s (dispatch_of e c (rt g))).
      rewrite list_lookup_insert_eq by done. cbn. rewrite Hdisp'.
      destruct e as [| |[]|[raw'|]|[]]; cbn in Hin;
        try (by apply elem_of_nil in Hin); apply list_elem_of_singleton in Hin; simplify_eq.
      split_and!; [done..|]. apply elem_of_app. right. apply list_elem_of_here.
  - intros sid t. rewrite length_insert. intros [Hin|Hin]%elem_of_app; [by apply Hb|].
    exists k. split; [done|]. destruct e as [| |[]|[raw'|]|[]]; cbn in Hin;
      try (by apply elem_of_nil in Hin); apply list_elem_of_singleton in Hin; by simplify_eq.
Qed.

Lemma destroy_step_inv capacity r ls g k g' :
  gateway_inv capacity r ls g -> gateway_step (Destroy k) g = Some g' ->
  exists ls', gateway_inv capacity r (ls ++ ls') g'.
Proof.
  intros [Hr Hn Hc Hd Hb] Hs. cbn [gateway_step] in Hs.
  destruct (connections g !! k) as [c|] eqn:Hk; [|done]. cbn [mbind option_bind] in Hs.
  destruct (released c (rt g)); [|done].
  destruct (step (Expire (transport_of k)) (rt g)) as [w|] eqn:Hw; [|done].
  cbn [mbind option_bind] in Hs. simplify_eq. exists [Expire (transport_of k)].
  split; cbn; [by eapply run_snoc|done|..].
  - intros j c' Hj. destruct (Hc _ _ Hj) as [? ? ?]. split; [done..|].
    by rewrite (call_outbox (Expire (transport_of k)) _ _ eq_refl Hw).
  - intros sid raw [Hin|Hin%list_elem_of_singleton]%elem_of_app; [by apply Hd|done].
  - intros sid t [Hin|Hin%list_elem_of_singleton]%elem_of_app; [by apply Hb|done].
Qed.

Lemma gateway_step_inv capacity r ls l g g' :
  gateway_inv capacity r ls g -> gateway_step l g = Some g' ->
  exists ls', gateway_inv capacity r (ls ++ ls') g'.
Proof.
  intros Hg Hs. destruct l as [l|ok|k e|k].
  - cbn in Hs. destruct (internal l) eqn:Hl; [|done]. cbn in Hs.
    destruct (step l (rt g)) as [w|] eqn:Hw; [|done]. simplify_eq/=.
    exists [l]. by apply system_step_inv.
  - exists []. rewrite app_nil_r. pose proof Hs as Hs'. cbn in Hs'.
    destruct (terminated (rt g)) eqn:Ht; [done|]. by eapply connect_step_inv.
  - by eapply session_step_inv.
  - by eapply destroy_step_inv.
Qed.

Lemma gateway_inv_initial capacity (r : R) : gateway_inv capacity r [] (gateway_initial capacity r).
Proof.
  split; [done|done|by intros k c|..].
  - intros sid raw. by intros ?%elem_of_nil.
  - intros sid t. by intros ?%elem_of_nil.
Qed.

(** Invariants of the gateway, with what is known of the actor system. *)
Lemma gateway_invariant capacity (r : R) (I : gateway R -> Prop) gs g :
  (forall ls l g1 g2, gateway_inv capacity r ls g1 -> I g1 -> gateway_step l g1 = Some g2 -> I g2) ->
  I (gateway_initial capacity r) -> gateway_run gs (gateway_initial capacity r) = Some g ->
  I g /\ exists ls, gateway_inv capacity r ls g.
Proof.
  intros HI. enough (forall ls g0, gateway_inv capacity r ls g0 -> I g0 ->
    gateway_run gs g0 = Some g -> I g /\ exists ls', gateway_inv capacity r ls' g) as Hgo
    by (intros; eapply Hgo; eauto using gateway_inv_initial).
  induction gs as [|l gs IH]; intros ls g0 Hi Hg0 Hr; cbn in Hr; [simplify_eq; eauto|].
  destruct (gateway_step l g0) as [g1|] eqn:Hs; [|done]. cbn in Hr.
  destruct (gateway_step_inv _ _ _ _ _ _ Hi Hs) as [ls' Hi']. eauto.
Qed.

Lemma gateway_run_inv capacity (r : R) gs g :
  gateway_run gs (gateway_initial capacity r) = Some g -> exists ls, gateway_inv capacity r ls g.
Proof. intros Hr. by eapply (gateway_invariant capacity r (fun _ => True)). Qed.

Lemma session_name_inj j k :
  (Z.of_nat j + 1 < two64)%Z -> (Z.of_nat k + 1 < two64)%Z ->
  session_name j = session_name k -> j = k.
Proof.
  unfold session_name. intros Hj Hk. rewrite !wrap64_small by lia.
  intros Heq. apply (inj (pretty (A:=N))) in Heq. lia.
Qed.

(** C8: a client is shown its own messages and those addressed to it, and
    nothing else. Whatever is written to the socket of a connection, in any
    run of the listener, the sessions and the actor system together that has
    accepted fewer than 2^64 connections, is the confirmation of a message
    whose text came in on that very connection, or the copy of a message that
    came in on some connection and names this connection's session id as its
    recipient. *)
Theorem wire_texts_are_addressed gs capacity (r : R) g k c text :
  gateway_run gs (gateway_initial capacity r) = Some g ->
  (Z.of_nat (length (connections g)) < two64)%Z ->
  connections g !! k = Some c -> text ∈ wire (session c) ->
  exists j c' raw e, connections g !! j = Some c' /\ (raw ∈ dispatched (session c')) /\
    requested_event (session_name j) raw = Some e /\
    ((j = k /\ exists out, payload (echo_of e) = Outgoing out /\
        json_dump (SessionOutgoingEvent_payload out) = Ok text) \/
     (SendMessageEvent_recipientId e = session_name k /\ exists out,
        payload (recipient_of e) = Outgoing out /\
        json_dump (SessionOutgoingEvent_payload out) = Ok text)).
Proof.
  intros Hgr Hlen Hk Hin. destruct (gateway_run_inv _ _ _ _ Hgr) as [ls [Hr _ Hc Hd Hb]].
  destruct (Hc _ _ Hk) as [[es Hes] _ Hsends].
  pose proof (wi_order _ (ws_run_write_inv _ _ _ (session_run_write_inv _) Hes)) as Hord.
  assert ((transport_of k, text) ∈ outbox (sh (rt g))) as Hout.
  { assert (text ∈ sends (session c)) as Hs by (rewrite <- Hord; apply elem_of_app; by left).
    rewrite Hsends in Hs. unfold texts_for in Hs.
    apply list_elem_of_fmap in Hs as ([t x] & -> & Hf). cbn.
    apply list_elem_of_filter in Hf as [Ht Hf]. cbn in Ht. by subst t. }
  pose proof (outbox_posted _ _ _ _ Hr) as Hposted. rewrite Forall_forall in Hposted.
  destruct (Hposted _ Hout) as (out & (e & (sid & raw & Hdisp & Hreq) & Hcase) & Hbd & Hdump).
  cbn in Hbd, Hdump. destruct (Hb _ _ Hbd) as (k' & Hk' & Hname & Ht).
  apply transport_of_inj in Ht as <-. destruct (Hd _ _ Hdisp) as (j & c' & Hj & -> & Hraw).
  exists j, c', raw, e. split_and!; [done..|].
  pose proof (lookup_lt_Some _ _ _ Hj) as Hjlt.
  destruct Hcase as [He|[_ He]].
  - left. split; [|by exists out]. apply session_name_inj; [lia..|].
    rewrite <- Hname, <- (requested_session _ _ _ Hreq). cbn in He. by simplify_eq.
  - right. split; [|by exists out]. rewrite <- Hname. cbn in He. by simplify_eq.
Qed.
End gateway_facts.
