(* ===== verification/GatewayOrder.v ===== *)
(** * The order of a client's messages

    From the socket to the message actor: the events a connection hands over
    are the messages its client sent, in that order, none twice and, once the
    session reads on, none missing; for any number of connections, network
    threads and workers. *)
From S2P Require Import Prelude CppString Json Domain Mailbox Actor Handlers Runtime RuntimeInv RuntimeFlow RuntimeDelivery WsSession Gateway.

Section emits.
Context `{JsonLib, UuidLib, LockfreeQueue} {R : Type} `{!MessageRepository R}.

(** On every path to its end, the program hands exactly [B] to the message
    actor. *)
Fixpoint emits (p : prog unit) (B : list SendMessageEvent) : Prop :=
  match p with
  | Ret _ => B = []
  | Raise _ => True
  | Send env k => exists B', B = head_event (Send env k) ++ B' /\ forall b, emits (k b) B'
  | FindTransport _ k => forall o, emits (k o) B
  | LockTransport _ k => forall b, emits (k b) B
  | TransportSend _ _ k => emits k B
  | RepoCreate _ k => forall b, emits (k b) B
  | RandomUuid k => forall u, emits (k u) B
  | SystemNow k => forall t, emits (k t) B
  | Log _ _ _ k => emits k B
  end.

Local Ltac emits_nothing :=
  repeat (match goal with |- context [prog_lift ?r] => destruct r; cbn; [|done] end);
  exists []; by split.

Lemma requested_other sid raw type :
  json_value (json_parse raw) "type" EmptyString = Ok type -> type <> "send_message" ->
  requested_event sid raw = None.
Proof.
  intros Ht Hne%String.eqb_neq. unfold requested_event. rewrite Ht, Hne. mcrush.
Qed.

Lemma dispatch_emits sid raw :
  emits (MessageDispatcher_dispatch sid raw) (option_list (requested_event sid raw)).
Proof.
  destruct (json_value (json_parse raw) "type" EmptyString) as [type|e] eqn:Ht.
  2: { unfold MessageDispatcher_dispatch, requested_event. rewrite Ht.
       by destruct (json_is_object (json_parse raw)). }
  destruct (decide (type = "send_message")) as [->|Hne].
  - unfold MessageDispatcher_dispatch, requested_event. rewrite Ht.
    destruct (json_is_object (json_parse raw)); cbn; [|done].
    repeat (match goal with |- context [prog_lift ?r] => destruct r; cbn; [|done] end).
    exists []. by split.
  - rewrite (requested_other _ _ _ Ht Hne). unfold MessageDispatcher_dispatch. rewrite Ht.
    destruct (json_is_object (json_parse raw)); cbn; [|done].
    rewrite (proj2 (String.eqb_neq _ _) Hne).
    destruct (String.eqb type "auth"); cbn; [emits_nothing|].
    destruct (String.eqb type "typing"); cbn; [emits_nothing|].
    destruct (String.eqb type "message_read"); cbn; [emits_nothing|done].
Qed.

Lemma prog_step_emits c (s : shared R) p s' p' B :
  emits p B -> prog_step c s p = Some (s', p') ->
  exists B', emits p' B' /\ B = head_event p ++ B'.
Proof.
  intros Hp Hs. destruct p; cbn in Hp, Hs; simplify_eq; try (by exists B).
  - destruct Hp as (B' & HB & Hk). destruct (shared_send env s). simplify_eq. by exists B'.
  - destruct (shared_create m s) as [[b|e] s1]; simplify_eq; by exists B.
Qed.
End emits.

Section order.
Context `{JsonLib, UuidLib, LockfreeQueueLaws, ActorOrder} {R : Type} `{!MessageRepository R}.
Implicit Types (g : gateway R) (w : world R) (nt : list (prog unit)) (acc : list SendMessageEvent).

(** What matters of a connection: its dispatch, and the texts it read. *)
Definition view (c : connection) : option nat * list string :=
  (dispatching c, dispatched (session c)).

Definition of_session (sid : string) acc : list SendMessageEvent :=
  filter (fun e => SendMessageEvent_sessionId e = sid) acc.

Lemma of_session_app sid l1 l2 : of_session sid (l1 ++ l2) = of_session sid l1 ++ of_session sid l2.
Proof. apply filter_app. Qed.

(** The events a client asked for, in the order of its texts. *)
Definition requests (k : nat) (raws : list string) : list SendMessageEvent :=
  omap (requested_event (session_name k)) raws.

Lemma requests_session k raws e : e ∈ requests k raws -> SendMessageEvent_sessionId e = session_name k.
Proof.
  unfold requests. intros (raw & _ & Hreq)%list_elem_of_omap. by eapply requested_session.
Qed.

(** Events of one client among those of a session of that, or another, name. *)
Lemma of_session_own k B raws l :
  l ++ B = requests k raws -> of_session (session_name k) l = l.
Proof.
  intros Hl. apply list_filter_all, Forall_forall. intros e He.
  eapply requests_session. rewrite <- Hl. apply elem_of_app. by left.
Qed.
Lemma of_session_other j l :
  (forall e, e ∈ l -> SendMessageEvent_sessionId e <> session_name j) ->
  of_session (session_name j) l = [].
Proof. intros Hl. by apply list_filter_none, Forall_forall. Qed.

(** With what its dispatch will hand over, what a connection has handed over
    is what its client asked for. *)
Record order_inv (vs : list (option nat * list string)) nt acc : Prop := {
  oi_connections : forall k d raws, vs !! k = Some (d, raws) ->
    exists B, of_session (session_name k) acc ++ B = requests k raws /\
      match d with
      | None => B = []
      | Some i => exists p, nt !! i = Some p /\ emits p B
      end;
  oi_owner : forall i p, nt !! i = Some p ->
    p = Ret tt \/ exists k raws, vs !! k = Some (Some i, raws);
  oi_unique : forall j k i raws raws',
    vs !! j = Some (Some i, raws) -> vs !! k = Some (Some i, raws') -> j = k;
  oi_known : forall e, e ∈ acc ->
    exists k, k < length vs /\ SendMessageEvent_sessionId e = session_name k
}.

Definition in_range (vs : list (option nat * list string)) : Prop :=
  (Z.of_nat (length vs) < two64)%Z.

Lemma session_name_lt (vs : list (option nat * list string)) j k :
  in_range vs -> j < length vs -> k < length vs -> session_name j = session_name k -> j = k.
Proof. unfold in_range. intros. apply session_name_inj; [lia..|done]. Qed.

(** One effect of a dispatch. *)
Lemma order_effect vs nt acc i p p' c (s s' : shared R) :
  in_range vs -> order_inv vs nt acc -> nt !! i = Some p -> prog_step c s p = Some (s', p') ->
  order_inv vs (<[i := p']> nt) (acc ++ head_event p).
Proof.
  intros Hlen [Hc Ho Hu Hkn] Hi Hs.
  destruct (Ho _ _ Hi) as [->|(k & raws & Hk)]; [done|].
  destruct (Hc _ _ _ Hk) as (B & HB & p0 & Hi0 & Hem). simplify_eq.
  destruct (prog_step_emits _ _ _ _ _ _ Hem Hs) as (B' & Hem' & ->).
  pose proof (lookup_lt_Some _ _ _ Hi) as Hilt. pose proof (lookup_lt_Some _ _ _ Hk) as Hklt.
  assert (forall e, e ∈ head_event p -> SendMessageEvent_sessionId e = session_name k) as Hhead.
  { intros e He. apply (requests_session k raws). rewrite <- HB, !elem_of_app. auto. }
  split.
  - intros j d raws' Hj. rewrite of_session_app. destruct (decide (j = k)) as [->|Hne].
    + simplify_eq. exists B'. split.
      * rewrite <- app_assoc, <- HB. f_equal. f_equal.
        by apply list_filter_all, Forall_forall.
      * exists p'. split; [by apply list_lookup_insert_eq|done].
    + rewrite (of_session_other j (head_event p)), app_nil_r.
      2: { intros e He Heq. apply Hne. pose proof (lookup_lt_Some _ _ _ Hj).
           rewrite Hhead in Heq by done. by eapply session_name_lt. }
      destruct (Hc _ _ _ Hj) as (Bj & HBj & Hd). exists Bj. split; [done|].
      destruct d as [i'|]; [|done]. destruct Hd as (pj & Hij & Hej). exists pj. split; [|done].
      rewrite list_lookup_insert_ne; [done|]. intros ->. apply Hne. by eapply Hu.
  - intros j q [[-> <-]|Hj]%list_insert_cases; [right; by exists k, raws|by apply Ho].
  - done.
  - intros e [He|He]%elem_of_app; [by apply Hkn|]. exists k. auto.
Qed.

(** A session whose handler is not running reads a text and dispatches it. *)
Lemma order_dispatch vs nt acc k d raws raw :
  order_inv vs nt acc -> vs !! k = Some (d, raws) ->
  match d with None => True | Some i => nt !! i = Some (Ret tt) end ->
  order_inv (<[k := (Some (length nt), raws ++ [raw])]> vs)
    (nt ++ [MessageDispatcher_dispatch (session_name k) raw]) acc.
Proof.
  intros [Hc Ho Hu Hkn] Hk Hfree. pose proof (lookup_lt_Some _ _ _ Hk) as Hklt.
  assert (forall j i raws', vs !! j = Some (Some i, raws') -> i < length nt) as Hold.
  { intros j i raws' Hj. destruct (Hc _ _ _ Hj) as (_ & _ & p & Hp & _).
    by eapply lookup_lt_Some. }
  assert (of_session (session_name k) acc = requests k raws) as Hall.
  { destruct (Hc _ _ _ Hk) as (B & HB & Hd). assert (B = []) as ->; [|by rewrite app_nil_r in HB].
    destruct d as [i|]; [|done]. destruct Hd as (p & Hp & He). rewrite Hfree in Hp.
    by simplify_eq. }
  split.
  - intros j d' raws' [[[= -> ->] <-]|Hj]%list_insert_cases.
    + eexists. split.
      * rewrite Hall. unfold requests. by rewrite omap_app.
      * eexists. split; [by apply list_lookup_middle|]. cbn.
        pose proof (dispatch_emits (session_name k) raw) as He.
        by destruct (requested_event (session_name k) raw).
    + destruct (Hc _ _ _ Hj) as (B & HB & Hd). exists B. split; [done|].
      destruct d' as [i|]; [|done]. destruct Hd as (p & Hp & He). exists p. split; [|done].
      by apply lookup_app_l_Some.
  - intros i p [Hi|[Hle Hi]]%lookup_app_Some.
    + destruct (Ho _ _ Hi) as [?|(j & raws' & Hj)]; [by left|].
      destruct (decide (j = k)) as [->|Hne].
      * simplify_eq. left. congruence.
      * right. exists j, raws'. by rewrite list_lookup_insert_ne.
    + apply list_lookup_singleton_Some in Hi as [Hi _]. right.
      exists k, (raws ++ [raw]). rewrite list_lookup_insert_eq by done.
      do 3 f_equal. lia.
  - intros j j' i r1 r2 [[Hy <-]|Hj]%list_insert_cases [[Hy' <-]|Hj']%list_insert_cases;
      [done|..].
    + simplify_eq. apply Hold in Hj'. lia.
    + simplify_eq. apply Hold in Hj. lia.
    + by eapply Hu.
  - intros e He. rewrite length_insert. by apply Hkn.
Qed.

(** A new connection has handed over nothing. *)
Lemma order_connect vs nt acc :
  in_range (vs ++ [(None, [])]) -> order_inv vs nt acc -> order_inv (vs ++ [(None, [])]) nt acc.
Proof.
  intros Hlen [Hc Ho Hu Hkn]. unfold in_range in Hlen. rewrite length_app in Hlen. cbn in Hlen.
  split.
  - intros k d raws [Hk|[Hle Hk]]%lookup_app_Some; [by apply Hc|].
    apply list_lookup_singleton_Some in Hk as [Hz [= <- <-]]. exists [].
    split; [|done]. rewrite app_nil_r. apply of_session_other. intros e He Heq.
    destruct (Hkn _ He) as (j & Hj & Hname). rewrite Hname in Heq.
    apply session_name_inj in Heq; lia.
  - intros i p Hi. destruct (Ho _ _ Hi) as [?|(k & raws & Hk)]; [by left|right].
    exists k, raws. by apply lookup_app_l_Some.
  - intros j k i raws raws' [Hj|[_ Hj]]%lookup_app_Some [Hk|[_ Hk]]%lookup_app_Some.
    + by eapply Hu.
    + by apply list_lookup_singleton_Some in Hk as [_ Hk].
    + by apply list_lookup_singleton_Some in Hj as [_ Hj].
    + by apply list_lookup_singleton_Some in Hj as [_ Hj].
  - intros e He. destruct (Hkn _ He) as (k & Hk & ?). exists k. rewrite length_app.
    split; [lia|done].
Qed.

(** ** The steps of the gateway *)

Definition gateway_ordered g : Prop :=
  order_inv (view <$> connections g) (net (rt g)) (accepted (rt g)).

Lemma view_deliver new cs : view <$> deliver new cs = view <$> cs.
Proof.
  apply list_eq. intros k. rewrite !list_lookup_fmap. unfold deliver.
  rewrite list_lookup_imap. destruct (cs !! k) as [c|]; [|done]. cbn. unfold view. cbn.
  by rewrite (proj1 (proj2 (proj2 (send_all_frame _ _)))).
Qed.

(** Steps that neither start nor continue a dispatch. *)
Lemma step_other l w w' :
  step l w = Some w' ->
  match l with NetStep _ _ | Dispatch _ _ => False | _ => True end ->
  net w' = net w /\ accepted w' = accepted w.
Proof.
  intros Hs Hl. unfold step in Hs. destruct (terminated w); [done|].
  destruct l; simplify_eq/=; try done.
  - by eapply worker_step_frame.
  - unfold start_step. by destruct (running_ w).
  - unfold stop_join in Hs. destruct (_ && _); by simplify_eq.
Qed.

Lemma system_step_ordered capacity r ls l g w :
  gateway_inv capacity r ls g -> in_range (view <$> connections g) ->
  internal l = true -> step l (rt g) = Some w ->
  gateway_ordered g -> order_inv (view <$> connections g) (net w) (accepted w).
Proof.
  intros Hg Hlen Hl Hs Ho.
  assert ((exists i c, l = NetStep i c) \/
    match l with NetStep _ _ | Dispatch _ _ => False | _ => True end) as [(i & c & ->)|Hother]
    by (destruct l; try done; eauto).
  - unfold step in Hs. destruct (terminated (rt g)); [done|].
    apply net_step_inv in Hs as [(e & _ & ->)|(p & s & p' & Hi & Hp & ->)]; [exact Ho|].
    cbn. by eapply order_effect.
  - destruct (step_other _ _ _ Hs Hother) as [-> ->]. exact Ho.
Qed.

Lemma strand_free_view c w :
  strand_free c w = true ->
  match (view c).1 with None => True | Some i => net w !! i = Some (Ret tt) end.
Proof.
  unfold strand_free, view. cbn. destruct (dispatching c) as [i|]; [|done].
  destruct (net w !! i) as [[[]| | | | | | | | |]|]; done.
Qed.

Lemma session_step_ordered capacity r ls g k e g' :
  gateway_inv capacity r ls g -> gateway_step (Session k e) g = Some g' ->
  gateway_ordered g -> gateway_ordered g'.
Proof.
  intros [_ _ Hc _ _] Hs Ho. cbn in Hs.
  destruct (connections g !! k) as [c|] eqn:Hk; [|done]. cbn in Hs.
  destruct (own_event e) eqn:He; [|done]. destruct (strand_free c (rt g)) eqn:Hfree; [|done].
  cbn in Hs. destruct (ws_step e (session c)) as [s|] eqn:Hws; [|done]. cbn in Hs.
  destruct (match session_call k e _ with Some _ => _ | None => _ end) as [w|] eqn:Hw; [|done].
  simplify_eq/=. destruct (ws_step_frame _ _ _ He Hws) as (_ & _ & Hdisp).
  destruct (Hc _ _ Hk) as [_ Hname _]. unfold gateway_ordered in *. cbn.
  assert ((view <$> connections g) !! k = Some (view c)) as Hv by by rewrite list_lookup_fmap, Hk.
  rewrite list_fmap_insert. unfold view at 1. cbn. rewrite Hdisp.
  assert ((exists raw, e = EvRead (Some raw)) \/
    match e with EvRead (Some _) => False | _ => True end) as [[raw ->]|Hother]
    by (destruct e as [| | |[]|]; eauto).
  - cbn in Hw |- *. rewrite Hname in Hw. unfold step in Hw.
    destruct (terminated (rt g)); [done|]. simplify_eq. cbn.
    eapply order_dispatch; [exact Ho|exact Hv|by apply strand_free_view].
  - assert (net w = net (rt g) /\ accepted w = accepted (rt g)) as [-> ->].
    { destruct (session_call k e (sessionId_ (session c))) as [l|] eqn:Hcall.
      - apply (step_other l); [done|]. destruct e as [| |[]|[]|[]]; cbn in Hcall; by simplify_eq.
      - destruct (terminated (rt g)); by simplify_eq. }
    replace (match e with EvRead (Some raw) => [raw] | _ => [] end) with (@nil string)
      by (by destruct e as [| | |[]|]).
    rewrite app_nil_r. replace (dispatch_of e c (rt g)) with (dispatching c)
      by (by destruct e as [| | |[]|]).
    rewrite list_insert_id by exact Hv. exact Ho.
Qed.

Lemma gateway_step_length l g g' :
  gateway_step l g = Some g' -> length (connections g) <= length (connections g').
Proof.
  intros Hs. destruct l as [l|ok|k e|k]; cbn in Hs.
  - destruct (internal l); [|done]. cbn in Hs. destruct (step l (rt g)); [|done].
    simplify_eq/=. unfold deliver. by rewrite length_imap.
  - destruct (terminated (rt g)); [done|]. simplify_eq/=. rewrite length_app. lia.
  - destruct (connections g !! k) as [c|]; [|done]. cbn in Hs. destruct (_ && _); [|done].
    destruct (ws_step e (session c)); [|done]. cbn in Hs.
    destruct (match session_call k e _ with Some _ => _ | None => _ end); [|done].
    simplify_eq/=. by rewrite length_insert.
  - destruct (connections g !! k) as [c|]; [|done]. cbn in Hs. destruct (released c (rt g)); [|done].
    destruct (step _ (rt g)); [|done]. by simplify_eq/=.
Qed.

Lemma gateway_step_ordered capacity r ls l g g' :
  gateway_inv capacity r ls g -> (Z.of_nat (length (connections g')) < two64)%Z ->
  gateway_step l g = Some g' -> gateway_ordered g -> gateway_ordered g'.
Proof.
  intros Hg Hlen Hs Ho. pose proof (gateway_step_length _ _ _ Hs) as Hmono.
  destruct l as [l|ok|k e|k].
  - cbn in Hs. destruct (internal l) eqn:Hl; [|done]. cbn in Hs.
    destruct (step l (rt g)) as [w|] eqn:Hw; [|done]. simplify_eq/=.
    unfold gateway_ordered. cbn. rewrite view_deliver.
    eapply system_step_ordered; [exact Hg| |exact Hl|exact Hw|exact Ho].
    unfold in_range. rewrite length_fmap. lia.
  - cbn in Hs. destruct (terminated (rt g)); [done|]. simplify_eq/=.
    unfold gateway_ordered in *. cbn in *. destruct ok; cbn; [|by rewrite app_nil_r].
    rewrite fmap_app. apply order_connect; [|done]. unfold in_range.
    rewrite length_app, length_fmap. by rewrite length_app in Hlen.
  - by eapply session_step_ordered.
  - cbn [gateway_step] in Hs. destruct (connections g !! k) as [c|]; [|done].
    cbn [mbind option_bind] in Hs. destruct (released c (rt g)); [|done].
    destruct (step (Expire (transport_of k)) (rt g)) as [w|] eqn:Hw; [|done].
    cbn [mbind option_bind] in Hs. simplify_eq. unfold gateway_ordered. cbn.
    destruct (step_other _ _ _ Hw I) as [-> ->]. exact Ho.
Qed.

Lemma gateway_run_ordered gs capacity (r : R) g :
  gateway_run gs (gateway_initial capacity r) = Some g ->
  (Z.of_nat (length (connections g)) < two64)%Z -> gateway_ordered g.
Proof.
  intros Hr.
  destruct (gateway_invariant capacity r
    (fun g => (Z.of_nat (length (connections g)) < two64)%Z -> gateway_ordered g) gs g)
    as [Ho _]; [| |done|done].
  2: { intros _. split; [done|done|done|]. by intros e ?%elem_of_nil. }
  intros ls l g1 g2 Hg1 Ho1 Hs Hlen2. eapply gateway_step_ordered; [done..|].
  apply Ho1. apply gateway_step_length in Hs. lia.
Qed.

(** A connection none of whose handlers is running has handed over all. *)
Lemma ordered_complete g k c :
  gateway_ordered g -> connections g !! k = Some c -> strand_free c (rt g) = true ->
  of_session (session_name k) (accepted (rt g)) = requests k (dispatched (session c)).
Proof.
  intros [Hc _ _ _] Hk Hfree%strand_free_view. cbn in Hfree.
  destruct (Hc k (dispatching c) (dispatched (session c))) as (B & HB & Hd).
  { by rewrite list_lookup_fmap, Hk. }
  enough (B = []) as -> by (by rewrite app_nil_r in HB).
  destruct (dispatching c) as [i|]; [|done].
  destruct Hd as (p & Hp & He). rewrite Hfree in Hp. simplify_eq. done.
Qed.

Lemma ordered_prefix g k c :
  gateway_ordered g -> connections g !! k = Some c ->
  of_session (session_name k) (accepted (rt g)) `prefix_of` requests k (dispatched (session c)).
Proof.
  intros Ho Hk.
  destruct (oi_connections _ _ _ Ho k (dispatching c) (dispatched (session c))) as (B & HB & _).
  { by rewrite list_lookup_fmap, Hk. }
  by exists B.
Qed.

(** C9: the order of a client's messages. In every run that has accepted
    fewer than 2^64 connections, whatever the network threads, the workers
    and the other clients do, the events one connection has handed to the
    message actor are the first of the messages its client sent, in the
    client's order, each once; and they are all of them whenever no handler
    of the session is running. *)
Theorem client_messages_in_order gs capacity (r : R) g k c :
  gateway_run gs (gateway_initial capacity r) = Some g ->
  (Z.of_nat (length (connections g)) < two64)%Z ->
  connections g !! k = Some c ->
  of_session (session_name k) (accepted (rt g)) `prefix_of`
    requests k (dispatched (session c)) /\
  (strand_free c (rt g) = true ->
   of_session (session_name k) (accepted (rt g)) = requests k (dispatched (session c))).
Proof.
  intros Hr Hlen Hk. pose proof (gateway_run_ordered _ _ _ _ Hr Hlen) as Ho.
  split; [by apply ordered_prefix|by apply ordered_complete].
Qed.

(** ** All clients together *)

(** What the clients asked for, connection by connection. *)
Definition all_requests (cs : list connection) : list SendMessageEvent :=
  concat (imap (fun k c => requests k (dispatched (session c))) cs).

Lemma of_session_without sid sid' l :
  sid <> sid' ->
  of_session sid (filter (fun e => SendMessageEvent_sessionId e <> sid') l) = of_session sid l.
Proof.
  intros Hne. unfold of_session. rewrite list_filter_filter. apply list_filter_iff.
  intros e. split; [by intros [? _]|]. intros <-. done.
Qed.

(** A list of events of the first [n] sessions, sorted by session. *)
Lemma by_session n l :
  (Z.of_nat n < two64)%Z ->
  (forall e, e ∈ l -> exists k, k < n /\ SendMessageEvent_sessionId e = session_name k) ->
  l ≡ₚ concat ((fun k => of_session (session_name k) l) <$> seq 0 n).
Proof.
  revert l. induction n as [|n IH]; intros l Hn Hl.
  { destruct l as [|e l]; [done|]. destruct (Hl e) as (k & Hk & _); [apply list_elem_of_here|lia]. }
  rewrite seq_S, fmap_app, concat_app. cbn. rewrite app_nil_r.
  rewrite <- (filter_app_complement (fun e => SendMessageEvent_sessionId e = session_name n) l) at 1.
  rewrite Permutation_app_comm. apply Permutation_app; [|done].
  rewrite (IH (filter _ l)) at 1; [|lia|].
  - apply reflexive_eq. f_equal. apply list_fmap_ext. intros i k Hk.
    apply lookup_seq in Hk as [-> Hi]. apply of_session_without. intros Heq.
    apply session_name_inj in Heq; lia.
  - intros e [Hne He]%list_elem_of_filter. destruct (Hl e He) as (k & Hk & Hname).
    exists k. split; [|done]. assert (k <> n) by (intros ->; done). lia.
Qed.

Lemma accepted_by_session g :
  gateway_ordered g -> (Z.of_nat (length (connections g)) < two64)%Z ->
  accepted (rt g) ≡ₚ
    concat ((fun k => of_session (session_name k) (accepted (rt g))) <$>
      seq 0 (length (connections g))).
Proof.
  intros Ho Hlen. apply (by_session _ _ Hlen). intros e He.
  destruct (oi_known _ _ _ Ho e He) as (k & Hk & ?). exists k. by rewrite length_fmap in Hk.
Qed.

(** The events accepted are among what the clients asked for, each once. *)
Lemma accepted_within g :
  gateway_ordered g -> (Z.of_nat (length (connections g)) < two64)%Z ->
  accepted (rt g) ⊆+ all_requests (connections g).
Proof.
  intros Ho Hlen. rewrite (accepted_by_session g Ho Hlen) at 1. apply concat_submseteq.
  intros k l Hl. rewrite list_lookup_fmap in Hl.
  destruct (seq 0 _ !! k) as [j|] eqn:Hj; [|done]. cbn in Hl. simplify_eq.
  apply lookup_seq in Hj as [-> Hk]. cbn.
  destruct (lookup_lt_is_Some_2 _ _ Hk) as [c Hc]. eexists. rewrite list_lookup_imap, Hc.
  split; [done|]. by apply prefix_submseteq, ordered_prefix.
Qed.

(** When no handler is running, the events accepted are what the clients
    asked for, each once. *)
Lemma accepted_all g :
  gateway_ordered g -> (Z.of_nat (length (connections g)) < two64)%Z ->
  (forall k c, connections g !! k = Some c -> strand_free c (rt g) = true) ->
  accepted (rt g) ≡ₚ all_requests (connections g).
Proof.
  intros Ho Hlen Hfree. rewrite (accepted_by_session g Ho Hlen) at 1.
  apply reflexive_eq. unfold all_requests. f_equal. apply list_eq. intros k.
  rewrite list_lookup_fmap, list_lookup_imap.
  destruct (connections g !! k) as [c|] eqn:Hk.
  - rewrite lookup_seq_lt by (by eapply lookup_lt_Some). cbn. f_equal.
    apply ordered_complete; eauto.
  - rewrite lookup_seq_ge by (by apply lookup_ge_None). done.
Qed.

(** What the clients asked for only grows. *)
Lemma gateway_step_grows l g g' k c :
  gateway_step l g = Some g' -> connections g !! k = Some c ->
  exists c', connections g' !! k = Some c' /\
    dispatched (session c) `prefix_of` dispatched (session c').
Proof.
  intros Hs Hk. destruct l as [l|ok|j e|j]; cbn in Hs.
  - destruct (internal l); [|done]. cbn in Hs. destruct (step l (rt g)); [|done].
    simplify_eq/=. unfold deliver. rewrite list_lookup_imap, Hk. cbn. eexists. split; [done|].
    cbn. by rewrite (proj1 (proj2 (proj2 (send_all_frame _ _)))).
  - destruct (terminated (rt g)); [done|]. simplify_eq/=. exists c. split; [|done].
    by apply lookup_app_l_Some.
  - destruct (connections g !! j) as [d|] eqn:Hj; [|done]. cbn in Hs.
    destruct (own_event e) eqn:Hown; [|done]. destruct (strand_free _ _); [|done]. cbn in Hs.
    destruct (ws_step e (session d)) as [s|] eqn:He; [|done]. cbn in Hs.
    destruct (match session_call j e _ with Some _ => _ | None => _ end); [|done]. simplify_eq/=.
    destruct (decide (j = k)) as [->|Hne].
    + rewrite list_lookup_insert_eq by (by eapply lookup_lt_Some). eexists. split; [done|].
      simplify_eq. cbn. destruct (ws_step_frame _ _ _ Hown He) as (_ & _ & ->). by eexists.
    + rewrite list_lookup_insert_ne by done. by exists c.
  - destruct (connections g !! j) as [d|]; [|done]. cbn in Hs. destruct (released d (rt g)); [|done].
    destruct (step _ (rt g)); [|done]. simplify_eq/=. by exists c.
Qed.

Lemma gateway_run_requests gs g g' :
  gateway_run gs g = Some g' ->
  all_requests (connections g) ⊆+ all_requests (connections g') /\
  length (connections g) <= length (connections g').
Proof.
  revert g. induction gs as [|l gs IH]; intros g Hr; cbn in Hr; [by simplify_eq|].
  destruct (gateway_step l g) as [g1|] eqn:Hs; [|done]. cbn in Hr.
  destruct (IH _ Hr) as [Hsub Hle]. pose proof (gateway_step_length _ _ _ Hs) as Hle1.
  split; [|lia]. etrans; [|exact Hsub]. apply concat_submseteq. intros k l0 Hl.
  rewrite list_lookup_imap in Hl. destruct (connections g !! k) as [c|] eqn:Hk; [|done].
  cbn in Hl. simplify_eq. destruct (gateway_step_grows _ _ _ _ _ Hs Hk) as (c' & Hk' & Hpre).
  eexists. rewrite list_lookup_imap, Hk'. split; [done|].
  by apply prefix_submseteq, prefix_omap.
Qed.
End order.
