(* ===== verification/GatewayRuns.v ===== *)
(** * A conversation through the gateway

    Two clients connect, the first writes a message that names the second as
    its recipient, and both are written to: the run at which the theorems of
    [Gateway] and [GatewayOrder] apply. *)
From S2P Require Import Prelude CppString Json Domain Reference Mailbox Actor Handlers Runtime RuntimeInv RuntimeFlow RuntimeRuns WsSession Gateway GatewayOrder.

Module Conversation.
#[local] Existing Instances ref_json ref_json_laws ref_uuid ref_uuid_laws.
#[local] Existing Instances list_queue list_queue_laws.
#[local] Existing Instances Concrete.key_order Concrete.key_order_laws.

Definition conversation : list gateway_label :=
  [Connect true; Connect false; Connect true; Session 0 (EvAccept None);
   Session 1 (EvAccept None); System (Start 2); Session 0 (EvRead (Some (Concrete.raw "hi")));
   System (NetStep 0 Concrete.c0)] ++
  replicate 60 (System (WorkerStep 0 Concrete.c0)) ++
  [Session 0 EvPosted; Session 1 EvPosted; Session 1 (EvWrite true); Session 0 (EvWrite true)].

Definition gateway_after (gs : list gateway_label) : gateway (list Message) :=
  default (gateway_initial 8 []) (gateway_run gs (gateway_initial 8 [])).
Definition talked : gateway (list Message) := gateway_after conversation.

Definition nobody : connection := mkConnection (session_run "0") None.
Definition connection_at (k : nat) : connection := default nobody (connections talked !! k).

Lemma talked_run : gateway_run conversation (gateway_initial 8 []) = Some talked.
Proof.
  assert (match gateway_run conversation (gateway_initial 8 ([] : list Message)) with
          | Some _ => true | None => false end = true) as Hb by by vm_compute.
  unfold talked, gateway_after. by destruct (gateway_run _ _).
Qed.

Lemma two_connections : length (connections talked) = 2.
Proof. by vm_compute. Qed.

Lemma connected k : k < 2 -> connections talked !! k = Some (connection_at k).
Proof.
  intros Hk. unfold connection_at.
  destruct (lookup_lt_is_Some_2 (connections talked) k) as [c ->]; [|done].
  by rewrite two_connections.
Qed.

Lemma wire_texts_are_addressed_witness :
  (Concrete.hi_text ∈ wire (session (connection_at 0))) /\
  exists j c' raw e, connections talked !! j = Some c' /\
    (raw ∈ dispatched (session c')) /\ requested_event (session_name j) raw = Some e.
Proof.
  assert (Concrete.hi_text ∈ wire (session (connection_at 0))) as Hin.
  { apply (list_elem_of_lookup_2 _ 0). by vm_compute. }
  split; [exact Hin|].
  destruct (wire_texts_are_addressed conversation 8 [] talked 0 (connection_at 0)
    Concrete.hi_text) as (j & c' & raw & e & Hj & Hraw & He & _).
  - exact talked_run.
  - by rewrite two_connections.
  - apply connected. lia.
  - exact Hin.
  - exists j, c', raw, e. exact (conj Hj (conj Hraw He)).
Defined.

Lemma client_messages_in_order_witness :
  length (of_session (session_name 0) (accepted (rt talked))) = 1 /\
  of_session (session_name 0) (accepted (rt talked)) =
    requests 0 (dispatched (session (connection_at 0))).
Proof.
  split; [by vm_compute|].
  refine (proj2 (client_messages_in_order conversation 8 [] talked 0 (connection_at 0) _ _ _) _).
  - exact talked_run.
  - by rewrite two_connections.
  - apply connected. lia.
  - by vm_compute.
Defined.
End Conversation.
