(* ===== verification/HttpRouter.v ===== *)
(** * The HTTP interface

    [src/infrastructure/network/http]: the route table of [HttpRouter], with
    the exceptions it lets through, and the [HttpSession] that reads requests
    and writes their responses one after the other. *)
From S2P Require Import Prelude CppString Json Domain Jwt Reference.

(** ** http_router.cpp *)

Inductive verb : Type := post | get | other_verb.

#[export] Instance verb_eq_dec : EqDecision verb.
Proof. solve_decision. Defined.

(** The parts of a request the router reads; the authorization field is empty
    when the request has none. *)
Record request : Type := mkRequest {
  method : verb;
  target : string;
  request_body : string;
  authorization : string
}.

Record response : Type := mkResponse {
  status : Z;
  content_type : string;
  response_body : string
}.

Section router.
Context `{JsonLib, UuidLib, Sha1Lib} {R : Type} `{!MessageRepository R}.

Definition respond (st : Z) (j : json) : M R response :=
  text ← mlift (json_dump j);
  mret (mkResponse st "application/json" text).

Definition is_route (request : request) (v : verb) (path : string) : bool :=
  bool_decide (method request = v) && String.eqb (target request) path.

Definition message_json (message : Message) : json :=
  json_object [("id", json_string (uuid_to_string (Message_getId message)));
               ("text", json_string (Message_getContent message))].

(** [now] is the time at which a token is issued. *)
Definition route (secret_ : string) (request : request) (now : Z) : M R response :=
  if is_route request post "/register" then
    respond 200 (json_object [("status", json_string "ok")])
  else if is_route request post "/login" then
    let body := json_parse (request_body request) in
    userId ← mlift (json_value body "user_id" EmptyString);
    respond 200 (json_object
      [("access_token", json_string (issueToken secret_ userId 3600 now))])
  else if is_route request post "/refresh" then
    let auth := authorization request in
    token ← mlift (str_substr auth (wrap64 (str_find space auth + 1)) npos);
    valid ← mlift (validateToken secret_ token);
    if negb valid then
      respond 401 (json_object [("error", json_string "invalid token")])
    else
      userId ← mlift (extractUserId token);
      respond 200 (json_set json_null "access_token"
        (json_string (issueToken secret_ userId 3600 now)))
  else if bool_decide (method request = get) && starts_with (target request) "/user/" then
    id ← mlift (str_substr (target request) 6 npos);
    respond 200 (json_object [("id", json_string id)])
  else if bool_decide (method request = get) && starts_with (target request) "/chat/" &&
          ends_with (target request) "/messages" then
    let full := target request in
    chatId ← mlift (str_substr full 6 (wrap64 (wrap64 (str_size full - 6) - 9)));
    chat ← mlift (string_generator chatId);
    messages ← getByChat chat 50;
    let out := foldl (fun out message => json_push_back out (message_json message))
                 json_empty_array messages in
    respond 200 out
  else if bool_decide (method request = post) && starts_with (target request) "/chat/" &&
          ends_with (target request) "/message" then
    respond 202 (json_object [("status", json_string "queued")])
  else
    respond 404 (json_object [("error", json_string "not found")]).
End router.

(** ** Facts *)

Section reads_only.
Context `{MessageRepositorySpec}.

(** A method that leaves the stored messages as they are. *)
Definition reads_only {A} (m : M R A) : Prop :=
  forall r o r', m r = (o, r') -> stored r' = stored r.

Lemma reads_only_ret {A} (a : A) : reads_only (mret a).
Proof. intros r o r' [= _ <-]. done. Qed.
Lemma reads_only_lift {A} (x : result A) : reads_only (mlift x).
Proof. intros r o r' [= _ <-]. done. Qed.
Lemma reads_only_bind {A B} (m : M R A) (f : A -> M R B) :
  reads_only m -> (forall a, reads_only (f a)) -> reads_only (m ≫= f).
Proof.
  intros Hm Hf r o r' [(a & t & Ht & Hr)|(e & He & _)]%M_bind_inv; [|by eapply Hm].
  etrans; [by eapply Hf|by eapply Hm].
Qed.
Lemma reads_only_getByChat c n : reads_only (getByChat c n).
Proof. intros r o r'. apply getByChat_stored. Qed.
End reads_only.

#[export] Hint Resolve reads_only_ret reads_only_lift reads_only_bind reads_only_getByChat : svitock.

Section router_facts.
Context `{JsonLaws, UuidLib, Sha1Lib} {R : Type} `{!MessageRepository R}.
Implicit Types (req : request) (r : R).

Lemma respond_run st (j : json) r :
  respond st j r =
    (match json_dump j with
     | Ok text => Ok (mkResponse st "application/json" text)
     | Throw e => Throw e
     end, r).
Proof. unfold respond, mbind, M_bind, mlift. by destruct (json_dump j). Qed.

(** The chat id between [/chat/] and [/messages]. *)
Lemma chat_path mid :
  (str_size mid + 15 < two64)%Z ->
  let full := "/chat/" +:+ (mid +:+ "/messages") in
  starts_with full "/chat/" = true /\ ends_with full "/messages" = true /\
  str_substr full 6 (wrap64 (wrap64 (str_size full - 6) - 9)) = Ok mid.
Proof.
  intros Hmid full. split; [apply starts_with_app|]. split.
  { unfold full. rewrite <- string_app_assoc. apply ends_with_app. }
  pose proof (str_size_nonneg mid).
  assert (str_size full = str_size mid + 15)%Z as ->.
  { unfold full. rewrite !str_size_app.
    change (str_size "/chat/") with 6%Z. change (str_size "/messages") with 9%Z. lia. }
  rewrite !wrap64_small by (rewrite ?wrap64_small; lia).
  change 6%Z with (str_size "/chat/") at 1. apply str_substr_mid. lia.
Qed.

Lemma not_route req v path :
  target req <> path -> is_route req v path = false.
Proof. intros Hne. unfold is_route. apply String.eqb_neq in Hne. by rewrite Hne, andb_false_r. Qed.

Lemma not_route_method req v path :
  method req <> v -> is_route req v path = false.
Proof. intros Hne. unfold is_route. by rewrite bool_decide_false. Qed.

(** What [GET /chat/<mid>/messages] does, for any text between. *)
Lemma route_history secret req now mid :
  method req = get -> target req = "/chat/" +:+ (mid +:+ "/messages") ->
  (str_size mid + 15 < two64)%Z ->
  route (R:=R) secret req now =
    (chatId ← mlift (Ok mid);
     chat ← mlift (string_generator chatId);
     messages ← getByChat chat 50;
     respond 200 (foldl (fun out m => json_push_back out (message_json m))
                    json_empty_array messages)).
Proof.
  intros Hm Ht Hsize. destruct (chat_path _ Hsize) as (Hstart & Hend & Hsub).
  unfold route. rewrite !not_route_method by congruence.
  rewrite Hm, Ht, !bool_decide_true by done. rewrite Hstart, Hend. cbn [andb].
  change (starts_with ("/chat/" +:+ ?x) "/user/") with false. cbn [andb].
  by rewrite Hsub.
Qed.
End router_facts.

Section router_theorems.
Context `{JsonLaws, UuidLaws, Sha1Laws} {R : Type}
  `{!MessageRepository R, !MessageRepositorySpec}.
Implicit Types (req : request) (r : R).

Lemma route_reads_only secret req now : reads_only (route secret req now).
Proof.
  unfold route, respond.
  repeat case_match; repeat (apply reads_only_bind; [|intros ?]; try case_match);
    auto with svitock.
Qed.

(** What [POST /chat/<mid>/message] does, for any text between. *)
Lemma route_post_message secret req now mid :
  method req = post -> target req = "/chat/" +:+ (mid +:+ "/message") ->
  route (R:=R) secret req now = respond 202 (json_object [("status", json_string "queued")]).
Proof.
  intros Hm Ht. unfold route.
  rewrite !not_route by (rewrite Ht; discriminate).
  rewrite Hm, (bool_decide_false (post = get)), (bool_decide_true (post = post)) by done.
  assert (ends_with (target req) "/message" = true) as Hend.
  { rewrite Ht, <- string_app_assoc. apply ends_with_app. }
  assert (starts_with (target req) "/chat/" = true) as Hstart by (rewrite Ht; apply starts_with_app).
  by rewrite Hend, Hstart.
Qed.

(** C28: the HTTP interface stores nothing. Whatever the request, and
    whether it is answered or throws, the messages in the repository are
    the same afterwards. In particular a message posted to a chat is answered
    with status 202 and the body [{"status":"queued"}], and goes nowhere: not
    even the repository is asked. *)
Theorem http_stores_nothing secret req now r o r' :
  route secret req now r = (o, r') ->
  stored r' = stored r /\
  forall mid text, method req = post -> target req = "/chat/" +:+ (mid +:+ "/message") ->
    json_dump (json_object [("status", json_string "queued")]) = Ok text ->
    o = Ok (mkResponse 202 "application/json" text) /\ r' = r.
Proof.
  intros Hr. split; [by eapply route_reads_only|]. intros mid text Hm Ht Hd.
  rewrite (route_post_message secret req now mid Hm Ht), respond_run, Hd in Hr. by simplify_eq.
Qed.

(** The history of a chat: [GET /chat/<id>/messages] with the text of a
    chat's id asks the repository for the last 50 messages of that chat and
    answers them, in its order, with status 200. *)
Theorem history_request secret req now r chat ms r1 text :
  method req = get -> target req = "/chat/" +:+ (uuid_to_string chat +:+ "/messages") ->
  (str_size (uuid_to_string chat) + 15 < two64)%Z ->
  getByChat chat 50 r = (Ok ms, r1) ->
  json_dump (foldl (fun out m => json_push_back out (message_json m)) json_empty_array ms) =
    Ok text ->
  route secret req now r = (Ok (mkResponse 200 "application/json" text), r1).
Proof.
  intros Hm Ht Hsize Hget Hdump.
  rewrite (route_history secret req now _ Hm Ht Hsize).
  unfold mbind, M_bind, mlift. rewrite string_generator_to_string, Hget.
  by rewrite respond_run, Hdump.
Qed.

(** A chat id the UUID generator refuses is not answered with an error:
    [route] throws, for every such path, and nothing on the way to the
    thread function catches. *)
Theorem invalid_chat_path_throws secret req now r mid e :
  method req = get -> target req = "/chat/" +:+ (mid +:+ "/messages") ->
  (str_size mid + 15 < two64)%Z -> string_generator mid = Throw e ->
  route secret req now r = (Throw e, r).
Proof.
  intros Hm Ht Hsize Hgen.
  rewrite (route_history secret req now _ Hm Ht Hsize).
  unfold mbind, M_bind, mlift. by rewrite Hgen.
Qed.

(** The length arithmetic of the history route wraps around: for
    [GET /chat/messages], where prefix and suffix share the slash, the size
    of the id comes out as the largest [size_t], and the "id" is the text
    [messages]. *)
Theorem history_length_wraps secret req now r :
  method req = get -> target req = "/chat/messages" ->
  wrap64 (wrap64 (str_size (target req) - 6) - 9) = npos /\
  route secret req now r =
    (chat ← mlift (string_generator "messages");
     messages ← getByChat chat 50;
     respond 200 (foldl (fun out m => json_push_back out (message_json m))
                    json_empty_array messages)) r.
Proof.
  intros Hm Ht. rewrite Ht. split; [reflexivity|].
  unfold route. rewrite !not_route_method by congruence.
  rewrite Hm, Ht, !bool_decide_true by done. reflexivity.
Qed.

Lemma is_route_true req v path :
  method req = v -> target req = path -> is_route req v path = true.
Proof. intros <- <-. unfold is_route. by rewrite bool_decide_true, String.eqb_refl. Qed.

Lemma route_login secret req now r :
  method req = post -> target req = "/login" ->
  route secret req now r =
    (userId ← mlift (json_value (json_parse (request_body req)) "user_id" EmptyString);
     respond 200 (json_object
       [("access_token", json_string (issueToken secret userId 3600 now))])) r.
Proof.
  intros Hm Ht. unfold route. rewrite not_route by (by rewrite Ht).
  by rewrite (is_route_true req post "/login").
Qed.

Lemma route_refresh secret req now r token :
  method req = post -> target req = "/refresh" ->
  str_substr (authorization req) (wrap64 (str_find space (authorization req) + 1)) npos =
    Ok token ->
  route secret req now r =
    (valid ← mlift (validateToken secret token);
     if negb valid then
       respond 401 (json_object [("error", json_string "invalid token")])
     else
       userId ← mlift (extractUserId token);
       respond 200 (json_set json_null "access_token"
         (json_string (issueToken secret userId 3600 now)))) r.
Proof.
  intros Hm Ht Htok. unfold route.
  rewrite (not_route req post "/register"), (not_route req post "/login") by (by rewrite Ht).
  rewrite (is_route_true req post "/refresh") by done. by rewrite Htok.
Qed.

(** No login is refused, except by an exception: a login request is
    answered with a fresh token for whatever [user_id] it names (the empty
    one when it names none), and a body that is not a JSON object makes
    [route] throw the library's type error. No password is asked for. *)
Theorem login_outcomes secret req now r :
  method req = post -> target req = "/login" ->
  let body := json_parse (request_body req) in
  (json_is_object body = false -> route secret req now r = (Throw (json_type_error 306), r)) /\
  (forall user text, json_value body "user_id" EmptyString = Ok user ->
     json_dump (json_object
       [("access_token", json_string (issueToken secret user 3600 now))]) = Ok text ->
     route secret req now r = (Ok (mkResponse 200 "application/json" text), r)).
Proof.
  intros Hm Ht body. rewrite (route_login secret req now r Hm Ht). split.
  - intros Ho. unfold mbind, M_bind, mlift. by rewrite json_value_not_object.
  - intros user text Hv Hd. unfold mbind, M_bind, mlift. fold body. rewrite Hv.
    by rewrite respond_run, Hd.
Qed.

Lemma bearer_token scheme token :
  index_char space scheme = None -> fits (scheme +:+ String space token) ->
  str_substr (scheme +:+ String space token)
    (wrap64 (str_find space (scheme +:+ String space token) + 1)) npos = Ok token.
Proof.
  intros Hs Hf. unfold str_find. rewrite index_char_first by done. cbn [to_pos].
  change (Z.of_nat (String.length scheme)) with (str_size scheme).
  unfold fits, npos in *. change (String space token) with (String space EmptyString +:+ token) in *.
  rewrite !str_size_app in Hf. change (str_size (String space EmptyString)) with 1%Z in Hf.
  pose proof (str_size_nonneg scheme). pose proof (str_size_nonneg token).
  rewrite wrap64_small by lia.
  replace (str_size scheme + 1)%Z with (str_size (scheme +:+ String space EmptyString))
    by (by rewrite str_size_app).
  rewrite <- string_app_assoc. apply str_substr_tail. lia.
Qed.

Lemma fits_token scheme token : fits (scheme +:+ String space token) -> fits token.
Proof.
  unfold fits. change (String space token) with (String space EmptyString +:+ token).
  rewrite !str_size_app. pose proof (str_size_nonneg scheme).
  change (str_size (String space EmptyString)) with 1%Z. lia.
Qed.

(** C26: a session never ends: a token issued to a user at any time, with
    any lifetime, is exchanged at any later time for a fresh one of the same
    user. *)
Theorem refresh_renews_any_issued_token secret req user ttl issued now r scheme text :
  let token := issueToken secret user ttl issued in
  method req = post -> target req = "/refresh" ->
  authorization req = scheme +:+ String space token ->
  index_char space scheme = None -> fits (authorization req) ->
  index_char dot (toCompactJson jwt_header) = None ->
  json_parse (toCompactJson (jwt_payload user issued ttl)) = jwt_payload user issued ttl ->
  json_dump (json_set json_null "access_token"
    (json_string (issueToken secret user 3600 now))) = Ok text ->
  route secret req now r = (Ok (mkResponse 200 "application/json" text), r).
Proof.
  intros token Hm Ht Ha Hs Hf Hdot Hround Hdump. rewrite Ha in Hf.
  pose proof (fits_token _ _ Hf) as Hft.
  rewrite (route_refresh secret req now r token Hm Ht) by (rewrite Ha; by apply bearer_token).
  unfold mbind, M_bind, mlift. unfold token.
  rewrite issued_accepted by done. cbn [negb].
  rewrite extract_issued by done. by rewrite respond_run, Hdump.
Qed.

(** C27: everything else is refused: the authorization field is cut after
    its first space, and unless the rest ends in the signature of what stands
    before its last dot, the answer is 401 and no token is issued. *)
Theorem refresh_refuses_unsigned secret req now r scheme token text :
  method req = post -> target req = "/refresh" ->
  authorization req = scheme +:+ String space token ->
  index_char space scheme = None -> fits (authorization req) ->
  (forall data, token <> data +:+ (dot_text +:+ sign secret data)) ->
  json_dump (json_object [("error", json_string "invalid token")]) = Ok text ->
  route secret req now r = (Ok (mkResponse 401 "application/json" text), r).
Proof.
  intros Hm Ht Ha Hs Hf Hno Hdump. rewrite Ha in Hf.
  rewrite (route_refresh secret req now r token Hm Ht) by (rewrite Ha; by apply bearer_token).
  destruct (validate_cases secret token (fits_token _ _ Hf)) as [[_ [data Hd]]|[Hv _]];
    [by destruct (Hno data)|].
  unfold mbind, M_bind, mlift. rewrite Hv. cbn [negb]. by rewrite respond_run, Hdump.
Qed.
End router_theorems.

(** ** http_session.cpp *)

(** [response.need_eof()] of Boost.Beast. *)
Class BeastLib : Type := { need_eof : response -> bool }.

Section session.
Context `{JsonLib, UuidLib, Sha1Lib, BeastLib} {R : Type} `{!MessageRepository R}.
Context (secret_ : string).

(** A read or a write in progress, or no operation left. *)
Inductive http_phase : Type :=
| HReading
| HWriting (resp : response) (close : bool)
| HClosed.

(** [shut] is whether the sending side was shut down. History variables: the
    requests read, the responses written completely, and the exception that
    left [onRead], after which the process is gone. *)
Record HttpSession : Type := mkHttpSession {
  phase : http_phase;
  shut : bool;
  http_repository : R;
  requests : list request;
  responses : list response;
  raised : option exn
}.

Definition http_run (r : R) : HttpSession := mkHttpSession HReading false r [] [] None.

Definition set_phase (p : http_phase) (sh : bool) (s : HttpSession) : HttpSession :=
  mkHttpSession p sh (http_repository s) (requests s) (responses s) (raised s).

(** How a read can end. *)
Inductive read_result : Type :=
| ReadRequest (req : request) (now : Z)
| EndOfStream
| ReadError.

Definition http_onRead (res : read_result) (s : HttpSession) : HttpSession :=
  match res with
  | EndOfStream => set_phase HClosed true s
  | ReadError => set_phase HClosed (shut s) s
  | ReadRequest req now =>
      match route secret_ req now (http_repository s) with
      | (Ok resp, r) =>
          mkHttpSession (HWriting resp (need_eof resp)) (shut s) r (requests s ++ [req])
            (responses s) (raised s)
      | (Throw e, r) =>
          mkHttpSession HClosed (shut s) r (requests s ++ [req]) (responses s) (Some e)
      end
  end.

Definition http_onWrite (ok close : bool) (s : HttpSession) : HttpSession :=
  if negb ok then set_phase HClosed (shut s) s
  else if close then set_phase HClosed true s
  else set_phase HReading (shut s) s.

Inductive http_event : Type :=
| HRead (res : read_result)
| HWrite (ok : bool).

(** A successful write has put the whole response on the wire. *)
Definition http_step (e : http_event) (s : HttpSession) : option HttpSession :=
  match e, phase s with
  | HRead res, HReading => Some (http_onRead res s)
  | HWrite ok, HWriting resp close =>
      Some (http_onWrite ok close
        (mkHttpSession (phase s) (shut s) (http_repository s) (requests s)
           (if ok then responses s ++ [resp] else responses s) (raised s)))
  | _, _ => None
  end.

Fixpoint http_steps (es : list http_event) (s : HttpSession) : option HttpSession :=
  match es with
  | [] => Some s
  | e :: es' => s' ← http_step e s; http_steps es' s'
  end.

(** A response the router gives to a request. *)
Definition answers (req : request) (resp : response) : Prop :=
  exists now r r', route secret_ req now r = (Ok resp, r').

Definition session_inv (s : HttpSession) : Prop :=
  exists answered pending, requests s = answered ++ pending /\
    Forall2 answers answered (responses s) /\
    match phase s with
    | HReading => pending = []
    | HWriting resp _ => exists req, pending = [req] /\ answers req resp
    | HClosed => length pending <= 1
    end.

Lemma http_step_inv e s s' : session_inv s -> http_step e s = Some s' -> session_inv s'.
Proof.
  intros (an & pe & Hreq & Han & Hph) Hs. unfold http_step in Hs.
  destruct e as [res|ok], (phase s) as [|resp close|] eqn:Hp; simplify_eq.
  - rewrite app_nil_r in Hreq. destruct res as [req now| |]; cbn [http_onRead].
    + destruct (route secret_ req now (http_repository s)) as [[resp|e] r] eqn:Hr;
        exists an, [req]; cbn; rewrite Hreq; split_and!; try done.
      exists req. split; [done|]. by exists now, (http_repository s), r.
    + exists an, []. cbn. rewrite app_nil_r. split_and!; try done. lia.
    + exists an, []. cbn. rewrite app_nil_r. split_and!; try done. lia.
  - destruct Hph as (req & -> & Hans). unfold http_onWrite. destruct ok; cbn.
    + exists (an ++ [req]), [].
      assert (Forall2 answers (an ++ [req]) (responses s ++ [resp])) as Han'
        by (apply Forall2_app; [done|by constructor]).
      destruct close; cbn; rewrite app_nil_r; split_and!; try done. lia.
    + exists an, [req]. cbn. by split_and!.
Qed.

(** An HTTP session answers its requests one at a time and in order:
    the responses written belong, one to one and in the same order, to the
    requests read, except for at most one request at the end, whose response
    is being written, could not be written, or was never made because the
    router threw; and while the session reads, none is owed. *)
Theorem http_session_answers_in_order es r s :
  http_steps es (http_run r) = Some s ->
  exists answered pending, requests s = answered ++ pending /\
    Forall2 answers answered (responses s) /\ length pending <= 1 /\
    (phase s = HReading -> pending = []).
Proof.
  assert (forall s0, session_inv s0 -> http_steps es s0 = Some s -> session_inv s) as Hinv.
  { induction es as [|e es IH]; intros s0 Hs0 Hr; cbn in Hr; [by simplify_eq|].
    destruct (http_step e s0) as [s1|] eqn:He; [|done]. cbn in Hr.
    eauto using http_step_inv. }
  intros Hr. destruct (Hinv (http_run r)) as (an & pe & Hreq & Han & Hph); [|done|].
  { exists [], []. by split_and!. }
  exists an, pe. split_and!; try done.
  - destruct (phase s); [by subst pe; cbn; lia| |done].
    destruct Hph as (req & -> & _). done.
  - intros Hp. by rewrite Hp in Hph.
Qed.
End session.

(** ** Concrete requests *)

Module HttpRuns.
#[local] Existing Instances ref_json ref_json_laws ref_uuid ref_uuid_laws.
#[local] Existing Instances TokenRun.text_sha1 TokenRun.text_sha1_laws.
#[export] Instance keep_open : BeastLib := {| need_eof := fun _ => false |}.

Definition secret : string := "k".
Definition m1 : Message := mkMessage uuid_b uuid_a uuid_b "hi" 0%Z.
Definition history : request :=
  mkRequest get ("/chat/" +:+ (uuid_text_a +:+ "/messages")) EmptyString EmptyString.
Definition bad_history : request :=
  mkRequest get ("/chat/" +:+ ("7" +:+ "/messages")) EmptyString EmptyString.
Definition login : request := mkRequest post "/login" (jq "{'user_id':'u.1'}") EmptyString.
Definition bearer (token : string) : request :=
  mkRequest post "/refresh" EmptyString ("Bearer" +:+ String space token).
Definition good_token : string := issueToken secret "u.1" 1 5.

Definition posted : request :=
  mkRequest post ("/chat/" +:+ (uuid_text_a +:+ "/message")) (jq "{'text':'hi'}") EmptyString.

Lemma http_stores_nothing_witness :
  stored (route secret history 0 [m1]).2 = stored [m1] /\
  route secret posted 0 [m1] =
    (Ok (mkResponse 202 "application/json" (jq "{'status':'queued'}")), [m1]).
Proof.
  split.
  - apply (http_stores_nothing secret history 0 [m1] (route secret history 0 [m1]).1).
    by destruct (route _ _ _ _).
  - destruct (route secret posted 0 [m1]) as [o r'] eqn:Hr.
    destruct (proj2 (http_stores_nothing secret posted 0 [m1] o r' Hr) uuid_text_a
      (jq "{'status':'queued'}") eq_refl eq_refl) as [-> ->]; [by vm_compute|reflexivity].
Defined.

Lemma history_request_witness :
  route secret history 0 [m1] =
    (Ok (mkResponse 200 "application/json" (jq ("[{'id':'" +:+ uuid_text_b +:+ "','text':'hi'}]"))),
     [m1]).
Proof.
  refine (history_request secret history 0 [m1] uuid_a [m1] [m1] _ eq_refl eq_refl eq_refl _ _).
  - cbn. unfold filter, list_filter. rewrite decide_True by done. reflexivity.
  - by vm_compute.
Defined.

Lemma invalid_chat_path_throws_witness :
  route secret bad_history 0 [m1] = (Throw (runtime_error "invalid uuid string"), [m1]).
Proof.
  exact (invalid_chat_path_throws secret bad_history 0 [m1] "7" _ eq_refl eq_refl eq_refl eq_refl).
Defined.

Lemma history_length_wraps_witness :
  let req := mkRequest get "/chat/messages" EmptyString EmptyString in
  wrap64 (wrap64 (str_size (target req) - 6) - 9) = npos.
Proof.
  intros req. exact (proj1 (history_length_wraps secret req 0 [m1] eq_refl eq_refl)).
Defined.

Lemma login_outcomes_witness :
  exists text, route secret login 5 [m1] = (Ok (mkResponse 200 "application/json" text), [m1]).
Proof.
  eexists. refine (proj2 (login_outcomes secret login 5 [m1] eq_refl eq_refl) "u.1" _ _ _);
    vm_compute; reflexivity.
Defined.

Lemma refresh_renews_any_issued_token_witness :
  exists text, route secret (bearer good_token) 999999 [m1] =
    (Ok (mkResponse 200 "application/json" text), [m1]).
Proof.
  eexists. refine (refresh_renews_any_issued_token secret (bearer good_token) "u.1" 1 5 999999 [m1]
    "Bearer" _ eq_refl eq_refl eq_refl eq_refl _ _ _ _); try by vm_compute.
Defined.

Lemma refresh_refuses_unsigned_witness :
  route secret (bearer "x.y") 0 [m1] =
    (Ok (mkResponse 401 "application/json" (jq "{'error':'invalid token'}")), [m1]).
Proof.
  assert (fits "x.y") as Hf by by vm_compute.
  assert (forall data, "x.y" <> data +:+ (dot_text +:+ sign secret data)) as Hno.
  { intros data Hd. assert (validateToken secret "x.y" = Ok false) as Hv by by vm_compute.
    rewrite Hd, validate_signed in Hv; [done|]. by rewrite <- Hd. }
  refine (refresh_refuses_unsigned secret (bearer "x.y") 0 [m1] "Bearer" "x.y" _
    eq_refl eq_refl eq_refl eq_refl _ Hno _); by vm_compute.
Defined.

Definition one_request : list http_event := [HRead (ReadRequest login 5); HWrite true].

Definition is_reading (o : option (HttpSession (R:=list Message))) : bool :=
  match o with
  | Some s => match phase s with HReading => Nat.eqb (length (responses s)) 1 | _ => false end
  | None => false
  end.

Lemma is_reading_spec o :
  is_reading o = true -> exists s, o = Some s /\ phase s = HReading /\ length (responses s) = 1.
Proof.
  destruct o as [s|]; [|done]. cbn. destruct (phase s) eqn:Hp; try done.
  intros Hl%Nat.eqb_eq. by exists s.
Qed.

Lemma http_session_answers_in_order_witness :
  exists s, http_steps secret one_request (http_run [m1]) = Some s /\
    length (responses s) = 1 /\ Forall2 (answers secret) (requests s) (responses s).
Proof.
  destruct (is_reading_spec (http_steps secret one_request (http_run [m1])))
    as (s & Hs & Hp & Hl); [by vm_compute|].
  destruct (http_session_answers_in_order secret one_request [m1] s Hs)
    as (an & pe & Hreq & Han & _ & Hpe).
  exists s. rewrite (Hpe Hp), app_nil_r in Hreq. rewrite Hreq. by split_and!.
Defined.
End HttpRuns.
