(* ===== verification/HttpEndpoints.v ===== *)
(** * What the HTTP interface offers

    An endpoint-level description of [HttpRouter::route]: which endpoint a
    request names, found by taking literal parts off its target, and what each
    endpoint answers, without positions, lengths or [size_t] arithmetic. The
    route table of [HttpRouter] is proved to be this description. *)
From S2P Require Import Prelude CppString Json Domain Jwt Reference HttpRouter.

(** ** Taking a text off the front or the end of another *)

Fixpoint strip_prefix (p s : string) : option string :=
  match p, s with
  | EmptyString, _ => Some s
  | String c p', String d s' => if Ascii.eqb c d then strip_prefix p' s' else None
  | String _ _, EmptyString => None
  end.

Fixpoint strip_suffix (p s : string) : option string :=
  if String.eqb s p then Some EmptyString
  else match s with
       | EmptyString => None
       | String c s' => String c <$> strip_suffix p s'
       end.

(** The part after the first occurrence of a character. *)
Fixpoint after_first (c : ascii) (s : string) : option string :=
  match s with
  | EmptyString => None
  | String d s' => if Ascii.eqb d c then Some s' else after_first c s'
  end.

Lemma strip_prefix_app p s : strip_prefix p (p +:+ s) = Some s.
Proof.
  induction p as [|c p IH]; [by destruct s|].
  rewrite string_app_cons. cbn. by rewrite Ascii.eqb_refl.
Qed.

Lemma strip_prefix_Some p s t : strip_prefix p s = Some t -> s = p +:+ t.
Proof.
  revert s. induction p as [|c p IH]; intros s H.
  - destruct s; cbn in H; by simplify_eq.
  - destruct s as [|d s]; [done|]. cbn in H. destruct (Ascii.eqb c d) eqn:E; [|done].
    apply Ascii.eqb_eq in E as <-. rewrite string_app_cons. f_equal. by apply IH.
Qed.

Lemma strip_suffix_Some p s t : strip_suffix p s = Some t -> s = t +:+ p.
Proof.
  revert t. induction s as [|c s IH]; intros t H; cbn [strip_suffix] in H.
  - destruct (String.eqb_spec EmptyString p) as [<-|]; by simplify_eq.
  - destruct (String.eqb_spec (String c s) p) as [<-|]; [by simplify_eq|].
    destruct (strip_suffix p s) as [u|]; [|done]. cbn in H. simplify_eq.
    rewrite string_app_cons. f_equal. by apply IH.
Qed.

Lemma strip_suffix_app p s : strip_suffix p (s +:+ p) = Some s.
Proof.
  induction s as [|c s IH].
  - change (EmptyString +:+ p) with p. destruct p; cbn [strip_suffix]; by rewrite String.eqb_refl.
  - rewrite string_app_cons. cbn [strip_suffix].
    destruct (String.eqb_spec (String c (s +:+ p)) p) as [E|E]; [|by rewrite IH].
    apply (f_equal String.length) in E. cbn in E. rewrite string_length_app in E. lia.
Qed.

Lemma starts_with_strip s p :
  starts_with s p = match strip_prefix p s with Some _ => true | None => false end.
Proof.
  destruct (strip_prefix p s) as [t|] eqn:E.
  - apply strip_prefix_Some in E as ->. apply starts_with_app.
  - destruct (starts_with s p) eqn:F; [|done].
    apply starts_with_inv in F as [t ->]. by rewrite strip_prefix_app in E.
Qed.

Lemma ends_with_inv s p : ends_with s p = true -> exists t, s = t +:+ p.
Proof.
  unfold ends_with. intros [Hl%Nat.leb_le He%String.eqb_eq]%andb_prop.
  assert (forall n m (x : string), n + m = String.length x ->
    x = String.substring 0 n x +:+ String.substring n m x) as Hcut.
  { induction n as [|n IH]; intros m x Hx; cbn in Hx.
    - assert (String.substring 0 0 x = EmptyString) as -> by (by destruct x).
      rewrite Hx, substring_all. done.
    - destruct x as [|c x]; [done|]. cbn [String.substring]. rewrite string_app_cons.
      f_equal. apply IH. cbn in Hx. lia. }
  exists (String.substring 0 (String.length s - String.length p) s).
  pose proof (Hcut (String.length s - String.length p) (String.length p) s) as Hs.
  rewrite He in Hs. apply Hs. lia.
Qed.

Lemma ends_with_strip s p :
  ends_with s p = match strip_suffix p s with Some _ => true | None => false end.
Proof.
  destruct (strip_suffix p s) as [t|] eqn:E.
  - apply strip_suffix_Some in E as ->. apply ends_with_app.
  - destruct (ends_with s p) eqn:F; [|done].
    apply ends_with_inv in F as [t ->]. by rewrite strip_suffix_app in E.
Qed.

Lemma after_first_app c a b :
  index_char c a = None -> after_first c (a +:+ String c b) = Some b.
Proof.
  induction a as [|d a IH]; intros Ha.
  - change (EmptyString +:+ ?x) with x. cbn. by rewrite Ascii.eqb_refl.
  - rewrite string_app_cons. cbn in *. destruct (Ascii.eqb d c); [done|].
    apply IH. by destruct (index_char c a).
Qed.

Lemma after_first_find c s :
  fits s -> str_substr s (wrap64 (str_find c s + 1)) npos = Ok (default s (after_first c s)).
Proof.
  intros Hf. unfold str_find. destruct (index_char c s) as [n|] eqn:E.
  - apply index_char_Some in E as (a & b & -> & <- & Ha). cbn [to_pos].
    assert (after_first c (a +:+ String c b) = Some b) as ->.
    { by apply after_first_app. }
    cbn [default]. change (Z.of_nat (String.length a)) with (str_size a).
    unfold fits, npos in *.
    change (String c b) with (String c EmptyString +:+ b) in *.
    rewrite !str_size_app in Hf. change (str_size (String c EmptyString)) with 1%Z in Hf.
    pose proof (str_size_nonneg a). pose proof (str_size_nonneg b).
    rewrite wrap64_small by lia.
    replace (str_size a + 1)%Z with (str_size (a +:+ String c EmptyString))
      by (by rewrite str_size_app).
    rewrite <- string_app_assoc. apply (str_substr_tail _ b). lia.
  - cbn [to_pos]. change (wrap64 (npos + 1)) with 0%Z.
    assert (after_first c s = None) as ->.
    { clear Hf. induction s as [|d s IH]; [done|]. cbn in *.
      destruct (Ascii.eqb d c); [done|]. apply IH. by destruct (index_char c s). }
    apply str_substr_whole. by apply Z.lt_le_incl.
Qed.

(** ** The endpoints *)

Inductive endpoint : Type :=
| Register
| Login
| Refresh
| UserInfo (id : string)
| ChatHistory (id : string)
| PostMessage (id : string)
| Unknown.

(** The id in [/chat/<id>/<last>]. In [/chat/<last>], where the two literal
    parts share a slash, it is [last]. *)
Definition chat_id (last target : string) : option string :=
  front ← strip_suffix ("/" +:+ last) target;
  match strip_prefix "/chat/" front with
  | Some id => Some id
  | None => if String.eqb front "/chat" then Some last else None
  end.

Definition classify (req : request) : endpoint :=
  match method req with
  | post =>
      if String.eqb (target req) "/register" then Register
      else if String.eqb (target req) "/login" then Login
      else if String.eqb (target req) "/refresh" then Refresh
      else match chat_id "message" (target req) with
           | Some id => PostMessage id
           | None => Unknown
           end
  | get =>
      match strip_prefix "/user/" (target req), chat_id "messages" (target req) with
      | Some id, _ => UserInfo id
      | None, Some id => ChatHistory id
      | None, None => Unknown
      end
  | other_verb => Unknown
  end.

Lemma fits_app_r a b : fits (a +:+ b) -> fits b.
Proof. unfold fits. rewrite str_size_app. pose proof (str_size_nonneg a). lia. Qed.

#[local] Arguments String.append !_ _ / : simpl nomatch.

(** The prefix and suffix tests of the code are the id of a chat path. *)
Lemma chat_id_tests last t :
  last = "messages" \/ last = "message" ->
  starts_with t "/chat/" && ends_with t ("/" +:+ last) =
    match chat_id last t with Some _ => true | None => false end.
Proof.
  intros Hlast. unfold chat_id. rewrite ends_with_strip.
  destruct (strip_suffix ("/" +:+ last) t) as [front|] eqn:E;
    cbn [mbind option_bind]; [|apply andb_false_r].
  apply strip_suffix_Some in E as ->. rewrite andb_true_r.
  destruct (strip_prefix "/chat/" front) as [id|] eqn:F.
  { apply strip_prefix_Some in F as ->. rewrite string_app_assoc. apply starts_with_app. }
  destruct (String.eqb_spec front "/chat") as [->|Hne]; [by destruct Hlast as [-> | ->]|].
  destruct (starts_with (front +:+ ("/" +:+ last)) "/chat/") eqn:G; [|done].
  exfalso.
  apply starts_with_inv in G as [rest G]. revert G F Hne.
  destruct Hlast as [-> | ->];
    do 6 (destruct front as [|? front]; [cbn; intros; by simplify_eq|]);
    cbn; intros G F _; simplify_eq; by destruct front.
Qed.

Lemma chat_path_sub last t :
  last = "messages" -> fits t ->
  match chat_id last t with
  | Some id => str_substr t 6 (wrap64 (wrap64 (str_size t - 6) - 9)) = Ok id
  | None => True
  end.
Proof.
  intros -> Hf. unfold chat_id.
  destruct (strip_suffix ("/" +:+ "messages") t) as [front|] eqn:E;
    cbn [mbind option_bind]; [|done].
  apply strip_suffix_Some in E as ->.
  destruct (strip_prefix "/chat/" front) as [id|] eqn:F.
  - apply strip_prefix_Some in F as ->. rewrite string_app_assoc in *.
    unfold fits, npos in Hf. rewrite !str_size_app in Hf.
    change (str_size "/chat/") with 6%Z in Hf.
    change (str_size "/") with 1%Z in Hf. change (str_size "messages") with 8%Z in Hf.
    apply chat_path. lia.
  - destruct (String.eqb_spec front "/chat") as [->|]; [reflexivity|done].
Qed.

(** ** What an endpoint answers *)

Section endpoints.
Context `{JsonLib, UuidLib, Sha1Lib} {R : Type} `{!MessageRepository R}.

(** The token of an authorization field is what follows its first space, or
    the whole field when it has none. *)
Definition token_of (auth : string) : string := default auth (after_first space auth).

Definition token_json (secret : string) (now : Z) (user : string) : string :=
  issueToken secret user 3600 now.

Definition answer (secret : string) (req : request) (now : Z) (e : endpoint) : M R response :=
  match e with
  | Register => respond 200 (json_object [("status", json_string "ok")])
  | Login =>
      user ← mlift (json_value (json_parse (request_body req)) "user_id" EmptyString);
      respond 200 (json_object [("access_token", json_string (token_json secret now user))])
  | Refresh =>
      valid ← mlift (validateToken secret (token_of (authorization req)));
      if valid : bool then
        user ← mlift (extractUserId (token_of (authorization req)));
        respond 200 (json_set json_null "access_token" (json_string (token_json secret now user)))
      else respond 401 (json_object [("error", json_string "invalid token")])
  | UserInfo id => respond 200 (json_object [("id", json_string id)])
  | ChatHistory id =>
      chat ← mlift (string_generator id);
      messages ← getByChat chat 50;
      respond 200 (foldl json_push_back json_empty_array (message_json <$> messages))
  | PostMessage _ => respond 202 (json_object [("status", json_string "queued")])
  | Unknown => respond 404 (json_object [("error", json_string "not found")])
  end.

Lemma foldl_push_fmap (ms : list Message) j :
  foldl (fun out m => json_push_back out (message_json m)) j ms =
  foldl json_push_back j (message_json <$> ms).
Proof. revert j. induction ms as [|x ms IH]; intros j; cbn; [done|apply IH]. Qed.
End endpoints.

Section equivalence.
Context `{JsonLaws, UuidLib, Sha1Lib} {R : Type} `{!MessageRepository R}.

(** C25: the route table is the endpoint description. For every request whose
    target and authorization field have a size below [npos], [route] does
    exactly what the endpoint the request names answers: same status and
    body, same exceptions, same effect on the repository. In particular no
    position or length the code computes leaves the target, and the only wrap
    around, in [/chat/messages] and in an authorization field without a
    space, is the one the description names. *)
Theorem route_answers_endpoint secret req now r :
  fits (target req) -> fits (authorization req) ->
  route (R:=R) secret req now r = answer secret req now (classify req) r.
Proof.
  intros Hft Hfa. unfold route, classify, is_route.
  pose proof (after_first_find space _ Hfa) as Htok.
  pose proof (chat_path_sub "messages" _ eq_refl Hft) as Hsub.
  pose proof (chat_id_tests "messages" (target req) (or_introl eq_refl)) as Hget.
  pose proof (chat_id_tests "message" (target req) (or_intror eq_refl)) as Hpost.
  change ("/" +:+ "messages") with "/messages" in Hget.
  change ("/" +:+ "message") with "/message" in Hpost.
  destruct (method req).
  - change (bool_decide (post = post)) with true. change (bool_decide (post = get)) with false.
    cbn [andb]. rewrite Hpost.
    destruct (String.eqb (target req) "/register"); [done|].
    destruct (String.eqb (target req) "/login"); [done|].
    destruct (String.eqb (target req) "/refresh");
      [|by destruct (chat_id "message" (target req))].
    rewrite Htok, bind_lift_ok. cbn [answer]. unfold mbind, M_bind, mlift.
    fold (token_of (authorization req)).
    by destruct (validateToken secret (token_of (authorization req))) as [[]|].
  - change (bool_decide (get = post)) with false. change (bool_decide (get = get)) with true.
    cbn [andb]. rewrite Hget, starts_with_strip.
    destruct (strip_prefix "/user/" (target req)) as [id|] eqn:Hid.
    + apply strip_prefix_Some in Hid. rewrite Hid.
      change 6%Z with (str_size "/user/"). rewrite str_substr_tail; [done|].
      apply Z.lt_le_incl. rewrite Hid in Hft. by eapply fits_app_r.
    + destruct (chat_id "messages" (target req)) as [id|]; [|done].
      rewrite Hsub, bind_lift_ok. cbn [answer]. unfold mbind, M_bind, mlift.
      destruct (string_generator id) as [chat|]; [|done].
      destruct (getByChat chat 50 r) as [[ms|] r']; [|done]. by rewrite foldl_push_fmap.
  - done.
Qed.
End equivalence.

(** ** A concrete request *)

Module Endpoints.
#[local] Existing Instances ref_json ref_json_laws ref_uuid ref_uuid_laws.
#[local] Existing Instances TokenRun.text_sha1 TokenRun.text_sha1_laws.

Definition short_chat : request := mkRequest get "/chat/messages" EmptyString EmptyString.

Lemma route_answers_endpoint_witness :
  classify short_chat = ChatHistory "messages" /\
  route "k" short_chat 0 [HttpRuns.m1] =
    answer "k" short_chat 0 (ChatHistory "messages") [HttpRuns.m1].
Proof.
  split; [by vm_compute|].
  exact (route_answers_endpoint "k" short_chat 0 [HttpRuns.m1] eq_refl eq_refl).
Defined.
End Endpoints.
