(* ===== verification/HttpNet.v ===== *)
(** * The HTTP connections together

    [src/infrastructure/network/http]: the accept loop of [HttpListener] and
    the sessions it makes, over one repository that the storage actor writes
    to in between. The handlers of all connections run on the network threads;
    a step is the completion of one operation. *)
From S2P Require Import Prelude CppString Json Domain Jwt Reference HttpRouter.

Section http_net.
Context `{JsonLib, UuidLib, Sha1Lib, BeastLib} {R : Type} `{!MessageRepository R}.
Context (secret_ : string).

(** The repository of the router, the sessions in the order in which they
    were accepted, and the exception that left [io_context::run] and ended
    the process. *)
Record http_net : Type := mkHttpNet {
  shared_repository : R;
  http_sessions : list (HttpSession (R:=R));
  http_ended : option exn
}.

(** [Stored r]: someone else, the storage actor, leaves the repository [r]. *)
Inductive http_label : Type :=
| Accepted (ok : bool)
| Completed (k : nat) (e : http_event)
| Stored (r : R).

(** [onAccept]: a session made and run, or nothing on an error; the listener
    accepts on in both cases. *)
Definition http_listener_onAccept (ok : bool) (n : http_net) : http_net :=
  if ok
  then mkHttpNet (shared_repository n) (http_sessions n ++ [http_run (shared_repository n)])
         (http_ended n)
  else n.

(** A session sees the repository the router refers to. *)
Definition with_repository (r : R) (s : HttpSession (R:=R)) : HttpSession (R:=R) :=
  mkHttpSession (phase s) (shut s) r (requests s) (responses s) (raised s).

Definition http_net_step (l : http_label) (n : http_net) : option http_net :=
  match http_ended n with
  | Some _ => None
  | None =>
      match l with
      | Accepted ok => Some (http_listener_onAccept ok n)
      | Completed k e =>
          s ← http_sessions n !! k;
          s' ← http_step secret_ e (with_repository (shared_repository n) s);
          Some (mkHttpNet (http_repository s') (<[k := s']> (http_sessions n)) (raised s'))
      | Stored r => Some (mkHttpNet r (http_sessions n) None)
      end
  end.

Fixpoint http_net_run (ls : list http_label) (n : http_net) : option http_net :=
  match ls with
  | [] => Some n
  | l :: ls' => n' ← http_net_step l n; http_net_run ls' n'
  end.

Definition http_net_initial (r : R) : http_net := mkHttpNet r [] None.
End http_net.
Arguments http_net R : clear implicits.
Arguments http_label R : clear implicits.

Section http_net_facts.
Context `{JsonLaws, UuidLaws, Sha1Laws, BeastLib} {R : Type}
  `{!MessageRepository R, !MessageRepositorySpec}.
Context (secret_ : string).
Implicit Types (n : http_net R) (s : HttpSession (R:=R)).

(** The repositories of a run: the first one and those others left. *)
Definition left_by (l : http_label R) : list R :=
  match l with Stored r => [r] | _ => [] end.
Definition history (r0 : R) (ls : list (http_label R)) : list R := r0 :: (ls ≫= left_by).

(** What the router answers on the messages of [r]. *)
Definition routed (r : R) (req : request) (o : result response) : Prop :=
  exists now r1 r2, stored r1 = stored r /\ route secret_ req now r1 = (o, r2).

Section invariant.
Context (rs : list R).

Definition answered_in (req : request) (resp : response) : Prop :=
  exists r, r ∈ rs /\ routed r req (Ok resp).

(** The session's part of the invariant: who waits for a response, and what
    ended the session. *)
Definition session_ok s : Prop :=
  exists answered pending, requests s = answered ++ pending /\
    Forall2 answered_in answered (responses s) /\
    match phase s with
    | HReading => pending = [] /\ raised s = None
    | HWriting resp _ =>
        raised s = None /\ exists req, pending = [req] /\ answered_in req resp
    | HClosed =>
        length pending <= 1 /\
        forall e, raised s = Some e ->
          exists req r, pending = [req] /\ r ∈ rs /\ routed r req (Throw e)
    end.

Lemma session_ok_with r s : session_ok s -> session_ok (with_repository r s).
Proof. done. Qed.

(** A step of a session on the messages of [r], one of [rs]: the messages
    stay, and so does the invariant. *)
Lemma http_step_ok r e s s' :
  r ∈ rs -> stored (http_repository s) = stored r -> session_ok s ->
  http_step secret_ e s = Some s' ->
  session_ok s' /\ stored (http_repository s') = stored r.
Proof.
  intros Hin Hst (an & pe & Hreq & Han & Hph) Hs. unfold http_step in Hs.
  destruct e as [res|ok], (phase s) as [|resp close|] eqn:Hp; simplify_eq.
  - destruct Hph as [-> Hra]. rewrite app_nil_r in Hreq. destruct res as [req now| |]; cbn [http_onRead].
    + destruct (route secret_ req now (http_repository s)) as [o r'] eqn:Hr.
      assert (routed r req o) as Hro by (by exists now, (http_repository s), r').
      assert (reads_only (route secret_ req now)) as Hro' by apply route_reads_only.
      rewrite <- Hst, <- (Hro' _ _ _ Hr).
      destruct o as [resp|e]; cbn; (split; [|done]); exists an, [req]; cbn; rewrite Hreq;
        split_and!; try done.
      * exists req. split; [done|]. by exists r.
      * intros e' [= <-]. by exists req, r.
    + split; [|done]. exists an, []. cbn. rewrite app_nil_r, Hra. split_and!; try done. lia.
    + split; [|done]. exists an, []. cbn. rewrite app_nil_r, Hra. split_and!; try done. lia.
  - destruct Hph as (Hra & req & -> & Hans). unfold http_onWrite. destruct ok; cbn.
    + split; [|by destruct close].
      assert (Forall2 answered_in (an ++ [req]) (responses s ++ [resp])) as Han'
        by (apply Forall2_app; [done|by constructor]).
      exists (an ++ [req]), []. destruct close; cbn; rewrite app_nil_r, Hra; split_and!; try done. lia.
    + split; [|done]. exists an, [req]. cbn. rewrite Hra. by split_and!.
Qed.
End invariant.

Lemma session_ok_mono rs rs' s : rs ⊆ rs' -> session_ok rs s -> session_ok rs' s.
Proof.
  intros Hsub (an & pe & Hreq & Han & Hph). exists an, pe.
  assert (forall req resp, answered_in rs req resp -> answered_in rs' req resp) as Hmono.
  { intros req resp (r & Hin & Hr). exists r. by split; [apply Hsub|]. }
  split_and!; [done|by eapply Forall2_impl|].
  destruct (phase s); [done| |].
  - destruct Hph as (? & req & ? & ?). split; [done|]. exists req. auto.
  - destruct Hph as [? Hthrow]. split; [done|]. intros e He.
    destruct (Hthrow e He) as (req & r & ? & ? & ?). exists req, r. auto.
Qed.

Record net_ok r0 ls n : Prop := {
  no_sessions : Forall (session_ok (history r0 ls)) (http_sessions n);
  no_stored : exists r, last (history r0 ls) = Some r /\ stored (shared_repository n) = stored r;
  no_ended : forall e, http_ended n = Some e ->
    exists k s, http_sessions n !! k = Some s /\ raised s = Some e;
  no_calm : http_ended n = None -> Forall (fun s => raised s = None) (http_sessions n)
}.

Lemma history_snoc r0 ls l : history r0 (ls ++ [l]) = history r0 ls ++ left_by l.
Proof. unfold history. rewrite bind_app. cbn. by rewrite app_nil_r. Qed.

Lemma history_same r0 ls l : left_by l = [] -> history r0 (ls ++ [l]) = history r0 ls.
Proof. intros Hl. by rewrite history_snoc, Hl, app_nil_r. Qed.

Lemma history_mono r0 ls l : history r0 ls ⊆ history r0 (ls ++ [l]).
Proof. intros r Hr. rewrite history_snoc. apply elem_of_app. by left. Qed.

Lemma http_net_step_ok r0 ls l n n' :
  net_ok r0 ls n -> http_net_step secret_ l n = Some n' -> net_ok r0 (ls ++ [l]) n'.
Proof.
  intros [Hok (r & Hlast & Hst) _ Hcalm] Hs. unfold http_net_step in Hs.
  destruct (http_ended n) eqn:Hend; [done|]. specialize (Hcalm eq_refl).
  assert (r ∈ history r0 ls) as Hin by (by apply last_Some_elem_of).
  assert (Forall (session_ok (history r0 (ls ++ [l]))) (http_sessions n)) as Hok'.
  { eapply Forall_impl; [exact Hok|]. intros s. apply session_ok_mono, history_mono. }
  destruct l as [ok|k e|r']; cbn beta iota in Hs; simplify_eq.
  - destruct ok; (split; cbn [http_listener_onAccept http_sessions shared_repository http_ended];
      [|rewrite history_same by done; eauto|congruence|]); try done.
    + apply Forall_app. split; [done|]. constructor; [|constructor].
      exists [], []. by split_and!.
    + intros _. apply Forall_app. split; [done|]. by repeat constructor.
  - destruct (http_sessions n !! k) as [s|] eqn:Hk; [|done]. cbn in Hs.
    destruct (http_step secret_ e _) as [s'|] eqn:He; [|done]. cbn in Hs. simplify_eq.
    destruct (http_step_ok (history r0 (ls ++ [Completed k e])) r e
      (with_repository (shared_repository n) s) s') as [Hs' Hst']; try done.
    { by apply history_mono. }
    { eapply session_ok_with, Forall_lookup_1; eauto. }
    split; cbn; [by apply Forall_insert|rewrite history_same by done; by exists r| |].
    + intros ex Hex. exists k, s'. split; [|done].
      apply list_lookup_insert_eq. by eapply lookup_lt_Some.
    + intros Hex. by apply Forall_insert.
  - split; cbn; [done| |done|done]. rewrite history_snoc. exists r'. split; [apply last_snoc|done].
Qed.

(** C29: the HTTP interface as a whole. In every interleaving of connections,
    requests and writes with what the storage actor does to the repository:
    the responses written on a connection belong one to one and in order to
    the requests read from it, except for at most one request at the end;
    each is what the router answers on the messages stored at some moment of
    the run; the messages stored are those that others stored last; and when
    the process has ended, the router threw on the last request of one of the
    connections. *)
Theorem http_network_serves r0 ls n :
  http_net_run secret_ ls (http_net_initial r0) = Some n ->
  (forall k s, http_sessions n !! k = Some s ->
     exists answered pending, requests s = answered ++ pending /\
       Forall2 (answered_in (history r0 ls)) answered (responses s) /\
       length pending <= 1 /\ (phase s = HReading -> pending = [])) /\
  (exists r, last (history r0 ls) = Some r /\ stored (shared_repository n) = stored r) /\
  (forall e, http_ended n = Some e ->
     exists k s req r, http_sessions n !! k = Some s /\ last (requests s) = Some req /\
       r ∈ history r0 ls /\ routed r req (Throw e)).
Proof.
  intros Hr. assert (net_ok r0 ls n) as [Hok Hst Hend _].
  { change ls with ([] ++ ls). revert Hr.
    assert (net_ok r0 [] (http_net_initial r0)) as Hinv.
    { split; cbn; [constructor|by exists r0|done|constructor]. }
    revert Hinv. generalize (@nil (http_label R)), (http_net_initial r0).
    induction ls as [|l ls IH]; intros done n0 Hinv Hr; cbn in Hr.
    - simplify_eq. by rewrite app_nil_r.
    - destruct (http_net_step secret_ l n0) as [n1|] eqn:Hl; [|done]. cbn in Hr.
      rewrite cons_middle, app_assoc. eapply IH; [by eapply http_net_step_ok|done]. }
  split; [|split; [done|]].
  - intros k s Hk. destruct (Forall_lookup_1 _ _ _ _ Hok Hk) as (an & pe & Hreq & Han & Hph).
    exists an, pe. split_and!; [done|done| |].
    + destruct (phase s); [by destruct Hph as [-> _]; cbn; lia| |by destruct Hph].
      by destruct Hph as (_ & req & -> & _).
    + intros Hp. rewrite Hp in Hph. by destruct Hph.
  - intros e He. destruct (Hend e He) as (k & s & Hk & Hra).
    destruct (Forall_lookup_1 _ _ _ _ Hok Hk) as (an & pe & Hreq & _ & Hph).
    destruct (phase s); [by destruct Hph; congruence|by destruct Hph; congruence|].
    destruct Hph as [_ Hthrow]. destruct (Hthrow e Hra) as (req & r & -> & Hin & Hro).
    exists k, s, req, r. split_and!; [done| |done|done]. by rewrite Hreq, last_snoc.
Qed.
End http_net_facts.

(** ** A concrete run *)

Module HttpNetRun.
#[local] Existing Instances ref_json ref_json_laws ref_uuid ref_uuid_laws.
#[local] Existing Instances TokenRun.text_sha1 TokenRun.text_sha1_laws HttpRuns.keep_open.

(** Two connections; a message is stored between their requests, and the
    second request names no chat. *)
Definition busy : list (http_label (list Message)) :=
  [Accepted true; Accepted false; Accepted true;
   Completed 0 (HRead (ReadRequest HttpRuns.history 1)); Stored [HttpRuns.m1];
   Completed 0 (HWrite true); Completed 0 (HRead (ReadRequest HttpRuns.history 2));
   Completed 0 (HWrite true); Completed 1 (HRead (ReadRequest HttpRuns.bad_history 3))].

#[local] Notation after_busy := (http_net_run HttpRuns.secret busy (http_net_initial [])).

Example the_history_grows :
  (fun n => (fun s => response_body <$> responses s) <$> http_sessions n) <$> after_busy =
    Some [["[]"; jq ("[{'id':'" +:+ uuid_text_b +:+ "','text':'hi'}]")]; []].
Proof. by vm_compute. Qed.

Definition ends_with_exception (o : option (http_net (list Message))) : bool :=
  match o with Some n => bool_decide (is_Some (http_ended n)) | None => false end.

Lemma ends_with_exception_spec o :
  ends_with_exception o = true -> exists n e, o = Some n /\ http_ended n = Some e.
Proof. destruct o as [n|]; [|done]. cbn. intros [e He]%bool_decide_eq_true_1. by exists n, e. Qed.

Lemma http_network_serves_witness :
  exists n e, after_busy = Some n /\ http_ended n = Some e /\
    exists k s req, http_sessions n !! k = Some s /\ last (requests s) = Some req /\
      stored (shared_repository n) = stored [HttpRuns.m1].
Proof.
  destruct (ends_with_exception_spec after_busy) as (n & e & Hr & He); [by vm_compute|].
  destruct (http_network_serves HttpRuns.secret [] busy n Hr) as (_ & (r & Hl & Hst) & Hend).
  destruct (Hend e He) as (k & s & req & _ & Hk & Hq & _).
  exists n, e. split; [done|]. split; [done|].
  exists k, s, req. split; [done|]. split; [done|].
  cbn in Hl. injection Hl as <-. exact Hst.
Defined.
End HttpNetRun.
