(* ===== verification/EndToEnd.v ===== *)
(** * From the websocket to the HTTP history

    The whole way of a message: read from a websocket, dispatched, handed from
    actor to actor, stored through the repository port, and shown by
    [GET /chat/<id>/messages]. Everything here follows from what the parts
    promise: the order of a connection's events ([GatewayOrder]), the
    conservation of messages ([RuntimeFlow]), the repository port ([Domain])
    and the route ([HttpRouter]). *)
From S2P Require Import Prelude CppString Json Domain Reference Jwt Mailbox Actor Handlers Runtime RuntimeInv RuntimeFlow RuntimeRuns WsSession Gateway GatewayOrder GatewayRuns HttpRouter.

Section end_to_end.
Context `{JsonLaws, UuidLaws, Sha1Lib, LockfreeQueueLaws, ActorOrder} {R : Type}
  `{!MessageRepository R, !MessageRepositorySpec}.
Implicit Types (g : gateway R).

#[export] Instance mkey_eq_dec : EqDecision mkey.
Proof. unfold mkey. solve_decision. Defined.

(** The messages of one chat. *)
Definition for_chat (chat : uuid) (keys : list mkey) : list mkey :=
  filter (fun key => key.1.1 = Ok chat) keys.

Lemma for_chat_rows chat rows :
  for_chat chat (key_of_row <$> rows) = key_of_row <$> filter (fun row => row_chat row = chat) rows.
Proof.
  unfold for_chat. rewrite list_filter_fmap. f_equal. apply list_filter_iff.
  intros [[[i c] s] t]. unfold row_chat. cbn. split; [by intros [= <-]|by intros ->].
Qed.

#[export] Instance for_chat_proper chat : Proper ((≡ₚ) ==> (≡ₚ)) (for_chat chat).
Proof. intros l l' Hl. unfold for_chat. by rewrite Hl. Qed.

Lemma for_chat_submseteq chat l l' : l ⊆+ l' -> for_chat chat l ⊆+ for_chat chat l'.
Proof.
  intros [k ->]%submseteq_Permutation. unfold for_chat at 2. rewrite filter_app.
  by apply submseteq_inserts_r.
Qed.

(** A history is of messages of its chat, each once. *)
Lemma history_keys chat n (r r' : R) ms :
  (0 <= n)%Z -> getByChat chat n r = (Ok ms, r') ->
  key_of_message <$> ms ⊆+ for_chat chat (key_of_row <$> stored r) /\
  Z.of_nat (length ms) = Z.min n (Z.of_nat (length (for_chat chat (key_of_row <$> stored r)))).
Proof.
  intros Hn Hget. destruct (getByChat_rows _ _ _ _ _ Hn Hget) as [Hsub Hlen].
  rewrite for_chat_rows, length_fmap. split; [|done].
  assert (key_of_message <$> ms = key_of_row <$> (message_row <$> ms)) as ->
    by (by rewrite <- list_fmap_compose).
  by apply fmap_submseteq.
Qed.

(** A history that is not cut off has all the messages of its chat. *)
Lemma full_history chat n (r r' : R) ms :
  (0 <= n)%Z -> getByChat chat n r = (Ok ms, r') ->
  (Z.of_nat (length (for_chat chat (key_of_row <$> stored r))) <= n)%Z ->
  key_of_message <$> ms ≡ₚ for_chat chat (key_of_row <$> stored r).
Proof.
  intros Hn Hget Hle. destruct (history_keys _ _ _ _ _ Hn Hget) as [Hsub Hlen].
  apply submseteq_length_Permutation; [done|]. rewrite length_fmap. lia.
Qed.

(** What the route answers to a request for a history. *)
Lemma history_answer secret req now chat (r r' : R) resp :
  method req = get -> target req = "/chat/" +:+ (uuid_to_string chat +:+ "/messages") ->
  (str_size (uuid_to_string chat) + 15 < two64)%Z ->
  route secret req now r = (Ok resp, r') ->
  exists ms r1, getByChat chat 50 r = (Ok ms, r1) /\ status resp = 200%Z /\
    json_dump (foldl (fun out m => json_push_back out (message_json m)) json_empty_array ms) =
      Ok (response_body resp).
Proof.
  intros Hm Ht Hsize Hroute. rewrite (route_history secret req now _ Hm Ht Hsize) in Hroute.
  rewrite bind_lift_ok, string_generator_to_string, bind_lift_ok in Hroute.
  minv Hroute. rewrite respond_run in Hroute.
  destruct (json_dump _) as [text|] eqn:Hd; [|done]. simplify_eq. by exists v, r'.
Qed.

(** A gateway at rest: no handler of a session is running, no envelope waits,
    no worker is in a handler. *)
Definition quiet g : Prop :=
  (forall k c, connections g !! k = Some c -> strand_free c (rt g) = true) /\ settled (rt g).

(** Without a loss, a quiet system has stored what its clients asked for. *)
Lemma quiet_stored gs capacity (r : R) g :
  (0 <= capacity)%Z -> gateway_run gs (gateway_initial capacity r) = Some g ->
  (Z.of_nat (length (connections g)) < two64)%Z ->
  quiet g -> lost_keys (sh (rt g)) = [] ->
  key_of_row <$> stored (repository (sh (rt g))) ≡ₚ
    (key_of_row <$> stored r) ++ (key_of_event <$> all_requests (connections g)).
Proof.
  intros Hcap Hg Hlen [Hfree Hset] Hlost.
  destruct (gateway_run_inv _ _ _ _ Hg) as [ls [Hr _ _ _ _]].
  destruct (run_flow_inv _ _ _ _ _ (flow_inv_initial capacity r Hcap) Hr) as (_ & _ & Hcons).
  pose proof (conserved_settled _ _ Hcons Hset) as Hperm.
  rewrite Hlost, app_nil_r in Hperm. unfold stored_keys in Hperm. rewrite Hperm.
  apply Permutation_app_head, fmap_Permutation.
  apply accepted_all; [by eapply gateway_run_ordered|done..].
Qed.

(** The route lists a chat of at most 50 messages in full. *)
Lemma chat_listed secret req now chat (r r' : R) resp keys :
  key_of_row <$> stored r ≡ₚ keys -> length (for_chat chat keys) <= 50 ->
  method req = get -> target req = "/chat/" +:+ (uuid_to_string chat +:+ "/messages") ->
  (str_size (uuid_to_string chat) + 15 < two64)%Z ->
  route secret req now r = (Ok resp, r') ->
  exists ms, key_of_message <$> ms ≡ₚ for_chat chat keys /\ status resp = 200%Z /\
    json_dump (foldl (fun out m => json_push_back out (message_json m)) json_empty_array ms) =
      Ok (response_body resp).
Proof.
  intros Hstored%(for_chat_proper chat) Hle Hm Ht Hsize Hroute.
  destruct (history_answer _ _ _ _ _ _ _ Hm Ht Hsize Hroute) as (ms & r1 & Hget & Hstatus & Hd).
  exists ms. split; [|done]. rewrite <- Hstored.
  eapply full_history; [|exact Hget|]; [lia|]. rewrite Hstored. lia.
Qed.

(** C10: what was written to a chat can be read from it. Take any run of
    the gateway, with any number of workers and clients, that has come to
    rest without a refused envelope or row. If the chat then holds no more
    than 50 messages, the answer to [GET /chat/<id>/messages] has status 200
    and lists, each once, exactly the messages that were stored for this chat
    before the run and those that the clients' texts asked to send to it. *)
Theorem history_shows_what_was_sent gs capacity (r r' : R) g secret req now chat resp :
  (0 <= capacity)%Z -> gateway_run gs (gateway_initial capacity r) = Some g ->
  (Z.of_nat (length (connections g)) < two64)%Z ->
  quiet g -> lost_keys (sh (rt g)) = [] ->
  let wanted := for_chat chat
    ((key_of_row <$> stored r) ++ (key_of_event <$> all_requests (connections g))) in
  length wanted <= 50 ->
  method req = get -> target req = "/chat/" +:+ (uuid_to_string chat +:+ "/messages") ->
  (str_size (uuid_to_string chat) + 15 < two64)%Z ->
  route secret req now (repository (sh (rt g))) = (Ok resp, r') ->
  exists ms, key_of_message <$> ms ≡ₚ wanted /\ status resp = 200%Z /\
    json_dump (foldl (fun out m => json_push_back out (message_json m)) json_empty_array ms) =
      Ok (response_body resp).
Proof.
  intros Hcap Hg Hlen Hq Hlost wanted Hle Hm Ht Hsize Hroute.
  eapply chat_listed; [by eapply quiet_stored|done..].
Qed.
End end_to_end.

(** ** A concrete run: the conversation, and the history of its chat *)

Module History.
#[local] Existing Instances ref_json ref_json_laws ref_uuid ref_uuid_laws.
#[local] Existing Instances list_queue list_queue_laws.
#[local] Existing Instances Concrete.key_order Concrete.key_order_laws.
#[local] Existing Instance TokenRun.text_sha1.

Definition read_history : request :=
  mkRequest get ("/chat/" +:+ (uuid_to_string uuid_a +:+ "/messages")) EmptyString EmptyString.

Lemma conversation_quiet : quiet Conversation.talked.
Proof.
  split.
  - intros k c Hk. pose proof (lookup_lt_Some _ _ _ Hk) as Hlt.
    rewrite Conversation.two_connections in Hlt. rewrite Conversation.connected in Hk by done.
    rewrite <- (Some_inj _ _ Hk). clear c Hk.
    destruct k as [|[|k]]; [by vm_compute|by vm_compute|lia].
  - apply Concrete.settled_by; [by vm_compute|]. intros []; by vm_compute.
Qed.

Definition listed : string := jq ("[{'id':'" +:+ uuid_text_a +:+ "','text':'hi'}]").

Definition answered : result response * list Message :=
  route "k" read_history 0 (repository (sh (rt Conversation.talked))).

Lemma talked_answer : answered.1 = Ok (mkResponse 200 "application/json" listed).
Proof. vm_compute. reflexivity. Qed.

Lemma history_shows_what_was_sent_witness :
  exists ms, key_of_message <$> ms ≡ₚ [(Ok uuid_a, Ok uuid_b, "hi")] /\
    json_dump (foldl (fun out m => json_push_back out (message_json m)) json_empty_array ms) =
      Ok listed.
Proof.
  destruct (history_shows_what_was_sent Conversation.conversation 8 []
    answered.2 Conversation.talked "k" read_history 0 uuid_a
    (mkResponse 200 "application/json" listed)) as (ms & Hms & _ & Hdump).
  - lia.
  - exact Conversation.talked_run.
  - by rewrite Conversation.two_connections.
  - exact conversation_quiet.
  - by vm_compute.
  - apply Nat.leb_le. by vm_compute.
  - reflexivity.
  - reflexivity.
  - by vm_compute.
  - exact (injective_projections answered (_, _) talked_answer eq_refl).
  - match type of Hms with _ ≡ₚ ?wanted =>
      assert (wanted = [(Ok uuid_a, Ok uuid_b, "hi")]) as Hw
        by (apply (bool_decide_eq_true_1 _); by vm_compute)
    end.
    rewrite Hw in Hms. exists ms. exact (conj Hms Hdump).
Defined.
End History.
