(* ===== verification/Config.v ===== *)
(** * Configuration

    [src/core/config]: what a configuration file becomes, with the defaults of
    the members that may be absent, over the interface of yaml-cpp. *)
From S2P Require Import Prelude CppString.

(** ** app_config.cpp *)

(** yaml-cpp: [LoadFile], [operator[]] on a constant node, which throws on an
    undefined one, and the conversions of [as], which have no value for an
    undefined node or another type. *)
Class YamlLib : Type := {
  ynode : Type;
  LoadFile : string -> result ynode;
  y_index : ynode -> string -> result ynode;
  y_as_string : ynode -> option string;
  y_as_uint : Z -> ynode -> option Z
}.
(** The conversion to a [w]-bit unsigned integer stays in its range. *)
Class YamlLaws `{YamlLib} : Prop := {
  y_as_uint_range w n v : y_as_uint w n = Some v -> (0 <= v < 2 ^ w)%Z
}.

Record ServerConfig : Type := mkServerConfig {
  host : string;
  wsPort : Z;
  httpPort : Z;
  networkThreads : Z;
  actorThreads : Z;
  storageThreads : Z;
  mailboxCapacity : Z
}.
Record DatabaseConfig : Type := mkDatabaseConfig {
  db_host : string;
  db_port : Z;
  db_user : string;
  db_password : string;
  db_name : string;
  poolSize : Z
}.
Record SecurityConfig : Type := mkSecurityConfig { jwtSecret : string; jwtTtlSeconds : Z }.
Record AppConfig : Type := mkAppConfig {
  server : ServerConfig;
  database : DatabaseConfig;
  security : SecurityConfig;
  logging_level : string
}.

Definition default_server : ServerConfig := mkServerConfig "0.0.0.0" 8080 8081 4 8 4 65536.
Definition default_pool_size : Z := 16.
Definition default_security : SecurityConfig := mkSecurityConfig "change-me" 3600.
Definition default_level : string := "info".

Section config.
Context `{YamlLib}.

(** [root[section][key]], [as<T>(fallback)] and [as<T>()]. *)
Definition field (root : ynode) (section key : string) : result ynode :=
  s ← y_index root section; y_index s key.
Definition as_or {T} (conv : ynode -> option T) (fallback : T) (n : ynode) : T :=
  default fallback (conv n).
Definition as_exn {T} (conv : ynode -> option T) (n : ynode) : result T :=
  match conv n with Some v => Ok v | None => Throw (foreign "YAML bad conversion") end.

Definition server_of (root : ynode) : result ServerConfig :=
  h ← field root "server" "host";
  ws ← field root "server" "ws_port";
  http ← field root "server" "http_port";
  net ← field root "server" "network_threads";
  act ← field root "server" "actor_threads";
  sto ← field root "server" "storage_threads";
  cap ← field root "server" "mailbox_capacity";
  Ok (mkServerConfig
    (as_or y_as_string (host default_server) h)
    (as_or (y_as_uint 16) (wsPort default_server) ws)
    (as_or (y_as_uint 16) (httpPort default_server) http)
    (as_or (y_as_uint 64) (networkThreads default_server) net)
    (as_or (y_as_uint 64) (actorThreads default_server) act)
    (as_or (y_as_uint 64) (storageThreads default_server) sto)
    (as_or (y_as_uint 64) (mailboxCapacity default_server) cap)).

Definition database_of (root : ynode) : result DatabaseConfig :=
  h ← (n ← field root "database" "host"; as_exn y_as_string n);
  p ← (n ← field root "database" "port"; as_exn (y_as_uint 16) n);
  u ← (n ← field root "database" "user"; as_exn y_as_string n);
  pw ← (n ← field root "database" "password"; as_exn y_as_string n);
  d ← (n ← field root "database" "db"; as_exn y_as_string n);
  s ← field root "database" "pool_size";
  Ok (mkDatabaseConfig h p u pw d (as_or (y_as_uint 16) default_pool_size s)).

Definition security_of (root : ynode) : result SecurityConfig :=
  s ← field root "security" "jwt_secret";
  t ← field root "security" "jwt_ttl_seconds";
  Ok (mkSecurityConfig (as_or y_as_string (jwtSecret default_security) s)
        (as_or (y_as_uint 64) (jwtTtlSeconds default_security) t)).

Definition fromFile (path : string) : result AppConfig :=
  root ← LoadFile path;
  srv ← server_of root;
  dbc ← database_of root;
  sec ← security_of root;
  lvl ← field root "logging" "level";
  Ok (mkAppConfig srv dbc sec (as_or y_as_string default_level lvl)).

(** The connection string of [main]. *)
Definition connection_string (config : AppConfig) : string :=
  "host=" +:+ (db_host (database config) +:+
  (" port=" +:+ (to_string_u (Z.to_N (db_port (database config))) +:+
  (" user=" +:+ (db_user (database config) +:+
  (" password=" +:+ (db_password (database config) +:+
  (" dbname=" +:+ db_name (database config))))))))).
End config.

Section config_facts.
Context `{YamlLaws}.

Lemma as_or_range w d n : (0 <= d < 2 ^ w)%Z -> (0 <= as_or (y_as_uint w) d n < 2 ^ w)%Z.
Proof.
  intros Hd. unfold as_or. destruct (y_as_uint w n) eqn:Hv; cbn; [|done].
  by apply y_as_uint_range in Hv.
Qed.

Lemma as_exn_range w n v : as_exn (y_as_uint w) n = Ok v -> (0 <= v < 2 ^ w)%Z.
Proof.
  unfold as_exn. destruct (y_as_uint w n) eqn:Hv; [|done]. intros [= <-].
  by apply y_as_uint_range in Hv.
Qed.

(** A configuration that loads is in range: ports fit 16 bits, counts
    and capacities 64, and the five database fields without a default were
    present in the file; the pool size and the thread counts can be zero. *)
Theorem config_in_range path cfg :
  fromFile path = Ok cfg ->
  (0 <= wsPort (server cfg) < 2 ^ 16)%Z /\ (0 <= httpPort (server cfg) < 2 ^ 16)%Z /\
  (0 <= networkThreads (server cfg) < 2 ^ 64)%Z /\ (0 <= actorThreads (server cfg) < 2 ^ 64)%Z /\
  (0 <= mailboxCapacity (server cfg) < 2 ^ 64)%Z /\
  (0 <= poolSize (database cfg) < 2 ^ 16)%Z /\ (0 <= db_port (database cfg) < 2 ^ 16)%Z /\
  exists root, LoadFile path = Ok root /\
    (n ← field root "database" "host"; as_exn y_as_string n) = Ok (db_host (database cfg)) /\
    (n ← field root "database" "user"; as_exn y_as_string n) = Ok (db_user (database cfg)) /\
    (n ← field root "database" "password"; as_exn y_as_string n) =
      Ok (db_password (database cfg)) /\
    (n ← field root "database" "db"; as_exn y_as_string n) = Ok (db_name (database cfg)).
Proof.
  unfold fromFile. intros Hc.
  apply result_bind_inv in Hc as (root & Hroot & Hc).
  apply result_bind_inv in Hc as (srv & Hsrv & Hc).
  apply result_bind_inv in Hc as (dbc & Hdb & Hc).
  apply result_bind_inv in Hc as (sec & _ & Hc).
  apply result_bind_inv in Hc as (lvl & _ & [= <-]). cbn [server database].
  unfold server_of in Hsrv.
  repeat (apply result_bind_inv in Hsrv as (? & _ & Hsrv)). injection Hsrv as <-. cbn.
  unfold database_of in Hdb.
  apply result_bind_inv in Hdb as (dh & Hh & Hdb).
  apply result_bind_inv in Hdb as (dp & Hp & Hdb).
  apply result_bind_inv in Hdb as (du & Hu & Hdb).
  apply result_bind_inv in Hdb as (dpw & Hpw & Hdb).
  apply result_bind_inv in Hdb as (dn & Hn & Hdb).
  apply result_bind_inv in Hdb as (dsz & Hs & [= <-]). cbn.
  split; [by apply (as_or_range 16)|]. split; [by apply (as_or_range 16)|].
  split; [by apply (as_or_range 64)|]. split; [by apply (as_or_range 64)|].
  split; [by apply (as_or_range 64)|]. split; [by apply (as_or_range 16)|].
  split; [by apply result_bind_inv in Hp as (n & _ & Hp%as_exn_range)|].
  by exists root.
Qed.
End config_facts.
