(* ===== verification/Server.v ===== *)
(** * The server

    [src/core/threading] and [src/infrastructure/network/server]: the thread
    pool of the network, and the server around the websocket side of
    [Gateway], the HTTP sessions of [HttpNet] and the actor system of
    [Runtime]. A handler of the network runs on a thread of the pool: it starts
    when one is free, and [stop] waits for those that are running.

    The state of the server is the product of those of its parts; every step
    is a step of one of them, so that what is proved of the parts holds of the
    server ([server_refines_parts]). *)
From S2P Require Import Prelude CppString Json Domain Jwt Mailbox Actor Handlers Runtime RuntimeInv WsSession Gateway HttpRouter HttpNet Config.

(** ** thread_pool.cpp *)

(** A pool and the [io_context] it runs: for each thread whether [run()] was
    entered to serve, whether the guard that keeps [run()] from returning is
    held, and whether the context is stopped. A stopped context makes [run()]
    return, at once or after the handler it is in, until it is restarted,
    which no code here does. *)
Record ThreadPool : Type := mkThreadPool {
  tp_workers : list bool;
  workGuard_ : bool;
  io_stopped : bool
}.

Definition ThreadPool_new : ThreadPool := mkThreadPool [] true false.
Definition ThreadPool_start (threads : nat) (p : ThreadPool) : ThreadPool :=
  mkThreadPool (tp_workers p ++ replicate threads (negb (io_stopped p))) (workGuard_ p)
    (io_stopped p).
(** [stop] up to the joins, and what is left when they have returned. *)
Definition ThreadPool_halt (p : ThreadPool) : ThreadPool := mkThreadPool (tp_workers p) false true.
Definition ThreadPool_joined (p : ThreadPool) : ThreadPool :=
  mkThreadPool [] (workGuard_ p) (io_stopped p).

(** The threads that entered [run()] to serve. *)
Definition serving (p : ThreadPool) : nat := length (filter (fun b => b = true) (tp_workers p)).

(** ** server.cpp *)

Section server.
Context `{JsonLib, UuidLib, Sha1Lib, BeastLib, LockfreeQueue, ActorOrder} {R : Type}
  `{!MessageRepository R}.

(** Where a call of [stop] is: none in progress, waiting for the network
    threads, or for the actor threads. *)
Inductive stop_phase : Type := NotStopping | JoiningNetwork | JoiningActors.

(** [gate] is the websocket listener with its sessions, the dispatcher and the
    actor system; [srv_http] the HTTP sessions. [ws_accepts] and [http_accepts]
    count the accept operations that the two listeners keep pending. *)
Record Server : Type := mkServer {
  config_ : AppConfig;
  srv_running : bool;
  networkThreadPool_ : ThreadPool;
  gate : gateway R;
  srv_http : list (HttpSession (R:=R));
  ws_accepts : nat;
  http_accepts : nat;
  stopping : stop_phase;
  srv_log : list (level * string * list string)
}.

Definition actorSystem_ (s : Server) : world R := rt (gate s).

Definition with_world (w : world R) (g : gateway R) : gateway R :=
  mkGateway w (listener g) (connections g).
Definition with_gate (s : Server) (g : gateway R) : Server :=
  mkServer (config_ s) (srv_running s) (networkThreadPool_ s) g (srv_http s) (ws_accepts s)
    (http_accepts s) (stopping s) (srv_log s).

Definition Server_new (config : AppConfig) (r : R) : Server :=
  mkServer config false ThreadPool_new (gateway_initial (mailboxCapacity (server config)) r) []
    0 0 NotStopping [].

Definition started_args (cfg : ServerConfig) : list string :=
  (fun n => to_string_u (Z.to_N n)) <$>
    [wsPort cfg; httpPort cfg; networkThreads cfg; actorThreads cfg].

(** [run] of a listener: one more accept operation is pending, and each that
    completes starts the next. *)
Definition WebSocketListener_run (s : Server) : Server :=
  mkServer (config_ s) (srv_running s) (networkThreadPool_ s) (gate s) (srv_http s)
    (S (ws_accepts s)) (http_accepts s) (stopping s) (srv_log s).
Definition HttpListener_run (s : Server) : Server :=
  mkServer (config_ s) (srv_running s) (networkThreadPool_ s) (gate s) (srv_http s)
    (ws_accepts s) (S (http_accepts s)) (stopping s) (srv_log s).

Definition Server_run (s : Server) : Server :=
  if srv_running s then s
  else
    let cfg := server (config_ s) in
    let listening := HttpListener_run (WebSocketListener_run s) in
    mkServer (config_ s) true
      (ThreadPool_start (Z.to_nat (networkThreads cfg)) (networkThreadPool_ s))
      (with_world (start_step (Z.to_nat (actorThreads cfg)) (actorSystem_ s)) (gate s))
      (srv_http s) (ws_accepts listening) (http_accepts listening) (stopping s)
      (srv_log s ++
       [(info, "server started ws={} http={} net_threads={} actor_threads={}", started_args cfg)]).

(** A handler that is not over. *)
Definition unfinished (p : prog unit) : bool := match p with Ret _ => false | _ => true end.
Definition busy_threads (w : world R) : nat := length (filter (fun p => unfinished p = true) (net w)).

(** [stop] up to the joins of the network threads; from these joins to those
    of the actor threads; and its end. *)
Definition Server_stop (s : Server) : Server :=
  if negb (srv_running s) then s
  else mkServer (config_ s) false (ThreadPool_halt (networkThreadPool_ s)) (gate s) (srv_http s)
         (ws_accepts s) (http_accepts s) JoiningNetwork (srv_log s).
Definition Server_network_joined (s : Server) : option Server :=
  match stopping s with
  | JoiningNetwork =>
      if Nat.eqb (busy_threads (actorSystem_ s)) 0
      then Some (mkServer (config_ s) (srv_running s) (ThreadPool_joined (networkThreadPool_ s))
                   (with_world (stop_request (actorSystem_ s)) (gate s)) (srv_http s)
                   (ws_accepts s) (http_accepts s) JoiningActors (srv_log s))
      else None
  | _ => None
  end.
Definition Server_joined (s : Server) : option Server :=
  match stopping s with
  | JoiningActors =>
      w ← stop_join (actorSystem_ s);
      Some (mkServer (config_ s) (srv_running s) (networkThreadPool_ s) (with_world w (gate s))
              (srv_http s) (ws_accepts s) (http_accepts s) NotStopping (srv_log s ++ [(info, "server stopped", [])]))
  | _ => None
  end.

(** A join that [stop] waits for returns. *)
Definition Server_join (s : Server) : option Server :=
  match stopping s with
  | NotStopping => None
  | JoiningNetwork => Server_network_joined s
  | JoiningActors => Server_joined s
  end.

(** ** Steps *)

(** A thread of the pool that can take a handler. *)
Definition free_thread (s : Server) : bool :=
  negb (io_stopped (networkThreadPool_ s)) &&
  Nat.ltb (busy_threads (actorSystem_ s)) (serving (networkThreadPool_ s)).

(** Whether a step of the websocket side and of the actors can be taken now:
    handlers start on a free thread, and go on where they are. *)
Definition gate_allowed (l : gateway_label) (s : Server) : bool :=
  match l with
  | System (NetStep _ _) | System (WorkerStep _ _) | Destroy _ => true
  | System _ => false
  | Connect _ => free_thread s && Nat.ltb 0 (ws_accepts s)
  | Session _ _ => free_thread s
  end.
Definition http_allowed (l : http_label R) (s : Server) : bool :=
  match l with
  | Accepted _ => free_thread s && Nat.ltb 0 (http_accepts s)
  | Completed _ _ => free_thread s
  | Stored _ => false
  end.

(** The HTTP side refers to the repository of the storage actor, and an
    exception of the router leaves the thread. *)
Definition http_part (s : Server) : http_net R :=
  mkHttpNet (repository (sh (actorSystem_ s))) (srv_http s) None.
Definition absorb (n : http_net R) (w : world R) : world R :=
  mkWorld (set_repository (sh w) (shared_repository n)) (running_ w) (workers_ w) (net w)
    (accepted w) (http_ended n).

Inductive server_op : Type :=
| OpRun | OpStop | OpJoin
| OpGate (l : gateway_label)
| OpHttp (l : http_label R).

Definition secret_of (s : Server) : string := jwtSecret (security (config_ s)).

(** [main] makes one call at a time. *)
Definition idle_main (s : Server) : bool :=
  match stopping s with NotStopping => true | _ => false end.

Definition server_step (o : server_op) (s : Server) : option Server :=
  match terminated (actorSystem_ s) with
  | Some _ => None
  | None =>
      match o with
      | OpRun => if idle_main s then Some (Server_run s) else None
      | OpStop => if idle_main s then Some (Server_stop s) else None
      | OpJoin => Server_join s
      | OpGate l =>
          if gate_allowed l s then g ← gateway_step l (gate s); Some (with_gate s g) else None
      | OpHttp l =>
          if http_allowed l s then
            n ← http_net_step (secret_of s) l (http_part s);
            Some (mkServer (config_ s) (srv_running s) (networkThreadPool_ s)
                    (with_world (absorb n (actorSystem_ s)) (gate s)) (http_sessions n)
                    (ws_accepts s) (http_accepts s) (stopping s) (srv_log s))
          else None
      end
  end.

Fixpoint server_steps (os : list server_op) (s : Server) : option Server :=
  match os with
  | [] => Some s
  | o :: os' => s' ← server_step o s; server_steps os' s'
  end.
End server.
Arguments Server {_ _ _} R.
Arguments server_op {_} R.

(** ** What the router does to the repository *)

Section queries.
Context `{UuidLib} {R : Type} `{!MessageRepository R}.

(** A repository after some histories were read from it. *)
Definition after_queries (qs : list (uuid * Z)) (r : R) : R :=
  foldl (fun r q => (getByChat q.1 q.2 r).2) r qs.

Definition only_queries {A} (m : M R A) : Prop :=
  forall r o r', m r = (o, r') -> exists qs, r' = after_queries qs r.

Lemma queries_ret {A} (a : A) : only_queries (mret a).
Proof. intros r o r' [= _ <-]. by exists []. Qed.
Lemma queries_lift {A} (x : result A) : only_queries (mlift x).
Proof. intros r o r' [= _ <-]. by exists []. Qed.
Lemma queries_bind {A B} (m : M R A) (f : A -> M R B) :
  only_queries m -> (forall a, only_queries (f a)) -> only_queries (m ≫= f).
Proof.
  intros Hm Hf r o r' [(a & t & Ht & Hr)|(e & He & _)]%M_bind_inv; [|by eapply Hm].
  destruct (Hm _ _ _ Ht) as [qs ->], (Hf a _ _ _ Hr) as [qs' ->].
  exists (qs ++ qs'). unfold after_queries. by rewrite foldl_app.
Qed.
Lemma queries_getByChat c n : only_queries (getByChat c n).
Proof. intros r o r' Hr. exists [(c, n)]. unfold after_queries. cbn. by rewrite Hr. Qed.
End queries.

#[export] Hint Resolve queries_ret queries_lift queries_bind queries_getByChat : svitock.

Section http_effects.
Context `{JsonLib, UuidLib, Sha1Lib, BeastLib} {R : Type} `{!MessageRepository R}.

Lemma route_queries secret req now : only_queries (R:=R) (route secret req now).
Proof.
  unfold route, respond.
  repeat case_match; repeat (apply queries_bind; [|intros ?]; try case_match);
    auto with svitock.
Qed.

(** A step of the HTTP side, other than [Stored], reads histories at most. *)
Lemma http_step_queries secret l (n n' : http_net R) :
  match l with Stored _ => False | _ => True end ->
  http_net_step secret l n = Some n' ->
  exists qs, shared_repository n' = after_queries qs (shared_repository n).
Proof.
  intros Hl Hs. unfold http_net_step in Hs. destruct (http_ended n); [done|].
  destruct l as [ok|k e|r]; [| |done].
  - simplify_eq. exists []. by destruct ok.
  - destruct (http_sessions n !! k) as [s|]; [|done]. cbn in Hs.
    destruct (http_step secret e _) as [s'|] eqn:He; [|done]. cbn in Hs. simplify_eq. cbn.
    unfold http_step in He. destruct e as [res|ok], (phase _); simplify_eq.
    + unfold http_onRead. destruct res as [req now| |]; try (by exists []).
      destruct (route _ _ _ _) as [o r'] eqn:Hr.
      destruct (route_queries _ _ _ _ _ _ Hr) as [qs ->]. exists qs. by destruct o.
    + exists []. unfold http_onWrite. destruct ok, close; done.
Qed.
End http_effects.

Section refinement.
Context `{JsonLib, UuidLib, Sha1Lib, BeastLib, LockfreeQueueLaws, ActorOrder} {R : Type}
  `{!MessageRepository R}.
Implicit Types (s : Server R) (g : gateway R) (w : world R).

(** ** The steps of the server as steps of its parts *)

Lemma with_world_same g : with_world (rt g) g = g.
Proof. by destruct g. Qed.

Lemma deliver_nothing (cs : list connection) : deliver [] cs = cs.
Proof.
  apply list_eq. intros k. unfold deliver. rewrite list_lookup_imap.
  destruct (cs !! k) as [[]|]; done.
Qed.

(** A step of the actor system that posts nothing. *)
Lemma silent_step l g w :
  internal l = true -> step l (rt g) = Some w -> outbox (sh w) = outbox (sh (rt g)) ->
  gateway_run [System l] g = Some (with_world w g).
Proof.
  intros Hl Hs Ho. cbn. rewrite Hl, Hs. cbn. by rewrite Ho, drop_all, deliver_nothing.
Qed.

Lemma gateway_run_app gs gs' g g' :
  gateway_run gs g = Some g' -> gateway_run (gs ++ gs') g = gateway_run gs' g'.
Proof.
  revert g. induction gs as [|l gs IH]; intros g Hr; cbn in *; [by simplify_eq|].
  destruct (gateway_step l g) as [g1|]; [|done]. cbn in *. by apply IH.
Qed.

Lemma http_net_run_app secret hs hs' (n n' : http_net R) :
  http_net_run secret hs n = Some n' ->
  http_net_run secret (hs ++ hs') n = http_net_run secret hs' n'.
Proof.
  revert n. induction hs as [|l hs IH]; intros n Hr; cbn in *; [by simplify_eq|].
  destruct (http_net_step secret l n) as [n1|]; [|done]. cbn in *. by apply IH.
Qed.

Lemma cons_app {A} (x : A) l : x :: l = [x] ++ l.
Proof. done. Qed.

Lemma queries_run qs g :
  terminated (rt g) = None ->
  gateway_run ((fun q => System (Query q.1 q.2)) <$> qs) g =
    Some (with_world (set_shared (rt g) (set_repository (sh (rt g))
      (after_queries qs (repository (sh (rt g)))))) g).
Proof.
  revert g. induction qs as [|q qs IH]; intros g Ht.
  - cbn. f_equal. by destruct g as [[[] ? ? ? ? ?] ? ?].
  - rewrite fmap_cons, cons_app. erewrite gateway_run_app.
    2: { apply silent_step; [done|unfold step; by rewrite Ht|done]. }
    rewrite IH by done. done.
Qed.

(** What the HTTP side does to the actor system. *)
Lemma absorb_run g (n : http_net R) qs :
  terminated (rt g) = None ->
  shared_repository n = after_queries qs (repository (sh (rt g))) ->
  exists gs, gateway_run gs g = Some (with_world (absorb n (rt g)) g).
Proof.
  intros Ht Hq. pose proof (queries_run qs g Ht) as Hrun. rewrite <- Hq in Hrun.
  destruct (http_ended n) as [e|] eqn:He.
  - eexists. erewrite gateway_run_app; [|exact Hrun].
    erewrite (silent_step (Crash e)); [|done|unfold step; cbn; by rewrite Ht|done].
    unfold absorb. by rewrite He.
  - eexists. rewrite Hrun. unfold absorb, set_shared. by rewrite He, Ht.
Qed.

Lemma http_allowed_own l s :
  http_allowed l s = true -> match l with Stored _ => False | _ => True end.
Proof. by destruct l. Qed.

Lemma server_join_cases s s' :
  Server_join s = Some s' ->
  (stopping s = JoiningNetwork /\ busy_threads (actorSystem_ s) = 0 /\
   s' = mkServer (config_ s) (srv_running s) (ThreadPool_joined (networkThreadPool_ s))
          (with_world (stop_request (actorSystem_ s)) (gate s)) (srv_http s)
          (ws_accepts s) (http_accepts s) JoiningActors (srv_log s)) \/
  (stopping s = JoiningActors /\ exists w, stop_join (actorSystem_ s) = Some w /\
   s' = mkServer (config_ s) (srv_running s) (networkThreadPool_ s) (with_world w (gate s))
          (srv_http s) (ws_accepts s) (http_accepts s) NotStopping
          (srv_log s ++ [(info, "server stopped", [])])).
Proof.
  unfold Server_join, Server_network_joined, Server_joined.
  destruct (stopping s) eqn:Hst; [done| |].
  - destruct (Nat.eqb_spec (busy_threads (actorSystem_ s)) 0); [|done]. intros [= <-]. auto.
  - destruct (stop_join (actorSystem_ s)) as [w|]; [|done]. intros [= <-]. right.
    split; [done|]. by exists w.
Qed.

Lemma stop_join_spec w w' :
  stop_join w = Some w' ->
  running_ w = false /\ forallb is_stopped (workers_ w) = true /\
  w' = mkWorld (sh w) (running_ w) [] (net w) (accepted w) (terminated w).
Proof.
  unfold stop_join. destruct (running_ w); [done|]. cbn.
  destruct (forallb is_stopped (workers_ w)); [|done]. by intros [= <-].
Qed.

Lemma server_step_gate o s s' :
  server_step o s = Some s' -> exists gs, gateway_run gs (gate s) = Some (gate s').
Proof.
  unfold server_step. destruct (terminated (actorSystem_ s)) eqn:Ht; [done|].
  unfold actorSystem_ in Ht. intros Hs. destruct o as [| | |l|l].
  - destruct (idle_main s); [|done]. simplify_eq. unfold Server_run.
    destruct (srv_running s); [by exists []|]. eexists. cbn [gate].
    apply (silent_step (Start (Z.to_nat (actorThreads (server (config_ s))))));
      [done|unfold step; by rewrite Ht|].
    unfold start_step. by destruct (running_ _).
  - destruct (idle_main s); [|done]. simplify_eq. exists []. unfold Server_stop.
    by destruct (srv_running s).
  - apply server_join_cases in Hs as [(_ & _ & ->)|(_ & w & Hw & ->)].
    + exists [System StopRequest]. cbn [gate].
      apply silent_step; [done|unfold step; by rewrite Ht|done].
    + exists [System StopJoin]. cbn [gate]. apply silent_step; [done|unfold step; by rewrite Ht|].
      by apply stop_join_spec in Hw as (_ & _ & ->).
  - destruct (gate_allowed l s); [|done].
    destruct (gateway_step l (gate s)) as [g|] eqn:Hg; [|done]. cbn in Hs. simplify_eq.
    exists [l]. cbn. by rewrite Hg.
  - destruct (http_allowed l s) eqn:Hl; [|done].
    destruct (http_net_step _ l _) as [n|] eqn:Hn; [|done]. cbn in Hs. simplify_eq. cbn [gate].
    destruct (http_step_queries _ _ _ _ (http_allowed_own _ _ Hl) Hn) as [qs Hqs].
    by eapply absorb_run.
Qed.

(** A step leaves the HTTP sessions alone, or is one of theirs. *)
Lemma server_step_sessions o s s' :
  server_step o s = Some s' ->
  config_ s' = config_ s /\
  (srv_http s' = srv_http s \/
   exists l n, match l with Stored _ => False | _ => True end /\
     http_net_step (secret_of s) l (http_part s) = Some n /\
     srv_http s' = http_sessions n /\ actorSystem_ s' = absorb n (actorSystem_ s)).
Proof.
  intros Hs. unfold server_step in Hs. destruct (terminated (actorSystem_ s)); [done|].
  destruct o as [| | |l|l].
  - destruct (idle_main s); [|done]. simplify_eq. unfold Server_run.
    destruct (srv_running s); by auto.
  - destruct (idle_main s); [|done]. simplify_eq. unfold Server_stop.
    destruct (srv_running s); by auto.
  - apply server_join_cases in Hs as [(_ & _ & ->)|(_ & w & _ & ->)]; by auto.
  - destruct (gate_allowed l s); [|done]. destruct (gateway_step l (gate s)); [|done].
    cbn in Hs. simplify_eq. by auto.
  - destruct (http_allowed l s) eqn:Hl; [|done].
    destruct (http_net_step _ l _) as [n|] eqn:Hn; [|done]. cbn in Hs. simplify_eq.
    split; [done|]. right. exists l, n. split; [by eapply http_allowed_own|done].
Qed.

(** [n] is what the server shows of its HTTP side. *)
Definition http_shows s (n : http_net R) : Prop :=
  http_sessions n = srv_http s /\
  shared_repository n = repository (sh (actorSystem_ s)) /\
  (terminated (actorSystem_ s) = None -> http_ended n = None).

Lemma server_step_http o s s' n :
  http_shows s n -> server_step o s = Some s' ->
  secret_of s' = secret_of s /\
  exists hs n', http_net_run (secret_of s) hs n = Some n' /\ http_shows s' n'.
Proof.
  intros (Hss & Hrep & Hend) Hs.
  assert (http_ended n = None) as Hgo.
  { apply Hend. unfold server_step in Hs. by destruct (terminated (actorSystem_ s)). }
  destruct (server_step_sessions _ _ _ Hs) as [Hc [Hh|(l & n' & Hl & Hn & Hh & Ha)]];
    (split; [unfold secret_of; by rewrite Hc|]).
  - exists [Stored (repository (sh (actorSystem_ s')))].
    unfold http_net_run, http_net_step. rewrite Hgo. cbn. eexists. split; [done|].
    split_and!; cbn; [congruence|done|done].
  - exists [l], n'. split; [|split_and!; [done|by rewrite Ha|by rewrite Ha]].
    replace n with (http_part s); [unfold http_net_run; by rewrite Hn|].
    unfold http_part. destruct n. cbn in *. congruence.
Qed.

Lemma server_steps_gate os s s' :
  server_steps os s = Some s' -> exists gs, gateway_run gs (gate s) = Some (gate s').
Proof.
  revert s. induction os as [|o os IH]; intros s Hr; cbn in Hr; [simplify_eq; by exists []|].
  destruct (server_step o s) as [s1|] eqn:Ho; [|done]. cbn in Hr.
  destruct (server_step_gate _ _ _ Ho) as [gs Hgs], (IH _ Hr) as [gs' Hgs'].
  exists (gs ++ gs'). by erewrite gateway_run_app.
Qed.

Lemma server_steps_http os s s' n :
  http_shows s n -> server_steps os s = Some s' ->
  exists hs n', http_net_run (secret_of s) hs n = Some n' /\ http_shows s' n'.
Proof.
  revert s n. induction os as [|o os IH]; intros s n Hn Hr; cbn in Hr; [simplify_eq; by exists [], n|].
  destruct (server_step o s) as [s1|] eqn:Ho; [|done]. cbn in Hr.
  destruct (server_step_http _ _ _ _ Hn Ho) as (Hsec & hs & n1 & Hhs & Hn1).
  destruct (IH _ _ Hn1 Hr) as (hs' & n2 & Hhs' & Hn2). exists (hs ++ hs'), n2.
  split; [|done]. erewrite http_net_run_app; [|done]. congruence.
Qed.

(** The server is its parts. In every run of a server, from its
    construction through calls of [run] and [stop] and the handlers of its
    threads, what happens to the websocket side is a run of the gateway, and
    what happens to the HTTP side is a run of the HTTP sessions, both on the
    one repository; so every theorem about either holds of the server. *)
Theorem server_refines_parts os config (r : R) s :
  server_steps os (Server_new config r) = Some s ->
  (exists gs, gateway_run gs (gateway_initial (mailboxCapacity (server config)) r) =
     Some (gate s)) /\
  (exists hs n, http_net_run (jwtSecret (security config)) hs (http_net_initial r) = Some n /\
     http_shows s n).
Proof.
  intros Hr. split; [exact (server_steps_gate _ _ _ Hr)|].
  by apply (server_steps_http os (Server_new config r)).
Qed.
End refinement.
