(* ===== verification/ServerHistory.v ===== *)
(** * What the HTTP interface of a server shows

    The server of [Server] as its users see it: a message goes in by websocket
    and comes out by HTTP, from another connection and while both sides are
    busy. What a history shows is traced back through the repository and the
    actors to the texts of the clients. *)
From S2P Require Import Prelude CppString Json Domain Jwt Mailbox Actor Handlers Runtime RuntimeInv RuntimeFlow WsSession Gateway GatewayOrder HttpRouter HttpNet EndToEnd Config Server.

Section server_history.
Context `{JsonLaws, UuidLaws, Sha1Laws, BeastLib, LockfreeQueueLaws, ActorOrder} {R : Type}
  `{!MessageRepository R, !MessageRepositorySpec}.
Context (config : AppConfig) (r : R) (Hcap : (0 <= mailboxCapacity (server config))%Z).
Implicit Types (s : Server R) (g : gateway R).

(** The messages there can be: those stored before the server was built, and
    those its clients have asked to send. *)
Definition possible g : list mkey :=
  (key_of_row <$> stored r) ++ (key_of_event <$> all_requests (connections g)).
Definition genuine g (r' : R) : Prop := key_of_row <$> stored r' ⊆+ possible g.

Lemma genuine_run gs g g' r' :
  gateway_run gs g = Some g' -> genuine g r' -> genuine g' r'.
Proof.
  intros Hr Hg. unfold genuine in *. etrans; [exact Hg|]. unfold possible. apply submseteq_app; [done|].
  apply fmap_submseteq, (gateway_run_requests gs g g' Hr).
Qed.

Lemma genuine_now gs g :
  gateway_run gs (gateway_initial (mailboxCapacity (server config)) r) = Some g ->
  (Z.of_nat (length (connections g)) < two64)%Z -> genuine g (repository (sh (rt g))).
Proof.
  intros Hr Hlen. pose proof (gateway_run_ordered _ _ _ _ Hr Hlen) as Ho.
  destruct (gateway_run_inv _ _ _ _ Hr) as [ls [Hrun _ _ _ _]].
  destruct (run_flow_inv _ _ _ _ _ (flow_inv_initial _ r Hcap) Hrun) as (_ & _ & _ & Bs & _ & Hperm).
  unfold genuine, possible. etrans; [|apply submseteq_app; [reflexivity|]].
  2: { apply fmap_submseteq, accepted_within; [exact Ho|exact Hlen]. }
  rewrite <- Hperm. unfold total, stored_keys. solve_submseteq.
Qed.

(** Every answer a session gives is one the router gives on messages that are
    genuine now. *)
Record served s : Prop := {
  sv_gate : exists gs,
    gateway_run gs (gateway_initial (mailboxCapacity (server config)) r) = Some (gate s);
  sv_config : config_ s = config;
  sv_http : (Z.of_nat (length (connections (gate s))) < two64)%Z ->
    exists rs, Forall (session_ok (jwtSecret (security config)) rs) (srv_http s) /\
      forall r', r' ∈ rs -> genuine (gate s) r'
}.

Lemma served_new : served (Server_new config r).
Proof.
  split; [by exists []|done|]. intros _. exists []. split; [constructor|]. by intros r' ?%elem_of_nil.
Qed.

(** The sessions after a step of the HTTP side. *)
Lemma http_sessions_ok rs l (n n' : http_net R) :
  match l with Stored _ => False | _ => True end -> shared_repository n ∈ rs ->
  Forall (session_ok (jwtSecret (security config)) rs) (http_sessions n) ->
  http_net_step (jwtSecret (security config)) l n = Some n' ->
  Forall (session_ok (jwtSecret (security config)) rs) (http_sessions n').
Proof.
  intros Hl Hin Hok Hs. unfold http_net_step in Hs. destruct (http_ended n); [done|].
  destruct l as [ok|k e|r']; [| |done].
  - simplify_eq. destruct ok; [|done]. cbn. apply Forall_app. split; [done|].
    constructor; [|constructor]. exists [], []. by split_and!.
  - destruct (http_sessions n !! k) as [h|] eqn:Hk; [|done]. cbn in Hs.
    destruct (http_step _ e _) as [h'|] eqn:He; [|done]. cbn in Hs. simplify_eq. cbn.
    apply Forall_insert; [done|].
    eapply (http_step_ok _ rs (shared_repository n)); [done| | |exact He]; [done|].
    eapply session_ok_with, Forall_lookup_1; eauto.
Qed.

Lemma served_step o s s' : served s -> server_step o s = Some s' -> served s'.
Proof.
  intros [[gs Hgs] Hcfg Hok] Hs. destruct (server_step_gate _ _ _ Hs) as [gs' Hgs'].
  assert (gateway_run (gs ++ gs') (gateway_initial (mailboxCapacity (server config)) r) =
    Some (gate s')) as Hrun by (by erewrite gateway_run_app).
  assert ((Z.of_nat (length (connections (gate s'))) < two64)%Z ->
    exists rs, Forall (session_ok (jwtSecret (security config)) rs) (srv_http s) /\
      repository (sh (actorSystem_ s)) ∈ rs /\ forall r', r' ∈ rs -> genuine (gate s') r') as Hrs.
  { intros Hlen. destruct (gateway_run_requests _ _ _ Hgs') as [_ Hle].
    destruct Hok as (rs & Hrs & Hgen); [lia|].
    exists (repository (sh (actorSystem_ s)) :: rs). split; [|split; [apply list_elem_of_here|]].
    - eapply Forall_impl; [exact Hrs|]. intros h. apply session_ok_mono.
      intros x Hx. by apply list_elem_of_further.
    - intros r' [->|Hr']%elem_of_cons; eapply genuine_run; [exact Hgs'| |exact Hgs'|by apply Hgen].
      eapply genuine_now; [exact Hgs|lia]. }
  destruct (server_step_sessions _ _ _ Hs) as [Hc [Hh|(l & n & Hl & Hn & Hh & _)]].
  - split; [by eexists|congruence|]. intros Hlen. destruct (Hrs Hlen) as (rs & ? & _ & ?).
    exists rs. by rewrite Hh.
  - split; [by eexists|congruence|]. intros Hlen. destruct (Hrs Hlen) as (rs & Hss & Hin & Hgen).
    exists rs. split; [|done]. rewrite Hh. unfold secret_of in Hn. rewrite Hcfg in Hn.
    by eapply (http_sessions_ok rs l (http_part s)).
Qed.

Lemma server_steps_served os s s' : served s -> server_steps os s = Some s' -> served s'.
Proof.
  revert s. induction os as [|o os IH]; intros s Hs Hr; cbn in Hr; [by simplify_eq|].
  destruct (server_step o s) as [s1|] eqn:Ho; [|done]. cbn in Hr.
  eapply IH; [by eapply served_step|done].
Qed.

Lemma session_answers rs (h : HttpSession (R:=R)) i req resp :
  session_ok (jwtSecret (security config)) rs h ->
  requests h !! i = Some req -> responses h !! i = Some resp ->
  answered_in (jwtSecret (security config)) rs req resp.
Proof.
  intros (an & pe & Hreq & Han & _) Hi Hj.
  destruct (Forall2_lookup_r _ _ _ _ _ Han Hj) as (req' & Hi' & Hans).
  rewrite Hreq in Hi. rewrite (lookup_app_l_Some _ _ _ _ Hi') in Hi. by simplify_eq.
Qed.
End server_history.

Section genuine_histories.
Context `{JsonLaws, UuidLaws, Sha1Laws, BeastLib, LockfreeQueueLaws, ActorOrder} {R : Type}
  `{!MessageRepository R, !MessageRepositorySpec}.

(** C4: a history shows nothing but what was sent. In every run of a server
    with fewer than 2^64 websocket connections, whatever the clients, the
    network threads and the workers do at the same time, each answer to
    [GET /chat/<id>/messages] has status 200 and lists at most 50 messages, all
    of that chat and each once, each of which was stored before the server was
    built or is what the text of a websocket client asked to send to that
    chat, with its sender and its text. *)
Theorem histories_are_genuine os config (r : R) s k h i req resp chat :
  (0 <= mailboxCapacity (server config))%Z ->
  server_steps os (Server_new config r) = Some s ->
  (Z.of_nat (length (connections (gate s))) < two64)%Z ->
  srv_http s !! k = Some h -> requests h !! i = Some req -> responses h !! i = Some resp ->
  method req = get -> target req = "/chat/" +:+ (uuid_to_string chat +:+ "/messages") ->
  (str_size (uuid_to_string chat) + 15 < two64)%Z ->
  exists ms, length ms <= 50 /\ status resp = 200%Z /\
    json_dump (foldl (fun out m => json_push_back out (message_json m)) json_empty_array ms) =
      Ok (response_body resp) /\
    key_of_message <$> ms ⊆+ for_chat chat
      ((key_of_row <$> stored r) ++ (key_of_event <$> all_requests (connections (gate s)))).
Proof.
  intros Hcap Hr Hlen Hk Hi Hj Hm Ht Hsize.
  destruct (server_steps_served config r Hcap os _ s (served_new config r) Hr) as [_ _ Hok].
  destruct (Hok Hlen) as (rs & Hss & Hgen).
  destruct (session_answers config rs h i req resp (Forall_lookup_1 _ _ _ _ Hss Hk) Hi Hj)
    as (r' & Hin & now & r1 & r2 & Hst & Hroute).
  destruct (history_answer _ _ _ _ _ _ _ Hm Ht Hsize Hroute) as (ms & r3 & Hget & Hstatus & Hd).
  apply history_keys in Hget as [Hsub Hn]; [|done]. exists ms. split_and!; [lia|done|done|].
  rewrite Hst in Hsub. etrans; [exact Hsub|]. apply for_chat_submseteq, Hgen, Hin.
Qed.
End genuine_histories.
