(* ===== verification/ServerThreads.v ===== *)
(** * The threads of the server

    What [run] and [stop] of [Server] leave of the threads in every order of
    calls and steps: how many there are and how many are busy, and that a
    server that was stopped neither hears nor answers any more. *)
From S2P Require Import Prelude CppString Json Domain Jwt Mailbox Actor Handlers Runtime RuntimeInv WsSession Gateway HttpRouter HttpNet Config Server.

Section frames.
Context `{JsonLib, UuidLib, LockfreeQueueLaws, ActorOrder} {R : Type} `{!MessageRepository R}.
Implicit Types (w : world R).

(** ** What the steps do to the threads *)

Lemma unfinished_insert (l : list (prog unit)) i p p' :
  l !! i = Some p -> unfinished p = true ->
  length (filter (fun p => unfinished p = true) (<[i := p']> l)) <=
  length (filter (fun p => unfinished p = true) l).
Proof.
  intros Hi Hp. pose proof (lookup_lt_Some _ _ _ Hi) as Hlt.
  assert (length (filter (fun p => unfinished p = true) l) =
    length (filter (fun p => unfinished p = true) (take i l ++ p :: drop (S i) l))) as ->
    by (by rewrite take_drop_middle).
  rewrite (insert_take_drop _ _ _ Hlt).
  rewrite !filter_app, !length_app, (filter_cons_True _ p) by done.
  rewrite filter_cons. case_decide; cbn; lia.
Qed.

(** One step of a thread, and the calls a session makes. *)
Definition is_thread_step (l : label) : bool :=
  match l with Start _ | StopRequest | StopJoin | Query _ _ | Crash _ => false | _ => true end.

Lemma step_threads l w w' :
  is_thread_step l = true -> step l w = Some w' ->
  running_ w' = running_ w /\ length (workers_ w') = length (workers_ w) /\
  busy_threads w' <= busy_threads w + match l with Dispatch _ _ => 1 | _ => 0 end.
Proof.
  intros Hl Hs. unfold step in Hs. destruct (terminated w); [done|].
  destruct l; simplify_eq/=; try (split_and!; [done|done|unfold busy_threads; cbn; lia]).
  - split_and!; [done..|]. unfold busy_threads. cbn. rewrite filter_app, length_app.
    rewrite filter_cons. case_decide; cbn; lia.
  - apply net_step_inv in Hs as [(e & _ & ->)|(p & s & p' & Hi & Hp & ->)];
      (split_and!; [done..|]); unfold busy_threads; cbn; [lia|].
    rewrite Nat.add_0_r. eapply unfinished_insert; [done|]. by destruct p.
  - unfold worker_step in Hs. destruct (workers_ w !! i) as [wk|]; [|done]. cbn in Hs.
    destruct wk as [|[|key rest] b|cls p rest| |]; try done.
    + destruct (running_ w) eqn:Hr; simplify_eq/=; rewrite length_insert;
        (split_and!; [done..|unfold busy_threads; cbn; lia]).
    + simplify_eq/=. rewrite length_insert. split_and!; [done..|unfold busy_threads; cbn; lia].
    + destruct (actors_pop _ _) as [[[[] ?] ?]|]; [..|done]; simplify_eq/=;
        rewrite length_insert; (split_and!; [done..|unfold busy_threads; cbn; lia]).
    + destruct p; try (match type of Hs with (?o ≫= _) = _ => destruct o as [[]|]; [|done] end);
        simplify_eq/=; rewrite ?length_insert;
        (split_and!; [done..|unfold busy_threads; cbn; lia]).
    + simplify_eq/=. rewrite length_insert. split_and!; [done..|unfold busy_threads; cbn; lia].
Qed.

(** Without a dispatch in progress nothing is handed to the actors. *)
Lemma quiet_accepted l w w' :
  match l with Dispatch _ _ => False | _ => True end ->
  busy_threads w = 0 -> step l w = Some w' -> accepted w' = accepted w.
Proof.
  intros Hl Hb Hs. unfold step in Hs. destruct (terminated w); [done|].
  destruct l; simplify_eq/=; try done.
  - apply net_step_inv in Hs as [(e & _ & ->)|(p & s & p' & Hi & Hp & ->)]; [done|].
    exfalso. apply list_elem_of_lookup_2 in Hi.
    assert (p ∈ filter (fun p => unfinished p = true) (net w)) as Hin.
    { apply list_elem_of_filter. split; [by destruct p|done]. }
    apply nil_length_inv in Hb. rewrite Hb in Hin.
    by apply elem_of_nil in Hin.
  - apply worker_step_move in Hs as
      [wk wk' w2 Hi Hrun Hret (_ & _ & _ & _ & Hq & _) Hws Hnet| | | | ]; done.
  - unfold start_step. by destruct (running_ w).
  - unfold stop_join in Hs. destruct (_ && _); by simplify_eq.
Qed.

(** The step of the actor system inside a step of the gateway. *)
Lemma gateway_step_world l (g g' : gateway R) :
  gateway_step l g = Some g' ->
  rt g' = rt g \/ exists l', step l' (rt g) = Some (rt g') /\
    match l with
    | System m => l' = m
    | Session _ _ => internal l' = false
    | Destroy k => l' = Expire (transport_of k)
    | Connect _ => False
    end.
Proof.
  intros Hs. destruct l as [m|ok|k e|k]; cbn in Hs.
  - destruct (internal m); [|done]. cbn in Hs. destruct (step m (rt g)) as [w|] eqn:Hw; [|done].
    cbn in Hs. simplify_eq. right. by exists m.
  - destruct (terminated (rt g)); [done|]. simplify_eq. by left.
  - destruct (connections g !! k) as [c|]; [|done]. cbn in Hs.
    destruct (own_event e && strand_free c (rt g)); [|done].
    destruct (ws_step e (session c)) as [s1|]; [|done]. cbn in Hs.
    destruct (session_call k e _) as [m|] eqn:Hm.
    + destruct (step m (rt g)) as [w|] eqn:Hw; [|done]. cbn in Hs. simplify_eq. right.
      exists m. split; [done|]. by eapply session_call_external.
    + destruct (terminated (rt g)); [done|]. cbn in Hs. simplify_eq. by left.
  - destruct (connections g !! k) as [c|]; [|done]. cbn in Hs.
    destruct (released c (rt g)); [|done].
    destruct (step _ (rt g)) as [w|] eqn:Hw; [|done]. cbn in Hs. simplify_eq. right. by eexists.
Qed.
End frames.

Section server_threads.
Context `{JsonLib, UuidLib, Sha1Lib, BeastLib, LockfreeQueueLaws, ActorOrder} {R : Type}
  `{!MessageRepository R}.
Implicit Types (s : Server R) (w : world R).

(** ** How many threads there are *)

Record threads_inv (s : Server R) : Prop := {
  ti_pool : length (tp_workers (networkThreadPool_ s)) <=
    Z.to_nat (networkThreads (server (config_ s)));
  ti_actors : length (workers_ (actorSystem_ s)) <=
    Z.to_nat (actorThreads (server (config_ s)));
  ti_busy : busy_threads (actorSystem_ s) <= serving (networkThreadPool_ s);
  ti_phase : match stopping s with
             | NotStopping =>
                 running_ (actorSystem_ s) = srv_running s /\
                 (srv_running s = false ->
                  tp_workers (networkThreadPool_ s) = [] /\ workers_ (actorSystem_ s) = [])
             | JoiningNetwork => srv_running s = false /\ running_ (actorSystem_ s) = true
             | JoiningActors => srv_running s = false /\ running_ (actorSystem_ s) = false /\
                 tp_workers (networkThreadPool_ s) = []
             end
}.

Lemma threads_frame s s' :
  config_ s' = config_ s -> networkThreadPool_ s' = networkThreadPool_ s ->
  stopping s' = stopping s -> srv_running s' = srv_running s ->
  running_ (actorSystem_ s') = running_ (actorSystem_ s) ->
  length (workers_ (actorSystem_ s')) = length (workers_ (actorSystem_ s)) ->
  busy_threads (actorSystem_ s') <= serving (networkThreadPool_ s) ->
  threads_inv s -> threads_inv s'.
Proof.
  intros Hc Hp Hst Hrun Hr Hw Hb [T1 T2 _ T4].
  split; rewrite ?Hc, ?Hp, ?Hst, ?Hrun, ?Hr, ?Hw; try done.
  destruct (stopping s); [|done|done]. destruct T4 as [? Hnil]. split; [done|].
  intros Hf. destruct (Hnil Hf) as [-> Hws]. split; [done|].
  apply nil_length_inv. by rewrite Hw, Hws.
Qed.

(** A free thread is one the pool has beyond the busy ones. *)
Lemma free_thread_busy s :
  free_thread s = true -> busy_threads (actorSystem_ s) < serving (networkThreadPool_ s).
Proof. unfold free_thread. by intros [_ ?%Nat.ltb_lt]%andb_prop. Qed.

Lemma gate_allowed_thread l l' s :
  gate_allowed l s = true ->
  match l with
  | System m => l' = m
  | Session _ _ => internal l' = false
  | Destroy k => l' = Expire (transport_of k)
  | Connect _ => False
  end ->
  is_thread_step l' = true /\
  (match l' with Dispatch _ _ => 1 | _ => 0 end = 0 \/ free_thread s = true).
Proof.
  intros Ha Hl. destruct l as [m|ok|k e|k]; cbn in Ha; [subst l'|done| |subst l'; auto].
  - destruct m; try done; auto.
  - split; [by destruct l'|by right].
Qed.

Lemma gate_step_threads l s g :
  threads_inv s -> gate_allowed l s = true -> gateway_step l (gate s) = Some g ->
  threads_inv (with_gate s g).
Proof.
  intros Hs Hl Hg. pose proof (ti_busy _ Hs) as Hb.
  assert (running_ (rt g) = running_ (rt (gate s)) /\
    length (workers_ (rt g)) = length (workers_ (rt (gate s))) /\
    busy_threads (rt g) <= serving (networkThreadPool_ s)) as (Hr & Hw & Hb').
  { destruct (gateway_step_world _ _ _ Hg) as [->|(l' & Hstep & Hl')]; [done|].
    destruct (gate_allowed_thread _ _ _ Hl Hl') as [Hth Hfree].
    destruct (step_threads _ _ _ Hth Hstep) as (Hr & Hw & Hb'). split_and!; [done..|].
    unfold actorSystem_ in Hb. destruct Hfree as [Hz|?%free_thread_busy];
      [rewrite Hz in Hb'; lia|]. unfold actorSystem_ in *. destruct l'; lia. }
  by apply (threads_frame s).
Qed.

Lemma server_step_threads o s s' :
  threads_inv s -> server_step o s = Some s' -> threads_inv s' /\ config_ s' = config_ s.
Proof.
  intros Hinv Hs. unfold server_step in Hs. destruct (terminated (actorSystem_ s)); [done|].
  destruct o as [| | |l|l].
  - unfold idle_main in Hs. destruct (stopping s) eqn:Hst; try done. simplify_eq.
    unfold Server_run. destruct (srv_running s) eqn:Hrun; [done|]. split; [|done].
    destruct Hinv as [T1 T2 T3 T4]. rewrite Hst in T4. destruct T4 as [Hr Hnil].
    destruct (Hnil Hrun) as [Hp Hw]. unfold actorSystem_ in *.
    unfold start_step. rewrite Hr, Hrun.
    split; cbn; rewrite ?length_app, ?Hp, ?Hw, ?length_replicate; cbn;
      [lia|lia| |rewrite Hst; by split].
    unfold serving in *. rewrite Hp in T3. cbn in T3. unfold busy_threads in *. cbn. lia.
  - unfold idle_main in Hs. destruct (stopping s) eqn:Hst; try done. simplify_eq.
    unfold Server_stop. destruct (srv_running s) eqn:Hrun; [|done]. split; [|done].
    destruct Hinv as [T1 T2 T3 T4]. rewrite Hst in T4. destruct T4 as [Hr _].
    split; cbn; [done..|]. split; [done|]. exact (eq_trans Hr Hrun).
  - destruct Hinv as [T1 T2 T3 T4].
    apply server_join_cases in Hs as [(Hst & Hz & ->)|(Hst & w & Hw & ->)]; rewrite Hst in T4;
      (split; [|done]).
    + destruct T4 as [Hrun Hr]. split; cbn; [lia|done| |done].
      unfold busy_threads, actorSystem_ in *. cbn. by rewrite Hz.
    + apply stop_join_spec in Hw as (_ & _ & ->). destruct T4 as (Hrun & Hr & Hp).
      split; unfold actorSystem_ in *; cbn; [done|lia|done|]. by rewrite Hr, Hrun.
  - destruct (gate_allowed l s) eqn:Hl; [|done].
    destruct (gateway_step l (gate s)) as [g|] eqn:Hg; [|done]. cbn in Hs. simplify_eq.
    split; [by eapply gate_step_threads|done].
  - destruct (http_allowed l s); [|done]. destruct (http_net_step _ l _) as [n|]; [|done].
    cbn in Hs. simplify_eq. split; [|done]. apply (threads_frame s); try done.
    exact (ti_busy _ Hinv).
Qed.

Lemma server_steps_threads os s s' :
  threads_inv s -> server_steps os s = Some s' -> threads_inv s' /\ config_ s' = config_ s.
Proof.
  revert s. induction os as [|o os IH]; intros s Hs Hr; cbn in Hr; [by simplify_eq|].
  destruct (server_step o s) as [s1|] eqn:Ho; [|done]. cbn in Hr.
  destruct (server_step_threads _ _ _ Hs Ho) as [Hs1 Hc1].
  destruct (IH _ Hs1 Hr) as [Hs' Hc']. split; [done|congruence].
Qed.

Lemma new_threads config (r : R) : threads_inv (Server_new config r).
Proof. split; cbn; try lia. by split. Qed.

(** C33: the configuration bounds the threads. In every state a server
    reaches, through whatever calls of [run] and [stop] one after the other,
    there are at most as many network threads and workers as configured, and at
    most as many calls of [dispatch] in progress as network threads; and a
    server that is neither running nor being stopped has no thread. *)
Theorem threads_within_configuration os config (r : R) s :
  server_steps os (Server_new config r) = Some s ->
  length (tp_workers (networkThreadPool_ s)) <= Z.to_nat (networkThreads (server config)) /\
  length (workers_ (actorSystem_ s)) <= Z.to_nat (actorThreads (server config)) /\
  busy_threads (actorSystem_ s) <= length (tp_workers (networkThreadPool_ s)) /\
  (stopping s = NotStopping -> srv_running s = false ->
   tp_workers (networkThreadPool_ s) = [] /\ workers_ (actorSystem_ s) = []).
Proof.
  intros Hr. destruct (server_steps_threads _ _ _ (new_threads config r) Hr) as [[T1 T2 T3 T4] Hc].
  cbn in Hc. rewrite Hc in *. split_and!; [done|done| |].
  - etrans; [exact T3|]. apply length_filter.
  - intros Hst. rewrite Hst in T4. apply T4.
Qed.

(** ** After [stop] *)

(** What the server has read from its clients and written to them. *)
Definition exchanged s : list (list string * list string) * list (list request * list response) :=
  ((fun c => (dispatched (session c), wire (session c))) <$> connections (gate s),
   (fun h => (requests h, responses h)) <$> srv_http s).

Lemma send_all_wire texts ws : wire (send_all texts ws) = wire ws.
Proof. revert ws. induction texts as [|x texts IH]; intros ws; [done|]. apply (IH (session_send x ws)). Qed.

Lemma deliver_exchanged new (cs : list connection) :
  (fun c => (dispatched (session c), wire (session c))) <$> deliver new cs =
  (fun c => (dispatched (session c), wire (session c))) <$> cs.
Proof.
  apply list_eq. intros k. rewrite !list_lookup_fmap. unfold deliver. rewrite list_lookup_imap.
  destruct (cs !! k) as [c|]; [|done]. cbn.
  by rewrite send_all_wire, (proj1 (proj2 (proj2 (send_all_frame _ _)))).
Qed.

Definition deaf s : Prop := io_stopped (networkThreadPool_ s) = true.

Lemma deaf_no_thread s : deaf s -> free_thread s = false.
Proof. unfold deaf, free_thread. by intros ->. Qed.

Lemma deaf_gate l s g :
  deaf s -> gate_allowed l s = true -> gateway_step l (gate s) = Some g ->
  exchanged (with_gate s g) = exchanged s /\
  busy_threads (rt g) <= busy_threads (actorSystem_ s) /\
  (busy_threads (actorSystem_ s) = 0 -> accepted (rt g) = accepted (actorSystem_ s)).
Proof.
  intros Hd%deaf_no_thread Hl Hg. split.
  - unfold exchanged. cbn [gate with_gate srv_http]. f_equal.
    destruct l as [m|ok|k e|k]; cbn in Hl, Hg; rewrite ?Hd in Hl; try done.
    + destruct (internal m); [|done]. cbn in Hg. destruct (step m _) as [w|]; [|done].
      cbn in Hg. simplify_eq. apply deliver_exchanged.
    + destruct (connections (gate s) !! k) as [c|]; [|done]. cbn in Hg.
      destruct (released _ _); [|done]. destruct (step _ _) as [w|]; [|done]. cbn in Hg. by simplify_eq.
  - destruct (gateway_step_world _ _ _ Hg) as [->|(l' & Hstep & Hl')]; [done|].
    destruct (gate_allowed_thread _ _ _ Hl Hl') as [Hth Hfree].
    destruct Hfree as [Hz|Hfree]; [|congruence].
    destruct (step_threads _ _ _ Hth Hstep) as (_ & _ & Hb). rewrite Hz, Nat.add_0_r in Hb.
    split; [done|]. intros Hnone. eapply quiet_accepted; [|exact Hnone|exact Hstep].
    by destruct l'.
Qed.

Lemma deaf_step o s s' :
  deaf s -> server_step o s = Some s' ->
  deaf s' /\ exchanged s' = exchanged s /\
  busy_threads (actorSystem_ s') <= busy_threads (actorSystem_ s) /\
  (busy_threads (actorSystem_ s) = 0 -> accepted (actorSystem_ s') = accepted (actorSystem_ s)).
Proof.
  intros Hd Hs. unfold server_step in Hs. destruct (terminated (actorSystem_ s)); [done|].
  destruct o as [| | |l|l].
  - destruct (idle_main s); [|done]. simplify_eq. unfold Server_run.
    destruct (srv_running s); [by split_and!|]. unfold actorSystem_, start_step. cbn.
    destruct (running_ _); by split_and!.
  - destruct (idle_main s); [|done]. simplify_eq. unfold Server_stop.
    by destruct (srv_running s); split_and!.
  - apply server_join_cases in Hs as [(_ & _ & ->)|(_ & w & Hw & ->)]; [by split_and!|].
    apply stop_join_spec in Hw as (_ & _ & ->). by split_and!.
  - destruct (gate_allowed l s) eqn:Hl; [|done].
    destruct (gateway_step l (gate s)) as [g|] eqn:Hg; [|done]. cbn in Hs. simplify_eq.
    split; [done|]. by eapply deaf_gate.
  - unfold http_allowed in Hs. rewrite deaf_no_thread in Hs by done. by destruct l.
Qed.

(** C32: a server that was stopped is deaf and dumb, for good. Whatever follows
    the call of [stop] on a running server, a second [run] included, nothing
    more is read from a client and nothing more is written to one, by
    websocket or by HTTP, and no thread of the network is free to take a
    handler, because the stopped context is never restarted. If no dispatch
    was in progress at the call, no message is accepted either. *)
Theorem stopped_server_stays_deaf os s s' :
  srv_running s = true -> server_steps (OpStop :: os) s = Some s' ->
  exchanged s' = exchanged s /\ free_thread s' = false /\
  (busy_threads (actorSystem_ s) = 0 -> accepted (actorSystem_ s') = accepted (actorSystem_ s)).
Proof.
  intros Hrun Hr. cbn [server_steps] in Hr.
  destruct (server_step OpStop s) as [s1|] eqn:Hstop; [|done]. cbn in Hr.
  assert (deaf s1 /\ exchanged s1 = exchanged s /\ actorSystem_ s1 = actorSystem_ s)
    as (Hd & He & Ha).
  { unfold server_step in Hstop. destruct (terminated (actorSystem_ s)); [done|].
    destruct (idle_main s); [|done]. simplify_eq. unfold Server_stop. by rewrite Hrun. }
  rewrite <- He, <- Ha. clear He Ha Hstop Hrun s.
  revert s1 Hd Hr. induction os as [|o os IH]; intros s1 Hd Hr; cbn in Hr.
  - simplify_eq. split_and!; [done|by apply deaf_no_thread|done].
  - destruct (server_step o s1) as [s2|] eqn:Ho; [|done]. cbn in Hr.
    destruct (deaf_step _ _ _ Hd Ho) as (Hd2 & He2 & Hb2 & Ha2).
    destruct (IH _ Hd2 Hr) as (He & Hf & Ha). split_and!; [congruence|done|].
    intros Hz. rewrite Ha by lia. by apply Ha2.
Qed.
End server_threads.
