(* ===== verification/Acceptor.v ===== *)
(** * Opening the listeners

    The constructors of the three listeners, [websocket_listener.cpp] and
    [http_listener.cpp] of [src/infrastructure/network] and
    [websocket_listener.cpp] of [src/infrastructure/websocket], over the
    acceptor of Boost.Asio. *)
From S2P Require Import Prelude.

(** Boost.Asio's acceptor, as the error message of each call, none for
    success; and [make_address], which throws on text that is no address. *)
Class AsioLib : Type := {
  make_address : string -> result string;
  acceptor_open : string * Z -> option string;
  acceptor_set_reuse : string * Z -> option string;
  acceptor_bind : string * Z -> option string;
  acceptor_listen : string * Z -> option string
}.

Section listeners.
Context `{AsioLib}.
Implicit Types (endpoint : string * Z).

(** [if (ec) throw std::runtime_error(prefix + ec.message());] *)
Definition check_error_as (prefix : string) (ec : option string) : result unit :=
  match ec with Some message => Throw (runtime_error (prefix +:+ message)) | None => Ok tt end.
Definition check_error (ec : option string) : result unit := check_error_as EmptyString ec.

Definition WebSocketListener_open endpoint : result unit :=
  _ ← check_error (acceptor_open endpoint);
  _ ← check_error (acceptor_set_reuse endpoint);
  _ ← check_error (acceptor_bind endpoint);
  check_error (acceptor_listen endpoint).

Definition HttpListener_open endpoint : result unit :=
  _ ← check_error (acceptor_open endpoint);
  _ ← check_error (acceptor_set_reuse endpoint);
  _ ← check_error (acceptor_bind endpoint);
  check_error (acceptor_listen endpoint).

(** The listener of the first websocket layer says which call failed. *)
Definition legacy_listener_open endpoint : result unit :=
  _ ← check_error_as "acceptor open failed: " (acceptor_open endpoint);
  _ ← check_error_as "acceptor set_option failed: " (acceptor_set_reuse endpoint);
  _ ← check_error_as "acceptor bind failed: " (acceptor_bind endpoint);
  check_error_as "acceptor listen failed: " (acceptor_listen endpoint).

(** What the calls answer, in their order. *)
Definition opening endpoint : list (option string) :=
  [acceptor_open endpoint; acceptor_set_reuse endpoint; acceptor_bind endpoint;
   acceptor_listen endpoint].

(** A constructor throws the message of the first call that fails. *)
Lemma listener_open_spec endpoint :
  WebSocketListener_open endpoint =
    match mjoin (head (filter is_Some (opening endpoint))) with
    | Some message => Throw (runtime_error message)
    | None => Ok tt
    end.
Proof.
  unfold WebSocketListener_open, opening, check_error, check_error_as.
  destruct (acceptor_open endpoint), (acceptor_set_reuse endpoint), (acceptor_bind endpoint),
    (acceptor_listen endpoint); reflexivity.
Qed.

(** One that returns has made all its calls without an error. *)
Lemma listener_opened endpoint :
  WebSocketListener_open endpoint = Ok tt -> Forall (fun ec => ec = None) (opening endpoint).
Proof.
  unfold WebSocketListener_open, opening, check_error, check_error_as.
  destruct (acceptor_open endpoint), (acceptor_set_reuse endpoint), (acceptor_bind endpoint),
    (acceptor_listen endpoint); by repeat constructor.
Qed.

(** The three constructors succeed on the same endpoints. *)
Lemma listeners_agree endpoint :
  HttpListener_open endpoint = WebSocketListener_open endpoint /\
  is_Ok (legacy_listener_open endpoint) = is_Ok (WebSocketListener_open endpoint).
Proof.
  split; [done|].
  unfold legacy_listener_open, WebSocketListener_open, check_error, check_error_as.
  destruct (acceptor_open endpoint), (acceptor_set_reuse endpoint), (acceptor_bind endpoint),
    (acceptor_listen endpoint); reflexivity.
Qed.
End listeners.
