(* ===== verification/Shutdown.v ===== *)
(** * The end of the server

    [Server::stop] returns: [ThreadPool::stop] waits for the handlers that are
    running on the network threads, [ActorSystem::stop] for the workers, and
    both are waits for threads that have finitely much left to do. A handler
    has its own effects before it, a worker whose flag has fallen the handler
    it runs and what is left of its scan, whatever the other threads do in the
    meantime. *)
From S2P Require Import Prelude CppString Json Domain Jwt Mailbox Actor Handlers Runtime RuntimeInv RuntimeFair Schedule WsSession Gateway HttpRouter HttpNet Config Server ServerThreads.

(** ** What one thread has left to do *)

Section left.
Context `{JsonLib, UuidLib}.

(** The programs a program can be after its next effect. *)
Definition prog_next (p' p : prog unit) : Prop :=
  match p with
  | Ret _ | Raise _ => False
  | Send _ k | LockTransport _ k => exists b, p' = k b
  | FindTransport _ k => exists o, p' = k o
  | TransportSend _ _ k | Log _ _ _ k => p' = k
  | RepoCreate _ k => (exists b, p' = k b) \/ exists e, p' = Raise e
  | RandomUuid k => exists u, p' = k u
  | SystemNow k => exists t, p' = k t
  end.

Lemma prog_next_wf : well_founded prog_next.
Proof.
  assert (forall e, Acc prog_next (Raise e)) as Hraise by (intros e; constructor; intros p' []).
  intros p. induction p; constructor; intros p'; cbn;
    (intros [[? ->]|[? ->]] || intros [? ->] || intros -> || intros []); auto.
Qed.

(** The states a worker can be in after its next turn once the flag has
    fallen. *)
Definition worker_next (wk' wk : worker) : Prop :=
  match wk with
  | WStopped => False
  | WTop => wk' = WStopped
  | WSleep => wk' = WTop
  | WScan [] _ => wk' = WTop \/ wk' = WSleep
  | WScan (_ :: rest) b => wk' = WScan rest b \/ exists cls p, wk' = WRun cls p rest
  | WRun cls p rest => (exists p', prog_next p' p /\ wk' = WRun cls p' rest) \/ wk' = WScan rest true
  end.

Lemma worker_next_wf : well_founded worker_next.
Proof.
  assert (Acc worker_next WStopped) as Hstopped by (constructor; intros ? []).
  assert (Acc worker_next WTop) as Htop by (constructor; intros ? ->; exact Hstopped).
  assert (Acc worker_next WSleep) as Hsleep by (constructor; intros ? ->; exact Htop).
  assert (forall cls p rest, (forall b, Acc worker_next (WScan rest b)) ->
    Acc worker_next (WRun cls p rest)) as Hrun.
  { intros cls p rest Hrest. induction p as [p IHp] using (well_founded_ind prog_next_wf).
    constructor. intros wk [(p' & Hp' & ->)| ->]; auto. }
  assert (forall rest b, Acc worker_next (WScan rest b)) as Hscan.
  { induction rest as [|key rest IH]; intros b; constructor; intros wk;
      [intros [ -> | -> ]|intros [ -> | (cls & p & ->) ] ]; auto. }
  intros [|rest b|cls p rest| |]; auto.
Qed.
End left.

Section threads.
Context `{JsonLib, UuidLib, LockfreeQueueLaws, ActorOrder} {R : Type} `{!MessageRepository R}.
Implicit Types (w : world R).

Lemma prog_step_next c (s : shared R) p s' p' :
  prog_step c s p = Some (s', p') -> prog_next p' p.
Proof.
  destruct p; cbn; intros Hs; simplify_eq; try (by eexists); try done.
  - destruct (shared_send env s); simplify_eq. by eexists.
  - destruct (shared_create m s) as [[b|e] s1]; simplify_eq; [by left; eexists|by right; eexists].
Qed.

Lemma prog_step_total c (s : shared R) p :
  match p with Ret _ | Raise _ => False | _ => True end -> is_Some (prog_step c s p).
Proof.
  destruct p; cbn; try done; intros _; try by eexists.
  - destruct (shared_send env s); by eexists.
  - destruct (shared_create m s) as [[]]; by eexists.
Qed.

(** ** The steps of the threads *)

Definition place_net (i : nat) w : option (prog unit) := net w !! i.
Definition place_worker (i : nat) w : option worker := workers_ w !! i.
Definition net_over (p : option (prog unit)) : bool := negb (from_option unfinished false p).
Definition worker_over (wk : option worker) : bool := from_option is_stopped true wk.

(** What the server still does while it is being stopped. *)
Definition ending_label (l : label) : bool :=
  match l with WorkerStep _ _ | NetStep _ _ | Expire _ => true | _ => false end.

(** The step brings on the thread it is a step of, and leaves the others. *)
Definition brings_on {X} (lt : X -> X -> Prop) (place : nat -> world R -> option X)
    (turn : nat -> label -> Prop) (l : label) w w' : Prop :=
  forall i, option_lt lt (place i w') (place i w) \/ place i w' = place i w /\ ~ turn i l.

Lemma brings_on_insert {X} (lt : X -> X -> Prop) place turn l w w' i x x' (xs : list X) :
  (forall j, place j w = xs !! j) -> (forall j, place j w' = <[i := x']> xs !! j) ->
  xs !! i = Some x -> lt x' x -> (forall j, turn j l -> j = i) ->
  brings_on lt place turn l w w'.
Proof.
  intros Hw Hw' Hi Hlt Hl j. rewrite Hw, Hw'. destruct (decide (j = i)) as [->|Hne].
  - left. rewrite list_lookup_insert_eq by (by eapply lookup_lt_Some). by rewrite Hi.
  - right. rewrite list_lookup_insert_ne by done. split; [done|]. by intros ?%Hl.
Qed.

Definition net_turn (i : nat) (l : label) : Prop := exists c, l = NetStep i c.
Definition worker_turn (i : nat) (l : label) : Prop := exists c, l = WorkerStep i c.

Lemma net_brings_on l w w' :
  ending_label l = true -> step l w = Some w' -> terminated w' = None ->
  length (net w') = length (net w) /\ brings_on prog_next place_net net_turn l w w'.
Proof.
  intros Hl Hs Ht. unfold step in Hs. destruct (terminated w); [done|]. destruct l; try done.
  - apply net_step_inv in Hs as [(e & _ & ->)|(p & s & p' & Hi & Hp & ->)]; [done|].
    split; [apply length_insert|].
    eapply brings_on_insert; [done|done|exact Hi|by eapply prog_step_next|].
    by intros j [d [= -> _]].
  - assert (net w' = net w) as Hnet.
    { by apply worker_step_move in Hs as [wk wk' w2 Hi Hrun Hret Hq Hws Hnet| | | | ]. }
    rewrite Hnet. split; [done|]. intros j. right. unfold place_net. rewrite Hnet.
    split; [done|]. by intros [].
  - simplify_eq. split; [done|]. intros j. right. split; [done|]. by intros [].
Qed.

Lemma worker_brings_on l w w' :
  running_ w = false -> ending_label l = true -> step l w = Some w' -> terminated w' = None ->
  length (workers_ w') = length (workers_ w) /\
  brings_on worker_next place_worker worker_turn l w w'.
Proof.
  intros Hr Hl Hs Ht. unfold step in Hs. destruct (terminated w); [done|]. destruct l; try done.
  - assert (workers_ w' = workers_ w) as Hws
      by (apply net_step_inv in Hs as [(e & _ & ->)|(p & s & p' & _ & _ & ->)]; done).
    rewrite Hws. split; [done|]. intros j. right. unfold place_worker. rewrite Hws.
    split; [done|]. by intros [].
  - enough (exists wk wk', workers_ w !! i = Some wk /\ workers_ w' = <[i := wk']> (workers_ w) /\
      worker_next wk' wk) as (wk & wk' & Hi & Hws & Hnext).
    { split; [by rewrite Hws, length_insert|]. unfold place_worker.
      eapply brings_on_insert; [done|by rewrite Hws|exact Hi|done|]. by intros j [d [= -> _]]. }
    unfold worker_step in Hs. destruct (workers_ w !! i) as [wk|] eqn:Hi; [|done]. cbn in Hs.
    exists wk. destruct wk as [|[|key rest] b|cls p rest| |]; try done.
    + rewrite Hr in Hs. simplify_eq. by eexists.
    + simplify_eq. eexists. split_and!; [done..|]. destruct b; cbn; auto.
    + destruct (actors_pop _ _) as [[[[env|] cls] acts]|]; [..|done]; simplify_eq/=;
        eexists; (split_and!; [done..|]); [right; by eexists _, _|by left].
    + destruct p; try (match type of Hs with (prog_step ?c ?s ?p ≫= _) = _ =>
           destruct (prog_step c s p) as [[s' p']|] eqn:Hp; [|done] end; cbn in Hs;
           injection Hs as <-; eexists; (split_and!; [done..|]); left;
           by eexists; split; [eapply prog_step_next, Hp|]); simplify_eq.
      eexists. split_and!; [done..|]. by right.
    + simplify_eq. by eexists.
  - simplify_eq. split; [done|]. intros j. right. split; [done|]. by intros [].
Qed.

(** A thread that is not over can take its turn. *)
Lemma net_enabled i c w :
  terminated w = None -> net_over (place_net i w) = false -> is_Some (step (NetStep i c) w).
Proof.
  intros Ht Ho. unfold step, net_step, net_over, place_net in *. rewrite Ht.
  destruct (net w !! i) as [p|]; [|done]. cbn in *.
  destruct p; try done; try (by eexists);
    match goal with |- is_Some (prog_step ?c ?s ?p ≫= _) =>
      destruct (prog_step_total c s p I) as [[s' p'] ->]; by eexists end.
Qed.

Lemma worker_enabled i c w :
  terminated w = None -> (forall key, is_Some (actors_ (sh w) !! key)) ->
  worker_over (place_worker i w) = false -> is_Some (step (WorkerStep i c) w).
Proof.
  intros Ht Hreg Ho. unfold step, worker_step, worker_over, place_worker in *. rewrite Ht.
  destruct (workers_ w !! i) as [wk|]; [|done]. cbn in *.
  destruct wk as [|[|key rest] b|cls p rest| |]; try done.
  - destruct (running_ w); by eexists.
  - destruct (Hreg key) as [a Ha]. destruct (pop_front _ _ _ Ha) as [acts Hp]. rewrite Hp. cbn.
    destruct (head _); by eexists.
  - destruct p; try (by eexists);
      match goal with |- is_Some (prog_step ?c ?s ?p ≫= _) =>
        destruct (prog_step_total c s p I) as [[s' p'] ->]; by eexists end.
Qed.
End threads.

(** ** Destruction *)

Section destruction.
Context `{JsonLib, UuidLib, Sha1Lib, BeastLib, LockfreeQueue, ActorOrder} {R : Type}
  `{!MessageRepository R}.

(** A thread that is destroyed before it was joined ends the process. *)
Definition std_terminate : exn := foreign "terminate called without an active exception".

(** [~ActorSystem]: [stop], of which there is nothing left to wait for when it
    was called before, and the end of the vector of threads. *)
Definition ActorSystem_destroy (w : world R) : option (world R) :=
  w' ← (if running_ w then stop_join (stop_request w) else Some w);
  Some (match workers_ w' with [] => w' | _ => terminate w' std_terminate end).

(** The members go in the reverse order of their declaration, the actor system
    before the thread pool, whose threads nobody joins any more. *)
Definition Server_destroy (s : Server R) : option (Server R) :=
  w ← ActorSystem_destroy (actorSystem_ s);
  Some (with_gate s (with_world
    (match tp_workers (networkThreadPool_ s) with [] => w | _ => terminate w std_terminate end)
    (gate s))).

Lemma destroy_idle (s : Server R) :
  running_ (actorSystem_ s) = false -> workers_ (actorSystem_ s) = [] ->
  tp_workers (networkThreadPool_ s) = [] -> Server_destroy s = Some s.
Proof.
  unfold Server_destroy, ActorSystem_destroy. intros -> Hw ->. cbn. rewrite Hw. cbn.
  by destruct s as [? ? ? [] ? ? ? ?].
Qed.

(** A server that was not stopped cannot be destroyed: once its workers have
    ended the threads of its network end the process. *)
Lemma destroy_running (s s' : Server R) :
  tp_workers (networkThreadPool_ s) <> [] -> Server_destroy s = Some s' ->
  terminated (actorSystem_ s') = Some std_terminate.
Proof.
  unfold Server_destroy. intros Hp Hs. destruct (ActorSystem_destroy _) as [w|]; [|done].
  cbn in Hs. simplify_eq. by destruct (tp_workers (networkThreadPool_ s)).
Qed.
End destruction.

Section server_end.
Context `{JsonLib, UuidLib, Sha1Lib, BeastLib, LockfreeQueueLaws, ActorOrder} {R : Type}
  `{!MessageRepository R}.
Implicit Types (s : Server R) (w : world R) (o : server_op R).

(** ** What the server does while it is being stopped *)

Lemma stop_makes_deaf o s s' :
  (stopping s <> NotStopping -> deaf s) -> server_step o s = Some s' ->
  stopping s' <> NotStopping -> deaf s'.
Proof.
  intros Hd Hs Hst. destruct (stopping s) eqn:Hph; [|apply (deaf_step o s); auto..].
  unfold server_step in Hs. destruct (terminated _); [done|].
  destruct o as [| | |l|l]; unfold idle_main, Server_join in Hs;
    try rewrite Hph in Hs; simplify_eq/=; try done.
  - destruct Hst. unfold Server_run. by destruct (srv_running s).
  - unfold Server_stop in *. destruct (srv_running s); cbn in *; [done|congruence].
  - destruct (gate_allowed l s), (gateway_step l (gate s)); by simplify_eq/=.
  - destruct (http_allowed l s), (http_net_step (secret_of s) l (http_part s)); by simplify_eq/=.
Qed.

Lemma stopping_step o s s' :
  deaf s -> stopping s <> NotStopping -> server_step o s = Some s' ->
  o = OpJoin \/
  exists l, ending_label l = true /\ step l (actorSystem_ s) = Some (actorSystem_ s') /\
    stopping s' = stopping s /\ (o = OpGate (System l) \/ exists k, o = OpGate (Destroy k) /\ l = Expire (transport_of k)).
Proof.
  intros Hd%deaf_no_thread Hst Hs. unfold server_step in Hs.
  destruct (terminated (actorSystem_ s)) eqn:Ht; [done|].
  destruct o as [| | |l|l]; [..|by left| |].
  - unfold idle_main in Hs. by destruct (stopping s).
  - unfold idle_main in Hs. by destruct (stopping s).
  - destruct (gate_allowed l s) eqn:Hl; [|done].
    destruct (gateway_step l (gate s)) as [g|] eqn:Hg; [|done]. cbn in Hs. simplify_eq.
    right. destruct l as [m|ok|k e|k]; cbn in Hl; rewrite ?Hd in Hl; try done.
    + exists m. cbn in Hg. destruct (internal m); [|done]. cbn in Hg.
      destruct (step m (rt (gate s))) as [w|] eqn:Hw; [|done]. cbn in Hg. simplify_eq.
      split_and!; [by destruct m|done|done|by left].
    + exists (Expire (transport_of k)). cbn in Hg.
      destruct (connections (gate s) !! k) as [c|]; [|done]. cbn in Hg.
      destruct (released c _); [|done].
      destruct (step _ (rt (gate s))) as [w|] eqn:Hw; [|done]. cbn in Hg. simplify_eq.
      split_and!; [done..|]. right. by exists k.
  - unfold http_allowed in Hs. rewrite Hd in Hs. by destruct l.
Qed.

Lemma thread_turn_enabled l s :
  thread_label l = true -> is_Some (step l (actorSystem_ s)) ->
  is_Some (server_step (OpGate (System l)) s).
Proof.
  intros Hl [w Hw]. unfold server_step. destruct (terminated (actorSystem_ s)) eqn:Ht.
  { unfold step in Hw. by rewrite Ht in Hw. }
  assert (gate_allowed (System l) s = true) as -> by by destruct l.
  cbn. assert (internal l = true) as -> by by destruct l. cbn.
  unfold actorSystem_ in Hw. rewrite Hw. by eexists.
Qed.

(** ** One phase *)

Section config.
Context (config : AppConfig) (r : R) (Hcap : (0 <= mailboxCapacity (server config))%Z).

Definition reached s : Prop := exists os, server_steps os (Server_new config r) = Some s.

Lemma server_steps_app os os' s s' :
  server_steps os s = Some s' -> server_steps (os ++ os') s = server_steps os' s'.
Proof.
  revert s. induction os as [|o os IH]; intros s Hr; cbn in *; [by simplify_eq|].
  destruct (server_step o s) as [s1|]; [|done]. cbn in *. by apply IH.
Qed.

Lemma reached_step o s s' : reached s -> server_step o s = Some s' -> reached s'.
Proof.
  intros [os Hos] Hs. exists (os ++ [o]). erewrite server_steps_app; [|done]. cbn. by rewrite Hs.
Qed.

Lemma reached_invariant (I : Server R -> Prop) s :
  I (Server_new config r) -> (forall o s1 s2, I s1 -> server_step o s1 = Some s2 -> I s2) ->
  reached s -> I s.
Proof.
  intros Hnew HI [os Hos]. revert Hnew Hos. generalize (Server_new config r).
  induction os as [|o os IH]; intros s0 Hs0 Hr; cbn in Hr; [by simplify_eq|].
  destruct (server_step o s0) as [s1|] eqn:Ho; [|done]. cbn in Hr. eapply IH; [|done]. eauto.
Qed.

Lemma reached_deaf s : reached s -> stopping s <> NotStopping -> deaf s.
Proof.
  apply (reached_invariant (fun s => stopping s <> NotStopping -> deaf s)); [done|].
  intros o s1 s2. apply stop_makes_deaf.
Qed.

Lemma reached_threads s : reached s -> threads_inv s.
Proof.
  apply reached_invariant; [apply new_threads|]. intros o s1 s2 Hs Ho.
  by apply (server_step_threads o s1 s2).
Qed.

Lemma reached_registry s key : reached s -> is_Some (actors_ (sh (actorSystem_ s)) !! key).
Proof.
  intros [os Hos]. destruct (server_steps_gate _ _ _ Hos) as [gs Hgs].
  destruct (gateway_run_inv _ _ _ _ Hgs) as [ls [Hr _ _ _ _]].
  assert (registry_inv (server_actors (mailboxCapacity (server config))) (rt (gate s))) as [Hsh _].
  { eapply run_invariant; [intros l w1 w2; apply step_registry| |exact Hr].
    by apply initial_registry. }
  apply (f_equal (fun m => m !! key)) in Hsh. unfold actorSystem_.
  rewrite !lookup_fmap, server_actors_lookup in Hsh.
  by destruct (actors_ (sh (rt (gate s))) !! key).
Qed.

(** A server that is being stopped, with [nn] dispatches and [nw] workers. *)
Record ending (ph : stop_phase) (nn nw : nat) s : Prop := {
  en_reached : reached s;
  en_alive : terminated (actorSystem_ s) = None;
  en_phase : stopping s = ph;
  en_net : length (net (actorSystem_ s)) = nn;
  en_workers : length (workers_ (actorSystem_ s)) = nw
}.

Section phase.
Context (ph : stop_phase) (nn nw : nat) (Hph : ph <> NotStopping).
Context {X : Type} (lt : X -> X -> Prop) (Hwf : well_founded lt).
Context (place : nat -> world R -> option X) (over : option X -> bool).
Context (turn : nat -> label -> Prop) (n : nat) (Q : Server R -> Prop).
Hypothesis over_least : forall x y, over x = true -> ~ option_lt lt y x.
Hypothesis turn_thread : forall i l, turn i l -> thread_label l = true.
Hypothesis moves : forall l s w, ending ph nn nw s -> ending_label l = true ->
  step l (actorSystem_ s) = Some w -> terminated w = None ->
  length (net w) = nn /\ length (workers_ w) = nw /\ brings_on lt place turn l (actorSystem_ s) w.
Hypothesis enabled : forall i l s, ending ph nn nw s -> turn i l ->
  over (place i (actorSystem_ s)) = false -> is_Some (step l (actorSystem_ s)).
Hypothesis crashed : forall s, is_Some (terminated (actorSystem_ s)) -> Q s.
Hypothesis joined : forall s s', ending ph nn nw s -> server_step OpJoin s = Some s' -> Q s'.
Hypothesis joins : forall s, ending ph nn nw s ->
  (forall i, i < n -> over (place i (actorSystem_ s)) = true) -> is_Some (server_step OpJoin s).

Definition server_turn (i : nat) o : Prop := exists l, o = OpGate (System l) /\ turn i l.

Lemma phase_turn o s :
  ending ph nn nw s ->
  Q (tick server_step o s) \/
  (ending ph nn nw (tick server_step o s) /\
   forall i, option_lt lt (place i (actorSystem_ (tick server_step o s))) (place i (actorSystem_ s)) \/
     place i (actorSystem_ (tick server_step o s)) = place i (actorSystem_ s) /\
     (over (place i (actorSystem_ s)) = false -> ~ server_turn i o)) /\
  (server_step o s = None \/ o <> OpJoin).
Proof.
  intros He. pose proof He as [Hr Ha Hst Hn Hw]. unfold tick.
  destruct (server_step o s) as [s'|] eqn:Hs; cbn.
  2: { right. split; [|by left]. split; [done|]. intros i. right. split; [done|].
       intros Hov (l & -> & Hl).
       destruct (thread_turn_enabled l s) as [s2 Hs2]; [by eapply turn_thread|by eapply enabled|].
       congruence. }
  assert (deaf s) as Hd by (apply reached_deaf; congruence).
  destruct (stopping_step o s s') as [->|(l & Hl & Hstep & Hst' & Ho)];
    [done|congruence|done|by left; eapply joined|].
  destruct (terminated (actorSystem_ s')) eqn:Ht; [left; apply crashed; by eexists|].
  destruct (moves l s (actorSystem_ s') He Hl Hstep Ht) as (Hn' & Hw' & Hb).
  right. split; [|right; by destruct Ho as [->|(k & -> & _)]]. split.
  { split; [by eapply reached_step|done|congruence|done|done]. }
  intros i. destruct (Hb i) as [?|[Hsame Hno]]; [by left|right]. split; [done|].
  intros _ (m & Hm & Hturn). by destruct Ho as [->|(k & -> & _)]; simplify_eq.
Qed.

(** The phase comes to its end, or the process. *)
Lemma phase_ends schedule s :
  (forall i, i < n -> recurs (server_turn i) schedule) -> recurs (fun o => o = OpJoin) schedule ->
  ending ph nn nw s -> comes server_step schedule Q s.
Proof.
  intros Hturns Hjoin He.
  assert (forall o s, ending ph nn nw s -> Q (tick server_step o s) \/
    ending ph nn nw (tick server_step o s) /\ forall i,
      option_lt lt (place i (actorSystem_ (tick server_step o s))) (place i (actorSystem_ s)) \/
      place i (actorSystem_ (tick server_step o s)) = place i (actorSystem_ s) /\
      (over (place i (actorSystem_ s)) = false -> ~ server_turn i o)) as Hall.
  { intros o s1 He1. destruct (phase_turn o s1 He1) as [?|[? _]]; auto. }
  eapply comes_then.
  { exact (threads_finish _ _ (option_lt_wf lt Hwf) (fun i s => place i (actorSystem_ s)) over
      server_turn _ Q over_least Hall n schedule s Hturns He). }
  intros k s' [?|[He' Hover]]; [by apply comes_now|].
  apply (turn_awaited _ (fun o => o = OpJoin) (fun s => ending ph nn nw s /\
      all_over (fun i s => place i (actorSystem_ s)) over n s)).
  - intros o s1 [He1 Hover1]. destruct (phase_turn o s1 He1) as [?|[[He2 _] Hnone]]; [by left|].
    destruct (all_over_turn _ _ (fun i s => place i (actorSystem_ s)) over server_turn _ Q
      over_least Hall n o s1 He1 Hover1) as [?|?]; [by left|right].
    split; [done|]. intros ->. destruct (joins s1 He1 Hover1) as [s2 Hs2]. destruct Hnone; congruence.
  - by apply recurs_later.
  - done.
Qed.
End phase.

(** ** The two phases *)

Lemma ending_thread l : ending_label l = true -> is_thread_step l = true.
Proof. by destruct l. Qed.

Lemma none_busy w :
  (forall i, i < length (net w) -> net_over (place_net i w) = true) -> busy_threads w = 0.
Proof.
  intros Hall. unfold busy_threads. rewrite list_filter_none; [done|].
  apply Forall_lookup_2. intros i p Hi. specialize (Hall i (lookup_lt_Some _ _ _ Hi)).
  unfold net_over, place_net in Hall. rewrite Hi in Hall. cbn in Hall. by destruct (unfinished p).
Qed.

Lemma network_phase_ends nn nw schedule s :
  (forall i, i < nn -> recurs (server_turn net_turn i) schedule) ->
  recurs (fun o => o = OpJoin) schedule -> ending JoiningNetwork nn nw s ->
  comes server_step schedule
    (fun s' => is_Some (terminated (actorSystem_ s')) \/ ending JoiningActors nn nw s') s.
Proof.
  apply (phase_ends JoiningNetwork nn nw) with (lt := prog_next) (place := place_net)
    (over := net_over); [done|apply prog_next_wf|..].
  - intros [[]|] [p'|] Ho; try discriminate Ho; intros [].
  - by intros i l [c ->].
  - intros l s1 w [_ _ _ Hn Hw] Hl Hs Ht.
    destruct (net_brings_on _ _ _ Hl Hs Ht) as [Hlen Hb].
    destruct (step_threads _ _ _ (ending_thread _ Hl) Hs) as (_ & Hlen' & _).
    split_and!; [congruence..|done].
  - intros i l s1 [_ Ha _ _ _] [c ->]. by apply net_enabled.
  - by left.
  - intros s1 s2 [Hr Ha Hst Hn Hw] Hs. right.
    pose proof (reached_step _ _ _ Hr Hs) as Hr2. unfold server_step in Hs. rewrite Ha in Hs.
    apply server_join_cases in Hs as [(_ & _ & ->)|(Hst' & _)]; [by split|congruence].
  - intros s1 [_ Ha Hst Hn _] Hall. unfold server_step. rewrite Ha.
    unfold Server_join, Server_network_joined. rewrite Hst, none_busy; [done|]. by rewrite Hn.
Qed.

(** What a call of [stop] leaves when it returns. *)
Record returned s : Prop := {
  rt_phase : stopping s = NotStopping;
  rt_running : srv_running s = false;
  rt_pool : tp_workers (networkThreadPool_ s) = [];
  rt_workers : workers_ (actorSystem_ s) = [];
  rt_destroy : Server_destroy s = Some s;
  rt_log : last (srv_log s) = Some (info, "server stopped", [])
}.

Lemma joined_returned s s' :
  reached s -> stopping s = JoiningActors -> Server_join s = Some s' -> returned s'.
Proof.
  intros Hr%reached_threads Hst Hs. pose proof (ti_phase _ Hr) as Hph. rewrite Hst in Hph.
  destruct Hph as (Hrun & Hflag & Hp).
  apply server_join_cases in Hs as [(Hst' & _)|(_ & w & Hw & ->)]; [congruence|].
  apply stop_join_spec in Hw as (_ & _ & ->).
  split; [done|done|done|done|by apply destroy_idle|]. cbn. by rewrite last_snoc.
Qed.

Lemma all_stopped w :
  (forall i, i < length (workers_ w) -> worker_over (place_worker i w) = true) ->
  forallb is_stopped (workers_ w) = true.
Proof.
  intros Hall. apply forallb_forall. intros wk Hin%list_elem_of_In.
  apply list_elem_of_lookup in Hin as [i Hi]. specialize (Hall i (lookup_lt_Some _ _ _ Hi)).
  unfold worker_over, place_worker in Hall. by rewrite Hi in Hall.
Qed.

Lemma actors_phase_ends nn nw schedule s :
  (forall i, i < nw -> recurs (server_turn worker_turn i) schedule) ->
  recurs (fun o => o = OpJoin) schedule -> ending JoiningActors nn nw s ->
  comes server_step schedule (fun s' => is_Some (terminated (actorSystem_ s')) \/ returned s') s.
Proof.
  assert (forall s, ending JoiningActors nn nw s -> running_ (actorSystem_ s) = false) as Hflag.
  { intros s1 [Hr _ Hst _ _]. pose proof (ti_phase _ (reached_threads _ Hr)) as Hp.
    rewrite Hst in Hp. apply Hp. }
  apply (phase_ends JoiningActors nn nw) with (lt := worker_next) (place := place_worker)
    (over := worker_over); [done|apply worker_next_wf|..].
  - intros [[]|] [wk'|] Ho; try discriminate Ho; intros [].
  - by intros i l [c ->].
  - intros l s1 w He Hl Hs Ht. pose proof (Hflag _ He) as Hr.
    destruct (worker_brings_on _ _ _ Hr Hl Hs Ht) as [Hlen Hb].
    destruct (net_brings_on _ _ _ Hl Hs Ht) as [Hlen' _], He as [_ _ _ Hn Hw].
    split_and!; [congruence..|done].
  - intros i l s1 [Hr Ha _ _ _] [c ->]. apply worker_enabled; [done|]. intros key.
    by apply reached_registry.
  - by left.
  - intros s1 s2 [Hr Ha Hst Hn Hw] Hs. right. unfold server_step in Hs. rewrite Ha in Hs.
    by eapply joined_returned.
  - intros s1 He Hall. pose proof (Hflag _ He) as Hr. destruct He as [_ Ha Hst _ Hw].
    unfold server_step. rewrite Ha. unfold Server_join, Server_joined. rewrite Hst.
    unfold stop_join. rewrite Hr, all_stopped; [by eexists|]. by rewrite Hw.
Qed.
End config.

(** A schedule that is fair to the dispatches, the workers and the thread that
    waits in [stop], and in which anything else may happen in between. *)
Record fair_to_stop (nn nw : nat) (schedule : nat -> server_op R) : Prop := {
  fs_net : forall i, i < nn -> recurs (server_turn net_turn i) schedule;
  fs_workers : forall i, i < nw -> recurs (server_turn worker_turn i) schedule;
  fs_join : recurs (fun o => o = OpJoin) schedule
}.

Lemma stop_comes config (r : R) s schedule :
  (0 <= mailboxCapacity (server config))%Z -> reached config r s -> stopping s <> NotStopping ->
  fair_to_stop (length (net (actorSystem_ s))) (length (workers_ (actorSystem_ s))) schedule ->
  comes server_step schedule (fun s' => is_Some (terminated (actorSystem_ s')) \/ returned s') s.
Proof.
  intros Hcap Hreach Hst [Fn Fw Fj].
  destruct (terminated (actorSystem_ s)) eqn:Ht; [apply comes_now; left; by eexists|].
  set (Q := fun s' => is_Some (terminated (actorSystem_ s')) \/ returned s').
  assert (forall k s', ending config r JoiningActors (length (net (actorSystem_ s)))
    (length (workers_ (actorSystem_ s))) s' -> comes server_step (later k schedule) Q s') as Hactors.
  { intros k s' He. eapply actors_phase_ends; [done| | |exact He].
    - intros i Hi. by apply recurs_later, Fw.
    - by apply recurs_later. }
  destruct (stopping s) eqn:Hph; [done| |].
  - eapply comes_then.
    { eapply (network_phase_ends config r); [exact Fn|exact Fj|by split]. }
    intros k s' [?|He]; [by apply comes_now; left|by apply Hactors].
  - apply (Hactors 0). by split.
Qed.

(** C6: [stop] returns. Take any state a server reaches in which a call of
    [stop] is in progress, whatever is queued and whatever its handlers and
    workers are in the middle of, and from then on any schedule that gives
    its turns to each dispatch, each worker and the thread that waits, whatever the
    identifier generator and the clock answer and whatever else is tried in
    between. After finitely many turns the call has returned, with every thread
    of the network and of the actors joined, so that destroying the server has
    nothing left to do, and the end logged, unless an exception has ended the
    process. *)
Theorem stop_returns os config (r : R) s schedule :
  (0 <= mailboxCapacity (server config))%Z ->
  server_steps os (Server_new config r) = Some s -> stopping s <> NotStopping ->
  fair_to_stop (length (net (actorSystem_ s))) (length (workers_ (actorSystem_ s))) schedule ->
  exists n, let s' := drive server_step n schedule s in
    is_Some (terminated (actorSystem_ s')) \/
    stopping s' = NotStopping /\ srv_running s' = false /\
    tp_workers (networkThreadPool_ s') = [] /\ workers_ (actorSystem_ s') = [] /\
    Server_destroy s' = Some s' /\ last (srv_log s') = Some (info, "server stopped", []).
Proof.
  intros Hcap Hr Hst Hfair.
  destruct (stop_comes config r s schedule Hcap) as [n Hn]; [by exists os|done|done|].
  exists n. destruct Hn as [?|[]]; [by left|by right].
Qed.
End server_end.
