(* ===== verification/ServerLife.v ===== *)
(** * The life of the server

    The contract of [Server] with the program that runs it, as a state machine
    without messages, sessions or mailboxes: when a server may be run, when it
    listens, how many handlers may be in progress, what [stop] waits for and
    what can bring the process down. Every step of the server is a step of this
    machine ([server_refines_life]). *)
From S2P Require Import Prelude CppString Json Domain Jwt Mailbox Actor Handlers Runtime RuntimeInv WsSession Gateway HttpRouter HttpNet Config Server ServerThreads Shutdown.

(** ** The machine *)

Inductive stage : Type :=
| Off        (* no thread *)
| On         (* between [run] and [stop] *)
| Draining   (* [stop] waits for the handlers of the network *)
| Halting.   (* [stop] waits for the workers *)

(** [lc_deaf]: the network was stopped at some time. [lc_busy] handlers are in
    the actor system, on [lc_threads] threads of the network; [lc_workers]
    workers have not ended; [lc_ws] and [lc_http] accept operations are pending.
    [lc_up] is false when an exception left a thread. *)
Record life : Type := mkLife {
  lc_stage : stage;
  lc_deaf : bool;
  lc_threads : nat;
  lc_workers : nat;
  lc_busy : nat;
  lc_ws : nat;
  lc_http : nat;
  lc_up : bool
}.

Definition with_busy (b : nat) (l : life) : life :=
  mkLife (lc_stage l) (lc_deaf l) (lc_threads l) (lc_workers l) b (lc_ws l) (lc_http l) (lc_up l).
Definition with_workers (n : nat) (l : life) : life :=
  mkLife (lc_stage l) (lc_deaf l) (lc_threads l) n (lc_busy l) (lc_ws l) (lc_http l) (lc_up l).
Definition with_up (up : bool) (l : life) : life :=
  mkLife (lc_stage l) (lc_deaf l) (lc_threads l) (lc_workers l) (lc_busy l) (lc_ws l) (lc_http l) up.

Definition life_new : life := mkLife Off false 0 0 0 0 0 true.

(** The calls of [main], and what happens on the threads. *)
Inductive life_event : Type :=
| ERun | EStop | EJoin
| EAcceptWs | EAcceptHttp | EHandleWs | EHandleHttp
| EDispatch | EWorker | ERelease.

(** A handler can start: the network was never stopped and has a thread that
    is not busy. *)
Definition hears (l : life) : Prop := lc_deaf l = false /\ lc_busy l < lc_threads l.

(** What each event needs of a life with [threads] and [workers] configured,
    and what it makes of it. *)
Inductive life_move (threads workers : nat) : life_event -> life -> life -> Prop :=
| move_run deaf ws http :
    life_move threads workers ERun (mkLife Off deaf 0 0 0 ws http true)
      (mkLife On deaf threads workers 0 (S ws) (S http) true)
| move_run_again l : lc_stage l = On -> life_move threads workers ERun l l
| move_stop deaf n k b ws http :
    life_move threads workers EStop (mkLife On deaf n k b ws http true)
      (mkLife Draining true n k b ws http true)
| move_stop_again l : lc_stage l = Off -> life_move threads workers EStop l l
| move_drained n k ws http :
    life_move threads workers EJoin (mkLife Draining true n k 0 ws http true)
      (mkLife Halting true 0 k 0 ws http true)
| move_halted ws http :
    life_move threads workers EJoin (mkLife Halting true 0 0 0 ws http true)
      (mkLife Off true 0 0 0 ws http true)
| move_accept_ws l : hears l -> 0 < lc_ws l -> life_move threads workers EAcceptWs l l
| move_accept_http l : hears l -> 0 < lc_http l -> life_move threads workers EAcceptHttp l l
| move_handle_ws l b :
    hears l -> lc_busy l <= b <= S (lc_busy l) ->
    life_move threads workers EHandleWs l (with_busy b l)
| move_handle_http l up : hears l -> life_move threads workers EHandleHttp l (with_up up l)
| move_dispatch l b up :
    b <= lc_busy l <= S b -> 0 < lc_busy l ->
    life_move threads workers EDispatch l (with_up up (with_busy b l))
| move_worker l k up :
    k = lc_workers l \/ lc_stage l = Halting /\ S k = lc_workers l -> 0 < lc_workers l ->
    life_move threads workers EWorker l (with_up up (with_workers k l))
| move_release l : life_move threads workers ERelease l l.

(** Nothing happens in a process that an exception has left. *)
Definition life_step (threads workers : nat) (e : life_event) (l l' : life) : Prop :=
  lc_up l = true /\ life_move threads workers e l l'.

Inductive life_run (threads workers : nat) : list life_event -> life -> life -> Prop :=
| run_none l : life_run threads workers [] l l
| run_event e es l l1 l2 :
    life_step threads workers e l l1 -> life_run threads workers es l1 l2 ->
    life_run threads workers (e :: es) l l2.

(** ** What the server shows of its life *)

Section shows.
Context `{JsonLib, UuidLib, Sha1Lib, BeastLib, LockfreeQueue, ActorOrder} {R : Type}
  `{!MessageRepository R}.

Definition stage_of (s : Server R) : stage :=
  match stopping s with
  | NotStopping => if srv_running s then On else Off
  | JoiningNetwork => Draining
  | JoiningActors => Halting
  end.
Definition working (w : world R) : nat :=
  length (filter (fun wk => is_stopped wk = false) (workers_ w)).
Definition up_of (w : world R) : bool :=
  match terminated w with Some _ => false | None => true end.
Definition life_of (s : Server R) : life :=
  mkLife (stage_of s) (io_stopped (networkThreadPool_ s)) (length (tp_workers (networkThreadPool_ s)))
    (working (actorSystem_ s)) (busy_threads (actorSystem_ s)) (ws_accepts s) (http_accepts s)
    (up_of (actorSystem_ s)).

Definition event_of (o : server_op R) : life_event :=
  match o with
  | OpRun => ERun
  | OpStop => EStop
  | OpJoin => EJoin
  | OpGate (System (WorkerStep _ _)) => EWorker
  | OpGate (System _) => EDispatch
  | OpGate (Connect _) => EAcceptWs
  | OpGate (Session _ _) => EHandleWs
  | OpGate (Destroy _) => ERelease
  | OpHttp (Accepted _) => EAcceptHttp
  | OpHttp _ => EHandleHttp
  end.
End shows.

(** ** Counting *)

Lemma count_insert {A} (f : A -> bool) (l : list A) i x y :
  l !! i = Some x ->
  length (filter (fun a => f a = true) (<[i := y]> l)) + (if f x then 1 else 0) =
  length (filter (fun a => f a = true) l) + (if f y then 1 else 0).
Proof.
  intros Hi. pose proof (lookup_lt_Some _ _ _ Hi) as Hlt.
  rewrite (insert_take_drop _ _ _ Hlt).
  replace (filter (fun a => f a = true) l)
    with (filter (fun a => f a = true) (take i l ++ x :: drop (S i) l))
    by (by rewrite take_drop_middle).
  rewrite !filter_app, !length_app, !filter_cons.
  destruct (f x), (f y); repeat case_decide; try done; cbn; lia.
Qed.

Section counts.
Context `{JsonLib, UuidLib, LockfreeQueueLaws, ActorOrder} {R : Type} `{!MessageRepository R}.
Implicit Types (w : world R).

Lemma count_positive {A} (f : A -> bool) (l : list A) i x :
  l !! i = Some x -> f x = true -> 0 < length (filter (fun a => f a = true) l).
Proof.
  intros Hi Hf. assert (x ∈ filter (fun a => f a = true) l) as Hin.
  { apply list_elem_of_filter. split; [done|]. by eapply list_elem_of_lookup_2. }
  destruct (filter _ l); [by apply elem_of_nil in Hin|cbn; lia].
Qed.

Lemma net_step_busy i c w w' :
  net_step i c w = Some w' ->
  running_ w' = running_ w /\ workers_ w' = workers_ w /\ 0 < busy_threads w /\
  busy_threads w' <= busy_threads w <= S (busy_threads w').
Proof.
  intros [(e & Hi & ->)|(p & s & p' & Hi & Hp & ->)]%net_step_inv; unfold busy_threads; cbn.
  - pose proof (count_positive unfinished _ _ _ Hi eq_refl). split_and!; lia || done.
  - assert (unfinished p = true) as Hu by by destruct p.
    pose proof (count_positive unfinished _ _ _ Hi Hu).
    pose proof (count_insert unfinished _ _ _ p' Hi) as Hc. rewrite Hu in Hc.
    destruct (unfinished p'); split_and!; lia || done.
Qed.

Definition ongoing (wk : worker) : bool := negb (is_stopped wk).

Lemma working_ongoing w : working w = length (filter (fun wk => ongoing wk = true) (workers_ w)).
Proof.
  unfold working, ongoing. f_equal. apply list_filter_iff. intros wk. by destruct (is_stopped wk).
Qed.

Lemma worker_step_working i c w w' :
  worker_step i c w = Some w' ->
  net w' = net w /\ running_ w' = running_ w /\ 0 < working w /\
  (working w' = working w \/ running_ w = false /\ S (working w') = working w).
Proof.
  intros Hs. rewrite !working_ongoing. unfold worker_step in Hs.
  destruct (workers_ w !! i) as [wk|] eqn:Hi; [|done]. cbn in Hs.
  assert (ongoing wk = true) as Ho by by destruct wk.
  pose proof (count_positive ongoing _ _ _ Hi Ho) as Hpos.
  assert (forall wk', ongoing wk' = true ->
    length (filter (fun wk => ongoing wk = true) (<[i := wk']> (workers_ w))) =
    length (filter (fun wk => ongoing wk = true) (workers_ w))) as Hgo.
  { intros wk' Hwk. pose proof (count_insert ongoing _ _ _ wk' Hi) as Hc.
    rewrite Ho, Hwk in Hc. lia. }
  destruct wk as [|[|key rest] b|cls p rest| |]; try done.
  - destruct (running_ w) eqn:Hr; simplify_eq/=.
    + split_and!; [done..|]. left. by apply Hgo.
    + split_and!; [done..|]. right. split; [done|].
      pose proof (count_insert ongoing _ _ _ WStopped Hi) as Hc. cbn in Hc. lia.
  - simplify_eq/=. split_and!; [done..|]. left. apply Hgo. by destruct b.
  - destruct (actors_pop _ _) as [[[[] ?] ?]|]; [..|done]; simplify_eq/=;
      (split_and!; [done..|]; left; by apply Hgo).
  - destruct p; try (match type of Hs with (?o ≫= _) = _ => destruct o as [[]|]; [|done] end);
      simplify_eq/=; (split_and!; [done..|]; left; first [done|by apply Hgo]).
  - simplify_eq/=. split_and!; [done..|]. left. by apply Hgo.
Qed.

(** What a session calls. *)
Lemma call_busy k e sid l w w' :
  session_call k e sid = Some l -> step l w = Some w' ->
  running_ w' = running_ w /\ workers_ w' = workers_ w /\ terminated w' = terminated w /\
  busy_threads w <= busy_threads w' <= S (busy_threads w).
Proof.
  intros Hl Hs. unfold step in Hs. destruct (terminated w) eqn:Ht; [done|].
  destruct e as [| |[]|[]|[]]; cbn in Hl; simplify_eq/=; rewrite ?Ht; unfold busy_threads; cbn;
    (split_and!; try done); rewrite ?filter_app, ?length_app, ?filter_cons; try lia;
    case_decide; cbn; lia.
Qed.
End counts.

(** ** The simulation *)

Section simulation.
Context `{JsonLib, UuidLib, Sha1Lib, BeastLib, LockfreeQueueLaws, ActorOrder} {R : Type}
  `{!MessageRepository R}.
Implicit Types (s : Server R) (w : world R).

Definition configured s : nat * nat :=
  (Z.to_nat (networkThreads (server (config_ s))), Z.to_nat (actorThreads (server (config_ s)))).

Lemma life_eq s s' :
  stage_of s' = stage_of s -> networkThreadPool_ s' = networkThreadPool_ s ->
  ws_accepts s' = ws_accepts s -> http_accepts s' = http_accepts s ->
  life_of s' = with_up (up_of (actorSystem_ s'))
    (with_workers (working (actorSystem_ s')) (with_busy (busy_threads (actorSystem_ s')) (life_of s))).
Proof. intros Hst Hp Hw Hh. unfold life_of. by rewrite Hst, Hp, Hw, Hh. Qed.

Lemma hears_free s : threads_inv s -> free_thread s = true -> hears (life_of s).
Proof.
  intros Hs Hf. pose proof (free_thread_busy _ Hf) as Hb.
  apply andb_prop in Hf as [Hf _]. apply negb_true_iff in Hf. split; [exact Hf|].
  cbn. eapply Nat.lt_le_trans; [exact Hb|]. apply length_filter.
Qed.

Lemma idle_life s :
  threads_inv s -> stopping s = NotStopping -> srv_running s = false ->
  tp_workers (networkThreadPool_ s) = [] /\ workers_ (actorSystem_ s) = [] /\
  busy_threads (actorSystem_ s) = 0 /\ running_ (actorSystem_ s) = false.
Proof.
  intros [_ _ Hb Hph] Hst Hrun. rewrite Hst in Hph. destruct Hph as [Hr Hnil].
  destruct (Hnil Hrun) as [Hp Hw]. unfold serving in Hb. rewrite Hp in Hb. cbn in Hb.
  split_and!; [done|done|lia|congruence].
Qed.

(** While the server runs or drains, no worker ends. *)
Lemma workers_end s :
  threads_inv s -> running_ (actorSystem_ s) = false -> 0 < working (actorSystem_ s) ->
  stage_of s = Halting.
Proof.
  intros [_ _ _ Hph] Hr Hpos. unfold stage_of. destruct (stopping s); [| |done].
  - destruct Hph as [Hrun Hnil]. destruct (Hnil ltac:(congruence)) as [_ Hw].
    unfold working in Hpos. rewrite Hw in Hpos. cbn in Hpos. lia.
  - destruct Hph. congruence.
Qed.

Lemma run_life s :
  threads_inv s -> up_of (actorSystem_ s) = true -> stopping s = NotStopping ->
  life_move (configured s).1 (configured s).2 ERun (life_of s) (life_of (Server_run s)).
Proof.
  intros Hs Hup Hst. unfold Server_run. destruct (srv_running s) eqn:Hrun.
  { apply move_run_again. cbn. unfold stage_of. by rewrite Hst, Hrun. }
  destruct (idle_life s Hs Hst Hrun) as (Hp & Hw & Hb & Hr).
  assert (life_of s = mkLife Off (io_stopped (networkThreadPool_ s)) 0 0 0 (ws_accepts s)
    (http_accepts s) true) as ->.
  { unfold life_of, stage_of, working. by rewrite Hst, Hrun, Hp, Hw, Hb, Hup. }
  match goal with |- life_move _ _ _ _ ?l => assert (l =
    mkLife On (io_stopped (networkThreadPool_ s)) (configured s).1 (configured s).2 0
      (S (ws_accepts s)) (S (http_accepts s)) true) as -> end; [|apply move_run].
  unfold start_step. rewrite Hr.
  unfold life_of, stage_of, working, busy_threads, up_of, actorSystem_ in *. cbn.
  rewrite Hst, Hp, Hw, Hb, Hup. cbn. rewrite list_filter_all, !length_replicate; [done|].
  by apply Forall_replicate.
Qed.

Lemma stop_life s :
  up_of (actorSystem_ s) = true -> stopping s = NotStopping ->
  life_move (configured s).1 (configured s).2 EStop (life_of s) (life_of (Server_stop s)).
Proof.
  intros Hup Hst. unfold Server_stop. destruct (srv_running s) eqn:Hrun; cbn.
  - unfold life_of, stage_of. cbn. rewrite Hst, Hrun. unfold actorSystem_ in *. cbn.
    rewrite Hup. apply move_stop.
  - apply move_stop_again. cbn. unfold stage_of. by rewrite Hst, Hrun.
Qed.

Lemma join_life s s' :
  threads_inv s -> (stopping s <> NotStopping -> deaf s) -> up_of (actorSystem_ s) = true ->
  Server_join s = Some s' ->
  life_move (configured s).1 (configured s).2 EJoin (life_of s) (life_of s').
Proof.
  intros [_ _ Hbusy Hph] Hdeaf Hup [(Hst & Hb & ->)|(Hst & w & Hw & ->)]%server_join_cases;
    rewrite Hst in Hph, Hdeaf; specialize (Hdeaf ltac:(done)); unfold deaf in Hdeaf.
  - unfold life_of, stage_of. cbn. rewrite Hst, Hdeaf.
    unfold working, busy_threads, up_of, actorSystem_ in *. cbn. rewrite Hb, Hup. apply move_drained.
  - destruct Hph as (Hrun & _ & Hp). unfold serving in Hbusy. rewrite Hp in Hbusy. cbn in Hbusy.
    apply stop_join_spec in Hw as (_ & Hall & ->).
    assert (working (actorSystem_ s) = 0) as Hzero.
    { unfold working. rewrite list_filter_none; [done|]. apply Forall_forall. intros wk Hin.
      rewrite forallb_forall in Hall. rewrite (Hall wk); [done|by apply list_elem_of_In]. }
    assert (life_of s = mkLife Halting true 0 0 0 (ws_accepts s) (http_accepts s) true) as ->.
    { unfold life_of, stage_of. rewrite Hst, Hdeaf, Hp, Hup, Hzero. f_equal. lia. }
    match goal with |- life_move _ _ _ _ ?l => assert (l =
      mkLife Off true 0 0 0 (ws_accepts s) (http_accepts s) true) as -> end; [|apply move_halted].
    unfold life_of, stage_of. cbn. rewrite Hrun, Hdeaf, Hp.
    unfold working, busy_threads, up_of, actorSystem_ in *. cbn. rewrite Hup. f_equal. lia.
Qed.

Definition is_session (l : gateway_label) : bool :=
  match l with Session _ _ => true | _ => false end.

Lemma session_life k e s g :
  threads_inv s -> up_of (actorSystem_ s) = true -> free_thread s = true ->
  gateway_step (Session k e) (gate s) = Some g ->
  life_move (configured s).1 (configured s).2 EHandleWs (life_of s) (life_of (with_gate s g)).
Proof.
  intros Hs Hup Ha Hg. rewrite (life_eq s (with_gate s g)) by done.
  unfold actorSystem_ in *. cbn [gate with_gate]. cbn in Hg.
  destruct (connections (gate s) !! k) as [c|]; [|done]. cbn in Hg.
  destruct (own_event e && strand_free c (rt (gate s))); [|done].
  destruct (ws_step e (session c)) as [s1|]; [|done]. cbn in Hg.
  destruct (session_call k e _) as [m|] eqn:Hm.
  - destruct (step m (rt (gate s))) as [w|] eqn:Hw; [|done]. cbn in Hg. simplify_eq. cbn [rt].
    destruct (call_busy _ _ _ _ _ _ Hm Hw) as (Hr & Hwk & Ht & Hb).
    assert (working w = working (rt (gate s))) as -> by (unfold working; by rewrite Hwk).
    assert (up_of w = up_of (rt (gate s))) as -> by (unfold up_of; by rewrite Ht).
    apply (move_handle_ws _ _ (life_of s)); [by apply hears_free|done].
  - destruct (terminated (rt (gate s))); [done|]. cbn in Hg. simplify_eq. cbn [rt].
    apply (move_handle_ws _ _ (life_of s)); [by apply hears_free|cbn; unfold actorSystem_; lia].
Qed.

Lemma gate_life l s g :
  threads_inv s -> up_of (actorSystem_ s) = true -> gate_allowed l s = true ->
  gateway_step l (gate s) = Some g ->
  life_move (configured s).1 (configured s).2 (event_of (R:=R) (OpGate l)) (life_of s)
    (life_of (with_gate s g)).
Proof.
  intros Hs Hup Ha Hg. assert (is_session l = false \/ exists k e, l = Session k e) as [Hl|(k & e & ->)]
    by (destruct l; eauto); [|by eapply session_life].
  rewrite (life_eq s (with_gate s g)) by done. unfold actorSystem_ in *. cbn [gate with_gate].
  destruct l as [m|ok|k e|k]; cbn [gate_allowed] in Ha; cbn in Hg; [| |done|].
  - destruct (internal m); [|done]. cbn in Hg. destruct (step m (rt (gate s))) as [w|] eqn:Hw; [|done].
    cbn in Hg. simplify_eq. cbn [rt]. unfold step in Hw. destruct (terminated _); [done|].
    destruct m as [|i c|i c| | | | | | | |]; try done; cbn [event_of].
    + destruct (net_step_busy _ _ _ _ Hw) as (Hr & Hwk & Hpos & Hb).
      assert (working w = working (rt (gate s))) as Hsame by (unfold working; by rewrite Hwk).
      rewrite Hsame. apply (move_dispatch _ _ (life_of s)); done.
    + destruct (worker_step_working _ _ _ _ Hw) as (Hn & Hr & Hpos & Hk).
      assert (busy_threads w = busy_threads (rt (gate s))) as Hsame by (unfold busy_threads; by rewrite Hn).
      rewrite Hsame. apply (move_worker _ _ (life_of s)); [|done].
      destruct Hk as [|[Hf Hk]]; [by left|]. right. split; [|done]. by apply workers_end.
  - destruct (terminated _) eqn:Ht; [done|]. simplify_eq. cbn [rt event_of].
    apply andb_prop in Ha as [Hf%(hears_free _ Hs) Hacc%Nat.ltb_lt].
    by apply (move_accept_ws _ _ (life_of s)).
  - destruct (connections (gate s) !! k) as [c|]; [|done]. cbn in Hg.
    destruct (released c (rt (gate s))); [|done].
    destruct (step _ (rt (gate s))) as [w|] eqn:Hw; [|done]. cbn in Hg. simplify_eq. cbn [rt event_of].
    unfold step in Hw. destruct (terminated (rt (gate s))) eqn:Ht; [done|]. simplify_eq.
    apply (move_release _ _ (life_of s)).
Qed.

Lemma http_life l s n :
  threads_inv s -> up_of (actorSystem_ s) = true -> http_allowed l s = true ->
  http_net_step (secret_of s) l (http_part s) = Some n ->
  life_move (configured s).1 (configured s).2 (event_of (R:=R) (OpHttp l)) (life_of s)
    (life_of (mkServer (config_ s) (srv_running s) (networkThreadPool_ s)
       (with_world (absorb n (actorSystem_ s)) (gate s)) (http_sessions n)
       (ws_accepts s) (http_accepts s) (stopping s) (srv_log s))).
Proof.
  intros Hs Hup Ha Hn.
  match goal with |- life_move _ _ _ _ (life_of ?s') =>
    assert (life_of s' = with_up (up_of (actorSystem_ s')) (life_of s)) as -> by done end.
  destruct l as [ok|k e|r]; cbn [http_allowed] in Ha; [| |done]; cbn [event_of].
  - apply andb_prop in Ha as [Hf%(hears_free _ Hs) Hacc%Nat.ltb_lt].
    assert (http_ended n = None) as Hend by (cbn in Hn; simplify_eq; by destruct ok).
    assert (with_up (up_of (absorb n (actorSystem_ s))) (life_of s) = life_of s) as Hsame.
    { unfold with_up, life_of. cbn. rewrite Hup. unfold up_of. cbn. by rewrite Hend. }
    unfold actorSystem_ in *. cbn [gate with_world rt]. rewrite Hsame. by apply move_accept_http.
  - apply move_handle_http. by apply hears_free.
Qed.

Lemma server_step_life o s s' :
  threads_inv s -> (stopping s <> NotStopping -> deaf s) -> server_step o s = Some s' ->
  life_step (configured s).1 (configured s).2 (event_of o) (life_of s) (life_of s').
Proof.
  intros Hs Hdeaf Ho. unfold server_step in Ho.
  destruct (terminated (actorSystem_ s)) eqn:Ht; [done|].
  assert (up_of (actorSystem_ s) = true) as Hup by (unfold up_of; by rewrite Ht).
  split; [exact Hup|]. destruct o as [| | |l|l].
  - unfold idle_main in Ho. destruct (stopping s) eqn:Hst; try done. simplify_eq. by apply run_life.
  - unfold idle_main in Ho. destruct (stopping s) eqn:Hst; try done. simplify_eq. by apply stop_life.
  - by apply join_life.
  - destruct (gate_allowed l s) eqn:Ha; [|done].
    destruct (gateway_step l (gate s)) as [g|] eqn:Hg; [|done]. cbn in Ho. simplify_eq.
    by apply gate_life.
  - destruct (http_allowed l s) eqn:Ha; [|done].
    destruct (http_net_step _ l _) as [n|] eqn:Hn; [|done]. cbn in Ho. simplify_eq.
    by apply http_life.
Qed.

Lemma server_steps_life config (r : R) os s s' :
  reached config r s -> server_steps os s = Some s' ->
  life_run (Z.to_nat (networkThreads (server config))) (Z.to_nat (actorThreads (server config)))
    (event_of <$> os) (life_of s) (life_of s').
Proof.
  revert s. induction os as [|o os IH]; intros s Hr Hos; cbn in Hos.
  { simplify_eq. apply run_none. }
  destruct (server_step o s) as [s1|] eqn:Ho; [|done]. cbn in Hos.
  assert (config_ s = config) as Hc.
  { destruct Hr as [os' Hos']. by apply (server_steps_threads _ _ _ (new_threads config r)) in Hos' as [_ ?]. }
  pose proof (server_step_life o s s1 (reached_threads _ _ _ Hr) (reached_deaf _ _ _ Hr) Ho) as Hstep.
  unfold configured in Hstep. rewrite Hc in Hstep.
  eapply run_event; [exact Hstep|]. apply IH; [by eapply reached_step|done].
Qed.

(** C5: the server keeps its contract. Along every run of a server from its
    construction, whatever calls [main] makes and whatever the threads do, each
    step is a step of the machine above. So [run] starts as many threads and
    workers as configured and one accept on each listener, once, and a [run] in
    between does nothing; an accept completes only on a listener that was run,
    and it and every other handler only while the network was never stopped, on
    a thread that is not busy; a worker ends only while [stop] waits for the
    workers; [stop] goes on to the workers when no handler is left in the actor
    system, and returns when no worker is left; and an exception brings the
    process down from a handler or a worker only, after which nothing happens. *)
Theorem server_refines_life config (r : R) os s o s' :
  server_steps os (Server_new config r) = Some s -> server_step o s = Some s' ->
  let threads := Z.to_nat (networkThreads (server config)) in
  let workers := Z.to_nat (actorThreads (server config)) in
  life_run threads workers (event_of <$> os) life_new (life_of s) /\
  life_step threads workers (event_of o) (life_of s) (life_of s').
Proof.
  intros Hos Ho threads workers.
  assert (reached config r (Server_new config r)) as Hnew by by exists [].
  assert (reached config r s) as Hs by by exists os.
  split; [exact (server_steps_life config r os _ s Hnew Hos)|].
  pose proof (server_step_life o s s' (reached_threads _ _ _ Hs) (reached_deaf _ _ _ Hs) Ho) as Hstep.
  unfold configured in Hstep.
  rewrite (proj2 (server_steps_threads _ _ _ (new_threads config r) Hos)) in Hstep. exact Hstep.
Qed.
End simulation.
