(* ===== verification/ServerDelivery.v ===== *)
(** * The server delivers

    What fair schedules do for the actor system ([RuntimeFair]) they do for
    the server around it: the server is a host of the actor system. Once its
    clients send no more texts, everything they sent is stored, or accounted
    for, and shown by HTTP to whoever asks. *)
From S2P Require Import Prelude CppString Json Domain Jwt Mailbox Actor Handlers Runtime RuntimeInv RuntimeFlow RuntimeFair Schedule WsSession Gateway GatewayOrder HttpRouter HttpNet EndToEnd Config Server ServerThreads Shutdown.

Section server_delivery.
Context `{JsonLaws, UuidLaws, Sha1Laws, BeastLib, LockfreeQueueLaws, ActorOrderLaws} {R : Type}
  `{!MessageRepository R, !MessageRepositorySpec}.
Implicit Types (s : Server R) (g : gateway R) (w : world R) (o : server_op R).

(** ** The server as a host *)

Definition thread_of (o : server_op R) : option label :=
  match o with
  | OpGate (System l) => own_thread l
  | _ => None
  end.

(** No text is read from a websocket, and nobody calls [run] or [stop]. *)
Definition quiet_op (o : server_op R) : bool :=
  match o with
  | OpRun | OpStop | OpJoin | OpGate (Session _ (EvRead (Some _))) => false
  | _ => true
  end.

Lemma undisturbed_refl w : undisturbed w w.
Proof. unfold undisturbed. destruct (terminated w) eqn:Ht; [left; by eexists|by right]. Qed.

Lemma undisturbed_step l w w' :
  silent l = true -> thread_label l = false -> step l w = Some w' -> undisturbed w w'.
Proof.
  intros Hl Ht Hs. pose proof (silent_undisturbed l w Hl Ht) as Hu. unfold tick in Hu.
  by rewrite Hs in Hu.
Qed.

(** A step of the gateway that is not one of a thread. *)
Lemma quiet_gateway l g g' :
  match l with System _ | Session _ (EvRead (Some _)) => False | _ => True end ->
  gateway_step l g = Some g' -> undisturbed (rt g) (rt g').
Proof.
  intros Hl Hs. destruct l as [m|ok|k e|k]; cbn in Hs; [done|..].
  - destruct (terminated (rt g)); [done|]. simplify_eq. apply undisturbed_refl.
  - destruct (connections g !! k) as [c|]; [|done]. cbn in Hs.
    destruct (own_event e && _); [|done]. destruct (ws_step e _) as [sn|]; [|done]. cbn in Hs.
    destruct (session_call k e _) as [m|] eqn:Hm.
    + destruct (step m (rt g)) as [w|] eqn:Hw; [|done]. cbn in Hs. simplify_eq. cbn.
      eapply undisturbed_step; [..|exact Hw]; destruct e as [| |[]|[]|[]]; by simplify_eq/=.
    + destruct (terminated (rt g)); [done|]. cbn in Hs. simplify_eq. apply undisturbed_refl.
  - destruct (connections g !! k) as [c|]; [|done]. cbn in Hs.
    destruct (released c _); [|done].
    destruct (step _ (rt g)) as [w|] eqn:Hw; [|done]. cbn in Hs. simplify_eq. cbn.
    by eapply (undisturbed_step (Expire (transport_of k))).
Qed.

Lemma gate_turn l s :
  match l with System _ | Session _ (EvRead (Some _)) => False | _ => True end ->
  undisturbed (actorSystem_ s) (actorSystem_ (tick server_step (OpGate l) s)).
Proof.
  intros Hl. unfold tick, server_step. destruct (terminated _); [apply undisturbed_refl|].
  destruct (gate_allowed l s); [|apply undisturbed_refl].
  destruct (gateway_step l (gate s)) as [g|] eqn:Hg; [by apply quiet_gateway in Hg|].
  apply undisturbed_refl.
Qed.

Lemma http_turn l s : undisturbed (actorSystem_ s) (actorSystem_ (tick server_step (OpHttp l) s)).
Proof.
  unfold tick, server_step. destruct (terminated _) eqn:Ht; [apply undisturbed_refl|].
  destruct (http_allowed l s); [|apply undisturbed_refl].
  destruct (http_net_step _ l _) as [n|]; [|apply undisturbed_refl]. cbn.
  unfold undisturbed, actorSystem_, absorb. cbn.
  destruct (http_ended n); [left; by eexists|by right].
Qed.

(** Only the threads make steps of their own. *)
Lemma system_turn l s :
  match own_thread l with
  | Some t => thread_label t = true /\
      actorSystem_ (tick server_step (OpGate (System l)) s) = tick step t (actorSystem_ s)
  | None => undisturbed (actorSystem_ s) (actorSystem_ (tick server_step (OpGate (System l)) s))
  end.
Proof.
  unfold tick, server_step, own_thread. destruct (thread_label l) eqn:Hl.
  - split; [done|]. destruct (terminated (actorSystem_ s)) eqn:Ht; [unfold step; by rewrite Ht|].
    assert (gate_allowed (System l) s = true) as -> by by destruct l. cbn.
    assert (internal l = true) as -> by by destruct l. cbn. unfold actorSystem_ in *.
    by destruct (step l (rt (gate s))).
  - destruct (terminated _); [apply undisturbed_refl|].
    assert (gate_allowed (System l) s = false) as -> by by destruct l. apply undisturbed_refl.
Qed.

Lemma quiet_turn o s :
  quiet_op o = true ->
  match thread_of o with
  | Some t => thread_label t = true /\
      actorSystem_ (tick server_step o s) = tick step t (actorSystem_ s)
  | None => undisturbed (actorSystem_ s) (actorSystem_ (tick server_step o s))
  end.
Proof.
  intros Ho. destruct o as [| | |[l|ok|k e|k]|l]; try done; cbn [thread_of].
  - apply system_turn.
  - by apply gate_turn.
  - apply gate_turn. by destruct e as [| | |[]|].
  - by apply gate_turn.
  - apply http_turn.
Qed.

(** ** The workers of a running server *)

Definition awake w (n : nat) : Prop :=
  running_ w = true /\ length (workers_ w) = n /\ Forall (fun wk => wk <> WStopped) (workers_ w).

Lemma awake_step l w w' n :
  is_thread_step l = true -> step l w = Some w' -> terminated w' = None -> awake w n -> awake w' n.
Proof.
  intros Hl Hs Ht (Hr & Hn & Hw). unfold awake, step in *. destruct (terminated w); [done|].
  destruct l; simplify_eq/=; try done.
  - apply net_step_inv in Hs as [(e & _ & ->)|(p & s & p' & _ & _ & ->)]; done.
  - destruct (worker_frame _ _ _ _ Hr Hs Ht) as (Hr' & _ & wk & -> & Hwk).
    rewrite length_insert. split_and!; [done..|]. by apply Forall_insert.
Qed.

Definition staffed s : Prop :=
  terminated (actorSystem_ s) = None -> stopping s = NotStopping -> srv_running s = true ->
  awake (actorSystem_ s) (Z.to_nat (actorThreads (server (config_ s)))).

Lemma gate_staffed l s g :
  gate_allowed l s = true -> gateway_step l (gate s) = Some g -> terminated (rt (gate s)) = None ->
  staffed s -> staffed (with_gate s g).
Proof.
  intros Hl Hg Ht Hs Ht' Hst Hrun. specialize (Hs Ht Hst Hrun).
  destruct (gateway_step_world _ _ _ Hg) as [Heq|(l' & Hstep & Hl')].
  - unfold awake, actorSystem_ in *. cbn. by rewrite Heq.
  - destruct (gate_allowed_thread _ _ _ Hl Hl') as [Hth _]. by eapply awake_step.
Qed.

Lemma server_step_staffed o s s' :
  threads_inv s -> staffed s -> server_step o s = Some s' -> staffed s'.
Proof.
  intros Hinv Hs Ho. unfold server_step in Ho. destruct (terminated (actorSystem_ s)) eqn:Ht; [done|].
  pose proof (ti_phase _ Hinv) as Hph. destruct o as [| | |l|l].
  - unfold idle_main in Ho. destruct (stopping s) eqn:Hst; try done. simplify_eq.
    unfold Server_run. destruct (srv_running s) eqn:Hrun; [done|].
    destruct Hph as [Hr Hnil]. destruct (Hnil eq_refl) as [_ Hws].
    intros _ _ _. unfold awake, actorSystem_ in *. cbn. unfold start_step. rewrite Hr. cbn.
    rewrite Hws, app_nil_l, length_replicate. split_and!; [done..|]. by apply Forall_replicate.
  - unfold idle_main in Ho. destruct (stopping s) eqn:Hst; try done. simplify_eq.
    unfold Server_stop. by destruct (srv_running s).
  - apply server_join_cases in Ho as [(Hst & _ & ->)|(Hst & w & _ & ->)]; intros ?; [done|].
    intros _ Hrun. cbn in Hrun. rewrite Hst in Hph. destruct Hph as [Hno _]. congruence.
  - destruct (gate_allowed l s) eqn:Hl; [|done].
    destruct (gateway_step l (gate s)) as [g|] eqn:Hg; [|done]. cbn in Ho. simplify_eq.
    by eapply gate_staffed.
  - destruct (http_allowed l s); [|done]. destruct (http_net_step _ l _) as [n|]; [|done].
    cbn in Ho. simplify_eq. intros _ Hst Hrun. by apply Hs.
Qed.

Section served.
Context (config : AppConfig) (r : R) (Hcap : (0 <= mailboxCapacity (server config))%Z).
Let base : list mkey := key_of_row <$> stored r.

Lemma reached_staffed s : reached config r s -> staffed s.
Proof.
  intros Hr. apply (reached_invariant config r (fun s => threads_inv s /\ staffed s)) in Hr; [by apply Hr|..].
  - split; [apply new_threads|done].
  - intros o s1 s2 [Hi Hs] Ho. split; [by apply (server_step_threads o s1 s2)|].
    by eapply server_step_staffed.
Qed.

Lemma reached_config s : reached config r s -> config_ s = config.
Proof. intros [os Hos]. by apply (server_steps_threads os _ _ (new_threads config r)). Qed.

Lemma reached_gate s :
  reached config r s ->
  exists gs, gateway_run gs (gateway_initial (mailboxCapacity (server config)) r) = Some (gate s).
Proof. intros [os Hos]. by apply (server_steps_gate os (Server_new config r)). Qed.

Lemma reached_run s :
  reached config r s ->
  exists ls, run ls (initial (mailboxCapacity (server config)) r) = Some (actorSystem_ s).
Proof.
  intros [gs Hgs]%reached_gate. destruct (gateway_run_inv _ _ _ _ Hgs) as [ls [Hr _ _ _ _]].
  by exists ls.
Qed.

Lemma reached_flow s :
  reached config r s -> flow_inv (mailboxCapacity (server config)) base (actorSystem_ s).
Proof.
  intros [ls Hr]%reached_run. eapply run_flow_inv; [|exact Hr]. by apply flow_inv_initial.
Qed.

Lemma reached_tick o s : reached config r s -> reached config r (tick server_step o s).
Proof.
  intros Hr. unfold tick. destruct (server_step o s) eqn:Hs; [by eapply reached_step|done].
Qed.

Lemma server_over o s : is_Some (terminated (actorSystem_ s)) -> server_step o s = None.
Proof. intros [e He]. unfold server_step. by rewrite He. Qed.

#[local] Instance server_host :
  ActorHost (mailboxCapacity (server config)) base (Server R) (server_op R) := {|
  host_step := server_step;
  host_world := actorSystem_;
  host_thread := thread_of;
  host_quiet o := quiet_op o = true;
  host_inv := reached config r;
  host_flow := reached_flow;
  host_over o s Ht := server_over o s Ht;
  host_stays o s _ := reached_tick o s;
  host_turn o s Ho _ := quiet_turn o s Ho
|}.

(** ** Everything is shown *)

Lemma rest_quiet gs g :
  gateway_run gs (gateway_initial (mailboxCapacity (server config)) r) = Some g ->
  (Z.of_nat (length (connections g)) < two64)%Z -> at_rest (rt g) -> quiet g.
Proof.
  intros Hg Hlen (_ & Hset & Hnet). split; [|done]. intros k c Hk. unfold strand_free.
  destruct (dispatching c) as [i|] eqn:Hd; [|done].
  assert ((view <$> connections g) !! k = Some (Some i, dispatched (session c))) as Hv.
  { rewrite list_lookup_fmap, Hk. cbn. unfold view. by rewrite Hd. }
  destruct (oi_connections _ _ _ (gateway_run_ordered _ _ _ _ Hg Hlen) _ _ _ Hv)
    as (B & _ & p & Hp & _). by rewrite Hp, (Hnet _ _ Hp).
Qed.

(** A request for a history that is read now is answered with all there is. *)
Definition shows (wanted : uuid -> list mkey) s : Prop :=
  forall k req now chat s',
    server_step (OpHttp (Completed k (HRead (ReadRequest req now)))) s = Some s' ->
    terminated (actorSystem_ s') = None ->
    method req = get -> target req = "/chat/" +:+ (uuid_to_string chat +:+ "/messages") ->
    (str_size (uuid_to_string chat) + 15 < two64)%Z -> length (wanted chat) <= 50 ->
    exists h resp close ms, srv_http s' !! k = Some h /\ phase h = HWriting resp close /\
      status resp = 200%Z /\ key_of_message <$> ms ≡ₚ wanted chat /\
      json_dump (foldl (fun out m => json_push_back out (message_json m)) json_empty_array ms) =
        Ok (response_body resp).

(** What a session that reads a request goes on with. *)
Lemma read_request k req now s s' :
  server_step (OpHttp (Completed k (HRead (ReadRequest req now)))) s = Some s' ->
  terminated (actorSystem_ s') = None ->
  exists h resp close r', srv_http s' !! k = Some h /\ phase h = HWriting resp close /\
    route (secret_of s) req now (repository (sh (actorSystem_ s))) = (Ok resp, r').
Proof.
  intros Hs Ht. unfold server_step in Hs. destruct (terminated (actorSystem_ s)); [done|].
  destruct (http_allowed _ s); [|done]. cbn in Hs.
  destruct (srv_http s !! k) as [h0|] eqn:Hk; [|done]. cbn in Hs.
  destruct (phase h0) eqn:Hp; cbn in Hs; [|done..].
  destruct (route _ req now _) as [[resp|e] r'] eqn:Hr; cbn in Hs; simplify_eq.
  eexists _, resp, (need_eof resp), r'. cbn.
  split; [apply list_lookup_insert_eq; by eapply lookup_lt_Some|done].
Qed.

Lemma stored_shows keys s :
  key_of_row <$> stored (repository (sh (actorSystem_ s))) ≡ₚ keys ->
  shows (fun chat => for_chat chat keys) s.
Proof.
  intros Hst k req now chat s' Hs Ht Hm Htg Hsize Hle.
  destruct (read_request _ _ _ _ _ Hs Ht) as (h & resp & close & r' & Hk & Hp & Hroute).
  destruct (chat_listed _ _ _ _ _ _ _ _ Hst Hle Hm Htg Hsize Hroute) as (ms & Hms & Hstatus & Hd).
  exists h, resp, close, ms. done.
Qed.

(** Everything that was stored before the server was built or that a client
    has asked to send. *)
Definition sent s : list mkey := base ++ (key_of_event <$> all_requests (connections (gate s))).

Definition delivered s : Prop :=
  (forall key, queued key (actors_ (sh (actorSystem_ s))) = []) /\
  ((Z.of_nat (length (connections (gate s))) < two64)%Z ->
   (key_of_row <$> stored (repository (sh (actorSystem_ s)))) ++ lost_keys (sh (actorSystem_ s)) ≡ₚ
     sent s /\
   (lost_keys (sh (actorSystem_ s)) = [] -> shows (fun chat => for_chat chat (sent s)) s)).

Lemma rest_delivered s : reached config r s -> at_rest (actorSystem_ s) -> delivered s.
Proof.
  intros Hr Hrest. pose proof Hrest as (Hq & Hset & _). split; [done|]. intros Hlen.
  destruct (reached_gate _ Hr) as [gs Hg]. destruct (reached_flow _ Hr) as (_ & _ & Hcons).
  pose proof (conserved_settled _ _ Hcons Hset) as Hperm.
  destruct (rest_quiet _ _ Hg Hlen Hrest) as [Hfree _]. unfold stored_keys, actorSystem_ in *.
  rewrite (accepted_all _ (gateway_run_ordered _ _ _ _ Hg Hlen) Hlen Hfree) in Hperm.
  split; [exact Hperm|]. intros Hlost. apply stored_shows.
  by rewrite Hlost, app_nil_r in Hperm.
Qed.

(** A schedule of the server without new texts and without a call of [run] or
    [stop], fair to [nw] workers and [nn] dispatches. *)
Record fair_server (nw nn : nat) (schedule : nat -> server_op R) : Prop := {
  fsv_quiet : forall k, quiet_op (schedule k) = true;
  fsv_workers : forall i, i < nw ->
    recurs (fun o => exists c, o = OpGate (System (WorkerStep i c))) schedule;
  fsv_net : forall i, i < nn ->
    recurs (fun o => exists c, o = OpGate (System (NetStep i c))) schedule
}.

Lemma fair_server_host nw nn schedule :
  fair_server nw nn schedule ->
  host_fair (mailboxCapacity (server config)) base nw nn schedule.
Proof.
  intros [Hs Hw Hn]. split; [done|..]; intros i Hi;
    (eapply recurs_mono; [|by eauto]); intros l [c ->]; by exists c.
Qed.

(** A running server has a worker to begin with. *)
Lemma running_fit s :
  reached config r s -> terminated (actorSystem_ s) = None -> stopping s = NotStopping ->
  srv_running s = true -> (1 <= actorThreads (server config))%Z ->
  fit_host (mailboxCapacity (server config)) base (length (workers_ (actorSystem_ s)))
    (length (net (actorSystem_ s))) 0 s.
Proof.
  intros Hr Ht Hst Hrun Hone. split; [done|].
  destruct (reached_staffed _ Hr Ht Hst Hrun) as (Hrunning & Hn & Hwk).
  rewrite (reached_config _ Hr) in Hn.
  split; [done|done|by apply reached_flow|done|done|].
  destruct (lookup_lt_is_Some_2 (workers_ (actorSystem_ s)) 0) as [wk Hi]; [rewrite Hn; lia|].
  exists wk. split; [done|]. exact (Forall_lookup_1 _ _ _ _ Hwk Hi).
Qed.

Lemma delivery_comes s schedule :
  reached config r s -> terminated (actorSystem_ s) = None -> stopping s = NotStopping ->
  srv_running s = true -> (1 <= actorThreads (server config))%Z ->
  fair_server (length (workers_ (actorSystem_ s))) (length (net (actorSystem_ s))) schedule ->
  exists n, forall m, n <= m -> let s' := drive server_step m schedule s in
    is_Some (terminated (actorSystem_ s')) \/ delivered s'.
Proof.
  intros Hr Ht Hst Hrun Hone Hfair%fair_server_host.
  pose proof (running_fit _ Hr Ht Hst Hrun Hone) as Hs.
  destruct (reached_run _ Hr) as [ls Hls].
  destruct (run_measured _ _ _ _ Hcap Hls) as [[e He]|[w0 Hw]]; [congruence|].
  destruct (comes_to_rest _ _ _ _ 0 w0 schedule s Hfair Hs Hw)
    as [n [[e He]|(Hs' & Hrest & w1 & Hw1)]]; exists n; intros m Hle; cbn;
    replace m with (n + (m - n)) by lia; rewrite <- drive_later.
  - left. cbn in He. generalize dependent (drive server_step n schedule s). intros s1 He.
    clear -He. induction (m - n) as [|j IH]; [by exists e|].
    cbn. unfold tick. by rewrite server_over.
  - destruct (rest_stays _ _ _ _ 0 (later n schedule) (m - n) _ w1
      (host_fair_later _ _ _ _ _ _ Hfair) Hs' Hw1 Hrest) as [?|([Hin _] & _ & Hrest')]; [by left|right].
    by apply rest_delivered.
Qed.
End served.

(** C2: whatever clients send is shown in the end. Take any state a server
    reaches in which it runs, with at least one worker configured, and from
    then on any schedule that gives turns to its workers and to the dispatches
    in progress, in which connections may come, write and go and HTTP requests
    be served, but no further text is read. From some turn on, and at every
    turn after it, unless an exception has ended the process, every mailbox is
    empty; with fewer than 2^64 websocket connections, what is stored is, each
    once, what was stored before the server was built and what the clients'
    texts asked to send, but for what a false answer of [send] or of the
    repository accounts for; and if there was none, every request for the
    history of a chat that is read then is answered, if it does not throw,
    with all messages of the chat, provided there are at most 50. *)
Theorem sent_messages_are_shown os config (r : R) s schedule :
  (0 <= mailboxCapacity (server config))%Z ->
  server_steps os (Server_new config r) = Some s -> terminated (actorSystem_ s) = None ->
  stopping s = NotStopping -> srv_running s = true ->
  (1 <= actorThreads (server config))%Z ->
  fair_server (length (workers_ (actorSystem_ s))) (length (net (actorSystem_ s))) schedule ->
  exists n, forall m, n <= m -> let s' := drive server_step m schedule s in
    is_Some (terminated (actorSystem_ s')) \/ delivered r s'.
Proof.
  intros Hcap Hr Ht Hst Hrun Hone Hfair.
  apply (delivery_comes config r Hcap); [by exists os|done..].
Qed.
End server_delivery.
