(* ===== verification/Startup.v ===== *)
(** * Starting the server

    The constructor of the server in [src/infrastructure/network/server.cpp],
    [src/main.cpp] up to its wait for a signal, what a stop can leave in the
    mailboxes, and a concrete server at which the theorems of [Server],
    [ServerThreads], [ServerLife], [ServerDelivery] and this file apply. *)
From S2P Require Import Prelude CppString Json Domain Reference Jwt Mailbox Actor Handlers Runtime RuntimeInv RuntimeFlow RuntimeRuns WsSession Gateway GatewayOrder HttpRouter HttpNet EndToEnd Postgres Logging Schedule Config Server ServerHistory ServerThreads Shutdown ServerLife ServerDelivery Acceptor.

(** ** Mail at the end *)

Section abandoned.
Context `{JsonLib, UuidLib, LockfreeQueue, ActorOrder} {R : Type} `{!MessageRepository R}.

(** Stopping leaves mail behind. When the flag falls while the only
    worker is at its loop condition, that worker ends without a look at the
    mailboxes, and [stop] returns with every envelope still queued and
    nothing stored. *)
Theorem stop_abandons_queued (w : world R) c :
  terminated w = None -> workers_ w = [WTop] ->
  exists w', run [StopRequest; WorkerStep 0 c; StopJoin] w = Some w' /\
    workers_ w' = [] /\ running_ w' = false /\
    actors_ (sh w') = actors_ (sh w) /\ repository (sh w') = repository (sh w).
Proof.
  intros Ht Hw. eexists. split.
  - unfold run, step, worker_step. rewrite Ht. cbn. rewrite Hw. cbn.
    unfold stop_join. cbn. repeat (rewrite ?Ht, ?Hw; cbn). reflexivity.
  - done.
Qed.
End abandoned.

(** ** The constructor of the server and main.cpp *)

Section startup.
Context `{JsonLib, UuidLib, Sha1Lib, BeastLib, LockfreeQueue, ActorOrder}.
Context `{YamlLib, PqxxLib, AsioLib, SpdlogLaws}.
Context {R : Type} `{!MessageRepository R}.

Definition Server_construct (config : AppConfig) (r : R) : result (Server R) :=
  address ← make_address (host (server config));
  _ ← WebSocketListener_open (address, wsPort (server config));
  _ ← HttpListener_open (address, httpPort (server config));
  Ok (Server_new config r).

(** [main] up to the wait for a signal; [connect] makes the repository on a
    pool, here from the connection the pool was built with. *)
Definition main_start (connect : PostgresPool -> R) (path : string) : M spd_state (Server R) :=
  config ← mlift (fromFile path);
  _ ← createDefault (logging_level config);
  pool ← mlift (PostgresPool_new (connection_string config) (poolSize (database config)));
  server ← mlift (Server_construct config (connect pool));
  mret (Server_run server).

(** C39: [main] starts a whole server or none. When nothing throws on the
    way, the configuration loaded, a pool that is not empty was built from
    it, the acceptor of each listener was opened, bound and put to listen on
    its own port of the configured address without an error, each listener has
    its one accept operation pending, every configured network thread serves and
    every configured worker is at its loop, over four actors with empty
    mailboxes of the configured capacity and the repository on that pool; and
    the logger of the process stands at the configured level. *)
Theorem main_starts_whole connect path s l l' :
  main_start connect path l = (Ok s, l') ->
  exists config pool, fromFile path = Ok config /\ poolSize (database config) <> 0%Z /\
    PostgresPool_new (connection_string config) (poolSize (database config)) = Ok pool /\
    (exists address, make_address (host (server config)) = Ok address /\
       Forall (fun ec => ec = None) (opening (address, wsPort (server config))) /\
       Forall (fun ec => ec = None) (opening (address, httpPort (server config)))) /\
    config_ s = config /\ srv_running s = true /\ ws_accepts s = 1 /\ http_accepts s = 1 /\
    stopping s = NotStopping /\ connections (gate s) = [] /\ srv_http s = [] /\
    tp_workers (networkThreadPool_ s) =
      replicate (Z.to_nat (networkThreads (server config))) true /\
    workers_ (actorSystem_ s) = replicate (Z.to_nat (actorThreads (server config))) WTop /\
    actors_ (sh (actorSystem_ s)) = server_actors (mailboxCapacity (server config)) /\
    repository (sh (actorSystem_ s)) = connect pool /\
    (spdlog_get loggerName l' ≫= fun g => level_of g l') =
      Some (level_from_str (logging_level config)).
Proof.
  unfold main_start, mbind, M_bind, mlift, mret, M_ret. intros Hm.
  destruct (fromFile path) as [config|] eqn:Hc; [|done].
  destruct (createDefault_spec (logging_level config) l) as (g & l1 & Hg & Hget & Hlevel & _).
  rewrite Hg in Hm.
  destruct (PostgresPool_new _ _) as [pool|] eqn:Hp; [|done].
  destruct (Server_construct _ _) as [srv|] eqn:Hs; [|done]. simplify_eq.
  unfold Server_construct in Hs.
  apply result_bind_inv in Hs as (address & Haddress & Hs).
  apply result_bind_inv in Hs as ([] & Hws & Hs).
  apply result_bind_inv in Hs as ([] & Hhttp & [= <-]).
  exists config, pool. split; [done|].
  split; [intros Hz; unfold PostgresPool_new in Hp; by rewrite Hz in Hp|]. split; [done|].
  split; [|split_and!; try done; by rewrite Hget].
  exists address. split_and!; [done|by apply listener_opened|].
  rewrite (proj1 (listeners_agree _)) in Hhttp. by apply listener_opened.
Qed.
End startup.

(** ** A concrete server *)

Module ServerRun.
#[local] Existing Instances ref_json ref_json_laws ref_uuid ref_uuid_laws.
#[local] Existing Instances list_queue list_queue_laws.
#[local] Existing Instances Concrete.key_order Concrete.key_order_laws.
#[local] Existing Instances TokenRun.text_sha1 TokenRun.text_sha1_laws HttpRuns.keep_open.

Definition config : AppConfig :=
  mkAppConfig (mkServerConfig "0.0.0.0" 8080 8081 2 1 1 8)
    (mkDatabaseConfig "db" 5432 "svitock" "svitock" "svitock" 16)
    (mkSecurityConfig HttpRuns.secret 3600) default_level.
Definition c0 : choice := mkChoice uuid_a 0%Z.
Definition worker_turns (n : nat) : list (server_op (list Message)) :=
  replicate n (OpGate (System (WorkerStep 0 c0))).

(** One client by websocket and one by HTTP: the message of the first is
    stored, and the second asks for a history. *)
Definition day : list (server_op (list Message)) :=
  [OpRun; OpGate (Connect true); OpGate (Session 0 (EvAccept None)); OpHttp (Accepted true);
   OpGate (Session 0 (EvRead (Some (Concrete.raw "hi"))));
   OpGate (System (NetStep 0 c0))] ++ worker_turns 60 ++
  [OpHttp (Completed 0 (HRead (ReadRequest HttpRuns.history 1))); OpHttp (Completed 0 (HWrite true))].
(** The end of the threads, the joins, and a second start. *)
Definition again : list (server_op (list Message)) :=
  OpJoin :: worker_turns 5 ++ [OpJoin; OpRun].

Definition after (os : list (server_op (list Message))) : Server (list Message) :=
  default (Server_new config []) (server_steps os (Server_new config [])).

Definition completes (os : list (server_op (list Message))) : bool :=
  match server_steps os (Server_new config []) with Some _ => true | None => false end.

Lemma ops_after os :
  completes os = true -> server_steps os (Server_new config []) = Some (after os).
Proof. unfold completes, after. by destruct (server_steps os _). Qed.

Example a_day_of_the_server :
  completes day = true /\ length (repository (sh (actorSystem_ (after day)))) = 1 /\
  completes (day ++ OpStop :: again) = true.
Proof. split_and!; by vm_compute. Qed.

Definition whole : list (server_op (list Message)) := day ++ OpStop :: again.

Lemma whole_run : server_steps whole (Server_new config []) = Some (after whole).
Proof. apply ops_after. by vm_compute. Qed.

Lemma server_refines_parts_witness :
  (exists gs, gateway_run gs (gateway_initial 8 []) = Some (gate (after whole))) /\
  length (connections (gate (after whole))) = 1 /\
  (length ∘ responses) <$> srv_http (after whole) = [1].
Proof.
  destruct (server_refines_parts whole config [] (after whole) whole_run) as [Hg _].
  split; [exact Hg|]. split; by vm_compute.
Defined.

(** After a stop and a second start: On, and deaf. *)
Lemma server_refines_life_witness :
  exists s', server_step OpStop (after whole) = Some s' /\
    life_run 2 1 (event_of <$> whole) life_new (life_of (after whole)) /\
    life_step 2 1 EStop (life_of (after whole)) (life_of s') /\
    lc_deaf (life_of (after whole)) = true /\ lc_ws (life_of (after whole)) = 2.
Proof.
  assert (match server_step OpStop (after whole) with Some _ => true | None => false end = true)
    as Hb by by vm_compute.
  destruct (server_step OpStop (after whole)) as [s'|] eqn:Ho; [|discriminate].
  exists s'. split; [reflexivity|].
  destruct (server_refines_life config [] whole (after whole) OpStop s' whole_run Ho) as [Hrun Hstep].
  split; [exact Hrun|]. split; [exact Hstep|]. split; by vm_compute.
Defined.

Definition asker : HttpSession (R:=list Message) :=
  default (http_run []) (srv_http (after day) !! 0).
Definition told : response := default (mkResponse 0 EmptyString EmptyString) (responses asker !! 0).

Lemma asker_at : srv_http (after day) !! 0 = Some asker.
Proof.
  assert (match srv_http (after day) with [_] => true | _ => false end = true) as Hb
    by by vm_compute.
  unfold asker. by destruct (srv_http (after day)) as [|? []].
Qed.

Lemma told_at :
  HttpRouter.requests asker !! 0 = Some HttpRuns.history /\ responses asker !! 0 = Some told /\
  response_body told = History.listed.
Proof. split_and!; by vm_compute. Qed.

Lemma histories_are_genuine_witness :
  exists ms, json_dump (foldl (fun out m => json_push_back out (message_json m))
      json_empty_array ms) = Ok History.listed /\
    key_of_message <$> ms ⊆+ [(Ok uuid_a, Ok uuid_b, "hi")].
Proof.
  destruct told_at as (Hreq & Hresp & Hbody).
  destruct (histories_are_genuine day config [] (after day) 0 asker 0 HttpRuns.history told uuid_a)
    as (ms & _ & _ & Hd & Hsub).
  - by vm_compute.
  - apply ops_after. by vm_compute.
  - by vm_compute.
  - exact asker_at.
  - exact Hreq.
  - exact Hresp.
  - reflexivity.
  - by vm_compute.
  - by vm_compute.
  - rewrite Hbody in Hd. exists ms. split; [exact Hd|].
    match type of Hsub with _ ⊆+ ?wanted =>
      assert (wanted = [(Ok uuid_a, Ok uuid_b, "hi")]) as Hw
        by (apply (bool_decide_eq_true_1 _); by vm_compute)
    end.
    rewrite Hw in Hsub. exact Hsub.
Defined.

Lemma threads_within_configuration_witness :
  length (tp_workers (networkThreadPool_ (after whole))) = 2 /\
  length (workers_ (actorSystem_ (after whole))) = 1 /\
  busy_threads (actorSystem_ (after whole)) <= 2.
Proof.
  split; [by vm_compute|]. split; [by vm_compute|].
  refine (Nat.le_trans _ _ _ (proj1 (proj2 (proj2 (threads_within_configuration whole config []
    (after whole) whole_run)))) _).
  apply Nat.leb_le. by vm_compute.
Defined.

Lemma again_runs :
  match server_steps (OpStop :: again) (after day) with
  | Some s => srv_running s && Nat.eqb (length (tp_workers (networkThreadPool_ s))) 2
  | None => false
  end = true.
Proof. by vm_compute. Qed.

(** Running, with both threads, and deaf. *)
Lemma stopped_server_stays_deaf_witness :
  exists s', server_steps (OpStop :: again) (after day) = Some s' /\ srv_running s' = true /\
  length (tp_workers (networkThreadPool_ s')) = 2 /\ free_thread s' = false.
Proof.
  pose proof again_runs as Hrun.
  destruct (server_steps (OpStop :: again) (after day)) as [s'|] eqn:Hs; [|discriminate].
  apply andb_prop in Hrun as [Hrun Htwo]. exists s'. split; [reflexivity|]. split; [exact Hrun|].
  split; [exact (proj1 (Nat.eqb_eq _ _) Htwo)|].
  refine (proj1 (proj2 (stopped_server_stays_deaf again (after day) s' _ Hs))). by vm_compute.
Defined.

(** A text was read and its handler has not begun; from then on connections
    are accepted while everyone takes turns. *)
Definition asked : list (server_op (list Message)) := take 5 day.
Definition listening : nat -> server_op (list Message) :=
  rounds (OpHttp (Accepted true))
    [OpGate (System (NetStep 0 c0)); OpGate (System (WorkerStep 0 c0))].

Lemma listening_fair : fair_server 1 1 listening.
Proof.
  assert (forall o, o ∈ [OpHttp (Accepted true); OpGate (System (NetStep 0 c0));
    OpGate (System (WorkerStep 0 c0))] -> recurs (fun o' => o' = o) listening) as Ho
    by (intros o; apply rounds_recurs).
  split; [|intros [|i] Hi; [|lia]..].
  - intros k. apply (rounds_Forall (fun o => quiet_op o = true)). by repeat constructor.
  - eapply recurs_mono; [|apply (Ho (OpGate (System (WorkerStep 0 c0)))); set_solver].
    intros o ->. by eexists.
  - eapply recurs_mono; [|apply (Ho (OpGate (System (NetStep 0 c0)))); set_solver].
    intros o ->. by eexists.
Qed.

Lemma sent_messages_are_shown_witness :
  length (all_requests (connections (gate (after asked)))) = 1 /\
  length (repository (sh (actorSystem_ (after asked)))) = 0 /\
  exists n, forall m, n <= m -> let s' := drive server_step m listening (after asked) in
    is_Some (terminated (actorSystem_ s')) \/ delivered [] s'.
Proof.
  split; [by vm_compute|]. split; [by vm_compute|].
  refine (sent_messages_are_shown asked config [] (after asked) listening _ _ _ _ _ _ _).
  - by vm_compute.
  - apply ops_after. by vm_compute.
  - by vm_compute.
  - by vm_compute.
  - by vm_compute.
  - by vm_compute.
  - assert (length (net (actorSystem_ (after asked))) = 1) as -> by by vm_compute.
    assert (length (workers_ (actorSystem_ (after asked))) = 1) as -> by by vm_compute.
    exact listening_fair.
Defined.

Example the_message_arrives :
  length (repository (sh (actorSystem_ (drive server_step 200 listening (after asked))))) = 1.
Proof. by vm_compute. Qed.

(** Stopped while a handler is in [dispatch], with everyone taking turns. *)
Definition interrupted : list (server_op (list Message)) := take 5 day ++ [OpStop].
Definition turns : nat -> server_op (list Message) :=
  rounds OpJoin [OpGate (System (NetStep 0 c0)); OpGate (System (WorkerStep 0 c0))].

Lemma turns_fair : fair_to_stop 1 1 turns.
Proof.
  assert (forall o, o ∈ [OpJoin; OpGate (System (NetStep 0 c0));
    OpGate (System (WorkerStep 0 c0))] -> recurs (fun o' => o' = o) turns) as Ho
    by (intros o; apply rounds_recurs).
  split; [intros [|i] Hi; [|lia]..|].
  - eapply recurs_mono; [|apply (Ho (OpGate (System (NetStep 0 c0)))); set_solver].
    intros o ->. eexists. split; [done|by eexists].
  - eapply recurs_mono; [|apply (Ho (OpGate (System (WorkerStep 0 c0)))); set_solver].
    intros o ->. eexists. split; [done|by eexists].
  - apply Ho. set_solver.
Qed.

Lemma stop_returns_witness :
  unfinished <$> net (actorSystem_ (after interrupted)) = [true] /\
  exists n, let s' := drive server_step n turns (after interrupted) in
    is_Some (terminated (actorSystem_ s')) \/
    stopping s' = NotStopping /\ srv_running s' = false /\
    tp_workers (networkThreadPool_ s') = [] /\ workers_ (actorSystem_ s') = [] /\
    Server_destroy s' = Some s' /\ last (srv_log s') = Some (info, "server stopped", []).
Proof.
  split; [by vm_compute|].
  refine (stop_returns interrupted config [] (after interrupted) turns _ _ _ _).
  - by vm_compute.
  - apply ops_after. by vm_compute.
  - by vm_compute.
  - assert (length (net (actorSystem_ (after interrupted))) = 1) as -> by by vm_compute.
    assert (length (workers_ (actorSystem_ (after interrupted))) = 1) as -> by by vm_compute.
    exact turns_fair.
Defined.

(** With the message of [Concrete.received] in the mailbox. *)
Lemma stop_abandons_queued_witness :
  exists w', run [StopRequest; WorkerStep 0 c0; StopJoin]
      (Concrete.after 8 (Start 1 :: Concrete.received)) = Some w' /\
    length (queued ActorType.message (actors_ (sh w'))) = 1 /\ workers_ w' = [].
Proof.
  destruct (stop_abandons_queued (Concrete.after 8 (Start 1 :: Concrete.received)) c0)
    as (w' & Hr & Hw & _ & Ha & _).
  - by vm_compute.
  - apply Concrete.only_top. by vm_compute.
  - exists w'. split; [exact Hr|]. split; [|exact Hw]. rewrite Ha. by vm_compute.
Defined.

(** A file with the database section only. *)
#[local] Instance paths : YamlLib := {|
  ynode := list string;
  LoadFile _ := Ok [];
  y_index n k := Ok (n ++ [k]);
  y_as_string n := if bool_decide (head n = Some "database") then Some "svitock" else None;
  y_as_uint w n :=
    if bool_decide (n = ["database"; "port"]) then Some (5432 `mod` 2 ^ w)%Z else None
|}.
#[local] Instance open_ports : AsioLib := {|
  make_address a := Ok a;
  acceptor_open _ := None;
  acceptor_set_reuse _ := None;
  acceptor_bind _ := None;
  acceptor_listen _ := None
|}.
#[local] Existing Instance TableDb.table_db.
#[local] Existing Instances LoggerRun.table_spdlog LoggerRun.table_spdlog_laws.

Lemma main_starts_whole_witness :
  exists s l, main_start (fun _ => [] : list Message) "config/server.yaml" ∅ = (Ok s, l) /\
    srv_running s = true /\ length (workers_ (actorSystem_ s)) = 8 /\
    (spdlog_get loggerName l ≫= fun g => level_of g l) = Some default_level.
Proof.
  destruct (main_start (fun _ => [] : list Message) "config/server.yaml" ∅) as [[s|e] l] eqn:Hm;
    [|discriminate].
  destruct (main_starts_whole _ _ _ _ _ Hm)
    as (cfg & pool & Hc & _ & _ & _ & _ & Hrun & _ & _ & _ & _ & _ & _ & Hw & _ & _ & Hl).
  exists s, l. split; [reflexivity|]. split; [exact Hrun|]. split.
  - rewrite Hw, length_replicate. by injection Hc as <-.
  - refine (eq_trans Hl _). by injection Hc as <-.
Defined.
End ServerRun.
