(* ===== verification/MainLoop.v ===== *)
(** * The signal handler and the wait of [main]

    [src/main.cpp]: after [server.run()] the main thread waits on a condition
    variable for [stopped], which the handler of SIGINT and SIGTERM sets under
    the same mutex. A handler runs on some thread of the process and that
    thread goes on only when the handler has returned. *)
From S2P Require Import Prelude.

(** Where the main thread is: in [server.run()], before [unique_lock], evaluating the predicate
    with the mutex held, asleep in [wait], woken and about to take the mutex
    again, in [server.stop()] with the mutex held, or returned. *)
Inductive main_phase : Type := MRun | MLock | MCheck | MWait | MWoken | MStop | MReturned.

#[export] Instance main_phase_eq_dec : EqDecision main_phase.
Proof. solve_decision. Defined.

(** Where a call of [onSignal] is: before [scoped_lock], inside the block, or
    after it. *)
Inductive handler_phase : Type := HLock | HSet | HNotify.

(** Thread 0 is the main thread. [handlers] are the calls of [onSignal] that
    have not returned, with their threads, oldest first. *)
Record main_state : Type := mkMain {
  phase : main_phase;
  stopped : bool;
  handlers : list (nat * handler_phase)
}.

Definition main_holds (p : main_phase) : bool :=
  match p with MCheck | MStop => true | _ => false end.
Definition handler_holds (h : nat * handler_phase) : bool :=
  match h.2 with HSet => true | _ => false end.
Definition mutex_free (m : main_state) : bool :=
  negb (main_holds (phase m)) && negb (existsb handler_holds (handlers m)).

(** No call of the handler interrupts thread [t], or the call before [hs]. *)
Definition uninterrupted (t : nat) (hs : list (nat * handler_phase)) : bool :=
  negb (existsb (fun h => Nat.eqb h.1 t) hs).

Inductive main_label : Type :=
| MainStep
| SpuriousWake
| Signal (t : nat)
| HandlerStep (j : nat).

(** [main] from [server.run()] to its end, [cv.wait(lock, predicate)] step by
    step. *)
Definition main_step (m : main_state) : option main_state :=
  if negb (uninterrupted 0 (handlers m)) then None
  else
    match phase m with
    | MRun => Some (mkMain MLock (stopped m) (handlers m))
    | MLock | MWoken =>
        if mutex_free m then Some (mkMain MCheck (stopped m) (handlers m)) else None
    | MCheck => Some (mkMain (if stopped m then MStop else MWait) (stopped m) (handlers m))
    | MWait => None
    | MStop => Some (mkMain MReturned (stopped m) (handlers m))
    | MReturned => None
    end.

(** The [j]-th of the calls of the handler. *)
Definition onSignal (j : nat) (m : main_state) : option main_state :=
  '(t, p) ← handlers m !! j;
  if negb (uninterrupted t (drop (S j) (handlers m))) then None
  else
    match p with
    | HLock =>
        if mutex_free m
        then Some (mkMain (phase m) (stopped m) (<[j := (t, HSet)]> (handlers m)))
        else None
    | HSet => Some (mkMain (phase m) true (<[j := (t, HNotify)]> (handlers m)))
    | HNotify =>
        Some (mkMain (match phase m with MWait => MWoken | p => p end) (stopped m)
                (delete j (handlers m)))
    end.

Definition process_step (l : main_label) (m : main_state) : option main_state :=
  match phase m with
  | MReturned => None
  | _ =>
      match l with
      | MainStep => main_step m
      | SpuriousWake =>
          match phase m with
          | MWait => if uninterrupted 0 (handlers m)
                     then Some (mkMain MWoken (stopped m) (handlers m)) else None
          | _ => None
          end
      | Signal t => Some (mkMain (phase m) (stopped m) (handlers m ++ [(t, HLock)]))
      | HandlerStep j => onSignal j m
      end
  end.

Fixpoint process_run (ls : list main_label) (m : main_state) : option main_state :=
  match ls with
  | [] => Some m
  | l :: ls' => m' ← process_step l m; process_run ls' m'
  end.

(** The main thread when the handler is installed. *)
Definition process_initial : main_state := mkMain MRun false [].

(** ** Invariants *)

(** The process stops for a signal only, and a set flag is not slept over:
    who set it has yet to notify. *)
Record main_inv (ls : list main_label) (m : main_state) : Prop := {
  mi_signal : handlers m <> [] \/ stopped m = true -> exists t, Signal t ∈ ls;
  mi_stop : phase m = MStop \/ phase m = MReturned -> stopped m = true;
  mi_awake : phase m = MWait -> stopped m = true ->
    exists j t, handlers m !! j = Some (t, HNotify)
}.

Lemma onSignal_inv j m m' :
  onSignal j m = Some m' -> exists t p, handlers m !! j = Some (t, p) /\
    ((p = HLock /\ m' = mkMain (phase m) (stopped m) (<[j := (t, HSet)]> (handlers m)) /\
        mutex_free m = true) \/
     (p = HSet /\ m' = mkMain (phase m) true (<[j := (t, HNotify)]> (handlers m))) \/
     (p = HNotify /\ m' = mkMain (match phase m with MWait => MWoken | q => q end) (stopped m)
                           (delete j (handlers m)))).
Proof.
  unfold onSignal. intros Hs. destruct (handlers m !! j) as [[t p]|] eqn:Hj; [|done].
  cbn in Hs. destruct (uninterrupted _ _); [|done]. exists t, p. split; [done|]. cbn in Hs.
  destruct p; [|simplify_eq; auto..]. destruct (mutex_free m) eqn:Hf; [|done].
  simplify_eq. auto.
Qed.

(** The labels of a step that was taken. *)
Lemma process_step_cases l m m' :
  process_step l m = Some m' ->
  match l with
  | MainStep =>
      handlers m' = handlers m /\ stopped m' = stopped m /\
      (phase m' = MStop \/ phase m' = MReturned -> stopped m = true \/ phase m = MStop) /\
      (phase m' = MWait -> stopped m = false)
  | SpuriousWake => phase m' = MWoken /\ handlers m' = handlers m /\ stopped m' = stopped m
  | Signal t => m' = mkMain (phase m) (stopped m) (handlers m ++ [(t, HLock)])
  | HandlerStep j => onSignal j m = Some m'
  end.
Proof.
  unfold process_step. intros Hs. destruct l as [| |t|j].
  - assert (main_step m = Some m') as Hm by (by destruct (phase m)). clear Hs.
    unfold main_step in Hm. destruct (uninterrupted 0 (handlers m)); [|done]. cbn in Hm.
    destruct (phase m) eqn:Hp; try done; try (destruct (mutex_free m); [|done]); simplify_eq/=;
      destruct (stopped m); intuition congruence.
  - destruct (phase m); try done. destruct (uninterrupted _ _); [|done]. by simplify_eq/=.
  - destruct (phase m); by simplify_eq.
  - by destruct (phase m).
Qed.

Lemma process_step_signal l m m' :
  process_step l m = Some m' -> handlers m' <> [] \/ stopped m' = true ->
  (handlers m <> [] \/ stopped m = true) \/ exists t, l = Signal t.
Proof.
  intros Hs%process_step_cases Hm'. destruct l as [| |t|j].
  - destruct Hs as (Hh & Hst & _). rewrite Hh, Hst in Hm'. by left.
  - destruct Hs as (_ & Hh & Hst). rewrite Hh, Hst in Hm'. by left.
  - right. by exists t.
  - apply onSignal_inv in Hs as (t & p & Hj & _). left; left. intros Hnil.
    by rewrite Hnil in Hj.
Qed.

Lemma process_step_stop l m m' :
  process_step l m = Some m' ->
  (phase m = MStop \/ phase m = MReturned -> stopped m = true) ->
  phase m' = MStop \/ phase m' = MReturned -> stopped m' = true.
Proof.
  intros Hs%process_step_cases Hstop Hm'. destruct l as [| |t|j].
  - destruct Hs as (_ & -> & Hp & _). destruct (Hp Hm'); auto.
  - destruct Hs as (Hp & _). rewrite Hp in Hm'. by destruct Hm'.
  - subst m'. by apply Hstop.
  - apply onSignal_inv in Hs as (t & p & Hj & [(-> & -> & _)|[(-> & ->)|(-> & ->)]]); cbn in *;
      [by apply Hstop|done|].
    apply Hstop. destruct (phase m); auto; by destruct Hm'.
Qed.

Lemma process_step_awake l m m' :
  process_step l m = Some m' ->
  (phase m = MWait -> stopped m = true -> exists j t, handlers m !! j = Some (t, HNotify)) ->
  phase m' = MWait -> stopped m' = true -> exists j t, handlers m' !! j = Some (t, HNotify).
Proof.
  intros Hs%process_step_cases Hawake. destruct l as [| |t|j].
  - destruct Hs as (_ & -> & _ & Hp). intros Hm' Hst. rewrite Hp in Hst; done.
  - destruct Hs as (-> & _). done.
  - subst m'.
    cbn. intros Hp Hst. destruct (Hawake Hp Hst) as (j & t' & Hj). exists j, t'.
    by apply lookup_app_l_Some.
  - apply onSignal_inv in Hs as (t & p & Hj & [(-> & -> & _)|[(-> & ->)|(-> & ->)]]); cbn.
    + intros Hp Hst. destruct (Hawake Hp Hst) as (i & t' & Hi). exists i, t'.
      rewrite list_lookup_insert_ne; [done|]. intros ->. by simplify_eq.
    + intros _ _. exists j, t. apply list_lookup_insert_eq. by eapply lookup_lt_Some.
    + by destruct (phase m).
Qed.

Lemma process_step_inv ls l m m' :
  main_inv ls m -> process_step l m = Some m' -> main_inv (ls ++ [l]) m'.
Proof.
  intros [Hsig Hstop Hawake] Hs. split.
  - intros Hm'. destruct (process_step_signal _ _ _ Hs Hm') as [Hm|[t ->]].
    + destruct (Hsig Hm) as [t Ht]. exists t. apply elem_of_app. by left.
    + exists t. apply elem_of_app. right. apply list_elem_of_here.
  - by eapply process_step_stop.
  - by eapply process_step_awake.
Qed.

Lemma process_run_inv ls m : process_run ls process_initial = Some m -> main_inv ls m.
Proof.
  assert (forall pre m0, main_inv pre m0 -> process_run ls m0 = Some m -> main_inv (pre ++ ls) m)
    as Hgo.
  { induction ls as [|l ls IH]; intros pre m0 Hi Hr; cbn in Hr; [simplify_eq; by rewrite app_nil_r|].
    destruct (process_step l m0) as [m1|] eqn:Hs; [|done]. cbn in Hr.
    replace (pre ++ l :: ls) with ((pre ++ [l]) ++ ls) by (by rewrite <- app_assoc).
    eapply IH; [|done]. by eapply process_step_inv. }
  apply (Hgo []). split; cbn; [by intros [?|?]|by intros [?|?]|done].
Qed.
