(* ===== verification/Process.v ===== *)
(** * The whole process

    [src/main.cpp] with everything it starts: the main thread of [MainLoop],
    which waits for the flag of the signal handler and then calls
    [server.stop()] with the mutex still held, and the server of [Server]
    whose threads run at the same time. A signal is handled on one of the
    threads of the process, which goes on when the handler has returned, and a
    thread is joined when it has run to its end.

    The process starts when the handlers are installed, before [server.run()],
    which is one step here.

    Which thread of the pool runs a handler of the network is left open: the
    handlers go on even if one of these threads is interrupted. *)
From S2P Require Import Prelude CppString Json Domain Reference Jwt Mailbox Actor Handlers Runtime RuntimeInv RuntimeFair RuntimeRuns Schedule WsSession Gateway HttpRouter HttpNet Config Server ServerThreads Shutdown Startup MainLoop.

Section process.
Context `{JsonLib, UuidLib, Sha1Lib, BeastLib, LockfreeQueue, ActorOrder} {R : Type}
  `{!MessageRepository R}.

Record process : Type := mkProcess { mn : main_state; srv : Server R }.

(** Thread 0 is the main thread, the threads of the pool follow, and then the
    workers. *)
Definition worker_thread (s : Server R) (i : nat) : nat :=
  S (Z.to_nat (networkThreads (server (config_ s)))) + i.
Definition thread_alive (t : nat) (s : Server R) : Prop :=
  t = 0 \/ 1 <= t <= length (tp_workers (networkThreadPool_ s)) \/
  exists i wk, t = worker_thread s i /\ workers_ (actorSystem_ s) !! i = Some wk /\ wk <> WStopped.

#[export] Instance thread_alive_dec t s : Decision (thread_alive t s).
Proof.
  set (i := t - worker_thread s 0).
  destruct (decide (t = 0)) as [|H1']; [by left; left|].
  destruct (decide (1 <= t <= length (tp_workers (networkThreadPool_ s)))) as [|H2'];
    [by left; right; left|].
  destruct (workers_ (actorSystem_ s) !! i) as [wk|] eqn:Hi.
  - destruct (decide (worker_thread s 0 <= t /\ is_stopped wk = false)) as [[Hle Hwk]|Hno].
    + left. right; right. exists i, wk. split_and!; [unfold i, worker_thread in *; lia|done|].
      by intros ->.
    + right. intros [?|[?|(j & wk' & -> & Hj & Hwk')]]; [done..|].
      replace i with j in Hi by (unfold i, worker_thread; lia). simplify_eq.
      destruct Hno. split; [unfold worker_thread; lia|by destruct wk].
  - right. intros [?|[?|(j & wk' & -> & Hj & Hwk')]]; [done..|].
    replace i with j in Hi by (unfold i, worker_thread; lia). congruence.
Defined.

Inductive process_label : Type :=
| PMain
| PSpurious
| PSignal (t : nat)
| PHandler (j : nat)
| PServer (o : server_op R).

(** The threads [stop] waits for now are not interrupted. *)
Definition joinable (s : Server R) (hs : list (nat * handler_phase)) : bool :=
  match stopping s with
  | NotStopping => false
  | JoiningNetwork =>
      forallb (fun t => uninterrupted t hs) (seq 1 (length (tp_workers (networkThreadPool_ s))))
  | JoiningActors =>
      forallb (fun i => uninterrupted (worker_thread s i) hs)
        (seq 0 (length (workers_ (actorSystem_ s))))
  end.

(** The main thread in [server.stop()], and in the destructor of the server
    when that has returned. *)
Definition stop_turn (p : process) : option process :=
  match stopping (srv p) with
  | NotStopping =>
      if srv_running (srv p) then s ← server_step OpStop (srv p); Some (mkProcess (mn p) s)
      else s ← Server_destroy (srv p); m ← main_step (mn p); Some (mkProcess m s)
  | _ =>
      if joinable (srv p) (handlers (mn p))
      then s ← server_step OpJoin (srv p); Some (mkProcess (mn p) s)
      else None
  end.
Definition main_turn (p : process) : option process :=
  match MainLoop.phase (mn p) with
  | MRun =>
      m ← main_step (mn p);
      s ← server_step OpRun (srv p);
      Some (mkProcess m s)
  | MStop => if uninterrupted 0 (handlers (mn p)) then stop_turn p else None
  | _ => m ← main_step (mn p); Some (mkProcess m (srv p))
  end.

(** The threads of the server; a worker only if no handler runs on it. *)
Definition may_run (o : server_op R) (p : process) : bool :=
  match o with
  | OpRun | OpStop | OpJoin => false
  | OpGate (System (WorkerStep i _)) => uninterrupted (worker_thread (srv p) i) (handlers (mn p))
  | OpGate _ | OpHttp _ => true
  end.

Definition turn (l : process_label) (p : process) : option process :=
  match terminated (actorSystem_ (srv p)), MainLoop.phase (mn p) with
  | Some _, _ | _, MReturned => None
  | None, _ =>
      match l with
      | PMain => main_turn p
      | PSpurious => m ← process_step SpuriousWake (mn p); Some (mkProcess m (srv p))
      | PSignal t =>
          if decide (thread_alive t (srv p))
          then m ← process_step (Signal t) (mn p); Some (mkProcess m (srv p))
          else None
      | PHandler j => m ← process_step (HandlerStep j) (mn p); Some (mkProcess m (srv p))
      | PServer o =>
          if may_run o p then s ← server_step o (srv p); Some (mkProcess (mn p) s) else None
      end
  end.

Fixpoint turns_of (ls : list process_label) (p : process) : option process :=
  match ls with
  | [] => Some p
  | l :: ls' => p' ← turn l p; turns_of ls' p'
  end.

(** The process when the signal handlers have been installed. *)
Definition process_started (config : AppConfig) (r : R) : process :=
  mkProcess process_initial (Server_new config r).
End process.
Arguments process {_ _ _} R.
Arguments process_label {_} R.

Section process_facts.
Context `{JsonLib, UuidLib, Sha1Lib, BeastLib, LockfreeQueueLaws, ActorOrder} {R : Type}
  `{!MessageRepository R}.
Context (config : AppConfig) (r : R).
Implicit Types (p : process R) (s : Server R).

(** ** What every process is *)

(** From [run] to [stop] the main thread leaves the server running, and when
    it has returned the server is at its end. *)
Record proc_inv (ls : list (process_label R)) p : Prop := {
  pi_server : reached config r (srv p);
  pi_main : exists ls', process_run ls' process_initial = Some (mn p) /\
    forall t, Signal t ∈ ls' -> PSignal t ∈ ls;
  pi_phase : match MainLoop.phase (mn p) with
             | MStop => True
             | MRun | MReturned => stopping (srv p) = NotStopping /\ srv_running (srv p) = false
             | _ => stopping (srv p) = NotStopping /\ srv_running (srv p) = true
             end
}.

Lemma process_run_app ls ls' m m' :
  process_run ls m = Some m' -> process_run (ls ++ ls') m = process_run ls' m'.
Proof.
  revert m. induction ls as [|l ls IH]; intros m Hr; cbn in *; [by simplify_eq|].
  destruct (process_step l m) as [m1|]; [|done]. cbn in *. by apply IH.
Qed.

Lemma thread_frame o s s' (p : process R) :
  may_run o p = true -> server_step o s = Some s' ->
  stopping s' = stopping s /\ srv_running s' = srv_running s /\ config_ s' = config_ s.
Proof.
  intros Ho Hs. unfold server_step in Hs. destruct (terminated _); [done|].
  destruct o as [| | |l|l]; try done.
  - destruct (gate_allowed l s), (gateway_step l (gate s)); by simplify_eq/=.
  - destruct (http_allowed l s), (http_net_step (secret_of s) l (http_part s)); by simplify_eq/=.
Qed.

(** A server that is neither running nor being stopped goes without a trace. *)
Lemma destroy_stopped s :
  reached config r s -> stopping s = NotStopping -> srv_running s = false ->
  Server_destroy s = Some s.
Proof.
  intros Hr Hst Hrun. pose proof (ti_phase _ (reached_threads _ _ _ Hr)) as Hp. rewrite Hst in Hp.
  destruct Hp as [Hflag Hnil]. destruct (Hnil Hrun). apply destroy_idle; [congruence|done..].
Qed.

(** The main thread and the server in a step. *)
Inductive turn_move (l : process_label R) p : process R -> Prop :=
| move_main k m :
    process_step k (mn p) = Some m ->
    match k with
    | MainStep => l = PMain
    | SpuriousWake => l = PSpurious
    | Signal t => l = PSignal t
    | HandlerStep j => l = PHandler j
    end ->
    (l = PMain -> MainLoop.phase (mn p) <> MRun /\ (MainLoop.phase (mn p) = MStop ->
     stopping (srv p) = NotStopping /\ srv_running (srv p) = false)) ->
    turn_move l p (mkProcess m (srv p))
| move_start m s :
    MainLoop.phase (mn p) = MRun -> process_step MainStep (mn p) = Some m -> l = PMain ->
    s = Server_run (srv p) -> server_step OpRun (srv p) = Some s ->
    turn_move l p (mkProcess m s)
| move_server o s :
    server_step o (srv p) = Some s ->
    (l = PServer o /\ may_run o p = true) \/
    (l = PMain /\ MainLoop.phase (mn p) = MStop /\ uninterrupted 0 (handlers (mn p)) = true /\
     (o = OpStop /\ srv_running (srv p) = true /\ stopping (srv p) = NotStopping \/
      o = OpJoin /\ joinable (srv p) (handlers (mn p)) = true)) ->
    turn_move l p (mkProcess (mn p) s).

Lemma main_step_process m m' : main_step m = Some m' -> process_step MainStep m = Some m'.
Proof.
  intros Hs. unfold process_step. destruct (phase m) eqn:Hp; try done.
  unfold main_step in Hs. rewrite Hp in Hs. by destruct (negb _).
Qed.

Lemma stop_turn_moves p p' ls :
  proc_inv ls p -> phase (mn p) = MStop -> uninterrupted 0 (handlers (mn p)) = true ->
  stop_turn p = Some p' -> turn_move PMain p p'.
Proof.
  intros [Hr _ _] Hph Hun Ht. unfold stop_turn in Ht. destruct (stopping (srv p)) eqn:Hst.
  - destruct (srv_running (srv p)) eqn:Hrun.
    + destruct (server_step OpStop (srv p)) as [s|] eqn:Hs; [|done]. cbn in Ht. simplify_eq.
      eapply move_server; [exact Hs|]. right. split_and!; [done..|]. by left.
    + rewrite destroy_stopped in Ht by done. cbn in Ht.
      destruct (main_step (mn p)) as [m|] eqn:Hm; [|done]. cbn in Ht. simplify_eq.
      eapply (move_main _ _ MainStep); [by apply main_step_process|done|]. by rewrite Hph.
  - destruct (joinable _ _) eqn:Hj; [|done].
    destruct (server_step OpJoin (srv p)) as [s|] eqn:Hs; [|done]. cbn in Ht. simplify_eq.
    eapply move_server; [exact Hs|]. right. split_and!; [done..|]. by right.
  - destruct (joinable _ _) eqn:Hj; [|done].
    destruct (server_step OpJoin (srv p)) as [s|] eqn:Hs; [|done]. cbn in Ht. simplify_eq.
    eapply move_server; [exact Hs|]. right. split_and!; [done..|]. by right.
Qed.

Lemma turn_moves l p p' ls : proc_inv ls p -> turn l p = Some p' -> turn_move l p p'.
Proof.
  intros Hinv Ht. unfold turn in Ht. destruct (terminated _); [done|].
  assert (match l with
    | PMain => main_turn p
    | PSpurious => m ← process_step SpuriousWake (mn p); Some (mkProcess m (srv p))
    | PSignal t =>
        if decide (thread_alive t (srv p))
        then m ← process_step (Signal t) (mn p); Some (mkProcess m (srv p)) else None
    | PHandler j => m ← process_step (HandlerStep j) (mn p); Some (mkProcess m (srv p))
    | PServer o => if may_run o p then s ← server_step o (srv p); Some (mkProcess (mn p) s) else None
    end = Some p') as Hl by (by destruct (phase (mn p))).
  clear Ht. destruct l as [| |t|j|o].
  - unfold main_turn in Hl.
    destruct (decide (phase (mn p) = MStop)) as [Hph|Hph].
    + rewrite Hph in Hl. destruct (uninterrupted 0 (handlers (mn p))) eqn:Hun; [|done].
      by eapply stop_turn_moves.
    + destruct (decide (phase (mn p) = MRun)) as [Hrun|Hrun].
      { rewrite Hrun in Hl. destruct (main_step (mn p)) as [m|] eqn:Hs; [|done].
        destruct (server_step OpRun (srv p)) as [s|] eqn:Ho; [|done]. cbn in Hl. simplify_eq.
        eapply move_start; try done; [by apply main_step_process|]. unfold server_step in Ho.
        destruct (terminated _); [done|]. destruct (idle_main _); by simplify_eq. }
      assert ((m ← main_step (mn p); Some (mkProcess m (srv p))) = Some p') as Hm
        by (by destruct (phase (mn p))).
      destruct (main_step (mn p)) as [m|] eqn:Hs; [|done]. cbn in Hm. simplify_eq.
      by eapply (move_main _ _ MainStep); [apply main_step_process| |].
  - destruct (process_step _ _) as [m|] eqn:Hs; [|done]. cbn in Hl. simplify_eq.
    by eapply (move_main _ _ SpuriousWake).
  - destruct (decide _); [|done]. destruct (process_step _ _) as [m|] eqn:Hs; [|done].
    cbn in Hl. simplify_eq. by eapply (move_main _ _ (Signal t)).
  - destruct (process_step _ _) as [m|] eqn:Hs; [|done]. cbn in Hl. simplify_eq.
    by eapply (move_main _ _ (HandlerStep j)).
  - destruct (may_run o p) eqn:Ho; [|done]. destruct (server_step o _) as [s|] eqn:Hs; [|done].
    cbn in Hl. simplify_eq. eapply move_server; [exact Hs|by left].
Qed.

(** Where the main thread can be after a step of the main loop. *)
Lemma phase_after k m m' :
  process_step k m = Some m' ->
  match phase m' with
  | MStop => True
  | MReturned => phase m = MStop /\ k = MainStep
  | MRun => phase m = MRun
  | _ => phase m <> MStop /\ phase m <> MReturned /\ (phase m = MRun -> k = MainStep)
  end.
Proof.
  intros Hs. unfold process_step in Hs. destruct k as [| |t|j].
  - assert (main_step m = Some m') as Hm by (by destruct (phase m)). unfold main_step in Hm.
    destruct (negb _); [done|].
    destruct (phase m) eqn:Hp; try done; try (destruct (mutex_free m); [|done]); simplify_eq/=;
      [by split..| |by split|by split].
    by destruct (stopped m).
  - destruct (phase m) eqn:Hp; try done. destruct (uninterrupted _ _); [|done]. by simplify_eq/=.
  - destruct (phase m) eqn:Hp; simplify_eq/=; by rewrite ?Hp.
  - assert (onSignal j m = Some m') as Ho by (by destruct (phase m)).
    assert (phase m <> MReturned) as Hne by (intros Hp; by rewrite Hp in Hs).
    apply onSignal_inv in Ho as (t & q & Hj & [(-> & -> & _)|[(-> & ->)|(-> & ->)]]); cbn;
      by destruct (phase m).
Qed.

Lemma run_snoc_signal k l m m' (ls : list (process_label R)) :
  process_step k m = Some m' ->
  match k with Signal t => l = PSignal t | _ => True end ->
  (exists ls', process_run ls' process_initial = Some m /\
    forall t, Signal t ∈ ls' -> PSignal t ∈ ls) ->
  exists ls', process_run ls' process_initial = Some m' /\
    forall t, Signal t ∈ ls' -> PSignal t ∈ ls ++ [l].
Proof.
  intros Hs Hk (ls' & Hrun & Hsig). exists (ls' ++ [k]). erewrite process_run_app by done. cbn.
  rewrite Hs. split; [done|]. intros t [Hin|Hin]%elem_of_app; apply elem_of_app; [left; auto|right].
  apply list_elem_of_singleton in Hin as <-. subst l. apply list_elem_of_here.
Qed.

Lemma turn_inv ls l p p' : proc_inv ls p -> turn l p = Some p' -> proc_inv (ls ++ [l]) p'.
Proof.
  intros Hinv Ht. pose proof (turn_moves _ _ _ _ Hinv Ht) as Hm.
  destruct Hinv as [Hr Hmain Hph].
  destruct Hm as [k m Hs Hk Hstop|m s Hp Hs -> Hsrv Ho|o s Hs Ho]; (split; cbn [mn srv]).
  - done.
  - eapply run_snoc_signal; [exact Hs| |done]. by destruct k.
  - pose proof (phase_after _ _ _ Hs) as Hafter.
    assert (phase (mn p) = MRun -> k <> MainStep) as Hrun
      by (intros Hp ->; by destruct (Hstop Hk) as [? _]).
    destruct (phase m); try done; try (by rewrite Hafter in Hph);
      try (by destruct Hafter as (? & ? & Hgo); destruct (phase (mn p)); try done;
           destruct (Hrun eq_refl (Hgo eq_refl))).
    destruct Hafter as [Hp ->]. by apply Hstop.
  - by eapply reached_step.
  - by eapply run_snoc_signal.
  - assert (phase m = MLock) as ->.
    { unfold process_step, main_step in Hs. rewrite Hp in Hs. destruct (negb _); by simplify_eq/=. }
    rewrite Hp in Hph. destruct Hph as [Hst Hrun]. subst s. unfold Server_run. by rewrite Hrun.
  - by eapply reached_step.
  - destruct Hmain as (ls' & Hrun & Hsig). exists ls'. split; [done|].
    intros t Hin. apply elem_of_app. auto.
  - destruct Ho as [[-> Hmay]|(-> & -> & _)]; [|done].
    destruct (thread_frame _ _ _ _ Hmay Hs) as (-> & -> & _). done.
Qed.

Lemma turns_inv ls p :
  turns_of ls (process_started config r) = Some p -> proc_inv ls p.
Proof.
  assert (forall pre p0, proc_inv pre p0 -> turns_of ls p0 = Some p -> proc_inv (pre ++ ls) p) as Hgo.
  { induction ls as [|l ls IH]; intros pre p0 Hi Hr; cbn in Hr; [simplify_eq; by rewrite app_nil_r|].
    destruct (turn l p0) as [p1|] eqn:Hs; [|done]. cbn in Hr.
    rewrite cons_middle, app_assoc. eapply IH; [|done]. by eapply turn_inv. }
  apply (Hgo []). split; [by exists []| |done].
  exists []. split; [done|]. by intros t ?%elem_of_nil.
Qed.

(** ** A signal while the main thread holds the mutex *)

Lemma interrupted_by t q hs : (t, q) ∈ hs -> uninterrupted t hs = false.
Proof.
  intros Hin. unfold uninterrupted. apply negb_false_iff, existsb_exists. exists (t, q).
  split; [by apply list_elem_of_In|by apply Nat.eqb_refl].
Qed.

(** [stop] has yet to join the thread: one of the pool that serves, or a worker
    that has not ended. *)
Definition awaited (t : nat) s : Prop :=
  stopping s <> JoiningActors /\ 1 <= t <= length (tp_workers (networkThreadPool_ s)) \/
  exists i wk, t = worker_thread s i /\ workers_ (actorSystem_ s) !! i = Some wk /\ wk <> WStopped.

(** A handler that waits for the mutex, on the main thread or on a thread the
    main thread waits for. *)
Definition hung (t : nat) p : Prop :=
  main_holds (phase (mn p)) = true /\ (t, HLock) ∈ handlers (mn p) /\
  (t = 0 \/ phase (mn p) = MStop /\ awaited t (srv p)).

(** The others of the main loop go on, but the handler does not. *)
Lemma holding_step t k m m' :
  process_step k m = Some m' -> k <> MainStep -> main_holds (phase m) = true ->
  (t, HLock) ∈ handlers m -> phase m' = phase m /\ (t, HLock) ∈ handlers m'.
Proof.
  intros Hs Hk Hheld Hin. pose proof (process_step_cases _ _ _ Hs) as Hc.
  destruct k as [| |u|j]; [done| | |].
  - unfold process_step in Hs. by destruct (phase m).
  - subst m'. cbn. split; [done|]. apply elem_of_app. by left.
  - apply onSignal_inv in Hc as (u & q & Hj & [(-> & -> & Hfree)|[(-> & ->)|(-> & ->)]]); cbn.
    + unfold mutex_free in Hfree. by rewrite Hheld in Hfree.
    + split; [done|]. apply list_elem_of_lookup in Hin as [i Hi]. apply (list_elem_of_lookup_2 _ i).
      rewrite list_lookup_insert_ne; [done|]. intros ->. by rewrite Hj in Hi.
    + split; [by destruct (phase m)|]. apply list_elem_of_lookup in Hin as [i Hi].
      rewrite <- (take_drop_middle _ _ _ Hj) in Hi.
      rewrite delete_take_drop. apply lookup_app_Some in Hi as [Hi|[_ Hi]].
      * apply elem_of_app. left. by eapply list_elem_of_lookup_2.
      * apply elem_of_app. right. destruct (i - _); [done|]. by eapply list_elem_of_lookup_2.
Qed.

(** The other threads leave a worker where it is. *)
Lemma other_worker i l (w w' : world R) :
  is_thread_step l = true -> (forall c, l <> WorkerStep i c) -> step l w = Some w' ->
  workers_ w' !! i = workers_ w !! i.
Proof.
  intros Hl Hi Hs. unfold step in Hs. destruct (terminated w); [done|].
  destruct l as [|j c|j c| | | | | | | |]; simplify_eq/=; try done.
  - by apply net_step_inv in Hs as [(e & _ & ->)|(q & s & q' & _ & _ & ->)].
  - assert (j <> i) as Hne by (intros ->; by destruct (Hi c)).
    apply worker_step_move in Hs as [wk wk' w2 _ _ _ _ Hws _ _| | | | ];
      [rewrite Hws|cbn..]; try (by rewrite list_lookup_insert_ne); done.
Qed.

Lemma awaited_frame t s s' :
  stopping s' <> JoiningActors \/ stopping s' = stopping s ->
  config_ s' = config_ s -> tp_workers (networkThreadPool_ s') = tp_workers (networkThreadPool_ s) ->
  (forall i, t = worker_thread s i ->
     workers_ (actorSystem_ s') !! i = workers_ (actorSystem_ s) !! i) ->
  awaited t s -> awaited t s'.
Proof.
  intros Hst Hc Hp Hw [[Hno Ht]|(i & wk & Hi & Hwk & Hne)]; [left|right].
  - rewrite Hp. split; [|done]. by destruct Hst as [?| ->].
  - exists i, wk. split_and!; [|by rewrite Hw|done]. unfold worker_thread in *. by rewrite Hc.
Qed.

(** A thread of the server does not move one that is interrupted. *)
Lemma awaited_thread t o s (p : process R) :
  may_run o p = true -> server_step o (srv p) = Some s -> (t, HLock) ∈ handlers (mn p) ->
  awaited t (srv p) -> awaited t s.
Proof.
  intros Hmay Hs Hin. destruct (thread_frame _ _ _ _ Hmay Hs) as (Hst & _ & Hc).
  unfold server_step in Hs. destruct (terminated _); [done|].
  destruct o as [| | |l|l]; [done..| |].
  - destruct (gate_allowed l (srv p)) eqn:Hl; [|done].
    destruct (gateway_step l _) as [g|] eqn:Hg; [|done]. cbn in Hs. simplify_eq.
    apply awaited_frame; [by right|done|done|]. intros i ->. unfold actorSystem_. cbn.
    destruct (gateway_step_world _ _ _ Hg) as [->|(l' & Hstep & Hl')]; [done|].
    destruct (gate_allowed_thread _ _ _ Hl Hl') as [Hth _].
    eapply other_worker; [done| |done]. intros c ->. destruct l as [m|ok|k e|k]; try done.
    subst m. unfold may_run in Hmay. by rewrite (interrupted_by _ _ _ Hin) in Hmay.
  - destruct (http_allowed l _); [|done]. destruct (http_net_step _ l _) as [n|]; simplify_eq/=.
    by apply awaited_frame; [right|..].
Qed.

Lemma joined_uninterrupted t s hs :
  stopping s <> NotStopping -> awaited t s -> joinable s hs = true ->
  stopping s = JoiningNetwork /\ ~ 1 <= t <= length (tp_workers (networkThreadPool_ s)) \/
  uninterrupted t hs = true.
Proof.
  intros Hst Ha Hj. unfold joinable in Hj. destruct (stopping s) eqn:Hph; [done| |].
  - destruct (decide (1 <= t <= length (tp_workers (networkThreadPool_ s)))) as [Ht|]; [right|by left].
    rewrite forallb_forall in Hj. apply Hj, in_seq. lia.
  - right. destruct Ha as [[? _]|(i & wk & -> & Hi & _)]; [done|].
    rewrite forallb_forall in Hj. apply (Hj i), in_seq. apply lookup_lt_Some in Hi. lia.
Qed.

(** Nor does [stop] go past it. *)
Lemma awaited_stop t o s s' hs :
  reached config r s -> (t, HLock) ∈ hs ->
  o = OpStop /\ srv_running s = true /\ stopping s = NotStopping \/
  o = OpJoin /\ joinable s hs = true ->
  server_step o s = Some s' -> awaited t s -> awaited t s'.
Proof.
  intros Hr Hin Ho Hs Ha. unfold server_step in Hs. destruct (terminated _); [done|].
  destruct Ho as [(-> & Hrun & Hst)|[-> Hj]].
  - unfold idle_main in Hs. rewrite Hst in Hs. simplify_eq. revert Ha. unfold Server_stop.
    rewrite Hrun. cbn. apply awaited_frame; [by left|done..].
  - assert (stopping s <> NotStopping) as Hst.
    { intros Hst. unfold Server_join in Hs. by rewrite Hst in Hs. }
    destruct (joined_uninterrupted _ _ _ Hst Ha Hj) as [[Hph Ht]|Hun].
    2: { by rewrite (interrupted_by _ _ _ Hin) in Hun. }
    apply server_join_cases in Hs as [(_ & _ & ->)|(? & _)]; [|congruence].
    destruct Ha as [[_ ?]|?]; [done|by right].
Qed.

(** A thread is awaited until [stop] has returned. *)
Lemma awaited_running t s :
  reached config r s -> awaited t s -> stopping s = NotStopping -> srv_running s = true.
Proof.
  intros Hr Ha Hst. pose proof (ti_phase _ (reached_threads _ _ _ Hr)) as Hph. rewrite Hst in Hph.
  destruct (srv_running s); [done|]. destruct Hph as [_ Hnil]. destruct (Hnil eq_refl) as [Hp Hw].
  destruct Ha as [[_ Ht]|(i & wk & _ & Hi & _)]; [rewrite Hp in Ht; cbn in Ht; lia|].
  by rewrite Hw in Hi.
Qed.

Lemma hung_turn ls t l p p' :
  proc_inv ls p -> hung t p -> turn l p = Some p' -> hung t p' /\ phase (mn p') = phase (mn p).
Proof.
  intros Hinv (Hheld & Hin & Ht) Hs. pose proof (pi_server _ _ Hinv) as Hr.
  destruct (turn_moves _ _ _ _ Hinv Hs) as [k m Hm Hk Hstop|m s Hp|o s Hm Ho]; cbn [mn srv].
  - assert (k <> MainStep) as Hne.
    { intros ->. destruct (Hstop Hk) as [Hnot Hend]. destruct Ht as [->|(Hph & Ha)].
      - assert (main_step (mn p) = Some m) as Hms
          by (unfold process_step in Hm; by destruct (phase (mn p))).
        unfold main_step in Hms. by rewrite (interrupted_by _ _ _ Hin) in Hms.
      - destruct (Hend Hph) as [Hst Hrun]. rewrite (awaited_running _ _ Hr Ha Hst) in Hrun. done. }
    destruct (holding_step _ _ _ _ Hm Hne Hheld Hin) as [Hph Hin'].
    unfold hung. cbn. by rewrite Hph.
  - by rewrite Hp in Hheld.
  - split; [|done]. split; [done|]. split; [done|]. cbn.
    destruct Ht as [|(Hph & Ha)]; [by left|right]. split; [done|].
    destruct Ho as [[_ Hmay]|(_ & _ & _ & Ho)]; [by eapply awaited_thread|by eapply awaited_stop].
Qed.

Lemma hung_forever ls t ls' p p' :
  proc_inv ls p -> hung t p -> turns_of ls' p = Some p' -> phase (mn p') = phase (mn p).
Proof.
  revert ls p. induction ls' as [|l ls' IH]; intros ls p Hinv Hh Hr; cbn in Hr; [by simplify_eq|].
  destruct (turn l p) as [p1|] eqn:Hs; [|done]. cbn in Hr.
  destruct (hung_turn _ _ _ _ _ Hinv Hh Hs) as [Hh1 <-].
  eapply IH; [by eapply turn_inv|done|done].
Qed.

(** ** After the signal *)

(** The flag is set and no handler is left. *)
Record calm p : Prop := {
  ca_inv : exists ls, proc_inv ls p;
  ca_alive : terminated (actorSystem_ (srv p)) = None;
  ca_stopped : stopped (mn p) = true;
  ca_handlers : handlers (mn p) = []
}.

Lemma calm_awake p : calm p -> phase (mn p) <> MWait.
Proof.
  intros [[ls [_ (ls' & Hr & _) _]] _ Hst Hh] Hp.
  destruct (mi_awake _ _ (process_run_inv _ _ Hr) Hp Hst) as (j & t & Hj). by rewrite Hh in Hj.
Qed.

(** Then only the main thread and the threads of the server do anything. *)
Lemma calm_move l p p' :
  calm p -> (forall t, l <> PSignal t) -> turn l p = Some p' ->
  terminated (actorSystem_ (srv p')) = None ->
  calm p' /\ (l = PMain \/ mn p' = mn p /\
    exists o, l = PServer o /\ may_run o p = true /\ server_step o (srv p) = Some (srv p')).
Proof.
  intros Hc Hl Hs Ht'. pose proof Hc as [[ls Hinv] Ha Hst Hh].
  assert (exists ls, proc_inv ls p') as Hinv' by (eexists; by eapply turn_inv).
  assert (forall m, process_step MainStep (mn p) = Some m -> stopped m = true /\ handlers m = []) as Hmain.
  { intros m (Hh' & Hst' & _)%process_step_cases. by rewrite Hh', Hst'. }
  destruct (turn_moves _ _ _ _ Hinv Hs) as [k m Hm Hk _|m s _ Hm -> _ _|o s Hm Ho];
    cbn [mn srv] in *.
  - destruct k as [| |t|j].
    + destruct (Hmain _ Hm). split; [by split|by left].
    + destruct (calm_awake _ Hc). unfold process_step in Hm. by destruct (phase (mn p)).
    + by destruct (Hl t).
    + apply process_step_cases, onSignal_inv in Hm as (u & q & Hj & _). by rewrite Hh in Hj.
  - destruct (Hmain _ Hm). split; [by split|by left].
  - split; [by split|]. destruct Ho as [[-> Hmay]|(-> & _)]; [right|by left].
    split; [done|]. by exists o.
Qed.

(** What is between the main thread and the call of [stop]. *)
Definition to_stop (m : main_state) : nat :=
  match phase m with MRun => 4 | MLock | MWoken => 3 | MCheck => 2 | _ => 1 end.
Definition before_stop p : Prop :=
  calm p /\ stopping (srv p) = NotStopping /\ (phase (mn p) = MRun \/ srv_running (srv p) = true).
Definition in_stop p : Prop :=
  calm p /\ phase (mn p) = MStop /\ stopping (srv p) <> NotStopping.
Definition gone p : Prop := is_Some (terminated (actorSystem_ (srv p))).

Lemma mutex_calm p : calm p -> main_holds (phase (mn p)) = false -> mutex_free (mn p) = true.
Proof. intros [_ _ _ Hh] Hp. unfold mutex_free. by rewrite Hh, Hp. Qed.

(** A turn of the main thread before the call, and of any other thread. *)
Lemma main_approaches p :
  before_stop p ->
  exists p', turn PMain p = Some p' /\
    (mn p' = mn p /\ phase (mn p) = MStop /\ srv p' = Server_stop (srv p) /\
       srv_running (srv p) = true \/
     stopping (srv p') = NotStopping /\ srv_running (srv p') = true /\
       to_stop (mn p') < to_stop (mn p)).
Proof.
  intros (Hc & Hst & Hrun). pose proof (calm_awake _ Hc) as Hw. pose proof (mutex_calm _ Hc) as Hf.
  destruct Hc as [[ls [_ _ Hph]] Ha Hstop Hh].
  unfold turn, main_turn, stop_turn, main_step, server_step, idle_main, to_stop.
  rewrite Ha, Hst, Hh. cbn.
  destruct (phase (mn p)) eqn:Hp; try done; cbn in Hph, Hf; destruct Hrun as [|Hrun]; try done;
    try rewrite (Hf eq_refl); rewrite ?Hstop, ?Hrun.
  - eexists. split; [done|]. right. unfold Server_run. destruct Hph as [_ ->]. cbn.
    by split_and!; [| |lia].
  - destruct Hph; congruence.
  - eexists. split; [done|]. right. cbn. by split_and!; [| |lia].
  - eexists. split; [done|]. right. cbn. by split_and!; [| |lia].
  - eexists. split; [done|]. right. cbn. by split_and!; [| |lia].
  - eexists. split; [done|]. by left.
  - destruct Hph; congruence.
Qed.

Lemma before_turn l p :
  (forall t, l <> PSignal t) -> before_stop p ->
  (gone (tick turn l p) \/ in_stop (tick turn l p)) \/
  before_stop (tick turn l p) /\
    (to_stop (mn (tick turn l p)) < to_stop (mn p) \/
     to_stop (mn (tick turn l p)) = to_stop (mn p) /\ l <> PMain).
Proof.
  intros Hl Hb. pose proof Hb as (Hc & Hst & Hrun). unfold tick.
  destruct (turn l p) as [p'|] eqn:Ht; cbn.
  2: { right. split; [done|]. right. split; [done|]. intros ->.
       destruct (main_approaches _ Hb) as (p' & ? & _). congruence. }
  destruct (terminated (actorSystem_ (srv p'))) eqn:Ht'; [left; left; by eexists|].
  destruct (calm_move _ _ _ Hc Hl Ht Ht') as [Hc' [->|(Hm & o & -> & Hmay & Hs)]].
  - destruct (main_approaches _ Hb) as (p2 & Hp2 & Hcase). rewrite Ht in Hp2. simplify_eq.
    destruct Hcase as [(Hm & Hp & Hs & Hon)|(Hst' & Hrun' & Hlt)].
    + left. right. split; [done|]. rewrite Hm, Hs. unfold Server_stop. by rewrite Hon.
    + right. split; [|by left]. split_and!; [done..|by right].
  - destruct (thread_frame _ _ _ _ Hmay Hs) as (Hst' & Hrun' & _).
    right. split; [|by right; rewrite Hm]. split; [done|]. by rewrite Hst', Hrun', Hm.
Qed.

(** What a turn of the process is for a server that is being stopped. *)
Definition op_of (l : process_label R) : server_op R :=
  match l with
  | PMain => OpJoin
  | PServer (OpGate g) => OpGate g
  | PServer (OpHttp h) => OpHttp h
  | _ => OpStop
  end.

Lemma calm_joinable s : stopping s <> NotStopping -> joinable s [] = true.
Proof. unfold joinable. destruct (stopping s); [done|..]; intros _; by apply forallb_forall. Qed.

Lemma stopping_turn l p :
  (forall t, l <> PSignal t) -> in_stop p ->
  srv (tick turn l p) = tick server_step (op_of l) (srv p) /\ mn (tick turn l p) = mn p.
Proof.
  intros Hl (Hc & Hp & Hst). destruct Hc as [_ Ha Hstop Hh].
  assert (server_step OpStop (srv p) = None /\ server_step OpRun (srv p) = None) as [Hno _].
  { unfold server_step, idle_main. rewrite Ha. by destruct (stopping (srv p)). }
  unfold tick, turn. rewrite Ha, Hp. destruct l as [| |t|j|o]; cbn [op_of].
  - unfold main_turn, stop_turn. rewrite Hp, Hh. cbn. rewrite (calm_joinable _ Hst).
    destruct (stopping (srv p)); [done|..]; destruct (server_step OpJoin (srv p)); done.
  - unfold process_step. rewrite Hp, Hno. done.
  - by destruct (Hl t).
  - unfold process_step. rewrite Hp, Hno. unfold onSignal. by rewrite Hh.
  - assert (forall o, (may_run o p = true -> op_of (PServer o) = o) /\
      (may_run o p = false -> op_of (PServer o) = OpStop)) as Hop.
    { intros [| | |[[]| | |]|]; cbn; rewrite ?Hh; done. }
    destruct (Hop o) as [Hyes Hnot]. change (match o with OpGate g => _ | _ => _ end) with (op_of (PServer o)).
    destruct (may_run o p) eqn:Hmay; [rewrite Hyes by done|rewrite Hnot by done; by rewrite Hno].
    destruct (server_step o (srv p)); done.
Qed.

(** [stop] has returned, the main thread not yet. *)
Definition stopped_server p : Prop :=
  calm p /\ phase (mn p) = MStop /\ stopping (srv p) = NotStopping /\ srv_running (srv p) = false.
Definition ended p : Prop :=
  phase (mn p) = MReturned /\ tp_workers (networkThreadPool_ (srv p)) = [] /\
  workers_ (actorSystem_ (srv p)) = [].

Lemma stop_leaves s o s' :
  reached config r s -> stopping s <> NotStopping -> server_step o s = Some s' ->
  stopping s' <> NotStopping \/ srv_running s' = false.
Proof.
  intros Hr Hst Hs.
  destruct (stopping_step _ _ _ (reached_deaf _ _ _ Hr Hst) Hst Hs) as [->|(l & _ & _ & Hst' & _)];
    [|left; congruence].
  unfold server_step in Hs. destruct (terminated _); [done|].
  pose proof (server_join_cases _ _ Hs) as [(_ & _ & ->)|(Hph & _)]; [by left|right].
  by eapply rt_running, joined_returned.
Qed.

Lemma stop_turn_keeps l p :
  (forall t, l <> PSignal t) -> in_stop p ->
  (gone (tick turn l p) \/ stopped_server (tick turn l p)) \/ in_stop (tick turn l p).
Proof.
  intros Hl Hin. destruct (stopping_turn _ _ Hl Hin) as [Hsrv Hmn].
  destruct Hin as (Hc & Hp & Hst). unfold tick in *.
  destruct (turn l p) as [p'|] eqn:Ht; cbn in *; [|by right].
  destruct (terminated (actorSystem_ (srv p'))) eqn:Ht'; [left; left; by eexists|].
  destruct (calm_move _ _ _ Hc Hl Ht Ht') as [Hc' _].
  destruct (stopping (srv p')) eqn:Hn; [|right; split_and!; [done|by rewrite Hmn|congruence]..].
  left. right. split_and!; [done|by rewrite Hmn|done|].
  destruct (server_step (op_of l) (srv p)) as [s'|] eqn:Hs; cbn in Hsrv; [|by rewrite Hsrv in Hn].
  rewrite Hsrv in *. destruct Hc as [[ls Hinv] _ _ _].
  by destruct (stop_leaves _ _ _ (pi_server _ _ Hinv) Hst Hs).
Qed.

(** The turns of the process are those of the server until [stop] returns. *)
Lemma stop_drives schedule n p :
  (forall k t, schedule k <> PSignal t) -> in_stop p ->
  comes turn schedule (fun p' => gone p' \/ stopped_server p') p \/
  in_stop (drive turn n schedule p) /\
    srv (drive turn n schedule p) = drive server_step n (fun k => op_of (schedule k)) (srv p).
Proof.
  intros Hsig Hin. induction n as [|n [?|[Hn Hsrv]]]; [by right|by left|].
  destruct (stop_turn_keeps (schedule n) _ (Hsig n) Hn) as [Hq|Hin'];
    [left; by exists (S n)|right].
  split; [done|]. cbn. destruct (stopping_turn (schedule n) _ (Hsig n) Hn) as [-> _].
  by rewrite Hsrv.
Qed.

(** A schedule of the process without a further signal, fair to the main
    thread, to each handler of the network and to each worker. *)
Record fair_process (schedule : nat -> process_label R) : Prop := {
  fp_quiet : forall k t, schedule k <> PSignal t;
  fp_main : recurs (fun l => l = PMain) schedule;
  fp_net : forall i,
    recurs (fun l => exists c, l = PServer (OpGate (System (NetStep i c)))) schedule;
  fp_workers : forall i,
    recurs (fun l => exists c, l = PServer (OpGate (System (WorkerStep i c)))) schedule
}.

Lemma fair_process_later k schedule : fair_process schedule -> fair_process (later k schedule).
Proof. intros [Hq Hm Hn Hw]. split; [intros j; apply Hq|..]; intros; by apply recurs_later. Qed.

(** The schedule is fair to a call of [stop]. *)
Lemma fair_stop schedule nn nw :
  fair_process schedule -> fair_to_stop nn nw (fun k => op_of (schedule k)).
Proof.
  intros [_ Hm Hn Hw]. split.
  - intros i _ k. destruct (Hn i k) as (m & Hle & c & Hc). exists m. split; [done|]. rewrite Hc.
    eexists. split; [done|by eexists].
  - intros i _ k. destruct (Hw i k) as (m & Hle & c & Hc). exists m. split; [done|]. rewrite Hc.
    eexists. split; [done|by eexists].
  - intros k. destruct (Hm k) as (m & Hle & Hc). exists m. by rewrite Hc.
Qed.

Lemma in_stop_comes schedule p :
  (0 <= mailboxCapacity (server config))%Z -> fair_process schedule -> in_stop p ->
  comes turn schedule (fun p' => gone p' \/ stopped_server p') p.
Proof.
  intros Hcap Hf Hin. pose proof Hin as ([[ls Hinv] _ _ _] & _ & Hst).
  destruct (stop_comes config r _ _ Hcap (pi_server _ _ Hinv) Hst (fair_stop _ _ _ Hf)) as [n Hn].
  destruct (stop_drives schedule n p (fp_quiet _ Hf) Hin) as [?|[(_ & _ & Hst') Hsrv]]; [done|].
  exists n. rewrite <- Hsrv in Hn. destruct Hn as [?|Hret]; [by left|].
  by destruct Hst'; apply rt_phase.
Qed.

Lemma stopped_turn l p :
  (forall t, l <> PSignal t) -> stopped_server p ->
  (gone (tick turn l p) \/ ended (tick turn l p)) \/
  stopped_server (tick turn l p) /\ l <> PMain.
Proof.
  intros Hl Hss. pose proof Hss as (Hc & Hp & Hst & Hrun). pose proof Hc as [[ls Hinv] Ha _ Hh].
  pose proof (pi_server _ _ Hinv) as Hr. unfold tick.
  destruct (turn l p) as [p'|] eqn:Ht; cbn.
  2: { right. split; [done|]. intros ->. revert Ht. unfold turn, main_turn, stop_turn, main_step.
       by rewrite Ha, Hp, Hst, Hrun, Hh, destroy_stopped. }
  destruct (terminated (actorSystem_ (srv p'))) eqn:Ht'; [left; left; by eexists|].
  destruct (calm_move _ _ _ Hc Hl Ht Ht') as [Hc' [->|(Hm & o & -> & Hmay & Hs)]].
  - left. right. revert Ht. unfold turn, main_turn, stop_turn, main_step.
    rewrite Ha, Hp, Hst, Hrun, Hh, destroy_stopped by done. cbn. intros [= <-].
    pose proof (ti_phase _ (reached_threads _ _ _ Hr)) as Hph. rewrite Hst in Hph.
    destruct Hph as [_ Hnil]. by destruct (Hnil Hrun).
  - destruct (thread_frame _ _ _ _ Hmay Hs) as (Hst' & Hrun' & _).
    right. split; [|done]. split_and!; [done|congruence..].
Qed.

(** A turn of a schedule without signals. *)
Definition quiet_turn l p : option (process R) :=
  match l with PSignal _ => None | _ => turn l p end.

Lemma quiet_comes schedule (Q : process R -> Prop) p :
  fair_process schedule -> comes quiet_turn schedule Q p -> comes turn schedule Q p.
Proof.
  intros Hf. apply comes_agree. intros k p'. pose proof (fp_quiet _ Hf k) as Hq. unfold quiet_turn.
  destruct (schedule k) as [| |t| |]; try done. by destruct (Hq t).
Qed.

Lemma stopped_comes schedule p :
  fair_process schedule -> stopped_server p ->
  comes turn schedule (fun p' => gone p' \/ ended p') p.
Proof.
  intros Hf Hss. apply quiet_comes; [done|].
  apply (turn_awaited _ (fun l => l = PMain) stopped_server); [|apply (fp_main _ Hf)|done].
  intros l p0 Hp0. destruct l as [| |t|j|o]; try by apply stopped_turn.
  by right.
Qed.

Lemma before_comes schedule p :
  fair_process schedule -> before_stop p ->
  comes turn schedule (fun p' => gone p' \/ in_stop p') p.
Proof.
  intros Hf Hb. apply quiet_comes; [done|].
  apply (turns_come _ lt Nat.lt_wf_0 (fun p => to_stop (mn p)) (fun l => l = PMain) before_stop);
    [|apply (fp_main _ Hf)|done].
  intros l p0 Hp0. destruct l as [| |t|j|o]; try by apply before_turn.
  right. split; [done|by right].
Qed.

(** Where a process in which the flag is set and no handler is left may be. *)
Lemma calm_where p :
  calm p -> before_stop p \/ in_stop p \/ stopped_server p \/ ended p.
Proof.
  intros Hc. pose proof Hc as [[ls [Hr _ Hph]] _ _ _].
  unfold before_stop. destruct (phase (mn p)) eqn:Hp;
    try (by left; split_and!; [done|apply Hph|auto; right; apply Hph]).
  - destruct (stopping (srv p)) eqn:Hst; [|right; left; split_and!; [done..|congruence]|
      right; left; split_and!; [done..|congruence]].
    destruct (srv_running (srv p)) eqn:Hrun; [by left; auto|by right; right; left].
  - right; right; right. destruct Hph as [Hst Hrun].
    pose proof (ti_phase _ (reached_threads _ _ _ Hr)) as Hph. rewrite Hst in Hph.
    destruct Hph as [_ Hnil]. by destruct (Hnil Hrun).
Qed.

Lemma calm_comes schedule p :
  (0 <= mailboxCapacity (server config))%Z -> fair_process schedule -> calm p ->
  comes turn schedule (fun p' => gone p' \/ ended p') p.
Proof.
  intros Hcap Hf Hc.
  assert (forall k p', stopped_server p' ->
    comes turn (later k schedule) (fun p' => gone p' \/ ended p') p') as Hlast
    by (intros; by apply stopped_comes; [apply fair_process_later|]).
  assert (forall k p', in_stop p' ->
    comes turn (later k schedule) (fun p' => gone p' \/ ended p') p') as Hstop.
  { intros k p' Hin. eapply comes_then; [by apply in_stop_comes; [|apply fair_process_later|]|].
    intros k' p2 [?|Hs]; [by apply comes_now; left|].
    apply stopped_comes; [by do 2 apply fair_process_later|done]. }
  destruct (calm_where _ Hc) as [Hb|[Hin|[Hs|?]]].
  - eapply comes_then; [by apply before_comes|].
    intros k p' [?|?]; [by apply comes_now; left|by apply Hstop].
  - by apply (Hstop 0).
  - by apply (Hlast 0).
  - by apply comes_now; right.
Qed.

(** C7: the process ends for a signal only, and does end for one. In every
    state it reaches, by whatever signals and turns of its threads, the server
    has been stopped, or is being stopped, only if a signal was received; and
    if the flag of the handler is set and no call of the handler is running,
    then every schedule without a further signal that is fair to the main
    thread, the dispatches and the workers brings [main] to its return, with
    all threads of the network and of the actors joined and the server
    destroyed, unless an exception ends the process. *)
Theorem process_ends_after_signal ls p :
  turns_of ls (process_started config r) = Some p ->
  (phase (mn p) = MStop \/ phase (mn p) = MReturned \/
   phase (mn p) <> MRun /\ srv_running (srv p) = false -> exists t, PSignal t ∈ ls) /\
  (stopped (mn p) = true -> handlers (mn p) = [] -> (0 <= mailboxCapacity (server config))%Z ->
   forall schedule, fair_process schedule ->
   exists n, let p' := drive turn n schedule p in
     is_Some (terminated (actorSystem_ (srv p'))) \/
     phase (mn p') = MReturned /\ tp_workers (networkThreadPool_ (srv p')) = [] /\
     workers_ (actorSystem_ (srv p')) = []).
Proof.
  intros Hinv%turns_inv. split.
  - intros Hp. pose proof Hinv as [_ (ls' & Hrun & Hsig) Hph].
    destruct (process_run_inv _ _ Hrun) as [Hsignal Hstop _].
    destruct Hsignal as [t Ht]; [|by exists t; apply Hsig]. right. apply Hstop.
    destruct (phase (mn p)) eqn:Hq; try (by auto);
      destruct Hp as [?|[?|[? ?]]]; destruct Hph; congruence.
  - intros Hst Hh Hcap schedule Hf.
    destruct (terminated (actorSystem_ (srv p))) eqn:Ht.
    + exists 0. left. by eexists.
    + apply (calm_comes schedule p Hcap Hf). split; [by exists ls|done..].
Qed.

(** C40: a signal can hang the process for good. The handler takes the mutex
    that the main thread holds from its lock to the end of [main], but for
    the wait. A signal handled on the main thread in between, or, once it is
    at [server.stop()], on any thread that [stop] has yet to join, whether the
    call has begun or not, is the last the main thread hears of: no sequence
    of steps of any thread and of further signals brings it any further. *)
Theorem signal_hangs_process ls p t :
  turns_of ls (process_started config r) = Some p -> terminated (actorSystem_ (srv p)) = None ->
  main_holds (phase (mn p)) = true ->
  t = 0 \/ phase (mn p) = MStop /\ awaited t (srv p) ->
  exists p1, turn (PSignal t) p = Some p1 /\
    forall ls' p', turns_of ls' p1 = Some p' -> phase (mn p') = phase (mn p).
Proof.
  intros Hinv%turns_inv Ha Hheld Ht.
  assert (thread_alive t (srv p)) as Halive
    by (destruct Ht as [->|(_ & [[_ ?]|?])]; [by left|by right; left|by right; right]).
  set (m := mkMain (phase (mn p)) (stopped (mn p)) (handlers (mn p) ++ [(t, HLock)])).
  assert (turn (PSignal t) p = Some (mkProcess m (srv p))) as Hs.
  { unfold turn, process_step. rewrite Ha. rewrite decide_True by done.
    by destruct (phase (mn p)). }
  exists (mkProcess m (srv p)). split; [done|]. intros ls' p' Hr.
  rewrite (hung_forever (ls ++ [PSignal t]) t ls' (mkProcess m (srv p)) p');
    [done|by eapply turn_inv| |done].
  split; [done|]. split; [cbn; apply elem_of_app; right; apply list_elem_of_here|done].
Qed.
End process_facts.

(** ** A concrete process *)

Module ProcessRun.
#[local] Existing Instances ref_json ref_json_laws ref_uuid ref_uuid_laws.
#[local] Existing Instances list_queue list_queue_laws Concrete.key_order.
#[local] Existing Instances TokenRun.text_sha1 TokenRun.text_sha1_laws HttpRuns.keep_open.

Definition turn_on (k : nat) : process_label (list Message) :=
  let q := k / 3 in
  let i := q - Nat.sqrt q * Nat.sqrt q in
  match k mod 3 with
  | 0 => PMain
  | 1 => PServer (OpGate (System (NetStep i ServerRun.c0)))
  | _ => PServer (OpGate (System (WorkerStep i ServerRun.c0)))
  end.

(** Any number is the distance to a square again and again. *)
Lemma turn_on_at d i k :
  d < 3 -> exists m, k <= m /\ m mod 3 = d /\ m / 3 - Nat.sqrt (m / 3) * Nat.sqrt (m / 3) = i.
Proof.
  intros Hd. set (n := i + k). exists (d + (n * n + i) * 3).
  assert ((d + (n * n + i) * 3) / 3 = n * n + i) as ->
    by (rewrite Nat.div_add, Nat.div_small; lia).
  assert (Nat.sqrt (n * n + i) = n) as -> by (apply Nat.sqrt_unique; unfold n; nia).
  split_and!; [unfold n; nia| |lia]. by rewrite Nat.Div0.mod_add, Nat.mod_small.
Qed.

Lemma turn_on_fair : fair_process turn_on.
Proof.
  split.
  - intros k t. unfold turn_on. by destruct (k mod 3) as [|[|]].
  - intros k. destruct (turn_on_at 0 0 k) as (m & Hle & Hm & _); [lia|]. exists m.
    split; [done|]. unfold turn_on. by rewrite Hm.
  - intros i k. destruct (turn_on_at 1 i k) as (m & Hle & Hm & Hi); [lia|]. exists m.
    split; [done|]. exists ServerRun.c0. unfold turn_on. by rewrite Hm, Hi.
  - intros i k. destruct (turn_on_at 2 i k) as (m & Hle & Hm & Hi); [lia|]. exists m.
    split; [done|]. exists ServerRun.c0. unfold turn_on. by rewrite Hm, Hi.
Qed.

(** A signal on the worker, and [main] in [stop] after it. *)
Definition signalled : list (process_label (list Message)) :=
  [PMain; PSignal 3; PHandler 0; PHandler 0; PHandler 0].
Definition stopping_process : list (process_label (list Message)) :=
  signalled ++ [PMain; PMain; PMain].

Definition after (ls : list (process_label (list Message))) : process (list Message) :=
  default (process_started ServerRun.config [])
    (turns_of ls (process_started ServerRun.config [])).
Definition completes (ls : list (process_label (list Message))) : bool :=
  match turns_of ls (process_started ServerRun.config []) with Some _ => true | None => false end.

Lemma turns_after ls :
  completes ls = true -> turns_of ls (process_started ServerRun.config []) = Some (after ls).
Proof. unfold completes, after. by destruct (turns_of ls _). Qed.

Lemma process_ends_after_signal_witness :
  exists n, let p' := drive turn n turn_on (after signalled) in
    is_Some (terminated (actorSystem_ (srv p'))) \/
    MainLoop.phase (mn p') = MReturned /\ tp_workers (networkThreadPool_ (srv p')) = [] /\
    workers_ (actorSystem_ (srv p')) = [].
Proof.
  refine (proj2 (process_ends_after_signal ServerRun.config [] signalled (after signalled) _)
    _ _ _ turn_on turn_on_fair).
  - apply turns_after. by vm_compute.
  - by vm_compute.
  - by vm_compute.
  - by vm_compute.
Defined.

Definition finished (p : process (list Message)) : bool :=
  bool_decide (MainLoop.phase (mn p) = MReturned) &&
  match workers_ (actorSystem_ (srv p)) with [] => true | _ => false end.

Example the_process_ends : finished (drive turn 160 turn_on (after signalled)) = true.
Proof. by vm_compute. Qed.

Lemma worker_at_top : workers_ (actorSystem_ (srv (after stopping_process))) !! 0 = Some WTop.
Proof.
  assert (match workers_ (actorSystem_ (srv (after stopping_process))) with
          | [WTop] => true | _ => false end = true) as Hb by by vm_compute.
  by destruct (workers_ _) as [|[] [|]].
Qed.

(** A second signal, on the worker, before [stop] has joined it. *)
Lemma signal_hangs_process_witness :
  exists p1, turn (PSignal 3) (after stopping_process) = Some p1 /\
    forall ls' p', turns_of ls' p1 = Some p' -> MainLoop.phase (mn p') = MStop.
Proof.
  destruct (signal_hangs_process ServerRun.config [] stopping_process (after stopping_process) 3)
    as (p1 & Hp1 & Hstay).
  - apply turns_after. by vm_compute.
  - by vm_compute.
  - by vm_compute.
  - right. split; [by vm_compute|]. right. exists 0, WTop. split; [by vm_compute|].
    by split; [exact worker_at_top|].
  - exists p1. split; [exact Hp1|]. intros ls' p' Hr. refine (eq_trans (Hstay ls' p' Hr) _).
    by vm_compute.
Defined.
End ProcessRun.
