(* ===== verification/Legacy.v ===== *)
(** * The first websocket layer

    [src/infrastructure/websocket], which the build no longer compiles: the
    session manager, the sessions and the dispatcher that called the use case
    directly. Here [sendText] is the call; what it posts to the strand of the
    session, the write queues and the listener are in [LegacyNet]. *)
From S2P Require Import Prelude CppString Json Domain UseCases Reference Mailbox Actor.

Section legacy.
Context `{JsonLib, UuidLib} {R : Type} `{!MessageRepository R}.
(** [exception.what()]. *)
Context (what : exn -> string).

(** [sessions_] are weak pointers by user id, [alive] the session objects
    that exist, [userIds] the [userId_] of each, [texts] the calls of
    [sendText], oldest first. *)
Record layer : Type := mkLayer {
  sessions_ : gmap string positive;
  alive : gset positive;
  userIds : gmap positive string;
  texts : list (positive * string);
  store : R;
  llog : list (level * string * list string)
}.

(** *** session_manager.cpp *)

Definition registerSession (userId : string) (session : positive) : M layer unit := fun w =>
  (Ok tt, mkLayer (<[userId := session]> (sessions_ w)) (alive w) (userIds w) (texts w) (store w)
            (llog w)).
Definition removeSession (userId : string) : M layer unit := fun w =>
  (Ok tt, mkLayer (delete userId (sessions_ w)) (alive w) (userIds w) (texts w) (store w) (llog w)).
Definition findSession (userId : string) (w : layer) : option positive :=
  match sessions_ w !! userId with
  | Some s => if decide (s ∈ alive w) then Some s else None
  | None => None
  end.

(** *** websocket_session.cpp *)

Definition getUserId (session : positive) (w : layer) : string :=
  default EmptyString (userIds w !! session).
Definition setUserId (session : positive) (userId : string) : M layer unit := fun w =>
  (Ok tt, mkLayer (sessions_ w) (alive w) (<[session := userId]> (userIds w)) (texts w) (store w)
            (llog w)).
Definition sendText (session : positive) (message : string) : M layer unit := fun w =>
  (Ok tt, mkLayer (sessions_ w) (alive w) (userIds w) (texts w ++ [(session, message)]) (store w)
            (llog w)).
Definition log_text (l : level) (fmt : string) (args : list string) : M layer unit := fun w =>
  (Ok tt, mkLayer (sessions_ w) (alive w) (userIds w) (texts w) (store w)
            (llog w ++ [(l, fmt, args)])).
Definition gets {A} (f : layer -> A) : M layer A := fun w => (Ok (f w), w).

Definition close (session : positive) : M layer unit :=
  userId ← gets (getUserId session);
  _ ← (if negb (str_empty userId) then removeSession userId else mret tt);
  log_text info "websocket session closed user_id={}" [userId].

(** *** message_dispatcher.cpp *)

(** The use case on the repository of the layer. *)
Definition execute (chatId senderId : uuid) (text : string) (gen : uuid) (now : time_point)
    : M layer bool := fun w =>
  let '(o, r) := SendMessageUseCase_execute chatId senderId text gen now (store w) in
  (o, mkLayer (sessions_ w) (alive w) (userIds w) (texts w) r (llog w)).

Definition handleAuth (session : positive) (message : json) : M layer unit :=
  userId ← mlift (json_value message "user_id" EmptyString);
  if str_empty userId then
    sendText session (jq "{'type':'error','payload':{'message':'user_id required'}}")
  else
    _ ← setUserId session userId;
    _ ← registerSession userId session;
    _ ← log_text info "authenticated session for user_id={}" [userId];
    sendText session (jq "{'type':'auth_ok'}").

(** In the braces of the code [{"text", text}] is a list of two strings. *)
Definition outgoing_json (chatIdStr from text : string) : json :=
  json_object [("type", json_string "message_delivered"); ("chat_id", json_string chatIdStr);
               ("from_user_id", json_string from);
               ("payload", json_init [json_string "text"; json_string text])].

Definition handleSendMessage (session : positive) (message : json) (gen : uuid)
    (now : time_point) : M layer unit :=
  chatIdStr ← mlift (json_value message "chat_id" EmptyString);
  toUserId ← mlift (json_value message "to_user_id" EmptyString);
  pl ← mlift (json_value_json message "payload" json_empty_object);
  text ← mlift (json_value pl "text" EmptyString);
  if str_empty chatIdStr || str_empty text then
    sendText session
      (jq "{'type':'error','payload':{'message':'chat_id and payload.text required'}}")
  else
    userId ← gets (getUserId session);
    if str_empty userId then
      sendText session (jq "{'type':'error','payload':{'message':'auth required'}}")
    else
      chatId ← mlift (string_generator chatIdStr);
      senderId ← mlift (string_generator userId);
      stored_ ← execute chatId senderId text gen now;
      if negb stored_ then
        sendText session (jq "{'type':'error','payload':{'message':'message not stored'}}")
      else
        dumped ← mlift (json_dump (outgoing_json chatIdStr userId text));
        _ ← sendText session dumped;
        _ ← (if negb (str_empty toUserId) then
               recipient ← gets (findSession toUserId);
               match recipient with
               | Some r => sendText r dumped
               | None => mret tt
               end
             else mret tt);
        log_text info "dispatched message chat_id={} from={}" [chatIdStr; userId].

Definition handleTyping (message : json) : M layer unit :=
  text ← mlift (json_dump message); log_text debug "typing event: {}" [text].
Definition handleReadReceipt (message : json) : M layer unit :=
  text ← mlift (json_dump message); log_text debug "message_read event: {}" [text].

Definition dispatchMessage (session : positive) (rawMessage : string) (gen : uuid)
    (now : time_point) : M layer unit :=
  match json_parse_exn rawMessage with
  | Throw e =>
      _ ← log_text warn "invalid json: {}" [what e];
      sendText session (jq "{'type':'error','payload':{'message':'invalid json'}}")
  | Ok message =>
      type ← mlift (json_value message "type" EmptyString);
      if String.eqb type "auth" then handleAuth session message
      else if String.eqb type "send_message" then handleSendMessage session message gen now
      else if String.eqb type "typing" then handleTyping message
      else if String.eqb type "message_read" then handleReadReceipt message
      else if String.eqb type "ping" then sendText session (jq "{'type':'pong'}")
      else sendText session (jq "{'type':'error','payload':{'message':'unsupported type'}}")
  end.
End legacy.

(** ** Theorems *)

Section legacy_theorems.
Context `{JsonLaws, UuidLib} {R : Type} `{!MessageRepository R, !MessageRepositorySpec}.
Context (what : exn -> string).
Implicit Types (w : layer (R:=R)) (session : positive).

(** A method that stores nothing. *)
Definition keeps_store {A} (m : M (layer (R:=R)) A) : Prop :=
  forall w o w', m w = (o, w') -> store w' = store w.

Lemma keeps_bind {A B} (m : M layer A) (f : A -> M layer B) :
  keeps_store m -> (forall a, keeps_store (f a)) -> keeps_store (m ≫= f).
Proof.
  intros Hm Hf w o w' [(a & t & Ht & Hr)|(e & He & _)]%M_bind_inv; [|by eapply Hm].
  etrans; [by eapply Hf|by eapply Hm].
Qed.
Lemma keeps_pure {A} (m : M layer A) :
  (forall w, store (m w).2 = store w) -> keeps_store m.
Proof. intros Hm w o w' Hr. specialize (Hm w). by rewrite Hr in Hm. Qed.

Local Ltac keeps :=
  repeat (apply keeps_bind; [|intros ?; try case_match]); try (apply keeps_pure; done).

Lemma keeps_lift {A} (r : result A) : keeps_store (mlift r).
Proof. by apply keeps_pure. Qed.

(** The tail of [handleSendMessage] after the use case has answered. *)
Lemma execute_store chat sender text gen now w o w' :
  execute chat sender text gen now w = (o, w') ->
  stored (store w') = stored (store w) \/
  text <> EmptyString /\ stored (store w') = stored (store w) ++ [(gen, chat, sender, text)].
Proof.
  unfold execute, SendMessageUseCase_execute. destruct text as [|c t]; cbn [str_empty].
  - unfold mret, M_ret. intros [= <- <-]. by left.
  - destruct (message_create _ (store w)) as [[[]|e] r] eqn:Hc; intros [= <- <-]; cbn.
    + right. split; [done|]. by apply message_create_true in Hc.
    + left. by apply message_create_false in Hc.
    + apply message_create_throw in Hc as [Hc|Hc]; [by left|right]. by split.
Qed.

Lemma send_message_store session message gen now w o w' :
  handleSendMessage session message gen now w = (o, w') ->
  stored (store w') = stored (store w) \/
  exists chat sender text,
    getUserId session w <> EmptyString /\ string_generator (getUserId session w) = Ok sender /\
    text <> EmptyString /\
    stored (store w') = stored (store w) ++ [(gen, chat, sender, text)].
Proof.
  unfold handleSendMessage. intros Hr.
  apply M_bind_inv in Hr as [(chatIdStr & t1 & [_ ->]%M_lift_inv & Hr)|(e & [_ ->]%M_lift_inv & _)];
    [|by left].
  apply M_bind_inv in Hr as [(toUserId & t2 & [_ ->]%M_lift_inv & Hr)|(e & [_ ->]%M_lift_inv & _)];
    [|by left].
  apply M_bind_inv in Hr as [(pl & t3 & [_ ->]%M_lift_inv & Hr)|(e & [_ ->]%M_lift_inv & _)];
    [|by left].
  apply M_bind_inv in Hr as [(text & t4 & [_ ->]%M_lift_inv & Hr)|(e & [_ ->]%M_lift_inv & _)];
    [|by left].
  destruct (str_empty chatIdStr || str_empty text); [left; by injection Hr as <- <-|].
  apply M_bind_inv in Hr as [(userId & t5 & [= <- <-] & Hr)|(e & [=] & _)].
  destruct (getUserId session w) as [|c u] eqn:Hu; cbn [str_empty] in Hr;
    [left; by injection Hr as <- <-|].
  apply M_bind_inv in Hr as [(chat & t6 & [_ ->]%M_lift_inv & Hr)|(e & [_ ->]%M_lift_inv & _)];
    [|by left].
  apply M_bind_inv in Hr as [(sender & t7 & [Hs ->]%M_lift_inv & Hr)|(e & [_ ->]%M_lift_inv & _)];
    [|by left].
  apply M_bind_inv in Hr as [(b & t8 & Hx & Hr)|(e & Hx & _)].
  - assert (store w' = store t8) as ->.
    { revert Hr. match goal with |- ?m t8 = _ -> _ => enough (keeps_store m) as Hk by apply Hk end.
      destruct (negb b); [by apply keeps_pure|].
      apply keeps_bind; [apply keeps_lift|intros dumped].
      apply keeps_bind; [by apply keeps_pure|intros _].
      apply keeps_bind; [|intros _; by apply keeps_pure].
      destruct (negb (str_empty toUserId)); [|by apply keeps_pure].
      apply keeps_bind; [by apply keeps_pure|]. intros []; by apply keeps_pure. }
    apply execute_store in Hx as [Hx|[Hne Hx]]; [by left|right].
    exists chat, sender, text. by split_and!.
  - apply execute_store in Hx as [Hx|[Hne Hx]]; [by left|right].
    exists chat, sender, text. by split_and!.
Qed.

(** C37: only authenticated users store, and under their own name: after a
    dispatch, whatever it returns or throws, the repository holds what it
    held before, or one row more, whose sender is the user id the session was
    authenticated with and whose text is not empty. *)
Theorem legacy_stores_for_authenticated_only session raw gen now w o w' :
  dispatchMessage what session raw gen now w = (o, w') ->
  stored (store w') = stored (store w) \/
  exists chat sender text,
    getUserId session w <> EmptyString /\ string_generator (getUserId session w) = Ok sender /\
    text <> EmptyString /\
    stored (store w') = stored (store w) ++ [(gen, chat, sender, text)].
Proof.
  unfold dispatchMessage. destruct (json_parse_exn raw) as [message|e]; [|by intros [= <- <-]; left].
  intros Hr.
  apply M_bind_inv in Hr as [(type & t1 & [_ ->]%M_lift_inv & Hr)|(e & [_ ->]%M_lift_inv & _)];
    [|by left].
  destruct (String.eqb type "send_message") eqn:Hsend.
  - apply String.eqb_eq in Hsend as ->. cbn in Hr. by apply send_message_store in Hr.
  - left. f_equal. revert Hr.
    match goal with |- ?m w = _ -> _ => enough (keeps_store m) as Hk by apply Hk end.
    repeat case_match; unfold handleAuth, handleTyping, handleReadReceipt; keeps;
      apply keeps_lift.
Qed.

(** Closing a session takes its user's newer session off the map: when
    another session of the same user has registered since, it stays alive and
    authenticated and can no longer be found. *)
Theorem close_evicts_newer_session s1 s2 userId w :
  s1 <> s2 -> userId <> EmptyString -> getUserId s1 w = userId ->
  findSession userId w = Some s2 ->
  exists w', close s1 w = (Ok tt, w') /\ findSession userId w' = None /\
    (s2 ∈ alive w') /\ getUserId s2 w' = getUserId s2 w.
Proof.
  intros Hne Hu Hs1 Hf. unfold close. rewrite M_bind_ok with (a := userId) (s' := w)
    by (unfold gets; by rewrite Hs1).
  destruct userId as [|c u]; [done|]. eexists. split; [reflexivity|].
  unfold findSession in *. cbn. rewrite lookup_delete_eq. split; [done|].
  destruct (sessions_ w !! String c u); [|done]. case_decide; [|done]. by simplify_eq.
Qed.

(** The payload of a delivered message is not the object clients send:
    it is a list of two strings, and reading its [text] as clients of the
    other layer do is a type error. *)
Theorem delivered_payload_is_no_object chatIdStr from text :
  exists pl, json_find (outgoing_json chatIdStr from text) "payload" = Some pl /\
    json_is_object pl = false /\
    json_value pl "text" EmptyString = Throw (json_type_error 306).
Proof.
  eexists. split; [unfold outgoing_json; by rewrite json_object_find|].
  pose proof (json_init_strings_not_object "text" [json_string text]) as Ho.
  split; [exact Ho|]. by apply json_value_not_object.
Qed.
End legacy_theorems.

(** ** A concrete layer *)

Module LegacyRun.
#[local] Existing Instances ref_json ref_json_laws ref_uuid ref_uuid_laws.

Definition quiet (_ : exn) : string := EmptyString.
Definition empty : layer (R:=list Message) := mkLayer ∅ {[1%positive; 2%positive]} ∅ [] [] [].
Definition auth : string := jq ("{'type':'auth','user_id':'" +:+ uuid_text_b +:+ "'}").
Definition raw : string :=
  jq ("{'type':'send_message','chat_id':'" +:+ uuid_text_a +:+ "','payload':{'text':'hi'}}").

Definition dispatch (session : positive) (text : string) (w : layer) : layer (R:=list Message) :=
  (dispatchMessage quiet session text uuid_a 0%Z w).2.
Definition both : layer := dispatch 2 auth (dispatch 1 auth empty).

Lemma sent_from_one : length (store (dispatch 1 raw both)) = 1.
Proof. by vm_compute. Qed.

Lemma legacy_stores_for_authenticated_only_witness :
  length (store (dispatch 1 raw both)) = 1 /\
  (stored (store (dispatch 1 raw both)) = stored (store both) \/
   exists chat sender text, getUserId 1 both <> EmptyString /\
     string_generator (getUserId 1 both) = Ok sender /\ text <> EmptyString /\
     stored (store (dispatch 1 raw both)) = stored (store both) ++ [(uuid_a, chat, sender, text)]).
Proof.
  split; [exact sent_from_one|].
  apply (legacy_stores_for_authenticated_only quiet 1 raw uuid_a 0%Z both
    (dispatchMessage quiet 1 raw uuid_a 0%Z both).1).
  unfold dispatch. by destruct (dispatchMessage _ _ _ _ _ _).
Defined.

Lemma both_found : findSession uuid_text_b both = Some 2%positive /\ getUserId 1 both = uuid_text_b.
Proof. by vm_compute. Qed.

Lemma close_evicts_newer_session_witness :
  findSession uuid_text_b both = Some 2%positive /\
  exists w', close 1 both = (Ok tt, w') /\ findSession uuid_text_b w' = None /\
    (2%positive ∈ alive w') /\ getUserId 2 w' = getUserId 2 both.
Proof.
  destruct both_found as [Hf Hu]. split; [exact Hf|].
  exact (close_evicts_newer_session 1 2 uuid_text_b both ltac:(done) ltac:(done) Hu Hf).
Defined.

Lemma delivered_payload_is_no_object_witness :
  exists pl, json_find (outgoing_json "c" "u" "t") "payload" = Some pl /\ json_is_object pl = false.
Proof.
  destruct (delivered_payload_is_no_object "c" "u" "t") as (pl & Hf & Ho & _).
  by exists pl.
Defined.
End LegacyRun.
