(* ===== verification/LegacyNet.v ===== *)
(** * The connections of the first websocket layer

    [websocket_session.cpp] and [websocket_listener.cpp] of
    [src/infrastructure/websocket] around the dispatcher of [Legacy]: the
    sockets with their write queues, the handlers with all they log, and the
    accept loop. A handler runs as one step; a step is a completed operation
    of one connection. *)
From S2P Require Import Prelude CppString Json Domain UseCases Reference Mailbox Actor Legacy WsSession.

(** ** websocket_session.cpp: the socket *)

(** The transport part of a session: the read or handshake in progress, the
    handlers of [sendText] waiting on the strand, [writeQueue_], the text of
    the [async_write] in progress, and, as history, the completed writes. *)
Record socket : Type := mkSocket {
  so_reader : reader;
  so_posted : list string;
  so_writeQueue : list string;
  so_writing : option string;
  so_wire : list string
}.

Definition socket_new : socket := mkSocket Accepting [] [] None [].

Definition so_doRead (s : socket) : socket :=
  mkSocket Reading (so_posted s) (so_writeQueue s) (so_writing s) (so_wire s).
Definition so_noRead (s : socket) : socket :=
  mkSocket Idle (so_posted s) (so_writeQueue s) (so_writing s) (so_wire s).

(** [sendText] posts its handler. *)
Definition so_post (message : string) (s : socket) : socket :=
  mkSocket (so_reader s) (so_posted s ++ [message]) (so_writeQueue s) (so_writing s) (so_wire s).

Definition so_doWrite (s : socket) : socket :=
  mkSocket (so_reader s) (so_posted s) (so_writeQueue s) (head (so_writeQueue s)) (so_wire s).

(** The handler posted by [sendText]. *)
Definition so_run_posted (payload : string) (s : socket) : socket :=
  let isWriting := match so_writeQueue s with [] => false | _ => true end in
  let s := mkSocket (so_reader s) (so_posted s) (so_writeQueue s ++ [payload]) (so_writing s)
             (so_wire s) in
  if negb isWriting then so_doWrite s else s.

(** The queue's part of [onWrite]; an error leaves the queue alone. *)
Definition so_onWrite (ok : bool) (s : socket) : socket :=
  if negb ok then s
  else
    let s := mkSocket (so_reader s) (so_posted s) (tail (so_writeQueue s)) (so_writing s)
               (so_wire s) in
    match so_writeQueue s with [] => s | _ => so_doWrite s end.

Definition so_ended (ok : bool) (text : string) (s : socket) : socket :=
  mkSocket (so_reader s) (so_posted s) (so_writeQueue s) None
    (if ok then so_wire s ++ [text] else so_wire s).

(** The socket under the events of [WsSession]. *)
Definition socket_step (e : ws_event) (s : socket) : option socket :=
  match e with
  | EvSend payload => Some (so_post payload s)
  | EvPosted =>
      match so_posted s with
      | [] => None
      | p :: rest =>
          Some (so_run_posted p
            (mkSocket (so_reader s) rest (so_writeQueue s) (so_writing s) (so_wire s)))
      end
  | EvAccept ec =>
      match so_reader s with
      | Accepting => Some (match ec with None => so_doRead s | Some _ => so_noRead s end)
      | _ => None
      end
  | EvRead o =>
      match so_reader s with
      | Reading => Some (match o with Some _ => so_doRead s | None => so_noRead s end)
      | _ => None
      end
  | EvWrite ok =>
      match so_writing s with
      | Some text => Some (so_onWrite ok (so_ended ok text s))
      | None => None
      end
  end.

Fixpoint socket_run (es : list ws_event) (s : socket) : option socket :=
  match es with
  | [] => Some s
  | e :: es' => s' ← socket_step e s; socket_run es' s'
  end.

(** ** Handlers and listener *)

Section legacy_net.
Context `{JsonLib, UuidLib} {R : Type} `{!MessageRepository R}.
Context (what : exn -> string).

(** How a read ends; the message is that of the error code. *)
Inductive read_end : Type :=
| ReadText (raw : string)
| ReadClosed
| ReadError (message : string).

(** The error code of an operation without other result: its message. *)
Definition error_code : Type := option string.
Definition succeeded (ec : error_code) : bool := match ec with None => true | Some _ => false end.

Definition legacy_onAccept (ec : error_code) : M (layer (R:=R)) unit :=
  match ec with
  | Some message => log_text error "websocket accept error: {}" [message]
  | None => log_text info "websocket connection established" []
  end.

Definition legacy_onRead (session : positive) (o : read_end) (gen : uuid) (now : time_point)
    : M (layer (R:=R)) unit :=
  match o with
  | ReadClosed => close session
  | ReadError message =>
      _ ← log_text warn "websocket read error: {}" [message];
      close session
  | ReadText raw => dispatchMessage what session raw gen now
  end.

Definition legacy_onWrite (session : positive) (ec : error_code) : M (layer (R:=R)) unit :=
  match ec with
  | Some message =>
      _ ← log_text warn "websocket write error: {}" [message];
      close session
  | None => mret tt
  end.

(** The layer, its sockets in the order of their connections, and the
    exception that left a handler and ended the process. *)
Record legacy_net : Type := mkLegacyNet {
  lay : layer (R:=R);
  sockets : list socket;
  ended : option exn
}.

Inductive legacy_label : Type :=
| LConnect (ec : error_code)
| LHandshake (k : nat) (ec : error_code)
| LRead (k : nat) (o : read_end) (gen : uuid) (now : time_point)
| LPosted (k : nat)
| LWritten (k : nat) (ec : error_code)
| LDestroy (k : nat).

Definition session_of (k : nat) : positive := Pos.of_succ_nat k.

(** What a handler does to its own socket. *)
Definition socket_event (l : legacy_label) : option (nat * ws_event) :=
  match l with
  | LConnect _ | LDestroy _ => None
  | LHandshake k ec => Some (k, EvAccept ec)
  | LRead k (ReadText raw) _ _ => Some (k, EvRead (Some raw))
  | LRead k _ _ _ => Some (k, EvRead None)
  | LPosted k => Some (k, EvPosted)
  | LWritten k ec => Some (k, EvWrite (succeeded ec))
  end.
Definition handler (l : legacy_label) : M (layer (R:=R)) unit :=
  match l with
  | LHandshake _ ec => legacy_onAccept ec
  | LRead k o gen now => legacy_onRead (session_of k) o gen now
  | LWritten k ec => legacy_onWrite (session_of k) ec
  | LConnect _ | LPosted _ | LDestroy _ => mret tt
  end.

Definition texts_to (t : positive) (l : list (positive * string)) : list string :=
  (filter (fun p => p.1 = t) l).*2.
Definition post_all (new : list (positive * string)) (ss : list socket) : list socket :=
  imap (fun k s => foldl (fun s text => so_post text s) s (texts_to (session_of k) new)) ss.

(** [onAccept] of the listener: a session made, or the error logged. *)
Definition legacy_listener_onAccept (ec : error_code) (n : legacy_net) : legacy_net :=
  let w := lay n in
  match ec with
  | Some message => mkLegacyNet (log_text error "accept failed: {}" [message] w).2 (sockets n) (ended n)
  | None =>
      mkLegacyNet
        (mkLayer (sessions_ w) ({[session_of (length (sockets n))]} ∪ alive w) (userIds w) (texts w)
           (store w) (llog w))
        (sockets n ++ [socket_new]) (ended n)
  end.

Definition so_released (s : socket) : bool :=
  match so_reader s, so_posted s, so_writing s with Idle, [], None => true | _, _, _ => false end.

(** The handler of a completed operation of connection [k]. An exception
    leaves the handler and [io_context::run]. *)
Definition handler_step (l : legacy_label) (k : nat) (e : ws_event) (n : legacy_net)
    : option legacy_net :=
  s ← sockets n !! k;
  s' ← socket_step e s;
  let '(o, w) := handler l (lay n) in
  let new := drop (length (texts (lay n))) (texts w) in
  Some (mkLegacyNet w (post_all new (<[k := s']> (sockets n)))
          (match o with Ok _ => None | Throw e => Some e end)).

Definition legacy_step (l : legacy_label) (n : legacy_net) : option legacy_net :=
  match ended n with
  | Some _ => None
  | None =>
      match l with
      | LConnect ec => Some (legacy_listener_onAccept ec n)
      | LDestroy k =>
          s ← sockets n !! k;
          let w := lay n in
          if so_released s
          then Some (mkLegacyNet (mkLayer (sessions_ w) (alive w ∖ {[session_of k]}) (userIds w)
                                    (texts w) (store w) (llog w)) (sockets n) None)
          else None
      | _ => match socket_event l with Some (k, e) => handler_step l k e n | None => None end
      end
  end.

Fixpoint legacy_run (ls : list legacy_label) (n : legacy_net) : option legacy_net :=
  match ls with
  | [] => Some n
  | l :: ls' => n' ← legacy_step l n; legacy_run ls' n'
  end.

(** [run] of the listener, on the endpoint its acceptor is bound to. *)
Definition legacy_listener_run (local_endpoint : string * Z) (n : legacy_net) : legacy_net :=
  mkLegacyNet
    (log_text info "websocket listener started at {}:{}"
       [local_endpoint.1; to_string_u (Z.to_N local_endpoint.2)] (lay n)).2 (sockets n) (ended n).

(** The layer over a repository [r], listening, before the first connection. *)
Definition legacy_initial (local_endpoint : string * Z) (r : R) : legacy_net :=
  legacy_listener_run local_endpoint (mkLegacyNet (mkLayer ∅ ∅ ∅ [] r []) [] None).
End legacy_net.

(** ** The same transport as that of the current sessions *)

(** What a session of [WsSession] has in common with a socket. *)
Definition socket_of (s : WebSocketSession) : socket :=
  mkSocket (reader_ s) (posted_ s) (writeQueue_ s) (writing s) (wire s).

Lemma socket_step_of e s : socket_step e (socket_of s) = socket_of <$> ws_step e s.
Proof.
  destruct e as [payload| |ok|o|ok]; cbn; [done|..].
  - destruct (posted_ s) as [|p rest]; [done|]. unfold session_posted, so_run_posted. cbn.
    by destruct (writeQueue_ s).
  - destruct (reader_ s); [|done..]. by destruct ok.
  - destruct (reader_ s); [done| |done]. by destruct o.
  - destruct (writing s) as [text|]; [|done]. unfold so_onWrite, session_onWrite. cbn.
    destruct ok; cbn; [|done]. by destruct (tail (writeQueue_ s)).
Qed.

(** C38: the rewritten sessions transport texts exactly as the first ones
    did: under every sequence of sends, strand handlers, handshakes, reads and
    writes, failed ones included, a session of the first layer and a current
    one are in step, one can go on as long as the other, and both have the
    same texts on the wire, in the queue, on the strand and in progress. *)
Theorem same_transport sid es :
  socket_run es socket_new = socket_of <$> ws_run es (session_run sid).
Proof.
  change socket_new with (socket_of (session_run sid)). generalize (session_run sid).
  induction es as [|e es IH]; intros s; [done|]. cbn. rewrite socket_step_of.
  destruct (ws_step e s) as [s'|]; [apply IH|done].
Qed.

(** ** What handlers do to the layer *)

Section legacy_net_facts.
Context `{JsonLib, UuidLib} {R : Type} `{!MessageRepository R}.
Context (what : exn -> string).
Implicit Types (w : layer (R:=R)) (n : legacy_net (R:=R)).

(** [Q] covers the registrations the method makes, and it sends texts to
    [session] and to sessions that exist only. *)
Definition acts_within (session : positive) (Q : string -> positive -> Prop) {A}
    (m : M (layer (R:=R)) A) : Prop :=
  forall w o w', m w = (o, w') ->
    alive w' = alive w /\
    (forall u s, sessions_ w' !! u = Some s -> sessions_ w !! u = Some s \/ Q u s) /\
    exists new, texts w' = texts w ++ new /\
      Forall (fun p => p.1 = session \/ p.1 ∈ alive w) new.

Lemma acts_bind session Q {A B} (m : M layer A) (f : A -> M layer B) :
  acts_within session Q m -> (forall a, acts_within session Q (f a)) ->
  acts_within session Q (m ≫= f).
Proof.
  intros Hm Hf w o w' [(a & t & Ht & Hr)|(e & He & _)]%M_bind_inv; [|by eapply Hm].
  destruct (Hm _ _ _ Ht) as (Ha1 & Hs1 & new1 & Hn1 & HF1).
  destruct (Hf a _ _ _ Hr) as (Ha2 & Hs2 & new2 & Hn2 & HF2).
  split; [congruence|]. split.
  - intros u s Hu. destruct (Hs2 _ _ Hu) as [Hu'|?]; [by apply Hs1|by right].
  - exists (new1 ++ new2). rewrite Hn2, Hn1, app_assoc. split; [done|].
    apply Forall_app. split; [done|]. by rewrite <- Ha1.
Qed.

(** A method that leaves registrations alone and sends [new]. *)
Lemma acts_one session Q {A} (m : M layer A) new :
  (forall w, alive (m w).2 = alive w /\ sessions_ (m w).2 = sessions_ w /\
     texts (m w).2 = texts w ++ new) ->
  Forall (fun p => p.1 = session) new -> acts_within session Q m.
Proof.
  intros Hm HF w o w' Hr. destruct (Hm w) as (Ha & Hs & Ht). rewrite Hr in Ha, Hs, Ht.
  cbn in *. split; [done|]. rewrite Hs. split; [by left|]. exists new. split; [done|].
  eapply Forall_impl; [exact HF|]. intros p Hp. by left.
Qed.

Lemma acts_nothing session Q {A} (m : M layer A) :
  (forall w, alive (m w).2 = alive w /\ sessions_ (m w).2 = sessions_ w /\
     texts (m w).2 = texts w) -> acts_within session Q m.
Proof.
  intros Hm. apply (acts_one _ _ _ []); [|constructor]. intros w. rewrite app_nil_r. apply Hm.
Qed.

Lemma acts_lift session Q {A} (r : result A) : acts_within session Q (mlift r).
Proof. by apply acts_nothing. Qed.
Lemma acts_log session Q l fmt args : acts_within session Q (log_text l fmt args).
Proof. by apply acts_nothing. Qed.
Lemma acts_get session Q {A} (f : layer -> A) : acts_within session Q (gets f).
Proof. by apply acts_nothing. Qed.
Lemma acts_send session Q text : acts_within session Q (sendText session text).
Proof. apply (acts_one _ _ _ [(session, text)]); [done|by repeat constructor]. Qed.
Lemma acts_ret session Q {A} (a : A) : acts_within session Q (mret a).
Proof. by apply acts_nothing. Qed.

(** A text for the session found under a name. *)
Lemma acts_forward session Q u text :
  acts_within session Q
    (recipient ← gets (findSession u);
     match recipient with Some r => sendText r text | None => mret tt end).
Proof.
  intros w o w' Hr.
  apply M_bind_inv in Hr as [(recipient & t & [= <- <-] & Hr)|(e & [=] & _)].
  unfold findSession in Hr. destruct (sessions_ w !! u) as [r|].
  2: { apply M_ret_inv in Hr as [_ ->]. by apply (acts_ret session Q tt w (Ok tt)). }
  destruct (decide (r ∈ alive w)) as [Hr'|_].
  - injection Hr as <- <-. cbn. split; [done|]. split; [by left|].
    exists [(r, text)]. split; [done|]. constructor; [by right|constructor].
  - apply M_ret_inv in Hr as [_ ->]. by apply (acts_ret session Q tt w (Ok tt)).
Qed.

(** What a text asks a session to be authenticated as. *)
Definition requested_user (raw : string) : option string :=
  match json_parse_exn raw with
  | Ok message =>
      match json_value message "type" EmptyString, json_value message "user_id" EmptyString with
      | Ok type, Ok userId =>
          if String.eqb type "auth" && negb (str_empty userId) then Some userId else None
      | _, _ => None
      end
  | Throw _ => None
  end.

Definition authenticates (session : positive) (raw : string) (u : string) (s : positive) : Prop :=
  s = session /\ requested_user raw = Some u.

Lemma handle_auth_acts session raw message :
  json_parse_exn raw = Ok message -> json_value message "type" EmptyString = Ok "auth" ->
  acts_within session (authenticates session raw) (handleAuth session message).
Proof.
  intros Hp Ht w o w' Hr. unfold handleAuth in Hr.
  apply M_bind_inv in Hr as [(userId & t & [Hu ->]%M_lift_inv & Hr)|(e & [_ ->]%M_lift_inv & _)].
  2: { by apply (acts_ret session _ tt w (Ok tt)). }
  destruct (str_empty userId) eqn:He; [by eapply acts_send|].
  injection Hr as <- <-. cbn. split; [done|]. split.
  - intros u s [[<- <-]|[_ ?]]%lookup_insert_Some; [right|by left].
    split; [done|]. unfold requested_user. by rewrite Hp, Ht, <- Hu, He.
  - exists [(session, jq "{'type':'auth_ok'}")]. split; [done|]. by repeat constructor.
Qed.

Lemma handle_send_acts session Q message gen now :
  acts_within session Q (handleSendMessage session message gen now).
Proof.
  unfold handleSendMessage.
  do 4 (apply acts_bind; [apply acts_lift|intros ?]).
  case_match; [apply acts_send|]. apply acts_bind; [apply acts_get|intros userId].
  case_match; [apply acts_send|].
  do 2 (apply acts_bind; [apply acts_lift|intros ?]).
  apply acts_bind.
  { apply acts_nothing. intros w. unfold execute.
    by destruct (SendMessageUseCase_execute _ _ _ _ _ _). }
  intros b. case_match; [apply acts_send|].
  apply acts_bind; [apply acts_lift|intros dumped].
  apply acts_bind; [apply acts_send|intros _].
  apply acts_bind; [|intros _; apply acts_log].
  case_match; [apply acts_forward|apply acts_ret].
Qed.

Lemma dispatch_acts session raw gen now :
  acts_within session (authenticates session raw) (dispatchMessage what session raw gen now).
Proof.
  unfold dispatchMessage. destruct (json_parse_exn raw) as [message|e] eqn:Hp.
  2: { apply acts_bind; [apply acts_log|intros _; apply acts_send]. }
  intros w o w' Hr.
  apply M_bind_inv in Hr as [(type & t & [Ht ->]%M_lift_inv & Hr)|(e & [_ ->]%M_lift_inv & _)].
  2: { by apply (acts_ret session _ tt w (Ok tt)). }
  revert Hr. match goal with |- ?m w = _ -> _ =>
    enough (acts_within session (authenticates session raw) m) as Hm by apply Hm end.
  destruct (String.eqb_spec type "auth") as [->|_]; [by apply handle_auth_acts|].
  repeat (case_match; [|]); unfold handleTyping, handleReadReceipt;
    first [apply handle_send_acts|apply acts_send
          |apply acts_bind; [apply acts_lift|intros ?; apply acts_log]].
Qed.

Lemma close_acts session w o w' :
  close session w = (o, w') ->
  alive w' = alive w /\ texts w' = texts w /\
  forall u s, sessions_ w' !! u = Some s -> sessions_ w !! u = Some s.
Proof.
  intros Hr. apply M_bind_inv in Hr as [(userId & t & [= <- <-] & Hr)|(e & [=] & _)].
  apply M_bind_inv in Hr as [([] & t & Hr & [= <- <-])|(e & Hr & _)];
    destruct (negb (str_empty (getUserId session w)));
    (apply M_ret_inv in Hr as [? ->] || injection Hr as <-); cbn; try done.
  split_and!; [done|done|]. by intros u s [_ ?]%lookup_delete_Some.
Qed.

(** ** The invariant of the connections *)

Section invariant.
(** [Au] covers the authentications of a run. *)
Context (Au : string -> positive -> Prop).

Record legacy_inv n : Prop := {
  li_alive : forall s, s ∈ alive (lay n) -> exists k, k < length (sockets n) /\ s = session_of k;
  li_known : forall p, p ∈ texts (lay n) -> exists k, k < length (sockets n) /\ p.1 = session_of k;
  li_sockets : forall k s, sockets n !! k = Some s ->
    exists es ws, ws_run es (session_run EmptyString) = Some ws /\ s = socket_of ws /\
      sends ws = texts_to (session_of k) (texts (lay n));
  li_registered : forall u s, sessions_ (lay n) !! u = Some s -> Au u s
}.

Definition authentications (l : legacy_label) : Prop :=
  match l with
  | LRead k (ReadText raw) _ _ =>
      forall u, requested_user raw = Some u -> Au u (session_of k)
  | _ => True
  end.

Lemma session_of_inj j k : session_of j = session_of k -> j = k.
Proof. unfold session_of. intros Ht. apply (f_equal Pos.to_nat) in Ht. lia. Qed.

Lemma texts_to_app t l1 l2 : texts_to t (l1 ++ l2) = texts_to t l1 ++ texts_to t l2.
Proof. unfold texts_to. by rewrite filter_app, fmap_app. Qed.

Lemma handler_acts l k w o w' :
  match socket_event l with Some (j, _) => j = k | None => False end ->
  authentications l -> handler what l w = (o, w') ->
  alive w' = alive w /\
  (forall u s, sessions_ w' !! u = Some s -> sessions_ w !! u = Some s \/ Au u s) /\
  exists new, texts w' = texts w ++ new /\
    Forall (fun p => p.1 = session_of k \/ p.1 ∈ alive w) new.
Proof.
  intros Hk Hl Hr.
  assert (forall m : M (layer (R:=R)) unit, acts_within (session_of k) Au m -> m w = (o, w') ->
    alive w' = alive w /\
    (forall u s, sessions_ w' !! u = Some s -> sessions_ w !! u = Some s \/ Au u s) /\
    exists new, texts w' = texts w ++ new /\
      Forall (fun p => p.1 = session_of k \/ p.1 ∈ alive w) new) as Hgo by (intros m Hm; apply Hm).
  assert (acts_within (session_of k) Au (close (R:=R) (session_of k))) as Hclose.
  { intros w1 o1 w2 (Ha & Ht & Hs)%close_acts. split_and!; [done|auto|].
    exists []. by rewrite app_nil_r. }
  destruct l as [ec|j ec|j re gen now|j|j ec|j]; cbn in Hk, Hl, Hr; try done; [..|].
  - eapply Hgo; [|exact Hr]. destruct ec; apply acts_log.
  - eapply Hgo; [|exact Hr]. destruct re as [raw| |message]; cbn in Hk |- *; subst j.
    + intros w1 o1 w2 Hd. destruct (dispatch_acts _ _ _ _ _ _ _ Hd) as (Ha & Hs & Hn).
      split_and!; [done| |done]. intros u s Hu. destruct (Hs _ _ Hu) as [?|[-> ?]]; auto.
    + exact Hclose.
    + apply acts_bind; [apply acts_log|intros _; exact Hclose].
  - eapply Hgo; [|exact Hr]. apply acts_ret.
  - eapply Hgo; [|exact Hr]. subst j. destruct ec; [|apply acts_ret].
    apply acts_bind; [apply acts_log|intros _; exact Hclose].
Qed.

Lemma post_all_lookup new ss k s :
  post_all new ss !! k = Some s -> exists s0, ss !! k = Some s0 /\
    s = foldl (fun s text => so_post text s) s0 (texts_to (session_of k) new).
Proof.
  unfold post_all. rewrite list_lookup_imap. destruct (ss !! k) as [s0|]; cbn; [|done].
  intros [= <-]. by exists s0.
Qed.

Lemma posts_of texts ws :
  exists ws', ws_run (EvSend <$> texts) ws = Some ws' /\
    foldl (fun s text => so_post text s) (socket_of ws) texts = socket_of ws' /\
    sends ws' = sends ws ++ texts.
Proof.
  revert ws. induction texts as [|x texts IH]; intros ws; [exists ws; by rewrite app_nil_r|].
  destruct (IH (session_send x ws)) as (ws' & Hr & Hf & Hs). exists ws'.
  split_and!; [exact Hr|exact Hf|]. rewrite Hs. cbn. by rewrite <- app_assoc.
Qed.

(** The sockets after a handler of one of them. *)
Lemma sockets_handler_step n k e s s' w new :
  legacy_inv n -> sockets n !! k = Some s ->
  own_event e = true -> socket_step e s = Some s' ->
  texts w = texts (lay n) ++ new ->
  forall j x, post_all new (<[k := s']> (sockets n)) !! j = Some x ->
    exists es ws, ws_run es (session_run EmptyString) = Some ws /\ x = socket_of ws /\
      sends ws = texts_to (session_of j) (texts w).
Proof.
  intros [_ _ Hso _] Hk He Hs Ht j x (x0 & Hx0 & ->)%post_all_lookup.
  assert (exists es ws, ws_run es (session_run EmptyString) = Some ws /\ x0 = socket_of ws /\
    sends ws = texts_to (session_of j) (texts (lay n))) as (es & ws & Hr & -> & Hsend).
  { apply list_insert_cases in Hx0 as [[-> <-]|Hj]; [|by apply Hso].
    destruct (Hso _ _ Hk) as (es & ws & Hr & -> & Hsend). rewrite socket_step_of in Hs.
    destruct (ws_step e ws) as [ws'|] eqn:Hws; [|done]. injection Hs as <-.
    exists (es ++ [e]), ws'. split_and!; [|done|].
    - erewrite ws_run_app; [|exact Hr]. cbn. by rewrite Hws.
    - rewrite <- Hsend. by apply (ws_step_frame _ _ _ He Hws). }
  destruct (posts_of (texts_to (session_of j) new) ws) as (ws' & Hr' & -> & Hs').
  exists (es ++ (EvSend <$> texts_to (session_of j) new)), ws'. split_and!; [|done|].
  - by erewrite ws_run_app.
  - by rewrite Hs', Hsend, Ht, texts_to_app.
Qed.

Lemma handler_step_inv l k e n n' :
  socket_event l = Some (k, e) -> authentications l -> legacy_inv n ->
  handler_step what l k e n = Some n' -> legacy_inv n'.
Proof.
  intros Hev Hl Hi Hstep. unfold handler_step in Hstep.
  destruct (sockets n !! k) as [s|] eqn:Hk; [|done]. cbn in Hstep.
  destruct (socket_step e s) as [s'|] eqn:Hs; [|done]. cbn in Hstep.
  destruct (handler what l (lay n)) as [o w] eqn:Hh. injection Hstep as <-.
  pose proof (lookup_lt_Some _ _ _ Hk) as Hlt.
  destruct (handler_acts l k _ _ _ ltac:(by rewrite Hev) Hl Hh) as (Ha & Hreg & new & Ht & Hnew).
  assert (own_event e = true) as Hown.
  { by destruct l as [| |? []| | |]; cbn in Hev; simplify_eq. }
  pose proof Hi as [Hal Hkn Hso Hre]. rewrite Ht, drop_app_length. split; cbn.
  - intros x. rewrite Ha. unfold post_all. rewrite length_imap, length_insert. apply Hal.
  - intros p. rewrite Ht. unfold post_all. rewrite length_imap, length_insert.
    intros [Hp|Hp]%elem_of_app; [by apply Hkn|]. rewrite Forall_forall in Hnew.
    destruct (Hnew _ Hp) as [Hx|Hx]; [by exists k|]. by apply Hal.
  - by apply (sockets_handler_step n k e s s' w new Hi Hk).
  - intros u x Hu. destruct (Hreg _ _ Hu) as [Hu'|?]; [by apply Hre|done].
Qed.

Lemma connect_inv n :
  legacy_inv n -> legacy_inv (legacy_listener_onAccept None n).
Proof.
  intros [Hal Hkn Hso Hre]. split; cbn; [..|done].
  - intros x. rewrite length_app. intros [->%elem_of_singleton|Hx]%elem_of_union.
    + exists (length (sockets n)). split; [cbn; lia|done].
    + destruct (Hal _ Hx) as (k & ? & ->). exists k. split; [lia|done].
  - intros p Hp. destruct (Hkn _ Hp) as (k & ? & ?). exists k. rewrite length_app.
    split; [lia|done].
  - intros k s [Hk|[Hle Hk]]%lookup_app_Some; [by apply Hso|].
    apply list_lookup_singleton_Some in Hk as [Hz <-].
    exists [], (session_run EmptyString). split_and!; [done..|]. cbn.
    replace k with (length (sockets n)) by lia. unfold texts_to.
    rewrite list_filter_none; [done|]. apply Forall_forall. intros p Hp Heq.
    destruct (Hkn _ Hp) as (j & Hj & Hpj). rewrite Hpj in Heq.
    apply session_of_inj in Heq. lia.
Qed.

Lemma legacy_step_inv l n n' :
  authentications l -> legacy_inv n -> legacy_step what l n = Some n' -> legacy_inv n'.
Proof.
  intros Hl Hi Hs. unfold legacy_step in Hs. destruct (ended n); [done|].
  assert (match socket_event l with Some (k, e) => handler_step what l k e n | None => None end
    = Some n' -> legacy_inv n') as Hhandler.
  { destruct (socket_event l) as [[k e]|] eqn:Hev; [|done]. by apply handler_step_inv. }
  destruct l as [ec|k ec|k re gen now|k|k ec|k]; try (by apply Hhandler).
  - simplify_eq. destruct ec as [message|]; [|by apply connect_inv].
    destruct Hi as [Hal Hkn Hso Hre]. by split.
  - destruct (sockets n !! k) as [s|] eqn:Hk; [|done]. cbn in Hs.
    destruct (so_released s); [|done]. simplify_eq. destruct Hi as [Hal Hkn Hso Hre].
    split; cbn; [|done..]. intros x [Hx _]%elem_of_difference. by apply Hal.
Qed.

Lemma legacy_run_inv ls n n' :
  Forall authentications ls -> legacy_inv n -> legacy_run what ls n = Some n' -> legacy_inv n'.
Proof.
  intros Hls. revert n. induction Hls as [|l ls Hl Hls IH]; intros n Hi Hr; cbn in Hr.
  - by simplify_eq.
  - destruct (legacy_step what l n) as [n1|] eqn:Hs; [|done]. cbn in Hr.
    eauto using legacy_step_inv.
Qed.

Lemma legacy_inv_initial local (r : R) : legacy_inv (legacy_initial local r).
Proof.
  split; cbn; [by intros s ?%elem_of_empty|by intros p ?%elem_of_nil|by intros k s|].
  intros u s. by rewrite lookup_empty.
Qed.
End invariant.

(** What the dispatcher sends to a session of the first layer is what
    its client gets: in every run of the listener, the sessions and the
    dispatcher, and also when an exception has ended it, each text sent to a
    session is on its wire, in its queue or on its strand, once and in the
    order of the calls, so that the client has received the first of them. *)
Theorem legacy_texts_reach_sockets ls local (r : R) n k s :
  legacy_run what ls (legacy_initial local r) = Some n -> sockets n !! k = Some s ->
  so_wire s ++ so_writeQueue s ++ so_posted s = texts_to (session_of k) (texts (lay n)) /\
  (forall text, so_writing s = Some text -> head (so_writeQueue s) = Some text).
Proof.
  intros Hr Hk.
  assert (legacy_inv (fun _ _ => True) n) as [_ _ Hso _].
  { eapply legacy_run_inv; [|apply legacy_inv_initial|exact Hr].
    apply Forall_forall. intros l _. destruct l as [| |? []| | |]; done. }
  destruct (Hso _ _ Hk) as (es & ws & Hrun & -> & <-).
  pose proof (ws_run_write_inv _ _ _ (session_run_write_inv _) Hrun) as [Ho _ Hw _].
  split; [exact Ho|]. cbn. intros text. rewrite Hw. by destruct (write_failed ws).
Qed.

(** Nobody is found under a name it has not claimed: a session the
    manager finds for a user id exists, and in this run its client sent an
    [auth] object with that user id, which is not empty. *)
Theorem found_session_authenticated ls local (r : R) n u s :
  legacy_run what ls (legacy_initial local r) = Some n -> findSession u (lay n) = Some s ->
  u <> EmptyString /\ exists k raw gen now,
    s = session_of k /\ k < length (sockets n) /\ (LRead k (ReadText raw) gen now ∈ ls) /\
    requested_user raw = Some u.
Proof.
  intros Hr Hf.
  set (Au u s := exists k raw gen now, s = session_of k /\ (LRead k (ReadText raw) gen now ∈ ls) /\
    requested_user raw = Some u).
  assert (legacy_inv Au n) as [Hal _ _ Hre].
  { eapply legacy_run_inv; [|apply legacy_inv_initial|exact Hr].
    apply Forall_forall. intros l Hl. destruct l as [| |k [raw| |] gen now| | |]; try done.
    intros u' Hu. by exists k, raw, gen, now. }
  unfold findSession in Hf. destruct (sessions_ (lay n) !! u) as [s'|] eqn:Hs; [|done].
  destruct (decide (s' ∈ alive (lay n))) as [Hin|]; [|done]. simplify_eq.
  destruct (Hre _ _ Hs) as (k & raw & gen & now & -> & Hl & Hu).
  destruct (Hal _ Hin) as (j & Hj & Heq). apply session_of_inj in Heq as <-. split.
  - intros ->. unfold requested_user in Hu. destruct (json_parse_exn raw) as [m|]; [|done].
    destruct (json_value m "type" _) as [type|]; [|done].
    destruct (json_value m "user_id" _) as [userId|]; [|done].
    destruct (String.eqb type "auth" && negb (str_empty userId)) eqn:Hb; [|done]. injection Hu as ->.
    by rewrite andb_false_r in Hb.
  - by exists k, raw, gen, now.
Qed.
End legacy_net_facts.

(** ** A concrete run *)

Module LegacyNetRun.
#[local] Existing Instances ref_json ref_json_laws ref_uuid ref_uuid_laws.

Definition read_text (k : nat) (raw : string) : legacy_label := LRead k (ReadText raw) uuid_a 0%Z.

(** A client connects, authenticates, stores a message and is told so. *)
Definition chat : list legacy_label :=
  [LConnect None; LConnect (Some "refused"); LHandshake 0 None; read_text 0 LegacyRun.auth;
   LPosted 0; LWritten 0 None; read_text 0 LegacyRun.raw; LPosted 0].

Definition here : string * Z := ("127.0.0.1", 9002%Z).
Definition chatted : legacy_net (R:=list Message) :=
  default (legacy_initial here []) (legacy_run LegacyRun.quiet chat (legacy_initial here [])).

Lemma chat_run : legacy_run LegacyRun.quiet chat (legacy_initial here ([] : list Message)) = Some chatted.
Proof.
  assert (match legacy_run LegacyRun.quiet chat (legacy_initial here ([] : list Message)) with
          | Some _ => true | None => false end = true) as Hb by by vm_compute.
  unfold chatted. by destruct (legacy_run _ _ _).
Qed.

Definition client : socket := default socket_new (sockets chatted !! 0).
Lemma client_at : sockets chatted !! 0 = Some client.
Proof.
  assert (match sockets chatted !! 0 with Some _ => true | None => false end = true) as Hb
    by by vm_compute.
  unfold client. by destruct (sockets chatted !! 0).
Qed.

Lemma legacy_texts_reach_sockets_witness :
  length (store (lay chatted)) = 1 /\ so_wire client = [jq "{'type':'auth_ok'}"] /\
  so_wire client ++ so_writeQueue client ++ so_posted client =
    texts_to (session_of 0) (texts (lay chatted)).
Proof.
  split; [by vm_compute|]. split; [by vm_compute|].
  exact (proj1 (legacy_texts_reach_sockets _ chat here [] chatted 0 client chat_run client_at)).
Defined.

Lemma found_session_authenticated_witness :
  findSession uuid_text_b (lay chatted) = Some (session_of 0) /\ uuid_text_b <> EmptyString.
Proof.
  assert (findSession uuid_text_b (lay chatted) = Some (session_of 0)) as Hf by by vm_compute.
  split; [exact Hf|].
  exact (proj1 (found_session_authenticated _ chat here [] chatted uuid_text_b (session_of 0)
    chat_run Hf)).
Defined.
End LegacyNetRun.
