(* ===== verification/Placeholders.v ===== *)
(** * Servers that only say so

    [infrastructure/http/http_server.cpp], [websocket_server.cpp] of
    [infrastructure/websocket], [presentation/api] and the interface of
    [application/services]: nothing of the program calls them, and all they
    do is to write to the log. *)
From S2P Require Import Prelude CppString Json Domain Mailbox Actor Handlers Runtime.

Section placeholders.
Context `{JsonLib, UuidLib}.

(** [application/services/realtime_dispatcher.hpp]. *)
Class RealtimeDispatcher : Type := { publishToChat : uuid -> string -> prog unit }.

Definition HttpServer_run (port_ : Z) : prog unit :=
  Log info "HTTP server initialized on port {}" [to_string_u (Z.to_N port_)] (Ret tt).

Definition WebSocketServer_run (port_ : Z) : prog unit :=
  Log info "WebSocket server initialized on port {}" [to_string_u (Z.to_N port_)] (Ret tt).

Definition WebSocketServer_publishToChat (chatId : uuid) (payload : string) : prog unit :=
  Log debug "Dispatching event to chat {} payload size {}"
    [uuid_to_string chatId; to_string_u (Z.to_N (str_size payload))] (Ret tt).
#[export] Instance WebSocketServer : RealtimeDispatcher :=
  {| publishToChat := WebSocketServer_publishToChat |}.

Definition ApiRouter_registerRoutes : prog unit := Ret tt.

(** A program that does nothing but write to the log, however it is run. *)
Fixpoint only_logs (p : prog unit) : Prop :=
  match p with Ret _ => True | Log _ _ _ k => only_logs k | _ => False end.

Lemma placeholders_only_log port chatId payload :
  only_logs (HttpServer_run port) /\ only_logs (WebSocketServer_run port) /\
  only_logs (publishToChat chatId payload) /\ only_logs ApiRouter_registerRoutes.
Proof. done. Qed.
End placeholders.

Section publishing.
Context `{JsonLib, UuidLib, LockfreeQueue, ActorOrder} {R : Type} `{!MessageRepository R}.

Lemma only_logs_step c (s s' : shared R) p p' :
  only_logs p -> prog_step c s p = Some (s', p') ->
  only_logs p' /\ exists entry, s' = log_entry s entry.1.1 entry.1.2 entry.2.
Proof.
  destruct p; try done. intros Hp [= <- <-]. split; [done|]. by exists (l, fmt, args).
Qed.

(** An event published to a chat reaches nobody: nothing is sent, stored or
    put into a mailbox. *)
Lemma published_event_goes_nowhere chatId payload c (s s' : shared R) p' :
  prog_step c s (publishToChat chatId payload) = Some (s', p') ->
  p' = Ret tt /\ outbox s' = outbox s /\ repository s' = repository s /\ actors_ s' = actors_ s.
Proof. intros [= <- <-]. done. Qed.
End publishing.
